(* ===== verification/_CoqProject ===== *)
-Q . S2P
Prelude.v
Effect.v
ByteOrder.v
Tls.v
World.v
Conn.v
Socket.v
Proto.v
SocketFacts.v
Codec.v
Toy.v
Field.v
Conversation.v
Turn.v
Zigurat.v
Failures.v
Open.v
Session.v
Zeytun.v
Text.v
Page.v
Float.v
Rounding.v
Imaging.v
Resample.v
Kernels.v
Convolve.v
Holding.v
TwoPass.v
Windows.v
Resized.v
Tensor.v
Closure.v
Compile.v
Shape.v
Producer.v
Csv.v
Slots.v
Table.v
Record.v
Meaning.v
Typed.v
Visit.v
Key.v
Frame.v
Cached.v
Described.v
Evaluate.v
Running.v
Reading.v
Recorded.v
Specified.v
Service.v
Gained.v
Gradient.v
Machine.v
Makes.v
Compound.v
Step.v
Slices.v
Simulate.v
Agreement.v
Eager.v
ToyFlow.v
Reached.v
Start.v
Deviations.v
