(* ===== verification/Prelude.v ===== *)
(** * The C of cocolog, verified

    cocolog is a Prolog whose parts written in C are the clients it reaches the
    world with and the back ends its modules stand on.  This development models
    three of them: the clients under src/client (zigurat.c, the binary protocol
    spoken to a Zigurat server or to the engine linked into the process; tls.c,
    TLS for both clients; zeytun.c, a one-page-at-a-time HTTP client); the
    tensors of src/modules/tensorflow/backend.c, run at once or recorded and
    compiled; and the image resize of src/modules/opencv/pil (pil-resample.c
    and Pillow's Resample.c).

    ** How the C is modelled

    Effect.v is the state monad every operation is written in.  Running one
    ends in [Ret] (it returned), [Block] (it waits for an answer that never
    comes, or did what C leaves undefined) or [Spin] (its loop was still going when the fuel ran out); [wp]
    is the program logic.  A loop is [while], whose fuel is a measure of the
    state it starts in; no theorem assumes the fuel suffices: [Spin] satisfies
    no postcondition, so every [wp] is also a termination theorem, and
    [drain_terminates] says for any input at all that [zg_drain] never spins.

    World.v is everything outside: what the peer sends and in which pieces,
    what each send accepts, what each flock, resolver, connect, handshake,
    open and malloc answers -- queues in the state, consumed in order -- and a
    record of what was done to it: bytes sent, descriptors open, TLS handles
    live, time slept, the lock.  A theorem about all worlds is one about all
    behaviours of the environment.  The embedded engine is a class ([Engine]),
    strerror and the linked libraries another ([Platform]), the byte order a
    third ([Host]); OpenSSL is the argument [ossl_answers].  Toy.v gives each
    a concrete reading for the witnesses to evaluate on.

    The back end's surroundings are in its state and its classes in the same
    way: [tfst] holds the static arrays of backend.c, the TensorFlow handles
    that are live, and a queue saying of each call into TensorFlow's C API
    whether it fails and with what words; the class [TensorFlow] (Tensor.v) is
    what its kernels, its shape inference and its compiled functions compute.
    The shim of libImaging allocates from a queue of answers ([pil],
    Imaging.v); sine and cosine are the class [Libm].

    Bytes are [Byte.byte]; integers are [Z] at the width the C gives them
    ([uint], [sint]); a double on the wire is its 64 bits; a string that the C passes as
    char* is cut at its first NUL by [c_str] where the C calls strlen or
    prints it, and [snprintf] truncates to its buffer.

    ** The files

    - Prelude.v: bytes, C strings, machine integers, list lemmas, hints.
    - Effect.v: the monad, [while], [wp] and its rules.
    - ByteOrder.v: [host_is_big_endian], [reorder]; big-endian bytes.
    - Tls.v: tls.c -- [coco_client_tls_open] as the sequence of OpenSSL calls
      it makes, its cleanup, and the reason kept for a session that stopped.
    - World.v: the environment and the system calls.
    - Conn.v: zigurat.c's [struct zg_conn], its error texts, the per-thread
      sessions ([ce_of], [ce_forget]), [take_turn] and [give_turn],
      [zg_serialise].
    - Socket.v: [lost], [wr_now], [flush_out], [wr], [rd], [skip], and the
      primitive values; SocketFacts.v proves them against two abstractions,
      [wire] (all that was ever written, sent or held back) and [stream] (all
      there is to read, received or not).
    - Proto.v: [dial], [zg_open], [zg_open_embed], [zg_reopen], [zg_close], all
      verbs, all typed writes and reads, [zg_skip_field], [zg_drain].
    - Codec.v: [emits] and [talks], the algebra of conversations: against a
      peer that has sent exactly these bytes the operation says exactly those,
      takes all of them, and answers this.  It composes along the monad.
    - Field.v: the wire format of zigurat.h as data, with [encode].
    - Conversation.v: what each verb says and expects; the totality of drains.
    - Turn.v: the lock; processes taking turns as a step relation.
    - Zigurat.v, Failures.v, Open.v, Session.v: the theorems about zigurat.c.
    - Zeytun.v: zeytun.c's connection, [slurp], [zt_get2]; Page.v its theorems.
    - Text.v: [zt_unescape] on its buffer, [zt_urlencode], with theirs.
    - Toy.v: a concrete engine, platform and host, and connections on them.

    The image resize:
    - Float.v: C's float and double as IEEE values, and their conversions.
      Rounding.v: what their operations compute, as reals: the nearest number
      ([rounds]), how far off that is, and their order.
    - Imaging.v: Imaging.h and the shim in pil-resample.c: images, their
      allocation, copy and deletion, the error kept.
    - Resample.v: Resample.c -- the filters, [precompute_coeffs], the passes
      for 8, 16 and 32 bits, [ImagingResampleInner], [ImagingResample] -- and
      [pil_resample_8u].
    - Kernels.v: the reference, written from the definition of the resize and
      not from Resample.c: [kernel], [pixels], [share], [coef], [resampled].
    - Convolve.v: what a pass computes; Holding.v: what is allocated while it
      does; TwoPass.v: the two passes; Windows.v: the code's filters, windows
      and coefficients are the reference's, its windows are inside the image
      and have room, and the box's and the triangle's coefficients are light;
      Resized.v: the theorems.

    The tensor back end (backend.c):
    - Tensor.v: slots, handles, device, seed, scalar cache.  Closure.v: the
      walk down from a node and the key of what it finds.  Compile.v: the
      table of compiled closures, calls and results, [tfb_force],
      [tfb_values], [tfb_shape].  Shape.v: [shape_rule].  Producer.v:
      [run_spec] and every producer, [tfb_step], [tfb_grad].  Csv.v:
      [tfb_load_csv], with strtod(3) and fgets(3).
    - Slots.v, Table.v, Record.v: the invariant of the slot table ([wf]), kept
      by making, taking, freeing and recording.
    - Meaning.v: [means s h t], the tensor a handle stands for, computed or
      not, and what a slot tells of it ([fits], [exact]).  Typed.v: the shapes
      TensorFlow documents, as a reference ([doc_dims]), and that the rules of
      Shape.v agree with it.  Visit.v: what the walk collects.  Key.v: a key spells a closure
      and is read back.  Frame.v: what every operation leaves alone, as a class
      ([Framed]).  Cached.v: runs while the table of compiled closures is
      [sane].  Described.v: entries hold the function their key describes.
      Evaluate.v: what a function computes.  Running.v, Reading.v: running a
      closure gives every node the tensor it stands for.  Recorded.v,
      Specified.v: recording and running at once give the same tensor, and the
      shape and type recorded are its own.  Service.v: values, the scalar
      cache, temporaries.  Gained.v, Gradient.v: [tfb_grad] answers the
      derivatives of the loss as it is now.
    - Machine.v: the abstract machine, a map from handles to tensors, and what
      it is for a state to represent one.  Makes.v, Compound.v, Step.v: what
      each producer makes -- operations, aggregates, reshaping, steps, chance,
      files.
      Simulate.v: every call answers as the machine may.  Agreement.v:
      programs, and their runs compared.  Eager.v: when running at once
      succeeds.  ToyFlow.v: a concrete TensorFlow.  Reached.v: the theorems,
      from the state as loaded.  Start.v: [tfb_init] and [tfb_attach], that
      leave that state.  Deviations.v: runs that show what the code gets
      wrong.

    ** What is proved

    - The protocol (Zigurat.v): a call with parameters of every type and
      answers of every shape; pipelining; the round trip of every value; reads
      in any segmentation; no read waits on a request still held back; the
      skip of any field, nested to any depth; termination on any input.
    - Turns (Turn.v): mutual exclusion of any number of processes under any
      interleaving; the wait and its bound; commit and rollback end a turn.
    - Failures (Failures.v): too-long arguments, too-long answers, refusals,
      exceptions, closed connections (where there is no turn to take).
    - Opening (Open.v) and sessions (Session.v): descriptors are neither leaked
      nor closed twice; a configured TLS is never silently dropped; one engine
      session for each thread and connection; embedded handles never block.
    - TLS (Tls.v): what a verified handshake had configured before it; nothing
      leaks; a half pair of certificate and key is refused.
    - Pages (Page.v, Text.v): exactly the request, exactly the body; nothing
      left open on any path; the text conversions and their inverses.

    - The resize (Resized.v), for images of at most 2^24 pixels a side and any
      size asked for: every channel of every pixel is what the reference makes
      of the rows and then of the columns; nothing is kept, whichever
      allocation fails, and no access or int is out of range.  Of the bicubic,
      Hamming and Lanczos filters it is assumed that the coefficients of each
      output add up in size to no more than an int has room for ([light], a
      test that evaluates); of the box and the bilinear filter it is proved
      ([light_nonneg]).  Asked for the size it has, an image is copied, by any
      filter ([same_size_copied]).  The examples of Resized.v are the numbers
      of test/opencv.pl.
    - Tensors (Reached.v, Eager.v): [tensor_calls_refine], in either mode the
      back end answers as the machine may; [modes_agree], recording computes
      what running at once computes, of programs without chance
      (tfb_random, tfb_randperm), without the aggregate std, whose count may be
      read off the wrong shape of an empty tensor, and without scalars and step
      sizes that are 0 as floats, of which the cache takes 0 and -0 for one
      ([definite]); [gradients_answered], what a gradient
      answers in any state the back end can be in; [slots_counted] and
      [freed_leaves_nothing], reference counts are right and nothing is kept
      that cannot be named; [slots_typed], the shapes and types slots hold are
      their tensors';
      [eager_operation_answers], in eager mode only TensorFlow and a full
      table refuse; [randperm_permutes]; [attach_starts] (Start.v), how the
      back end comes up and every way it does not.

    Fuel: [while] and the recursions of backend.c are bounded by a measure of
    their starting state; [really_free] by the number of slots, each free
    leaving one fewer live ([nlive]); the walk of a closure by the number of
    nodes and leaves it may hold.  The theorems about the back end say that
    it returns, with one proviso ([ensures], Cached.v): if a key filled its
    one-megabyte buffer, or a function was made but could not be registered,
    nothing is said from then on.

    What the theorems about tensors ask of TensorFlow: [runs_graphs], that a
    function built from a graph computes what its operations compute; [flat],
    that inferred shapes fit TF_MAXDIM sizes; [infers], that the sizes it
    infers are the result's; [documented], that an operation's result has the
    sizes and the type its documentation gives ([doc_dims], [doc_dtype]); and,
    of gradients, [differentiates], that a function asked for one gives the
    derivative [D] of its graph, whatever TensorFlow's derivative is, of the
    sizes of what it is taken by.  ToyFlow.v meets all five.  Of the caller they ask [sized]: sizes that are
    not negative, at most TF_MAXDIM of them, their product in 64 bits.

    Where the code departs from what it says, the departure is a theorem too:
    [wide_vector_left], [dead_commit_keeps_turn], [failed_greeting_leaks_tls],
    [embedded_not_offered], [short_page_answered], [long_page_answered], and
    those of Deviations.v.  [exception_closes] is one from zigurat.h, whose head
    and whose word on zg_result have the connection usable after a procedure
    threw; zg_result closes it, and its own comment says so.  Because bcast takes 0 against 1 for 1
    ([bcast_of_empty]), a shape is only told right where its size is not 0
    ([agrees]).

    ** What is not modelled

    Time limits on sockets appear only as the errors they cause; a signal only
    as EINTR; allocation failure where the code tests for it.  Two threads
    sharing one connection are outside the code's contract, as zigurat.h says.
    Of several processes, those that serialise on one file.  The struct that
    [coco_client_tls_open] allocates around its two OpenSSL halves, the cut of
    [zg_open]'s message to the caller's buffer, and contraction of the resize's
    products and sums (a*b+c in one rounding) by the compiler.
    Of backend.c, the profiling under COCO_TF_TRACE; a file [tfb_load_csv]
    opens is all its bytes: no read of it fails halfway; the switch between
    the modes is read where the program can turn it ([C_mode]).
    The abstract machine has the calls listed in [call]: every producer but
    two, and [gradients_answered] is on top of it.  Concatenation and gathering
    are modelled in Producer.v and Shape.v without a theorem of their own,
    since what one would say is false: the rule of ConcatV2 adds up a size
    that is only told right where it is not 0 ([concat_of_empty]) and that of
    GatherV2 does not look whether there is room for the sizes it joins.
    modules/clay/clay.h is vendored, client/probe.c and embed/smoke.c are test
    programs. *)
From Stdlib Require Export Strings.Byte.
From stdpp Require Export base list gmap strings.
From Stdlib Require Export ZArith Lia.

#[export] Set Default Goal Selector "!".

Declare Scope coco_scope.
Delimit Scope coco_scope with coco.
Open Scope coco_scope.

(** ** Bytes and C strings *)

Abbreviation bytes := (list Byte.byte).

#[export] Instance byte_eq_decision : EqDecision Byte.byte := Byte.byte_eq_dec.

(** A string literal of the source, as the bytes the compiler lays out
    (without the final NUL). *)
Definition lit (s : string) : bytes := String.list_byte_of_string s.

Notation "$ s" := (lit s%string) (at level 1, s at level 0, format "$ s") : coco_scope.

Definition nul : Byte.byte := "000"%byte.

(** The C string a buffer holds: everything before the first NUL. *)
Fixpoint c_str (b : bytes) : bytes :=
  match b with
  | [] => []
  | x :: r => if decide (x = nul) then [] else x :: c_str r
  end.

(** What [snprintf(dst, cap, "%s", s)] leaves in [dst] as a C string. *)
Definition snprintf_s (cap : nat) (s : bytes) : bytes := take (cap - 1) (c_str s).

(** [snprintf(dst, cap, "%s: %s", a, b)]. *)
Definition snprintf_ss (cap : nat) (a b : bytes) : bytes :=
  take (cap - 1) (c_str a ++ $": " ++ c_str b).

(** Holds no NUL, so it is its own C string. *)
Definition no_nul (b : bytes) : Prop := nul ∉ b.

Lemma c_str_no_nul b : no_nul (c_str b).
Proof.
  unfold no_nul. induction b as [|x b IH]; simpl; [by apply not_elem_of_nil|].
  destruct (decide (x = nul)) as [|Hx]; [by apply not_elem_of_nil|].
  apply not_elem_of_cons. split; [congruence|done].
Qed.

Lemma c_str_id b : no_nul b → c_str b = b.
Proof.
  unfold no_nul. induction b as [|x b IH]; simpl; intros H; [done|].
  case_decide; [set_solver|]. f_equal. apply IH. set_solver.
Qed.

Lemma c_str_length b : length (c_str b) ≤ length b.
Proof. induction b; simpl; [lia|]. case_decide; simpl; lia. Qed.

Lemma c_str_idem b : c_str (c_str b) = c_str b.
Proof. apply c_str_id, c_str_no_nul. Qed.

Lemma c_str_app_nul b r : no_nul b → c_str (b ++ nul :: r) = b.
Proof.
  unfold no_nul. induction b as [|x b IH]; simpl; intros H; [done|].
  case_decide; [set_solver|]. f_equal. apply IH. set_solver.
Qed.

#[export] Instance no_nul_decision b : Decision (no_nul b).
Proof. unfold no_nul. apply _. Defined.

(** [strncmp(b, p, strlen(p)) == 0], and [strstr(b, p)] as an offset, on C
    strings. *)
Fixpoint starts (p b : bytes) : bool :=
  match p, b with
  | [], _ => true
  | x :: p, y :: b => if decide (x = y) then starts p b else false
  | _ :: _, [] => false
  end.

Fixpoint strstr (b p : bytes) : option nat :=
  if starts p b then Some 0
  else match b with
       | [] => None
       | _ :: r => S <$> strstr r p
       end.

Lemma starts_spec p b : starts p b = true ↔ ∃ r, b = p ++ r.
Proof.
  revert b. induction p as [|x p IH]; intros b; cbn [starts].
  - split; [by eexists|done].
  - destruct b as [|y b]; [split; [done|by intros [? ?]]|].
    destruct (decide (x = y)) as [->|Hne].
    + rewrite IH. split; intros [r Hr]; exists r; [by rewrite Hr|].
      by apply (inj (cons y)) in Hr.
    + split; [done|]. intros [r Hr]. by inversion Hr.
Qed.

Lemma starts_app p r : starts p (p ++ r) = true.
Proof. apply starts_spec. by eexists. Qed.

(** The first occurrence, and nothing but an occurrence. *)
Lemma strstr_spec b p n :
  strstr b p = Some n ↔
  starts p (drop n b) = true ∧ n ≤ length b ∧ ∀ m, m < n → starts p (drop m b) = false.
Proof.
  revert n. induction b as [|x b IH]; intros n; cbn [strstr].
  - destruct (starts p []) eqn:E.
    + split; [intros [= <-]; split_and!; [done|simpl; lia|lia]|].
      intros (_ & Hn & Hm). f_equal. destruct n; [done|].
      specialize (Hm 0 ltac:(lia)). cbn [drop] in Hm. congruence.
    + split; [done|]. intros (H & Hn & _). simpl in Hn.
      assert (n = 0) as -> by lia. cbn [drop] in H. congruence.
  - destruct (starts p (x :: b)) eqn:E.
    + split; [intros [= <-]; split_and!; [done|lia|lia]|].
      intros (_ & Hn & Hm). f_equal. destruct n; [done|].
      specialize (Hm 0 ltac:(lia)). cbn [drop] in Hm. congruence.
    + destruct n as [|n].
      * split; [by destruct (strstr b p)|]. intros (H & _). cbn [drop] in H. congruence.
      * rewrite fmap_Some. setoid_rewrite IH. split.
        { intros (m & (H1 & H2 & H3) & [= <-]). split_and!; [done|simpl; lia|].
          intros [|k] Hk; [done|]. apply H3. lia. }
        { intros (H1 & H2 & H3). exists n. split; [|done]. split_and!; [done|simpl in *; lia|].
          intros m Hm. apply (H3 (S m)). lia. }
Qed.

(** ** Machine integers *)

(** An unsigned integer of [w] bits, wrapped. *)
Definition uint (w : Z) (z : Z) : Z := (z mod 2 ^ w)%Z.

(** A two's-complement integer of [w] bits, wrapped. *)
Definition sint (w : Z) (z : Z) : Z :=
  let m := (z mod 2 ^ w)%Z in
  if decide (m < 2 ^ (w - 1))%Z then m else (m - 2 ^ w)%Z.

Definition in_uint (w z : Z) : Prop := (0 ≤ z < 2 ^ w)%Z.
Definition in_sint (w z : Z) : Prop := (- 2 ^ (w - 1) ≤ z < 2 ^ (w - 1))%Z.

Lemma uint_id w z : in_uint w z → uint w z = z.
Proof. unfold in_uint, uint. apply Z.mod_small. Qed.

Lemma uint_range w z : (0 ≤ w)%Z → in_uint w (uint w z).
Proof. intros. unfold in_uint, uint. apply Z.mod_pos_bound. lia. Qed.

Lemma pow_half w : (0 < w)%Z → (2 ^ w = 2 * 2 ^ (w - 1))%Z.
Proof. intros. rewrite <- Z.pow_succ_r by lia. f_equal. lia. Qed.

Lemma sint_range w z : (0 < w)%Z → in_sint w (sint w z).
Proof.
  intros Hw. pose proof (Z.mod_pos_bound z (2 ^ w)%Z ltac:(lia)).
  pose proof (pow_half w Hw). unfold in_sint, sint. case_decide; lia.
Qed.

Lemma sint_id w z : (0 < w)%Z → in_sint w z → sint w z = z.
Proof.
  unfold in_sint, sint. intros Hw Hz. pose proof (pow_half w Hw).
  destruct (decide (0 ≤ z)%Z) as [Hp|Hn].
  - rewrite Z.mod_small by lia. case_decide; lia.
  - replace (z mod 2 ^ w)%Z with (z + 2 ^ w)%Z.
    + case_decide; lia.
    + apply Z.mod_unique with (-1)%Z; lia.
Qed.

Lemma sint_uint w z : (0 ≤ w)%Z → sint w (uint w z) = sint w z.
Proof. intros. unfold sint, uint. rewrite Z.mod_mod by lia. done. Qed.

(** ** Bytes as integers *)

Definition byte_val (b : Byte.byte) : Z := Z.of_N (Byte.to_N b).

Definition byte_of (z : Z) : Byte.byte :=
  match Byte.of_N (Z.to_N (z mod 256)) with
  | Some b => b
  | None => nul
  end.

Lemma byte_val_range b : (0 ≤ byte_val b < 256)%Z.
Proof. unfold byte_val. pose proof (Byte.to_N_bounded b). lia. Qed.

Lemma byte_val_of z : byte_val (byte_of z) = (z mod 256)%Z.
Proof.
  unfold byte_val, byte_of. pose proof (Z.mod_pos_bound z 256 ltac:(lia)).
  destruct (Byte.of_N (Z.to_N (z mod 256))) eqn:E.
  - apply Byte.to_of_N in E. rewrite E. lia.
  - apply Byte.of_N_None_iff in E. lia.
Qed.

Lemma byte_of_val b : byte_of (byte_val b) = b.
Proof.
  unfold byte_of. pose proof (byte_val_range b). rewrite Z.mod_small by lia.
  unfold byte_val. rewrite N2Z.id, Byte.of_to_N. done.
Qed.

Lemma byte_val_inj a b : byte_val a = byte_val b → a = b.
Proof. intros H. rewrite <- (byte_of_val a), H. apply byte_of_val. Qed.

(** ** Lists *)

Lemma take_drop_split {A} n (l : list A) : l = take n l ++ drop n l.
Proof. symmetry. apply take_drop. Qed.

Lemma drop_drop_add {A} n m (l : list A) : drop n (drop m l) = drop (m + n) l.
Proof. by rewrite drop_drop. Qed.

Lemma app_take_length {A} (l k : list A) : take (length l) (l ++ k) = l.
Proof. by rewrite take_app_length. Qed.

Lemma take_min {A} k (l : list A) : take (k `min` length l) l = take k l.
Proof.
  destruct (decide (k ≤ length l)); [by rewrite Nat.min_l by lia|].
  rewrite Nat.min_r by lia. by rewrite !take_ge by lia.
Qed.

Lemma drop_min {A} k (l : list A) : drop (k `min` length l) l = drop k l.
Proof.
  destruct (decide (k ≤ length l)); [by rewrite Nat.min_l by lia|].
  rewrite Nat.min_r by lia. by rewrite !drop_ge by lia.
Qed.

(** Splitting a known prefix off a longer list. *)
Lemma app_prefix_split {A} (a b c d : list A) :
  a ++ b = c ++ d → length a ≤ length c → ∃ e, c = a ++ e ∧ b = e ++ d.
Proof.
  intros H Hl. exists (drop (length a) c). split.
  - rewrite <- (take_drop (length a) c) at 1. f_equal.
    apply (f_equal (take (length a))) in H.
    rewrite take_app_length, take_app_le in H by lia. done.
  - apply (f_equal (drop (length a))) in H.
    rewrite drop_app_length, drop_app_le in H by lia. done.
Qed.

(** ** Hints and tactics *)

Create HintDb coco discriminated.
#[export] Hint Constants Opaque : coco.
#[export] Hint Variables Transparent : coco.

(** Split on the next [if decide] or [match] of the goal, keeping the equation. *)
Ltac split_on_match :=
  repeat match goal with
  | |- context [decide ?P] => destruct (decide P)
  end.

(** Membership in a concatenation of lists. *)
Ltac mem := rewrite ?elem_of_app, ?elem_of_cons; tauto.

Lemma take_bound {A} n (l : list A) : length (take n l) ≤ n.
Proof. rewrite length_take. lia. Qed.
(** One for each. *)
Lemma Forall_choose {A B} (P : A → B → Prop) l : Forall (λ a, ∃ b, P a b) l → ∃ k, Forall2 P l k.
Proof. induction 1 as [|a l [b Hb] _ [k Hk]]; [by exists []|]. exists (b :: k). by constructor. Qed.
