(* ===== verification/Effect.v ===== *)
(** * Effects

    The client is C: it mutates a connection and talks to the operating
    system, and every operation may fail, or wait for ever.  This file is the
    state monad the components are written in, generic in the state, and its
    program logic. *)
From S2P Require Import Prelude.

Section effect.
Context {S : Type}.

(** The outcome of running a call: it returned; it is waiting for an answer
    the environment never gives; or a loop's measure was exhausted, which
    the logic below excludes. *)
Inductive res (A : Type) : Type :=
| Ret (a : A) (s : S)
| Block (s : S)
| Spin (s : S).
#[global] Arguments Ret {A}.
#[global] Arguments Block {A}.
#[global] Arguments Spin {A}.

Definition M (A : Type) : Type := S → res A.

Definition ret {A} (a : A) : M A := λ s, Ret a s.
Definition bind {A B} (m : M A) (k : A → M B) : M B := λ s,
  match m s with
  | Ret a s' => k a s'
  | Block s' => Block s'
  | Spin s' => Spin s'
  end.
Definition get : M S := λ s, Ret s s.
Definition gets {A} (f : S → A) : M A := λ s, Ret (f s) s.
Definition modify (f : S → S) : M unit := λ s, Ret tt (f s).
Definition block {A} : M A := λ s, Block s.
Definition when (b : bool) (m : M unit) : M unit := if b then m else ret tt.

(** [if (!m) return 0;] for a call that answers an int... *)
Definition guard {A} (m : M bool) (k : M (option A)) : M (option A) :=
  bind m (λ ok, if ok then k else ret None).
Definition guardb (m : M bool) (k : M bool) : M bool :=
  bind m (λ ok, if ok then k else ret false).
(** ... and for one that also fills something in. *)
Definition bindo {A B} (m : M (option A)) (k : A → M (option B)) : M (option B) :=
  bind m (λ o, match o with Some a => k a | None => ret None end).
Definition bindb {A} (m : M (option A)) (k : A → M bool) : M bool :=
  bind m (λ o, match o with Some a => k a | None => ret false end).

(** A loop: [body] answers [inl] to go round again and [inr] to leave.  The
    measure is evaluated once, on entry, and bounds the rounds. *)
Fixpoint iter {A B} (fuel : nat) (body : A → M (A + B)) (a : A) : M B :=
  match fuel with
  | O => λ s, Spin s
  | Datatypes.S f => bind (body a) (λ r,
      match r with inl a' => iter f body a' | inr b => ret b end)
  end.
Definition while {A B} (mu : A → S → nat) (body : A → M (A + B)) (a : A) : M B :=
  λ s, iter (Datatypes.S (mu a s)) body a s.

(** ** The logic *)

(** [wp m Q B s]: run from [s], [m] either returns in [Q] or waits in [B];
    it never exhausts a loop's measure. *)
Definition wp {A} (m : M A) (Q : A → S → Prop) (B : S → Prop) (s : S) : Prop :=
  match m s with
  | Ret a s' => Q a s'
  | Block s' => B s'
  | Spin _ => False
  end.

Lemma wp_ret {A} (a : A) Q B s : Q a s → wp (ret a) Q B s.
Proof. done. Qed.

Lemma wp_bind {A B'} (m : M A) (k : A → M B') Q B s :
  wp m (λ a s', wp (k a) Q B s') B s → wp (bind m k) Q B s.
Proof. unfold wp, bind. by destruct (m s). Qed.

Lemma wp_bind_inv {A B'} (m : M A) (k : A → M B') Q B s :
  wp (bind m k) Q B s → wp m (λ a s', wp (k a) Q B s') B s.
Proof. unfold wp, bind. by destruct (m s). Qed.

Lemma wp_mono {A} (m : M A) (Q Q' : A → S → Prop) (B B' : S → Prop) s :
  wp m Q B s → (∀ a s', Q a s' → Q' a s') → (∀ s', B s' → B' s') → wp m Q' B' s.
Proof. unfold wp. destruct (m s); naive_solver. Qed.

Lemma wp_and {A} (m : M A) (Q Q' : A → S → Prop) (B B' : S → Prop) s :
  wp m Q B s → wp m Q' B' s →
  wp m (λ a s', Q a s' ∧ Q' a s') (λ s', B s' ∧ B' s') s.
Proof. unfold wp. destruct (m s); naive_solver. Qed.

Lemma wp_get Q B s : Q s s → wp get Q B s.
Proof. done. Qed.
Lemma wp_gets {A} (f : S → A) Q B s : Q (f s) s → wp (gets f) Q B s.
Proof. done. Qed.
Lemma wp_modify f Q B s : Q tt (f s) → wp (modify f) Q B s.
Proof. done. Qed.
Lemma wp_block {A} (Q : A → S → Prop) (B : S → Prop) s : B s → wp block Q B s.
Proof. done. Qed.

Lemma wp_guard {A} (m : M bool) (k : M (option A)) Q B s :
  wp m (λ ok s', if ok then wp k Q B s' else Q None s') B s →
  wp (guard m k) Q B s.
Proof.
  intros H. apply wp_bind. eapply wp_mono; [exact H| |done].
  by intros [] s'.
Qed.
Lemma wp_guardb (m : M bool) (k : M bool) Q B s :
  wp m (λ ok s', if ok then wp k Q B s' else Q false s') B s →
  wp (guardb m k) Q B s.
Proof.
  intros H. apply wp_bind. eapply wp_mono; [exact H| |done].
  by intros [] s'.
Qed.
Lemma wp_bindo {A B'} (m : M (option A)) (k : A → M (option B')) Q B s :
  wp m (λ o s', match o with Some a => wp (k a) Q B s' | None => Q None s' end) B s →
  wp (bindo m k) Q B s.
Proof.
  intros H. apply wp_bind. eapply wp_mono; [exact H| |done].
  by intros [] s'.
Qed.
Lemma wp_bindb {A} (m : M (option A)) (k : A → M bool) Q B s :
  wp m (λ o s', match o with Some a => wp (k a) Q B s' | None => Q false s' end) B s →
  wp (bindb m k) Q B s.
Proof.
  intros H. apply wp_bind. eapply wp_mono; [exact H| |done].
  by intros [] s'.
Qed.

Lemma wp_if {A} (c : bool) (m1 m2 : M A) Q B s :
  (c = true → wp m1 Q B s) → (c = false → wp m2 Q B s) →
  wp (if c then m1 else m2) Q B s.
Proof. destruct c; auto. Qed.

(** The loop rule: an invariant, and a measure every further round brings
    down. *)
Lemma wp_while {A B'} (mu : A → S → nat) (body : A → M (A + B'))
    (I : A → S → Prop) Q B a s :
  (∀ a s, I a s →
     wp (body a) (λ r s', match r with
                          | inl a' => I a' s' ∧ mu a' s' < mu a s
                          | inr b => Q b s'
                          end) B s) →
  I a s → wp (while mu body a) Q B s.
Proof.
  intros Hbody HI. unfold while.
  assert (∀ n a s, mu a s < n → I a s → wp (iter n body a) Q B s) as Hiter.
  { clear a s HI. induction n as [|n IH]; intros a s Hn HI; [lia|].
    apply wp_bind. eapply wp_mono; [apply Hbody, HI| |done].
    intros [a'|b] s'; [|done]. intros [HI' Hlt]. apply IH; [lia|done]. }
  apply Hiter; [lia|done].
Qed.
End effect.

Arguments res : clear implicits.
Arguments M : clear implicits.

Notation "x <- m ;; k" := (bind m (λ x, k))
  (at level 100, m at next level, right associativity) : coco_scope.
Notation "m ;; k" := (bind m (λ _, k)) (at level 100, right associativity) : coco_scope.
Notation "m ?;; k" := (guard m k) (at level 100, right associativity) : coco_scope.
Notation "m &; k" := (guardb m k) (at level 100, right associativity) : coco_scope.
Notation "x <-? m ;; k" := (bindo m (λ x, k))
  (at level 100, m at next level, right associativity) : coco_scope.
Notation "x <-& m ;; k" := (bindb m (λ x, k))
  (at level 100, m at next level, right associativity) : coco_scope.

(** Symbolic execution of the structural constructs. *)
Ltac wp_step :=
  lazymatch goal with
  | |- wp (ret _) _ _ _ => apply wp_ret
  | |- wp (bind _ _) _ _ _ => apply wp_bind
  | |- wp (guard _ _) _ _ _ => apply wp_guard
  | |- wp (guardb _ _) _ _ _ => apply wp_guardb
  | |- wp (bindo _ _) _ _ _ => apply wp_bindo
  | |- wp (bindb _ _) _ _ _ => apply wp_bindb
  | |- wp get _ _ _ => apply wp_get
  | |- wp (gets _) _ _ _ => apply wp_gets
  | |- wp (modify _) _ _ _ => apply wp_modify
  | |- wp block _ _ _ => apply wp_block
  end.
Ltac wp_steps := repeat (wp_step; cbn beta).
