(* ===== verification/ByteOrder.v ===== *)
(** * Byte order

    client/zigurat.c's [host_is_big_endian] and [reorder], and the codec they
    amount to: a value's object representation on this host, reordered, is its
    big-endian bytes on every host. *)
From S2P Require Import Prelude.

(** ** Little- and big-endian bytes of an integer *)

Fixpoint le_bytes (n : nat) (z : Z) : bytes :=
  match n with
  | O => []
  | S n => byte_of z :: le_bytes n (z / 256)
  end.

Fixpoint le_val (b : bytes) : Z :=
  match b with
  | [] => 0
  | x :: r => byte_val x + 256 * le_val r
  end.

Definition be_bytes (n : nat) (z : Z) : bytes := reverse (le_bytes n z).
Definition be_val (b : bytes) : Z := le_val (reverse b).

Lemma length_le_bytes n z : length (le_bytes n z) = n.
Proof. revert z. induction n; simpl; intros; [done|]. by rewrite IHn. Qed.

Lemma length_be_bytes n z : length (be_bytes n z) = n.
Proof. unfold be_bytes. by rewrite length_reverse, length_le_bytes. Qed.

Lemma le_val_bytes n z : le_val (le_bytes n z) = (z mod 256 ^ Z.of_nat n)%Z.
Proof.
  revert z. induction n as [|n IH]; intros z; cbn [le_bytes le_val].
  - by rewrite Z.mod_1_r.
  - rewrite byte_val_of, IH, Nat2Z.inj_succ, Z.pow_succ_r by lia.
    by rewrite Z.rem_mul_r by lia.
Qed.

Lemma le_bytes_val b : le_bytes (length b) (le_val b) = b.
Proof.
  induction b as [|x b IH]; [done|]. cbn [length le_bytes le_val].
  pose proof (byte_val_range x) as Hx.
  replace (byte_val x + 256 * le_val b)%Z with (byte_val x + le_val b * 256)%Z by lia.
  rewrite Z.div_add, Z.div_small, Z.add_0_l, IH by lia. f_equal.
  apply byte_val_inj. rewrite byte_val_of, Z.mod_add by lia.
  by apply Z.mod_small.
Qed.

Lemma be_val_bytes n z : be_val (be_bytes n z) = (z mod 256 ^ Z.of_nat n)%Z.
Proof. unfold be_val, be_bytes. by rewrite reverse_involutive, le_val_bytes. Qed.

Lemma be_bytes_val b : be_bytes (length b) (be_val b) = b.
Proof.
  unfold be_val, be_bytes. rewrite <- (length_reverse b), le_bytes_val.
  apply reverse_involutive.
Qed.

Lemma be_bytes_val_n n b : length b = n → be_bytes n (be_val b) = b.
Proof. intros <-. apply be_bytes_val. Qed.

Lemma le_bytes_mod n z : le_bytes n (z mod 256 ^ Z.of_nat n)%Z = le_bytes n z.
Proof.
  rewrite <- le_val_bytes. rewrite <- (length_le_bytes n z) at 1.
  apply le_bytes_val.
Qed.

Lemma be_bytes_mod n z : be_bytes n (z mod 256 ^ Z.of_nat n)%Z = be_bytes n z.
Proof. unfold be_bytes. by rewrite le_bytes_mod. Qed.

Lemma le_val_range b : (0 ≤ le_val b < 256 ^ Z.of_nat (length b))%Z.
Proof.
  rewrite <- (le_bytes_val b) at 1 2. rewrite le_val_bytes.
  apply Z.mod_pos_bound. lia.
Qed.

Lemma be_val_range b : (0 ≤ be_val b < 256 ^ Z.of_nat (length b))%Z.
Proof. unfold be_val. rewrite <- (length_reverse b). apply le_val_range. Qed.

Lemma pow256 n : (256 ^ Z.of_nat n = 2 ^ (8 * Z.of_nat n))%Z.
Proof. change 256%Z with (2 ^ 8)%Z. by rewrite <- Z.pow_mul_r by lia. Qed.

Lemma uint_be_val n b z :
  b = be_bytes n z → uint (8 * Z.of_nat n) (be_val b) = uint (8 * Z.of_nat n) z.
Proof.
  intros ->. rewrite be_val_bytes, pow256. unfold uint. by rewrite Z.mod_mod by lia.
Qed.

(** ** The host *)

(** Which way round this machine keeps an integer. *)
Class Host := host_msb_first : bool.

(** An [n]-byte object's bytes in memory, and the object they hold. *)
Definition mem_of `{Host} (n : nat) (z : Z) : bytes :=
  if host_msb_first then reverse (le_bytes n z) else le_bytes n z.
Definition mem_val `{Host} (b : bytes) : Z :=
  if host_msb_first then le_val (reverse b) else le_val b.

(** [const uint16_t one = 1; return ((const unsigned char * )&one)[0] == 0;] *)
Definition host_is_big_endian `{Host} : bool :=
  match mem_of 2 1 with
  | x :: _ => bool_decide (byte_val x = 0%Z)
  | [] => false
  end.

(** One round of [reorder]'s loop. *)
Definition swap_ends (n i : nat) (b : bytes) : bytes :=
  match b !! i, b !! (n - 1 - i)%nat with
  | Some t, Some u => <[n - 1 - i := t]> (<[i := u]> b)
  | _, _ => b
  end.

Fixpoint reorder_loop (k i n : nat) (b : bytes) : bytes :=
  match k with
  | O => b
  | S k => reorder_loop k (S i) n (swap_ends n i b)
  end.

Definition reorder `{Host} (b : bytes) : bytes :=
  if host_is_big_endian then b
  else reorder_loop (length b / 2) 0 (length b) b.

(** What [wr_be] puts on the wire for a value in memory, and what [rd_be]
    leaves in memory for bytes off the wire. *)
Definition wire_of `{Host} (n : nat) (z : Z) : bytes := reorder (mem_of n z).
Definition value_of `{Host} (b : bytes) : Z := mem_val (reorder b).

Lemma host_is_big_endian_spec `{H : Host} : host_is_big_endian = host_msb_first.
Proof. unfold host_is_big_endian, mem_of. destruct H; reflexivity. Qed.

Lemma length_swap_ends n i b : length (swap_ends n i b) = length b.
Proof.
  unfold swap_ends. destruct (b !! i), (b !! (n - 1 - i)%nat); try done.
  by rewrite !length_insert.
Qed.

Lemma lookup_swap_ends n i b j :
  length b = n → i < n →
  swap_ends n i b !! j =
    if decide (j = i ∨ j = (n - 1 - i)%nat) then b !! (n - 1 - j)%nat else b !! j.
Proof.
  intros Hn Hi. unfold swap_ends.
  destruct (lookup_lt_is_Some_2 b i) as [t Ht]; [lia|].
  destruct (lookup_lt_is_Some_2 b (n - 1 - i)%nat) as [u Hu]; [lia|].
  rewrite Ht, Hu. destruct (decide (j = n - 1 - i)%nat) as [->|Hj].
  - rewrite list_lookup_insert_eq by (rewrite length_insert; lia).
    rewrite decide_True by lia. rewrite <- Ht. f_equal. lia.
  - rewrite list_lookup_insert_ne by lia. destruct (decide (j = i)) as [->|].
    + rewrite list_lookup_insert_eq by lia. rewrite decide_True by lia. done.
    + rewrite list_lookup_insert_ne by lia. rewrite decide_False by lia. done.
Qed.

(** After [k] rounds from [i] the outer [i+k] bytes at each end have changed
    places, if the outer [i] had before. *)
Lemma reorder_loop_spec k i n b b0 :
  length b = n → length b0 = n → i + k ≤ n / 2 →
  (∀ j, j < n → b !! j = if decide (j < i ∨ n - i ≤ j) then b0 !! (n - 1 - j)%nat else b0 !! j) →
  ∀ j, j < n → reorder_loop k i n b !! j =
    if decide (j < i + k ∨ n - (i + k) ≤ j) then b0 !! (n - 1 - j)%nat else b0 !! j.
Proof.
  revert i b. induction k as [|k IH]; intros i b Hb Hb0 Hk Hpre j Hj; cbn [reorder_loop].
  - rewrite Nat.add_0_r. by apply Hpre.
  - pose proof (Nat.div_mod_eq n 2) as Hdiv. rewrite <- Nat.add_succ_comm.
    apply IH; [by rewrite length_swap_ends|done|lia| |done].
    intros j' Hj'. rewrite lookup_swap_ends by lia.
    repeat case_decide; rewrite ?Hpre by lia; repeat case_decide; try lia; try done.
Qed.

Lemma length_reorder_loop k i n b : length (reorder_loop k i n b) = length b.
Proof.
  revert i b. induction k; intros; cbn; [done|]. by rewrite IHk, length_swap_ends.
Qed.

Lemma reorder_loop_reverse b : reorder_loop (length b / 2) 0 (length b) b = reverse b.
Proof.
  pose proof (Nat.div_mod_eq (length b) 2) as Hdiv.
  pose proof (Nat.mod_upper_bound (length b) 2 ltac:(lia)).
  apply list_eq. intros j. destruct (decide (j < length b)) as [Hj|Hj].
  - rewrite (reorder_loop_spec _ 0 _ b b); try lia.
    2:{ intros. rewrite decide_False by lia. done. }
    rewrite reverse_lookup by lia. case_decide as E.
    + f_equal. lia.
    + f_equal. lia.
  - rewrite !lookup_ge_None_2; rewrite ?length_reverse, ?length_reorder_loop; lia || done.
Qed.

Lemma reorder_spec `{H : Host} b : reorder b = if host_msb_first then b else reverse b.
Proof.
  unfold reorder. rewrite host_is_big_endian_spec. destruct host_msb_first; [done|].
  apply reorder_loop_reverse.
Qed.

Lemma wire_of_be `{H : Host} n z : wire_of n z = be_bytes n z.
Proof.
  unfold wire_of, mem_of. rewrite reorder_spec. by destruct host_msb_first.
Qed.

Lemma value_of_be `{H : Host} b : value_of b = be_val b.
Proof.
  unfold value_of, mem_val, be_val. rewrite reorder_spec. by destruct host_msb_first.
Qed.

Lemma length_reorder `{H : Host} b : length (reorder b) = length b.
Proof. rewrite reorder_spec. destruct host_msb_first; [done|]. apply length_reverse. Qed.
