(* ===== verification/Tls.v ===== *)
(** * client/tls.c: TLS for both clients

    OpenSSL is not the repository's code: each call into it is a constructor of
    [ossl_call], and how it goes is an argument of the model ([ossl_answers]).
    What is modelled is what tls.c does with the answers: the order of the
    configuration calls, every refusal, the cleanup at [bad:], and the text a
    failure leaves behind. *)
From S2P Require Import Prelude Effect.

(** client/zeytun.h's [coco_tls_options]; [None] is a null pointer. *)
Record tls_options := TlsOptions {
  cacert : option bytes;
  capath : option bytes;
  cert : option bytes;
  key : option bytes;
  key_pass : option bytes;
  insecure : bool
}.

Inductive file_format := PEM | ASN1.

(** The OpenSSL calls [coco_client_tls_open] makes, with the arguments that
    matter. *)
Inductive ossl_call :=
| CTX_new
| CTX_set_min_proto_tls12
| CTX_load_verify_locations (ca path : option bytes)
| CTX_set_default_verify_paths
| CTX_use_certificate_file (f : bytes) (fmt : file_format)
| CTX_set_default_passwd (p : bytes)
| CTX_use_PrivateKey_file (f : bytes) (fmt : file_format)
| CTX_check_private_key
| SSL_new
| SSL_set_tlsext_host_name (host : bytes)
| VERIFY_set_hostflags_no_partial_wildcards
| VERIFY_set1_host (host : bytes)
| SSL_set_verify_peer
| SSL_set_fd (fd : Z)
| SSL_connect
| SSL_free
| CTX_free.

#[export] Instance file_format_eq_decision : EqDecision file_format.
Proof. solve_decision. Defined.
#[export] Instance ossl_call_eq_decision : EqDecision ossl_call.
Proof. solve_decision. Defined.

(** How OpenSSL answers during one open: whether each call succeeds, what the
    error queue says after one that did not, and the verification result
    ([None] for X509_V_OK). *)
Record ossl_answers := OsslAnswers {
  an_calloc : bool;
  an_ok : ossl_call → bool;
  an_queue : ossl_call → option bytes;
  an_verify : option bytes
}.

(** The handle being built: which of its two halves exist, every call made so
    far, and the caller's error buffer. *)
Record build := Build {
  b_ctx : bool;
  b_ssl : bool;
  b_calls : list ossl_call;
  b_err : bytes
}.

Definition build0 : build := Build false false [] [].

Section open.
Context (an : ossl_answers) (errcap : nat).

Definition ossl (c : ossl_call) : M build bool :=
  modify (λ b, Build (b_ctx b) (b_ssl b) (b_calls b ++ [c]) (b_err b)) ;;
  ret (an_ok an c).
Definition have_ctx : M build unit :=
  modify (λ b, Build true (b_ssl b) (b_calls b) (b_err b)).
Definition have_ssl : M build unit :=
  modify (λ b, Build (b_ctx b) true (b_calls b) (b_err b)).
Definition set_err (e : bytes) : M build bool :=
  modify (λ b, Build (b_ctx b) (b_ssl b) (b_calls b) e) ;; ret false.

(** [c] failed: OpenSSL's word for it after ours, when its queue has one. *)
Definition ssl_why (c : ossl_call) (what : bytes) : M build bool :=
  set_err match an_queue an c with
          | Some q => snprintf_ss errcap what (snprintf_s 256 q)
          | None => snprintf_s errcap what
          end.

(** [if (call != 1) { ssl_why(...); goto bad; }] *)
Definition need (c : ossl_call) (what : bytes) : M build bool :=
  ok <- ossl c ;; if ok then ret true else ssl_why c what.

(** [if (a != 1 && b != 1) { ssl_why(...); goto bad; }] *)
Definition need_either (c1 c2 : ossl_call) (what : bytes) : M build bool :=
  ok <- ossl c1 ;; if ok then ret true else need c2 what.

Definition authorities (o : tls_options) : M build bool :=
  match cacert o, capath o with
  | None, None => need CTX_set_default_verify_paths $"cannot read the system authorities"
  | ca, path => need (CTX_load_verify_locations ca path) $"cannot read the authority"
  end.

Definition client_certificate (o : tls_options) : M build bool :=
  match cert o, key o with
  | Some c, Some k =>
      need_either (CTX_use_certificate_file c PEM) (CTX_use_certificate_file c ASN1)
                  $"cannot read this end's certificate" &;
      match key_pass o with
      | Some p => ossl (CTX_set_default_passwd p) ;; ret true
      | None => ret true
      end &;
      need_either (CTX_use_PrivateKey_file k PEM) (CTX_use_PrivateKey_file k ASN1)
                  $"cannot read this end's private key" &;
      ok <- ossl CTX_check_private_key ;;
      if ok then ret true
      else set_err (snprintf_s errcap $"this end's private key does not belong to its certificate")
  | None, None => ret true
  | _, _ => set_err (snprintf_s errcap $"a client certificate needs both --cert and --key")
  end.

Definition hostname_check (host : bytes) (o : tls_options) : M build bool :=
  if insecure o then ret true
  else
    ossl VERIFY_set_hostflags_no_partial_wildcards ;;
    ok <- ossl (VERIFY_set1_host host) ;;
    if ok then ossl SSL_set_verify_peer ;; ret true
    else set_err (snprintf_s errcap ($"cannot check the name " ++ c_str host)).

Definition handshake : M build bool :=
  ok <- ossl SSL_connect ;;
  if ok then ret true
  else match an_verify an with
       | Some v => set_err (snprintf_ss errcap $"the server's certificate was refused" v)
       | None => ssl_why SSL_connect $"the handshake failed"
       end.

(** Everything between the calloc and [return t]. *)
Definition tls_setup (fd : Z) (host : bytes) (o : tls_options) : M build bool :=
  need CTX_new $"cannot make a TLS context" &;
  have_ctx ;;
  ossl CTX_set_min_proto_tls12 ;;
  authorities o &;
  client_certificate o &;
  need SSL_new $"cannot make a TLS connection" &;
  have_ssl ;;
  ossl (SSL_set_tlsext_host_name host) ;;
  hostname_check host o &;
  need (SSL_set_fd fd) $"cannot use the socket" &;
  handshake.

(** [bad:] *)
Definition tls_bad : M build unit :=
  b <- get ;;
  when (b_ssl b) (ossl SSL_free ;; ret tt) ;;
  when (b_ctx b) (ossl CTX_free ;; ret tt).

Definition tls_open (fd : Z) (host : bytes) (o : tls_options) : M build bool :=
  if an_calloc an then
    ok <- tls_setup fd host o ;;
    if ok then ret true else tls_bad ;; ret false
  else set_err (snprintf_s errcap $"out of memory").
End open.

(** [tls_open] as the caller sees it: a handle or not, the calls it made, and
    what it wrote in ERR. *)
Definition coco_client_tls_open (an : ossl_answers) (fd : Z) (host : bytes)
    (o : tls_options) (errcap : nat) : bool * build :=
  match tls_open an errcap fd host o build0 with
  | Ret ok b => (ok, b)
  | Block b | Spin b => (false, b)
  end.

(** The same function in a build without OpenSSL, and the question that tells
    the two apart. *)
Definition coco_client_tls_open_stub (errcap : nat) : bool * build :=
  (false, Build false false []
     (snprintf_s errcap $"this cocolog was built without TLS -- rebuild where OpenSSL headers are present")).

(** ** After the handshake *)

(** [SSL_get_error]'s answers the code tells apart. *)
Inductive ssl_error := SSL_ERROR_NONE | SSL_ERROR_SSL | SSL_ERROR_SYSCALL
  | SSL_ERROR_ZERO_RETURN | SSL_ERROR_OTHER.

#[export] Instance ssl_error_eq_decision : EqDecision ssl_error.
Proof. solve_decision. Defined.

(** How a read or a write stopped: the error class; what the error queue held
    ([None]: nothing; [Some None]: a code without a reason string); errno. *)
Record ssl_stop := SslStop {
  st_error : ssl_error;
  st_queue : option (option bytes);
  st_errno : Z
}.

(** The [why] field [tls_note] leaves in the handle (a 256-byte buffer). *)
Definition tls_note (strerror : Z → bytes) (k : ssl_stop) : bytes :=
  let tail :=
    if decide (st_error k = SSL_ERROR_SYSCALL ∧ st_errno k ≠ 0%Z)
    then snprintf_s 256 (strerror (st_errno k))
    else if decide (st_error k = SSL_ERROR_NONE) then []
    else snprintf_s 256 $"the TLS session ended unexpectedly" in
  match st_error k, st_queue k with
  | SSL_ERROR_ZERO_RETURN, _ => []
  | SSL_ERROR_SSL, Some r =>
      let r := c_str (default $"the TLS session failed" r) in
      match strstr r $"certificate required" with
      | Some _ => snprintf_s 256
          (r ++ $" -- this server wants a client certificate: --cert and --key")
      | None => snprintf_s 256 r
      end
  | _, _ => tail
  end.

(** [coco_client_tls_why]: the recorded reason, cut to the caller's buffer, or
    nothing to add. *)
Definition coco_client_tls_why (why : bytes) (cap : nat) : option bytes :=
  match c_str why, cap with
  | [], _ | _, O => None
  | w, _ => Some (snprintf_s cap w)
  end.

(** ** Properties *)

Definition calls_of (f : ossl_call → bool) (l : list ossl_call) : nat :=
  length (List.filter f l).
Definition is_ctx_new c := match c with CTX_new => true | _ => false end.
Definition is_ssl_new c := match c with SSL_new => true | _ => false end.
Definition is_ctx_free c := match c with CTX_free => true | _ => false end.
Definition is_ssl_free c := match c with SSL_free => true | _ => false end.

(** How many contexts and sessions OpenSSL made, how many it was given back. *)
Definition made (an : ossl_answers) (f : ossl_call → bool) (l : list ossl_call) : nat :=
  calls_of (λ c, f c && an_ok an c) l.

(** A call that neither makes nor frees anything. *)
Definition plain (c : ossl_call) : bool :=
  negb (is_ctx_new c || is_ssl_new c || is_ctx_free c || is_ssl_free c).

(** The authority the chain is checked against. *)
Definition authority_call (o : tls_options) : ossl_call :=
  match cacert o, capath o with
  | None, None => CTX_set_default_verify_paths
  | ca, p => CTX_load_verify_locations ca p
  end.

(** The configuration a finished handshake rests on: [l] is every call of the
    open, in order. *)
Definition configured (an : ossl_answers) (fd : Z) (host : bytes) (o : tls_options)
    (l : list ossl_call) : Prop :=
  ∃ pre, l = pre ++ [SSL_connect] ∧ an_ok an SSL_connect = true ∧
    CTX_set_min_proto_tls12 ∈ pre ∧ SSL_set_tlsext_host_name host ∈ pre ∧ SSL_set_fd fd ∈ pre ∧
    (authority_call o ∈ pre ∧ an_ok an (authority_call o) = true) ∧
    (insecure o = false →
       VERIFY_set_hostflags_no_partial_wildcards ∈ pre ∧ SSL_set_verify_peer ∈ pre ∧
       VERIFY_set1_host host ∈ pre ∧ an_ok an (VERIFY_set1_host host) = true) ∧
    (is_Some (cert o) ∨ is_Some (key o) →
       is_Some (cert o) ∧ is_Some (key o) ∧
       CTX_check_private_key ∈ pre ∧ an_ok an CTX_check_private_key = true).

Lemma calls_of_app f l k : calls_of f (l ++ k) = calls_of f l + calls_of f k.
Proof. unfold calls_of. by rewrite List.filter_app, length_app. Qed.

Lemma calls_of_none f l : Forall (λ c, f c = false) l → calls_of f l = 0.
Proof. unfold calls_of. induction 1 as [|c l Hc _ IH]; cbn; [done|]. by rewrite Hc. Qed.

Lemma calls_of_plain an l :
  Forall plain l →
  made an is_ctx_new l = 0 ∧ made an is_ssl_new l = 0 ∧
  calls_of is_ctx_free l = 0 ∧ calls_of is_ssl_free l = 0.
Proof.
  intros H. unfold made.
  split_and!; apply calls_of_none; eapply Forall_impl; try exact H;
    intros [] Hc; done.
Qed.

(** [m] makes only plain calls, and in [F] when it succeeds. *)
Definition adds (m : M build bool) (F : list ossl_call → Prop) : Prop := ∀ b,
  wp m (λ ok b', ∃ l, Forall plain l ∧ b_ctx b' = b_ctx b ∧ b_ssl b' = b_ssl b ∧
          b_calls b' = b_calls b ++ l ∧ (ok = true → F l)) (λ _, False) b.

Lemma wp_ossl an c Q B b :
  Q (an_ok an c) (Build (b_ctx b) (b_ssl b) (b_calls b ++ [c]) (b_err b)) →
  wp (ossl an c) Q B b.
Proof. done. Qed.

Ltac in_list := solve [repeat first [apply list_elem_of_here | apply list_elem_of_further]].
Ltac tls_run :=
  repeat first
    [ wp_step; cbn beta
    | lazymatch goal with |- wp (ossl _ _) _ _ _ => apply wp_ossl end;
      cbn [b_ctx b_ssl b_calls b_err]
    | match goal with
      | |- wp (if ?x then _ else _) _ _ _ => let E := fresh "E" in destruct x eqn:E
      | |- wp (match ?x with _ => _ end) _ _ _ => let E := fresh "E" in destruct x eqn:E
      | |- if ?x then _ else _ => let E := fresh "E" in destruct x eqn:E
      end ];
  cbn [b_ctx b_ssl b_calls b_err].
Ltac tls_leaf :=
  rewrite <- ?app_assoc; cbn [app];
  eexists; split_and!;
    [ | reflexivity | reflexivity | first [reflexivity | symmetry; apply app_nil_r] | ];
    [ by repeat constructor | ];
    intros Hok; first [discriminate Hok | split_and!; first [in_list | assumption | done]].

Lemma need_adds an cap c what :
  plain c → adds (need an cap c what) (λ l, c ∈ l ∧ an_ok an c = true).
Proof.
  intros Hc b. unfold need, ssl_why, set_err. tls_run;
    (exists [c]; split_and!; [by apply Forall_singleton|reflexivity..|]);
    intros Hok; first [discriminate Hok | split; [in_list | assumption]].
Qed.

Lemma authorities_adds an cap o :
  adds (authorities an cap o) (λ l, authority_call o ∈ l ∧ an_ok an (authority_call o) = true).
Proof.
  unfold authorities, authority_call.
  destruct (cacert o), (capath o); by apply need_adds.
Qed.

Lemma client_certificate_adds an cap o :
  adds (client_certificate an cap o) (λ l,
    is_Some (cert o) ∨ is_Some (key o) →
    is_Some (cert o) ∧ is_Some (key o) ∧
    CTX_check_private_key ∈ l ∧ an_ok an CTX_check_private_key = true).
Proof.
  intros b. unfold client_certificate, need_either, need, ssl_why, set_err.
  destruct (cert o), (key o), (key_pass o); tls_run;
    (rewrite <- ?app_assoc; cbn [app]; eexists; split_and!;
       [ | reflexivity | reflexivity | first [reflexivity | symmetry; apply app_nil_r] | ];
       [ by repeat constructor | intros Hok; try discriminate Hok; intros Hany;
         try (by destruct Hany as [[]|[]]);
         split_and!; first [in_list | assumption | by eexists] ]).
Qed.

Lemma hostname_check_adds an cap host o :
  adds (hostname_check an cap host o) (λ l,
    insecure o = false →
    VERIFY_set_hostflags_no_partial_wildcards ∈ l ∧ SSL_set_verify_peer ∈ l ∧
    VERIFY_set1_host host ∈ l ∧ an_ok an (VERIFY_set1_host host) = true).
Proof.
  intros b. unfold hostname_check, set_err. tls_run;
    (rewrite <- ?app_assoc; cbn [app]; eexists; split_and!;
       [ | reflexivity | reflexivity | first [reflexivity | symmetry; apply app_nil_r] | ];
       [ by repeat constructor | intros Hok; try discriminate Hok; intros Hins;
         try congruence; split_and!; first [in_list | assumption] ]).
Qed.

Lemma handshake_adds an cap :
  adds (handshake an cap) (λ l, l = [SSL_connect] ∧ an_ok an SSL_connect = true).
Proof.
  intros b. unfold handshake, ssl_why, set_err. tls_run;
    (exists [SSL_connect]; split_and!; [by repeat constructor|done..|];
     intros Hok; by try discriminate Hok).
Qed.

Lemma wp_adds (m : M build bool) F (Q : bool → build → Prop) B b :
  adds m F →
  (∀ ok l e, Forall plain l → (ok = true → F l) →
     Q ok (Build (b_ctx b) (b_ssl b) (b_calls b ++ l) e)) →
  wp m Q B b.
Proof.
  intros Hm HQ. eapply wp_mono; [apply Hm| |done].
  intros ok [c s l' e] (l & Hp & Hc & Hs & Hl & HF). cbn in *. subst. by apply HQ.
Qed.

(** Nothing given back yet, and what is held is what was made. *)
Definition holding (an : ossl_answers) (b : build) : Prop :=
  made an is_ctx_new (b_calls b) = Nat.b2n (b_ctx b) ∧
  made an is_ssl_new (b_calls b) = Nat.b2n (b_ssl b) ∧
  calls_of is_ctx_free (b_calls b) = 0 ∧ calls_of is_ssl_free (b_calls b) = 0.

Lemma holding_plain an c s l k e e' :
  Forall plain k → holding an (Build c s l e) → holding an (Build c s (l ++ k) e').
Proof.
  intros (H1 & H2 & H3 & H4)%(calls_of_plain an). unfold holding, made in *. cbn [b_ctx b_ssl b_calls] in *.
  rewrite !calls_of_app. lia.
Qed.

(** Every branch of the configuration keeps [holding], and the successful one
    has made both halves and configured them. *)
Lemma tls_setup_spec an cap fd host o :
  wp (tls_setup an cap fd host o) (λ ok b, holding an b ∧
        (ok = true → b_ctx b = true ∧ b_ssl b = true ∧ configured an fd host o (b_calls b)))
     (λ _, False) build0.
Proof.
  unfold tls_setup. wp_steps. unfold need at 1. wp_steps. apply wp_ossl. cbn [b_ctx b_ssl b_calls b_err].
  destruct (an_ok an CTX_new) eqn:Ectx.
  2:{ unfold ssl_why, set_err. wp_steps. unfold holding, made, calls_of; cbn. by rewrite Ectx. }
  unfold have_ctx. wp_steps. apply wp_ossl. cbn [b_ctx b_ssl b_calls b_err build0 app].
  assert (holding an (Build true false [CTX_new; CTX_set_min_proto_tls12] [])) as Hh.
  { unfold holding, made, calls_of; cbn. by rewrite Ectx. }
  wp_steps. eapply wp_adds; [apply authorities_adds|]. intros ok1 l1 e1 P1 F1. cbn [b_ctx b_ssl b_calls].
  apply (holding_plain _ _ _ _ l1 _ e1 P1) in Hh. destruct ok1; [|by split].
  wp_steps. eapply wp_adds; [apply client_certificate_adds|]. intros ok2 l2 e2 P2 F2.
  cbn [b_ctx b_ssl b_calls]. apply (holding_plain _ _ _ _ l2 _ e2 P2) in Hh.
  destruct ok2; [|by split]. rewrite <- app_assoc in Hh |- *.
  wp_steps. unfold need at 1. wp_steps. apply wp_ossl. cbn [b_ctx b_ssl b_calls].
  set (pre := [CTX_new; CTX_set_min_proto_tls12] ++ l1 ++ l2) in *.
  assert (∀ e, holding an (Build true (an_ok an SSL_new) (pre ++ [SSL_new]) e)) as Hh2.
  { intros e. destruct Hh as (H1 & H2 & H3 & H4). unfold holding, made in *. cbn [b_ctx b_ssl b_calls] in *.
    rewrite !calls_of_app, H1, H2, H3, H4. unfold calls_of; cbn. by destruct (an_ok an SSL_new). }
  destruct (an_ok an SSL_new) eqn:Essl.
  2:{ unfold ssl_why, set_err. wp_steps. split; [apply Hh2|done]. }
  unfold have_ssl. wp_steps. apply wp_ossl. cbn [b_ctx b_ssl b_calls b_err].
  specialize (Hh2 e2). apply (holding_plain _ _ _ _ [SSL_set_tlsext_host_name host] _ e2) in Hh2;
    [|by apply Forall_singleton].
  rewrite <- app_assoc in Hh2 |- *. cbn [app] in Hh2 |- *.
  wp_steps. eapply wp_adds; [apply hostname_check_adds|]. intros ok3 l3 e3 P3 F3. cbn [b_ctx b_ssl b_calls].
  apply (holding_plain _ _ _ _ l3 _ e3 P3) in Hh2. destruct ok3; [|by split].
  wp_steps. eapply wp_adds; [by apply need_adds|]. intros ok4 l4 e4 P4 F4.
  cbn [b_ctx b_ssl b_calls]. apply (holding_plain _ _ _ _ l4 _ e4 P4) in Hh2.
  destruct ok4; [|by split].
  eapply wp_adds; [apply handshake_adds|]. intros ok5 l5 e5 P5 F5.
  cbn [b_ctx b_ssl b_calls]. apply (holding_plain _ _ _ _ l5 _ e5 P5) in Hh2.
  split; [exact Hh2|]. intros ->. split_and!; [done..|].
  destruct (F5 eq_refl) as [-> E5]. eexists. split; [reflexivity|].
  destruct (F1 eq_refl) as [? ?], (F4 eq_refl) as [? ?]. specialize (F2 eq_refl). specialize (F3 eq_refl).
  unfold pre. split_and!; [done|mem..|done| |].
  - intros Hins. destruct (F3 Hins) as (? & ? & ? & ?). split_and!; [mem..|done].
  - intros Hany. destruct (F2 Hany) as (? & ? & ? & ?). split_and!; [done..|mem|done].
Qed.

(** [coco_client_tls_open] in terms of the specification of its body. *)
Lemma coco_client_tls_open_spec an fd host o cap :
  ∃ ok b, coco_client_tls_open an fd host o cap = (ok, b) ∧
    (ok = true → holding an b ∧ b_ctx b = true ∧ b_ssl b = true ∧
       configured an fd host o (b_calls b)) ∧
    (ok = false →
       made an is_ctx_new (b_calls b) = calls_of is_ctx_free (b_calls b) ∧
       made an is_ssl_new (b_calls b) = calls_of is_ssl_free (b_calls b)).
Proof.
  unfold coco_client_tls_open, tls_open. destruct (an_calloc an).
  2:{ by do 2 eexists. }
  pose proof (tls_setup_spec an cap fd host o) as H. unfold wp in H.
  unfold bind at 1. destruct (tls_setup an cap fd host o build0) as [ok b|b|b]; [|done..].
  destruct H as [(H1 & H2 & H3 & H4) Hok]. destruct ok; [|].
  - exists true, b. split_and!; [done| |done]. intros _. by destruct (Hok eq_refl) as (? & ? & ?).
  - destruct b as [c s l e]. cbn [b_ctx b_ssl b_calls] in *.
    unfold tls_bad, when, ossl, bind, get, modify, ret. cbn.
    destruct s, c; cbn; do 2 eexists; (split_and!; [done|done|]); intros _; cbn [b_calls];
      unfold made in *; rewrite ?calls_of_app, H1, H2, H3, H4; split;
      unfold calls_of; cbn; lia.
Qed.

(** C17. A verified handshake is verified in full.  When [coco_client_tls_open]
    answers a handle and verification was not turned off, then before
    [SSL_connect], which succeeded and came last, it had set TLS 1.2 as the
    oldest version, loaded the authority the options name (the system's when
    they name none), asked for the peer's chain to be checked, asked for the
    certificate to carry the host's name with no partial wildcards, sent that
    name in the hello, and attached the caller's socket; and a client
    certificate, if there is one, came with its key, which was checked to
    belong to it. *)
Theorem tls_verified_before_connect an fd host o cap b :
  coco_client_tls_open an fd host o cap = (true, b) → insecure o = false →
  ∃ pre, b_calls b = pre ++ [SSL_connect] ∧ an_ok an SSL_connect = true ∧
    CTX_set_min_proto_tls12 ∈ pre ∧
    authority_call o ∈ pre ∧ an_ok an (authority_call o) = true ∧
    SSL_set_verify_peer ∈ pre ∧ VERIFY_set_hostflags_no_partial_wildcards ∈ pre ∧
    VERIFY_set1_host host ∈ pre ∧ an_ok an (VERIFY_set1_host host) = true ∧
    SSL_set_tlsext_host_name host ∈ pre ∧ SSL_set_fd fd ∈ pre ∧
    (is_Some (cert o) ∨ is_Some (key o) →
       is_Some (cert o) ∧ is_Some (key o) ∧
       CTX_check_private_key ∈ pre ∧ an_ok an CTX_check_private_key = true).
Proof.
  intros E Hins. destruct (coco_client_tls_open_spec an fd host o cap) as (ok & b' & E' & Hok & _).
  rewrite E in E'. injection E' as <- <-. destruct (Hok eq_refl) as (_ & _ & _ & pre & ? & ? & ? & ? & ? & [? ?] & Hv & ?).
  destruct (Hv Hins) as (? & ? & ? & ?). exists pre. by split_and!.
Qed.

(** C33. Contexts and sessions are neither leaked nor freed twice.  A failed
    [coco_client_tls_open] has given back to OpenSSL exactly the contexts and
    sessions it was given; a successful one holds exactly one of each and has
    given back nothing. *)
Theorem tls_open_no_leak an fd host o cap :
  let '(ok, b) := coco_client_tls_open an fd host o cap in
  if ok then
    made an is_ctx_new (b_calls b) = 1 ∧ made an is_ssl_new (b_calls b) = 1 ∧
    calls_of is_ctx_free (b_calls b) = 0 ∧ calls_of is_ssl_free (b_calls b) = 0
  else
    made an is_ctx_new (b_calls b) = calls_of is_ctx_free (b_calls b) ∧
    made an is_ssl_new (b_calls b) = calls_of is_ssl_free (b_calls b).
Proof.
  destruct (coco_client_tls_open_spec an fd host o cap) as (ok & b & -> & Hok & Hno).
  destruct ok; [|by apply Hno]. destruct (Hok eq_refl) as ((H1 & H2 & H3 & H4) & Hc & Hs & _).
  by rewrite H1, H2, H3, H4, Hc, Hs.
Qed.

(** C34. Half a key pair is no key pair.  Options that name a certificate
    without its key, or a key without its certificate, never yield a handle,
    whatever OpenSSL answers. *)
Theorem tls_half_pair_refused an fd host o cap :
  (is_Some (cert o) ↔ key o = None) → (coco_client_tls_open an fd host o cap).1 = false.
Proof.
  intros Hone. destruct (coco_client_tls_open_spec an fd host o cap) as (ok & b & -> & Hok & _).
  destruct ok; [|done]. destruct (Hok eq_refl) as (_ & _ & _ & pre & _ & _ & _ & _ & _ & _ & _ & Hp).
  destruct Hone as [H1 H2].
  destruct (cert o) as [c|], (key o) as [k|].
  - by specialize (H1 ltac:(by eexists)).
  - destruct Hp as (_ & [? ?] & _); [left; by eexists|done].
  - destruct Hp as ([? ?] & _); [right; by eexists|done].
  - by destruct (H2 eq_refl).
Qed.

(** Why a session stopped, told once and in bounds.  A clean close leaves
    nothing to add; a failure inside the session with a reason string leaves
    that reason, cut to the caller's buffer, followed, when the server asked
    for a client certificate, by what to do about it; and what is told is never
    empty and always fits its buffer with the NUL. *)
Theorem tls_why_tells strerror q e r cap :
  coco_client_tls_why (tls_note strerror (SslStop SSL_ERROR_ZERO_RETURN q e)) cap = None ∧
  (no_nul r → r ≠ [] → length r < 120 → 1 < cap →
   let hint := match strstr r $"certificate required" with
               | Some _ => $" -- this server wants a client certificate: --cert and --key"
               | None => []
               end in
   coco_client_tls_why (tls_note strerror (SslStop SSL_ERROR_SSL (Some (Some r)) e)) cap
     = Some (take (cap - 1) (r ++ hint))) ∧
  (∀ k w, coco_client_tls_why (tls_note strerror k) cap = Some w → length w < cap).
Proof.
  split; [done|]. split.
  - intros Hn Hr Hl Hc hint.
    assert (no_nul (r ++ hint)) as Hnh.
    { unfold no_nul. rewrite elem_of_app. intros [?|Hh]; [done|]. unfold hint in Hh.
      destruct (strstr r _); [|by apply not_elem_of_nil in Hh].
      revert Hh. apply (bool_decide_unpack (_ ∉ _)). by vm_compute. }
    assert (length (r ++ hint) ≤ 255) as Hlen.
    { rewrite length_app. assert (length hint ≤ 60) by (unfold hint; destruct (strstr _ _); vm_compute; lia). lia. }
    assert (tls_note strerror (SslStop SSL_ERROR_SSL (Some (Some r)) e) = r ++ hint) as ->.
    { unfold tls_note. cbn [st_error st_queue default from_option id]. rewrite (c_str_id r) by done.
      unfold hint in *. revert Hnh Hlen. destruct (strstr r _); rewrite ?app_nil_r; intros Hnh Hlen;
        unfold snprintf_s; rewrite c_str_id by done; rewrite take_ge; done || lia. }
    unfold coco_client_tls_why. rewrite c_str_id by done.
    destruct (r ++ hint) eqn:E; [by destruct r|]. destruct cap; [lia|].
    unfold snprintf_s. rewrite c_str_id; [done|]. exact Hnh.
  - intros k w. unfold coco_client_tls_why. destruct (c_str _) eqn:E, cap; try done.
    intros [= <-]. unfold snprintf_s. cbn [length]. rewrite length_take. lia.
Qed.

(** An OpenSSL that agrees to everything but the calls listed. *)
Definition toy_ossl (no : list ossl_call) : ossl_answers :=
  OsslAnswers true (λ c, bool_decide (c ∉ no)) (λ _, None) None.
Definition toy_options : tls_options :=
  TlsOptions None None (Some $"me.pem") (Some $"me.key") None false.

Lemma tls_verified_before_connect_witness :
  ∃ b pre, coco_client_tls_open (toy_ossl []) 3 $"h" toy_options 512 = (true, b) ∧
    b_calls b = pre ++ [SSL_connect] ∧ SSL_set_verify_peer ∈ pre.
Proof.
  destruct (coco_client_tls_open (toy_ossl []) 3 $"h" toy_options 512) as [ok b] eqn:E.
  assert (ok = true) as -> by (vm_compute in E; congruence).
  destruct (tls_verified_before_connect _ _ _ _ _ _ E eq_refl) as (pre & Hb & _ & _ & _ & _ & Hv & _).
  by exists b, pre.
Defined.

Lemma tls_half_pair_refused_witness :
  (coco_client_tls_open (toy_ossl []) 3 $"h" (TlsOptions None None None (Some $"me.key") None true) 512).1 = false.
Proof. apply tls_half_pair_refused. split; [by intros []|done]. Defined.

Lemma tls_why_tells_witness :
  coco_client_tls_why (tls_note (λ _, []) (SslStop SSL_ERROR_SSL (Some (Some $"bad record mac")) 0)) 256
  = Some $"bad record mac".
Proof.
  refine (proj1 (proj2 (tls_why_tells (λ _, []) None 0 $"bad record mac" 256)) _ _ _ _); [|done|simpl; lia|lia].
  apply (bool_decide_unpack _). by vm_compute.
Defined.
