(* ===== verification/World.v ===== *)
(** * The outside world

    What surrounds the clients: the socket's peer, the kernel's locks and
    descriptors, the resolver, OpenSSL and the embedded engine.  None of it is
    the clients' code.  How each will answer is data of the state, consumed in
    order, so a theorem about every world is a theorem about every behaviour
    of the environment; what the clients did to it is recorded beside. *)
From S2P Require Import Prelude Effect Tls.

(** The embedded engine's entry points (embed/embed.cicili, reached through
    weak symbols): an abstract store, and sessions named by number. *)
Class Engine := {
  eng : Type;
  ce_linked : bool;
  ce_engine_open : bytes → eng → option bytes * eng;
  ce_engine_close : eng → eng;
  ce_session_new : nat → eng → option nat * eng;
  ce_session_free : nat → eng → eng;
  ce_error : nat → eng → bytes;
  ce_call : nat → bytes → eng → bool * eng;
  ce_write_num : nat → Z → Z → eng → bool * eng;
  ce_write_str : nat → Z → bytes → eng → bool * eng;
  ce_write_dvector : nat → list Z → eng → bool * eng;
  ce_read_dvector : nat → nat → eng → option (list Z) * eng;
  ce_result : nat → eng → option Z * eng;
  ce_columns : nat → nat → eng → option bytes * eng;
  ce_read_num : nat → eng → option Z * eng;
  ce_read_str : nat → nat → eng → option bytes * eng;
  ce_read_str_alloc : nat → eng → option bytes * eng;
  ce_skip : nat → eng → bool * eng;
  ce_commit : nat → eng → bool * eng;
  ce_rollback : nat → eng → bool * eng;
  ce_isolate : nat → Z → eng → bool * eng;
  ce_reset : nat → eng → bool * eng;
  ce_page_size : eng → Z
}.

(** libc's texts, and which client/tls.c this build links. *)
Class Platform := {
  strerror : Z → bytes;
  gai_strerror : Z → bytes;
  tls_linked : bool;
  tls_openssl : bool
}.

(** The errno values the clients compare against (Linux). *)
Definition EINTR : Z := 4.
Definition EWOULDBLOCK : Z := 11.

(** One answer to a receive: bytes (none: the peer closed), or an errno; on a
    TLS connection, possibly a stop inside the session. *)
Inductive rx_ev := RxData (b : bytes) | RxErr (e : Z) | RxSsl (k : ssl_stop).

(** One answer to a send: how many bytes are taken at most, an errno, a stop
    inside the session, or no answer. *)
Inductive tx_ev := TxTake (k : nat) | TxErr (e : Z) | TxSsl (k : ssl_stop) | TxHang.

Inductive lock_ev := LockGot | LockErr (e : Z).

(** One address of a resolved name: what socket(2) and connect(2) do with it,
    and, once connected, how the peer will behave. *)
Inductive attempt :=
| NoSocket (e : Z)
| NoConnect (e : Z)
| Connected (r : list rx_ev) (t : list tx_ev).

Inductive dial_ev := GaiFail (rc : Z) | GaiList (l : list attempt).

Section world.
Context `{Engine} `{Platform}.

Record world := World {
  rx : list rx_ev; (** what the peer of the current socket will have us receive *)
  tx : list tx_ev; (** how much of each send the kernel will take (nothing listed: all of it) *)
  lock_q : list lock_ev; (** how each flock(LOCK_EX|LOCK_NB) will go *)
  dial_q : list dial_ev; (** how each getaddrinfo and the connects after it will go *)
  hs_q : list ossl_answers; (** how each TLS handshake will go *)
  open_q : list (option Z); (** how each open(2) of the turn file will go: [None], or an errno *)
  malloc_q : list bool; (** whether each allocation succeeds (nothing listed: it does) *)
  errno : Z; (** errno *)
  sent : bytes; (** every byte the kernel has taken on the current socket, in order *)
  slept : Z; (** microseconds spent in usleep *)
  turn : bool; (** this process holds the flock *)
  fds : list Z; (** the open descriptors *)
  next_fd : Z; (** the next descriptor the kernel gives out *)
  handles : gmap nat bytes; (** the open TLS handles, each with its [why] *)
  next_handle : nat; (** the next TLS handle *)
  tls_cfg : option tls_options; (** [g_tls] when [g_tls_on] *)
  engine : eng; (** the embedded engine *)
  sessions : gmap nat (list (nat * nat)); (** each thread's [ce_slots]: (connection, session) *)
  self : nat (** [pthread_self()] *)
}.

Definition set_rx (v : list rx_ev) (w : world) : world := World v (tx w) (lock_q w) (dial_q w) (hs_q w) (open_q w) (malloc_q w) (errno w) (sent w) (slept w) (turn w) (fds w) (next_fd w) (handles w) (next_handle w) (tls_cfg w) (engine w) (sessions w) (self w).
Definition set_tx (v : list tx_ev) (w : world) : world := World (rx w) v (lock_q w) (dial_q w) (hs_q w) (open_q w) (malloc_q w) (errno w) (sent w) (slept w) (turn w) (fds w) (next_fd w) (handles w) (next_handle w) (tls_cfg w) (engine w) (sessions w) (self w).
Definition set_lock_q (v : list lock_ev) (w : world) : world := World (rx w) (tx w) v (dial_q w) (hs_q w) (open_q w) (malloc_q w) (errno w) (sent w) (slept w) (turn w) (fds w) (next_fd w) (handles w) (next_handle w) (tls_cfg w) (engine w) (sessions w) (self w).
Definition set_dial_q (v : list dial_ev) (w : world) : world := World (rx w) (tx w) (lock_q w) v (hs_q w) (open_q w) (malloc_q w) (errno w) (sent w) (slept w) (turn w) (fds w) (next_fd w) (handles w) (next_handle w) (tls_cfg w) (engine w) (sessions w) (self w).
Definition set_hs_q (v : list ossl_answers) (w : world) : world := World (rx w) (tx w) (lock_q w) (dial_q w) v (open_q w) (malloc_q w) (errno w) (sent w) (slept w) (turn w) (fds w) (next_fd w) (handles w) (next_handle w) (tls_cfg w) (engine w) (sessions w) (self w).
Definition set_open_q (v : list (option Z)) (w : world) : world := World (rx w) (tx w) (lock_q w) (dial_q w) (hs_q w) v (malloc_q w) (errno w) (sent w) (slept w) (turn w) (fds w) (next_fd w) (handles w) (next_handle w) (tls_cfg w) (engine w) (sessions w) (self w).
Definition set_malloc_q (v : list bool) (w : world) : world := World (rx w) (tx w) (lock_q w) (dial_q w) (hs_q w) (open_q w) v (errno w) (sent w) (slept w) (turn w) (fds w) (next_fd w) (handles w) (next_handle w) (tls_cfg w) (engine w) (sessions w) (self w).
Definition set_errno (v : Z) (w : world) : world := World (rx w) (tx w) (lock_q w) (dial_q w) (hs_q w) (open_q w) (malloc_q w) v (sent w) (slept w) (turn w) (fds w) (next_fd w) (handles w) (next_handle w) (tls_cfg w) (engine w) (sessions w) (self w).
Definition set_sent (v : bytes) (w : world) : world := World (rx w) (tx w) (lock_q w) (dial_q w) (hs_q w) (open_q w) (malloc_q w) (errno w) v (slept w) (turn w) (fds w) (next_fd w) (handles w) (next_handle w) (tls_cfg w) (engine w) (sessions w) (self w).
Definition set_slept (v : Z) (w : world) : world := World (rx w) (tx w) (lock_q w) (dial_q w) (hs_q w) (open_q w) (malloc_q w) (errno w) (sent w) v (turn w) (fds w) (next_fd w) (handles w) (next_handle w) (tls_cfg w) (engine w) (sessions w) (self w).
Definition set_turn (v : bool) (w : world) : world := World (rx w) (tx w) (lock_q w) (dial_q w) (hs_q w) (open_q w) (malloc_q w) (errno w) (sent w) (slept w) v (fds w) (next_fd w) (handles w) (next_handle w) (tls_cfg w) (engine w) (sessions w) (self w).
Definition set_fds (v : list Z) (w : world) : world := World (rx w) (tx w) (lock_q w) (dial_q w) (hs_q w) (open_q w) (malloc_q w) (errno w) (sent w) (slept w) (turn w) v (next_fd w) (handles w) (next_handle w) (tls_cfg w) (engine w) (sessions w) (self w).
Definition set_next_fd (v : Z) (w : world) : world := World (rx w) (tx w) (lock_q w) (dial_q w) (hs_q w) (open_q w) (malloc_q w) (errno w) (sent w) (slept w) (turn w) (fds w) v (handles w) (next_handle w) (tls_cfg w) (engine w) (sessions w) (self w).
Definition set_handles (v : gmap nat bytes) (w : world) : world := World (rx w) (tx w) (lock_q w) (dial_q w) (hs_q w) (open_q w) (malloc_q w) (errno w) (sent w) (slept w) (turn w) (fds w) (next_fd w) v (next_handle w) (tls_cfg w) (engine w) (sessions w) (self w).
Definition set_next_handle (v : nat) (w : world) : world := World (rx w) (tx w) (lock_q w) (dial_q w) (hs_q w) (open_q w) (malloc_q w) (errno w) (sent w) (slept w) (turn w) (fds w) (next_fd w) (handles w) v (tls_cfg w) (engine w) (sessions w) (self w).
Definition set_tls_cfg (v : option tls_options) (w : world) : world := World (rx w) (tx w) (lock_q w) (dial_q w) (hs_q w) (open_q w) (malloc_q w) (errno w) (sent w) (slept w) (turn w) (fds w) (next_fd w) (handles w) (next_handle w) v (engine w) (sessions w) (self w).
Definition set_engine (v : eng) (w : world) : world := World (rx w) (tx w) (lock_q w) (dial_q w) (hs_q w) (open_q w) (malloc_q w) (errno w) (sent w) (slept w) (turn w) (fds w) (next_fd w) (handles w) (next_handle w) (tls_cfg w) v (sessions w) (self w).
Definition set_sessions (v : gmap nat (list (nat * nat))) (w : world) : world := World (rx w) (tx w) (lock_q w) (dial_q w) (hs_q w) (open_q w) (malloc_q w) (errno w) (sent w) (slept w) (turn w) (fds w) (next_fd w) (handles w) (next_handle w) (tls_cfg w) (engine w) v (self w).
Definition set_self (v : nat) (w : world) : world := World (rx w) (tx w) (lock_q w) (dial_q w) (hs_q w) (open_q w) (malloc_q w) (errno w) (sent w) (slept w) (turn w) (fds w) (next_fd w) (handles w) (next_handle w) (tls_cfg w) (engine w) (sessions w) v.

(** ** System calls

    Each answers [None] when the call never returns. *)

(** recv(2): the bytes received (none of them: end of file), or [None] for
    -1 with errno set. *)
Definition sys_recv (cap : nat) (w : world) : option (option bytes * world) :=
  match rx w with
  | [] => None
  | RxData b :: r =>
      Some (Some (take cap b),
            set_rx (if decide (length b ≤ cap) then r else RxData (drop cap b) :: r) w)
  | RxErr e :: r => Some (None, set_errno e (set_rx r w))
  | RxSsl k :: r => Some (None, set_errno (st_errno k) (set_rx r w))
  end.

(** send(2) of [p]: how many bytes went, or [None] for -1. *)
Definition sys_send (p : bytes) (w : world) : option (option nat * world) :=
  match tx w with
  | [] => Some (Some (length p), set_sent (sent w ++ p) w)
  | TxTake k :: r =>
      Some (Some (min k (length p)), set_sent (sent w ++ take k p) (set_tx r w))
  | TxErr e :: r => Some (None, set_errno e (set_tx r w))
  | TxSsl k :: r => Some (None, set_errno (st_errno k) (set_tx r w))
  | TxHang :: _ => None
  end.

Definition note (h : nat) (k : ssl_stop) (w : world) : world :=
  set_errno (st_errno k) (set_handles (<[h := tls_note strerror k]> (handles w)) w).

(** client/tls.c's [coco_client_tls_recv]: a stop of either kind answers 0. *)
Definition coco_client_tls_recv (h : nat) (cap : nat) (w : world)
    : option (option bytes * world) :=
  if tls_openssl then
    match rx w with
    | [] => None
    | RxData [] :: r =>
        Some (Some [], note h (SslStop SSL_ERROR_ZERO_RETURN None (errno w)) (set_rx r w))
    | RxData b :: r =>
        Some (Some (take cap b),
              set_rx (if decide (length b ≤ cap) then r else RxData (drop cap b) :: r) w)
    | RxErr e :: r => Some (Some [], note h (SslStop SSL_ERROR_SYSCALL None e) (set_rx r w))
    | RxSsl k :: r => Some (Some [], note h k (set_rx r w))
    end
  else Some (Some [], w).

(** [coco_client_tls_send]: what went, or -1 and the reason kept. *)
Definition coco_client_tls_send (h : nat) (p : bytes) (w : world)
    : option (option nat * world) :=
  if tls_openssl then
    match tx w with
    | [] => Some (Some (length p), set_sent (sent w ++ p) w)
    | TxTake O :: r =>
        Some (None, note h (SslStop SSL_ERROR_ZERO_RETURN None (errno w)) (set_tx r w))
    | TxTake k :: r =>
        Some (Some (min k (length p)), set_sent (sent w ++ take k p) (set_tx r w))
    | TxErr e :: r => Some (None, note h (SslStop SSL_ERROR_SYSCALL None e) (set_tx r w))
    | TxSsl k :: r => Some (None, note h k (set_tx r w))
    | TxHang :: _ => None
    end
  else Some (None, w).

(** [coco_client_tls_close]: the session is shut down and freed. *)
Definition coco_client_tls_close (h : nat) (w : world) : world :=
  set_handles (delete h (handles w)) w.

Definition sys_close (fd : Z) (w : world) : world :=
  set_fds (filter (λ d, d ≠ fd) (fds w)) w.

(** A fresh descriptor. *)
Definition new_fd (w : world) : Z * world :=
  (next_fd w, set_next_fd (next_fd w + 1)%Z (set_fds (next_fd w :: fds w) w)).

(** flock(fd, LOCK_EX|LOCK_NB): 0, or -1 with errno set. *)
Definition sys_flock_ex (w : world) : option (bool * world) :=
  match lock_q w with
  | [] => None
  | LockGot :: r => Some (true, set_turn true (set_lock_q r w))
  | LockErr e :: r => Some (false, set_errno e (set_lock_q r w))
  end.
Definition sys_flock_un (w : world) : world := set_turn false w.

Definition sys_usleep (us : Z) (w : world) : world := set_slept (slept w + us)%Z w.

Definition sys_malloc (w : world) : bool * world :=
  match malloc_q w with
  | [] => (true, w)
  | b :: r => (b, set_malloc_q r w)
  end.

(** The walk down [getaddrinfo]'s list: the first address that connects.
    The socket of one that does not is closed again. *)
Fixpoint connect_first (l : list attempt) (w : world) : option Z * world :=
  match l with
  | [] => (None, w)
  | NoSocket e :: r => connect_first r (set_errno e w)
  | NoConnect e :: r =>
      let '(fd, w) := new_fd w in
      connect_first r (sys_close fd (set_errno e w))
  | Connected rxs txs :: _ =>
      let '(fd, w) := new_fd w in
      (Some fd, set_sent [] (set_tx txs (set_rx rxs w)))
  end.

(** getaddrinfo, and what the connects after it will do. *)
Definition sys_getaddrinfo (w : world) : option (dial_ev * world) :=
  match dial_q w with
  | [] => None
  | d :: r => Some (d, set_dial_q r w)
  end.

(** [coco_client_tls_open] on a connected socket: the new handle, or
    the reason, written straight into the caller's error buffer. *)
Definition sys_tls_open (f : Z) (host : bytes) (o : tls_options) (errcap : nat) (w : world)
    : option ((nat + bytes) * world) :=
  let opened b w :=
    match b with
    | (true, _) =>
        Some (inl (next_handle w),
              set_next_handle (S (next_handle w))
                (set_handles (<[next_handle w := []]> (handles w)) w))
    | (false, b) => Some (inr (b_err b), w)
    end in
  if tls_openssl then
    match hs_q w with
    | [] => None
    | an :: r => opened (coco_client_tls_open an f host o errcap) (set_hs_q r w)
    end
  else opened (coco_client_tls_open_stub errcap) w.
End world.
