(* ===== verification/Conn.v ===== *)
(** * client/zigurat.c: the connection, its errors, its sessions, its turn *)
From S2P Require Import Prelude Effect Tls World.

Definition ZG_MAX_STRING : nat := 255.
Definition ZG_MAX_TEXT : nat := Z.to_nat 65535.
Definition ZG_OUT_SIZE : nat := 1024.
Definition ZG_IN_SIZE : nat := Z.to_nat 8192.
Definition ERR_SIZE : nat := 512.

(** [struct zg_conn]. *)
Record zg_conn := ZgConn {
  c_id : nat; (** the address of the struct: what a session slot compares *)
  fd : Z; (** -1 when there is no socket *)
  tls : option nat; (** the TLS handle *)
  embed : bool; (** the engine is in this process *)
  owner : nat; (** the thread that opened it *)
  transaction_id : Z;
  err : bytes;
  lockfd : Z; (** -1 when nothing is serialised *)
  held : bool;
  lockwait : Z;
  out : bytes; (** bytes held back; [nout] is its length *)
  inb : bytes; (** bytes read ahead; [nin] is its length *)
  pin : nat (** how far [inb] has been consumed *)
}.

Definition set_c_id (v : nat) (c : zg_conn) : zg_conn := ZgConn v (fd c) (tls c) (embed c) (owner c) (transaction_id c) (err c) (lockfd c) (held c) (lockwait c) (out c) (inb c) (pin c).
Definition set_fd (v : Z) (c : zg_conn) : zg_conn := ZgConn (c_id c) v (tls c) (embed c) (owner c) (transaction_id c) (err c) (lockfd c) (held c) (lockwait c) (out c) (inb c) (pin c).
Definition set_tls (v : option nat) (c : zg_conn) : zg_conn := ZgConn (c_id c) (fd c) v (embed c) (owner c) (transaction_id c) (err c) (lockfd c) (held c) (lockwait c) (out c) (inb c) (pin c).
Definition set_embed (v : bool) (c : zg_conn) : zg_conn := ZgConn (c_id c) (fd c) (tls c) v (owner c) (transaction_id c) (err c) (lockfd c) (held c) (lockwait c) (out c) (inb c) (pin c).
Definition set_owner (v : nat) (c : zg_conn) : zg_conn := ZgConn (c_id c) (fd c) (tls c) (embed c) v (transaction_id c) (err c) (lockfd c) (held c) (lockwait c) (out c) (inb c) (pin c).
Definition set_transaction_id (v : Z) (c : zg_conn) : zg_conn := ZgConn (c_id c) (fd c) (tls c) (embed c) (owner c) v (err c) (lockfd c) (held c) (lockwait c) (out c) (inb c) (pin c).
Definition set_err (v : bytes) (c : zg_conn) : zg_conn := ZgConn (c_id c) (fd c) (tls c) (embed c) (owner c) (transaction_id c) v (lockfd c) (held c) (lockwait c) (out c) (inb c) (pin c).
Definition set_lockfd (v : Z) (c : zg_conn) : zg_conn := ZgConn (c_id c) (fd c) (tls c) (embed c) (owner c) (transaction_id c) (err c) v (held c) (lockwait c) (out c) (inb c) (pin c).
Definition set_held (v : bool) (c : zg_conn) : zg_conn := ZgConn (c_id c) (fd c) (tls c) (embed c) (owner c) (transaction_id c) (err c) (lockfd c) v (lockwait c) (out c) (inb c) (pin c).
Definition set_lockwait (v : Z) (c : zg_conn) : zg_conn := ZgConn (c_id c) (fd c) (tls c) (embed c) (owner c) (transaction_id c) (err c) (lockfd c) (held c) v (out c) (inb c) (pin c).
Definition set_out (v : bytes) (c : zg_conn) : zg_conn := ZgConn (c_id c) (fd c) (tls c) (embed c) (owner c) (transaction_id c) (err c) (lockfd c) (held c) (lockwait c) v (inb c) (pin c).
Definition set_inb (v : bytes) (c : zg_conn) : zg_conn := ZgConn (c_id c) (fd c) (tls c) (embed c) (owner c) (transaction_id c) (err c) (lockfd c) (held c) (lockwait c) (out c) v (pin c).
Definition set_pin (v : nat) (c : zg_conn) : zg_conn := ZgConn (c_id c) (fd c) (tls c) (embed c) (owner c) (transaction_id c) (err c) (lockfd c) (held c) (lockwait c) (out c) (inb c) v.

(** The struct as [calloc] and the three assignments after it leave it. *)
Definition fresh_conn (id : nat) : zg_conn :=
  ZgConn id (-1) None false 0 0 [] (-1) false 0 [] [] 0.

Section conn.
Context `{Engine} `{Platform}.

(** A call acts on one connection and the world. *)
Record st := St { cn : zg_conn; wd : world }.

Definition cget {A} (f : zg_conn → A) : M st A := gets (λ s, f (cn s)).
Definition wget {A} (f : world → A) : M st A := gets (λ s, f (wd s)).
Definition cmod (f : zg_conn → zg_conn) : M st unit := modify (λ s, St (f (cn s)) (wd s)).
Definition wmod (f : world → world) : M st unit := modify (λ s, St (cn s) (f (wd s))).
Definition sysp {A} (f : world → A * world) : M st A := λ s,
  let '(a, w) := f (wd s) in Ret a (St (cn s) w).
(** A call that may never return. *)
Definition sys {A} (f : world → option (A * world)) : M st A := λ s,
  match f (wd s) with
  | Some (a, w) => Ret a (St (cn s) w)
  | None => Block s
  end.

(** ** Errors *)

Definition say (what : bytes) : M st bool :=
  cmod (set_err (snprintf_s ERR_SIZE what)) ;; ret false.
Definition say2 (what detail : bytes) : M st bool :=
  cmod (set_err (snprintf_ss ERR_SIZE what detail)) ;; ret false.
(** The same, where the call fills something in. *)
Definition failo {A} (m : M st bool) : M st (option A) := m ;; ret None.

Definition zg_error (c : option zg_conn) : bytes :=
  match c with Some c => err c | None => $"no connection" end.
Definition zg_is_open (c : option zg_conn) : bool :=
  match c with Some c => embed c || bool_decide (0 ≤ fd c)%Z | None => false end.
Definition zg_transaction_id (c : option zg_conn) : Z :=
  match c with Some c => transaction_id c | None => 0 end.

(** ** Sessions: one per thread and connection *)

Definition slots_of (w : world) : list (nat * nat) := default [] (sessions w !! self w).
Definition set_slots (l : list (nat * nat)) (w : world) : world :=
  set_sessions (<[self w := l]> (sessions w)) w.
Definition engine_do {A} (f : eng → A * eng) (w : world) : A * world :=
  let '(a, e) := f (engine w) in (a, set_engine e w).

Fixpoint slot_find (id : nat) (l : list (nat * nat)) : option nat :=
  match l with
  | [] => None
  | (c, ce) :: r => if decide (c = id) then Some ce else slot_find id r
  end.

(** The first slot for [id], unlinked. *)
Fixpoint slot_remove (id : nat) (l : list (nat * nat)) : option nat * list (nat * nat) :=
  match l with
  | [] => (None, [])
  | (c, ce) :: r =>
      if decide (c = id) then (Some ce, r)
      else let '(found, r') := slot_remove id r in (found, (c, ce) :: r')
  end.

Definition ce_of : M st (option nat) :=
  id <- cget c_id ;;
  l <- wget slots_of ;;
  match slot_find id l with
  | Some ce => ret (Some ce)
  | None =>
      if ce_linked then
        ok <- sysp sys_malloc ;;
        if ok then
          me <- wget self ;;
          s <- sysp (engine_do (ce_session_new me)) ;;
          match s with
          | Some ce => wmod (set_slots ((id, ce) :: l)) ;; ret (Some ce)
          | None => ret None
          end
        else ret None
      else ret None
  end.

Definition ce_forget : M st unit :=
  id <- cget c_id ;;
  l <- wget slots_of ;;
  match slot_remove id l with
  | (Some ce, l') =>
      wmod (set_slots l') ;;
      wmod (λ w, set_engine (ce_session_free ce (engine w)) w)
  | (None, _) => ret tt
  end.

(** [ce_thread_slots_free]: the thread-exit destructor. *)
Definition ce_thread_slots_free (w : world) : world :=
  set_slots [] (set_engine (foldl (λ e s, ce_session_free s.2 e) (engine w) (slots_of w)) w).

Definition ce_no_session : bytes := $"cannot begin an embedded session".

(** [void *sess = ce_of(c); if (!sess) return say(c, ce_no_session);
     return emb(c, f(sess, ...));] *)
Definition emb (f : nat → eng → bool * eng) : M st bool :=
  s <- ce_of ;;
  match s with
  | None => say ce_no_session
  | Some ce =>
      ok <- sysp (engine_do (f ce)) ;;
      if ok then ret true else e <- wget engine ;; say (ce_error ce e)
  end.
(** The same, where the engine fills something in. *)
Definition embo {A} (f : nat → eng → option A * eng) : M st (option A) :=
  s <- ce_of ;;
  match s with
  | None => failo (say ce_no_session)
  | Some ce =>
      o <- sysp (engine_do (f ce)) ;;
      match o with
      | Some a => ret (Some a)
      | None => e <- wget engine ;; failo (say (ce_error ce e))
      end
  end.

(** ** Taking turns *)

(** One try at the turn: what the loop in [take_turn] does each time. *)
Definition poll_turn (waited_ms : Z) : M st (Z + bool) :=
  got <- sys sys_flock_ex ;;
  if (got : bool) then cmod (set_held true) ;; ret (inr true)
  else
    e <- wget errno ;;
    if decide (e ≠ EWOULDBLOCK ∧ e ≠ EINTR) then
      say2 $"cannot take the turn" (strerror e) ;; ret (inr false)
    else
      wait <- cget lockwait ;;
      if decide (0 < wait ∧ sint 32 (wait * 1000) ≤ waited_ms)%Z then
        say $"timed out waiting for another cocolog process" ;; ret (inr false)
      else
        wmod (sys_usleep 2000) ;; ret (inl (sint 32 (waited_ms + 2))).

Definition take_turn : M st bool :=
  lfd <- cget lockfd ;;
  h <- cget held ;;
  if decide (lfd < 0)%Z then ret true
  else if (h : bool) then ret true
  else while (λ _ s, length (lock_q (wd s))) poll_turn 0%Z.

Definition give_turn : M st unit :=
  lfd <- cget lockfd ;;
  h <- cget held ;;
  if decide (0 ≤ lfd ∧ h = true)%Z then
    wmod sys_flock_un ;; cmod (set_held false)
  else ret tt.

Definition zg_embedded (c : option zg_conn) : bool :=
  match c with Some c => embed c | None => false end.

Definition zg_owns (c : option zg_conn) (w : world) : bool :=
  match c with
  | Some c => if embed c then bool_decide (owner c = self w) else true
  | None => true
  end.

Definition zg_page_size (c : option zg_conn) (w : world) : Z :=
  match c with
  | Some c => if embed c then if ce_linked then ce_page_size (engine w) else 0 else 0
  | None => 0
  end.

(** open(2) of the turn file. *)
Definition sys_open (w : world) : option (option Z * world) :=
  match open_q w with
  | [] => None
  | Some e :: r => Some (None, set_errno e (set_open_q r w))
  | None :: r => let '(fd, w) := new_fd (set_open_q r w) in Some (Some fd, w)
  end.

(** close(2) of the turn file: the kernel drops the lock with it. *)
Definition close_lock (lfd : Z) (w : world) : world := set_turn false (sys_close lfd w).

Definition zg_serialise (path : option bytes) (wait_seconds : Z) : M st bool :=
  e <- cget embed ;;
  if (e : bool) then ret true
  else
    lfd <- cget lockfd ;;
    when (bool_decide (0 ≤ lfd)%Z)
      (give_turn ;; wmod (close_lock lfd) ;; cmod (set_lockfd (-1))) ;;
    if decide (c_str (default [] path) = []) then ret true
    else
      o <- sys sys_open ;;
      match o with
      | None => e <- wget errno ;; say2 $"cannot open the turn file" (strerror e)
      | Some fd => cmod (λ c, set_lockwait wait_seconds (set_lockfd fd c)) ;; ret true
      end.
End conn.
