(* ===== verification/Socket.v ===== *)
(** * client/zigurat.c: buffered transfers over the socket *)
From S2P Require Import Prelude Effect ByteOrder Tls World Conn.

Section socket.
Context `{Engine} `{Platform}.

(** ** A failed transfer ends the connection *)

Definition lost (what : bytes) (detail : option bytes) : M st bool :=
  f <- cget fd ;;
  when (bool_decide (0 ≤ f)%Z) (wmod (sys_close f) ;; cmod (set_fd (-1))) ;;
  cmod (λ c, set_inb [] (set_pin 0 c)) ;;
  give_turn ;;
  match detail with
  | Some d => say2 what d
  | None => say what
  end.

(** [c->tls && coco_client_tls_why && coco_client_tls_why(c->tls, w, sizeof w)]:
    the session's reason, if there is one. *)
Definition session_why : M st (option bytes) :=
  t <- cget tls ;;
  hs <- wget handles ;;
  ret match t with
      | Some h => if tls_linked && tls_openssl
                  then coco_client_tls_why (default [] (hs !! h)) 256 else None
      | None => None
      end.

Definition why : M st bytes :=
  w <- session_why ;;
  e <- wget errno ;;
  ret (default (strerror e) w).

(** ** Writing *)

Definition send_some (p : bytes) : M st (option nat) :=
  t <- cget tls ;;
  match t with
  | Some h => sys (coco_client_tls_send h p)
  | None => sys (sys_send p)
  end.

(** One round of [wr_now]'s loop; [p] is what has still to go. *)
Definition wr_round (p : bytes) : M st (bytes + bool) :=
  match p with
  | [] => ret (inr true)
  | _ =>
      k <- send_some p ;;
      e <- wget errno ;;
      match k with
      | Some (S k) => ret (inl (drop (S k) p))
      | None => if decide (e = EINTR) then ret (inl p)
                else d <- why ;; lost $"write failed" (Some d) ;; ret (inr false)
      | Some O => d <- why ;; lost $"write failed" (Some d) ;; ret (inr false)
      end
  end.

Definition wr_now (p : bytes) : M st bool :=
  f <- cget fd ;;
  if decide (f < 0)%Z then say $"the connection is closed"
  else while (λ p s, length p + length (tx (wd s))) wr_round p.

Definition flush_out : M st bool :=
  p <- cget out ;;
  match p with
  | [] => ret true
  | _ => cmod (set_out []) ;; wr_now p
  end.

Definition wr (p : bytes) : M st bool :=
  f <- cget fd ;;
  if decide (f < 0)%Z then say $"the connection is closed"
  else if decide (ZG_OUT_SIZE ≤ length p) then flush_out &; wr_now p
  else
    o <- cget out ;;
    (if decide (ZG_OUT_SIZE < length o + length p) then flush_out else ret true) &;
    cmod (λ c, set_out (out c ++ p) c) ;;
    ret true.

(** ** Reading *)

Definition recv_some : M st (option bytes) :=
  t <- cget tls ;;
  match t with
  | Some h => sys (coco_client_tls_recv h ZG_IN_SIZE)
  | None => sys (sys_recv ZG_IN_SIZE)
  end.

(** What [rd] makes of recv's answer. *)
Definition rd_answer (acc : bytes) (k : option bytes) : M st (bytes + option bytes) :=
  e <- wget errno ;;
  match k with
  | Some [] =>
      w <- session_why ;;
      match w with
      | None => lost $"the server closed the connection" None ;; ret (inr None)
      | Some _ => d <- why ;; lost $"read failed" (Some d) ;; ret (inr None)
      end
  | None =>
      if decide (e = EINTR) then ret (inl acc)
      else d <- why ;; lost $"read failed" (Some d) ;; ret (inr None)
  | Some b => cmod (set_inb b) ;; ret (inl acc)
  end.

(** One round of [rd]'s loop, [n] wanted and [acc] in hand. *)
Definition rd_round (n : nat) (acc : bytes) : M st (bytes + option bytes) :=
  if decide (n ≤ length acc) then ret (inr (Some acc))
  else
    c <- cget (λ c, c) ;;
    match drop (pin c) (inb c) with
    | [] =>
        ok <- flush_out ;;
        if (ok : bool) then
          cmod (λ c, set_inb [] (set_pin 0 c)) ;;
          k <- recv_some ;;
          rd_answer acc k
        else ret (inr None)
    | have =>
        let chunk := take (n - length acc) have in
        cmod (set_pin (pin c + length chunk)) ;;
        ret (inl (acc ++ chunk))
    end.

(** How many more answers, and bytes in them, the peer has in store. *)
Definition rx_weight (l : list rx_ev) : nat :=
  sum_list_with (λ e, match e with RxData b => S (length b) | _ => 1 end) l.

(** Everything there is still to read, one way or another. *)
Definition pending_in (s : st) : nat :=
  (length (inb (cn s)) - pin (cn s)) + rx_weight (rx (wd s)).

Definition rd (n : nat) : M st (option bytes) :=
  f <- cget fd ;;
  if decide (f < 0)%Z then failo (say $"the connection is closed")
  else while (λ acc s, (n - length acc) + rx_weight (rx (wd s))) (rd_round n) [].

(** [skip]: a pail of 512 at a time. *)
Definition skip_round (n : nat) : M st (nat + bool) :=
  match n with
  | O => ret (inr true)
  | _ =>
      let want := min n 512 in
      b <- rd want ;;
      match b with
      | Some _ => ret (inl (n - want))
      | None => ret (inr false)
      end
  end.
Definition skip (n : nat) : M st bool := while (λ n _, n) skip_round n.
End socket.

(** ** Primitive values: network byte order, native widths *)

Section primitives.
Context `{Engine} `{Platform} `{Host}.

Definition rd_be (n : nat) : M st (option Z) :=
  b <-? rd n ;; ret (Some (value_of b)).

Definition wr_be (n : nat) (z : Z) : M st bool :=
  if decide (16 < n) then say $"a value wider than the protocol carries"
  else wr (wire_of n z).

Definition rd_u8 : M st (option Z) := b <-? rd 1 ;; ret (Some (mem_val b)).
Definition rd_u16 : M st (option Z) := rd_be 2.
Definition rd_u32 : M st (option Z) := rd_be 4.
Definition rd_sz : M st (option Z) := rd_be 8.
Definition wr_u8 (z : Z) : M st bool := wr (mem_of 1 z).
Definition wr_u16 (z : Z) : M st bool := wr_be 2 z.

Definition wr_std_string (s : bytes) : M st bool :=
  let s := c_str s in
  if decide (ZG_MAX_STRING < length s) then say $"a String is limited to 255 bytes"
  else
    wr_u8 (Z.of_nat (length s)) &;
    if decide (length s = 0) then ret true else wr s.

(** The bytes the caller's buffer receives, before its NUL. *)
Definition rd_std_string (cap : nat) : M st (option bytes) :=
  n <-? rd_u8 ;;
  let n := Z.to_nat n in
  if decide (cap < n + 1) then
    ok <- skip n ;;
    if (ok : bool) then failo (say $"the answer does not fit in the buffer given")
    else ret None
  else if decide (n = 0) then ret (Some []) else rd n.

Definition wr_std_text (s : bytes) : M st bool :=
  let s := c_str s in
  if decide (ZG_MAX_TEXT < length s) then say $"a Text is limited to 65535 bytes"
  else
    wr_u16 (Z.of_nat (length s)) &;
    if decide (length s = 0) then ret true else wr s.
End primitives.
