(* ===== verification/Proto.v ===== *)
(** * client/zigurat.c: opening and closing, verbs, parameters, fields *)
From S2P Require Import Prelude Effect ByteOrder Tls World Conn Socket.

Local Open Scope Z_scope.

(** ** zigurat.h's enumerations, and the type-descriptor bytes *)

Definition ZG_SUCCESSFUL_DONE : Z := 0.
Definition ZG_CURSOR_OPEN : Z := 1.
Definition ZG_CURSOR_FETCH : Z := 2.
Definition ZG_CURSOR_CLOSE : Z := 3.
Definition ZG_RETURN_VALUE : Z := 4.
Definition ZG_EXCEPTION_THROWN : Z := 5.

Inductive zg_isolation := READ_UNCOMMITTED | READ_COMMITTED | REPEATABLE_READ | SNAPSHOT | SERIALIZABLE.
Definition isolation_code (l : zg_isolation) : Z :=
  match l with
  | READ_UNCOMMITTED => 0 | READ_COMMITTED => 1 | REPEATABLE_READ => 2
  | SNAPSHOT => 3 | SERIALIZABLE => 4
  end.

Definition TDB_IS_NULL : Z := 0x80.
Definition TDB_SCALE_MASK : Z := 0x60.
Definition TDB_SCALE_ATOM : Z := 0x00.
Definition TDB_SCALE_BYTE : Z := 0x20.
Definition TDB_SCALE_WORD : Z := 0x40.
Definition TDB_SCALE_DWRD : Z := 0x60.
Definition TDB_TYPE_MASK : Z := 0x07.
Definition TDB_BOOL : Z := 0x09.
Definition TDB_INT : Z := 0x0B.
Definition TDB_LONG : Z := 0x0C.
Definition TDB_DOUBLE : Z := 0x1C.
Definition TDB_STRING : Z := 0x29.
Definition TDB_TEXT : Z := 0x49.

Section proto.
Context `{Engine} `{Platform} `{Host}.

(** ** Opening and closing *)

Definition drop_tls : M st unit :=
  t <- cget tls ;;
  match t with
  | Some h =>
      when tls_linked (wmod (coco_client_tls_close h)) ;; cmod (set_tls None)
  | None => ret tt
  end.

Definition close_socket : M st unit :=
  f <- cget fd ;; wmod (sys_close f) ;; cmod (set_fd (-1)).

(** The handshake, when this process is configured for TLS. *)
Definition secure (host : bytes) : M st bool :=
  cfg <- wget tls_cfg ;;
  match cfg with
  | None => ret true
  | Some o =>
      if tls_linked then
        f <- cget fd ;;
        t <- sys (sys_tls_open f host o ERR_SIZE) ;;
        match t with
        | inl h => cmod (set_tls (Some h)) ;; ret true
        | inr e => cmod (set_err e) ;; close_socket ;; ret false
        end
      else close_socket ;; say $"this build has no TLS"
  end.

Definition dial (host service : bytes) : M st bool :=
  drop_tls ;;
  f <- cget fd ;;
  when (bool_decide (0 <= f)) close_socket ;;
  give_turn ;;
  cmod (λ c, set_transaction_id 0 (set_inb [] (set_pin 0 (set_out [] c)))) ;;
  d <- sys sys_getaddrinfo ;;
  match d with
  | GaiFail rc => say2 $"cannot resolve the server" (gai_strerror rc)
  | GaiList l =>
      o <- sysp (connect_first l) ;;
      match o with
      | None => e <- wget errno ;; say2 $"cannot connect" (strerror e)
      | Some f =>
          cmod (set_fd f) ;;
          secure host &;
          tid <- rd_sz ;;
          match tid with
          | None => close_socket ;; ret false
          | Some tid =>
              cmod (λ c, set_err [] (set_transaction_id tid c)) ;; ret true
          end
      end
  end.

(** [zg_open]: [None] when it answers a connection, else the text for ERR,
    before the caller's size cuts it. *)
Definition zg_open (id : nat) (host service : bytes) : M st (option bytes) :=
  ok <- sysp sys_malloc ;;
  if (ok : bool) then
    cmod (λ _, fresh_conn id) ;;
    ok <- dial host service ;;
    if (ok : bool) then ret None
    else e <- cget err ;; ret (Some e)
  else ret (Some $"out of memory").

Definition zg_open_embed (id : nat) (dir : bytes) : M st (option bytes) :=
  if ce_linked then
    ok <- sysp sys_malloc ;;
    if (ok : bool) then
      cmod (λ _, fresh_conn id) ;;
      e <- sysp (engine_do (ce_engine_open dir)) ;;
      match e with
      | Some e => ret (Some (snprintf_s ERR_SIZE e))
      | None =>
          me <- wget self ;;
          cmod (λ c, set_owner me (set_embed true c)) ;;
          s <- ce_of ;;
          match s with
          | Some _ => ret None
          | None =>
              wmod (λ w, set_engine (ce_engine_close (engine w)) w) ;;
              ret (Some ce_no_session)
          end
      end
    else ret (Some $"out of memory")
  else ret (Some $"this build carries no embedded engine (see embed/build.sh)").

Definition zg_reopen (host service : bytes) : M st bool :=
  e <- cget embed ;;
  if (e : bool) then emb ce_reset else dial host service.

Definition zg_close : M st unit :=
  e <- cget embed ;;
  if (e : bool) then
    ce_forget ;; wmod (λ w, set_engine (ce_engine_close (engine w)) w)
  else
    give_turn ;;
    l <- cget lockfd ;;
    when (bool_decide (0 <= l)) (wmod (close_lock l)) ;;
    drop_tls ;;
    f <- cget fd ;;
    when (bool_decide (0 <= f)) (wmod (sys_close f)) ;;
    cmod (λ c, set_fd (-1) (set_lockfd (-1) c)).

Definition zg_tls_configure_flat (ca path crt k pass : option bytes) (insec : bool) : M st unit :=
  wmod (set_tls_cfg (Some (TlsOptions ca path crt k pass insec))).

(** ** Results *)

Definition zg_result : M st (option Z) :=
  e <- cget embed ;;
  if (e : bool) then embo ce_result
  else
    r <-? rd_u8 ;;
    if decide (r = ZG_EXCEPTION_THROWN) then
      msg <-? rd_std_string (ZG_MAX_STRING + 1) ;;
      failo (lost $"the server refused it" (Some msg))
    else ret (Some r).

Definition verb (name : bytes) : M st bool :=
  cmod (set_err []) ;;
  take_turn &;
  wr_std_string name &;
  r <-& zg_result ;;
  if decide (r = ZG_SUCCESSFUL_DONE) then ret true
  else say2 $"the server would not take the verb" name.

(** [ok = m && zg_result(c, &r) && r == ZG_SUCCESSFUL_DONE] *)
Definition done_after (m : M st bool) : M st bool :=
  m &; r <-& zg_result ;; ret (bool_decide (r = ZG_SUCCESSFUL_DONE)).

(** [if (!ok && c->err[0] == '\0') return say(c, what); return ok;] *)
Definition or_say (ok : bool) (what : M st bool) : M st bool :=
  if ok then ret true
  else e <- cget err ;; if decide (c_str e = []) then what else ret false.

(** ** Verbs *)

Definition zg_echo (text : bytes) (outcap : nat) : M st (option bytes) :=
  if decide (ZG_MAX_STRING < length (c_str text))%nat
  then failo (say $"a String is limited to 255 bytes")
  else
    verb $"echo" ?;;
    wr_std_string text ?;;
    rd_std_string outcap.

Definition zg_compile (suite : bytes) : M st bool :=
  if decide (ZG_MAX_TEXT < length (c_str suite))%nat
  then say $"a Text is limited to 65535 bytes"
  else
    verb $"compile" &;
    ok <- done_after (wr_std_text suite) ;;
    or_say ok (say $"the suite would not compile").

Definition zg_call (procedure : bytes) : M st bool :=
  if decide (ZG_MAX_STRING < length (c_str procedure))%nat
  then say $"a String is limited to 255 bytes"
  else
    e <- cget embed ;;
    if (e : bool) then emb (λ s, ce_call s procedure)
    else
      verb $"call" &;
      wr_std_string procedure &;
      r <-& zg_result ;;
      if decide (r = ZG_SUCCESSFUL_DONE) then ret true
      else say2 $"the server would not call" procedure.

Definition zg_call_send (procedure : bytes) : M st bool :=
  e <- cget embed ;;
  if (e : bool) then zg_call procedure
  else if decide (ZG_MAX_STRING < length (c_str procedure))%nat
  then say $"a String is limited to 255 bytes"
  else
    cmod (set_err []) ;;
    take_turn &;
    wr_std_string $"call" &;
    wr_std_string procedure.

Definition zg_call_wait (procedure : bytes) : M st bool :=
  e <- cget embed ;;
  if (e : bool) then ret true
  else
    r <-& zg_result ;;
    if decide (r = ZG_SUCCESSFUL_DONE) then
      r <-& zg_result ;;
      if decide (r = ZG_SUCCESSFUL_DONE) then ret true
      else say2 $"the server would not call" procedure
    else say2 $"the server would not take the verb" $"call".

Definition zg_auto_commit (on : bool) : M st bool :=
  e <- cget embed ;;
  if (e : bool) then ret true
  else
    verb $"auto_commit" &;
    ok <- done_after (wr (mem_of 1 (if on then 1 else 0))) ;;
    or_say ok (say $"auto_commit was refused").

Definition zg_isolate (level : zg_isolation) : M st bool :=
  e <- cget embed ;;
  if (e : bool) then emb (λ s, ce_isolate s (isolation_code level))
  else
    verb $"isolate" &;
    ok <- done_after (wr_u8 (isolation_code level)) ;;
    or_say ok (say $"the isolation level was refused").

Definition simple_verb (name : bytes) : M st bool :=
  verb name &;
  ok <- done_after (ret true) ;;
  give_turn ;;
  or_say ok (say2 $"refused" name).

Definition zg_commit : M st bool :=
  e <- cget embed ;;
  if (e : bool) then emb ce_commit else simple_verb $"commit".
Definition zg_rollback : M st bool :=
  e <- cget embed ;;
  if (e : bool) then emb ce_rollback else simple_verb $"rollback".

Definition zg_columns (outcap : nat) : M st (option bytes) :=
  e <- cget embed ;;
  if (e : bool) then embo (λ s, ce_columns s outcap) else rd_std_string outcap.

(** ** Writing parameters *)

Definition wr_field (tdb : Z) (n : nat) (v : Z) : M st bool :=
  wr_u8 tdb &; wr_be n v.

Definition zg_write_bool (v : bool) : M st bool := wr_field TDB_BOOL 1 (if v then 1 else 0).

Definition zg_write_int (v : Z) : M st bool :=
  e <- cget embed ;;
  if (e : bool) then emb (λ s, ce_write_num s TDB_INT v) else wr_field TDB_INT 4 v.
Definition zg_write_long (v : Z) : M st bool :=
  e <- cget embed ;;
  if (e : bool) then emb (λ s, ce_write_num s TDB_LONG v) else wr_field TDB_LONG 8 v.
(** A double is its 64 bits. *)
Definition zg_write_double (bits : Z) : M st bool := wr_field TDB_DOUBLE 8 bits.

Definition zg_write_string (s : bytes) : M st bool :=
  if decide (ZG_MAX_STRING < length (c_str s))%nat
  then say $"a String is limited to 255 bytes"
  else
    e <- cget embed ;;
    if (e : bool) then emb (λ ce, ce_write_str ce TDB_STRING s)
    else wr_u8 TDB_STRING &; wr_std_string s.

Definition zg_write_text (s : bytes) : M st bool :=
  if decide (ZG_MAX_TEXT < length (c_str s))%nat
  then say $"a Text is limited to 65535 bytes"
  else
    e <- cget embed ;;
    if (e : bool) then emb (λ ce, ce_write_str ce TDB_TEXT s)
    else wr_u8 TDB_TEXT &; wr_std_text s.

Fixpoint wr_doubles (v : list Z) : M st bool :=
  match v with
  | [] => ret true
  | d :: r => wr_u8 TDB_DOUBLE &; wr_be 8 d &; wr_doubles r
  end.

Definition zg_write_dvector (v : list Z) : M st bool :=
  e <- cget embed ;;
  if (e : bool) then emb (λ ce, ce_write_dvector ce v)
  else
    wr_u8 (Z.lor TDB_SCALE_DWRD TDB_DOUBLE) &;
    wr_be 4 (Z.of_nat (length v)) &;
    wr_doubles v.

(** ** Reading fields

    Each answers nothing on failure, and [Some None] for a null field. *)

Definition field_head : M st (option (Z * bool)) :=
  tdb <-? rd_u8 ;;
  ret (Some (tdb, bool_decide (Z.land tdb TDB_IS_NULL ≠ 0))).

(** [if (null) return 1;] *)
Definition unless_null {A} (null : bool) (m : M st (option A)) : M st (option (option A)) :=
  if null then ret (Some None) else a <-? m ;; ret (Some (Some a)).

Definition rd_scalar (n : nat) : M st (option (option Z)) :=
  h <-? field_head ;; unless_null h.2 (rd_be n).

Definition zg_read_bool : M st (option (option bool)) :=
  v <-? rd_scalar 1 ;;
  ret (Some (match v with Some b => Some (bool_decide (b ≠ 0)) | None => None end)).

Definition zg_read_int : M st (option (option Z)) :=
  e <- cget embed ;;
  if (e : bool) then n <-? embo ce_read_num ;; ret (Some (Some (sint 32 n)))
  else v <-? rd_scalar 4 ;; ret (Some (sint 32 <$> v)).
Definition zg_read_long : M st (option (option Z)) :=
  e <- cget embed ;;
  if (e : bool) then n <-? embo ce_read_num ;; ret (Some (Some n))
  else v <-? rd_scalar 8 ;; ret (Some (sint 64 <$> v)).
Definition zg_read_double : M st (option (option Z)) := rd_scalar 8.

Definition zg_read_string (cap : nat) : M st (option (option bytes)) :=
  e <- cget embed ;;
  if (e : bool) then s <-? embo (λ ce, ce_read_str ce cap) ;; ret (Some (Some s))
  else h <-? field_head ;; unless_null h.2 (rd_std_string cap).

(** The value of a Text, its length read and checked against the buffer. *)
Definition rd_text (cap : nat) : M st (option bytes) :=
  n <-? rd_u16 ;;
  let n := Z.to_nat n in
  if decide (cap < n + 1)%nat then
    ok <- skip n ;;
    if (ok : bool) then failo (say $"the Text does not fit in the buffer given")
    else ret None
  else if decide (n = 0)%nat then ret (Some []) else rd n.

Definition zg_read_text (cap : nat) : M st (option (option bytes)) :=
  e <- cget embed ;;
  if (e : bool) then s <-? embo (λ ce, ce_read_str ce cap) ;; ret (Some (Some s))
  else h <-? field_head ;; unless_null h.2 (rd_text cap).

Definition zg_read_text_alloc : M st (option (option bytes)) :=
  e <- cget embed ;;
  if (e : bool) then s <-? embo ce_read_str_alloc ;; ret (Some (Some s))
  else
    h <-? field_head ;;
    unless_null h.2
      (n <-? rd_u16 ;;
       let n := Z.to_nat n in
       ok <- sysp sys_malloc ;;
       if (ok : bool) then if decide (n = 0)%nat then ret (Some []) else rd n
       else skip n ;; failo (say $"out of memory reading a Text")).

Fixpoint rd_doubles (n : nat) : M st (option (list Z)) :=
  match n with
  | O => ret (Some [])
  | S n =>
      _ <-? rd_u8 ;;
      v <-? rd_be 8 ;;
      r <-? rd_doubles n ;;
      ret (Some (v :: r))
  end.

Definition zg_read_dvector (cap : nat) : M st (option (option (list Z))) :=
  e <- cget embed ;;
  if (e : bool) then v <-? embo (λ ce, ce_read_dvector ce cap) ;; ret (Some (Some v))
  else
    h <-? field_head ;;
    unless_null h.2
      (if decide (Z.land h.1 TDB_SCALE_MASK ≠ TDB_SCALE_DWRD)
       then failo (say $"the field is not a vector")
       else
         count <-? rd_u32 ;;
         if decide (Z.of_nat cap < count)
         then failo (say $"a vector wider than the caller's buffer")
         else rd_doubles (Z.to_nat count)).

(** [esize = (tdb & TDB_TYPE_MASK) ? (1u << ((tdb & TDB_TYPE_MASK) - 1)) : 0u] *)
Definition esize (tdb : Z) : Z :=
  let c := Z.land tdb TDB_TYPE_MASK in
  if decide (c = 0) then 0 else Z.shiftl 1 (c - 1).

Fixpoint times (n : nat) (m : M st bool) : M st bool :=
  match n with
  | O => ret true
  | S n => m &; times n m
  end.

(** [fuel] bounds how deeply vectors may nest. *)
Fixpoint skip_field (fuel : nat) : M st bool :=
  match fuel with
  | O => λ s, Spin s
  | S fuel =>
      h <-& field_head ;;
      let tdb := h.1 in
      if (h.2 : bool) then ret true
      else
        let scale := Z.land tdb TDB_SCALE_MASK in
        if decide (scale = TDB_SCALE_ATOM) then skip (Z.to_nat (esize tdb))
        else if decide (scale = TDB_SCALE_BYTE) then
          n <-& rd_u8 ;; skip (Z.to_nat (n * esize tdb))
        else if decide (scale = TDB_SCALE_WORD) then
          n <-& rd_u16 ;; skip (Z.to_nat (n * esize tdb))
        else if decide (scale = TDB_SCALE_DWRD) then
          n <-& rd_u32 ;; times (Z.to_nat n) (skip_field fuel)
        else say $"a field arrived with a type this client does not know"
  end.

(** No vector nests deeper than there is input to read. *)
Definition zg_skip_field : M st bool :=
  e <- cget embed ;;
  if (e : bool) then emb ce_skip
  else λ s, skip_field (S (pending_in s)) s.

(** What [zg_read_field] answers through KIND and the pointers beside it. *)
Inductive field_view :=
| F_NULL
| F_LONG (i : Z)
| F_DOUBLE (bits : Z)
| F_TEXT (t : bytes)
| F_VECTOR (n : Z).

Definition zg_read_field (cap : nat) : M st (option field_view) :=
  e <- cget embed ;;
  if (e : bool) then
    failo (say $"reading a field without naming its type needs the wire's descriptors; an embedded connection has none to offer")
  else
    h <-? field_head ;;
    let tdb := h.1 in
    if (h.2 : bool) then ret (Some F_NULL)
    else if decide (tdb = TDB_BOOL) then
      b <-? rd_be 1 ;; ret (Some (F_LONG (if decide (b = 0) then 0 else 1)))
    else if decide (tdb = TDB_INT) then v <-? rd_be 4 ;; ret (Some (F_LONG (sint 32 v)))
    else if decide (tdb = TDB_LONG) then v <-? rd_be 8 ;; ret (Some (F_LONG (sint 64 v)))
    else if decide (tdb = TDB_DOUBLE) then v <-? rd_be 8 ;; ret (Some (F_DOUBLE v))
    else if decide (tdb = TDB_STRING) then t <-? rd_std_string cap ;; ret (Some (F_TEXT t))
    else if decide (tdb = TDB_TEXT) then t <-? rd_text cap ;; ret (Some (F_TEXT t))
    else if decide (Z.land tdb TDB_SCALE_MASK = TDB_SCALE_DWRD) then
      n <-? rd_u32 ;; ret (Some (F_VECTOR n))
    else failo (say $"a field arrived with a type this client does not know").

(** [fuel] bounds the results read. *)
Fixpoint zg_drain (fuel : nat) (row_fields : nat) : M st bool :=
  match fuel with
  | O => λ s, Spin s
  | S fuel =>
      r <-& zg_result ;;
      if decide (r = ZG_SUCCESSFUL_DONE) then ret true
      else if decide (r = ZG_CURSOR_OPEN) then
        _ <-& zg_columns (ZG_MAX_STRING + 1) ;; zg_drain fuel row_fields
      else if decide (r = ZG_CURSOR_FETCH) then
        times row_fields zg_skip_field &; zg_drain fuel row_fields
      else if decide (r = ZG_RETURN_VALUE) then
        zg_skip_field &; zg_drain fuel row_fields
      else zg_drain fuel row_fields
  end.
End proto.
