(* ===== verification/SocketFacts.v ===== *)
(** * What the buffered transfers promise

    Two abstractions carry everything above the socket: [wire], every byte
    ever written, whether or not it has left the out buffer; and [stream],
    every byte there is to read, whether or not it has been read ahead.  [wr]
    appends to the first, [rd] takes from the front of the second, and nothing
    else about the buffers can be seen. *)
From S2P Require Import Prelude Effect ByteOrder Tls World Conn Socket.

Section facts.
Context `{Engine} `{Platform}.
Implicit Types s : st.

(** ** States *)

Definition wf s : Prop :=
  length (out (cn s)) ≤ ZG_OUT_SIZE ∧ pin (cn s) ≤ length (inb (cn s)) ∧
  length (inb (cn s)) ≤ ZG_IN_SIZE ∧ (tls (cn s) = None ∨ tls_openssl = true).
Definition open s : Prop := (0 ≤ fd (cn s))%Z.

Definition wire s : bytes := sent (wd s) ++ out (cn s).

(** What the peer will have us receive before the connection ends. *)
Fixpoint rx_data (plain : bool) (l : list rx_ev) : bytes :=
  match l with
  | [] => []
  | RxData [] :: _ => []
  | RxData b :: r => b ++ rx_data plain r
  | RxErr e :: r => if decide (plain = true ∧ e = EINTR) then rx_data plain r else []
  | RxSsl k :: r => if decide (plain = true ∧ st_errno k = EINTR) then rx_data plain r else []
  end.
Definition plaintext s : bool := bool_decide (tls (cn s) = None).
Definition stream s : bytes :=
  drop (pin (cn s)) (inb (cn s)) ++ rx_data (plaintext s) (rx (wd s)).

(** The peer takes whatever is sent. *)
Definition calm s : Prop := tx (wd s) = [].

(** Everything a successful transfer leaves alone. *)
Definition core (c : zg_conn) : zg_conn := set_inb [] (set_pin 0 (set_out [] c)).
Definition wcore (w : world) : world :=
  set_rx [] (set_tx [] (set_errno 0 (set_sent [] (set_handles ∅ w)))).
Definition moved s s' : Prop := core (cn s) = core (cn s') ∧ wcore (wd s) = wcore (wd s').

(** How [lost] leaves things: no socket, nothing read ahead, the turn
    returned. *)
Definition gone s s' : Prop :=
  fd (cn s') = (-1)%Z ∧ inb (cn s') = [] ∧ pin (cn s') = 0 ∧
  tls (cn s') = tls (cn s) ∧ embed (cn s') = embed (cn s) ∧
  lockfd (cn s') = lockfd (cn s) ∧
  ((0 ≤ lockfd (cn s))%Z → held (cn s') = false) ∧
  turn (wd s') = (if decide (0 ≤ lockfd (cn s) ∧ held (cn s) = true)%Z then false else turn (wd s)) ∧
  fds (wd s') = filter (λ d, d ≠ fd (cn s)) (fds (wd s)) ∧
  length (out (cn s')) ≤ ZG_OUT_SIZE.

#[global] Instance moved_equivalence : Equivalence moved.
Proof. unfold moved. split; [done|intros ? ? []; done|intros ? ? ? [] []; split; congruence]. Qed.

Lemma moved_fd s s' : moved s s' → fd (cn s') = fd (cn s).
Proof. intros [E _]. by apply (f_equal fd) in E. Qed.
Lemma moved_tls s s' : moved s s' → tls (cn s') = tls (cn s).
Proof. intros [E _]. by apply (f_equal tls) in E. Qed.
Lemma moved_embed s s' : moved s s' → embed (cn s') = embed (cn s).
Proof. intros [E _]. by apply (f_equal embed) in E. Qed.
Lemma moved_err s s' : moved s s' → err (cn s') = err (cn s).
Proof. intros [E _]. by apply (f_equal err) in E. Qed.
Lemma moved_lock s s' : moved s s' →
  lockfd (cn s') = lockfd (cn s) ∧ held (cn s') = held (cn s) ∧ turn (wd s') = turn (wd s).
Proof.
  intros [E E']. split_and!; [by apply (f_equal lockfd) in E|by apply (f_equal held) in E|].
  by apply (f_equal turn) in E'.
Qed.
Lemma moved_fds s s' : moved s s' → fds (wd s') = fds (wd s).
Proof. intros [_ E]. by apply (f_equal fds) in E. Qed.
Lemma moved_open s s' : moved s s' → open s → open s'.
Proof. intros E. unfold open. by rewrite (moved_fd _ _ E). Qed.
Lemma moved_plaintext s s' : moved s s' → plaintext s' = plaintext s.
Proof. intros E. unfold plaintext. by rewrite (moved_tls _ _ E). Qed.
Lemma moved_gone s s' s'' : moved s s' → gone s' s'' → gone s s''.
Proof.
  intros E. unfold gone.
  rewrite (moved_fd _ _ E), (moved_tls _ _ E), (moved_embed _ _ E), (moved_fds _ _ E).
  by destruct (moved_lock _ _ E) as (-> & -> & ->).
Qed.

(** ** Giving up and being lost *)

Lemma wp_say what Q B s :
  Q false (St (set_err (snprintf_s ERR_SIZE what) (cn s)) (wd s)) → wp (say what) Q B s.
Proof. done. Qed.
Lemma wp_say2 what d Q B s :
  Q false (St (set_err (snprintf_ss ERR_SIZE what d) (cn s)) (wd s)) → wp (say2 what d) Q B s.
Proof. done. Qed.

Definition lost_text (what : bytes) (d : option bytes) : bytes :=
  match d with
  | Some d => snprintf_ss ERR_SIZE what d
  | None => snprintf_s ERR_SIZE what
  end.

Lemma wp_lost what d (Q : bool → st → Prop) B s :
  open s → length (out (cn s)) ≤ ZG_OUT_SIZE →
  (∀ s', gone s s' → err (cn s') = lost_text what d → sent (wd s') = sent (wd s) →
     tx (wd s') = tx (wd s) → out (cn s') = out (cn s) → Q false s') →
  wp (lost what d) Q B s.
Proof.
  intros Ho Hout HQ. unfold lost, when, cget, wmod, cmod. wp_steps.
  rewrite bool_decide_true by done. wp_steps. unfold give_turn, cget, wmod, cmod.
  wp_steps. cbn [cn wd lockfd held set_fd set_inb set_pin].
  case_decide as E.
  - wp_steps. destruct d; (apply wp_say2 || apply wp_say); apply HQ; try done;
      unfold gone; cbn; rewrite decide_True by done; split_and!; done.
  - wp_steps. destruct d; (apply wp_say2 || apply wp_say); apply HQ; try done;
      unfold gone; cbn; rewrite decide_False by done; split_and!; try done;
      intros ?; destruct (held (cn s)); naive_solver.
Qed.

(** ** Writing *)

(** Sending touches the peer's script, errno, the reason a handle keeps, and
    appends to what the kernel has taken. *)
Definition sends (p : bytes) s (o : option nat) s' : Prop :=
  cn s' = cn s ∧ moved s s' ∧ rx (wd s') = rx (wd s) ∧
  match o with
  | Some k => k ≤ length p ∧ sent (wd s') = sent (wd s) ++ take k p
  | None => sent (wd s') = sent (wd s)
  end ∧
  (tx (wd s) = [] → o = Some (length p) ∧ tx (wd s') = []) ∧
  (tx (wd s) ≠ [] → length (tx (wd s')) < length (tx (wd s))).

Lemma moved_world s w :
  wcore w = wcore (wd s) → moved s (St (cn s) w).
Proof. intros E. by split. Qed.

Ltac send_leaf :=
  split_and!;
    solve [ done | lia | by apply moved_world | by intros | by rewrite firstn_all
          | by rewrite take_min | intros _; cbn; lia | split; [lia|by rewrite ?take_min, ?firstn_all] ].

Lemma wp_send_some p s :
  wf s → wp (send_some p) (sends p s) (λ s', s' = s ∧ tx (wd s) ≠ []) s.
Proof.
  intros (_ & _ & _ & Htls). unfold send_some, cget. wp_steps. unfold wp, sends.
  destruct (tls (cn s)) as [h|] eqn:E.
  - destruct Htls as [?|Hb]; [done|].
    unfold sys, coco_client_tls_send. rewrite Hb.
    destruct (tx (wd s)) as [|[[|k]|e|k|] r] eqn:Et; cbn -[Nat.min take]; send_leaf.
  - unfold sys, sys_send.
    destruct (tx (wd s)) as [|[k|e|k|] r] eqn:Et; cbn -[Nat.min take]; send_leaf.
Qed.

Lemma wp_wget {A} (f : world → A) (Q : A → st → Prop) B s : Q (f (wd s)) s → wp (wget f) Q B s.
Proof. done. Qed.
Lemma wp_cget {A} (f : zg_conn → A) (Q : A → st → Prop) B s : Q (f (cn s)) s → wp (cget f) Q B s.
Proof. done. Qed.
Lemma wp_cmod f (Q : unit → st → Prop) B s : Q tt (St (f (cn s)) (wd s)) → wp (cmod f) Q B s.
Proof. done. Qed.
Lemma wp_wmod f (Q : unit → st → Prop) B s : Q tt (St (cn s) (f (wd s))) → wp (wmod f) Q B s.
Proof. done. Qed.
Lemma wp_session_why (Q : option bytes → st → Prop) B s :
  (∀ w, Q w s) → wp session_why Q B s.
Proof. intros HQ. unfold session_why. repeat (wp_step; apply wp_cget || apply wp_wget). apply wp_ret, HQ. Qed.
Lemma wp_why (Q : bytes → st → Prop) B s : (∀ w, Q w s) → wp why Q B s.
Proof.
  intros HQ. unfold why. wp_step. apply wp_session_why. intros w.
  wp_step. apply wp_wget. apply wp_ret, HQ.
Qed.

(** What became of [p] once the socket was asked to take it from state [s]:
    all of it went; or the connection is over, a prefix of it having gone. *)
Definition written (p : bytes) s (ok : bool) s' : Prop :=
  if ok then
    moved s s' ∧ cn s' = cn s ∧ rx (wd s') = rx (wd s) ∧ sent (wd s') = sent (wd s) ++ p ∧
    (calm s → calm s')
  else gone s s' ∧ sent (wd s') `prefix_of` sent (wd s) ++ p ∧ ¬ calm s.

Definition sent_part (p : bytes) s s' : Prop :=
  sent (wd s') `prefix_of` sent (wd s) ++ p ∧ ¬ calm s.

(** In the middle of [wr_now]: [q] of [p] has still to go. *)
Definition wr_inv (p : bytes) s (q : bytes) s' : Prop := ∃ k,
  q = drop k p ∧ k ≤ length p ∧ moved s s' ∧ cn s' = cn s ∧
  rx (wd s') = rx (wd s) ∧ sent (wd s') = sent (wd s) ++ take k p ∧ (calm s → calm s').
Definition wr_post (p : bytes) s (n : nat) (r : bytes + bool) s' : Prop :=
  match r with
  | inl q => wr_inv p s q s' ∧ length q + length (tx (wd s')) < n
  | inr b => written p s b s'
  end.

Lemma wr_inv_open p s q s' : wf s → open s → wr_inv p s q s' → wf s' ∧ open s'.
Proof.
  intros Hwf Ho (k & _ & _ & Hm & Hc & _). split; [unfold wf in *; by rewrite Hc|].
  by eapply moved_open.
Qed.
Lemma wr_inv_prefix p s q s' :
  wr_inv p s q s' → sent (wd s') `prefix_of` sent (wd s) ++ p.
Proof. intros (k & _ & _ & _ & _ & _ & -> & _). apply prefix_app, prefix_take. Qed.

(** The socket took [k] more bytes. *)
Lemma wr_inv_step p s q s1 k s2 :
  wr_inv p s q s1 → sends q s1 (Some k) s2 → wr_inv p s (drop k q) s2.
Proof.
  intros (j & -> & Hj & Hm & Hc & Hrx & Hs & Hca) (Hc2 & Hm2 & Hrx2 & [Hle Hs2] & Hca2 & _).
  rewrite length_drop in Hle. exists (j + k).
  split_and!; [by rewrite drop_drop|lia|by transitivity s1|congruence|congruence| |].
  - rewrite Hs2, Hs, <- app_assoc, take_take_drop. done.
  - intros Hcs. by apply Hca2, Hca.
Qed.

(** The socket took nothing, for good. *)
Lemma wp_wr_lost p s q s1 o s2 n :
  wf s → open s → q ≠ [] → wr_inv p s q s1 → sends q s1 o s2 → o = None ∨ o = Some 0 →
  wp (d <- why ;; lost $"write failed" (Some d) ;; ret (inr false))
     (wr_post p s n) (sent_part p s) s2.
Proof.
  intros Hwf Ho Hq Hinv (Hc2 & Hm2 & _ & Hs2 & Hca2 & _) Hor.
  destruct (wr_inv_open _ _ _ _ Hwf Ho Hinv) as [Hwf1 Ho1].
  assert (sent (wd s2) = sent (wd s1)) as Es.
  { destruct Hor as [-> | ->]; [done|]. destruct Hs2 as [_ ->]. by rewrite take_0, app_nil_r. }
  wp_step. apply wp_why. intros d. wp_step.
  apply wp_lost; [by eapply moved_open|rewrite Hc2; apply Hwf1|].
  intros s3 Hg _ Hs3 _ _. apply wp_ret. split_and!.
  - destruct Hinv as (k & _ & _ & Hm & _). by eapply moved_gone; [|by eapply moved_gone].
  - rewrite Hs3, Es. by eapply wr_inv_prefix.
  - intros Hca. destruct Hinv as (k & _ & _ & _ & _ & _ & _ & Hca1).
    destruct (Hca2 (Hca1 Hca)) as [-> _]. destruct Hor as [?|[= E]]; [done|].
    by apply nil_length_inv in E.
Qed.

Lemma wp_wr_round p s q s1 :
  wf s → open s → wr_inv p s q s1 →
  wp (wr_round q) (wr_post p s (length q + length (tx (wd s1)))) (sent_part p s) s1.
Proof.
  intros Hwf Ho Hinv. unfold wr_round. destruct q as [|x q'] eqn:Eq.
  { apply wp_ret. destruct Hinv as (k & E & Hk & Hm & Hc & Hrx & Hs & Hcalm).
    unfold wr_post, written. split_and!; [done..| |done].
    rewrite Hs. f_equal. apply take_ge.
    apply (f_equal length) in E. rewrite length_drop in E. simpl in E. lia. }
  rewrite <- Eq. destruct (wr_inv_open _ _ _ _ Hwf Ho Hinv) as [Hwf1 Ho1].
  wp_step. eapply wp_mono; [by apply wp_send_some| |].
  2:{ intros s2 [-> Hne]. split; [subst q; by eapply wr_inv_prefix|].
      destruct Hinv as (k & _ & _ & _ & _ & _ & _ & Hca). naive_solver. }
  intros o s2 Hsend. wp_step. apply wp_wget. subst q.
  pose proof Hsend as (_ & _ & _ & Hs2 & Hca2 & Hlen).
  destruct o as [[|k]|]; [by eapply wp_wr_lost; eauto| |].
  - apply wp_ret. split; [by eapply wr_inv_step|]. destruct Hs2 as [Hle _].
    rewrite length_drop. destruct (decide (tx (wd s1) = [])) as [E|E].
    + destruct (Hca2 E) as [_ ->]. rewrite E. simpl in *. lia.
    + specialize (Hlen E). simpl in *. lia.
  - case_decide; [|by eapply wp_wr_lost; eauto].
    apply wp_ret. split.
    + destruct Hinv as (k & Ek & Hk & Hm & Hc & Hrx & Hs & Hca).
      destruct Hsend as (Hc2 & Hm2 & Hrx2 & Hs2' & _). exists k.
      split_and!; [done|done|by transitivity s1|congruence|congruence|congruence|].
      intros Hcs. by apply Hca2, Hca.
    + assert (tx (wd s1) ≠ []) as E; [|by specialize (Hlen E); lia].
      intros E. by destruct (Hca2 E).
Qed.

Lemma wp_wr_now p s :
  wf s → open s → wp (wr_now p) (written p s) (sent_part p s) s.
Proof.
  intros Hwf Ho. unfold wr_now. wp_step. apply wp_cget.
  rewrite decide_False by (unfold open in Ho; lia).
  apply wp_while with (I := wr_inv p s).
  - intros q s1 Hinv. eapply wp_mono; [by apply wp_wr_round| |done].
    by intros [q'|b] s2 Hp.
  - exists 0. rewrite drop_0, take_0, app_nil_r. split_and!; done || lia.
Qed.

(** The out buffer goes first, and once: it is empty from then on. *)
Definition flushed s (ok : bool) s' : Prop :=
  if ok then
    moved s s' ∧ out (cn s') = [] ∧ inb (cn s') = inb (cn s) ∧ pin (cn s') = pin (cn s) ∧
    rx (wd s') = rx (wd s) ∧ sent (wd s') = wire s ∧ (calm s → calm s')
  else gone s s' ∧ sent (wd s') `prefix_of` wire s ∧ ¬ calm s.

Lemma wp_flush_out s :
  wf s → open s →
  wp flush_out (flushed s) (λ s', sent (wd s') `prefix_of` wire s ∧ ¬ calm s) s.
Proof.
  intros Hwf Ho. unfold flush_out. wp_step. apply wp_cget. destruct (out (cn s)) as [|x p] eqn:E.
  - apply wp_ret. unfold flushed, wire. rewrite E, app_nil_r. by split_and!.
  - rewrite <- E. wp_step. apply wp_cmod.
    eapply wp_mono; [apply wp_wr_now| |].
    + unfold wf in *. cbn. rewrite E in Hwf. simpl in Hwf. split_and!; try apply Hwf. unfold ZG_OUT_SIZE; lia.
    + done.
    + intros [] s' Hw; cbn in Hw.
      * destruct Hw as (Hm & Hc & Hrx & Hs & Hca). unfold flushed, wire.
        rewrite Hc. cbn. by split_and!.
      * destruct Hw as (Hg & Hp & Hca). by split_and!.
    + intros s' [Hp Hca]. by split.
Qed.

Definition wrote (p : bytes) s (ok : bool) s' : Prop :=
  if ok then
    moved s s' ∧ wf s' ∧ wire s' = wire s ++ p ∧ inb (cn s') = inb (cn s) ∧
    pin (cn s') = pin (cn s) ∧ rx (wd s') = rx (wd s) ∧ (calm s → calm s')
  else gone s s' ∧ sent (wd s') `prefix_of` wire s ++ p ∧ ¬ calm s.
Definition wire_part (p : bytes) s s' : Prop :=
  sent (wd s') `prefix_of` wire s ++ p ∧ ¬ calm s.

Lemma flushed_wf s s' : wf s → flushed s true s' → wf s'.
Proof.
  intros (? & ? & ? & ?) (Hm & Ho & Hi & Hp & _). unfold wf.
  rewrite Ho, Hi, Hp, (moved_tls _ _ Hm). simpl. split_and!; done || lia.
Qed.

Lemma flushed_not s s' p : flushed s false s' → wrote p s false s'.
Proof. intros (Hg & Hp & Hc). split; [exact Hg|split; [by apply prefix_app_r|exact Hc]]. Qed.

(** Putting [p] behind what is held back. *)
Lemma wrote_held p s s1 :
  wf s → moved s s1 → wire s1 = wire s → wf s1 → length (out (cn s1)) + length p ≤ ZG_OUT_SIZE →
  inb (cn s1) = inb (cn s) → pin (cn s1) = pin (cn s) → rx (wd s1) = rx (wd s) →
  (calm s → calm s1) →
  wrote p s true (St (set_out (out (cn s1) ++ p) (cn s1)) (wd s1)).
Proof.
  intros Hwf Hm Hw Hwf1 Hl Hi Hp Hr Hca. unfold wrote, wire in *. cbn. split_and!; try done.
  - unfold wf in *. cbn. rewrite length_app. split_and!; try apply Hwf1; lia.
  - by rewrite app_assoc, Hw.
Qed.

(** [wr]: whichever way it goes out, [p] is behind everything written so
    far, and the buffer stays within its size. *)
Lemma wp_wr p s : wf s → open s → wp (wr p) (wrote p s) (wire_part p s) s.
Proof.
  intros Hwf Ho. unfold wr. wp_step. apply wp_cget.
  rewrite decide_False by (unfold open in Ho; lia).
  assert (∀ s', sent (wd s') `prefix_of` wire s ∧ ¬ calm s → wire_part p s s') as Hpart.
  { intros s' [? ?]. split; [by apply prefix_app_r|done]. }
  case_decide as Hbig.
  - wp_step. eapply wp_mono; [by apply wp_flush_out| |exact Hpart].
    intros [] s1 Hf; [|by apply flushed_not].
    pose proof (flushed_wf _ _ Hwf Hf) as Hwf1. destruct Hf as (Hm & Hout & Hi & Hp & Hr & Hs & Hca).
    eapply wp_mono; [apply wp_wr_now; [done|by eapply moved_open]| |].
    + intros [] s2.
      * intros (Hm2 & Hc2 & Hr2 & Hs2 & Hca2). unfold wrote, wire at 1. rewrite Hc2, Hout, app_nil_r.
        split_and!; [by transitivity s1|unfold wf in *; by rewrite Hc2|congruence..|by eauto].
      * intros (Hg & Hpre & Hnc). rewrite Hs in Hpre.
        split; [by eapply moved_gone|split; [done|by eauto]].
    + intros s2 [Hpre Hnc]. split; [by rewrite Hs in Hpre|by eauto].
  - wp_step. apply wp_cget. wp_step. case_decide as Hfull.
    + eapply wp_mono; [by apply wp_flush_out| |exact Hpart].
      intros [] s1 Hf; [|by apply flushed_not].
      pose proof (flushed_wf _ _ Hwf Hf) as Hwf1. destruct Hf as (Hm & Hout & Hi & Hp & Hr & Hs & Hca).
      wp_step. apply wp_cmod, wp_ret. apply wrote_held; try done.
      * unfold wire at 1. by rewrite Hout, app_nil_r.
      * rewrite Hout. simpl. lia.
    + apply wp_ret. wp_step. apply wp_cmod, wp_ret. apply wrote_held; done || lia.
Qed.

(** ** Reading *)

Definition more s : nat := rx_weight (rx (wd s)).

Definition recvs s (o : option bytes) s' : Prop :=
  cn s' = cn s ∧ moved s s' ∧ sent (wd s') = sent (wd s) ∧ tx (wd s') = tx (wd s) ∧
  match o with
  | Some [] => rx_data (plaintext s) (rx (wd s)) = []
  | Some b => rx_data (plaintext s) (rx (wd s)) = b ++ rx_data (plaintext s) (rx (wd s')) ∧
              length b ≤ ZG_IN_SIZE ∧ length b + more s' ≤ more s
  | None => if decide (errno (wd s') = EINTR)
            then rx_data (plaintext s) (rx (wd s)) = rx_data (plaintext s) (rx (wd s')) ∧
                 more s' < more s
            else rx_data (plaintext s) (rx (wd s)) = []
  end.

Lemma rx_weight_cons e l : rx_weight (e :: l) = match e with RxData b => S (length b) | _ => 1 end + rx_weight l.
Proof. done. Qed.

(** A chunk of data, cut to the buffer: the rest stays with the peer. *)
Lemma recv_chunk plain b r : b ≠ [] →
  let r' := if decide (length b ≤ ZG_IN_SIZE) then r else RxData (drop ZG_IN_SIZE b) :: r in
  rx_data plain (RxData b :: r) = take ZG_IN_SIZE b ++ rx_data plain r' ∧
  length (take ZG_IN_SIZE b) + rx_weight r' ≤ rx_weight (RxData b :: r) ∧ take ZG_IN_SIZE b ≠ [].
Proof.
  intros Hb r'. assert (length b ≠ 0) as Hl by (by destruct b).
  assert (0 < ZG_IN_SIZE) as Hpos by (unfold ZG_IN_SIZE; lia).
  assert (∀ b' l, b' ≠ [] → rx_data plain (RxData b' :: l) = b' ++ rx_data plain l) as Hcons.
  { intros [|x b'] l ?; done. }
  rewrite Hcons by done. unfold r'. split_and!.
  - case_decide; [by rewrite take_ge by lia|]. rewrite Hcons.
    + by rewrite app_assoc, take_drop.
    + intros E. apply (f_equal length) in E. rewrite length_drop in E. cbn [length] in E. lia.
  - case_decide; rewrite length_take, !rx_weight_cons; cbv beta iota; rewrite ?length_drop; lia.
  - intros E. apply (f_equal length) in E. rewrite length_take in E. cbn [length] in E. lia.
Qed.

Lemma recvs_chunk s b r :
  rx (wd s) = RxData b :: r → b ≠ [] →
  recvs s (Some (take ZG_IN_SIZE b))
    (St (cn s) (set_rx (if decide (length b ≤ ZG_IN_SIZE) then r else RxData (drop ZG_IN_SIZE b) :: r) (wd s))).
Proof.
  intros Er Hb. destruct (recv_chunk (plaintext s) b r Hb) as (H1 & H2 & H3).
  unfold recvs, more. cbn [cn wd]. split_and!; try done.
  destruct (take ZG_IN_SIZE b) as [|x l] eqn:E; [done|]. rewrite Er.
  split_and!; [exact H1|rewrite <- E, length_take; lia|exact H2].
Qed.

Lemma wp_recv_some s :
  wf s → wp recv_some (recvs s) (λ s', s' = s ∧ rx (wd s) = []) s.
Proof.
  intros (_ & _ & _ & Htls). unfold recv_some. wp_step. apply wp_cget. unfold wp.
  destruct (tls (cn s)) as [h|] eqn:E.
  - destruct Htls as [?|Hb]; [done|]. unfold sys, coco_client_tls_recv. rewrite Hb.
    assert (plaintext s = false) as Hp by (unfold plaintext; rewrite E; done).
    destruct (rx (wd s)) as [|[[|x b]|e|k] r] eqn:Er; [done| |by apply recvs_chunk| |];
      unfold recvs; rewrite Hp; cbn; rewrite Er; split_and!; try done.
  - unfold sys, sys_recv.
    assert (plaintext s = true) as Hp by (unfold plaintext; rewrite E; done).
    destruct (rx (wd s)) as [|[[|x b]|e|k] r] eqn:Er; [done| |by apply recvs_chunk| |];
      unfold recvs; rewrite Hp; cbn; rewrite Er; split_and!; try done;
      unfold more, rx_weight; cbn; rewrite Er; cbn;
      (case_decide as Hd; [rewrite decide_True by done; split; [done|lia]|rewrite decide_False by naive_solver; done]).
Qed.

(** What became of a request for [n] bytes: the next [n] of the stream, and
    nothing else moved; or the connection is over, which against a calm peer
    happens only when the stream is shorter than that. *)
Definition got (n : nat) s (o : option bytes) s' : Prop :=
  match o with
  | Some b => moved s s' ∧ wf s' ∧ length b = n ∧ stream s = b ++ stream s' ∧
              wire s' = wire s ∧ (calm s → calm s') ∧ n + pending_in s' ≤ pending_in s
  | None => gone s s' ∧ (calm s → length (stream s) < n)
  end.
(** Waiting for the peer: everything written has reached it. *)
Definition waiting (n : nat) s s' : Prop :=
  calm s → moved s s' ∧ out (cn s') = [] ∧ sent (wd s') = wire s ∧
           length (stream s) < n ∧ rx (wd s') = [].

Definition rd_inv (n : nat) s (acc : bytes) s' : Prop :=
  moved s s' ∧ wf s' ∧ length acc ≤ n ∧ stream s = acc ++ stream s' ∧
  wire s' = wire s ∧ (calm s → calm s') ∧ length acc + pending_in s' ≤ pending_in s.
Definition rd_post (n : nat) s (m : nat) (r : bytes + option bytes) s' : Prop :=
  match r with
  | inl acc => rd_inv n s acc s' ∧ (n - length acc) + more s' < m
  | inr o => got n s o s'
  end.

(** Bytes already read ahead. *)
Lemma rd_take n s acc s1 x have :
  rd_inv n s acc s1 → length acc < n → drop (pin (cn s1)) (inb (cn s1)) = x :: have →
  let chunk := take (n - length acc) (x :: have) in
  rd_post n s ((n - length acc) + more s1) (inl (acc ++ chunk))
    (St (set_pin (pin (cn s1) + length chunk) (cn s1)) (wd s1)).
Proof.
  intros (Hm & Hwf & _ & Hs & Hw & Hca & Hp) Hlt Hd chunk.
  assert (length chunk = min (n - length acc) (length (x :: have))) as Hc by apply length_take.
  cbn [length] in Hc.
  assert (length (x :: have) = length (inb (cn s1)) - pin (cn s1)) as Hl.
  { rewrite <- Hd. apply length_drop. }
  cbn [length] in Hl. split; [|rewrite length_app; unfold more in *; cbn; lia].
  unfold rd_inv. split_and!; [done| |rewrite length_app; lia| |done|done|].
  - unfold wf in *. cbn. split_and!; try apply Hwf. lia.
  - rewrite Hs, <- app_assoc. f_equal. unfold stream, plaintext. cbn.
    rewrite Hd, app_assoc. f_equal.
    rewrite <- (drop_drop (inb (cn s1))), Hd, Hc. subst chunk.
    change (S (length have)) with (length (x :: have)).
    rewrite drop_min. symmetry. apply take_drop.
  - rewrite length_app. unfold pending_in in *. cbn in *. lia.
Qed.

(** The buffer, emptied and filled again. *)
Lemma rd_refill n s acc s1 s2 o s3 :
  rd_inv n s acc s1 → drop (pin (cn s1)) (inb (cn s1)) = [] → flushed s1 true s2 →
  recvs (St (set_inb [] (set_pin 0 (cn s2))) (wd s2)) o s3 →
  moved s s3 ∧ wire s3 = wire s ∧ (calm s → calm s3) ∧
  inb (cn s3) = [] ∧ pin (cn s3) = 0 ∧ out (cn s3) = [] ∧
  (tls (cn s3) = None ∨ tls_openssl = true) ∧
  stream s = acc ++ rx_data (plaintext s3) (rx (wd s1)).
Proof.
  intros (Hm & Hwf & _ & Hs & Hw & Hca & _) Hd (Hm2 & Ho2 & _ & _ & Hr2 & Hs2 & Hca2)
    (Hc3 & Hm3 & Hs3 & Ht3 & _).
  assert (moved s1 s3) as H13.
  { transitivity s2; [done|]. by transitivity (St (set_inb [] (set_pin 0 (cn s2))) (wd s2)). }
  split_and!; rewrite ?Hc3; cbn; try done.
  - by transitivity s1.
  - unfold wire at 1. rewrite Hc3, Hs3. cbn. by rewrite Ho2, app_nil_r, Hs2.
  - intros Hcs. unfold calm. rewrite Ht3. by apply Hca2, Hca.
  - rewrite (moved_tls _ _ Hm2). apply Hwf.
  - rewrite Hs. unfold stream. by rewrite Hd, (moved_plaintext _ _ H13).
Qed.

(** [rd_answer], the buffer having been flushed and emptied. *)
Lemma wp_rd_answer n s acc s1 s2 o s3 :
  wf s → open s → length acc < n → rd_inv n s acc s1 →
  drop (pin (cn s1)) (inb (cn s1)) = [] → flushed s1 true s2 →
  recvs (St (set_inb [] (set_pin 0 (cn s2))) (wd s2)) o s3 →
  wp (rd_answer acc o) (rd_post n s ((n - length acc) + more s1)) (waiting n s) s3.
Proof.
  intros Hwf Ho Hn Hinv Hd Hf Hr.
  destruct (rd_refill _ _ _ _ _ _ _ Hinv Hd Hf Hr) as (Hm3 & Hw3 & Hca3 & Hi3 & Hp3 & Ho3 & Ht3 & Hs3).
  pose proof Hf as (_ & _ & _ & _ & Hr2 & _ & _). pose proof Hr as (_ & Hmr & _ & _ & Hres).
  rewrite <- (moved_plaintext _ _ Hmr) in Hres. cbn [wd] in Hres. rewrite Hr2 in Hres.
  destruct Hinv as (_ & _ & _ & _ & _ & _ & Hpd).
  assert (open s3) as Hop3 by by apply (moved_open s).
  assert (∀ what d, rx_data (plaintext s3) (rx (wd s1)) = [] →
    wp (lost what d ;; ret (inr None)) (rd_post n s ((n - length acc) + more s1)) (waiting n s) s3) as Hlost.
  { intros what d E. wp_step. apply wp_lost; [done|rewrite Ho3; simpl; unfold ZG_OUT_SIZE; lia|].
    intros s4 Hg _ _ _ _. apply wp_ret. split; [by eapply moved_gone|].
    intros _. rewrite Hs3, E, app_nil_r. lia. }
  unfold rd_answer, more, pending_in in *. cbn in Hres. rewrite Hr2 in Hres.
  wp_step. apply wp_wget. destruct o as [[|y b]|].
  - wp_step. apply wp_session_why. intros [w|]; [wp_step; apply wp_why; intros d|]; by apply Hlost.
  - wp_step. apply wp_cmod, wp_ret. destruct Hres as (Hx & Hlb & Hmore). split; [|unfold more; cbn in *; lia].
    split_and!; try done; [| lia | |unfold pending_in; cbn in *; rewrite Hp3; lia].
    + unfold wf. cbn. rewrite Ho3. simpl. split_and!; try done; lia.
    + rewrite Hs3, Hx. f_equal. unfold stream, plaintext. cbn. by rewrite Hp3, drop_0.
  - destruct (decide (errno (wd s3) = EINTR)); [|wp_step; apply wp_why; intros d; by apply Hlost].
    apply wp_ret. destruct Hres as (Hx & Hmore). split; [|unfold more; cbn in *; lia].
    split_and!; try done; [| lia | |unfold pending_in; cbn in *; rewrite Hp3, Hi3; simpl; lia].
    + unfold wf. rewrite Ho3, Hi3, Hp3. simpl. split_and!; try done; lia.
    + rewrite Hs3, Hx. f_equal. unfold stream. by rewrite Hi3, Hp3.
Qed.

Lemma wp_rd_round n s acc s1 :
  wf s → open s → rd_inv n s acc s1 →
  wp (rd_round n acc) (rd_post n s ((n - length acc) + more s1)) (waiting n s) s1.
Proof.
  intros Hwf Ho Hinv. unfold rd_round.
  pose proof Hinv as (Hm & Hwf1 & Hle & Hs & Hw & Hca & Hp). case_decide as Hn.
  { apply wp_ret. assert (length acc = n) as E by lia. rewrite E in Hp. by split_and!. }
  wp_step. apply wp_cget.
  destruct (drop (pin (cn s1)) (inb (cn s1))) as [|x have] eqn:Hd.
  2:{ wp_step. apply wp_cmod, wp_ret. by apply rd_take; [|lia|]. }
  assert (open s1) as Ho1 by by eapply moved_open.
  wp_step. eapply wp_mono; [by apply wp_flush_out| |].
  2:{ intros s2 [_ Hnc] Hcs. by destruct (Hnc (Hca Hcs)). }
  intros [] s2 Hf.
  2:{ apply wp_ret. destruct Hf as (Hg & _ & Hnc). split; [by eapply moved_gone|].
      intros Hcs. by destruct (Hnc (Hca Hcs)). }
  wp_step. apply wp_cmod. wp_step. eapply wp_mono; [apply wp_recv_some| |].
  - pose proof (flushed_wf _ _ Hwf1 Hf) as Hw2. unfold wf in *. cbn. split_and!; try apply Hw2; lia.
  - intros o s3 Hr. eapply wp_rd_answer; eauto. lia.
  - intros s3 [-> Hrx] Hcs. destruct Hf as (Hm2 & Ho2 & _ & _ & Hr2 & Hs2 & _). cbn in *.
    split_and!; [transitivity s1; [done|by transitivity s2]|done|by rewrite Hs2| |done].
    rewrite Hs. unfold stream. rewrite Hd, <- Hr2, Hrx. simpl. rewrite app_nil_r. lia.
Qed.

Lemma wp_rd n s : wf s → open s → wp (rd n) (got n s) (waiting n s) s.
Proof.
  intros Hwf Ho. unfold rd. wp_step. apply wp_cget.
  rewrite decide_False by (unfold open in Ho; lia).
  apply wp_while with (I := rd_inv n s).
  - intros acc s1 Hinv. eapply wp_mono; [by apply wp_rd_round| |done].
    by intros [acc'|o] s2 Hp.
  - unfold rd_inv. split_and!; done || (simpl; lia).
Qed.

(** [skip] is a read whose bytes nobody wants. *)
Definition skipped (n : nat) s (ok : bool) s' : Prop :=
  if ok then ∃ b, got n s (Some b) s' else gone s s' ∧ (calm s → length (stream s) < n).

Lemma got_trans n m s b s1 c s2 :
  got n s (Some b) s1 → got m s1 (Some c) s2 → got (n + m) s (Some (b ++ c)) s2.
Proof.
  intros (Hm & Hwf & Hl & Hs & Hw & Hca & Hp) (Hm2 & Hwf2 & Hl2 & Hs2 & Hw2 & Hca2 & Hp2).
  split_and!; [by transitivity s1|done|rewrite length_app; lia|by rewrite Hs, Hs2, app_assoc|congruence|by eauto|lia].
Qed.
Lemma got_gone n m s b s1 s2 :
  got n s (Some b) s1 → got m s1 None s2 → got (n + m) s None s2.
Proof.
  intros (Hm & Hwf & Hl & Hs & Hw & Hca & _) (Hg & Hlt). split; [by eapply moved_gone|].
  intros Hcs. specialize (Hlt (Hca Hcs)). rewrite Hs, length_app. lia.
Qed.
Lemma got_waiting n m s b s1 s2 :
  got n s (Some b) s1 → waiting m s1 s2 → waiting (n + m) s s2.
Proof.
  intros (Hm & Hwf & Hl & Hs & Hw & Hca & _) Hwait Hcs.
  destruct (Hwait (Hca Hcs)) as (Hm2 & Ho & Hse & Hlt & Hr).
  split_and!; [by transitivity s1|done|congruence|rewrite Hs, length_app; lia|done].
Qed.
Lemma got_nil s : wf s → got 0 s (Some []) s.
Proof. intros. split_and!; done || lia. Qed.
Lemma got_open n s b s1 : open s → got n s (Some b) s1 → wf s1 ∧ open s1.
Proof. intros Ho (Hm & Hwf & _). split; [done|by eapply moved_open]. Qed.

Lemma wp_skip n s : wf s → open s → wp (skip n) (skipped n s) (waiting n s) s.
Proof.
  intros Hwf Ho. unfold skip.
  apply wp_while with (I := λ k s1, k ≤ n ∧ ∃ b, got (n - k) s (Some b) s1).
  2:{ split; [lia|]. exists []. rewrite Nat.sub_diag. by apply got_nil. }
  intros k s1 (Hk & b & Hg). destruct (got_open _ _ _ _ Ho Hg) as [Hwf1 Ho1].
  unfold skip_round. destruct k as [|k'] eqn:Ek.
  { apply wp_ret. exists b. by rewrite Nat.sub_0_r in Hg. }
  rewrite <- Ek in *. set (want := k `min` 512). assert (0 < want ≤ k) as Hwant by lia.
  assert (∀ j, waiting want s1 j → waiting n s j) as Hwait.
  { intros j Hj Hcs. destruct (got_waiting _ _ _ _ _ _ Hg Hj Hcs) as (? & ? & ? & ? & ?).
    split_and!; done || lia. }
  wp_step. eapply wp_mono; [by apply wp_rd| |exact Hwait].
  intros [c|] s2 Hc; apply wp_ret.
  - split; [split|]; [lia| |lia]. exists (b ++ c).
    replace (n - (k - want)) with ((n - k) + want) by lia. by eapply got_trans.
  - destruct (got_gone _ _ _ _ _ _ Hg Hc) as [? Hlt]. split; [done|].
    intros Hcs. specialize (Hlt Hcs). lia.
Qed.
End facts.
