(* ===== verification/Codec.v ===== *)
(** * Conversations

    The algebra the protocol is proved in.  [emits m p]: [m] writes exactly
    [p], however the peer behaves, or ends the connection.  [talks m o i a]:
    against a peer that has sent [i], [m] writes exactly [o], reads exactly
    [i], and answers [a].  Both compose along the monad. *)
From S2P Require Import Prelude Effect ByteOrder Tls World Conn Socket SocketFacts Proto.

Section codec.
Context `{Engine} `{Platform}.
Implicit Types s : st.

Definition usable s : Prop := wf s ∧ open s ∧ embed (cn s) = false.
(** Nothing is serialised, or it is this connection's turn. *)
Definition our_turn s : Prop := (lockfd (cn s) < 0)%Z ∨ held (cn s) = true.
Definition ready s : Prop := usable s ∧ calm s ∧ our_turn s.

(** All that may differ is the buffers, the peer's script, and the error text. *)
Definition settled s s' : Prop := moved s (St (set_err (err (cn s)) (cn s')) (wd s')).

#[global] Instance settled_equivalence : Equivalence settled.
Proof.
  split.
  - intros [c w]. split; [by destruct c|done].
  - intros s s' [E1 E2]. split; [|done]. cbn in *.
    apply (f_equal (set_err (err (cn s')))) in E1. exact (eq_sym E1).
  - intros s1 s2 s3 [E1 E2] [E3 E4]. split; cbn in *; [|by rewrite E2].
    apply (f_equal (set_err (err (cn s1)))) in E3. rewrite E1. exact E3.
Qed.

Lemma moved_settled s s' : moved s s' → settled s s'.
Proof.
  intros Hm. pose proof (moved_err _ _ Hm) as E. destruct Hm as [E1 E2].
  split; [|done]. cbn. rewrite <- E, E1. by destruct s' as [[] ?].
Qed.
Lemma settled_err s e : settled s (St (set_err e (cn s)) (wd s)).
Proof. split; [|done]. by destruct s as [[] ?]. Qed.

Lemma settled_ready s s' : settled s s' → wf s' → calm s' → ready s → ready s'.
Proof.
  intros Hm Hwf Hca ((_ & Ho & He) & _ & Ht).
  pose proof (moved_open _ _ Hm Ho) as Ho'. pose proof (moved_embed _ _ Hm) as He'.
  destruct (moved_lock _ _ Hm) as (Hl & Hh & _). cbn in *.
  unfold ready, usable, our_turn in *. rewrite Hl, Hh, He'. by split_and!.
Qed.

Lemma ready_err s e : ready s → ready (St (set_err e (cn s)) (wd s)).
Proof. intros Hr. exact Hr. Qed.

(** ** Writing, against any peer *)

Definition emits (m : M st bool) (p : bytes) : Prop := ∀ s, usable s →
  wp m (wrote p s) (wire_part p s) s.

Lemma emits_ret : emits (ret true) [].
Proof.
  intros s (Hwf & Ho & He). apply wp_ret. unfold wrote. rewrite app_nil_r. by split_and!.
Qed.

Lemma wrote_usable p s s' : usable s → wrote p s true s' → usable s'.
Proof.
  intros (Hwf & Ho & He) (Hm & Hwf' & _). unfold usable. rewrite (moved_embed _ _ Hm).
  split_and!; [done|by eapply moved_open|done].
Qed.
Lemma wrote_part p q s s1 s' :
  wrote p s true s1 → wire_part q s1 s' → wire_part (p ++ q) s s'.
Proof.
  intros (Hm & _ & Hw & _ & _ & _ & Hca) [Hp Hnc]. split; [|by eauto].
  by rewrite app_assoc, <- Hw.
Qed.

Lemma emits_seq m k p q : emits m p → emits k q → emits (m &; k) (p ++ q).
Proof.
  intros Hm Hk s Hu. wp_step. eapply wp_mono; [by apply Hm| |].
  2:{ intros s' [Hp Hnc]. split; [|done]. rewrite app_assoc. by apply prefix_app_r. }
  intros [] s1 Hw1.
  2:{ destruct Hw1 as (Hg & Hp & Hnc). unfold wrote. split_and!; [done| |done].
      rewrite app_assoc. by apply prefix_app_r. }
  eapply wp_mono; [apply Hk; by eapply wrote_usable| |].
  2:{ intros s2. by apply wrote_part. }
  pose proof Hw1 as (Hm1 & _ & Hwi & Hi1 & Hp1 & Hr1 & Hca1).
  intros [] s2 Hw2; unfold wrote.
  - destruct Hw2 as (Hm2 & Hwf2 & Hwi2 & Hi2 & Hp2 & Hr2 & Hca2).
    split_and!; [by transitivity s1|done|by rewrite Hwi2, Hwi, app_assoc|congruence..|by eauto].
  - destruct Hw2 as (Hg & Hpre & Hnc). destruct (wrote_part p q s s1 s2 Hw1) as [? ?]; [by split|].
    split_and!; [by eapply moved_gone|done|done].
Qed.

Lemma emits_wr p : emits (wr p) p.
Proof. intros s (Hwf & Ho & _). by apply wp_wr. Qed.

(** The wire branch of a call that asks first whether the engine is here. *)
Lemma emits_wire m1 m2 p : emits m2 p → emits (e <- cget embed ;; if (e : bool) then m1 else m2) p.
Proof. intros Hm s Hu. wp_step. apply wp_cget. destruct Hu as (? & ? & He). rewrite He. by apply Hm. Qed.

(** ** Conversations, against a calm one *)

Definition talks {A} (m : M st A) (o i : bytes) (a : A) : Prop := ∀ s rest,
  ready s → stream s = i ++ rest →
  wp m (λ a' s', a' = a ∧ settled s s' ∧ ready s' ∧ stream s' = rest ∧ wire s' = wire s ++ o)
     (λ _, False) s.

Lemma talks_ret {A} (a : A) : talks (ret a) [] [] a.
Proof. intros s rest Hr Hs. apply wp_ret. by rewrite app_nil_r. Qed.

Lemma talks_bind {A B} (m : M st A) (k : A → M st B) o1 o2 i1 i2 a b :
  talks m o1 i1 a → talks (k a) o2 i2 b → talks (bind m k) (o1 ++ o2) (i1 ++ i2) b.
Proof.
  intros Hm Hk s rest Hr Hs. wp_step.
  eapply wp_mono; [apply (Hm s (i2 ++ rest)); [done|by rewrite <- app_assoc in Hs]| |done].
  intros a' s1 (-> & Hse & Hr1 & Hs1 & Hw1).
  eapply wp_mono; [by apply (Hk s1 rest)| |done].
  intros b' s2 (-> & Hse2 & Hr2 & Hs2 & Hw2).
  split_and!; [done|by transitivity s1|done|done|by rewrite Hw2, Hw1, app_assoc].
Qed.

Lemma talks_bind_l {A B} (m : M st A) (k : A → M st B) o i a b :
  talks m [] [] a → talks (k a) o i b → talks (bind m k) o i b.
Proof. intros. change o with ([] ++ o). change i with ([] ++ i). by eapply talks_bind. Qed.

Lemma talks_seq m k o1 o2 i1 i2 b :
  talks m o1 i1 true → talks k o2 i2 b → talks (m &; k) (o1 ++ o2) (i1 ++ i2) b.
Proof. intros. by eapply (talks_bind m (λ ok, if ok then k else ret false)). Qed.
Lemma talks_seqo {A} m (k : M st (option A)) o1 o2 i1 i2 b :
  talks m o1 i1 true → talks k o2 i2 b → talks (m ?;; k) (o1 ++ o2) (i1 ++ i2) b.
Proof. intros. by eapply (talks_bind m (λ ok, if ok then k else ret None)). Qed.
Lemma talks_bindo {A B} (m : M st (option A)) (k : A → M st (option B)) o1 o2 i1 i2 a b :
  talks m o1 i1 (Some a) → talks (k a) o2 i2 b → talks (bindo m k) (o1 ++ o2) (i1 ++ i2) b.
Proof.
  intros. by eapply (talks_bind m (λ o, match o with Some a => k a | None => ret None end)).
Qed.
Lemma talks_bindo_none {A B} (m : M st (option A)) (k : A → M st (option B)) o i :
  talks m o i None → talks (bindo m k) o i None.
Proof.
  intros Hm. rewrite <- (app_nil_r o), <- (app_nil_r i).
  eapply (talks_bind m (λ o, match o with Some a => k a | None => ret None end)); [done|].
  apply talks_ret.
Qed.
Lemma talks_bindb {A} (m : M st (option A)) (k : A → M st bool) o1 o2 i1 i2 a b :
  talks m o1 i1 (Some a) → talks (k a) o2 i2 b → talks (bindb m k) (o1 ++ o2) (i1 ++ i2) b.
Proof.
  intros. by eapply (talks_bind m (λ o, match o with Some a => k a | None => ret false end)).
Qed.

Lemma talks_wire {A} (m1 m2 : M st A) o i a :
  talks m2 o i a → talks (e <- cget embed ;; if (e : bool) then m1 else m2) o i a.
Proof.
  intros Hm s rest Hr Hs. wp_step. apply wp_cget.
  pose proof Hr as ((_ & _ & ->) & _). by apply Hm.
Qed.

Lemma err_still s e rest :
  ready s → stream s = rest →
  let s' := St (set_err e (cn s)) (wd s) in
  settled s s' ∧ ready s' ∧ stream s' = rest ∧ wire s' = wire s ++ [].
Proof.
  intros Hr Hs s'. split; [apply settled_err|]. split; [exact Hr|]. split; [exact Hs|].
  by rewrite app_nil_r.
Qed.

Lemma talks_say what : talks (say what) [] [] false.
Proof. intros s rest Hr Hs. apply wp_say. split; [done|]. by apply err_still. Qed.
Lemma talks_say2 what d : talks (say2 what d) [] [] false.
Proof. intros s rest Hr Hs. apply wp_say2. split; [done|]. by apply err_still. Qed.
Lemma talks_failo {T} (m : M st bool) o i b : talks m o i b → talks (failo (A:=T) m) o i None.
Proof.
  intros Hm. rewrite <- (app_nil_r o), <- (app_nil_r i).
  eapply talks_bind; [done|]. apply talks_ret.
Qed.
Lemma talks_clear_err : talks (cmod (set_err [])) [] [] tt.
Proof.
  intros s rest Hr Hs. apply wp_cmod. split; [done|]. by apply err_still.
Qed.

Lemma talks_emits m p : emits m p → talks m p [] true.
Proof.
  intros Hm s rest Hr Hs. pose proof Hr as (Hu & Hca & Ht).
  eapply wp_mono; [by apply Hm| |by intros ? [_ ?]].
  intros [] s'; [|by intros (_ & _ & ?)].
  intros (Hmv & Hwf & Hw & Hi & Hp & Hrx & Hca').
  assert (settled s s') as Hse by by apply moved_settled.
  split_and!; [done|done|apply (settled_ready s); auto| |done].
  simpl in Hs. rewrite <- Hs. unfold stream. by rewrite Hi, Hp, Hrx, (moved_plaintext _ _ Hmv).
Qed.

(** The two primitive reads. *)
Lemma got_talks b s b' s' rest :
  ready s → stream s = b ++ rest → got (length b) s (Some b') s' →
  b' = b ∧ settled s s' ∧ ready s' ∧ stream s' = rest ∧ wire s' = wire s ++ [].
Proof.
  intros Hr Hs (Hm & Hwf & Hl & Hst & Hw & Hca & _).
  rewrite Hs in Hst. apply app_inj_1 in Hst as [-> ->]; [|done].
  assert (settled s s') as Hse by by apply moved_settled.
  split_and!; [done|done|apply (settled_ready s); [done..| |done]|done|by rewrite app_nil_r].
  apply Hca, Hr.
Qed.

Lemma talks_rd b : talks (rd (length b)) [] b (Some b).
Proof.
  intros s rest Hr Hs. pose proof Hr as ((Hwf & Ho & _) & Hca & _).
  assert (length b ≤ length (stream s)) as Hl by (rewrite Hs, length_app; lia).
  eapply wp_mono; [by apply wp_rd| |].
  - intros [b'|] s' Hg; [|destruct Hg as [_ Hlt]; specialize (Hlt Hca); lia].
    destruct (got_talks _ _ _ _ _ Hr Hs Hg) as (-> & ?). done.
  - intros s' Hw. destruct (Hw Hca) as (_ & _ & _ & ? & _). lia.
Qed.

Lemma talks_skip b : talks (skip (length b)) [] b true.
Proof.
  intros s rest Hr Hs. pose proof Hr as ((Hwf & Ho & _) & Hca & _).
  assert (length b ≤ length (stream s)) as Hl by (rewrite Hs, length_app; lia).
  eapply wp_mono; [by apply wp_skip| |].
  - intros [] s' Hg; [|destruct Hg as [_ Hlt]; specialize (Hlt Hca); lia].
    destruct Hg as [b' Hg]. destruct (got_talks _ _ _ _ _ Hr Hs Hg) as (_ & ?). done.
  - intros s' Hw. destruct (Hw Hca) as (_ & _ & _ & ? & _). lia.
Qed.

Lemma talks_rd_n n b : length b = n → talks (rd n) [] b (Some b).
Proof. intros <-. apply talks_rd. Qed.
Lemma talks_skip_n n b : length b = n → talks (skip n) [] b true.
Proof. intros <-. apply talks_skip. Qed.

Lemma talks_take_turn : talks take_turn [] [] true.
Proof.
  intros s rest Hr Hs. pose proof Hr as (_ & _ & Ht). unfold take_turn.
  wp_step. apply wp_cget. wp_step. apply wp_cget.
  assert (true = true ∧ settled s s ∧ ready s ∧ stream s = rest ∧ wire s = wire s ++ []) as Hdone.
  { split_and!; try done. by rewrite app_nil_r. }
  destruct (decide (lockfd (cn s) < 0)%Z); [by apply wp_ret|].
  destruct Ht as [?|Hh]; [done|]. rewrite Hh. by apply wp_ret.
Qed.
End codec.

(** ** Primitive values *)

Section values.
Context `{Engine} `{Platform} `{Hst : Host}.

Lemma mem_of_1 z : mem_of 1 z = [byte_of z].
Proof. unfold mem_of. cbn. by destruct host_msb_first. Qed.
Lemma mem_val_1 b : mem_val [b] = byte_val b.
Proof. unfold mem_val. destruct host_msb_first; cbn -[Z.mul]; lia. Qed.

Lemma emits_wr_u8 z : emits (wr_u8 z) [byte_of z].
Proof. unfold wr_u8. rewrite mem_of_1. apply emits_wr. Qed.
Lemma emits_wr_be n z : n ≤ 16 → emits (wr_be n z) (be_bytes n z).
Proof.
  intros Hn. unfold wr_be. rewrite decide_False by lia. rewrite wire_of_be. apply emits_wr.
Qed.

Lemma talks_rd_u8 b : talks rd_u8 [] [b] (Some (byte_val b)).
Proof.
  unfold rd_u8. eapply (talks_bindo _ _ [] [] [b] []); [by apply talks_rd_n|].
  rewrite mem_val_1. apply talks_ret.
Qed.
Lemma talks_rd_be n b : length b = n → talks (rd_be n) [] b (Some (be_val b)).
Proof.
  intros Hn. unfold rd_be. rewrite <- (app_nil_r b) at 1.
  eapply (talks_bindo _ _ [] []); [by apply talks_rd_n|].
  rewrite value_of_be. apply talks_ret.
Qed.

(** A length and the bytes it counts. *)
Definition str_bytes (s : bytes) : bytes := byte_of (Z.of_nat (length s)) :: s.
Definition text_bytes (s : bytes) : bytes := be_bytes 2 (Z.of_nat (length s)) ++ s.

Lemma emits_tail s : emits (if decide (length s = 0) then ret true else wr s) s.
Proof.
  destruct s as [|x s]; [apply emits_ret|]. rewrite decide_False by done. apply emits_wr.
Qed.

Lemma emits_wr_std_string s :
  length (c_str s) ≤ ZG_MAX_STRING → emits (wr_std_string s) (str_bytes (c_str s)).
Proof.
  intros Hl. unfold wr_std_string. rewrite decide_False by lia.
  apply (emits_seq _ _ [_]); [apply emits_wr_u8|apply emits_tail].
Qed.
Lemma emits_wr_std_text s :
  length (c_str s) ≤ ZG_MAX_TEXT → emits (wr_std_text s) (text_bytes (c_str s)).
Proof.
  intros Hl. unfold wr_std_text. rewrite decide_False by lia.
  apply emits_seq; [apply emits_wr_be; lia|apply emits_tail].
Qed.

Lemma byte_len (s : bytes) : length s ≤ ZG_MAX_STRING → byte_val (byte_of (Z.of_nat (length s))) = Z.of_nat (length s).
Proof. unfold ZG_MAX_STRING. intros. rewrite byte_val_of. apply Z.mod_small. lia. Qed.

Lemma talks_tail (s : bytes) : talks (if decide (length s = 0) then ret (Some []) else rd (length s)) [] s (Some s).
Proof.
  destruct s as [|x s]; [apply talks_ret|]. rewrite decide_False by done. apply talks_rd.
Qed.

Lemma talks_rd_std_string cap s :
  length s ≤ ZG_MAX_STRING → length s < cap →
  talks (rd_std_string cap) [] (str_bytes s) (Some s).
Proof.
  intros Hl Hc. unfold rd_std_string, str_bytes.
  eapply (talks_bindo _ _ [] [] [_]); [apply talks_rd_u8|]. cbn zeta.
  rewrite byte_len, Nat2Z.id by done. rewrite decide_False by lia. apply talks_tail.
Qed.

(** Too long for the caller's buffer: refused, but taken off the wire. *)
Lemma talks_rd_std_string_long cap s :
  length s ≤ ZG_MAX_STRING → cap ≤ length s →
  talks (rd_std_string cap) [] (str_bytes s) None.
Proof.
  intros Hl Hc. unfold rd_std_string, str_bytes.
  eapply (talks_bindo _ _ [] [] [_]); [apply talks_rd_u8|]. cbn zeta.
  rewrite byte_len, Nat2Z.id by done. rewrite decide_True by lia.
  rewrite <- (app_nil_r s) at 2. eapply (talks_bind _ _ [] []); [apply talks_skip|].
  eapply talks_failo, talks_say.
Qed.

Lemma be_len (s : bytes) : length s ≤ ZG_MAX_TEXT → be_val (be_bytes 2 (Z.of_nat (length s))) = Z.of_nat (length s).
Proof. unfold ZG_MAX_TEXT. intros. rewrite be_val_bytes. apply Z.mod_small. lia. Qed.

Lemma talks_rd_text cap s :
  length s ≤ ZG_MAX_TEXT → length s < cap → talks (rd_text cap) [] (text_bytes s) (Some s).
Proof.
  intros Hl Hc. unfold rd_text, text_bytes.
  eapply (talks_bindo _ _ [] []); [apply talks_rd_be, length_be_bytes|]. cbn zeta.
  rewrite be_len, Nat2Z.id by done. rewrite decide_False by lia. apply talks_tail.
Qed.
Lemma talks_rd_text_long cap s :
  length s ≤ ZG_MAX_TEXT → cap ≤ length s → talks (rd_text cap) [] (text_bytes s) None.
Proof.
  intros Hl Hc. unfold rd_text, text_bytes.
  eapply (talks_bindo _ _ [] []); [apply talks_rd_be, length_be_bytes|]. cbn zeta.
  rewrite be_len, Nat2Z.id by done. rewrite decide_True by lia.
  rewrite <- (app_nil_r s) at 2. eapply (talks_bind _ _ [] []); [apply talks_skip|].
  eapply talks_failo, talks_say.
Qed.
End values.

Create HintDb talks discriminated.
#[export] Hint Constants Opaque : talks.
#[export] Hint Resolve emits_ret emits_wr emits_wr_u8 emits_tail talks_ret talks_rd talks_skip
  talks_rd_u8 talks_say talks_clear_err talks_take_turn talks_wire emits_wire : talks.
