(* ===== verification/Toy.v ===== *)
(** * A toy platform

    One concrete reading of everything the development leaves open -- an
    engine, a platform, a little-endian host -- and connections on it, for
    the witnesses to evaluate on. *)
From S2P Require Import Prelude Effect ByteOrder Tls World Conn Socket SocketFacts Codec.

(** An engine whose store is the list of the procedures called on it. *)
#[export] Instance toy_engine : Engine := {|
  eng := list (nat * bytes);
  ce_linked := true;
  ce_engine_open dir e := (None, e);
  ce_engine_close e := e;
  ce_session_new me e := (Some (length e), (me, $"begin") :: e);
  ce_session_free ce e := filter (λ x, x.1 ≠ ce) e;
  ce_error ce e := $"refused";
  ce_call ce p e := (true, (ce, p) :: e);
  ce_write_num ce t z e := (true, e);
  ce_write_str ce t b e := (true, e);
  ce_write_dvector ce l e := (true, e);
  ce_read_dvector ce cap e := (Some [], e);
  ce_result ce e := (Some 0%Z, e);
  ce_columns ce cap e := (Some [], e);
  ce_read_num ce e := (Some (Z.of_nat (length e)), e);
  ce_read_str ce cap e := (None, e);
  ce_read_str_alloc ce e := (Some $"text", e);
  ce_skip ce e := (true, e);
  ce_commit ce e := (true, e);
  ce_rollback ce e := (false, e);
  ce_isolate ce l e := (true, e);
  ce_reset ce e := (true, e);
  ce_page_size e := 4096%Z
|}.

#[export] Instance toy_platform : Platform := {|
  strerror e := $"error";
  gai_strerror e := $"no such host";
  tls_linked := true;
  tls_openssl := true
|}.

#[export] Instance toy_host : Host := false.

(** A world that holds nothing but what the peer will say. *)
Definition toy_world (r : list rx_ev) (t : list tx_ev) : world :=
  World r t [] [] [] [] [] 0 [] 0 false [3%Z] 4 ∅ 0 None [] ∅ 0.
Definition toy_conn : zg_conn := set_fd 3 (fresh_conn 1).
(** A plain connection to a peer that says [b], in the pieces given. *)
Definition toy (r : list bytes) : st := St toy_conn (toy_world (map RxData r) []).
(** The same over TLS. *)
Definition toy_tls (r : list bytes) : st := St (set_tls (Some 0) toy_conn) (toy_world (map RxData r) []).
(** The same, taking turns through a lock file that answers [l]. *)
Definition toy_serial (r : list bytes) (l : list lock_ev) : st :=
  St (set_lockwait 1 (set_lockfd 9 toy_conn)) (set_lock_q l (toy_world (map RxData r) [])).

Lemma ready_toy r : ready (toy r).
Proof.
  split; [split|split]; [|split; done|done|by left].
  split; [cbn; unfold ZG_OUT_SIZE; lia|]. split; [done|]. split; [cbn; unfold ZG_IN_SIZE; lia|by left].
Qed.

(** A call, run. *)
Definition answers {A} `{Engine} `{Platform} (m : M st A) (s : st) : option A :=
  match m s with Ret a _ => Some a | _ => None end.
Definition said {A} `{Engine} `{Platform} (m : M st A) (s : st) : bytes :=
  match m s with Ret _ s' => wire s' | Block s' => wire s' | Spin s' => wire s' end.

Definition answers_with {A} `{Engine} `{Platform} (m : M st A) (s : st) (Q : A → st → Prop) : Prop :=
  match m s with Ret a s' => Q a s' | _ => False end.
