(* ===== verification/Field.v ===== *)
(** * Fields and results on the wire

    The wire format client/zigurat.h describes, as data: a field is its
    type-descriptor byte and what that byte says follows; a call answers with
    results.  The writers are shown to produce this format, the readers to
    take it apart, and [zg_skip_field] and [zg_drain] to walk past exactly
    what is there, whatever its type. *)
From S2P Require Import Prelude Effect ByteOrder Tls World Conn Socket SocketFacts Proto Codec.

(** ** The format *)

Inductive field :=
| FNull (tdb : Z)
| FAtom (tdb : Z) (p : bytes)
| FCount8 (tdb n : Z) (p : bytes)
| FCount16 (tdb n : Z) (p : bytes)
| FVec (tdb : Z) (l : list field).

Fixpoint encode (f : field) : bytes :=
  match f with
  | FNull t => [byte_of t]
  | FAtom t p => byte_of t :: p
  | FCount8 t n p => byte_of t :: byte_of n :: p
  | FCount16 t n p => byte_of t :: be_bytes 2 n ++ p
  | FVec t l => byte_of t :: be_bytes 4 (Z.of_nat (length l)) ++ concat (map encode l)
  end.

(** A descriptor of the given scale, without the null bit. *)
Definition tdb_of (scale t : Z) : Prop := (0 ≤ t < 128)%Z ∧ Z.land t TDB_SCALE_MASK = scale.

Fixpoint wf_field (f : field) : Prop :=
  match f with
  | FNull t => (128 ≤ t < 256)%Z
  | FAtom t p => tdb_of TDB_SCALE_ATOM t ∧ Z.of_nat (length p) = esize t
  | FCount8 t n p => tdb_of TDB_SCALE_BYTE t ∧ (0 ≤ n < 256)%Z ∧ Z.of_nat (length p) = (n * esize t)%Z
  | FCount16 t n p => tdb_of TDB_SCALE_WORD t ∧ (0 ≤ n < 65536)%Z ∧ Z.of_nat (length p) = (n * esize t)%Z
  | FVec t l => tdb_of TDB_SCALE_DWRD t ∧ (Z.of_nat (length l) < 2 ^ 32)%Z ∧
                foldr (λ f P, wf_field f ∧ P) True l
  end.

(** What a call answers with, before SUCCESSFUL_DONE. *)
Inductive result :=
| RCursorOpen (cols : bytes)
| RCursorFetch (row : list field)
| RCursorClose
| RReturn (f : field).

Definition encode_result (r : result) : bytes :=
  match r with
  | RCursorOpen cols => byte_of ZG_CURSOR_OPEN :: str_bytes cols
  | RCursorFetch row => byte_of ZG_CURSOR_FETCH :: concat (map encode row)
  | RCursorClose => [byte_of ZG_CURSOR_CLOSE]
  | RReturn f => byte_of ZG_RETURN_VALUE :: encode f
  end.

Definition wf_result (row_fields : nat) (r : result) : Prop :=
  match r with
  | RCursorOpen cols => length cols ≤ ZG_MAX_STRING
  | RCursorFetch row => length row = row_fields ∧ Forall wf_field row
  | RCursorClose => True
  | RReturn f => wf_field f
  end.

(** The parameters a caller can write. *)
Inductive value :=
| VBool (b : bool)
| VInt (z : Z)
| VLong (z : Z)
| VDouble (bits : Z)
| VString (s : bytes)
| VText (s : bytes)
| VDvector (l : list Z).

Definition field_of (v : value) : field :=
  match v with
  | VBool b => FAtom TDB_BOOL [byte_of (if b then 1 else 0)]
  | VInt z => FAtom TDB_INT (be_bytes 4 z)
  | VLong z => FAtom TDB_LONG (be_bytes 8 z)
  | VDouble d => FAtom TDB_DOUBLE (be_bytes 8 d)
  | VString s => FCount8 TDB_STRING (Z.of_nat (length s)) s
  | VText s => FCount16 TDB_TEXT (Z.of_nat (length s)) s
  | VDvector l => FVec (Z.lor TDB_SCALE_DWRD TDB_DOUBLE) (map (λ d, FAtom TDB_DOUBLE (be_bytes 8 d)) l)
  end.

Definition wf_value (v : value) : Prop :=
  match v with
  | VBool _ => True
  | VInt z => in_sint 32 z
  | VLong z => in_sint 64 z
  | VDouble d => in_uint 64 d
  | VString s => no_nul s ∧ length s ≤ ZG_MAX_STRING
  | VText s => no_nul s ∧ length s ≤ ZG_MAX_TEXT
  | VDvector l => (Z.of_nat (length l) < 2 ^ 32)%Z ∧ Forall (in_uint 64) l
  end.

(** ** Descriptors *)

(** A statement about every byte, by trying them. *)
Lemma byte_range_ind (P : Z → bool) :
  forallb (λ n, P (Z.of_nat n)) (seq 0 256) = true → ∀ t, (0 ≤ t < 256)%Z → P t = true.
Proof.
  intros Hall t Ht. rewrite forallb_forall in Hall.
  specialize (Hall (Z.to_nat t)). rewrite Z2Nat.id in Hall by lia.
  apply Hall, in_seq. lia.
Qed.

Lemma null_bit t : (0 ≤ t < 256)%Z → bool_decide (Z.land t TDB_IS_NULL ≠ 0%Z) = bool_decide (128 ≤ t)%Z.
Proof.
  intros Ht. apply bool_decide_ext.
  assert (Z.eqb (Z.land t TDB_IS_NULL) 0 = negb (128 <=? t)%Z) as E.
  { apply Bool.eqb_prop.
    apply (byte_range_ind (λ t, eqb (Z.eqb (Z.land t TDB_IS_NULL) 0) (negb (128 <=? t)%Z)));
      [by vm_compute|done]. }
  rewrite <- Z.eqb_neq, E, negb_false_iff. apply Z.leb_le.
Qed.

Lemma byte_val_small t : (0 ≤ t < 256)%Z → byte_val (byte_of t) = t.
Proof. intros. rewrite byte_val_of. by apply Z.mod_small. Qed.

Lemma encode_length f : 1 ≤ length (encode f).
Proof. destruct f; simpl; lia. Qed.

Section field.
Context `{Engine} `{Platform} `{Hst : Host}.

Lemma talks_field_head t :
  (0 ≤ t < 256)%Z → talks field_head [] [byte_of t] (Some (t, bool_decide (128 ≤ t)%Z)).
Proof.
  intros Ht. unfold field_head. eapply (talks_bindo _ _ [] [] [_] []); [apply talks_rd_u8|].
  rewrite byte_val_small, null_bit by done. apply talks_ret.
Qed.
Lemma talks_head_null t :
  (128 ≤ t < 256)%Z → talks field_head [] [byte_of t] (Some (t, true)).
Proof.
  intros Ht. pose proof (talks_field_head t ltac:(lia)) as Hh.
  by rewrite bool_decide_true in Hh by lia.
Qed.
Lemma talks_head t :
  (0 ≤ t < 128)%Z → talks field_head [] [byte_of t] (Some (t, false)).
Proof.
  intros Ht. pose proof (talks_field_head t ltac:(lia)) as Hh.
  by rewrite bool_decide_false in Hh by lia.
Qed.

(** ** Writing *)

Definition write_value (v : value) : M st bool :=
  match v with
  | VBool b => zg_write_bool b
  | VInt z => zg_write_int z
  | VLong z => zg_write_long z
  | VDouble d => zg_write_double d
  | VString s => zg_write_string s
  | VText s => zg_write_text s
  | VDvector l => zg_write_dvector l
  end.

Lemma emits_field t n z : n ≤ 16 → emits (wr_field t n z) (byte_of t :: be_bytes n z).
Proof.
  intros Hn. apply (emits_seq _ _ [_]); [apply emits_wr_u8|by apply emits_wr_be].
Qed.

Lemma emits_doubles l :
  emits (wr_doubles l) (concat (map (λ d, byte_of TDB_DOUBLE :: be_bytes 8 d) l)).
Proof.
  induction l as [|d l IH]; [apply emits_ret|]. cbn [wr_doubles map concat app].
  apply (emits_seq _ _ [_]); [apply emits_wr_u8|].
  apply emits_seq; [apply emits_wr_be; lia|done].
Qed.

Lemma be_bytes_1 z : be_bytes 1 z = [byte_of z].
Proof. done. Qed.

Lemma emits_value v : wf_value v → emits (write_value v) (encode (field_of v)).
Proof.
  destruct v as [b|z|z|d|s|s|l]; cbn [write_value field_of encode wf_value]; intros Hwf.
  - apply emits_field. lia.
  - apply emits_wire, emits_field. lia.
  - apply emits_wire, emits_field. lia.
  - apply emits_field. lia.
  - destruct Hwf as [Hn Hl]. unfold zg_write_string. rewrite c_str_id by done.
    rewrite decide_False by lia. apply emits_wire.
    apply (emits_seq _ _ [_]); [apply emits_wr_u8|].
    pose proof (emits_wr_std_string s) as He. rewrite c_str_id in He by done. by apply He.
  - destruct Hwf as [Hn Hl]. unfold zg_write_text. rewrite c_str_id by done.
    rewrite decide_False by lia. apply emits_wire.
    apply (emits_seq _ _ [_]); [apply emits_wr_u8|].
    pose proof (emits_wr_std_text s) as He. rewrite c_str_id in He by done. by apply He.
  - apply emits_wire. apply (emits_seq _ _ [_]); [apply emits_wr_u8|].
    rewrite length_map, map_map. cbn [encode].
    apply emits_seq; [apply emits_wr_be; lia|apply emits_doubles].
Qed.

(** ** Skipping *)

Lemma length_stream_pending s : length (stream s) ≤ pending_in s.
Proof.
  unfold stream, pending_in. rewrite length_app, length_drop.
  enough (length (rx_data (plaintext s) (rx (wd s))) ≤ rx_weight (rx (wd s))) by lia.
  generalize (plaintext s), (rx (wd s)). intros p l.
  induction l as [|[[|x b]|e|k] l IH]; cbn; [done|lia| | |].
  - rewrite length_app. unfold rx_weight in IH. lia.
  - case_decide; simpl; unfold rx_weight in IH; lia.
  - case_decide; simpl; unfold rx_weight in IH; lia.
Qed.

Lemma talks_times m l :
  (∀ b, b ∈ l → talks m [] b true) → talks (times (length l) m) [] (concat l) true.
Proof.
  induction l as [|b l IH]; intros Hm; [apply talks_ret|]. cbn [times length concat].
  apply (talks_seq _ _ [] []); [apply Hm; by left|]. apply IH. intros. apply Hm. by right.
Qed.

Lemma esize_nonneg t : (0 ≤ esize t)%Z.
Proof. unfold esize. case_decide; [done|]. apply Z.shiftl_nonneg. lia. Qed.

Lemma foldr_and (P : field → Prop) l : foldr (λ f Q, P f ∧ Q) True l ↔ Forall P l.
Proof.
  induction l as [|f l IH]; simpl; [split; [constructor|done]|].
  rewrite Forall_cons, IH. done.
Qed.

Lemma talks_skip_field fuel f :
  wf_field f → length (encode f) ≤ fuel → talks (skip_field fuel) [] (encode f) true.
Proof.
  revert f. induction fuel as [|fuel IH]; intros f Hwf Hf; [pose proof (encode_length f); lia|].
  cbn [skip_field]. destruct f as [t|t p|t n p|t n p|t l]; cbn [encode wf_field] in *.
  - eapply (talks_bindb _ _ [] [] [_] []); [by apply talks_head_null|apply talks_ret].
  - destruct Hwf as ([Ht Hs] & Hp).
    eapply (talks_bindb _ _ [] [] [_]); [by apply talks_head|]. cbn [fst snd].
    rewrite decide_True by done. apply talks_skip_n. lia.
  - destruct Hwf as ([Ht Hs] & Hn & Hp).
    eapply (talks_bindb _ _ [] [] [_]); [by apply talks_head|]. cbn [fst snd].
    rewrite Hs, decide_False, decide_True by done.
    eapply (talks_bindb _ _ [] [] [_]); [apply talks_rd_u8|].
    rewrite byte_val_small by done. apply talks_skip_n. lia.
  - destruct Hwf as ([Ht Hs] & Hn & Hp).
    eapply (talks_bindb _ _ [] [] [_]); [by apply talks_head|]. cbn [fst snd].
    rewrite Hs, !decide_False, decide_True by done.
    eapply (talks_bindb _ _ [] []); [apply talks_rd_be, length_be_bytes|].
    rewrite be_val_bytes, Z.mod_small by lia. apply talks_skip_n. lia.
  - destruct Hwf as ([Ht Hs] & Hn & Hl).
    eapply (talks_bindb _ _ [] [] [_]); [by apply talks_head|]. cbn [fst snd].
    rewrite Hs, !decide_False, decide_True by done.
    eapply (talks_bindb _ _ [] []); [apply talks_rd_be, length_be_bytes|].
    rewrite be_val_bytes, Z.mod_small, Nat2Z.id by lia.
    rewrite <- (length_map encode). apply talks_times.
    intros b (f & -> & Hin)%list_elem_of_fmap. apply IH.
    + apply foldr_and in Hl. rewrite Forall_forall in Hl. by apply Hl.
    + cbn [length] in Hf. rewrite length_app, length_be_bytes in Hf.
      apply list_elem_of_split in Hin as (l1 & l2 & ->).
      rewrite map_app, concat_app, length_app in Hf. cbn [map concat] in Hf.
      rewrite length_app in Hf. lia.
Qed.

Lemma talks_zg_skip_field f : wf_field f → talks zg_skip_field [] (encode f) true.
Proof.
  intros Hwf. apply talks_wire. intros s rest Hr Hs.
  apply (talks_skip_field (S (pending_in s)) f); [done| |done|done].
  pose proof (length_stream_pending s) as Hl. rewrite Hs, length_app in Hl. lia.
Qed.

(** ** Reading by type *)

Lemma talks_unless {A} (m : M st (option A)) i a :
  talks m [] i (Some a) → talks (unless_null false m) [] i (Some (Some a)).
Proof.
  intros Hm. unfold unless_null. rewrite <- (app_nil_r i).
  eapply (talks_bindo _ _ [] []); [done|apply talks_ret].
Qed.

Lemma talks_scalar t n b :
  (0 ≤ t < 128)%Z → length b = n →
  talks (rd_scalar n) [] (byte_of t :: b) (Some (Some (be_val b))).
Proof.
  intros Ht Hb. eapply (talks_bindo _ _ [] [] [_]); [by apply talks_head|].
  by apply talks_unless, talks_rd_be.
Qed.

(** The typed read of a value, and what it answers. *)
Definition read_as (v : value) (cap : nat) : M st (option (option value)) :=
  let lift {A} (f : A → value) (m : M st (option (option A))) : M st (option (option value)) :=
    o <-? m ;; ret (Some (f <$> o)) in
  match v with
  | VBool _ => lift VBool zg_read_bool
  | VInt _ => lift VInt zg_read_int
  | VLong _ => lift VLong zg_read_long
  | VDouble _ => lift VDouble zg_read_double
  | VString _ => lift VString (zg_read_string cap)
  | VText _ => lift VText (zg_read_text cap)
  | VDvector _ => lift VDvector (zg_read_dvector cap)
  end.

Definition fits (v : value) (cap : nat) : Prop :=
  match v with
  | VString s | VText s => length s < cap
  | VDvector l => length l ≤ cap
  | _ => True
  end.

Lemma talks_lift {A B} (m : M st (option A)) (f : A → B) i a :
  talks m [] i (Some a) → talks (o <-? m ;; ret (Some (f o))) [] i (Some (f a)).
Proof. intros Hm. rewrite <- (app_nil_r i). eapply (talks_bindo _ _ [] []); [done|apply talks_ret]. Qed.

Lemma talks_opt {A B} (m : M st (option (option A))) (f : A → B) i a :
  talks m [] i (Some (Some a)) → talks (o <-? m ;; ret (Some (f <$> o))) [] i (Some (Some (f a))).
Proof. intros Hm. pose proof (talks_lift m (fmap f) i (Some a) Hm) as Hl. exact Hl. Qed.
Lemma talks_eq {A} (m : M st A) o i a b : talks m o i a → a = b → talks m o i b.
Proof. by intros ? <-. Qed.

Lemma talks_doubles l :
  Forall (in_uint 64) l →
  talks (rd_doubles (length l)) [] (concat (map (λ d, byte_of TDB_DOUBLE :: be_bytes 8 d) l)) (Some l).
Proof.
  induction 1 as [|d l Hd Hl IH]; [apply talks_ret|]. cbn [rd_doubles length map concat app].
  eapply (talks_bindo _ _ [] [] [_]); [apply talks_rd_u8|].
  eapply (talks_bindo _ _ [] []); [apply talks_rd_be, length_be_bytes|].
  rewrite be_val_bytes, pow256. replace (d mod _)%Z with d by (symmetry; by apply (uint_id 64)).
  by apply talks_lift.
Qed.

Lemma be_val_sint n w z :
  w = (8 * Z.of_nat n)%Z → (0 < w)%Z → in_sint w z → sint w (be_val (be_bytes n z)) = z.
Proof.
  intros -> Hw Hz. rewrite be_val_bytes, pow256. fold (uint (8 * Z.of_nat n) z).
  rewrite sint_uint by lia. by apply sint_id.
Qed.

Lemma talks_value v cap :
  wf_value v → fits v cap → talks (read_as v cap) [] (encode (field_of v)) (Some (Some v)).
Proof.
  destruct v as [b|z|z|d|s|s|l]; cbn [read_as field_of encode wf_value fits]; intros Hwf Hf.
  - apply talks_opt. eapply talks_eq; [eapply (talks_lift (rd_scalar 1)), talks_scalar; done|].
    by destruct b.
  - apply talks_opt, talks_wire.
    eapply talks_eq;
      [eapply (talks_lift (rd_scalar 4)), talks_scalar; [done|apply length_be_bytes]|].
    apply (f_equal (λ z, Some (Some z))). by apply (be_val_sint 4 32).
  - apply talks_opt, talks_wire.
    eapply talks_eq;
      [eapply (talks_lift (rd_scalar 8)), talks_scalar; [done|apply length_be_bytes]|].
    apply (f_equal (λ z, Some (Some z))). by apply (be_val_sint 8 64).
  - apply talks_opt.
    eapply talks_eq; [apply talks_scalar; [done|apply length_be_bytes]|].
    apply (f_equal (λ z, Some (Some z))).
    rewrite be_val_bytes, pow256. by apply (uint_id 64).
  - apply talks_opt, talks_wire.
    eapply (talks_bindo _ _ [] [] [_]); [by apply talks_head|].
    apply talks_unless. destruct Hwf. by apply talks_rd_std_string.
  - apply talks_opt, talks_wire.
    eapply (talks_bindo _ _ [] [] [_]); [by apply talks_head|].
    apply talks_unless. destruct Hwf. by apply talks_rd_text.
  - apply talks_opt, talks_wire.
    eapply (talks_bindo _ _ [] [] [_]); [by apply talks_head|]. cbn [fst snd].
    apply talks_unless. rewrite decide_False by (intros E; exact (E eq_refl)).
    destruct Hwf as [Hl Hwf]. eapply (talks_bindo _ _ [] []); [apply talks_rd_be, length_be_bytes|].
    rewrite be_val_bytes, length_map, Z.mod_small by (split; [lia|exact Hl]).
    rewrite decide_False by lia. rewrite Nat2Z.id, map_map. by apply talks_doubles.
Qed.

(** A null field of any type is a null value to every typed read. *)
Lemma talks_null_value v t cap :
  (128 ≤ t < 256)%Z → talks (read_as v cap) [] [byte_of t] (Some None).
Proof.
  intros Ht.
  assert (∀ n, talks (rd_scalar n) [] [byte_of t] (Some None)) as Hsc.
  { intros n. eapply (talks_bindo _ _ [] [] [_] []); [by apply talks_head_null|apply talks_ret]. }
  assert (∀ A (m : Z * bool → M st (option A)),
    talks (h <-? field_head ;; unless_null h.2 (m h)) [] [byte_of t] (Some None)) as Hun.
  { intros A m. eapply (talks_bindo _ _ [] [] [_] []); [by apply talks_head_null|apply talks_ret]. }
  assert (∀ A (f : A → value) m, talks m [] [byte_of t] (Some None) →
    talks (o <-? m ;; ret (Some (f <$> o))) [] [byte_of t] (Some None)) as Hl.
  { intros A f m Hm. eapply talks_eq; [by apply (talks_lift m)|done]. }
  destruct v; cbn [read_as]; apply Hl; try apply talks_wire; try exact (Hun _ _); try apply Hsc.
  all: by eapply talks_eq; [eapply (talks_lift (rd_scalar _)), Hsc|].
Qed.
End field.
