(* ===== verification/Conversation.v ===== *)
(** * Conversations

    What each verb of client/zigurat.c says and expects to hear: the verbs,
    the pipelined call, a whole call with its parameters and results; what a
    refusal leaves behind; and that a drain never runs for ever on any input. *)
From S2P Require Import Prelude Effect ByteOrder Tls World Conn Socket SocketFacts Proto Codec Field.

Section conversation.
Context `{Engine} `{Platform} `{Hst : Host}.
Implicit Types s : st.

(** A request: a procedure and the parameters written after its name. *)
Definition request : Type := bytes * list value.
Definition verb_bytes (name : bytes) : bytes := str_bytes (c_str name).
Definition call_bytes (p : bytes) : bytes := verb_bytes $"call" ++ str_bytes (c_str p).
Definition params_bytes (l : list value) : bytes := concat (map (λ v, encode (field_of v)) l).
Definition request_bytes (q : request) : bytes := call_bytes q.1 ++ params_bytes q.2.
Definition wf_request (q : request) : Prop :=
  length (c_str q.1) ≤ ZG_MAX_STRING ∧ Forall wf_value q.2.

Fixpoint each {A} (f : A → M st bool) (l : list A) : M st bool :=
  match l with [] => ret true | x :: r => f x &; each f r end.

Definition call_with (q : request) : M st bool := zg_call q.1 &; each write_value q.2.
Definition send_with (q : request) : M st bool := zg_call_send q.1 &; each write_value q.2.
Definition wait_for (q : request) : M st bool := zg_call_wait q.1.

Definition DONE : bytes := [byte_of ZG_SUCCESSFUL_DONE].

(** ** Results *)

Lemma talks_zg_result r :
  (0 ≤ r < 256)%Z → r ≠ ZG_EXCEPTION_THROWN → talks zg_result [] [byte_of r] (Some r).
Proof.
  intros Hr Hx. apply talks_wire. eapply (talks_bindo _ _ [] [] [_] []); [apply talks_rd_u8|].
  rewrite byte_val_small by done. rewrite decide_False by done. apply talks_ret.
Qed.

(** Going on from where a conversation got to. *)
Lemma talks_use {A B} (m : M st A) (k : A → M st B) o i a rest Q Bl s :
  talks m o i a → ready s → stream s = i ++ rest →
  (∀ s', settled s s' → ready s' → stream s' = rest → wire s' = wire s ++ o → wp (k a) Q Bl s') →
  wp (bind m k) Q Bl s.
Proof.
  intros Hm Hr Hs Hk. wp_step. eapply wp_mono; [by apply (Hm s rest)| |by intros ? []].
  intros a' s' (-> & ? & ? & ? & ?). auto.
Qed.
Lemma talks_use_o {A B} (m : M st (option A)) (k : A → M st (option B)) o i a rest Q Bl s :
  talks m o i (Some a) → ready s → stream s = i ++ rest →
  (∀ s', settled s s' → ready s' → stream s' = rest → wire s' = wire s ++ o → wp (k a) Q Bl s') →
  wp (bindo m k) Q Bl s.
Proof. intros Hm Hr Hs Hk. by eapply talks_use. Qed.

Lemma settled_gone s s' s'' : settled s s' → gone s' s'' → gone s s''.
Proof.
  intros Hse. pose proof (moved_gone _ _ s'' Hse) as Hg. intros Hgone. apply Hg.
  unfold gone in *. cbn. exact Hgone.
Qed.

(** An exception ends the connection, and its text is the error. *)
Lemma wp_exception msg rest s :
  ready s → length msg ≤ ZG_MAX_STRING →
  stream s = byte_of ZG_EXCEPTION_THROWN :: str_bytes msg ++ rest →
  wp zg_result (λ o s', o = None ∧ gone s s' ∧ wire s' = wire s ∧
                        err (cn s') = snprintf_ss ERR_SIZE $"the server refused it" msg)
     (λ _, False) s.
Proof.
  intros Hr Hl Hs. unfold zg_result. wp_step. apply wp_cget.
  pose proof Hr as ((_ & _ & ->) & _).
  apply (talks_use_o _ _ [] [byte_of ZG_EXCEPTION_THROWN] _ _ _ _ _ (talks_rd_u8 _) Hr Hs).
  intros s1 Hm1 Hr1 Hs1 Hw1. rewrite byte_val_small by done. rewrite decide_True by done.
  apply (talks_use_o _ _ [] (str_bytes msg) msg rest); [apply talks_rd_std_string; lia|done|done|].
  intros s2 Hm2 Hr2 Hs2 Hw2. unfold failo. wp_step.
  pose proof Hr2 as ((Hwf2 & Ho2 & _) & _).
  apply wp_lost; [done|apply Hwf2|]. intros s3 Hg He Hse _ Hout. apply wp_ret.
  split_and!; [done| |unfold wire at 1; rewrite Hse, Hout|exact He].
  - eapply settled_gone; [|exact Hg]. by transitivity s1.
  - rewrite app_nil_r in Hw1, Hw2. by rewrite <- Hw1, <- Hw2.
Qed.

(** ** Verbs *)

Lemma talks_verb_answer name r :
  length (c_str name) ≤ ZG_MAX_STRING → (0 ≤ r < 256)%Z → r ≠ ZG_EXCEPTION_THROWN →
  talks (verb name) (verb_bytes name) [byte_of r] (bool_decide (r = ZG_SUCCESSFUL_DONE)).
Proof.
  intros Hl Hr Hx. unfold verb. apply (talks_bind_l _ _ _ _ tt); [apply talks_clear_err|].
  rewrite <- (app_nil_r (verb_bytes name)).
  apply (talks_seq _ _ [] (verb_bytes name ++ []) []); [apply talks_take_turn|].
  apply (talks_seq _ _ _ _ []); [by apply talks_emits, emits_wr_std_string|].
  eapply (talks_bindb _ _ [] [] [_] []); [by apply talks_zg_result|].
  case_bool_decide as E; destruct (decide (r = ZG_SUCCESSFUL_DONE)); try done;
    [apply talks_ret|apply talks_say2].
Qed.
Lemma talks_verb name :
  length (c_str name) ≤ ZG_MAX_STRING → talks (verb name) (verb_bytes name) DONE true.
Proof. intros Hl. by apply (talks_verb_answer name ZG_SUCCESSFUL_DONE). Qed.

Lemma talks_done_after m p r :
  emits m p → (0 ≤ r < 256)%Z → r ≠ ZG_EXCEPTION_THROWN →
  talks (done_after m) p [byte_of r] (bool_decide (r = ZG_SUCCESSFUL_DONE)).
Proof.
  intros Hm Hr Hx. unfold done_after. rewrite <- (app_nil_r p).
  apply (talks_seq _ _ _ _ []); [by apply talks_emits|].
  eapply (talks_bindb _ _ [] [] [_] []); [by apply talks_zg_result|]. apply talks_ret.
Qed.

Lemma talks_or_say ok what :
  talks what [] [] false → talks (or_say ok what) [] [] ok.
Proof.
  intros Hw. unfold or_say. destruct ok; [apply talks_ret|].
  intros s rest Hr Hs. wp_step. apply wp_cget. case_decide; [by apply Hw|].
  by apply (talks_ret false).
Qed.

(** ** Each verb *)

Lemma talks_zg_echo text cap reply :
  length (c_str text) ≤ ZG_MAX_STRING → length reply ≤ ZG_MAX_STRING → length reply < cap →
  talks (zg_echo text cap) (verb_bytes $"echo" ++ str_bytes (c_str text))
    (DONE ++ str_bytes reply) (Some reply).
Proof.
  intros Ht Hr Hc. unfold zg_echo. rewrite decide_False by lia.
  apply talks_seqo; [apply talks_verb; vm_compute; lia|].
  rewrite <- (app_nil_r (str_bytes (c_str text))).
  apply (talks_seqo _ _ _ [] []); [by apply talks_emits, emits_wr_std_string|].
  by apply talks_rd_std_string.
Qed.

Lemma talks_zg_call p r :
  length (c_str p) ≤ ZG_MAX_STRING → (0 ≤ r < 256)%Z → r ≠ ZG_EXCEPTION_THROWN →
  talks (zg_call p) (call_bytes p) (DONE ++ [byte_of r]) (bool_decide (r = ZG_SUCCESSFUL_DONE)).
Proof.
  intros Hp Hr Hx. unfold zg_call. rewrite decide_False by lia. apply talks_wire.
  apply talks_seq; [apply talks_verb; vm_compute; lia|].
  rewrite <- (app_nil_r (str_bytes (c_str p))).
  apply (talks_seq _ _ _ [] []); [by apply talks_emits, emits_wr_std_string|].
  eapply (talks_bindb _ _ [] [] [_] []); [by apply talks_zg_result|].
  case_bool_decide as E; destruct (decide (r = ZG_SUCCESSFUL_DONE)); try done;
    [apply talks_ret|apply talks_say2].
Qed.
Lemma talks_zg_call_done p :
  length (c_str p) ≤ ZG_MAX_STRING → talks (zg_call p) (call_bytes p) (DONE ++ DONE) true.
Proof. intros Hp. by apply (talks_zg_call p ZG_SUCCESSFUL_DONE). Qed.

Lemma talks_zg_call_send p :
  length (c_str p) ≤ ZG_MAX_STRING → talks (zg_call_send p) (call_bytes p) [] true.
Proof.
  intros Hp. unfold zg_call_send. apply talks_wire. rewrite decide_False by lia.
  apply (talks_bind_l _ _ _ _ tt); [apply talks_clear_err|].
  apply (talks_seq _ _ [] (call_bytes p) []); [apply talks_take_turn|].
  apply (talks_seq _ _ _ _ []); apply talks_emits, emits_wr_std_string; [vm_compute; lia|done].
Qed.
Lemma talks_zg_call_wait p : talks (zg_call_wait p) [] (DONE ++ DONE) true.
Proof.
  unfold zg_call_wait. apply talks_wire.
  eapply (talks_bindb _ _ [] [] DONE DONE); [by apply talks_zg_result|].
  eapply (talks_bindb _ _ [] [] DONE []); [by apply talks_zg_result|]. apply talks_ret.
Qed.

Lemma talks_zg_compile suite r :
  length (c_str suite) ≤ ZG_MAX_TEXT → (0 ≤ r < 256)%Z → r ≠ ZG_EXCEPTION_THROWN →
  talks (zg_compile suite) (verb_bytes $"compile" ++ text_bytes (c_str suite))
    (DONE ++ [byte_of r]) (bool_decide (r = ZG_SUCCESSFUL_DONE)).
Proof.
  intros Hl Hr Hx. unfold zg_compile. rewrite decide_False by lia.
  apply talks_seq; [apply talks_verb; vm_compute; lia|].
  rewrite <- (app_nil_r (text_bytes _)). apply (talks_bind _ _ _ [] [_] [] (bool_decide (r = ZG_SUCCESSFUL_DONE))).
  - by apply talks_done_after; [apply emits_wr_std_text|..].
  - apply talks_or_say, talks_say.
Qed.

Lemma talks_zg_auto_commit on r :
  (0 ≤ r < 256)%Z → r ≠ ZG_EXCEPTION_THROWN →
  talks (zg_auto_commit on) (verb_bytes $"auto_commit" ++ [byte_of (if on then 1 else 0)])
    (DONE ++ [byte_of r]) (bool_decide (r = ZG_SUCCESSFUL_DONE)).
Proof.
  intros Hr Hx. unfold zg_auto_commit. apply talks_wire.
  apply talks_seq; [apply talks_verb; vm_compute; lia|].
  rewrite <- (app_nil_r [byte_of (if on then 1 else 0)]).
  apply (talks_bind _ _ _ [] [_] [] (bool_decide (r = ZG_SUCCESSFUL_DONE))).
  - apply talks_done_after; [rewrite mem_of_1; apply emits_wr|done|done].
  - apply talks_or_say, talks_say.
Qed.
Lemma talks_zg_isolate l r :
  (0 ≤ r < 256)%Z → r ≠ ZG_EXCEPTION_THROWN →
  talks (zg_isolate l) (verb_bytes $"isolate" ++ [byte_of (isolation_code l)])
    (DONE ++ [byte_of r]) (bool_decide (r = ZG_SUCCESSFUL_DONE)).
Proof.
  intros Hr Hx. unfold zg_isolate. apply talks_wire.
  apply talks_seq; [apply talks_verb; vm_compute; lia|].
  rewrite <- (app_nil_r [byte_of (isolation_code l)]).
  apply (talks_bind _ _ _ [] [_] [] (bool_decide (r = ZG_SUCCESSFUL_DONE))).
  - apply talks_done_after; [apply emits_wr_u8|done|done].
  - apply talks_or_say, talks_say.
Qed.

(** ** Requests *)

Lemma talks_each {A} (f : A → M st bool) (o i : A → bytes) l :
  (∀ x, x ∈ l → talks (f x) (o x) (i x) true) →
  talks (each f l) (concat (map o l)) (concat (map i l)) true.
Proof.
  induction l as [|x l IH]; intros Hf; [apply talks_ret|]. cbn [each map concat].
  apply talks_seq; [apply Hf; by left|]. apply IH. intros. apply Hf. by right.
Qed.

Lemma concat_nil {A B} (l : list A) : concat (map (λ _, @nil B) l) = [].
Proof. by induction l. Qed.

Lemma talks_params l : Forall wf_value l → talks (each write_value l) (params_bytes l) [] true.
Proof.
  intros Hl. rewrite <- (concat_nil l).
  apply (talks_each _ (λ v, encode (field_of v)) (λ _, [])).
  intros v Hv. rewrite Forall_forall in Hl. by apply talks_emits, emits_value, Hl.
Qed.
Lemma talks_call_with q : wf_request q → talks (call_with q) (request_bytes q) (DONE ++ DONE) true.
Proof.
  intros [Hp Hl]. unfold call_with. rewrite <- (app_nil_r (DONE ++ DONE)).
  apply talks_seq; [by apply talks_zg_call_done|by apply talks_params].
Qed.
Lemma talks_send_with q : wf_request q → talks (send_with q) (request_bytes q) [] true.
Proof.
  intros [Hp Hl]. apply (talks_seq _ _ _ _ [] []); [by apply talks_zg_call_send|by apply talks_params].
Qed.

(** ** Results, drained *)

Lemma talks_skip_row l n :
  length l = n → Forall wf_field l →
  talks (times n zg_skip_field) [] (concat (map encode l)) true.
Proof.
  intros <- Hl. rewrite <- (length_map encode). apply talks_times.
  intros b (f & -> & Hf)%list_elem_of_fmap. apply talks_zg_skip_field.
  rewrite Forall_forall in Hl. by apply Hl.
Qed.

Lemma talks_zg_columns cap cols :
  length cols ≤ ZG_MAX_STRING → length cols < cap →
  talks (zg_columns cap) [] (str_bytes cols) (Some cols).
Proof. intros. by apply talks_wire, talks_rd_std_string. Qed.

Lemma talks_zg_drain fuel n rs :
  length rs < fuel → Forall (wf_result n) rs →
  talks (zg_drain fuel n) [] (concat (map encode_result rs) ++ DONE) true.
Proof.
  revert fuel. induction rs as [|r rs IH]; intros [|fuel] Hf Hrs; cbn [length] in Hf; try lia;
    cbn [zg_drain map concat app].
  { eapply (talks_bindb _ _ [] [] DONE []); [by apply talks_zg_result|]. apply talks_ret. }
  apply Forall_cons in Hrs as [Hr Hrs]. specialize (IH fuel ltac:(lia) Hrs).
  rewrite <- app_assoc. destruct r as [cols|row| |f]; cbn [encode_result wf_result app] in *.
  - eapply (talks_bindb _ _ [] [] [_]); [by apply talks_zg_result|].
    eapply (talks_bindb _ _ [] []); [|exact IH]. apply talks_zg_columns; lia.
  - destruct Hr as [Hn Hrow].
    eapply (talks_bindb _ _ [] [] [_]); [by apply talks_zg_result|].
    apply (talks_seq _ _ [] []); [by apply talks_skip_row|exact IH].
  - eapply (talks_bindb _ _ [] [] [_]); [by apply talks_zg_result|]. exact IH.
  - eapply (talks_bindb _ _ [] [] [_]); [by apply talks_zg_result|].
    apply (talks_seq _ _ [] []); [by apply talks_zg_skip_field|exact IH].
Qed.

(** ** No input makes a skip or a drain run for ever *)

(** Run with less than [b] to read, [m] returns or waits: on success having
    used up at least [k] of it. *)
Definition eats {A} (good : A → bool) (b k : nat) (m : M st A) : Prop := ∀ s,
  usable s → pending_in s < b →
  wp m (λ o s', if good o then usable s' ∧ k + pending_in s' ≤ pending_in s else True) (λ _, True) s.
Definition some {A} (o : option A) : bool := match o with Some _ => true | None => false end.

Lemma eats_weaken {A} (g : A → bool) b j k m : j ≤ k → eats g b k m → eats g b j m.
Proof.
  intros Hjk Hm s Hu Hb. eapply wp_mono; [by apply Hm| |done].
  intros a s1. cbv beta. destruct (g a); [|done]. intros [Hu1 Hp1]. split; [done|lia].
Qed.
Lemma eats_ret {A} (g : A → bool) b a : eats g b 0 (ret a).
Proof. intros s Hu Hb. apply wp_ret. by destruct (g a). Qed.
Lemma eats_rd b n : eats some b n (rd n).
Proof.
  intros s (Hwf & Ho & He) Hb. eapply wp_mono; [by apply wp_rd| |done].
  intros [x|] s'; [|done]. intros (Hm & Hwf' & Hl & _ & _ & _ & Hp).
  split; [|lia]. unfold usable. rewrite (moved_embed _ _ Hm). split_and!; [done|by eapply moved_open|done].
Qed.
Lemma eats_skip b n : eats id b n (skip n).
Proof.
  intros s (Hwf & Ho & He) Hb. eapply wp_mono; [by apply wp_skip| |done].
  intros [|] s'; [|done]. intros (x & Hm & Hwf' & Hl & _ & _ & _ & Hp).
  split; [|lia]. unfold usable. rewrite (moved_embed _ _ Hm). split_and!; [done|by eapply moved_open|done].
Qed.
Lemma eats_bind {A B} (g : A → bool) (h : B → bool) b j k m (f : A → M st B) :
  eats g b j m →
  (∀ a, if g a then eats h (b - j) k (f a) else ∀ s, wp (f a) (λ o _, h o = false) (λ _, True) s) →
  eats h b (j + k) (bind m f).
Proof.
  intros Hm Hf s Hu Hb. wp_step. eapply wp_mono; [by apply Hm| |done].
  intros a s1. specialize (Hf a). cbv beta. destruct (g a).
  - intros [Hu1 Hp1]. eapply wp_mono; [apply Hf; [done|lia]| |done].
    intros o s2. cbv beta. destruct (h o); [|done]. intros [Hu2 Hp2]. split; [done|lia].
  - intros _. eapply wp_mono; [apply Hf| |done]. intros o s2 E. cbv beta in *. by rewrite E.
Qed.
Lemma eats_bindo {A B} b j k (m : M st (option A)) (f : A → M st (option B)) :
  eats some b j m → (∀ a, eats some (b - j) k (f a)) → eats some b (j + k) (bindo m f).
Proof. intros Hm Hf. eapply eats_bind; [done|]. intros [a|]; [apply Hf|done]. Qed.
Lemma eats_bindb {A} b j k (m : M st (option A)) (f : A → M st bool) :
  eats some b j m → (∀ a, eats id (b - j) k (f a)) → eats id b (j + k) (bindb m f).
Proof. intros Hm Hf. eapply eats_bind; [done|]. intros [a|]; [apply Hf|done]. Qed.
Lemma eats_seq b j k (m f : M st bool) :
  eats id b j m → eats id (b - j) k f → eats id b (j + k) (m &; f).
Proof. intros Hm Hf. eapply eats_bind; [done|]. intros [|]; [apply Hf|done]. Qed.
Lemma eats_say b k what : eats id b k (say what).
Proof. intros s Hu Hb. by apply wp_say. Qed.

Lemma eats_rd_be b n : eats some b n (rd_be n).
Proof.
  eapply eats_weaken; [|apply eats_bindo; [apply eats_rd|intros; apply eats_ret]]. lia.
Qed.
Lemma eats_rd_u8 b : eats some b 1 rd_u8.
Proof. apply (eats_bindo _ 1 0); [apply eats_rd|intros; apply eats_ret]. Qed.

Lemma eats_times b n m : eats id b 0 m → eats id b 0 (times n m).
Proof.
  intros Hm. induction n as [|n IH]; [apply eats_ret|]. cbn [times].
  apply (eats_seq _ 0 0); [done|]. by rewrite Nat.sub_0_r.
Qed.

(** However deeply the vectors of the input nest. *)
Lemma eats_skip_field fuel b : b ≤ fuel → eats id b 1 (skip_field fuel).
Proof.
  revert b. induction fuel as [|fuel IH]; intros b Hb; [intros s _ Hs; lia|]. cbn [skip_field].
  apply (eats_bindb _ 1 0).
  { apply (eats_bindo _ 1 0); [apply eats_rd_u8|intros; apply eats_ret]. }
  intros [t []]; cbn [fst snd]; [apply eats_ret|].
  assert (∀ b n, eats id b 0 (skip n)) as Hsk.
  { intros b' n. eapply eats_weaken; [|apply eats_skip]. lia. }
  assert (∀ b n, eats some b 0 (rd_be n)) as Hbe.
  { intros b' n. eapply eats_weaken; [|apply eats_rd_be]. lia. }
  repeat case_decide; [apply Hsk| | | |apply eats_say].
  - apply (eats_bindb _ 0 0); [eapply eats_weaken; [|apply eats_rd_u8]; lia|intros; apply Hsk].
  - apply (eats_bindb _ 0 0); [apply Hbe|intros; apply Hsk].
  - apply (eats_bindb _ 0 0); [apply Hbe|]. intros n. apply eats_times.
    eapply eats_weaken; [|apply IH; lia]. lia.
Qed.

Lemma eats_zg_skip_field b : eats id b 1 zg_skip_field.
Proof.
  intros s Hu Hb. unfold zg_skip_field. wp_step. apply wp_cget. pose proof Hu as (_ & _ & ->).
  apply (eats_skip_field (S (pending_in s)) (S (pending_in s))); [done|done|lia].
Qed.

Lemma eats_lost b k what d : eats id b k (lost what d).
Proof.
  intros s (Hwf & Ho & _) Hb. apply wp_lost; [done|apply Hwf|done].
Qed.
Lemma eats_failo {A} b j k (m : M st bool) : eats id b j m → eats (@some A) b k (failo m).
Proof.
  intros Hm s Hu Hb. unfold failo. wp_step. eapply wp_mono; [by apply Hm|by intros|done].
Qed.
Lemma eats_if {A} (g : A → bool) b k (c : bool) m1 m2 :
  eats g b k m1 → eats g b k m2 → eats g b k (if c then m1 else m2).
Proof. by destruct c. Qed.
Lemma eats_bind_b {B} (h : B → bool) b j k (m : M st bool) (f : bool → M st B) :
  eats id b j m → eats h (b - j) k (f true) → (∀ s, wp (f false) (λ o _, h o = false) (λ _, True) s) →
  eats h b (j + k) (bind m f).
Proof. intros Hm Ht Hf. eapply eats_bind; [done|]. intros []; [done|exact Hf]. Qed.

Lemma eats_rd_std_string b cap : eats some b 0 (rd_std_string cap).
Proof.
  unfold rd_std_string. eapply eats_weaken; [|apply (eats_bindo _ 1 0); [apply eats_rd_u8|]]; [lia|].
  intros n. cbv zeta. case_decide.
  - eapply eats_weaken, (eats_bind_b _ _ 0 0); [lia|eapply eats_weaken; [|apply eats_skip]; lia| |done].
    eapply (eats_failo _ 0), eats_say.
  - case_decide; [apply eats_ret|]. eapply eats_weaken; [|apply eats_rd]. lia.
Qed.
Lemma eats_wire {A} (g : A → bool) b k (m1 m2 : M st A) :
  eats g b k m2 → eats g b k (e <- cget embed ;; if (e : bool) then m1 else m2).
Proof.
  intros Hm s Hu Hb. wp_step. apply wp_cget. pose proof Hu as (_ & _ & ->). by apply Hm.
Qed.
Lemma eats_zg_result b : eats some b 1 zg_result.
Proof.
  apply eats_wire, (eats_bindo _ 1 0); [apply eats_rd_u8|]. intros r. case_decide; [|apply eats_ret].
  apply (eats_bindo _ 0 0); [apply eats_rd_std_string|]. intros msg.
  eapply (eats_failo _ 0), eats_lost.
Qed.

(** However many results the input holds. *)
Lemma eats_zg_drain fuel n b : b ≤ fuel → eats id b 0 (zg_drain fuel n).
Proof.
  revert b. induction fuel as [|fuel IH]; intros b Hb; [intros s _ Hs; lia|]. cbn [zg_drain].
  eapply eats_weaken; [|apply (eats_bindb _ 1 0); [apply eats_zg_result|]]; [lia|]. intros r.
  assert (eats id (b - 1) 0 (zg_drain fuel n)) as Hgo by (apply IH; lia).
  assert (eats id (b - 1) 0 zg_skip_field) as Hsk.
  { eapply eats_weaken; [|apply eats_zg_skip_field]. lia. }
  repeat case_decide; [apply eats_ret| | | |exact Hgo].
  - apply (eats_bindb _ 0 0); [apply eats_wire, eats_rd_std_string|]. intros _. by rewrite Nat.sub_0_r.
  - apply (eats_seq _ 0 0); [by apply eats_times|by rewrite Nat.sub_0_r].
  - apply (eats_seq _ 0 0); [done|by rewrite Nat.sub_0_r].
Qed.
End conversation.
