(* ===== verification/Turn.v ===== *)
(** * Taking turns

    Several processes share one server by holding an flock for as long as a
    transaction lasts.  [take_turn] waits for it, within what the caller asked
    for and no longer; [zg_commit], [zg_rollback] and a lost connection give it
    back; and of the processes that play by these rules at most one is ever
    inside. *)
From S2P Require Import Prelude Effect ByteOrder Tls World Conn Socket SocketFacts Proto Codec Toy Field Conversation.

Definition busy (e : lock_ev) : Prop :=
  match e with LockErr e => e = EWOULDBLOCK ∨ e = EINTR | LockGot => False end.

Section turn.
Context `{Engine} `{Platform} `{Hst : Host}.
Implicit Types s : st.

(** What waiting for the turn may touch. *)
Definition waited_for (n : nat) (rest : list lock_ev) s s' : Prop :=
  slept (wd s') = (slept (wd s) + 2000 * Z.of_nat n)%Z ∧ lock_q (wd s') = rest ∧
  rx (wd s') = rx (wd s) ∧ tx (wd s') = tx (wd s) ∧ sent (wd s') = sent (wd s) ∧
  fds (wd s') = fds (wd s).

Lemma waited_for_step n rest s s1 s2 :
  waited_for 1 (lock_q (wd s1)) s s1 → waited_for n rest s1 s2 → waited_for (S n) rest s s2.
Proof. intros (? & ? & ? & ? & ? & ?) (? & ? & ? & ? & ? & ?). split_and!; congruence || lia. Qed.

(** No limit, or still inside it after [n] tries from [waited] on. *)
Definition patient s (waited : Z) (n : nat) : Prop :=
  (lockwait (cn s) ≤ 0)%Z ∨
  (0 ≤ waited ∧ waited + 2 * Z.of_nat n < lockwait (cn s) * 1000 + 2 ∧
   lockwait (cn s) * 1000 < 2 ^ 31 - 2)%Z.

(** One try that finds the turn taken, and comes back later. *)
Lemma poll_turn_busy e q waited s :
  busy e → lock_q (wd s) = e :: q → patient s waited 1 →
  ∃ s', poll_turn waited s = Ret (inl (sint 32 (waited + 2))) s' ∧
        cn s' = cn s ∧ waited_for 1 q s s' ∧ turn (wd s') = turn (wd s).
Proof.
  intros He Hq Hp. destruct e as [|e]; [done|]. unfold poll_turn, sys, bind, sys_flock_ex.
  rewrite Hq. cbn -[Z.mul Z.add]. rewrite decide_False by (destruct He; naive_solver).
  unfold bind, cget, gets. cbn -[Z.mul Z.add]. rewrite decide_False.
  - eexists. split; [done|]. by split_and!.
  - intros [Hw Hle]. destruct Hp as [?|(Hw0 & Hlt & Hb)]; [lia|].
    rewrite sint_id in Hle by (unfold in_sint; change (2 ^ (32 - 1))%Z with (2 ^ 31)%Z; lia). lia.
Qed.

Lemma patient_now s waited n : patient s waited (S n) → patient s waited 1.
Proof. unfold patient. intros [?|?]; [by left|right; lia]. Qed.
Lemma patient_step s s1 waited n :
  cn s1 = cn s → patient s waited (S n) → patient s1 (sint 32 (waited + 2)) n.
Proof.
  unfold patient. intros -> [?|(Hw & Hlt & Hb)]; [by left|]. right.
  rewrite sint_id by (unfold in_sint; change (2 ^ (32 - 1))%Z with (2 ^ 31)%Z; lia). lia.
Qed.

(** The turn comes within the limit. *)
Lemma polls_got l q fuel waited s :
  Forall busy l → lock_q (wd s) = l ++ LockGot :: q → length l < fuel →
  patient s waited (length l) →
  ∃ s', iter fuel poll_turn waited s = Ret true s' ∧ cn s' = set_held true (cn s) ∧
        waited_for (length l) q s s' ∧ turn (wd s') = true.
Proof.
  intros Hl. revert fuel waited s. induction Hl as [|e l He Hl IH];
    intros [|fuel] waited s Hq Hf Hp; cbn [length] in *; try lia; cbn [iter].
  - unfold bind at 1, poll_turn, sys, sys_flock_ex. unfold bind at 1. rewrite Hq. cbn.
    eexists. split; [done|]. split_and!; [done|split_and!; try done; cbn; lia|done].
  - destruct (poll_turn_busy e (l ++ LockGot :: q) waited s) as (s1 & Hrun & Hc & Hw & Ht);
      [done|done|by eapply patient_now|].
    unfold bind. rewrite Hrun.
    destruct (IH fuel (sint 32 (waited + 2)) s1) as (s2 & Hrun2 & Hc2 & Hw2 & Ht2).
    + apply Hw.
    + lia.
    + by eapply patient_step.
    + exists s2. split_and!; [done|congruence| |done].
      apply (waited_for_step _ _ s s1 s2); [|done]. by rewrite (proj1 (proj2 Hw)).
Qed.

(** The limit passes first: every try up to it, then one more. *)
Lemma polls_timeout l e q fuel waited s :
  Forall busy l → busy e → lock_q (wd s) = l ++ e :: q → length l < fuel →
  (0 < lockwait (cn s) ∧ lockwait (cn s) * 1000 < 2 ^ 31 - 2)%Z → (0 ≤ waited)%Z →
  (waited + 2 * Z.of_nat (length l) = lockwait (cn s) * 1000)%Z →
  ∃ s', iter fuel poll_turn waited s = Ret false s' ∧
        cn s' = set_err $"timed out waiting for another cocolog process" (cn s) ∧
        waited_for (length l) q s s' ∧ turn (wd s') = turn (wd s).
Proof.
  intros Hl He. revert fuel waited s. induction Hl as [|d l Hd Hl IH];
    intros [|fuel] waited s Hq Hf Hb Hw0 Hw; cbn [length] in *; try lia; cbn [iter].
  - destruct e as [|e]; [done|]. unfold bind at 1, poll_turn, sys, sys_flock_ex.
    unfold bind at 1. rewrite Hq. cbn -[Z.mul Z.add snprintf_s].
    rewrite decide_False by (destruct He; naive_solver).
    unfold bind, cget, gets. cbn -[Z.mul Z.add snprintf_s]. rewrite decide_True.
    2:{ rewrite sint_id by (unfold in_sint; change (2 ^ (32 - 1))%Z with (2 ^ 31)%Z; lia). lia. }
    eexists. split; [done|]. split_and!; [done|split_and!; try done; cbn; lia|done].
  - destruct (poll_turn_busy d (l ++ e :: q) waited s) as (s1 & Hrun & Hc & Hw1 & Ht); [done|done| |].
    { right. lia. }
    unfold bind. rewrite Hrun.
    destruct (IH fuel (sint 32 (waited + 2)) s1) as (s2 & Hrun2 & Hc2 & Hw2 & Ht2);
      [apply Hw1|lia|by rewrite Hc| | |].
    + rewrite sint_id by (unfold in_sint; change (2 ^ (32 - 1))%Z with (2 ^ 31)%Z; lia). lia.
    + rewrite Hc, sint_id by (unfold in_sint; change (2 ^ (32 - 1))%Z with (2 ^ 31)%Z; lia). lia.
    + exists s2. split_and!; [done|congruence| |congruence].
      apply (waited_for_step _ _ s s1 s2); [|done]. by rewrite (proj1 (proj2 Hw1)).
Qed.

(** Whatever the lock answers, [take_turn] ends with an answer, or with the
    lock having none to give. *)
Definition turn_safe s : Prop := held (cn s) = true → turn (wd s) = true.

Lemma wp_poll_turn s waited :
  turn_safe s →
  wp (poll_turn waited)
     (λ r s', turn_safe s' ∧ (turn (wd s) = true → turn (wd s') = true) ∧
        lockfd (cn s') = lockfd (cn s) ∧
        match r with
        | inl _ => length (lock_q (wd s')) < length (lock_q (wd s))
        | inr ok => ok = true → held (cn s') = true ∧ turn (wd s') = true
        end)
     (λ s', lock_q (wd s') = []) s.
Proof.
  intros Hs. unfold poll_turn, wp, bind, sys, sys_flock_ex.
  destruct (lock_q (wd s)) as [|[|e] q] eqn:Eq; [done| |]; cbn -[Z.mul Z.add snprintf_s snprintf_ss].
  - split_and!; done.
  - unfold bind, wget, cget, gets. cbn -[Z.mul Z.add snprintf_s snprintf_ss].
    case_decide; [|case_decide]; cbn -[Z.mul Z.add snprintf_s snprintf_ss];
      unfold turn_safe in *; cbn; split_and!; done || lia.
Qed.

Lemma wp_take_turn s :
  turn_safe s →
  wp take_turn
     (λ ok s', turn_safe s' ∧ (turn (wd s) = true → turn (wd s') = true) ∧
        lockfd (cn s') = lockfd (cn s) ∧
        (ok = true → (0 ≤ lockfd (cn s))%Z → held (cn s') = true ∧ turn (wd s') = true))
     (λ s', lock_q (wd s') = []) s.
Proof.
  intros Hs. unfold take_turn. wp_step. apply wp_cget. wp_step. apply wp_cget.
  case_decide; [apply wp_ret; split_and!; done || lia|].
  destruct (held (cn s)) eqn:Hh; [apply wp_ret; split_and!; auto|].
  apply wp_while with (I := λ _ s1, turn_safe s1 ∧ (turn (wd s) = true → turn (wd s1) = true) ∧
    lockfd (cn s1) = lockfd (cn s)); [|done].
  intros w s1 (Hs1 & Ht1 & Hl1).
  eapply wp_mono; [by apply wp_poll_turn| |done].
  intros [w'|b] s2 (Hs2 & Ht2 & Hl2 & Hr); [split; [|done]|]; split_and!; auto; congruence.
Qed.

(** ** Giving it back *)

Definition keeps_turn s s' : Prop :=
  turn_safe s → turn_safe s' ∧ (turn (wd s') = true → turn (wd s) = true).

Lemma wp_give_turn s :
  wp give_turn (λ _ s', keeps_turn s s' ∧ lockfd (cn s') = lockfd (cn s) ∧ embed (cn s') = embed (cn s) ∧
    ((0 ≤ lockfd (cn s))%Z → held (cn s') = false) ∧ stream s' = stream s ∧ wire s' = wire s ∧
    err (cn s') = err (cn s) ∧ ((0 ≤ lockfd (cn s))%Z → held (cn s) = true → turn (wd s') = false)) (λ _, False) s.
Proof.
  unfold give_turn, when. wp_step. apply wp_cget. wp_step. apply wp_cget. case_decide as E.
  - wp_step. apply wp_wmod, wp_cmod. split_and!; done.
  - apply wp_ret. split_and!; try done; intros; destruct (held (cn s)) eqn:Hh; try done; exfalso; by apply E.
Qed.

(** [simple_verb]: a commit or a rollback the server agrees to ends the turn. *)
Lemma wp_simple_verb name r rest s :
  ready s → length (c_str name) ≤ ZG_MAX_STRING → (0 ≤ r < 256)%Z → r ≠ ZG_EXCEPTION_THROWN →
  stream s = (DONE ++ [byte_of r]) ++ rest →
  wp (simple_verb name)
     (λ ok s', ok = bool_decide (r = ZG_SUCCESSFUL_DONE) ∧ stream s' = rest ∧
        wire s' = wire s ++ verb_bytes name ∧
        ((0 ≤ lockfd (cn s))%Z → held (cn s') = false) ∧
        ((0 ≤ lockfd (cn s))%Z → held (cn s) = true → turn (wd s') = false))
     (λ _, False) s.
Proof.
  intros Hr Hn Hb Hx Hs. unfold simple_verb. unfold guardb.
  assert (stream s = DONE ++ ([byte_of r] ++ rest)) as Hs' by by rewrite Hs, app_assoc.
  eapply (talks_use (verb name)); [by apply talks_verb|done|exact Hs'|].
  intros s1 Hse1 Hr1 Hs1 Hw1. cbv beta iota.
  eapply (talks_use (done_after (ret true)) _ []); [apply talks_done_after; [apply emits_ret|done|done]|done|exact Hs1|].
  intros s2 Hse2 Hr2 Hs2 Hw2. wp_step.
  assert (settled s s2) as Hse by (by transitivity s1).
  destruct (moved_lock _ _ Hse) as (Hl & Hh & Ht). cbn in Hl, Hh, Ht.
  eapply wp_mono; [apply wp_give_turn| |done].
  intros _ s3 (_ & Hlf & _ & Hheld & Hstr & Hwi & He & Hun).
  assert (stream s3 = rest ∧ wire s3 = wire s ++ verb_bytes name ∧
    ((0 ≤ lockfd (cn s))%Z → held (cn s3) = false) ∧
    ((0 ≤ lockfd (cn s))%Z → held (cn s) = true → turn (wd s3) = false)) as Hfin.
  { split_and!; [congruence|rewrite Hwi, Hw2, app_nil_r; done|intros; apply Hheld; lia|].
    intros. apply Hun; [lia|congruence]. }
  unfold or_say. case_bool_decide; [by apply wp_ret|].
  wp_step. apply wp_cget. case_decide; [|by apply wp_ret]. apply wp_say2. split; [done|exact Hfin].
Qed.
End turn.

(** ** Several processes *)

Section processes.
Context `{Engine} `{Platform} `{Hst : Host}.

(** Each process has its connection, and all of them serialise on one file; the
    kernel remembers who has it locked. *)
Record system := System { procs : nat → st; lock_owner : option nat }.

Definition kernel_answer (o : option nat) (i : nat) : lock_ev :=
  match o with
  | Some j => if decide (j = i) then LockGot else LockErr EWOULDBLOCK
  | None => LockGot
  end.

(** What a process does that concerns the lock. *)
Inductive turn_op :=
| Poll (waited : Z)
| Give
| Lose (what : bytes) (detail : option bytes)
| Serialise (path : option bytes) (wait_seconds : Z)
| Close.
Definition run_op (o : turn_op) : M st unit :=
  match o with
  | Poll w => poll_turn w ;; ret tt
  | Give => give_turn
  | Lose what d => lost what d ;; ret tt
  | Serialise path w => zg_serialise path w ;; ret tt
  | Close => zg_close
  end.

Definition owner_after (i : nat) (o : option nat) (s' : st) : option nat :=
  if turn (wd s') then Some i else if decide (o = Some i) then None else o.

Inductive step : system → system → Prop :=
| StepOp y i op s' :
    run_op op (St (cn (procs y i)) (set_lock_q [kernel_answer (lock_owner y) i] (wd (procs y i)))) = Ret tt s' →
    step y (System (λ j, if decide (j = i) then s' else procs y j) (owner_after i (lock_owner y) s')).

Definition system_inv (y : system) : Prop := ∀ i,
  turn_safe (procs y i) ∧ (turn (wd (procs y i)) = true → lock_owner y = Some i).

(** Nothing but a try at the lock can gain the turn. *)
Definition releases {A} (m : M st A) : Prop := ∀ s,
  wp m (λ _ s', keeps_turn s s') (λ _, True) s.

Lemma keeps_turn_refl s : keeps_turn s s.
Proof. by intros ?. Qed.
Lemma releases_bind {A B} (m : M st A) (k : A → M st B) :
  releases m → (∀ a, releases (k a)) → releases (bind m k).
Proof.
  intros Hm Hk s. wp_step. eapply wp_mono; [apply Hm| |done]. intros a s1 H1.
  eapply wp_mono; [apply Hk| |done]. intros b s2 H2 Hs.
  destruct (H1 Hs) as [Hs1 ?]. destruct (H2 Hs1). auto.
Qed.
Lemma releases_ret {A} (a : A) : releases (ret a).
Proof. intros s. by apply wp_ret. Qed.
Lemma releases_cget {A} (f : zg_conn → A) : releases (cget f).
Proof. intros s. by apply wp_cget. Qed.
Lemma releases_wget {A} (f : world → A) : releases (wget f).
Proof. intros s. by apply wp_wget. Qed.
Lemma releases_cmod f : (∀ c, held (f c) = held c) → releases (cmod f).
Proof. intros Hf s. apply wp_cmod. intros Hs. split; [|done]. unfold turn_safe. cbn. by rewrite Hf. Qed.
Lemma releases_wmod f : (∀ w, turn (f w) = turn w) → releases (wmod f).
Proof. intros Hf s. apply wp_wmod. intros Hs. unfold turn_safe. cbn. by rewrite Hf. Qed.
Lemma releases_give_turn : releases give_turn.
Proof. intros s. eapply wp_mono; [apply wp_give_turn|by intros ? ? []|done]. Qed.
Lemma releases_say what : releases (say what).
Proof. apply releases_bind; [by apply releases_cmod|intros; apply releases_ret]. Qed.
Lemma releases_say2 what d : releases (say2 what d).
Proof. apply releases_bind; [by apply releases_cmod|intros; apply releases_ret]. Qed.

Lemma releases_lost what d : releases (lost what d).
Proof.
  unfold lost. apply releases_bind; [apply releases_cget|]. intros f.
  apply releases_bind.
  { destruct (bool_decide (0 ≤ f)%Z); [|apply releases_ret].
    apply releases_bind; [by apply releases_wmod|intros; by apply releases_cmod]. }
  intros _. apply releases_bind; [by apply releases_cmod|]. intros _.
  apply releases_bind; [apply releases_give_turn|]. intros _.
  destruct d; [apply releases_say2|apply releases_say].
Qed.

(** The same from one state: the lock file is let go of only once the turn
    is back. *)
Definition releases_at {A} s (m : M st A) : Prop := wp m (λ _ s', keeps_turn s s') (λ _, True) s.
Lemma at_bind {A B} (m : M st A) (k : A → M st B) s :
  wp m (λ a s1, keeps_turn s s1 ∧ releases_at s1 (k a)) (λ _, True) s → releases_at s (bind m k).
Proof.
  intros Hm. unfold releases_at. wp_step. eapply wp_mono; [exact Hm| |done].
  intros a s1 [H1 Hk]. eapply wp_mono; [exact Hk| |done]. intros b s2 H2 Hs.
  destruct (H1 Hs) as [Hs1 ?]. destruct (H2 Hs1). auto.
Qed.
Lemma at_when_close s l :
  ((0 ≤ l)%Z → held (cn s) = false) →
  releases_at s (when (bool_decide (0 ≤ l)%Z) (wmod (close_lock l))).
Proof.
  intros Hh. unfold releases_at. case_bool_decide; [|by apply wp_ret].
  apply wp_wmod. intros Hs. split; [|done]. unfold turn_safe. cbn. by rewrite Hh.
Qed.
Lemma at_give_turn {B} (k : unit → M st B) s :
  (∀ s1, lockfd (cn s1) = lockfd (cn s) → ((0 ≤ lockfd (cn s))%Z → held (cn s1) = false) →
     releases_at s1 (k tt)) →
  releases_at s (bind give_turn k).
Proof.
  intros Hk. apply at_bind. eapply wp_mono; [apply wp_give_turn| |done].
  intros [] s1 (? & ? & ? & ? & _). split; [done|by apply Hk].
Qed.

Lemma releases_zg_serialise path w : releases (zg_serialise path w).
Proof.
  intros s. apply at_bind. apply wp_cget. split; [apply keeps_turn_refl|].
  destruct (embed (cn s)); [apply releases_ret|].
  apply at_bind. apply wp_cget. split; [apply keeps_turn_refl|].
  apply at_bind. eapply wp_mono with (Q := λ _ s1, keeps_turn s s1) (B := λ _, True); [| |done].
  - case_bool_decide as Hl; [|apply wp_ret, keeps_turn_refl].
    apply (at_give_turn (λ _, wmod (close_lock (lockfd (cn s))) ;; cmod (set_lockfd (-1)))).
    intros s1 _ Hh. apply at_bind. apply wp_wmod. split; [|by apply releases_cmod].
    intros Hs. split; [|done]. unfold turn_safe. cbn. by rewrite Hh.
  - intros _ s1 Hk. split; [done|]. case_decide; [apply releases_ret|].
    apply at_bind. unfold wp, sys, sys_open. destruct (open_q (wd s1)) as [|[e|] q]; [done|..].
    + split; [done|]. apply releases_bind; [apply releases_wget|].
      intros e'. apply releases_say2.
    + split; [done|]. apply releases_bind; [by apply releases_cmod|intros; apply releases_ret].
Qed.

Lemma releases_ce_forget : releases ce_forget.
Proof.
  unfold ce_forget. apply releases_bind; [apply releases_cget|]. intros id.
  apply releases_bind; [apply releases_wget|]. intros l.
  destruct (slot_remove id l) as [[ce|] l']; [|apply releases_ret].
  apply releases_bind; [|intros _]; by apply releases_wmod.
Qed.
Lemma releases_drop_tls : releases drop_tls.
Proof.
  unfold drop_tls. apply releases_bind; [apply releases_cget|]. intros [h|]; [|apply releases_ret].
  apply releases_bind; [|intros; by apply releases_cmod].
  destruct tls_linked; [by apply releases_wmod|apply releases_ret].
Qed.
Lemma releases_zg_close : releases zg_close.
Proof.
  intros s. apply at_bind. apply wp_cget. split; [apply keeps_turn_refl|].
  destruct (embed (cn s)).
  { apply releases_bind; [apply releases_ce_forget|intros; by apply releases_wmod]. }
  apply at_give_turn. intros s1 Hl Hh. apply at_bind. apply wp_cget. split; [apply keeps_turn_refl|].
  rewrite Hl. apply at_bind. eapply wp_mono; [by apply at_when_close| |done].
  intros ? s2 Hk. split; [done|]. apply releases_bind; [apply releases_drop_tls|]. intros _.
  apply releases_bind; [apply releases_cget|]. intros f.
  apply releases_bind; [|intros; by apply releases_cmod].
  destruct (bool_decide (0 ≤ f)%Z); [by apply releases_wmod|apply releases_ret].
Qed.

Lemma run_op_inv op i o s' (s : st) :
  turn_safe s → (turn (wd s) = true → o = Some i) →
  run_op op (St (cn s) (set_lock_q [kernel_answer o i] (wd s))) = Ret tt s' →
  turn_safe s' ∧ (turn (wd s') = true → o = None ∨ o = Some i).
Proof.
  intros Hs Ho Hrun.
  set (s0 := St (cn s) (set_lock_q [kernel_answer o i] (wd s))) in *.
  assert (∀ {A} (m : M st A), releases m → (m ;; ret tt) s0 = Ret tt s' →
    turn_safe s' ∧ (turn (wd s') = true → o = None ∨ o = Some i)) as Hrel.
  { intros A m Hm E. assert (releases (m ;; ret tt)) as Hm' by
      (apply releases_bind; [done|intros; apply releases_ret]).
    specialize (Hm' s0). unfold wp in Hm'. rewrite E in Hm'. destruct (Hm' Hs) as [? Ht]. auto. }
  assert (∀ m : M st unit, m s0 = Ret tt s' → (m ;; ret tt) s0 = Ret tt s') as Htt.
  { intros m E. unfold bind. by rewrite E. }
  destruct op as [w| |what d|path w|]; cbn [run_op] in Hrun.
  - pose proof (wp_poll_turn s0 w Hs) as Hp. revert Hrun. unfold wp, bind in *.
    assert (o ≠ None → o ≠ Some i → ∀ r s1, poll_turn w s0 = Ret r s1 → turn (wd s1) = turn (wd s)) as Hbusy.
    { intros H1 H2 r s1. unfold poll_turn, bind, sys, sys_flock_ex, s0, kernel_answer.
      destruct o as [j|]; [|done]. rewrite decide_False by congruence.
      cbn -[Z.mul Z.add snprintf_s snprintf_ss]. unfold bind, wget, cget, gets.
      cbn -[Z.mul Z.add snprintf_s snprintf_ss].
      case_decide; [by intros [= <- <-]|]. case_decide; by intros [= <- <-]. }
    destruct (poll_turn w s0) as [r s1| |]; [|done..]. intros [= <-]. split; [apply Hp|].
    intros Ht. destruct (decide (o = None)); [by left|]. destruct (decide (o = Some i)); [by right|].
    rewrite (Hbusy ltac:(done) ltac:(done) r s1 eq_refl) in Ht. auto.
  - by apply (Hrel _ give_turn), Htt; [apply releases_give_turn|].
  - by eapply Hrel; [apply releases_lost|].
  - by eapply Hrel; [apply releases_zg_serialise|].
  - by apply (Hrel _ zg_close), Htt; [apply releases_zg_close|].
Qed.

Lemma step_inv y y' : step y y' → system_inv y → system_inv y'.
Proof.
  intros [y0 i op s' Hrun] Hinv j. destruct (Hinv i) as [Hs Ho].
  destruct (run_op_inv _ _ _ _ _ Hs Ho Hrun) as [Hs' Ho']. cbn. unfold owner_after.
  destruct (decide (j = i)) as [->|Hne].
  - split; [done|]. intros ->. done.
  - destruct (Hinv j) as [Hsj Hoj]. split; [done|]. intros Ht. specialize (Hoj Ht).
    destruct (turn (wd s')).
    + destruct (Ho' eq_refl); congruence.
    + rewrite decide_False; congruence.
Qed.
Lemma steps_inv y y' : rtc step y y' → system_inv y → system_inv y'.
Proof. induction 1; eauto using step_inv. Qed.
End processes.

(** ** The theorems *)

Section theorems.
Context `{Engine} `{Platform} `{Hst : Host}.

(** C18. The turn is waited for, and taken when it comes in time.  With no limit
    or one that the wait stays within, [take_turn] tries once every two
    milliseconds until the lock is free, then holds it: so many sleeps, the
    turn both in the kernel and in the connection, nothing sent or read. *)
Theorem turn_taken_in_time l q s :
  Forall busy l → lock_q (wd s) = l ++ LockGot :: q → patient s 0 (length l) →
  (0 ≤ lockfd (cn s))%Z → held (cn s) = false →
  ∃ s', take_turn s = Ret true s' ∧ cn s' = set_held true (cn s) ∧ turn (wd s') = true ∧
        waited_for (length l) q s s'.
Proof.
  intros Hl Hq Hp Hf Hh. unfold take_turn, bind, cget, gets. rewrite Hh.
  rewrite decide_False by lia. unfold while.
  destruct (polls_got l q (S (length (lock_q (wd s)))) 0 s) as (s' & ? & ? & ? & ?); try done.
  - rewrite Hq, length_app. cbn [length]. lia.
  - by exists s'.
Qed.

(** C19. A limit on the wait is kept.  When the lock stays taken for as long
    as [zg_serialise] was told to wait, and that is short enough to be counted
    in milliseconds in an int, [take_turn] gives up saying so: it has slept
    exactly that long, does not hold the turn, and has sent nothing. *)
Theorem turn_times_out l e q s :
  Forall busy l → busy e → lock_q (wd s) = l ++ e :: q →
  Z.of_nat (length l) = (500 * lockwait (cn s))%Z → (0 < lockwait (cn s) < 2147483)%Z →
  (0 ≤ lockfd (cn s))%Z → held (cn s) = false →
  ∃ s', take_turn s = Ret false s' ∧
        cn s' = set_err $"timed out waiting for another cocolog process" (cn s) ∧
        turn (wd s') = turn (wd s) ∧ sent (wd s') = sent (wd s) ∧
        slept (wd s') = (slept (wd s) + 1000000 * lockwait (cn s))%Z.
Proof.
  intros Hl He Hq Hn Hw Hf Hh. unfold take_turn, bind, cget, gets. rewrite Hh.
  rewrite decide_False by lia. unfold while.
  destruct (polls_timeout l e q (S (length (lock_q (wd s)))) 0 s) as (s' & ? & ? & Hwt & ?);
    try done; try lia.
  - rewrite Hq, length_app. cbn [length]. lia.
  - exists s'. destruct Hwt as (Hsl & _ & _ & _ & Hse & _). split_and!; try done. lia.
Qed.

(** C20. A commit or a rollback ends the turn, agreed to or refused.  When the
    server takes the verb and answers with anything but an exception, the
    transaction is over as far as other processes go: the connection no longer
    thinks it holds the turn, the kernel no longer has the lock file locked for
    it, and exactly the verb was said and exactly its answer taken. *)
Theorem commit_ends_turn (commit : bool) r rest s :
  ready s → (0 ≤ r < 256)%Z → r ≠ ZG_EXCEPTION_THROWN → (0 ≤ lockfd (cn s))%Z →
  stream s = (DONE ++ [byte_of r]) ++ rest →
  wp (if commit then zg_commit else zg_rollback)
     (λ ok s', ok = bool_decide (r = ZG_SUCCESSFUL_DONE) ∧ held (cn s') = false ∧ turn (wd s') = false ∧
        stream s' = rest ∧ wire s' = wire s ++ verb_bytes (if commit then $"commit" else $"rollback"))
     (λ _, False) s.
Proof.
  intros Hr Hb Hx Hl Hs. pose proof Hr as ((_ & _ & He) & _). assert (held (cn s) = true) as Hin by (destruct Hr as (_ & _ & [?|?]); [lia|done]).
  assert (∀ name, length (c_str name) ≤ ZG_MAX_STRING → wp (simple_verb name)
     (λ ok s', ok = bool_decide (r = ZG_SUCCESSFUL_DONE) ∧ held (cn s') = false ∧ turn (wd s') = false ∧
        stream s' = rest ∧ wire s' = wire s ++ verb_bytes name) (λ _, False) s) as Hv.
  { intros name Hn. eapply wp_mono; [by eapply wp_simple_verb| |done].
    intros ok s' (? & ? & ? & Hh & Hts). split_and!; auto. }
  destruct commit; unfold zg_commit, zg_rollback; wp_step; apply wp_cget; rewrite He;
    apply Hv; vm_compute; lia.
Qed.

(** C8. At most one process is inside.  From processes that serialise on one
    file, none of which thinks it has a turn the kernel did not give it, any
    interleaving of tries for the lock, releases, lost connections, openings of
    the file and closes, with the kernel granting the lock only when nobody
    else has it, reaches only states
    where two connections that hold the turn are the same, and it is the one
    the kernel says. *)
Theorem one_process_inside y y' i j :
  system_inv y → rtc step y y' →
  held (cn (procs y' i)) = true → held (cn (procs y' j)) = true →
  i = j ∧ lock_owner y' = Some i.
Proof.
  intros Hinv Hsteps Hi Hj. pose proof (steps_inv _ _ Hsteps Hinv) as Hinv'.
  destruct (Hinv' i) as [Hsi Hoi]. destruct (Hinv' j) as [Hsj Hoj].
  rewrite Hoi in Hoj by auto. split; [|auto]. specialize (Hoj (Hsj Hj)). congruence.
Qed.
End theorems.

Definition toy_busy (n : nat) : list lock_ev := replicate n (LockErr EWOULDBLOCK).
Lemma toy_busy_busy n : Forall busy (toy_busy n).
Proof. apply Forall_replicate. by left. Qed.

Lemma turn_taken_in_time_witness :
  ∃ s', take_turn (toy_serial [] (toy_busy 3 ++ [LockGot])) = Ret true s' ∧ slept (wd s') = 6000%Z.
Proof.
  destruct (turn_taken_in_time (toy_busy 3) [] (toy_serial [] (toy_busy 3 ++ [LockGot])))
    as (s' & Hr & _ & _ & Hs & _); [apply toy_busy_busy|done|right; simpl; lia|simpl; lia|done|].
  exists s'. split; [done|]. rewrite Hs. by vm_compute.
Defined.

Lemma turn_times_out_witness :
  ∃ s', take_turn (toy_serial [] (toy_busy 501)) = Ret false s' ∧ slept (wd s') = 1000000%Z.
Proof.
  destruct (turn_times_out (toy_busy 500) (LockErr EWOULDBLOCK) [] (toy_serial [] (toy_busy 501)))
    as (s' & Hr & _ & _ & _ & Hs); [apply toy_busy_busy|by left|done|done|simpl; lia|simpl; lia|done|].
  exists s'. split; [done|]. rewrite Hs. by vm_compute.
Defined.

Definition toy_inside : st :=
  St (set_held true (set_lockfd 9 toy_conn)) (set_turn true (toy_world [RxData [byte_of 0]; RxData [byte_of 0]] [])).

Lemma ready_toy_inside : ready toy_inside.
Proof.
  split; [split|split]; [|split; done|done|by right].
  split; [vm_compute; lia|]. split; [done|]. split; [vm_compute; lia|by left].
Qed.

Lemma commit_ends_turn_witness :
  turn (wd toy_inside) = true ∧
  wp zg_commit (λ ok s', ok = true ∧ held (cn s') = false ∧ turn (wd s') = false) (λ _, False) toy_inside.
Proof.
  split; [by vm_compute|].
  eapply wp_mono; [apply (commit_ends_turn true 0 [] toy_inside ready_toy_inside)|..];
    [lia|done|by vm_compute|done| |done].
  intros ok s' (-> & Hh & Ht & _). done.
Defined.

(** Process 0 has taken the lock; nobody else can be inside. *)
Lemma one_process_inside_witness :
  ∃ y', rtc step (System (λ _, toy_serial [] []) None) y' ∧
  held (cn (procs y' 0)) = true ∧ lock_owner y' = Some 0 ∧
  (∀ y'' i, rtc step y' y'' → held (cn (procs y'' 0)) = true → held (cn (procs y'' i)) = true → 0 = i).
Proof.
  assert (system_inv (System (λ _, toy_serial [] []) None)) as Hinv by (intros i; done).
  eexists. split; [apply rtc_once, (StepOp _ 0 (Poll 0)); reflexivity|]. split; [done|]. split; [done|].
  intros y'' i Hsteps H0 Hi.
  refine (proj1 (one_process_inside _ y'' 0 i Hinv _ H0 Hi)).
  eapply rtc_l; [apply (StepOp _ 0 (Poll 0)); reflexivity|exact Hsteps].
Defined.
