(* ===== verification/Zigurat.v ===== *)
(** * What client/zigurat.c promises

    The theorems about the wire client, each with a witness on the toy
    platform of Toy.v.  The conversations are stated with [talks]: on a ready
    connection, when the peer's bytes begin with the third argument, exactly
    those are taken, exactly the second argument is said, the last argument is
    the answer and the connection is ready for more. *)
From S2P Require Import Prelude Effect ByteOrder Tls World Conn Socket SocketFacts Proto Codec Toy Field Conversation Turn.

(** The peer has said everything [b] holds, however it was cut up. *)
Lemma ready_on r b rest : concat r = b ++ rest → Forall (λ c, c ≠ []) r → stream (toy r) = b ++ rest.
Proof.
  intros <- Hr. unfold stream, toy, plaintext. cbn.
  induction Hr as [|c r Hc Hr IH]; [done|]. cbn. destruct c as [|x c]; [done|]. cbn in *. by rewrite IH.
Qed.

Section calls.
Context `{Engine} `{Platform} `{Hst : Host}.

Definition results_bytes (rs : list result) : bytes := concat (map encode_result rs) ++ DONE.

(** A request with what it is answered, and the number of fields in a row. *)
Record exchange := Exchange { asked : request; answered : list result; width : nat }.
Definition wf_exchange (fuel : nat) (x : exchange) : Prop :=
  wf_request (asked x) ∧ Forall (wf_result (width x)) (answered x) ∧ length (answered x) < fuel.
Definition reply_bytes (x : exchange) : bytes := (DONE ++ DONE) ++ results_bytes (answered x).

Definition call_and_drain (fuel : nat) (x : exchange) : M st bool :=
  call_with (asked x) &; zg_drain fuel (width x).
Definition wait_and_drain (fuel : nat) (x : exchange) : M st bool :=
  wait_for (asked x) &; zg_drain fuel (width x).
Definition one_by_one (fuel : nat) : list exchange → M st bool := each (call_and_drain fuel).
Definition pipelined (fuel : nat) (l : list exchange) : M st bool :=
  each (λ x, send_with (asked x)) l &; each (wait_and_drain fuel) l.

Lemma talks_call_and_drain fuel x :
  wf_exchange fuel x → talks (call_and_drain fuel x) (request_bytes (asked x)) (reply_bytes x) true.
Proof.
  intros (Hq & Hr & Hf). rewrite <- (app_nil_r (request_bytes _)).
  apply talks_seq; [by apply talks_call_with|by apply talks_zg_drain].
Qed.
Lemma talks_one_by_one fuel l :
  Forall (wf_exchange fuel) l →
  talks (one_by_one fuel l) (concat (map (λ x, request_bytes (asked x)) l)) (concat (map reply_bytes l)) true.
Proof.
  intros Hl. rewrite Forall_forall in Hl. apply (talks_each _ (λ x, request_bytes (asked x)) reply_bytes).
  intros x Hx. by apply talks_call_and_drain, Hl.
Qed.
Lemma talks_pipelined fuel l :
  Forall (wf_exchange fuel) l →
  talks (pipelined fuel l) (concat (map (λ x, request_bytes (asked x)) l)) (concat (map reply_bytes l)) true.
Proof.
  intros Hl. rewrite Forall_forall in Hl. unfold pipelined.
  pose proof (talks_each (λ x, send_with (asked x)) (λ x, request_bytes (asked x)) (λ _, []) l) as Hs.
  pose proof (talks_each (wait_and_drain fuel) (λ _, []) reply_bytes l) as Hw.
  rewrite (concat_nil l) in Hs, Hw. rewrite <- (app_nil_r (concat (map (λ x, request_bytes _) l))).
  apply (talks_seq _ _ _ _ []).
  - apply Hs. intros x Hx. by apply talks_send_with, Hl.
  - apply Hw. intros x Hx. destruct (Hl x Hx) as (Hq & Hr & Hf).
    apply (talks_seq _ _ [] [] (DONE ++ DONE)); [apply talks_zg_call_wait|by apply talks_zg_drain].
Qed.

(** C1. A call with its parameters and everything it answers.  On a ready
    connection, [zg_call] of a procedure, its parameters written with the
    [zg_write_] calls, then [zg_drain], say exactly the verb, the name and
    each parameter as the wire format has it, take exactly the two
    acknowledgements, every cursor, row and returned value of any type, and
    the closing byte, and leave the connection ready with whatever follows
    still to be read. *)
Theorem call_answered fuel x :
  wf_exchange fuel x → talks (call_and_drain fuel x) (request_bytes (asked x)) (reply_bytes x) true.
Proof. apply talks_call_and_drain. Qed.

(** C6. Pipelining is invisible to the peer.  Sending every request with
    [zg_call_send] and only then waiting for and draining each answer puts
    the same bytes on the wire, takes the same bytes off it and answers the
    same as making the calls one after another. *)
Theorem pipelined_like_one_by_one fuel l :
  Forall (wf_exchange fuel) l →
  let out := concat (map (λ x, request_bytes (asked x)) l) in
  let back := concat (map reply_bytes l) in
  talks (one_by_one fuel l) out back true ∧ talks (pipelined fuel l) out back true.
Proof. intros Hl. split; [by apply talks_one_by_one|by apply talks_pipelined]. Qed.

(** C7. Parameters round-trip.  What a [zg_write_] call puts on the wire, the
    [zg_read_] call of the same type reads back as the same value, for every
    boolean, 32- and 64-bit integer, 64 bits of double, NUL-free string of at
    most 255 bytes, text of at most 65535 and vector of doubles, whenever the
    reader's buffer holds it; and the null field of any type reads as null. *)
Theorem value_roundtrip v cap t :
  wf_value v → fits v cap → (128 ≤ t < 256)%Z →
  emits (write_value v) (encode (field_of v)) ∧
  talks (read_as v cap) [] (encode (field_of v)) (Some (Some v)) ∧
  talks (read_as v cap) [] [byte_of t] (Some None).
Proof.
  intros Hv Hf Ht. split; [by apply emits_value|]. split; [by apply talks_value|].
  by apply talks_null_value.
Qed.
End calls.

Definition toy_request : request := ($"greet", [VInt (-7); VString $"you"; VDvector [1; 2]])%Z.
Definition toy_results : list result :=
  [RCursorOpen $"a,b"; RCursorFetch [FAtom TDB_INT (be_bytes 4 5); FNull 137];
   RCursorClose; RReturn (FVec 102 [FCount8 TDB_STRING 2 $"hi"])].
Definition toy_exchange : exchange := Exchange toy_request toy_results 2.

Lemma toy_exchange_wf : wf_exchange 5 toy_exchange.
Proof.
  split; [split|split].
  - vm_compute; lia.
  - repeat (apply Forall_cons; split); [| | |by apply Forall_nil].
    + unfold wf_value, in_sint. lia.
    + split; [apply (bool_decide_unpack _); by vm_compute|vm_compute; lia].
    + split; [done|]. repeat (apply Forall_cons; split); [unfold in_uint; lia..|by apply Forall_nil].
  - repeat (apply Forall_cons; split); [vm_compute; lia| | | |by apply Forall_nil].
    + split; [done|]. repeat (apply Forall_cons; split); [|cbn; lia|by apply Forall_nil].
      split; [split; [split; by vm_compute|done]|done].
    + done.
    + split; [split; [split; by vm_compute|done]|]. split; [simpl; lia|]. split; [|done].
      split; [split; [split; by vm_compute|done]|split; [split; by vm_compute|done]].
  - simpl; lia.
Qed.

Lemma call_answered_witness :
  talks (call_and_drain 5 toy_exchange) (request_bytes toy_request) (reply_bytes toy_exchange) true ∧
  answers (call_and_drain 5 toy_exchange) (toy [reply_bytes toy_exchange ++ $"rest"]) = Some true.
Proof. split; [exact (call_answered 5 toy_exchange toy_exchange_wf)|by vm_compute]. Defined.

Lemma pipelined_like_one_by_one_witness :
  talks (pipelined 5 [toy_exchange; toy_exchange])
    (request_bytes toy_request ++ request_bytes toy_request)
    (reply_bytes toy_exchange ++ reply_bytes toy_exchange) true ∧
  said (pipelined 5 [toy_exchange; toy_exchange]) (toy [reply_bytes toy_exchange; reply_bytes toy_exchange])
  = request_bytes toy_request ++ request_bytes toy_request.
Proof.
  split; [|by vm_compute].
  assert (Forall (wf_exchange 5) [toy_exchange; toy_exchange]) as Hl
    by (do 2 (apply Forall_cons; split; [apply toy_exchange_wf|]); by apply Forall_nil).
  pose proof (pipelined_like_one_by_one 5 [toy_exchange; toy_exchange] Hl) as [_ Hp].
  cbn [map concat asked] in Hp. by rewrite !app_nil_r in Hp.
Defined.

Lemma value_roundtrip_witness :
  talks (read_as (VDvector [1; 2]%Z) 2) [] (encode (field_of (VDvector [1; 2]%Z))) (Some (Some (VDvector [1; 2]%Z))).
Proof.
  refine (proj1 (proj2 (value_roundtrip (VDvector [1; 2]%Z) 2 137 _ _ _))); [|simpl; lia|lia].
  split; [done|]. repeat (apply Forall_cons; split); [unfold in_uint; lia..|by apply Forall_nil].
Defined.

(** ** The transport underneath *)

Section transport.
Context `{Engine} `{Platform} `{Hst : Host}.

Lemma emits_each (l : list bytes) : emits (each wr l) (concat l).
Proof.
  induction l as [|p l IH]; [apply emits_ret|]. cbn [each concat].
  apply emits_seq; [apply emits_wr|done].
Qed.

(** C10. Reading does not depend on how the bytes arrived.  Whatever pieces the
    peer's bytes come in, with whatever already read ahead, plain or through
    TLS, [rd] of [n] answers the first [n] of them and leaves the rest, when
    that many are coming. *)
Theorem rd_any_segmentation n s :
  ready s → n ≤ length (stream s) →
  wp (rd n) (λ o s', o = Some (take n (stream s)) ∧ stream s' = drop n (stream s) ∧
                     wire s' = wire s ∧ ready s') (λ _, False) s.
Proof.
  intros Hr Hn. pose proof (talks_rd (take n (stream s)) s (drop n (stream s)) Hr) as Ht.
  rewrite length_take_le in Ht by done. rewrite take_drop in Ht.
  eapply wp_mono; [by apply Ht| |done].
  intros o s' (-> & _ & Hr' & Hs & Hw). rewrite app_nil_r in Hw. by split_and!.
Qed.

(** C11. Nothing of ours sits unsent while we wait.  Against a peer that takes
    what it is sent, [rd] either answers; or gives up with the connection
    closed, the peer having sent less than was wanted; or waits, again with
    less sent than wanted, and then every byte written so far has left the
    out buffer for the socket. *)
Theorem rd_waits_flushed n s :
  usable s → calm s →
  wp (rd n)
     (λ o s', if o is Some b then b = take n (stream s) ∧ n ≤ length (stream s)
              else gone s s' ∧ length (stream s) < n)
     (λ s', out (cn s') = [] ∧ sent (wd s') = wire s ∧ length (stream s) < n) s.
Proof.
  intros (Hwf & Ho & _) Hca. eapply wp_mono; [by apply wp_rd| |].
  - intros [b|] s'.
    + intros (_ & _ & Hl & Hs & _). rewrite Hs. split; [|rewrite length_app; lia].
      by rewrite <- Hl, take_app_length.
    + intros [Hg Hlt]. split; [done|by apply Hlt].
  - intros s' Hw. destruct (Hw Hca) as (_ & Hout & Hse & Hlt & _). by split_and!.
Qed.

(** C12. Bytes go out once and in order, however they are buffered.  A run of
    [wr]s of any sizes -- smaller than the out buffer, larger, or overflowing
    it together -- that succeeds leaves sent and held-back bytes together
    those before it followed by its own, no more held back than the buffer
    holds and nothing read; one that fails has put some first part of them on
    the wire and closed the connection, and happens only when the peer
    refused. *)
Theorem wr_in_order l s :
  usable s →
  wp (each wr l)
     (λ ok s', if ok then wire s' = wire s ++ concat l ∧ length (out (cn s')) ≤ ZG_OUT_SIZE ∧
                          stream s' = stream s
               else gone s s' ∧ sent (wd s') `prefix_of` wire s ++ concat l ∧ ¬ calm s)
     (λ s', sent (wd s') `prefix_of` wire s ++ concat l ∧ ¬ calm s) s.
Proof.
  intros Hu. eapply wp_mono; [by apply emits_each| |by intros s' []].
  intros [] s'; [|done]. intros (Hm & Hwf & Hw & Hi & Hp & Hr & _).
  split; [done|]. split; [apply Hwf|]. unfold stream.
  by rewrite Hi, Hp, Hr, (moved_plaintext _ _ Hm).
Qed.

(** C21. A field is skipped exactly.  [zg_skip_field] takes off the wire all of
    one field and nothing after it, for every well-formed field: null,
    atomic, counted and vectors of fields nested to any depth. *)
Theorem skip_field_exact f : wf_field f → talks zg_skip_field [] (encode f) true.
Proof. apply talks_zg_skip_field. Qed.

(** C9. No input makes a drain run for ever.  On any usable connection,
    whatever finite bytes the peer sends, well-formed or not, [zg_drain]
    answers or waits for more to be sent: the fuel of the model is never what
    ends it, once it exceeds the number of bytes there are. *)
Theorem drain_terminates fuel n s :
  usable s → pending_in s < fuel →
  wp (zg_drain fuel n) (λ ok s', if ok then usable s' ∧ pending_in s' ≤ pending_in s else True)
     (λ _, True) s.
Proof.
  intros Hu Hf. eapply wp_mono; [by apply (eats_zg_drain fuel n fuel)| |done].
  intros [] s'; [|done]. intros [? ?]. split; [done|]. cbn in *. lia.
Qed.
End transport.

Lemma rd_any_segmentation_witness :
  answers (rd 3) (toy [$"a"; $"bcd"; $"e"]) = Some (Some $"abc") ∧
  wp (rd 3) (λ o s', o = Some (take 3 (stream (toy [$"a"; $"bcd"; $"e"]))))
     (λ _, False) (toy [$"a"; $"bcd"; $"e"]).
Proof.
  split; [by vm_compute|].
  eapply wp_mono; [apply (rd_any_segmentation 3 (toy [$"a"; $"bcd"; $"e"]) (ready_toy _)); vm_compute; lia|..].
  - intros o s' Hs. apply Hs.
  - done.
Defined.

Definition toy_asking : st := St (set_out $"ask" toy_conn) (toy_world [] []).

Lemma usable_toy_asking : usable toy_asking.
Proof. split; [|done]. split; [vm_compute; lia|]. split; [done|]. split; [vm_compute; lia|by left]. Qed.

Lemma rd_waits_flushed_witness :
  answers (rd 1) toy_asking = None ∧ said (rd 1) toy_asking = $"ask" ∧
  wp (rd 1) (λ o s', length (stream toy_asking) < 1 → o = None) (λ s', out (cn s') = []) toy_asking.
Proof.
  split; [by vm_compute|]. split; [by vm_compute|].
  eapply wp_mono; [apply (rd_waits_flushed 1 _ usable_toy_asking eq_refl)|..].
  - intros [b|] s' Hs; [|done]. intros. destruct Hs. lia.
  - intros s' Hs. apply Hs.
Defined.

Definition toy_stubborn : st := St toy_conn (toy_world [] [TxTake 1; TxErr EINTR; TxTake 700]).

Lemma usable_toy_stubborn : usable toy_stubborn.
Proof. split; [|done]. split; [vm_compute; lia|]. split; [done|]. split; [vm_compute; lia|by left]. Qed.

Lemma wr_in_order_witness :
  answers (each wr [$"a"; replicate 1100 nul; $"z"]) toy_stubborn = Some true ∧
  wp (each wr [$"a"; replicate 1100 nul; $"z"])
     (λ ok s', if ok then length (out (cn s')) ≤ ZG_OUT_SIZE else ¬ calm toy_stubborn) (λ _, True) toy_stubborn.
Proof.
  split; [by vm_compute|].
  eapply wp_mono; [apply (wr_in_order [$"a"; replicate 1100 nul; $"z"] _ usable_toy_stubborn)|..].
  - intros [] s' Hs; apply Hs.
  - done.
Defined.

Lemma skip_field_exact_witness :
  talks zg_skip_field [] (encode (FVec 102 [FNull 130; FVec 96 [FCount8 TDB_STRING 2 $"hi"]])) true.
Proof.
  apply (skip_field_exact (FVec 102 [FNull 130; FVec 96 [FCount8 TDB_STRING 2 $"hi"]])).
  split; [split; [lia|done]|]. split; [simpl; lia|]. split; [split; by vm_compute|]. split; [|done].
  split; [split; [lia|done]|]. split; [simpl; lia|]. split; [|done].
  split; [split; [by vm_compute|done]|split; [lia|done]].
Defined.

Lemma drain_terminates_witness :
  let s := toy [$"garbage"; [byte_of 1; byte_of 200]; $"more"] in
  wp (zg_drain 100 3) (λ ok s', ok = true → usable s') (λ _, True) s.
Proof.
  cbn zeta. eapply wp_mono; [apply (drain_terminates 100 3)|..].
  - apply ready_toy.
  - vm_compute. lia.
  - by intros [] s' Hs; [intros _; apply Hs|].
  - done.
Defined.
