(* ===== verification/Failures.v ===== *)
(** * How client/zigurat.c fails

    What each way of failing leaves behind: an argument too long, an answer too
    long for the caller's buffer, a refusal, an exception, a connection that
    is already closed. *)
From S2P Require Import Prelude Effect ByteOrder Tls World Conn Socket SocketFacts Proto Codec Toy Field Conversation Turn Zigurat.

Section failures.
Context `{Engine} `{Platform} `{Hst : Host}.
Implicit Types s : st.

Definition with_err (e : bytes) s : st := St (set_err e (cn s)) (wd s).
Definition too_long_string : bytes := $"a String is limited to 255 bytes".
Definition too_long_text : bytes := $"a Text is limited to 65535 bytes".
Definition closed_text : bytes := $"the connection is closed".

(** ** Arguments *)

Lemma too_long {A} (n : nat) (b : bytes) (m : M st A) m' s :
  n < length b → (if decide (n < length b) then m else m') s = m s.
Proof. intros. by rewrite decide_True. Qed.

(** C24. An argument too long for its length field changes nothing.  Every call
    that takes a String refuses one of more than 255 bytes before anything is
    sent, the turn taken or the engine asked, leaving only the error text;
    every call that takes a Text refuses one of more than 65535 the same
    way. *)
Theorem too_long_refused b cap s :
  (ZG_MAX_STRING < length (c_str b) →
     zg_echo b cap s = Ret None (with_err too_long_string s) ∧
     zg_call b s = Ret false (with_err too_long_string s) ∧
     zg_call_send b s = Ret false (with_err too_long_string s) ∧
     zg_write_string b s = Ret false (with_err too_long_string s)) ∧
  (ZG_MAX_TEXT < length (c_str b) →
     zg_compile b s = Ret false (with_err too_long_text s) ∧
     zg_write_text b s = Ret false (with_err too_long_text s)).
Proof.
  split; intros Hl.
  - unfold zg_echo, zg_write_string, zg_call_send. rewrite !too_long by done.
    assert (zg_call b s = Ret false (with_err too_long_string s)) as Hc.
    { unfold zg_call. by rewrite too_long. }
    split_and!; [done|done| |done]. unfold bind, cget, gets. destruct (embed (cn s)); [done|].
    by rewrite too_long.
  - unfold zg_compile, zg_write_text. by rewrite !too_long.
Qed.

(** ** Answers *)

(** C22. An answer too long for the caller's buffer is refused but taken off
    the wire.  An echo, a String field or a Text field whose value with its
    NUL does not fit fails, and the connection is ready for what comes
    next. *)
Theorem oversize_answer_in_step text reply cap :
  length (c_str text) ≤ ZG_MAX_STRING → cap ≤ length reply →
  (length reply ≤ ZG_MAX_STRING →
     talks (zg_echo text cap) (verb_bytes $"echo" ++ str_bytes (c_str text)) (DONE ++ str_bytes reply) None ∧
     talks (zg_read_string cap) [] (byte_of TDB_STRING :: str_bytes reply) None) ∧
  (length reply ≤ ZG_MAX_TEXT →
     talks (zg_read_text cap) [] (byte_of TDB_TEXT :: text_bytes reply) None).
Proof.
  intros Ht Hc.
  assert (∀ m i, talks m [] i (@None bytes) → talks (unless_null false m) [] i None) as Hun.
  { intros m i Hm. by apply talks_bindo_none. }
  split; intros Hr; [split|].
  - unfold zg_echo. rewrite decide_False by lia.
    apply talks_seqo; [apply talks_verb; vm_compute; lia|].
    rewrite <- (app_nil_r (str_bytes (c_str text))).
    apply (talks_seqo _ _ _ [] []); [by apply talks_emits, emits_wr_std_string|].
    by apply talks_rd_std_string_long.
  - apply talks_wire. eapply (talks_bindo _ _ [] [] [_]); [by apply talks_head|].
    by apply Hun, talks_rd_std_string_long.
  - apply talks_wire. eapply (talks_bindo _ _ [] [] [_]); [by apply talks_head|].
    by apply Hun, talks_rd_text_long.
Qed.

(** A vector too wide for the caller's buffer is left on the wire.
    [zg_read_dvector] has then taken the descriptor and the count but none of
    the elements, so the next read starts in the middle of the field. *)
Theorem wide_vector_left l cap :
  (Z.of_nat (length l) < 2 ^ 32)%Z → cap < length l →
  talks (zg_read_dvector cap) []
    (byte_of (Z.lor TDB_SCALE_DWRD TDB_DOUBLE) :: be_bytes 4 (Z.of_nat (length l))) None ∧
  encode (field_of (VDvector l)) =
    (byte_of (Z.lor TDB_SCALE_DWRD TDB_DOUBLE) :: be_bytes 4 (Z.of_nat (length l))) ++
    concat (map (λ d, byte_of TDB_DOUBLE :: be_bytes 8 d) l).
Proof.
  intros Hl Hc. split.
  - apply talks_wire. eapply (talks_bindo _ _ [] [] [_]); [by apply talks_head|]. cbn [fst snd].
    apply talks_bindo_none. rewrite decide_False by (intros E; exact (E eq_refl)).
    rewrite <- (app_nil_r (be_bytes _ _)).
    eapply (talks_bindo _ _ [] []); [apply talks_rd_be, length_be_bytes|].
    rewrite be_val_bytes, Z.mod_small by (split; [lia|exact Hl]).
    rewrite decide_True by lia. eapply talks_failo, talks_say.
  - cbn [field_of encode app]. by rewrite length_map, map_map.
Qed.

(** ** Refusals *)

(** C23. A refusal is an answer, not a failure of the connection.  When the
    server answers a call, a compile, an isolation level or an auto-commit
    with any byte but done or exception, the call fails, and the connection
    is in step and ready for the next verb. *)
Theorem refusal_in_step p suite on level r :
  length (c_str p) ≤ ZG_MAX_STRING → length (c_str suite) ≤ ZG_MAX_TEXT →
  (0 < r < 256)%Z → r ≠ ZG_EXCEPTION_THROWN →
  let back := DONE ++ [byte_of r] in
  talks (zg_call p) (call_bytes p) back false ∧
  talks (zg_compile suite) (verb_bytes $"compile" ++ text_bytes (c_str suite)) back false ∧
  talks (zg_isolate level) (verb_bytes $"isolate" ++ [byte_of (isolation_code level)]) back false ∧
  talks (zg_auto_commit on) (verb_bytes $"auto_commit" ++ [byte_of (if on then 1 else 0)]) back false.
Proof.
  intros Hp Hs Hr Hx back.
  assert (bool_decide (r = ZG_SUCCESSFUL_DONE) = false) as E.
  { apply bool_decide_eq_false. unfold ZG_SUCCESSFUL_DONE. lia. }
  assert (0 ≤ r < 256)%Z as Hb by lia.
  split; [|split; [|split]]; (eapply talks_eq; [|exact E]).
  - by apply talks_zg_call.
  - by apply talks_zg_compile.
  - by apply talks_zg_isolate.
  - by apply talks_zg_auto_commit.
Qed.

(** C13. An exception ends the connection, in the server's words.  When the
    answer to a call is the exception byte and its message, the call fails,
    the error is that message behind what refused it, the socket is closed
    and its descriptor given back, nothing read ahead is kept, and the turn,
    if turns are taken, is returned.  So says the comment in zg_result, and
    the server does hang up; but zigurat.h says twice (its head, and of
    zg_result) that a procedure that threw leaves the connection in step and
    usable, and that it does not. *)
Theorem exception_closes p msg rest s :
  ready s → length (c_str p) ≤ ZG_MAX_STRING → length msg ≤ ZG_MAX_STRING →
  stream s = DONE ++ byte_of ZG_EXCEPTION_THROWN :: str_bytes msg ++ rest →
  wp (zg_call p)
     (λ ok s', ok = false ∧ gone s s' ∧ wire s' = wire s ++ call_bytes p ∧
               err (cn s') = snprintf_ss ERR_SIZE $"the server refused it" msg)
     (λ _, False) s.
Proof.
  intros Hr Hp Hm Hs. unfold zg_call. rewrite decide_False by lia.
  wp_step. apply wp_cget. pose proof Hr as ((_ & _ & ->) & _). unfold guardb.
  eapply (talks_use (verb $"call")); [apply talks_verb; vm_compute; lia|done|exact Hs|].
  intros s1 Hse1 Hr1 Hs1 Hw1. cbv beta iota.
  eapply (talks_use (wr_std_string p) _ _ []); [by apply talks_emits, emits_wr_std_string|done|exact Hs1|].
  intros s2 Hse2 Hr2 Hs2 Hw2. cbv beta iota. wp_step.
  eapply wp_mono; [by eapply wp_exception| |done].
  intros o s3 (-> & Hg & Hw & He). split_and!; [done| | |done].
  - eapply settled_gone; [|exact Hg]. by transitivity s1.
  - unfold call_bytes. by rewrite Hw, Hw2, Hw1, app_assoc.
Qed.

(** ** Closed *)

Definition no_socket s : Prop := (fd (cn s) < 0)%Z.
Definition closed s : Prop := no_socket s ∧ embed (cn s) = false.

Lemma closed_wr p s : no_socket s → wr p s = Ret false (with_err closed_text s).
Proof. intros Hf. unfold wr, bind, cget, gets. by rewrite decide_True. Qed.
Lemma closed_rd n s : no_socket s → rd n s = Ret None (with_err closed_text s).
Proof. intros Hf. unfold rd, bind, cget, gets. by rewrite decide_True. Qed.
Lemma closed_rd_be n s : no_socket s → rd_be n s = Ret None (with_err closed_text s).
Proof. intros Hc. unfold rd_be, bindo, bind. by rewrite closed_rd. Qed.
Lemma closed_wr_std_string b s :
  no_socket s → length (c_str b) ≤ ZG_MAX_STRING →
  wr_std_string b s = Ret false (with_err closed_text s).
Proof.
  intros Hc Hl. unfold wr_std_string. rewrite decide_False by lia.
  unfold guardb, bind, wr_u8. by rewrite closed_wr.
Qed.
Lemma our_turn_take s : our_turn s → take_turn s = Ret true s.
Proof.
  intros Ht. unfold take_turn, bind, cget, gets. destruct (decide (lockfd (cn s) < 0)%Z); [done|].
  destruct Ht as [?|Hh]; [done|]. by rewrite Hh.
Qed.
Lemma closed_verb name s :
  no_socket s → our_turn s → length (c_str name) ≤ ZG_MAX_STRING →
  verb name s = Ret false (with_err closed_text s).
Proof.
  intros Hc Ht Hl. unfold verb, guardb, bind, cmod, modify. fold (with_err [] s).
  rewrite (our_turn_take (with_err [] s)) by done. by rewrite (closed_wr_std_string _ (with_err [] s)).
Qed.
Lemma closed_zg_result s : closed s → zg_result s = Ret None (with_err closed_text s).
Proof.
  intros Hc. unfold zg_result, bindo, bind, cget, gets. rewrite (proj2 Hc).
  unfold rd_u8, bindo, bind. by rewrite closed_rd by apply Hc.
Qed.

(** C25. After the connection is closed, zg_call, zg_compile, zg_echo,
    zg_isolate, zg_auto_commit, zg_commit, zg_rollback and zg_result say so and
    do nothing else, when their arguments are within the limits and there is no
    turn to take -- turns are not taken, or the connection has its own: each
    fails with `the connection is closed' and touches neither the world nor
    anything of the connection but its error.  Where there is a turn to take
    the call does more, and [dead_commit_keeps_turn] says what. *)
Theorem closed_says_so p suite text cap level on s :
  closed s → our_turn s →
  length (c_str p) ≤ ZG_MAX_STRING → length (c_str suite) ≤ ZG_MAX_TEXT →
  length (c_str text) ≤ ZG_MAX_STRING →
  let s' := with_err closed_text s in
  zg_call p s = Ret false s' ∧ zg_compile suite s = Ret false s' ∧ zg_echo text cap s = Ret None s' ∧
  zg_isolate level s = Ret false s' ∧ zg_auto_commit on s = Ret false s' ∧
  zg_commit s = Ret false s' ∧ zg_rollback s = Ret false s' ∧ zg_result s = Ret None s'.
Proof.
  intros Hc Ht Hp Hs Htx s'. pose proof (proj2 Hc) as He.
  assert (∀ name, length (c_str name) ≤ ZG_MAX_STRING → verb name s = Ret false s') as Hv.
  { intros. apply closed_verb; [apply Hc|done|done]. }
  assert (∀ (name : bytes) (k : M st bool),
    length (c_str name) ≤ ZG_MAX_STRING → (verb name &; k) s = Ret false s') as Hk.
  { intros name k Hl. unfold guardb, bind. by rewrite Hv. }
  split_and!; [|  | | | | | |by apply closed_zg_result].
  - unfold zg_call. rewrite decide_False by lia. unfold bind at 1, cget, gets. rewrite He.
    apply Hk. vm_compute; lia.
  - unfold zg_compile. rewrite decide_False by lia. apply Hk. vm_compute; lia.
  - unfold zg_echo. rewrite decide_False by lia. unfold guard, bind. rewrite Hv by (vm_compute; lia). done.
  - unfold zg_isolate. unfold bind at 1, cget, gets. rewrite He. apply Hk. vm_compute; lia.
  - unfold zg_auto_commit. unfold bind at 1, cget, gets. rewrite He. apply Hk. vm_compute; lia.
  - unfold zg_commit. unfold bind at 1, cget, gets. rewrite He. apply Hk. vm_compute; lia.
  - unfold zg_rollback. unfold bind at 1, cget, gets. rewrite He. apply Hk. vm_compute; lia.
Qed.

(** A dead connection can take the turn and keep it.  When turns are
    taken, the connection is closed, its turn was given back and the lock is
    free, [zg_commit] takes the lock before it finds there is nothing to
    write to, fails, and leaves the lock held. *)
Theorem dead_commit_keeps_turn q s :
  closed s → (0 ≤ lockfd (cn s))%Z → held (cn s) = false → lock_q (wd s) = LockGot :: q →
  wp zg_commit (λ ok s', ok = false ∧ err (cn s') = closed_text ∧ held (cn s') = true ∧ turn (wd s') = true)
     (λ _, False) s.
Proof.
  intros Hc Hl Hh Hq. pose proof (proj2 Hc) as He.
  set (s1 := St (set_held true (set_err [] (cn s))) (set_turn true (set_lock_q q (wd s)))).
  assert (take_turn (with_err [] s) = Ret true s1) as Ht.
  { unfold take_turn, bind, cget, gets. cbn [cn with_err set_err lockfd held]. rewrite Hh.
    rewrite decide_False by lia. unfold while. cbn [iter].
    unfold poll_turn, bind, sys, sys_flock_ex. cbn [with_err wd]. by rewrite Hq. }
  unfold wp, zg_commit, bind at 1, cget, gets. rewrite He. unfold simple_verb, guardb.
  unfold bind at 1, verb, guardb. unfold bind at 1, cmod, modify. fold (with_err [] s).
  unfold bind at 1. rewrite Ht. unfold bind at 1.
  rewrite closed_wr_std_string; [|apply Hc|vm_compute; lia]. done.
Qed.
End failures.

Lemma too_long_refused_witness :
  zg_call (replicate 256 (byte_of 97)) (toy []) = Ret false (with_err too_long_string (toy [])).
Proof.
  refine (proj1 (proj2 (proj1 (too_long_refused (replicate 256 (byte_of 97)) 8 (toy [])) _))).
  vm_compute. lia.
Defined.

Lemma oversize_answer_in_step_witness :
  talks (zg_echo $"hello" 3) (verb_bytes $"echo" ++ str_bytes $"hello") (DONE ++ str_bytes $"hello") None ∧
  talks (zg_read_text 3) [] (byte_of TDB_TEXT :: text_bytes $"hello") None.
Proof.
  destruct (oversize_answer_in_step $"hello" $"hello" 3) as [H1 H2]; [vm_compute; lia|simpl; lia|].
  assert (5 ≤ ZG_MAX_TEXT) as Ht by (unfold ZG_MAX_TEXT; lia).
  split; [apply H1; vm_compute; lia|exact (H2 Ht)].
Defined.

Lemma wide_vector_left_witness :
  talks (zg_read_dvector 1) [] (byte_of 124 :: be_bytes 4 2) None.
Proof. refine (proj1 (wide_vector_left [1; 2]%Z 1 _ _)); simpl; lia. Defined.

Lemma refusal_in_step_witness : talks (zg_call $"p") (call_bytes $"p") (DONE ++ [byte_of 9]) false.
Proof. refine (proj1 (refusal_in_step $"p" [] true SNAPSHOT 9 _ _ _ _)); [vm_compute; lia|apply Nat.le_0_l|lia|done]. Defined.

Lemma exception_closes_witness :
  wp (zg_call $"p") (λ ok s', ok = false ∧ fd (cn s') = (-1)%Z ∧
        err (cn s') = $"the server refused it: no such procedure") (λ _, False)
     (toy [DONE; byte_of 5 :: str_bytes $"no such procedure"]).
Proof.
  eapply wp_mono; [apply (exception_closes $"p" $"no such procedure" [] _ (ready_toy _))|..].
  - vm_compute. lia.
  - vm_compute. lia.
  - by vm_compute.
  - intros ok s' (-> & (Hf & _) & _ & He). split_and!; [done|done|]. rewrite He. by vm_compute.
  - done.
Defined.

Definition toy_closed : st := St (fresh_conn 1) (toy_world [] []).
Lemma closed_says_so_witness : zg_commit toy_closed = Ret false (with_err closed_text toy_closed).
Proof.
  refine (proj1 (proj2 (proj2 (proj2 (proj2 (proj2
    (closed_says_so [] [] [] 8 SNAPSHOT true toy_closed _ _ _ _ _)))))));
    [by split|by left|apply Nat.le_0_l..].
Defined.

Definition toy_closed_serial : st :=
  St (set_lockfd 9 (fresh_conn 1)) (set_lock_q [LockGot] (toy_world [] [])).
Lemma dead_commit_keeps_turn_witness :
  wp zg_commit (λ ok s', ok = false ∧ held (cn s') = true) (λ _, False) toy_closed_serial.
Proof.
  eapply wp_mono; [apply (dead_commit_keeps_turn [] toy_closed_serial); [by split|done|done|done]|..].
  - intros ok s' (-> & _ & Hh & _). done.
  - done.
Defined.
