(* ===== verification/Open.v ===== *)
(** * Opening a connection

    [dial], [zg_open] and [zg_reopen] against every answer of the resolver, of
    connect and of the handshake: which descriptors and TLS sessions are held
    afterwards, and what the greeting leaves. *)
From S2P Require Import Prelude Effect ByteOrder Tls World Conn Socket SocketFacts Proto Codec Toy Field Conversation.

Section dialling.
Context `{Engine} `{Platform} `{Hst : Host}.
Implicit Types s : st.
Implicit Types w : world.

(** Descriptors the kernel has given out are below the next one. *)
Definition fresh w : Prop := (0 ≤ next_fd w)%Z ∧ Forall (λ d, 0 ≤ d < next_fd w)%Z (fds w).

Lemma filter_fresh (l : list Z) (d : Z) : d ∉ l → filter (λ x, x ≠ d) l = l.
Proof.
  induction l as [|x l IH]; intros Hd; [done|]. apply not_elem_of_cons in Hd as [? ?].
  rewrite filter_cons_True by done. by rewrite IH.
Qed.
Lemma fresh_not_in w d : fresh w → (d < 0 ∨ next_fd w ≤ d)%Z → d ∉ fds w.
Proof. intros [_ Hf] Hd Hin. rewrite Forall_forall in Hf. specialize (Hf d Hin). lia. Qed.

Lemma close_new w f w1 w2 :
  fresh w → new_fd w = (f, w1) → fds w2 = fds w1 → next_fd w2 = next_fd w1 →
  fds (sys_close f w2) = fds w ∧ fresh (sys_close f w2).
Proof.
  intros Hf [= <- <-] Hd Hn. cbn in Hd, Hn. pose proof Hf as [Hz Hall].
  assert (fds (sys_close (next_fd w) w2) = fds w) as E.
  { cbn. rewrite Hd. rewrite filter_cons_False by naive_solver.
    apply filter_fresh, fresh_not_in; [done|lia]. }
  split; [done|]. split; [cbn; rewrite Hn; lia|]. rewrite E. cbn. rewrite Hn.
  eapply Forall_impl; [exact Hall|]. cbn. lia.
Qed.

Lemma connect_first_spec l w o w' :
  fresh w → connect_first l w = (o, w') →
  match o with
  | None => (fds w' = fds w ∧ fresh w')
  | Some f => (fds w' = f :: fds w) ∧ (f ∉ fds w) ∧ (0 ≤ f)%Z ∧ fresh w' ∧ sent w' = []
  end.
Proof.
  revert w. induction l as [|a l IH]; intros w Hf; cbn [connect_first]; [by intros [= <- <-]|].
  destruct a as [e|e|r t].
  - intros E. specialize (IH (set_errno e w) Hf E). exact IH.
  - destruct (new_fd w) as [f w1] eqn:En. intros E.
    destruct (close_new w f w1 (set_errno e w1) Hf En) as [Hd Hf1]; [done|done|].
    specialize (IH _ Hf1 E). by rewrite Hd in IH.
  - pose proof Hf as [Hz Hall]. intros [= <- <-]. cbn. split_and!; [done| |done| |done].
    + apply fresh_not_in; [done|lia].
    + split; [cbn; lia|]. cbn. apply Forall_cons. split; [lia|].
      eapply Forall_impl; [exact Hall|]. cbn. lia.
Qed.

(** ** The dial, a stage at a time *)

Definition others s : list Z := filter (λ d, d ≠ fd (cn s)) (fds (wd s)).

(** No socket, nothing buffered; [l] are the descriptors still open. *)
Definition blank (l : list Z) (cfg : option tls_options) s : Prop :=
  (fd (cn s) < 0)%Z ∧ tls (cn s) = None ∧ out (cn s) = [] ∧ inb (cn s) = [] ∧ pin (cn s) = 0 ∧
  fds (wd s) = l ∧ fresh (wd s) ∧ tls_cfg (wd s) = cfg.
Definition failed (l : list Z) s : Prop := (fd (cn s) < 0)%Z ∧ fds (wd s) = l.

Lemma fresh_filter w (d : Z) (l : list Z) n :
  fresh w → l = filter (λ x, x ≠ d) (fds w) → n = next_fd w →
  (0 ≤ n)%Z ∧ Forall (λ x, 0 ≤ x < n)%Z l.
Proof.
  intros [Hz Hf] -> ->. split; [done|]. apply Forall_forall. intros x Hx.
  apply list_elem_of_filter in Hx as [_ Hx]. rewrite Forall_forall in Hf. by apply Hf.
Qed.

Lemma wp_drop_tls s :
  wp drop_tls (λ _ s', cn s' = set_tls None (cn s) ∧ fds (wd s') = fds (wd s) ∧
                       next_fd (wd s') = next_fd (wd s) ∧ tls_cfg (wd s') = tls_cfg (wd s))
     (λ _, False) s.
Proof.
  unfold drop_tls, when. wp_step. apply wp_cget. destruct (tls (cn s)) as [h|] eqn:E.
  - wp_step. destruct tls_linked; [apply wp_wmod|apply wp_ret]; by apply wp_cmod.
  - apply wp_ret. split_and!; try done. by destruct s as [[] ?]; cbn in *; subst.
Qed.

Lemma wp_prologue {A} (k : M st A) Q B s :
  fresh (wd s) →
  (∀ s', blank (others s) (tls_cfg (wd s)) s' → embed (cn s') = embed (cn s) → wp k Q B s') →
  wp (drop_tls ;;
      f <- cget fd ;;
      when (bool_decide (0 ≤ f)%Z) close_socket ;;
      give_turn ;;
      cmod (λ c, set_transaction_id 0 (set_inb [] (set_pin 0 (set_out [] c)))) ;; k) Q B s.
Proof.
  intros Hf Hk. wp_step. eapply wp_mono; [apply wp_drop_tls| |done].
  intros _ s1 (Hc1 & Hd1 & Hn1 & Hg1). wp_step. apply wp_cget. wp_step.
  eapply wp_mono with (Q := λ _ s2, fds (wd s2) = others s ∧ fresh (wd s2) ∧ (fd (cn s2) < 0)%Z ∧
    tls (cn s2) = None ∧ embed (cn s2) = embed (cn s) ∧ tls_cfg (wd s2) = tls_cfg (wd s))
    (B := λ _, False); [| |done].
  - unfold when. case_bool_decide as Hp.
    + unfold close_socket. wp_step. apply wp_cget. wp_step. apply wp_wmod, wp_cmod.
      rewrite Hc1 in *. cbn -[filter]. rewrite Hd1. split_and!; try done.
      unfold fresh. cbn -[filter]. rewrite Hd1, Hn1. by apply (fresh_filter (wd s) (fd (cn s))).
    + apply wp_ret. rewrite Hc1 in *. cbn in Hp |- *.
      assert (others s = fds (wd s)) as -> by (apply filter_fresh, fresh_not_in; [done|lia]).
      split_and!; try done; [|lia]. destruct Hf. split; [by rewrite Hn1|by rewrite Hd1, Hn1].
  - intros _ s2 (Hd2 & Hf2 & Hfd2 & Ht2 & He2 & Hg2). wp_step.
    unfold give_turn. wp_step. apply wp_cget. wp_step. apply wp_cget.
    case_decide; [wp_step; apply wp_wmod, wp_cmod|apply wp_ret]; cbv beta; wp_step; apply wp_cmod, Hk;
      first [done | unfold blank; by split_and!].
Qed.

(** Connected, nothing said yet; [l] are the descriptors other than ours. *)
Definition connected (l : list Z) s : Prop :=
  (0 ≤ fd (cn s))%Z ∧ fd (cn s) ∉ l ∧ fds (wd s) = (fd (cn s) :: l) ∧ fresh (wd s) ∧
  out (cn s) = [] ∧ inb (cn s) = [] ∧ pin (cn s) = 0.
Definition as_configured (cfg : option tls_options) s : Prop :=
  (tls (cn s) = None ∨ tls_openssl = true) ∧ (is_Some cfg → is_Some (tls (cn s))).

Lemma wp_close_socket l s :
  connected l s → wp close_socket (λ _ s', failed l s' ∧ cn s' = set_fd (-1) (cn s)) (λ _, False) s.
Proof.
  intros (Hp & Hn & Hd & _). unfold close_socket. wp_step. apply wp_cget. wp_step. apply wp_wmod, wp_cmod.
  split; [|done]. split; [done|]. cbn -[filter]. rewrite Hd, filter_cons_False by naive_solver.
  by apply filter_fresh.
Qed.

Lemma wp_secure l cfg host s :
  connected l s → tls (cn s) = None → tls_cfg (wd s) = cfg →
  wp (secure host)
     (λ ok s', if ok then connected l s' ∧ as_configured cfg s' ∧ embed (cn s') = embed (cn s)
               else failed l s') (λ _, True) s.
Proof.
  intros Hc Ht Hg. unfold secure. wp_step. apply wp_wget. rewrite Hg. destruct cfg as [o|].
  2:{ apply wp_ret. split; [done|]. split; [|done]. split; [by left|by intros []]. }
  destruct tls_linked.
  2:{ wp_step. eapply wp_mono; [by apply wp_close_socket| |done]. intros _ s1 [Hf _].
      by apply wp_say. }
  wp_step. apply wp_cget. wp_step.
  eapply wp_mono with (B := λ _, True)
    (Q := λ t s1, cn s1 = cn s ∧ fds (wd s1) = fds (wd s) ∧ fresh (wd s1) ∧
                  (is_Some (match t with inl h => Some h | inr _ => None end) → tls_openssl = true)); [| |done].
  - unfold sys_tls_open, wp, sys. destruct tls_openssl eqn:Eo.
    + destruct (hs_q (wd s)); [done|].
      destruct (coco_client_tls_open _ _ _ _ _) as [[] b]; split_and!; done || apply Hc.
    + cbn. split_and!; [done|done|apply Hc|by intros []].
  - intros t s1 (Hc1 & Hd1 & Hf1 & Ho).
    assert (connected l s1) as Hcon1.
    { unfold connected in *. rewrite Hc1, Hd1. split_and!; try apply Hc; done. }
    destruct t as [h|e].
    + wp_step. apply wp_cmod, wp_ret. cbn. split; [exact Hcon1|]. split; [|by rewrite Hc1].
      split; [right; apply Ho; by eexists|by eexists].
    + wp_step. apply wp_cmod. wp_step.
      eapply wp_mono; [by apply (wp_close_socket l (St (set_err e (cn s1)) (wd s1)))| |done].
      intros _ s2 [Hf _]. by apply wp_ret.
Qed.

(** What a dial leaves: a connection that has been greeted and is its only
    descriptor, or none. *)
Definition dialled (l : list Z) (cfg : option tls_options) s : Prop :=
  wf s ∧ open s ∧ fds (wd s) = (fd (cn s) :: l) ∧ fd (cn s) ∉ l ∧ as_configured cfg s ∧ err (cn s) = [].

Lemma wp_dial host service s :
  fresh (wd s) →
  wp (dial host service)
     (λ ok s', if ok then dialled (others s) (tls_cfg (wd s)) s' ∧ embed (cn s') = embed (cn s)
               else failed (others s) s') (λ _, True) s.
Proof.
  intros Hfr. apply wp_prologue; [done|]. intros s1 (Hf & Ht & Hout & Hin & Hpin & Hd & Hfr1 & Hg) He.
  set (l := others s) in *. wp_step.
  unfold wp at 1, sys, sys_getaddrinfo. destruct (dial_q (wd s1)) as [|d q]; [done|].
  destruct d as [rc|addrs]; [by apply wp_say2|]. wp_step. unfold wp at 1, sysp. cbn [cn wd].
  destruct (connect_first addrs (set_dial_q q (wd s1))) as [o w] eqn:Ec.
  assert (tls_cfg w = tls_cfg (wd s)) as Hg2.
  { rewrite <- Hg. clear -Ec. change (tls_cfg (wd s1)) with (tls_cfg (set_dial_q q (wd s1))).
    revert Ec. generalize (set_dial_q q (wd s1)). induction addrs as [|[e|e|r t] addrs IH]; intros w0; cbn;
      [by intros [= _ <-]|intros E; by apply IH in E..|by intros [= _ <-]]. }
  apply connect_first_spec in Ec; [|done]. cbn in Ec. destruct o as [f|].
  2:{ destruct Ec as [Ed _]. wp_step. apply wp_wget, wp_say2. split; [done|]. cbn. by rewrite Ed. }
  destruct Ec as (Ed & Hnf & Hpos & Hfr2 & _). rewrite Hd in Ed, Hnf.
  wp_step. apply wp_cmod. wp_step. eapply wp_mono; [apply (wp_secure l (tls_cfg (wd s)))| |done]; [by split_and!|done..|].
  intros [] s2; [|done]. intros ((Hp2 & Hn2 & Hd2 & Hfr3 & Ho2 & Hi2 & Hpi2) & [Htl Hcfg] & He2).
  assert (wf s2) as Hwf2.
  { unfold wf. rewrite Ho2, Hi2, Hpi2. split_and!; try done; simpl; lia. }
  unfold rd_sz, rd_be. wp_step. wp_step. eapply wp_mono; [by apply wp_rd| |done].
  intros [b|] s3 Hgot.
  - destruct Hgot as (Hm & Hwf3 & _). apply wp_ret. wp_step. apply wp_cmod, wp_ret. split; [|].
    + unfold dialled, as_configured, open. cbn. rewrite (moved_fds _ _ Hm), (moved_fd _ _ Hm), (moved_tls _ _ Hm).
      by split_and!.
    + cbn. by rewrite (moved_embed _ _ Hm), He2.
  - destruct Hgot as [(Hfd & _ & _ & _ & _ & _ & _ & _ & Hds & _) _].
    unfold close_socket. wp_step. wp_step. apply wp_cget. wp_step. apply wp_wmod, wp_cmod, wp_ret.
    split; [done|]. cbn -[filter]. rewrite Hds, Hfd, Hd2, filter_cons_False by naive_solver.
    rewrite (filter_fresh l) by done. apply filter_fresh. subst l.
    intros Hin1. apply list_elem_of_filter in Hin1 as [_ Hin1]. destruct Hfr as [_ Hall].
    rewrite Forall_forall in Hall. specialize (Hall _ Hin1). lia.
Qed.
End dialling.

Section opening.
Context `{Engine} `{Platform} `{Hst : Host}.
Implicit Types s : st.

(** C16. Opening takes one descriptor or none, and TLS when told to.  Whatever
    the resolver, the kernel, OpenSSL and the server do -- addresses that do
    not connect before one that does, a refused handshake, a greeting that
    never arrives whole -- [zg_open] either answers a connection that is open
    and greeted, whose socket is the only descriptor it added, and which has
    a TLS session whenever the process was configured for TLS; or answers the
    reason and leaves exactly the descriptors there were. *)
Theorem open_takes_one_or_none id host service s :
  fresh (wd s) →
  wp (zg_open id host service)
     (λ o s', match o with
              | None => usable s' ∧ fds (wd s') = (fd (cn s') :: fds (wd s)) ∧ fd (cn s') ∉ fds (wd s) ∧
                        (is_Some (tls_cfg (wd s)) → is_Some (tls (cn s'))) ∧ err (cn s') = []
              | Some _ => fds (wd s') = fds (wd s)
              end) (λ _, True) s.
Proof.
  intros Hf. unfold zg_open. wp_step. unfold wp at 1, sysp.
  destruct (sys_malloc (wd s)) as [ok w] eqn:Em.
  assert (fds w = fds (wd s) ∧ fresh w ∧ tls_cfg w = tls_cfg (wd s)) as (Hd & Hfw & Hg).
  { unfold sys_malloc in Em. destruct (malloc_q (wd s)); by injection Em as <- <-. }
  destruct ok; [|by apply wp_ret]. wp_step. apply wp_cmod. wp_step.
  set (s0 := St (fresh_conn id) w).
  assert (others s0 = fds (wd s)) as Ho.
  { unfold others, s0. cbn -[filter]. rewrite Hd. apply filter_fresh.
    rewrite <- Hd. apply fresh_not_in; [done|]. left. done. }
  eapply wp_mono; [by apply (wp_dial host service s0)| |done]. rewrite Ho. cbn. rewrite Hg.
  intros [] s1.
  - intros [(Hwf & Hop & Hds & Hn & [Ht Hc] & He) Hem]. apply wp_ret. by split_and!.
  - intros [Hneg Hds]. wp_step. apply wp_cget, wp_ret. done.
Qed.

(** C29. Dialling again replaces the socket.  [zg_reopen] of a connection
    whose socket, if it has one, is among the open descriptors closes that
    socket and takes one new descriptor or none, every other descriptor
    staying as it was; and the new connection is as secure as the process is
    configured to be. *)
Theorem reopen_replaces host service s :
  fresh (wd s) → embed (cn s) = false →
  wp (zg_reopen host service)
     (λ ok s', let rest := filter (λ d, d ≠ fd (cn s)) (fds (wd s)) in
        if ok then usable s' ∧ fds (wd s') = (fd (cn s') :: rest) ∧ fd (cn s') ∉ rest ∧
                   (is_Some (tls_cfg (wd s)) → is_Some (tls (cn s')))
        else fds (wd s') = rest ∧ (fd (cn s') < 0)%Z) (λ _, True) s.
Proof.
  intros Hf He. unfold zg_reopen. wp_step. apply wp_cget. rewrite He.
  eapply wp_mono; [by apply wp_dial| |done]. intros [] s1.
  - intros [(Hwf & Hop & Hds & Hn & [Ht Hc] & _) Hem]. rewrite He in Hem. by split_and!.
  - by intros [? ?].
Qed.

End opening.

(** A process configured for TLS whose server accepts the handshake and closes
    without a greeting. *)
Definition toy_mute : st :=
  St (fresh_conn 0)
     (set_tls_cfg (Some (TlsOptions None None None None None false))
        (set_hs_q [toy_ossl []]
           (set_dial_q [GaiList [NoConnect 111; Connected [RxData []] []]] (toy_world [] [])))).

(** The open fails, and the session it opened is never closed. *)
Example failed_greeting_leaks_tls :
  answers_with (zg_open 1 $"h" $"2110") toy_mute (λ o s', is_Some o ∧ is_Some (handles (wd s') !! 0)).
Proof. vm_compute. split; by eexists. Qed.

Definition toy_greeted : st :=
  St (fresh_conn 0)
     (set_dial_q [GaiList [NoConnect 111; Connected [RxData (be_bytes 8 77)] []]] (toy_world [] [])).

Lemma fresh_toy : fresh (wd toy_greeted).
Proof. split; [cbn; lia|]. apply Forall_cons. split; [cbn; lia|by apply Forall_nil]. Qed.

Lemma open_takes_one_or_none_witness :
  answers (zg_open 1 $"h" $"2110") toy_greeted = Some None ∧
  wp (zg_open 1 $"h" $"2110")
     (λ o s', if o is Some _ then fds (wd s') = [3%Z] else fds (wd s') = [fd (cn s'); 3%Z])
     (λ _, True) toy_greeted.
Proof.
  split; [by vm_compute|].
  eapply wp_mono; [apply (open_takes_one_or_none 1 $"h" $"2110" _ fresh_toy)| |done].
  intros [e|] s' Hs; [exact Hs|]. apply Hs.
Defined.

Lemma reopen_replaces_witness :
  let s := St (set_fd 3 (fresh_conn 1)) (wd toy_greeted) in
  answers (zg_reopen $"h" $"2110") s = Some true ∧
  wp (zg_reopen $"h" $"2110") (λ ok s', ok = true → fds (wd s') = [fd (cn s')]) (λ _, True) s.
Proof.
  split; [by vm_compute|].
  eapply wp_mono; [apply (reopen_replaces $"h" $"2110" (St (set_fd 3 (fresh_conn 1)) (wd toy_greeted)) fresh_toy eq_refl)| |done].
  intros [] s' Hs; [|done]. intros _. apply Hs.
Defined.
