(* ===== verification/Session.v ===== *)
(** * The embedded engine's sessions

    client/zigurat.c keeps, for each thread, a list of sessions with the
    embedded engine, one for each connection that thread has used.  This is
    what makes the handle safe to share: no thread ever reaches another's. *)
From S2P Require Import Prelude Effect ByteOrder Tls World Conn Socket SocketFacts Proto Codec Toy Field Conversation Turn Zigurat Failures.

Section session.
Context `{Engine} `{Platform} `{Hst : Host}.
Implicit Types s : st.

(** Session of thread [t] for connection [id]. *)
Definition session_at (w : world) (t id : nat) : option nat :=
  slot_find id (default [] (sessions w !! t)).

Lemma session_here (w : world) id : session_at w (self w) id = slot_find id (slots_of w).
Proof. done. Qed.

Lemma ce_of_cases s :
  wp ce_of (λ o s',
      cn s' = cn s ∧ self (wd s') = self (wd s) ∧ rx (wd s') = rx (wd s) ∧ tx (wd s') = tx (wd s) ∧
      sent (wd s') = sent (wd s) ∧ fds (wd s') = fds (wd s) ∧
      match slot_find (c_id (cn s)) (slots_of (wd s)) with
      | Some ce => o = Some ce ∧ s' = s
      | None => match o with
                | Some ce => sessions (wd s') = <[self (wd s) := (c_id (cn s), ce) :: slots_of (wd s)]> (sessions (wd s))
                | None => sessions (wd s') = sessions (wd s)
                end
      end) (λ _, False) s.
Proof.
  unfold ce_of. wp_step. apply wp_cget. wp_step. apply wp_wget.
  destruct (slot_find _ _) as [ce|] eqn:E; [apply wp_ret; by split_and!|].
  destruct ce_linked; [|apply wp_ret; by split_and!]. wp_step. unfold wp at 1, sysp.
  assert (∃ b w, sys_malloc (wd s) = (b, w) ∧ self w = self (wd s) ∧ rx w = rx (wd s) ∧ tx w = tx (wd s) ∧
    sent w = sent (wd s) ∧ fds w = fds (wd s) ∧ sessions w = sessions (wd s)) as (b & w & -> & Hw).
  { unfold sys_malloc. destruct (malloc_q (wd s)) as [|b q]; do 2 eexists; by split_and!. }
  destruct Hw as (Hse & Hr & Ht & Hsn & Hf & Hss).
  destruct b; [|apply wp_ret; by split_and!]. wp_step. apply wp_wget. wp_step.
  unfold wp at 1, sysp, engine_do. cbn [cn wd]. destruct (ce_session_new _ _) as [[ce|] e].
  - wp_step. apply wp_wmod, wp_ret. unfold set_slots. cbn. split_and!; congruence.
  - apply wp_ret. by split_and!.
Qed.

(** C26. A thread has one session for each connection, and keeps it.  Asking
    for the session finds the one this thread has for this connection, or
    begins one that the next ask finds again without beginning another; the
    sessions of other threads, and this thread's for other connections, are
    as they were, and nothing is sent or received. *)
Theorem session_kept s :
  wp ce_of (λ o s',
      cn s' = cn s ∧ sent (wd s') = sent (wd s) ∧
      (∀ ce, session_at (wd s) (self (wd s)) (c_id (cn s)) = Some ce → o = Some ce ∧ s' = s) ∧
      (∀ ce, o = Some ce → ce_of s' = Ret (Some ce) s') ∧
      (∀ t id, t ≠ self (wd s) ∨ id ≠ c_id (cn s) → session_at (wd s') t id = session_at (wd s) t id))
     (λ _, False) s.
Proof.
  eapply wp_mono; [apply ce_of_cases| |done].
  intros o s' (Hc & Hself & _ & _ & Hse & _ & Hcase). rewrite session_here.
  assert (∀ ce, slot_find (c_id (cn s)) (slots_of (wd s')) = Some ce → ce_of s' = Ret (Some ce) s') as Hagain.
  { intros ce E. unfold ce_of, bind, cget, wget, gets. by rewrite Hc, E. }
  destruct (slot_find (c_id (cn s)) (slots_of (wd s))) as [ce|] eqn:E.
  - destruct Hcase as [-> ->]. split_and!; try done.
    + intros ce2 E2. apply Hagain. by rewrite E.
  - split_and!; [done..| |].
    + intros ce ->. apply Hagain. unfold slots_of. rewrite Hself, Hcase, lookup_insert_eq. cbn.
      by rewrite decide_True.
    + intros t id Hor. destruct o as [ce|]; [|unfold session_at; by rewrite Hcase].
      unfold session_at. rewrite Hcase. destruct (decide (t = self (wd s))) as [->|Ht].
      * rewrite lookup_insert_eq. cbn. rewrite decide_False by naive_solver. done.
      * by rewrite lookup_insert_ne by done.
Qed.

Lemma slot_remove_spec id l :
  NoDup l.*1 →
  let '(o, l') := slot_remove id l in
  o = slot_find id l ∧ slot_find id l' = None ∧ (∀ j, j ≠ id → slot_find j l' = slot_find j l) ∧
  (∀ x, x ∈ l'.*1 → x ∈ l.*1) ∧ NoDup l'.*1.
Proof.
  induction l as [|[c ce] l IH]; intros Hnd; cbn [slot_remove]; [by split_and!|].
  cbn in Hnd. apply NoDup_cons in Hnd as [Hc Hnd]. specialize (IH Hnd).
  cbn [slot_find]. destruct (decide (c = id)) as [->|Hne].
  - split_and!; try done.
    + destruct (slot_find id l) eqn:E; [|done]. exfalso. apply Hc. clear -E.
      induction l as [|[c' ce'] l IH]; cbn in *; [done|]. case_decide; [subst; left|right; auto].
    + intros j Hj. by rewrite decide_False.
    + intros x Hx. by right.
  - destruct (slot_remove id l) as [o l']. destruct IH as (H1 & H2 & H3 & H4 & H5).
    cbn. rewrite decide_False by done. split_and!; try done.
    + intros j Hj. case_decide; [done|]. by apply H3.
    + intros x [->|Hx]%elem_of_cons; [by left|right; by apply H4].
    + apply NoDup_cons. split; [|done]. intros Hx. by apply Hc, H4.
Qed.

(** C27. Closing an embedded handle ends this thread's session for it and no
    other.  [zg_close] frees the session this thread has for the connection,
    if it has one, forgets it, and leaves every other slot of every thread as
    it was. *)
Theorem close_forgets_session s :
  embed (cn s) = true → NoDup (slots_of (wd s)).*1 →
  wp zg_close (λ _ s',
      session_at (wd s') (self (wd s)) (c_id (cn s)) = None ∧
      (∀ t id, t ≠ self (wd s) ∨ id ≠ c_id (cn s) → session_at (wd s') t id = session_at (wd s) t id) ∧
      engine (wd s') = ce_engine_close
        (match session_at (wd s) (self (wd s)) (c_id (cn s)) with
         | Some ce => ce_session_free ce (engine (wd s)) | None => engine (wd s) end))
     (λ _, False) s.
Proof.
  intros He Hnd. unfold zg_close. wp_step. apply wp_cget. rewrite He. wp_step.
  unfold ce_forget. wp_step. apply wp_cget. wp_step. apply wp_wget.
  rewrite session_here. pose proof (slot_remove_spec (c_id (cn s)) _ Hnd) as Hr.
  destruct (slot_remove _ _) as [o l'] eqn:El. destruct Hr as (<- & H2 & H3 & _).
  destruct o as [ce|].
  - wp_step. apply wp_wmod, wp_wmod, wp_wmod. cbn. unfold session_at, set_slots. cbn.
    rewrite lookup_insert_eq. split_and!; [done| |done].
    intros t id Hor. destruct (decide (t = self (wd s))) as [->|Ht].
    + rewrite lookup_insert_eq. cbn. apply H3. naive_solver.
    + by rewrite lookup_insert_ne by done.
  - apply wp_ret, wp_wmod. cbn. split_and!; [|done..].
    assert (slot_find (c_id (cn s)) (slots_of (wd s)) = None) as Hn; [|exact Hn].
    assert (∀ l, (slot_remove (c_id (cn s)) l).1 = slot_find (c_id (cn s)) l) as Hrf.
    { clear. induction l as [|[c ce] l IH]; cbn; [done|]. case_decide; [done|].
      by destruct (slot_remove _ l). }
    rewrite <- Hrf. by rewrite El.
Qed.

(** ** The embedded handle never touches a socket *)

Definition quiet s s' : Prop :=
  cn s' = set_err (err (cn s')) (cn s) ∧ rx (wd s') = rx (wd s) ∧ tx (wd s') = tx (wd s) ∧
  sent (wd s') = sent (wd s) ∧ fds (wd s') = fds (wd s).
Definition quietly {A} (m : M st A) : Prop := ∀ s,
  embed (cn s) = true → wp m (λ _ s', quiet s s') (λ _, False) s.

Lemma quiet_refl s : quiet s s.
Proof. split_and!; try done. by destruct s as [[] ?]. Qed.
Lemma quiet_trans s s1 s2 : quiet s s1 → quiet s1 s2 → quiet s s2.
Proof.
  intros (E1 & ? & ? & ? & ?) (E2 & ? & ? & ? & ?). split_and!; try congruence.
  rewrite E2. rewrite E1 at 1. done.
Qed.
Lemma quietly_bind {A B} (m : M st A) (k : A → M st B) :
  quietly m → (∀ a, quietly (k a)) → quietly (bind m k).
Proof.
  intros Hm Hk s He. wp_step. eapply wp_mono; [by apply Hm| |done]. intros a s1 Ha.
  eapply wp_mono; [apply Hk| |done].
  - destruct Ha as [-> _]. exact He.
  - intros b s2 Hb. by apply (quiet_trans _ s1).
Qed.
Lemma quietly_ret {A} (a : A) : quietly (ret a).
Proof. intros s _. apply wp_ret, quiet_refl. Qed.
Lemma quietly_wget {A} (f : world → A) : quietly (wget f).
Proof. intros s _. apply wp_wget, quiet_refl. Qed.
Lemma quietly_say what : quietly (say what).
Proof. intros s _. apply wp_say. by split_and!. Qed.
Lemma quietly_failo {A} m : quietly m → quietly (failo (A:=A) m).
Proof. intros Hm. apply quietly_bind; [done|intros; apply quietly_ret]. Qed.
Lemma quietly_ce_of : quietly ce_of.
Proof.
  intros s _. eapply wp_mono; [apply ce_of_cases| |done].
  intros o s' (Hc & _ & ? & ? & ? & ? & _). split_and!; try done. rewrite Hc. by destruct (cn s).
Qed.
Lemma quietly_engine {A} (f : eng → A * eng) : quietly (sysp (engine_do f)).
Proof.
  intros s _. unfold wp, sysp, engine_do. destruct (f _) as [a e].
  split_and!; try done. by destruct s as [[] ?].
Qed.
Lemma quietly_emb f : quietly (emb f).
Proof.
  apply quietly_bind; [apply quietly_ce_of|]. intros [ce|]; [|apply quietly_say].
  apply quietly_bind; [apply quietly_engine|]. intros []; [apply quietly_ret|].
  apply quietly_bind; [apply quietly_wget|]. intros e. apply quietly_say.
Qed.
Lemma quietly_embo {A} (f : nat → eng → option A * eng) : quietly (embo f).
Proof.
  apply quietly_bind; [apply quietly_ce_of|]. intros [ce|]; [|apply quietly_failo, quietly_say].
  apply quietly_bind; [apply quietly_engine|]. intros [a|]; [apply quietly_ret|].
  apply quietly_bind; [apply quietly_wget|]. intros e. apply quietly_failo, quietly_say.
Qed.
Lemma quietly_wire {A} (m1 m2 : M st A) :
  quietly m1 → quietly (e <- cget embed ;; if (e : bool) then m1 else m2).
Proof. intros Hm s He. wp_step. apply wp_cget. rewrite He. by apply Hm. Qed.

(** C28. An embedded handle stays in this process.  On a connection opened with
    [zg_open_embed], calls, transactions, results, fields and turns go to the
    engine: none of them sends, receives, opens or closes anything, none of
    them can wait, and of the connection only the error text changes. *)
Theorem embedded_stays_here p level on cap path wait host service :
  quietly (zg_call p) ∧ quietly (zg_call_send p) ∧ quietly (zg_call_wait p) ∧
  quietly zg_result ∧ quietly (zg_columns cap) ∧ quietly zg_skip_field ∧
  quietly zg_commit ∧ quietly zg_rollback ∧ quietly (zg_isolate level) ∧ quietly (zg_auto_commit on) ∧
  quietly (zg_read_string cap) ∧ quietly zg_read_text_alloc ∧ quietly (zg_read_dvector cap) ∧
  quietly (zg_serialise path wait) ∧ quietly (zg_reopen host service).
Proof.
  assert (quietly (zg_call p)) as Hcall.
  { unfold zg_call. case_decide; [apply quietly_say|apply quietly_wire, quietly_emb]. }
  split_and!; try exact Hcall;
    try (apply quietly_wire; first [apply quietly_emb | apply quietly_embo | apply quietly_ret | exact Hcall]).
  - apply quietly_wire, quietly_bind; [apply quietly_embo|]. intros []; apply quietly_ret.
  - apply quietly_wire, quietly_bind; [apply quietly_embo|]. intros []; apply quietly_ret.
  - apply quietly_wire, quietly_bind; [apply quietly_embo|]. intros []; apply quietly_ret.
Qed.

(** The calls with no embedded branch: they find no socket and say so. *)
Lemma embedded_not_offered b bits cap suite s :
  embed (cn s) = true → (fd (cn s) < 0)%Z → (lockfd (cn s) < 0)%Z → length (c_str suite) ≤ ZG_MAX_STRING →
  let s' := with_err closed_text s in
  zg_write_bool b s = Ret false s' ∧ zg_write_double bits s = Ret false s' ∧
  zg_read_bool s = Ret None s' ∧ zg_read_double s = Ret None s' ∧ zg_echo suite cap s = Ret None s'.
Proof.
  intros He Hf Hl Hs s'.
  assert (∀ p t, wr p (St (set_err t (cn s)) (wd s)) = Ret false s') as Hw.
  { intros p t. unfold wr, bind, cget, gets. by rewrite decide_True. }
  assert (∀ n, rd n s = Ret None s') as Hr.
  { intros n. unfold rd, bind, cget, gets. by rewrite decide_True. }
  assert (∀ p, wr p s = Ret false s') as Hws.
  { intros p. unfold wr, bind, cget, gets. by rewrite decide_True. }
  split_and!.
  - unfold zg_write_bool, wr_field, wr_u8, guardb, bind. by rewrite Hws.
  - unfold zg_write_double, wr_field, wr_u8, guardb, bind. by rewrite Hws.
  - unfold zg_read_bool, rd_scalar, field_head, rd_u8, bindo, bind. by rewrite Hr.
  - unfold zg_read_double, rd_scalar, field_head, rd_u8, bindo, bind. by rewrite Hr.
  - unfold zg_echo. rewrite decide_False by lia. unfold guard, bind.
    by rewrite closed_verb; [|done|left|vm_compute; lia].
Qed.
End session.

Definition toy_embedded : st :=
  St (set_embed true (fresh_conn 1)) (set_sessions {[ 0 := [(1, 5); (2, 6)]; 8 := [(1, 7)] ]} (toy_world [] [])).

Lemma close_forgets_session_witness :
  wp zg_close (λ _ s', session_at (wd s') 0 1 = None ∧ session_at (wd s') 0 2 = Some 6 ∧
                       session_at (wd s') 8 1 = Some 7) (λ _, False) toy_embedded.
Proof.
  eapply wp_mono; [apply (close_forgets_session toy_embedded eq_refl)|..].
  - apply (bool_decide_unpack _). by vm_compute.
  - intros _ s' (H1 & H2 & _). split; [exact H1|].
    split; rewrite H2; (by vm_compute) || (cbn; lia) || (right; cbn; lia) || (left; cbn; lia).
  - done.
Defined.
