(* ===== verification/Zeytun.v ===== *)
(** * client/zeytun.c: pages over HTTP

    One GET at a time over a socket of its own, plain or TLS, and the two text
    conversions around it.  The outside world is World.v's. *)
From S2P Require Import Prelude Effect Tls World.

Definition CRLF : bytes := [byte_of 13; byte_of 10].
Definition BLANK : bytes := CRLF ++ CRLF.
Definition REQUEST_SIZE : nat := 2048.

(** [zt_conn], with the world around it and the caller's error buffer. *)
Record zt_conn := ZtConn { zfd : Z; ztls : option nat }.

Section zeytun.
Context `{Engine} `{Platform}.

Record zst := Zst {
  zc : zt_conn;
  zw : world;
  zerr : bytes; (** the caller's error buffer *)
  zcfg : option tls_options (** zeytun.c's own [g_tls], when its [g_tls_on] *)
}.

Definition zget {A} (f : zst → A) : M zst A := gets f.
Definition zset_c (c : zt_conn) : M zst unit := modify (λ s, Zst c (zw s) (zerr s) (zcfg s)).
Definition zmod_w (f : world → world) : M zst unit := modify (λ s, Zst (zc s) (f (zw s)) (zerr s) (zcfg s)).
Definition zset_err (e : bytes) : M zst unit := modify (λ s, Zst (zc s) (zw s) e (zcfg s)).
Definition zsysp {A} (f : world → A * world) : M zst A := λ s,
  let '(a, w) := f (zw s) in Ret a (Zst (zc s) w (zerr s) (zcfg s)).
Definition zsys {A} (f : world → option (A * world)) : M zst A := λ s,
  match f (zw s) with
  | Some (a, w) => Ret a (Zst (zc s) w (zerr s) (zcfg s))
  | None => Block s
  end.

(** [fail], into a buffer of [cap] bytes ([None]: the caller gave none). *)
Definition fail (cap : option nat) (what : bytes) (detail : option bytes) : M zst bool :=
  match cap with
  | Some (S _ as cap) =>
      zset_err (match detail with
                | Some d => snprintf_ss cap what d
                | None => snprintf_s cap what
                end)
  | _ => ret tt
  end ;; ret false.
Definition failing {A} (m : M zst bool) : M zst (option A) := m ;; ret None.

Definition zt_dial (cap : option nat) : M zst (option Z) :=
  d <- zsys sys_getaddrinfo ;;
  match d with
  | GaiFail rc => failing (fail cap $"cannot resolve" (Some (gai_strerror rc)))
  | GaiList l =>
      o <- zsysp (connect_first l) ;;
      match o with
      | Some f => ret (Some f)
      | None => e <- zget (λ s, errno (zw s)) ;; failing (fail cap $"cannot connect" (Some (strerror e)))
      end
  end.

Definition zt_write (p : bytes) : M zst (option nat) :=
  c <- zget zc ;;
  match ztls c with
  | Some h => zsys (coco_client_tls_send h p)
  | None => zsys (sys_send p)
  end.
Definition zt_read (n : nat) : M zst (option bytes) :=
  c <- zget zc ;;
  match ztls c with
  | Some h => zsys (coco_client_tls_recv h n)
  | None => zsys (sys_recv n)
  end.
Definition zt_hangup : M zst unit :=
  c <- zget zc ;;
  match ztls c with Some h => zmod_w (coco_client_tls_close h) | None => ret tt end ;;
  when (bool_decide (0 ≤ zfd c)%Z) (zmod_w (sys_close (zfd c))) ;;
  zset_c (ZtConn (-1) None).

(** ** Reading a response *)

(** [strtol(s, NULL, 10)]: blanks, a sign, digits. *)
Fixpoint digits (acc : Z) (b : bytes) : Z :=
  match b with
  | [] => acc
  | x :: r => let c := byte_val x in
      if decide (48 ≤ c ≤ 57)%Z then digits (acc * 10 + (c - 48))%Z r else acc
  end.
Fixpoint strtol (b : bytes) : Z :=
  match b with
  | [] => 0
  | x :: r => let c := byte_val x in
      if decide (c = 32 ∨ 9 ≤ c ≤ 13)%Z then strtol r
      else if decide (c = 45)%Z then Z.max (- 2 ^ 63) (- digits 0 r)
      else if decide (c = 43)%Z then Z.min (2 ^ 63 - 1) (digits 0 r)
      else Z.min (2 ^ 63 - 1) (digits 0 b)
  end.

Fixpoint strchr (b : bytes) (c : byte) : option nat :=
  match b with
  | [] => None
  | x :: r => if decide (x = c) then Some 0 else S <$> strchr r c
  end.

(** What [slurp] knows of the response so far: [buf] holds [len] bytes. *)
Record page := Page { buf : bytes; pcap : nat; header_len : nat; content_length : Z }.

(** The length the headers of a C string [b] announce. *)
Definition announced (b : bytes) : option Z :=
  cl ← match strstr b (CRLF ++ $"Content-Length:") with
       | Some n => Some n
       | None => strstr b (CRLF ++ $"content-length:")
       end;
  let from := drop (cl + 2) b in
  k ← strchr from (byte_of 58);
  Some (strtol (drop (k + 1) from)).

(** The headers looked for, once. *)
Definition look (p : page) : page :=
  if decide (header_len p = 0) then
    let b := c_str (buf p) in
    match strstr b BLANK with
    | Some n =>
        Page (buf p) (pcap p) (n + 4)
             (match announced b with Some z => z | None => content_length p end)
    | None => p
    end
  else p.

(** [while (len + 4096 > ncap) ncap *= 2;] *)
Fixpoint grow (fuel : nat) (len ncap : nat) : nat :=
  match fuel with
  | O => ncap
  | S fuel => if decide (ncap < len + 4096) then grow fuel len (ncap * 2) else ncap
  end.

Definition complete (p : page) : bool :=
  bool_decide (0 < header_len p ∧ (0 ≤ content_length p)%Z ∧
               header_len p + Z.to_nat (content_length p) ≤ length (buf p)).

Definition slurp_round (cap : option nat) (p : page) : M zst (page + option bytes) :=
  if complete p then ret (inr (Some (buf p)))
  else
    let full := bool_decide (pcap p < length (buf p) + 4096) in
    ok <- (if full then zsysp sys_malloc else ret true) ;;
    if (ok : bool) then
      let pcap' := if full then grow (length (buf p)) (length (buf p)) (pcap p * 2) else pcap p in
      k <- zt_read (pcap' - length (buf p) - 1) ;;
      match k with
      | Some [] => ret (inr (Some (buf p)))
      | None =>
          e <- zget (λ s, errno (zw s)) ;;
          if decide (e = EINTR) then ret (inl (Page (buf p) pcap' (header_len p) (content_length p)))
          else fail cap $"read failed" (Some (strerror e)) ;; ret (inr None)
      | Some b => ret (inl (look (Page (buf p ++ b) pcap' (header_len p) (content_length p))))
      end
    else fail cap $"out of memory" None ;; ret (inr None).

Definition rx_left (l : list rx_ev) : nat :=
  sum_list_with (λ e, match e with RxData b => S (length b) | _ => 1 end) l.

Definition slurp (cap : option nat) : M zst (option bytes) :=
  ok <- zsysp sys_malloc ;;
  if (ok : bool) then while (λ _ s, rx_left (rx (zw s))) (slurp_round cap) (Page [] (Z.to_nat 8192) 0 (-1))
  else failing (fail cap $"out of memory" None).

(** ** One page *)

Definition coco_client_tls_configure (o : option tls_options) : M zst unit :=
  modify (λ s, Zst (zc s) (zw s) (zerr s) o).
Definition coco_client_tls_configure_flat (ca path crt k pass : option bytes) (insec : bool) : M zst unit :=
  coco_client_tls_configure (Some (TlsOptions ca path crt k pass insec)).

Definition plain_port (service : bytes) : bool :=
  bool_decide (c_str service ∈ [$"80"; $"443"; $"http"; $"https"]).

Definition request_text (host service path : bytes) : bytes :=
  $"GET " ++ c_str path ++ $" HTTP/1.1" ++ CRLF ++
  $"Host: " ++ c_str host ++ (if plain_port service then [] else $":" ++ c_str service) ++ CRLF ++
  $"User-Agent: cocolog/1" ++ CRLF ++ $"Accept: text/plain" ++ CRLF ++
  $"Connection: close" ++ CRLF ++ CRLF.

(** The request, sent whole; [p] is what has still to go. *)
Definition ask_round (cap : option nat) (p : bytes) : M zst (bytes + bool) :=
  match p with
  | [] => ret (inr true)
  | _ =>
      k <- zt_write p ;;
      e <- zget (λ s, errno (zw s)) ;;
      match k with
      | Some (S k) => ret (inl (drop (S k) p))
      | None =>
          if decide (e = EINTR) then ret (inl p)
          else zt_hangup ;; fail cap $"write failed" (Some (strerror e)) ;; ret (inr false)
      | Some O => zt_hangup ;; fail cap $"write failed" (Some (strerror e)) ;; ret (inr false)
      end
  end.
Definition ask (cap : option nat) (p : bytes) : M zst bool :=
  while (λ p s, length p + length (tx (zw s))) (ask_round cap) p.

Definition zt_secure (cap : option nat) (host : bytes) (tls : option tls_options) : M zst bool :=
  match tls with
  | None => ret true
  | Some o =>
      c <- zget zc ;;
      if tls_linked then
        t <- zsys (sys_tls_open (zfd c) host o (default 0 cap)) ;;
        match t with
        | inl h => zset_c (ZtConn (zfd c) (Some h)) ;; ret true
        | inr e =>
            (if decide (default 0 cap = 0) then ret tt else zset_err e) ;;
            zmod_w (sys_close (zfd c)) ;; ret false
        end
      else zmod_w (sys_close (zfd c)) ;; fail cap $"this build has no TLS" None
  end.

(** What [zt_get2] makes of a response. *)
Definition page_of (cap : option nat) (raw : bytes) : M zst (option bytes) :=
  let b := c_str raw in
  match strstr b CRLF with
  | None => failing (fail cap $"no status line" None)
  | Some eol =>
      if decide (starts $"HTTP/1." b = true ∧ strstr b $" 200 " = Some 8) then
        match strstr b BLANK with
        | None => failing (fail cap $"no end of headers" None)
        | Some n =>
            ok <- zsysp sys_malloc ;;
            if (ok : bool) then ret (Some (drop (n + 4) raw))
            else failing (fail cap $"out of memory" None)
        end
      else failing (fail cap $"the server answered" (Some (take (min eol 255) raw)))
  end.

Definition zt_get2 (host service path : bytes) (tls : option tls_options) (cap : option nat)
    : M zst (option bytes) :=
  zset_c (ZtConn (-1) None) ;;
  (if decide (default 0 cap = 0) then ret tt else zset_err []) ;;
  let request := request_text host service path in
  if decide (REQUEST_SIZE ≤ length request)
  then failing (fail cap $"the request line is too long" (Some path))
  else
    f <-? zt_dial cap ;;
    zset_c (ZtConn f None) ;;
    zt_secure cap host tls ?;;
    ask cap request ?;;
    raw <- slurp cap ;;
    zt_hangup ;;
    match raw with
    | None => ret None
    | Some raw => page_of cap raw
    end.

Definition zt_get (host service path : bytes) (cap : option nat) : M zst (option bytes) :=
  cfg <- zget zcfg ;; zt_get2 host service path cfg cap.
End zeytun.
