(* ===== verification/Text.v ===== *)
(** * client/zeytun.c: the two text conversions

    [zt_unescape] undoes a page's HTML escaping in place; [zt_urlencode] makes
    any string fit to stand in a query.  Each is modelled on the buffers it
    writes and shown to compute its reference definition. *)
From S2P Require Import Prelude.

(** ** Unescaping, in place *)

Definition AMP : byte := byte_of 38.

(** The five entities, tried in this order. *)
Definition entities : list (bytes * byte) :=
  [($"&amp;", AMP); ($"&lt;", byte_of 60); ($"&gt;", byte_of 62); ($"&quot;", byte_of 34); ($"&#39;", byte_of 39)].

Fixpoint entity (l : list (bytes * byte)) (b : bytes) : option (nat * byte) :=
  match l with
  | [] => None
  | (e, c) :: l => if starts e b then Some (length e, c) else entity l b
  end.

(** The loop on the buffer [s]: [r] is read from, [w] written to; [None] when
    there is no NUL to stop at. *)
Fixpoint unescape_loop (fuel : nat) (s : bytes) (r w : nat) : option (bytes * nat) :=
  match fuel with
  | O => None
  | S fuel =>
      x ← s !! r;
      if decide (x = nul) then Some (<[w := nul]> s, w)
      else match (if decide (x = AMP) then entity entities (drop r s) else None) with
           | Some (n, c) => unescape_loop fuel (<[w := c]> s) (r + n) (S w)
           | None => unescape_loop fuel (<[w := x]> s) (S r) (S w)
           end
  end.

(** The buffer afterwards, and the length answered. *)
Definition zt_unescape (s : bytes) : option (bytes * nat) := unescape_loop (S (length s)) s 0 0.

(** ** Encoding *)

Definition is_safe (c : Z) : bool :=
  bool_decide ((97 ≤ c ≤ 122) ∨ (65 ≤ c ≤ 90) ∨ (48 ≤ c ≤ 57) ∨ c = 45 ∨ c = 95 ∨ c = 46 ∨ c = 126)%Z.
Definition hex : bytes := $"0123456789ABCDEF".
Definition hex_digit (n : Z) : byte := default nul (hex !! Z.to_nat n).

(** [out[w] = b], where the caller's buffer ends. *)
Definition put (out : bytes) (w : nat) (b : byte) : option bytes :=
  if decide (w < length out) then Some (<[w := b]> out) else None.

(** What is answered, and the caller's buffer; [None] when a byte was written
    behind its end. *)
Fixpoint urlencode_loop (p : bytes) (out : bytes) (w cap : nat) : option (bool * bytes) :=
  match p with
  | [] => if decide (cap < w + 1) then Some (false, out) else out ← put out w nul; Some (true, out)
  | b :: p =>
      let c := byte_val b in
      if is_safe c then
        if decide (cap < w + 2) then Some (false, out)
        else out ← put out w b; urlencode_loop p out (w + 1) cap
      else if decide (cap < w + 4) then Some (false, out)
      else
        out ← put out w (byte_of 37);
        out ← put out (w + 1) (hex_digit (Z.shiftr c 4));
        out ← put out (w + 2) (hex_digit (Z.land c 15));
        urlencode_loop p out (w + 3) cap
  end.
Definition zt_urlencode (s out : bytes) (cap : nat) : option (bool * bytes) := urlencode_loop (c_str s) out 0 cap.

(** ** The reference definitions *)

Fixpoint unescape_with (fuel : nat) (s : bytes) : bytes :=
  match fuel with
  | O => []
  | S fuel =>
      match s with
      | [] => []
      | x :: r =>
          match (if decide (x = AMP) then entity entities s else None) with
          | Some (n, c) => c :: unescape_with fuel (drop n s)
          | None => x :: unescape_with fuel r
          end
      end
  end.
Definition unescape (s : bytes) : bytes := unescape_with (length s) s.

(** What a page's escaper writes for one byte, and for a text. *)
Definition escape1 (b : byte) : bytes :=
  match Byte.to_N b with
  | 38%N => $"&amp;"
  | 60%N => $"&lt;"
  | 62%N => $"&gt;"
  | 34%N => $"&quot;"
  | 39%N => $"&#39;"
  | _ => [b]
  end.
Definition escape (s : bytes) : bytes := concat (map escape1 s).

(** RFC 3986's unreserved characters stand for themselves; any other byte is
    a percent sign and its two digits. *)
Definition unreserved : bytes := $"ABCDEFGHIJKLMNOPQRSTUVWXYZabcdefghijklmnopqrstuvwxyz0123456789-._~".
Definition digit (n : Z) : byte := byte_of (if decide (n < 10)%Z then n + 48 else n + 55)%Z.
Definition encode1 (b : byte) : bytes :=
  if decide (b ∈ unreserved) then [b] else [byte_of 37; digit (byte_val b / 16); digit (byte_val b mod 16)].
Definition urlencoded (s : bytes) : bytes := concat (map encode1 s).

(** What the server makes of an encoded string. *)
Definition hex_val (b : byte) : option Z :=
  let c := byte_val b in
  if decide (48 ≤ c ≤ 57)%Z then Some (c - 48)%Z
  else if decide (65 ≤ c ≤ 70)%Z then Some (c - 55)%Z else None.
Fixpoint urldecode (s : bytes) : option bytes :=
  match s with
  | [] => Some []
  | x :: r =>
      if decide (x = byte_of 37) then
        match r with
        | h :: l :: r' =>
            h ← hex_val h; l ← hex_val l; d ← urldecode r'; Some (byte_of (h * 16 + l) :: d)
        | _ => None
        end
      else d ← urldecode r; Some (x :: d)
  end.

(** ** Facts about single bytes, by trying them all *)

Lemma all_bytes (P : byte → bool) :
  forallb (λ n, P (byte_of (Z.of_nat n))) (seq 0 256) = true → ∀ b, P b = true.
Proof.
  intros Hall b. rewrite forallb_forall in Hall. pose proof (byte_val_range b).
  specialize (Hall (Z.to_nat (byte_val b))). rewrite Z2Nat.id, byte_of_val in Hall by lia.
  apply Hall, in_seq. lia.
Qed.

Lemma byte_eqb_eq (a b : bytes) : bool_decide (a = b) = true → a = b.
Proof. apply bool_decide_eq_true. Qed.

Lemma urldecode_encode1 b r :
  urldecode (encode1 b ++ r) = d ← urldecode r; Some (b :: d).
Proof.
  assert (∀ b, (if decide (b ∈ unreserved) then bool_decide (b ≠ byte_of 37)
    else bool_decide (hex_val (digit (byte_val b / 16)) = Some (byte_val b / 16)%Z) &&
         bool_decide (hex_val (digit (byte_val b mod 16)) = Some (byte_val b mod 16)%Z)) = true) as Hall.
  { apply all_bytes. by vm_compute. }
  specialize (Hall b). unfold encode1. destruct (decide (b ∈ unreserved)).
  - apply bool_decide_eq_true in Hall. cbn. by rewrite decide_False.
  - apply andb_true_iff in Hall as [H1 H2]. apply bool_decide_eq_true in H1, H2.
    cbn [app urldecode]. rewrite decide_True by done. rewrite H1, H2. cbn.
    destruct (urldecode r); [|done]. cbn. do 2 f_equal.
    rewrite Z.mul_comm, <- Z.div_mod by lia. apply byte_of_val.
Qed.
Lemma urldecode_urlencoded s : urldecode (urlencoded s) = Some s.
Proof.
  unfold urlencoded. induction s as [|b s IH]; [done|]. cbn [map concat].
  by rewrite urldecode_encode1, IH.
Qed.

Lemma encode1_clean b : Forall (λ x, x ∈ unreserved ∨ x = byte_of 37) (encode1 b).
Proof.
  assert (∀ b, forallb (λ x, bool_decide (x ∈ unreserved ∨ x = byte_of 37)) (encode1 b) = true) as Hall.
  { apply all_bytes. by vm_compute. }
  specialize (Hall b). rewrite forallb_forall in Hall. apply Forall_forall. intros x Hx.
  apply list_elem_of_In in Hx. specialize (Hall x Hx). by apply bool_decide_eq_true in Hall.
Qed.
(** The code's test and its digits are the reference's. *)
Lemma is_safe_unreserved b : is_safe (byte_val b) = bool_decide (b ∈ unreserved).
Proof.
  assert (∀ b, Bool.eqb (is_safe (byte_val b)) (bool_decide (b ∈ unreserved)) = true) as Hall.
  { apply all_bytes. by vm_compute. }
  apply eqb_prop, Hall.
Qed.
Lemma hex_digits b : hex_digit (Z.shiftr (byte_val b) 4) = digit (byte_val b / 16) ∧ hex_digit (Z.land (byte_val b) 15) = digit (byte_val b mod 16).
Proof.
  assert (∀ b, bool_decide (hex_digit (Z.shiftr (byte_val b) 4) = digit (byte_val b / 16) ∧
                            hex_digit (Z.land (byte_val b) 15) = digit (byte_val b mod 16)) = true) as Hall.
  { apply all_bytes. by vm_compute. }
  specialize (Hall b). by apply bool_decide_eq_true in Hall.
Qed.

Lemma put_next pre x rest w b : w = length pre → put (pre ++ x :: rest) w b = Some ((pre ++ [b]) ++ rest).
Proof.
  intros ->. unfold put. rewrite decide_True by (rewrite length_app; cbn; lia).
  f_equal. rewrite insert_app_r_alt, Nat.sub_diag by lia. by rewrite <- app_assoc.
Qed.

(** [urlencode_loop] in a buffer of [cap] bytes: all of it and its NUL, or what
    fits. *)
Lemma urlencode_loop_spec p : ∀ pre rest, ∃ out',
  urlencode_loop p (pre ++ rest) (length pre) (length (pre ++ rest)) =
    Some (bool_decide (length (urlencoded p) < length rest), out') ∧
  (length (urlencoded p) < length rest → out' = pre ++ urlencoded p ++ nul :: drop (S (length (urlencoded p))) rest) ∧
  (length rest ≤ length (urlencoded p) → ∃ k, k ≤ length rest ∧ out' = pre ++ take k (urlencoded p) ++ drop k rest).
Proof.
  induction p as [|b p IH]; intros pre rest; cbn [urlencode_loop]; rewrite length_app.
  { cbn [urlencoded map concat length app]. destruct rest as [|x rest]; cbn [length].
    - rewrite decide_True by lia. eexists. split_and!; [by rewrite bool_decide_false by lia|lia|]. intros _. exists 0. by rewrite drop_0.
    - rewrite decide_False, put_next by lia. cbn [mbind option_bind]. eexists. split_and!; [by rewrite bool_decide_true by lia| |lia].
      intros _. by rewrite <- app_assoc. }
  change (urlencoded (b :: p)) with (encode1 b ++ urlencoded p). rewrite length_app.
  assert (∀ e rest', encode1 b = e → length rest = length e + length rest' → drop (length e) rest = rest' →
    (∃ out', urlencode_loop p ((pre ++ e) ++ rest') (length (pre ++ e)) (length pre + length rest) =
        Some (bool_decide (length (encode1 b) + length (urlencoded p) < length rest), out') ∧
      (length (encode1 b) + length (urlencoded p) < length rest →
         out' = pre ++ (encode1 b ++ urlencoded p) ++ nul :: drop (S (length (encode1 b) + length (urlencoded p))) rest) ∧
      (length rest ≤ length (encode1 b) + length (urlencoded p) →
         ∃ k, k ≤ length rest ∧ out' = pre ++ take k (encode1 b ++ urlencoded p) ++ drop k rest))) as Hgo.
  { intros e rest' <- Hlen Hdrop. destruct (IH (pre ++ encode1 b) rest') as (out' & Hrun & Hfits & Hnot).
    assert (length ((pre ++ encode1 b) ++ rest') = length pre + length rest) as El by (rewrite !length_app; lia).
    rewrite El in Hrun. exists out'. split_and!.
    - rewrite Hrun. do 2 f_equal. apply bool_decide_ext. lia.
    - intros Hl. rewrite Hfits by lia. rewrite <- !app_assoc. do 4 f_equal. rewrite <- Hdrop, drop_drop. f_equal. lia.
    - intros Hl. destruct Hnot as (k & Hk & ->); [lia|]. exists (length (encode1 b) + k). split; [lia|].
      rewrite take_app_add, <- !app_assoc, <- Hdrop, drop_drop. done. }
  assert (length rest < S (length (encode1 b)) → ∃ out', Some (false, pre ++ rest) = Some (bool_decide (length (encode1 b) + length (urlencoded p) < length rest), out') ∧
      (length (encode1 b) + length (urlencoded p) < length rest →
         out' = pre ++ (encode1 b ++ urlencoded p) ++ nul :: drop (S (length (encode1 b) + length (urlencoded p))) rest) ∧
      (length rest ≤ length (encode1 b) + length (urlencoded p) →
         ∃ k, k ≤ length rest ∧ out' = pre ++ take k (encode1 b ++ urlencoded p) ++ drop k rest)) as Hstop.
  { intros Hl. eexists. split_and!; [by rewrite bool_decide_false by lia|lia|]. intros _. exists 0. split; [lia|]. by rewrite drop_0. }
  rewrite is_safe_unreserved. destruct (hex_digits b) as [Hh1 Hh2]. unfold encode1 in *.
  destruct (decide (b ∈ unreserved)) as [Hu|Hu]; [rewrite (bool_decide_true (b ∈ _)) by done|rewrite (bool_decide_false (b ∈ _)) by done]; cbn [length] in *;
    [destruct (decide (length pre + length rest < length pre + 2))|destruct (decide (length pre + length rest < length pre + 4))].
  - apply Hstop; lia.
  - destruct rest as [|x rest]; cbn [length] in *; [lia|]. rewrite put_next by done. cbn [mbind option_bind].
    specialize (Hgo [b] rest eq_refl). rewrite length_app in Hgo. apply Hgo; [cbn; lia|done].
  - apply Hstop; lia.
  - destruct rest as [|x [|y [|z rest]]]; cbn [length] in *; try lia. rewrite Hh1, Hh2, put_next by done. cbn [mbind option_bind].
    rewrite put_next by (rewrite length_app; cbn; lia). cbn [mbind option_bind]. rewrite put_next by (rewrite !length_app; cbn; lia).
    cbn [mbind option_bind]. specialize (Hgo _ rest eq_refl). rewrite length_app in Hgo. rewrite <- !app_assoc in *. cbn [app] in *. apply Hgo; [cbn; lia|done].
Qed.

(** ** Unescaping *)

Lemma starts_stop e t rest :
  no_nul e → starts e (t ++ nul :: rest) = starts e t.
Proof.
  unfold no_nul. revert t. induction e as [|x e IH]; intros t He; [done|].
  apply not_elem_of_cons in He as [Hx He]. destruct t as [|y t]; cbn [starts app].
  - by rewrite decide_False by congruence.
  - by rewrite IH.
Qed.

Lemma entity_stop l t rest :
  Forall (λ e : bytes * byte, no_nul e.1) l → entity l (t ++ nul :: rest) = entity l t.
Proof. induction 1 as [|[e c] l He Hl IH]; [done|]. cbn. by rewrite starts_stop, IH. Qed.

Lemma entities_no_nul : Forall (λ e : bytes * byte, no_nul e.1) entities.
Proof. apply (bool_decide_unpack _). by vm_compute. Qed.

Lemma entity_length l b n c :
  Forall (λ e : bytes * byte, e.1 ≠ []) l → entity l b = Some (n, c) → 1 ≤ n ≤ length b.
Proof.
  induction 1 as [|[e d] l He Hl IH]; [done|]. cbn. destruct (starts e b) eqn:E; [|done].
  intros [= <- <-]. apply starts_spec in E as [r ->]. rewrite length_app. cbn in He.
  destruct e; [done|]. cbn. lia.
Qed.
Lemma entities_nonempty : Forall (λ e : bytes * byte, e.1 ≠ []) entities.
Proof. apply (bool_decide_unpack _). by vm_compute. Qed.

(** One step of the reference. *)
Definition unescape1 (s : bytes) : nat * byte :=
  match s with
  | [] => (0, nul)
  | x :: _ => match (if decide (x = AMP) then entity entities s else None) with
              | Some nc => nc
              | None => (1, x)
              end
  end.
Lemma unescape1_length x s : 1 ≤ (unescape1 (x :: s)).1 ≤ length (x :: s).
Proof.
  unfold unescape1. case_decide; [|cbn; lia].
  destruct (entity entities (x :: s)) as [[n c]|] eqn:E; [|cbn; lia].
  by apply entity_length in E; [|apply entities_nonempty].
Qed.
Lemma unescape_with_step fuel x s :
  unescape_with (S fuel) (x :: s) =
  (unescape1 (x :: s)).2 :: unescape_with fuel (drop (unescape1 (x :: s)).1 (x :: s)).
Proof.
  cbn [unescape_with]. unfold unescape1.
  by destruct (if decide (x = AMP) then entity entities (x :: s) else None) as [[n c]|].
Qed.

Lemma unescape_with_enough fuel s : length s ≤ fuel → unescape_with fuel s = unescape s.
Proof.
  unfold unescape.
  assert (∀ n m t, length t ≤ n → length t ≤ m → unescape_with n t = unescape_with m t) as Hall.
  { induction n as [|n IH]; intros [|m] [|x t]; cbn [length]; intros; try lia; try done.
    rewrite !unescape_with_step. f_equal. pose proof (unescape1_length x t). cbn [length] in *.
    apply IH; rewrite length_drop; cbn [length]; lia. }
  intros. by apply Hall.
Qed.
Lemma unescape_cons x s :
  unescape (x :: s) = (unescape1 (x :: s)).2 :: unescape (drop (unescape1 (x :: s)).1 (x :: s)).
Proof.
  rewrite <- (unescape_with_enough (S (length s))) by (simpl; lia). rewrite unescape_with_step. f_equal.
  apply unescape_with_enough. pose proof (unescape1_length x s). rewrite length_drop. cbn [length] in *. lia.
Qed.

Lemma unescape_loop_step fuel buf r w x t rest :
  drop r buf = (x :: t) ++ nul :: rest → x ≠ nul →
  unescape_loop (S fuel) buf r w =
  unescape_loop fuel (<[w := (unescape1 (x :: t)).2]> buf) (r + (unescape1 (x :: t)).1) (S w).
Proof.
  intros Hd Hx. cbn [unescape_loop].
  assert (buf !! r = Some x) as ->.
  { rewrite <- (Nat.add_0_r r), <- lookup_drop, Hd. done. }
  cbn [mbind option_bind]. rewrite decide_False by done. unfold unescape1.
  rewrite Hd, (entity_stop _ (x :: t)) by apply entities_no_nul. case_decide; [|by rewrite Nat.add_1_r].
  destruct (entity entities (x :: t)) as [[n c]|]; [done|by rewrite Nat.add_1_r].
Qed.

Lemma no_nul_drop n (t : bytes) : no_nul t → no_nul (drop n t).
Proof. intros Ht Hin. apply Ht. rewrite <- (take_drop n t). apply elem_of_app. by right. Qed.

(** Reading ahead of writing: what is still to be read has not been touched. *)
Lemma unescape_loop_spec fuel t : ∀ buf r w rest,
  drop r buf = t ++ nul :: rest → no_nul t → w ≤ r → length t < fuel →
  unescape_loop fuel buf r w =
    Some (take w buf ++ unescape t ++ nul :: drop (S (w + length (unescape t))) buf, w + length (unescape t)).
Proof.
  revert t. induction fuel as [|fuel IH]; intros t buf r w rest Hd Hn Hw Hf; [lia|].
  assert (length buf = r + length t + S (length rest)) as Hlen.
  { apply (f_equal length) in Hd. rewrite length_drop, length_app in Hd. cbn [length] in Hd. lia. }
  destruct t as [|x t].
  - cbn [unescape_loop]. assert (buf !! r = Some nul) as ->.
    { rewrite <- (Nat.add_0_r r), <- lookup_drop, Hd. done. }
    cbn [mbind option_bind]. rewrite decide_True by done. cbn [unescape unescape_with app length].
    rewrite Nat.add_0_r. do 2 f_equal. apply insert_take_drop. lia.
  - unfold no_nul in Hn. apply not_elem_of_cons in Hn as [Hx Hn].
    rewrite (unescape_loop_step _ _ _ _ x t rest) by (done || congruence).
    pose proof (unescape1_length x t) as Hl. rewrite unescape_cons.
    set (c := (unescape1 (x :: t)).2). set (n := (unescape1 (x :: t)).1) in *. cbn [length] in Hl, Hf, Hlen.
    rewrite (IH (drop n (x :: t)) _ _ _ rest).
    + cbn [length app]. set (u := unescape (drop n (x :: t))).
      assert (w < length buf) as Hwl by lia.
      rewrite drop_insert_lt by lia. rewrite (take_S_r _ w c) by by apply list_lookup_insert_eq.
      rewrite take_insert_ge by lia. rewrite <- app_assoc. cbn [app].
      replace (S w + length u) with (w + S (length u)) by lia. done.
    + rewrite drop_insert_lt by lia. rewrite <- drop_drop, Hd. by rewrite drop_app_le by (cbn [length]; lia).
    + apply (no_nul_drop n). unfold no_nul. apply not_elem_of_cons. split; [congruence|done].
    + lia.
    + rewrite length_drop. cbn [length]. lia.
Qed.

(** ** Escaping *)

Lemma escape1_cases b : (escape1 b = [b] ∧ b ≠ AMP) ∨ (escape1 b, b) ∈ entities.
Proof.
  assert (∀ b, bool_decide ((escape1 b = [b] ∧ b ≠ AMP) ∨ (escape1 b, b) ∈ entities) = true) as Hall.
  { apply all_bytes. by vm_compute. }
  specialize (Hall b). by apply bool_decide_eq_true in Hall.
Qed.

Lemma unescape_entity e c r : (e, c) ∈ entities → unescape (e ++ r) = c :: unescape r.
Proof.
  intros Hin.
  assert (∃ x e', e = x :: e' ∧ unescape1 (e ++ r) = (length e, c)) as (x & e' & -> & E).
  { unfold entities in Hin. rewrite !elem_of_cons in Hin.
    destruct Hin as [E|[E|[E|[E|[E|Hin]]]]]; [..|by apply not_elem_of_nil in Hin];
      injection E as -> ->; do 2 eexists; split; reflexivity. }
  cbn [app] in *. rewrite unescape_cons, E. cbn [fst snd]. f_equal.
  change (x :: e' ++ r) with ((x :: e') ++ r). by rewrite drop_app_length.
Qed.

Lemma unescape_escape s : unescape (escape s) = s.
Proof.
  unfold escape. induction s as [|b s IH]; [done|]. cbn [map concat].
  destruct (escape1_cases b) as [[-> Hb]|Hin].
  - cbn [app]. rewrite unescape_cons. unfold unescape1. rewrite decide_False by done. cbn [fst snd drop].
    by rewrite drop_0, IH.
  - by rewrite (unescape_entity _ _ _ Hin), IH.
Qed.

Lemma unescape_length s : length (unescape s) ≤ length s.
Proof.
  remember (length s) as n eqn:E. revert s E. induction n as [n IH] using lt_wf_ind. intros [|x s] ->; [done|].
  rewrite unescape_cons. pose proof (unescape1_length x s) as Hl. cbn [length] in *.
  specialize (IH (length (drop (unescape1 (x :: s)).1 (x :: s)))).
  rewrite length_drop in IH. cbn [length] in IH. specialize (IH ltac:(lia) (drop (unescape1 (x :: s)).1 (x :: s))).
  rewrite length_drop in IH. cbn [length] in IH. specialize (IH eq_refl). lia.
Qed.

(** ** The theorems *)

(** C32. Percent-encoding stays in the caller's buffer, fits or fails, and
    survives the trip.  Given a buffer of [cap] bytes, [zt_urlencode] writes no
    byte outside it and succeeds exactly when the encoding and its NUL fit;
    then they are at the front of the buffer and the rest is as it was, and
    otherwise the buffer has the beginning of the encoding and the rest as it
    was.  The encoding has each of RFC 3986's unreserved characters as itself
    and every other byte as a percent sign and two digits, holds nothing else,
    and decodes to the string it was made from. *)
Theorem urlencode_roundtrip s out :
  let enc := urlencoded (c_str s) in
  (∃ out', zt_urlencode s out (length out) = Some (bool_decide (length enc < length out), out') ∧
    (length enc < length out → out' = enc ++ nul :: drop (S (length enc)) out) ∧
    (length out ≤ length enc → ∃ k, k ≤ length out ∧ out' = take k enc ++ drop k out)) ∧
  Forall (λ x, x ∈ unreserved ∨ x = byte_of 37) enc ∧
  urldecode enc = Some (c_str s).
Proof.
  intros enc. split; [apply (urlencode_loop_spec (c_str s) [] out)|]. split; [|apply urldecode_urlencoded].
  subst enc. unfold urlencoded. induction (c_str s) as [|b t IH]; [by apply Forall_nil|]. cbn [map concat].
  apply Forall_app. split; [apply encode1_clean|done].
Qed.

(** C30. Unescaping in place.  On a buffer that holds a C string, the loop of
    [zt_unescape] stops, answers the length of the unescaped string, leaves it
    at the front of the buffer with its NUL and everything behind that as it
    was; the result is never longer than the string was. *)
Theorem unescape_in_place t rest :
  no_nul t →
  ∃ k, zt_unescape (t ++ nul :: rest) = Some (unescape t ++ nul :: drop k (t ++ nul :: rest), length (unescape t)) ∧
       k = S (length (unescape t)) ∧ length (unescape t) ≤ length t.
Proof.
  intros Hn. exists (S (length (unescape t))). split; [|split; [done|apply unescape_length]].
  unfold zt_unescape. rewrite (unescape_loop_spec _ t _ _ _ rest); [done|done|done|lia|].
  rewrite length_app. cbn [length]. lia.
Qed.

(** C31. Unescaping undoes escaping.  A text in which a page has written
    ampersands, angle brackets and both quotes as its five entities, and every
    other byte as itself, comes back byte for byte. *)
Theorem unescape_undoes_escape t rest :
  no_nul t →
  (p ← zt_unescape (escape t ++ nul :: rest); Some (c_str p.1, p.2)) = Some (t, length t).
Proof.
  intros Hn. assert (no_nul (escape t)) as Hne.
  { unfold no_nul, escape in *. induction t as [|b t IH]; [apply not_elem_of_nil|].
    apply not_elem_of_cons in Hn as [Hb Hn]. cbn [map concat]. rewrite elem_of_app. intros [Hin|Hin]; [|by apply IH].
    revert Hin. destruct (escape1_cases b) as [[-> _]|Hin]; [by intros ?%list_elem_of_singleton|].
    pose proof entities_no_nul as Hall. rewrite Forall_forall in Hall. by apply (Hall _ Hin). }
  unfold zt_unescape. rewrite (unescape_loop_spec _ (escape t) _ _ _ rest); [|done|done|lia|].
  - cbn [mbind option_bind fst snd take app]. rewrite unescape_escape. rewrite take_0. cbn [app]. by rewrite c_str_app_nul.
  - rewrite length_app. cbn [length]. lia.
Qed.

Lemma unescape_in_place_witness :
  zt_unescape ($"a&lt;b & c&amp;" ++ [nul; nul]) = Some ($"a<b & c&" ++ nul :: drop 9 ($"a&lt;b & c&amp;" ++ [nul; nul]), 8).
Proof.
  destruct (unescape_in_place $"a&lt;b & c&amp;" [nul]) as (k & E & Hk & _).
  - apply (bool_decide_unpack _). by vm_compute.
  - rewrite Hk in E. exact E.
Defined.

Lemma unescape_undoes_escape_witness :
  (p ← zt_unescape (escape $"'<&amp;>" ++ [nul]); Some (c_str p.1, p.2)) = Some ($"'<&amp;>", 8).
Proof. apply (unescape_undoes_escape $"'<&amp;>" []). apply (bool_decide_unpack _). by vm_compute. Defined.
