(* ===== verification/Page.v ===== *)
(** * What client/zeytun.c promises

    A GET answers the page the server sent, however it was cut up, without
    waiting for the connection to end; and whatever happens it leaves no
    descriptor and no TLS session behind. *)
From S2P Require Import Prelude Effect Tls World Conn Socket SocketFacts Proto Codec Toy Open Zeytun.

(** ** Searching in a string that grows *)

Lemma starts_app_l p b x : starts p b = true → starts p (b ++ x) = true.
Proof. intros [r ->]%starts_spec. rewrite <- app_assoc. apply starts_app. Qed.
Lemma starts_app_inv p b x :
  length p ≤ length b → starts p (b ++ x) = true → starts p b = true.
Proof.
  intros Hl [r E]%starts_spec. apply starts_spec.
  destruct (app_prefix_split _ _ _ _ (eq_sym E)) as (e & -> & _); [done|]. by eexists.
Qed.
Lemma starts_length p b : starts p b = true → length p ≤ length b.
Proof. intros [r ->]%starts_spec. rewrite length_app. lia. Qed.

Lemma strstr_grows b p n x : strstr b p = Some n → strstr (b ++ x) p = Some n.
Proof.
  intros (Hs & Hn & Hm)%strstr_spec. apply strstr_spec.
  pose proof (starts_length _ _ Hs) as Hl. rewrite length_drop in Hl.
  split; [rewrite drop_app_le by done; by apply starts_app_l|]. split; [rewrite length_app; lia|].
  intros m Hlt. specialize (Hm m Hlt). rewrite drop_app_le by lia.
  destruct (starts p (drop m b ++ x)) eqn:E; [|done].
  apply starts_app_inv in E; [congruence|]. rewrite length_drop. lia.
Qed.
Lemma c_str_app h x : no_nul h → c_str (h ++ x) = h ++ c_str x.
Proof.
  unfold no_nul. induction h as [|b h IH]; intros Hn; [done|].
  apply not_elem_of_cons in Hn as [Hb Hn]. cbn [app c_str]. rewrite decide_False by congruence.
  by rewrite IH.
Qed.

(** A head: headers with the blank line at their end, announcing [n] bytes. *)
Definition head (h : bytes) (n : nat) : Prop :=
  no_nul h ∧ strstr h BLANK = Some (length h - 4) ∧ 4 ≤ length h ∧
  ∀ x, announced (h ++ x) = Some (Z.of_nat n).

Section page.
Context `{Engine} `{Platform}.
Implicit Types s : zst.

Definition plain_text s : bool := bool_decide (ztls (zc s) = None).
(** What the server will have us read. *)
Definition coming s : bytes := rx_data (plain_text s) (rx (zw s)).
Definition left_in s : nat := rx_left (rx (zw s)).
Definition ok_tls s : Prop := ztls (zc s) = None ∨ tls_openssl = true.

(** All a read changes. *)
Definition zcore (w : world) : world := set_rx [] (set_errno 0 (set_handles ∅ (set_malloc_q [] w))).
Definition zread s s' : Prop :=
  zc s' = zc s ∧ zcore (zw s') = zcore (zw s) ∧ zerr s' = zerr s ∧ zcfg s' = zcfg s ∧
  (malloc_q (zw s) = [] → malloc_q (zw s') = []) ∧
  dom (handles (zw s')) ⊆ dom (handles (zw s)) ∪ (match ztls (zc s) with Some h => {[h]} | None => ∅ end).

#[global] Instance zread_refl : Reflexive zread.
Proof. intros s. split_and!; try done. set_solver. Qed.
#[global] Instance zread_trans : Transitive zread.
Proof.
  intros s1 s2 s3 (E1 & E2 & E3 & E4 & M1 & D1) (F1 & F2 & F3 & F4 & M2 & D2).
  split_and!; try congruence; [by eauto|].
  rewrite E1 in D2. set_solver.
Qed.

Definition same_handles s w' : Prop :=
  dom (handles w') ⊆ dom (handles (zw s)) ∪ (match ztls (zc s) with Some h => {[h]} | None => ∅ end).
Lemma zread_world s w' :
  zcore w' = zcore (zw s) → handles w' = handles (zw s) → (malloc_q (zw s) = [] → malloc_q w' = []) →
  zread s (Zst (zc s) w' (zerr s) (zcfg s)).
Proof. intros ? E Hm. split_and!; try done. cbn. rewrite E. set_solver. Qed.
Lemma zread_note s w' h k :
  zcore w' = zcore (zw s) → handles w' = handles (zw s) → (malloc_q (zw s) = [] → malloc_q w' = []) → ztls (zc s) = Some h →
  zread s (Zst (zc s) (note h k w') (zerr s) (zcfg s)).
Proof. intros E1 E2 Hm Eh. split_and!; try done. cbn. rewrite dom_insert, E2, Eh. set_solver. Qed.

Definition reads n s (o : option bytes) s' : Prop :=
  zread s s' ∧
  match o with
  | Some [] => coming s = []
  | Some b => coming s = b ++ coming s' ∧ length b ≤ n ∧ length b + left_in s' ≤ left_in s
  | None => if decide (errno (zw s') = EINTR)
            then coming s = coming s' ∧ left_in s' < left_in s else coming s = []
  end.

Lemma chunk_split n plain b r : 0 < n → b ≠ [] →
  let r' := if decide (length b ≤ n) then r else RxData (drop n b) :: r in
  rx_data plain (RxData b :: r) = take n b ++ rx_data plain r' ∧
  length (take n b) + rx_left r' ≤ rx_left (RxData b :: r) ∧ take n b ≠ [].
Proof.
  intros Hn Hb r'. assert (length b ≠ 0) as Hl by (by destruct b).
  assert (∀ b' l, b' ≠ [] → rx_data plain (RxData b' :: l) = b' ++ rx_data plain l) as Hcons.
  { intros [|x b'] l ?; done. }
  assert (∀ b' l, rx_left (RxData b' :: l) = S (length b' + rx_left l)) as Hw by done.
  rewrite Hcons by done. unfold r'. split_and!.
  - case_decide; [by rewrite take_ge by lia|]. rewrite Hcons; [by rewrite app_assoc, take_drop|].
    intros E. apply (f_equal length) in E. rewrite length_drop in E. cbn [length] in E. lia.
  - case_decide; rewrite length_take, !Hw, ?length_drop; lia.
  - intros E. apply (f_equal length) in E. rewrite length_take in E. cbn [length] in E. lia.
Qed.

Lemma reads_chunk n s b r :
  0 < n → rx (zw s) = RxData b :: r → b ≠ [] →
  reads n s (Some (take n b))
    (Zst (zc s) (set_rx (if decide (length b ≤ n) then r else RxData (drop n b) :: r) (zw s)) (zerr s) (zcfg s)).
Proof.
  intros Hn Er Hb. destruct (chunk_split n (plain_text s) b r Hn Hb) as (H1 & H2 & H3).
  split; [by apply zread_world|]. unfold coming, left_in. cbn [zw rx set_rx]. rewrite Er.
  destruct (take n b) as [|x l] eqn:E; [done|].
  split_and!; [exact H1|rewrite <- E, length_take; lia|exact H2].
Qed.

Lemma wp_zt_read n s :
  0 < n → ok_tls s → wp (zt_read n) (reads n s) (λ s', s' = s ∧ coming s = []) s.
Proof.
  intros Hn Htls. unfold zt_read, zget. wp_steps. unfold wp.
  destruct (ztls (zc s)) as [h|] eqn:E.
  - destruct Htls as [?|Hb]; [congruence|]. unfold zsys, coco_client_tls_recv. rewrite Hb.
    destruct (rx (zw s)) as [|[b|e|k] r] eqn:Er.
    + split; [done|]. unfold coming. by rewrite Er.
    + destruct b as [|x b]; [|by apply reads_chunk].
      split; [by apply zread_note|]. unfold coming. by rewrite Er.
    + split; [by apply zread_note|]. unfold coming, plain_text. rewrite Er, E. done.
    + split; [by apply zread_note|]. unfold coming, plain_text. rewrite Er, E. done.
  - assert (plain_text s = true) as Hp by (unfold plain_text; rewrite E; done).
    unfold zsys, sys_recv. destruct (rx (zw s)) as [|[b|e|k] r] eqn:Er.
    + split; [done|]. unfold coming. by rewrite Er.
    + destruct b as [|x b]; [|by apply reads_chunk].
      split; [by apply zread_world|]. unfold coming. rewrite Er. cbn. by destruct n.
    + split; [by apply zread_world|]. unfold coming, left_in.
      change (plain_text (Zst _ _ _ _)) with (plain_text s). rewrite Hp, Er. cbn.
      case_decide as Hd; [rewrite decide_True by done; split; [done|lia]|rewrite decide_False by naive_solver; done].
    + split; [by apply zread_world|]. unfold coming, left_in.
      change (plain_text (Zst _ _ _ _)) with (plain_text s). rewrite Hp, Er. cbn.
      case_decide as Hd; [rewrite decide_True by done; split; [done|lia]|rewrite decide_False by naive_solver; done].
Qed.

(** ** Any response: the loop ends, in bounds *)

(** There is always room for another read, and its NUL. *)
Definition roomy (p : page) : Prop := Z.to_nat 8192 ≤ pcap p ∧ length (buf p) < pcap p.

Definition capacity (p : page) : nat :=
  if decide (pcap p < length (buf p) + 4096)
  then grow (length (buf p)) (length (buf p)) (pcap p * 2) else pcap p.

Lemma grow_once len ncap : len + 4096 ≤ ncap → ∀ fuel, grow fuel len ncap = ncap.
Proof. intros Hl [|fuel]; [done|]. cbn [grow]. by rewrite decide_False by lia. Qed.
Lemma capacity_room p : roomy p → Z.to_nat 8192 ≤ capacity p ∧ length (buf p) + 4096 ≤ capacity p.
Proof.
  intros [Hc Hl]. unfold capacity. case_decide; [|lia].
  rewrite grow_once by lia. lia.
Qed.

Definition arrived (p : page) (b : bytes) : page :=
  look (Page (buf p ++ b) (capacity p) (header_len p) (content_length p)).
Definition retried (p : page) : page := Page (buf p) (capacity p) (header_len p) (content_length p).

Lemma look_buf p : buf (look p) = buf p ∧ pcap (look p) = pcap p.
Proof. unfold look. case_decide; [|done]. by destruct (strstr _ _). Qed.
Lemma arrived_roomy p b :
  roomy p → length b ≤ capacity p - length (buf p) - 1 → roomy (arrived p b).
Proof.
  intros Hr Hl. destruct (capacity_room p Hr). unfold roomy, arrived.
  destruct (look_buf (Page (buf p ++ b) (capacity p) (header_len p) (content_length p))) as [-> ->].
  cbn [buf pcap]. rewrite length_app. lia.
Qed.
Lemma retried_roomy p : roomy p → roomy (retried p).
Proof. intros Hr. destruct (capacity_room p Hr). unfold roomy, retried. cbn [buf pcap]. lia. Qed.

(** What a round makes of what the server sends. *)
Definition rounded (p : page) s (r : page + option bytes) s' : Prop :=
  match r with
  | inr (Some b) => b = buf p ∧ zread s s' ∧ (complete p = true ∨ coming s = [])
  | inr None => zc s' = zc s ∧ zcore (zw s') = zcore (zw s) ∧ zcfg s' = zcfg s ∧
                dom (handles (zw s')) ⊆ dom (handles (zw s)) ∪ (match ztls (zc s) with Some h => {[h]} | None => ∅ end) ∧
                complete p = false ∧ (malloc_q (zw s) = [] → coming s = [])
  | inl p' => zread s s' ∧ roomy p' ∧ complete p = false ∧ left_in s' < left_in s ∧
              ((∃ b, b ≠ [] ∧ coming s = b ++ coming s' ∧ p' = arrived p b) ∨
               (coming s = coming s' ∧ p' = retried p))
  end.

Lemma wp_fail ec what d (Q : bool → zst → Prop) B s :
  (∀ e, Q false (Zst (zc s) (zw s) e (zcfg s))) → wp (fail ec what d) Q B s.
Proof.
  intros HQ. unfold fail. destruct s as [c w e g]. destruct ec as [[|n]|]; apply HQ.
Qed.

Lemma wp_ask_memory (b : bool) s :
  wp (if b then zsysp sys_malloc else ret true)
     (λ ok s', zread s s' ∧ coming s' = coming s ∧ left_in s' = left_in s ∧
               (malloc_q (zw s) = [] → ok = true)) (λ _, False) s.
Proof.
  destruct b; [|by apply wp_ret]. unfold wp, zsysp, sys_malloc.
  destruct (malloc_q (zw s)) as [|ok q] eqn:E.
  - split; [by apply zread_world|by split_and!].
  - split; [apply zread_world; [done..|by rewrite E]|by split_and!].
Qed.

Lemma wp_slurp_round ec p s :
  roomy p → ok_tls s →
  wp (slurp_round ec p) (rounded p s) (λ _, coming s = [] ∧ complete p = false) s.
Proof.
  intros Hr Htls. unfold slurp_round. destruct (complete p) eqn:Ec.
  { apply wp_ret. split_and!; [done..|by left]. }
  wp_step. eapply wp_mono; [apply wp_ask_memory| |done]. intros ok s1 (Hz1 & Hc1 & Hl1 & Hok).
  destruct ok.
  2:{ wp_step. apply wp_fail. intros e. apply wp_ret. destruct Hz1 as (? & ? & ? & ? & ? & ?).
      split_and!; try done. intros Hm. by specialize (Hok Hm). }
  assert ((if bool_decide (pcap p < length (buf p) + 4096)
    then grow (length (buf p)) (length (buf p)) (pcap p * 2) else pcap p) = capacity p) as ->.
  { unfold capacity. by case_bool_decide; case_decide. }
  destruct (capacity_room p Hr) as [_ Hroom].
  assert (ok_tls s1) as Htls1 by (unfold ok_tls in *; by destruct Hz1 as [-> _]).
  wp_step. eapply wp_mono; [apply wp_zt_read; [lia|done]| |].
  2:{ intros s2 [-> Hnil]. by rewrite Hc1 in Hnil. }
  intros o s2 [Hz2 Ho]. assert (zread s s2) as Hz by by transitivity s1. rewrite Hc1 in Ho.
  destruct o as [[|x b]|].
  - apply wp_ret. split_and!; [done|done|by right].
  - apply wp_ret. destruct Ho as (Hx & Hlb & Hleft). split; [done|].
    split; [by apply arrived_roomy|]. split; [done|]. split; [cbn in Hleft; lia|]. left. by exists (x :: b).
  - wp_step. apply wp_gets. cbv beta. case_decide.
    + apply wp_ret. destruct Ho as [Hx Hleft]. split; [done|]. split; [by apply retried_roomy|].
      split; [done|]. split; [lia|by right].
    + wp_step. apply wp_fail. intros e. apply wp_ret. destruct Hz as (? & ? & ? & ? & ? & ?). by split_and!.
Qed.

(** ** A response that says how long it is *)

Lemma prefix_no_blank h b y n : head h n → h = b ++ y → y ≠ [] → strstr (c_str b) BLANK = None.
Proof.
  intros (Hn & Hb & Hl & _) -> Hy. rewrite c_str_id by (intros Hin; apply Hn, elem_of_app; by left).
  destruct (strstr b BLANK) as [m|] eqn:E; [|done]. exfalso.
  rewrite (strstr_grows _ _ _ y E) in Hb. injection Hb as ->.
  apply strstr_spec in E as (Hs & Hm & _). apply starts_length in Hs.
  rewrite length_drop, length_app in *. change (length BLANK) with 4 in Hs.
  destruct y; [done|]. cbn [length] in *. lia.
Qed.

(** Where the loop has got to. *)
Definition framing (h body : bytes) s (p : page) s1 : Prop :=
  zread s s1 ∧ roomy p ∧ buf p ++ coming s1 = h ++ body ∧
  ((header_len p = 0 ∧ content_length p = (-1)%Z ∧ length (buf p) < length h) ∨
   (header_len p = length h ∧ content_length p = Z.of_nat (length body) ∧ length h ≤ length (buf p))).

Lemma framing_whole h body s p s1 :
  head h (length body) → framing h body s p s1 →
  complete p = true ∨ (coming s1 = []) → buf p = h ++ body.
Proof.
  intros (_ & _ & Hl & _) (_ & _ & Hb & Hcase) [Hc|Hc]; [|by rewrite Hc, app_nil_r in Hb].
  unfold complete in Hc. apply bool_decide_eq_true in Hc as (H1 & H2 & H3).
  destruct Hcase as [(E & _)|(E1 & E2 & _)]; [lia|]. rewrite E1, E2, Nat2Z.id in H3.
  apply (f_equal (take (length (buf p)))) in Hb. rewrite take_app_length in Hb.
  rewrite Hb. apply take_ge. rewrite length_app. lia.
Qed.
Lemma framing_not_done h body s p s1 :
  head h (length body) → framing h body s p s1 → complete p = false → coming s1 ≠ [].
Proof.
  intros Hh Hf Hc Hnil. pose proof (framing_whole _ _ _ _ _ Hh Hf (or_intror Hnil)) as Hb.
  destruct Hf as (_ & _ & _ & [(_ & _ & Hlt)|(E1 & E2 & Hle)]); [rewrite Hb, length_app in Hlt; lia|].
  destruct Hh as (_ & _ & Hl & _). unfold complete in Hc. apply bool_decide_eq_false in Hc. apply Hc.
  rewrite E1, E2, Nat2Z.id, Hb, length_app. lia.
Qed.

Lemma framing_arrived h body s p s1 s2 b :
  head h (length body) → framing h body s p s1 → zread s s2 → roomy (arrived p b) →
  coming s1 = b ++ coming s2 → framing h body s (arrived p b) s2.
Proof.
  intros Hh (_ & _ & Hb & Hcase) Hz Hr Hx. rewrite Hx, app_assoc in Hb.
  assert (buf (arrived p b) = buf p ++ b) as Eb by (unfold arrived; by rewrite (proj1 (look_buf _))).
  split; [done|]. split; [done|]. split; [by rewrite Eb|]. rewrite Eb.
  pose proof Hh as (Hn & Hbl & Hl & Ha).
  destruct Hcase as [(E1 & E2 & Hlt)|(E1 & E2 & Hle)].
  2:{ right. unfold arrived, look. cbn [header_len]. rewrite E1, decide_False by lia. cbn.
      split_and!; [done..|]. rewrite length_app. lia. }
  unfold arrived, look. cbn [header_len buf]. rewrite E1, decide_True by done.
  destruct (decide (length h ≤ length (buf p ++ b))) as [Hge|Hlt2].
  - right. destruct (app_prefix_split _ _ _ _ (eq_sym Hb) Hge) as (x & Ex & _). rewrite Ex.
    rewrite c_str_app, (strstr_grows _ _ _ _ Hbl), Ha by done. cbn.
    split_and!; [lia|done|rewrite length_app; lia].
  - left. destruct (app_prefix_split _ _ _ _ Hb ltac:(lia)) as (y & Ey & _).
    rewrite (prefix_no_blank h (buf p ++ b) y (length body) Hh Ey); [split_and!; [done..|lia]|].
    intros ->. rewrite app_nil_r in Ey. rewrite Ey in Hlt2. lia.
Qed.

Lemma wp_slurp_framed ec h body s :
  head h (length body) → ok_tls s → malloc_q (zw s) = [] → coming s = h ++ body →
  wp (slurp ec) (λ o s', o = Some (h ++ body) ∧ zread s s') (λ _, False) s.
Proof.
  intros Hh Htls Hm Hc. unfold slurp. wp_step. unfold wp at 1, zsysp, sys_malloc. rewrite Hm.
  apply wp_while with (I := framing h body s).
  2:{ destruct s as [c w e g]. cbn in *. split; [by split_and!; cbn; try done; set_solver|].
      split; [split; cbn [pcap buf length]; lia|]. split; [exact Hc|]. left.
      split_and!; [done..|]. destruct Hh as (_ & _ & Hl & _). cbn [buf length]. lia. }
  intros p s1 Hf. pose proof Hf as (Hz & Hr & Hb & _).
  assert (ok_tls s1) as Htls1 by (unfold ok_tls in *; by destruct Hz as [-> _]).
  assert (malloc_q (zw s1) = []) as Hm1 by (destruct Hz as (_ & _ & _ & _ & Hq & _); auto).
  eapply wp_mono; [by apply wp_slurp_round| |].
  2:{ intros s2 [Hnil Hnc]. by eapply framing_not_done. }
  intros [p'|[raw|]] s2.
  - intros (Hz2 & Hr2 & Hnc & Hlt & Hor). split; [|exact Hlt].
    assert (zread s s2) as Hz' by by transitivity s1.
    destruct Hor as [(b & Hbn & Hx & ->)|[Hx ->]]; [by eapply framing_arrived|].
    destruct Hf as (_ & _ & Hb' & Hcase). split; [done|]. split; [done|]. split; [|exact Hcase].
    cbn [retried buf]. by rewrite <- Hx.
  - intros (-> & Hz2 & Hor). split; [|by transitivity s1].
    f_equal. eapply framing_whole; [done..|exact Hor].
  - intros (_ & _ & _ & _ & Hnc & Hnil). exfalso. eapply framing_not_done; [done..|]. auto.
Qed.

(** ** Asking *)

(** What a write changes. *)
Definition zsent s s' : Prop :=
  zc s' = zc s ∧ fds (zw s') = fds (zw s) ∧ zcfg s' = zcfg s ∧
  dom (handles (zw s')) ⊆ dom (handles (zw s)) ∪ (match ztls (zc s) with Some h => {[h]} | None => ∅ end).
#[global] Instance zsent_refl : Reflexive zsent.
Proof. intros s. split_and!; try done. set_solver. Qed.
#[global] Instance zsent_trans : Transitive zsent.
Proof.
  intros s1 s2 s3 (E1 & E2 & E3 & D1) (F1 & F2 & F3 & D2).
  split_and!; try congruence. rewrite E1 in D2. set_solver.
Qed.
Lemma zread_sent s s' : zread s s' → zsent s s'.
Proof.
  intros (E1 & E2 & _ & E4 & _ & D). split_and!; try done. by apply (f_equal fds) in E2.
Qed.

Lemma wp_zt_write p s :
  ok_tls s →
  wp (zt_write p) (λ o s', zsent s s' ∧ (tx (zw s) ≠ [] → length (tx (zw s')) < length (tx (zw s))) ∧
    (tx (zw s) = [] → o = Some (length p) ∧ s' = Zst (zc s) (set_sent (sent (zw s) ++ p) (zw s)) (zerr s) (zcfg s)) ∧
    (∀ k, o = Some (S k) → 0 < length p))
    (λ _, tx (zw s) ≠ []) s.
Proof.
  intros Htls. unfold zt_write, zget. wp_steps. unfold wp.
  assert (∀ w', fds w' = fds (zw s) → handles w' = handles (zw s) → zsent s (Zst (zc s) w' (zerr s) (zcfg s))) as Hs.
  { intros w' E1 E2. split_and!; try done. cbn. rewrite E2. set_solver. }
  assert (∀ h k w', ztls (zc s) = Some h → fds w' = fds (zw s) → handles w' = handles (zw s) →
    zsent s (Zst (zc s) (note h k w') (zerr s) (zcfg s))) as Hn.
  { intros h k w' Eh E1 E2. split_and!; try done. cbn. rewrite dom_insert, E2, Eh. set_solver. }
  assert (∀ k n, Some (k `min` length p) = Some (S n) → 0 < length p) as Hmin by (intros ? ? [= ?]; lia).
  assert (∀ n, Some (length p) = Some (S n) → 0 < length p) as Hlen by (intros ? [= ?]; lia).
  destruct (ztls (zc s)) as [h|] eqn:E.
  - destruct Htls as [?|Hb]; [congruence|]. unfold zsys, coco_client_tls_send. rewrite Hb.
    destruct (tx (zw s)) as [|[[|k]|e|k|] r] eqn:Et; cbn -[Nat.min take]; try done;
      (split; [first [by apply Hs | by apply Hn]|]; split; [intros; cbn; lia || done|];
       split; [by intros|]; first [exact Hlen | by apply Hmin | done]).
  - unfold zsys, sys_send.
    destruct (tx (zw s)) as [|[k|e|k|] r] eqn:Et; cbn -[Nat.min take]; try done;
      (split; [first [by apply Hs | by apply Hn]|]; split; [intros; cbn; lia || done|];
       split; [by intros|]; first [exact Hlen | by apply Hmin | done]).
Qed.

(** How a request that could not be sent leaves things. *)
Definition hung_up s s' : Prop :=
  zc s' = ZtConn (-1) None ∧ zcfg s' = zcfg s ∧
  fds (zw s') = filter (λ d, d ≠ zfd (zc s)) (fds (zw s)) ∧
  dom (handles (zw s')) ⊆ dom (handles (zw s)) ∖ (match ztls (zc s) with Some h => {[h]} | None => ∅ end).

Lemma zsent_hung_up s s1 s2 : zsent s s1 → hung_up s1 s2 → hung_up s s2.
Proof.
  intros (E1 & E2 & E3 & D1) (F1 & F2 & F3 & D2). split_and!; [done|congruence|by rewrite F3, E1, E2|].
  rewrite E1 in D2. destruct (ztls (zc s)); set_solver.
Qed.

Lemma wp_zt_hangup {B} (k : M zst B) s Q Bl :
  (0 ≤ zfd (zc s))%Z →
  (∀ s', hung_up s s' → malloc_q (zw s') = malloc_q (zw s) → sent (zw s') = sent (zw s) → wp k Q Bl s') →
  wp (zt_hangup ;; k) Q Bl s.
Proof.
  intros Hf Hk. unfold zt_hangup, zget, zmod_w, zset_c, when. wp_steps. rewrite bool_decide_true by done.
  destruct (ztls (zc s)) as [h|] eqn:E; wp_steps; apply Hk; try done; split_and!; try done; cbn.
  - rewrite dom_delete, E. set_solver.
  - rewrite E. set_solver.
Qed.

Lemma wp_ask ec p s :
  ok_tls s → (0 ≤ zfd (zc s))%Z →
  wp (ask ec p) (λ ok s', if ok then zsent s s' ∧ (tx (zw s) = [] →
                    s' = Zst (zc s) (set_sent (sent (zw s) ++ p) (zw s)) (zerr s) (zcfg s))
                  else hung_up s s' ∧ tx (zw s) ≠ []) (λ _, tx (zw s) ≠ []) s.
Proof.
  intros Htls Hfd. unfold ask.
  apply wp_while with (I := λ q s1, zsent s s1 ∧ (tx (zw s) = [] →
    (q = p ∧ s1 = s) ∨ (q = [] ∧ s1 = Zst (zc s) (set_sent (sent (zw s) ++ p) (zw s)) (zerr s) (zcfg s)))).
  2:{ split; [done|]. intros _. by left. }
  intros q s1 [Hz Hcalm]. unfold ask_round. destruct q as [|x q'] eqn:Eq.
  { apply wp_ret. split; [done|]. intros Ht. destruct (Hcalm Ht) as [[<- ->]|[_ ->]]; [|done].
    rewrite app_nil_r. by destruct s as [? [] ? ?]. }
  rewrite <- Eq in *. assert (q ≠ []) as Hq by (by subst q).
  assert (tx (zw s) = [] → tx (zw s1) = []) as Htx.
  { intros Ht. by destruct (Hcalm Ht) as [[_ ->]|[_ ->]]. }
  assert (zc s1 = zc s) as Ec by apply Hz.
  wp_step. eapply wp_mono; [apply wp_zt_write; unfold ok_tls in *; by rewrite Ec| |by eauto].
  intros o s2 (Hz2 & Hless & Hcalm2 & Hpos). wp_step. apply wp_gets. cbv beta.
  assert (zsent s s2) as Hz' by by transitivity s1.
  assert (tx (zw s) ≠ [] → ∀ k, wp (zt_hangup ;; fail ec $"write failed" k ;; ret (inr false))
    (λ (r : bytes + bool) s', match r with
       | inl a' => (zsent s s' ∧ (tx (zw s) = [] → (a' = p ∧ s' = s) ∨
          (a' = [] ∧ s' = Zst (zc s) (set_sent (sent (zw s) ++ p) (zw s)) (zerr s) (zcfg s)))) ∧
          length a' + length (tx (zw s')) < length q + length (tx (zw s1))
       | inr b => if b then zsent s s' ∧ (tx (zw s) = [] →
                    s' = Zst (zc s) (set_sent (sent (zw s) ++ p) (zw s)) (zerr s) (zcfg s))
                  else hung_up s s' ∧ tx (zw s) ≠ [] end) (λ _, tx (zw s) ≠ []) s2) as Hlost.
  { intros Hne k. apply wp_zt_hangup; [by rewrite (proj1 Hz2), Ec|]. intros s3 Hh _ _.
    wp_step. apply wp_fail. intros e. apply wp_ret. split; [|done].
    by apply (zsent_hung_up _ s2). }
  assert (tx (zw s) = [] → o = Some (length q)) as Hall by (intros Ht; by destruct (Hcalm2 (Htx Ht))).
  assert (tx (zw s) ≠ [] ∨ tx (zw s) = []) as [Hne|Hnil] by (destruct (tx (zw s)); [by right|by left]).
  - destruct o as [[|k]|]; [by apply Hlost| |].
    + apply wp_ret. split; [split; [done|by intros]|]. rewrite length_drop. specialize (Hpos k eq_refl).
      destruct (tx (zw s1)) eqn:Et; [|specialize (Hless ltac:(done)); lia].
      destruct (Hcalm2 eq_refl) as [_ ->]. cbn. rewrite Et. cbn. lia.
    + case_decide; [|by apply Hlost]. apply wp_ret. split; [split; [done|by intros]|].
      destruct (tx (zw s1)) eqn:Et; [by destruct (Hcalm2 eq_refl)|]. specialize (Hless ltac:(done)). lia.
  - destruct (Hcalm Hnil) as [[-> ->]|[-> _]]; [|done]. destruct (Hcalm2 Hnil) as [-> ->].
    destruct (length p) as [|k] eqn:El; [by apply nil_length_inv in El|].
    apply wp_ret. rewrite <- El, drop_all. split; [split; [done|]|cbn; lia]. intros _. by right.
Qed.

(** ** The whole of a GET *)

Definition handle_of s : gset nat := match ztls (zc s) with Some h => {[h]} | None => ∅ end.
(** Connected through [zfd], and nothing else open that was not in [l] and [hs]. *)
Definition holding_on (l : list Z) (hs : gset nat) s : Prop :=
  (0 ≤ zfd (zc s))%Z ∧ zfd (zc s) ∉ l ∧ fds (zw s) = (zfd (zc s) :: l) ∧
  dom (handles (zw s)) ⊆ hs ∪ handle_of s ∧ ok_tls s.
Definition let_go (l : list Z) (hs : gset nat) s : Prop :=
  fds (zw s) = l ∧ dom (handles (zw s)) ⊆ hs.

Lemma hung_up_let_go l hs s s' : holding_on l hs s → hung_up s s' → let_go l hs s'.
Proof.
  intros (Hp & Hn & Hd & Hh & _) (_ & _ & Hd' & Hh'). split.
  - rewrite Hd', Hd, filter_cons_False by naive_solver. by apply filter_fresh.
  - unfold handle_of in Hh. destruct (ztls (zc s)); set_solver.
Qed.
Lemma zsent_holding l hs s s' : holding_on l hs s → zsent s s' → holding_on l hs s'.
Proof.
  intros (Hp & Hn & Hd & Hh & Hok) (E1 & E2 & _ & D). unfold holding_on, handle_of, ok_tls in *.
  rewrite E1, E2. split_and!; try done. destruct (ztls (zc s)); set_solver.
Qed.

Lemma wp_zt_dial ec s :
  fresh (zw s) →
  wp (zt_dial ec)
     (λ o s', zcfg s' = zcfg s ∧
        match o with
        | Some f => (0 ≤ f)%Z ∧ f ∉ fds (zw s) ∧ fds (zw s') = (f :: fds (zw s)) ∧
                    dom (handles (zw s')) = dom (handles (zw s))
        | None => let_go (fds (zw s)) (dom (handles (zw s))) s'
        end) (λ _, True) s.
Proof.
  intros Hf. unfold zt_dial. wp_step. unfold wp at 1, zsys, sys_getaddrinfo.
  destruct (dial_q (zw s)) as [|d q]; [done|]. destruct d as [rc|l].
  { unfold failing. wp_step. apply wp_fail. intros e. apply wp_ret. by split_and!. }
  wp_step. unfold wp at 1, zsysp. cbn [zw].
  destruct (connect_first l (set_dial_q q (zw s))) as [o w] eqn:Ec.
  assert (handles w = handles (zw s)) as Hh.
  { change (handles (zw s)) with (handles (set_dial_q q (zw s))). clear -Ec. revert Ec.
    generalize (set_dial_q q (zw s)). induction l as [|[e|e|r t] l IH]; intros w0; cbn;
      [by intros [= _ <-]|intros E; by apply IH in E..|by intros [= _ <-]]. }
  apply connect_first_spec in Ec; [|done]. cbn in Ec. destruct o as [f|].
  - apply wp_ret. destruct Ec as (? & ? & ? & _). cbn. rewrite Hh. by split_and!.
  - destruct Ec as [Hd _]. wp_step. apply wp_gets. unfold failing. wp_step. apply wp_fail. intros e.
    apply wp_ret. split; [done|]. split; cbn; [done|by rewrite Hh].
Qed.

Lemma wp_zt_secure ec host tls l hs s :
  holding_on l hs s → ztls (zc s) = None →
  wp (zt_secure ec host tls)
     (λ ok s', if ok then holding_on l hs s' ∧ (is_Some tls → is_Some (ztls (zc s')))
               else let_go l hs s') (λ _, True) s.
Proof.
  intros Hon Hz. pose proof Hon as (Hp & Hn & Hd & Hh & _). unfold handle_of in Hh. rewrite Hz in Hh.
  unfold zt_secure, zget. destruct tls as [o|]; [|apply wp_ret; split; [done|by intros []]].
  assert (∀ w', fds w' = fds (zw s) → handles w' = handles (zw s) → ∀ c e g,
    let_go l hs (Zst c (sys_close (zfd (zc s)) w') e g)) as Hclose.
  { intros w' E1 E2 c e g. split; cbn -[filter]; [|rewrite E2; set_solver].
    rewrite E1, Hd, filter_cons_False by naive_solver. by apply filter_fresh. }
  wp_step. apply wp_gets. cbv beta. destruct tls_linked.
  2:{ wp_step. apply wp_modify, wp_fail. intros e. by apply Hclose. }
  wp_step. unfold wp at 1, zsys, sys_tls_open.
  assert (∀ w' e, fds w' = fds (zw s) → handles w' = handles (zw s) →
    wp ((if decide (default 0 ec = 0) then ret tt else zset_err e) ;;
        zmod_w (sys_close (zfd (zc s))) ;; ret false)
       (λ ok s', if ok then holding_on l hs s' ∧ (is_Some (Some o) → is_Some (ztls (zc s'))) else let_go l hs s')
       (λ _, True) (Zst (zc s) w' (zerr s) (zcfg s))) as Hbad.
  { intros w' e E1 E2. wp_step. case_decide; [apply wp_ret|apply wp_modify]; cbv beta; wp_step;
      apply wp_modify, wp_ret; by apply Hclose. }
  destruct tls_openssl eqn:Eo; [|by apply Hbad].
  destruct (hs_q (zw s)) as [|an q]; [done|].
  destruct (coco_client_tls_open _ _ _ _ _) as [[] b]; [|by apply Hbad].
  wp_step. apply wp_modify, wp_ret. cbn. split; [|by eexists]. unfold holding_on, handle_of, ok_tls. cbn.
  split_and!; [done..| |by right]. rewrite dom_insert. set_solver.
Qed.

Lemma wp_page_of ec raw s :
  wp (page_of ec raw) (λ o s', fds (zw s') = fds (zw s) ∧ handles (zw s') = handles (zw s)) (λ _, False) s.
Proof.
  unfold page_of, failing. destruct (strstr (c_str raw) CRLF); [|wp_step; apply wp_fail; intros e; by apply wp_ret].
  case_decide; [|wp_step; apply wp_fail; intros e; by apply wp_ret].
  destruct (strstr (c_str raw) BLANK); [|wp_step; apply wp_fail; intros e; by apply wp_ret].
  wp_step. unfold wp at 1, zsysp, sys_malloc. destruct (malloc_q (zw s)) as [|[] q].
  - by apply wp_ret.
  - by apply wp_ret.
  - wp_step. apply wp_fail. intros e. by apply wp_ret.
Qed.

(** Any response at all: the loop ends or waits, still connected. *)
Lemma wp_slurp_any ec l hs s :
  holding_on l hs s → wp (slurp ec) (λ _ s', holding_on l hs s') (λ _, True) s.
Proof.
  intros Hon. unfold slurp. wp_step. unfold wp at 1, zsysp.
  destruct (sys_malloc (zw s)) as [ok w] eqn:Em.
  assert (fds w = fds (zw s) ∧ handles w = handles (zw s)) as [E1 E2].
  { unfold sys_malloc in Em. destruct (malloc_q (zw s)); by injection Em as <- <-. }
  assert (∀ e, holding_on l hs (Zst (zc s) w e (zcfg s))) as Hon'.
  { intros e. unfold holding_on in *. cbn. by rewrite E1, E2. }
  destruct ok; [|unfold failing; wp_step; apply wp_fail; intros e; by apply wp_ret].
  apply wp_while with (I := λ p s1, holding_on l hs s1 ∧ roomy p).
  2:{ split; [apply Hon'|]. split; cbn [pcap buf length]; lia. }
  intros p s1 [Hon1 Hr]. eapply wp_mono; [apply wp_slurp_round; [done|apply Hon1]| |done].
  intros [p'|[raw|]] s2.
  - intros (Hz & Hr' & _ & Hlt & _). split; [|exact Hlt]. split; [|done].
    by eapply zsent_holding, zread_sent.
  - intros (_ & Hz & _). by eapply zsent_holding, zread_sent.
  - intros (Hc & Hw & Hg & Hdm & _). eapply zsent_holding; [done|]. split_and!; [done| |done|done].
    by apply (f_equal fds) in Hw.
Qed.
End page.

Section gets.
Context `{Engine} `{Platform}.
Implicit Types s : zst.

Lemma wp_clear_err {B} ec (k : M zst B) s Q Bl :
  (∀ e, wp k Q Bl (Zst (ZtConn (-1) None) (zw s) e (zcfg s))) →
  wp (zset_c (ZtConn (-1) None) ;; (if decide (default 0 ec = 0) then ret tt else zset_err []) ;; k) Q Bl s.
Proof.
  intros Hk. wp_step. apply wp_modify. wp_step. case_decide; [apply wp_ret|apply wp_modify]; apply Hk.
Qed.

(** C15. A GET leaves nothing open.  However it ends -- a name that does not
    resolve, a refused connection or handshake, a request that could not be
    sent, a response cut short, memory running out, or a page -- [zt_get2]
    leaves exactly the descriptors there were before it and no TLS session
    that was not there. *)
Theorem get_leaves_nothing_open host service path tls ec s :
  fresh (zw s) →
  wp (zt_get2 host service path tls ec)
     (λ _ s', fds (zw s') = fds (zw s) ∧ dom (handles (zw s')) ⊆ dom (handles (zw s))) (λ _, True) s.
Proof.
  intros Hf. apply wp_clear_err. intros e0. cbv zeta. case_decide.
  { unfold failing. wp_step. apply wp_fail. intros e. by apply wp_ret. }
  set (l := fds (zw s)). set (hs := dom (handles (zw s))).
  wp_step. eapply wp_mono; [by apply wp_zt_dial| |done]. intros [f|] s1 (Hg & Hd); [|exact Hd].
  destruct Hd as (Hp & Hn & Hd & Hh). wp_step. apply wp_modify.
  assert (holding_on l hs (Zst (ZtConn f None) (zw s1) (zerr s1) (zcfg s1))) as Hon.
  { split_and!; try done; [|by left]. cbn. unfold handle_of. cbn. rewrite Hh. set_solver. }
  wp_step. eapply wp_mono; [by apply wp_zt_secure| |done]. intros [] s2; [|by intros [? ?]].
  intros [Hon2 _]. wp_step. eapply wp_mono; [apply wp_ask; apply Hon2| |done]. intros [] s3.
  2:{ intros [Hh3 _]. by eapply hung_up_let_go. }
  intros [Hz3 _]. pose proof (zsent_holding _ _ _ _ Hon2 Hz3) as Hon3. wp_step.
  eapply wp_mono; [by apply wp_slurp_any| |done]. intros raw s4 Hon4.
  apply wp_zt_hangup; [apply Hon4|]. intros s5 Hh5 _ _. pose proof (hung_up_let_go _ _ _ _ Hon4 Hh5) as Hgo.
  destruct raw as [raw|]; [|by apply wp_ret].
  eapply wp_mono; [apply wp_page_of| |done]. intros o s6 [E1 E2]. rewrite E1, E2. exact Hgo.
Qed.

(** A request that does not fit is not sent.  When the request line and
    headers would be 2048 bytes or more, [zt_get2] says so without resolving,
    connecting or sending anything. *)
Theorem long_request_not_sent host service path tls ec s :
  REQUEST_SIZE ≤ length (request_text host service path) →
  wp (zt_get2 host service path tls ec)
     (λ o s', o = None ∧ zw s' = zw s ∧
        (∀ n, ec = Some (S n) → zerr s' = snprintf_ss (S n) $"the request line is too long" path))
     (λ _, False) s.
Proof.
  intros Hl. apply wp_clear_err. intros e0. cbv zeta. rewrite decide_True by done.
  unfold failing, fail. destruct ec as [[|n]|]; split_and!; try done. by intros ? [= <-].
Qed.

(** The head of a good answer: the status the code looks for. *)
Definition good_head (h : bytes) (n : nat) : Prop :=
  head h n ∧ starts $"HTTP/1." h = true ∧ strstr h $" 200 " = Some 8 ∧ is_Some (strstr h CRLF).

Lemma wp_page_of_good ec h body s :
  good_head h (length body) → malloc_q (zw s) = [] →
  wp (page_of ec (h ++ body)) (λ o s', o = Some body ∧ s' = s) (λ _, False) s.
Proof.
  intros ((Hn & Hb & Hl & _) & Hs & Hok & [e Hcr]) Hm. unfold page_of.
  rewrite c_str_app by done. rewrite (strstr_grows _ _ _ _ Hcr).
  rewrite decide_True by (split; [by apply starts_app_l|by apply strstr_grows]).
  rewrite (strstr_grows _ _ _ _ Hb). wp_step. unfold wp at 1, zsysp, sys_malloc. rewrite Hm.
  apply wp_ret. split; [|by destruct s]. f_equal.
  rewrite drop_app_ge by lia. replace (length h - 4 + 4 - length h) with 0 by lia. done.
Qed.

(** C14. A page arrives whole.  When the server takes the request and answers
    with a status of 200, headers that announce the length of the body, and
    the body -- in whatever pieces, read interrupted or not, and with no need
    to close afterwards -- a plain GET sends exactly the request, answers
    exactly the body, and leaves no socket open. *)
Theorem page_arrives_whole host service path ec h body r q dq s :
  fresh (zw s) → malloc_q (zw s) = [] → length (request_text host service path) < REQUEST_SIZE →
  dial_q (zw s) = GaiList (q ++ [Connected r []]) :: dq →
  Forall (λ a, match a with Connected _ _ => False | _ => True end) q →
  rx_data true r = h ++ body → good_head h (length body) →
  wp (zt_get2 host service path None ec)
     (λ o s', o = Some body ∧ sent (zw s') = request_text host service path ∧
              fds (zw s') = fds (zw s) ∧ zc s' = ZtConn (-1) None) (λ _, False) s.
Proof.
  intros Hf Hm Hl Hd Hq Hr Hh. apply wp_clear_err. intros e0. cbv zeta. rewrite decide_False by lia.
  wp_step. unfold zt_dial. wp_step. unfold wp at 1, zsys, sys_getaddrinfo. cbn [zw]. rewrite Hd.
  wp_step. unfold wp at 1, zsysp. cbn [zw].
  assert (∃ f w, connect_first (q ++ [Connected r []]) (set_dial_q dq (zw s)) = (Some f, w) ∧
    rx w = r ∧ tx w = [] ∧ sent w = [] ∧ malloc_q w = [] ∧ fds w = (f :: fds (zw s)) ∧ f ∉ fds (zw s) ∧ (0 ≤ f)%Z)
    as (f' & w & Ec & Hrx & Htx & Hse & Hmw & Hfd & Hnf & Hpos).
  { destruct (connect_first (q ++ [Connected r []]) (set_dial_q dq (zw s))) as [o w] eqn:Ec.
    pose proof (connect_first_spec _ (set_dial_q dq (zw s)) o w Hf Ec) as Hsp. cbn in Hsp.
    assert (malloc_q (set_dial_q dq (zw s)) = []) as Hm0 by done. revert Ec Hm0. clear Hd Hr Hm.
    generalize (set_dial_q dq (zw s)). induction Hq as [|a q Ha Hq IH]; intros w0 Ec Hm0.
    - cbn in Ec. injection Ec as <- <-. destruct Hsp as (? & ? & ? & ? & ?). eexists _, _.
      split; [done|]. by split_and!.
    - destruct a as [e|e|]; [by apply (IH _ Ec)|by apply (IH _ Ec)|done]. }
  rewrite Ec. apply wp_ret. cbv beta. wp_step. apply wp_modify. cbn [zw zerr zcfg].
  wp_step. unfold zt_secure. apply wp_ret. cbv beta.
  set (s1 := Zst (ZtConn f' None) w e0 (zcfg s)).
  wp_step. eapply wp_mono; [apply (wp_ask ec _ s1); [by left|done]| |intros s' Hne; by destruct (Hne Htx)].
  intros [] s2; [|intros [_ Hne]; by destruct (Hne Htx)]. intros [_ Hs2]. specialize (Hs2 Htx). subst s2.
  wp_step. eapply wp_mono; [apply (wp_slurp_framed ec h body)| |done].
  - apply Hh.
  - by left.
  - done.
  - unfold coming, plain_text, s1. cbn. by rewrite Hrx.
  - intros o s3 (-> & Hz). destruct Hz as (Hz1 & Hz2 & _ & _ & Hz5 & _).
    apply wp_zt_hangup; [by rewrite Hz1|]. intros s4 Hu Hmq Hst.
    eapply wp_mono; [apply wp_page_of_good; [done|rewrite Hmq; by apply Hz5]| |done].
    intros o s5 (-> & ->). destruct Hu as (Hc & _ & Hfds & _). split_and!; [done| | |done].
    + rewrite Hst. apply (f_equal sent) in Hz2. cbn in Hz2. rewrite Hz2, Hse. done.
    + rewrite Hfds, Hz1. apply (f_equal fds) in Hz2. cbn in Hz2. rewrite Hz2, Hfd. cbn [zc zfd].
      rewrite filter_cons_False by naive_solver. by apply filter_fresh.
Qed.
End gets.

Definition toy_head : bytes := $"HTTP/1.1 200 OK" ++ CRLF ++ $"Content-Length: 5" ++ BLANK.
Definition toy_web (r : list rx_ev) : zst :=
  Zst (ZtConn (-1) None) (set_dial_q [GaiList [NoConnect 111; Connected r []]] (toy_world [] [])) [] None.
Definition toy_pieces : list rx_ev :=
  [RxData (take 20 toy_head); RxErr EINTR; RxData (drop 20 toy_head ++ $"he"); RxData $"llo"].

Lemma toy_head_good : good_head toy_head 5.
Proof.
  split; [|split; [by vm_compute|split; [by vm_compute|by vm_compute; eexists]]].
  split; [apply (bool_decide_unpack _); by vm_compute|]. split; [by vm_compute|].
  split; [vm_compute; lia|]. intros x. reflexivity.
Qed.

Lemma fresh_toy_web r : fresh (zw (toy_web r)).
Proof. split; [cbn; lia|]. apply Forall_cons. split; [cbn; lia|by apply Forall_nil]. Qed.

Lemma page_arrives_whole_witness :
  wp (zt_get2 $"h" $"80" $"/p" None (Some 128))
     (λ o s', o = Some $"hello" ∧ fds (zw s') = [3%Z]) (λ _, False) (toy_web toy_pieces).
Proof.
  eapply wp_mono;
    [apply (page_arrives_whole $"h" $"80" $"/p" (Some 128) toy_head $"hello" toy_pieces [NoConnect 111] [])|..].
  - apply fresh_toy_web.
  - done.
  - vm_compute. lia.
  - done.
  - by repeat constructor.
  - by vm_compute.
  - apply toy_head_good.
  - intros o s' (-> & _ & Hd & _). done.
  - done.
Defined.

Lemma get_leaves_nothing_open_witness :
  wp (zt_get2 $"h" $"80" $"/p" (Some (TlsOptions None None None None None false)) None)
     (λ _ s', fds (zw s') = [3%Z]) (λ _, True) (toy_web [RxErr 104]).
Proof.
  eapply wp_mono; [apply (get_leaves_nothing_open _ _ _ _ _ _ (fresh_toy_web _))| |done].
  intros o s' Hs. apply Hs.
Defined.

Lemma long_request_not_sent_witness :
  wp (zt_get2 $"h" $"80" (replicate 2000 (byte_of 97)) None (Some 64))
     (λ o s', o = None ∧ sent (zw s') = []) (λ _, False) (toy_web []).
Proof.
  eapply wp_mono; [apply (long_request_not_sent $"h" $"80" (replicate 2000 (byte_of 97)) None (Some 64))|..].
  - apply (bool_decide_unpack _). by vm_compute.
  - intros o s' (-> & Hw & _). by rewrite Hw.
  - done.
Defined.

(** The server hangs up two bytes into a body announced as five: what came is
    answered as the page. *)
Example short_page_answered :
  match zt_get2 $"h" $"80" $"/p" None None (toy_web [RxData (toy_head ++ $"he"); RxData []]) with
  | Ret o _ => o = Some $"he" | _ => False end.
Proof. by vm_compute. Qed.
(** Bytes that arrive with the last of the body are answered as part of it. *)
Example long_page_answered :
  match zt_get2 $"h" $"80" $"/p" None None (toy_web [RxData (toy_head ++ $"hello, and more")]) with
  | Ret o _ => o = Some $"hello, and more" | _ => False end.
Proof. by vm_compute. Qed.
