(* ===== verification/Float.v ===== *)
(** * The C's floating point

    A double and a float are the values of IEEE 754 in the Standard Library's
    [SpecFloat]; each operation rounds to nearest, ties to even, in its own
    format.  The conversions the C makes between them and the integers. *)
From Stdlib Require Import Floats.SpecFloat.
From S2P Require Import Prelude.

Local Open Scope Z_scope.

Abbreviation float64 := spec_float.
Abbreviation float32 := spec_float.

(** A double cast to a float. *)
Definition narrow (d : float64) : float32 :=
  match d with
  | S754_finite s m e => binary_normalize 24 128 (cond_Zopp s (Zpos m)) e s
  | other => other
  end.
(** A float where a double is wanted: the same number. *)
Definition widen (f : float32) : float64 :=
  match f with
  | S754_finite s m e => binary_normalize 53 1024 (cond_Zopp s (Zpos m)) e s
  | other => other
  end.
Definition double_of (n : Z) : float64 := binary_normalize 53 1024 n 0 false.
Definition float_of (n : Z) : float32 := binary_normalize 24 128 n 0 false.
(** The double nearest to m 2^e, for the constants of the source. *)
Definition dyadic (m e : Z) : float64 := binary_normalize 53 1024 m e false.

Definition fadd : float64 → float64 → float64 := SFadd 53 1024.
Definition fsub : float64 → float64 → float64 := SFsub 53 1024.
Definition fmul : float64 → float64 → float64 := SFmul 53 1024.
Definition fdiv : float64 → float64 → float64 := SFdiv 53 1024.
Definition fsub32 : float32 → float32 → float32 := SFsub 24 128.

Definition fits_int (z : Z) : Prop := -2147483648 ≤ z ≤ 2147483647.
#[export] Instance fits_int_decision z : Decision (fits_int z).
Proof. unfold fits_int. apply _. Defined.
(** An int computed: C does not say what overflow gives. *)
Definition int_ (z : Z) : option Z := if decide (fits_int z) then Some z else None.

(** [(int) f]: towards zero; not defined outside an int's range. *)
Definition trunc (f : float64) : option Z :=
  match f with
  | S754_zero _ => Some 0
  | S754_finite s m e =>
      int_ (cond_Zopp s (if decide (0 ≤ e) then Zpos m * 2 ^ e else Zpos m / 2 ^ (- e)))
  | _ => None
  end.
(** ceil(3) *)
Definition ceil (f : float64) : float64 :=
  match f with
  | S754_finite s m e =>
      if decide (0 ≤ e) then f
      else binary_normalize 53 1024 (- ((- cond_Zopp s (Zpos m)) / 2 ^ (- e))) 0 s
  | other => other
  end.

(** ** A float's four bytes, least significant first *)

Definition float32_of_bits (b : Z) : float32 :=
  let s := Z.testbit b 31 in
  let e := Z.land (Z.shiftr b 23) 255 in
  let m := Z.land b 8388607 in
  if decide (e = 255) then (if decide (m = 0) then S754_infinity s else S754_nan)
  else if decide (e = 0) then
    match m with Zpos p => S754_finite s p (-149) | _ => S754_zero s end
  else match m + 8388608 with Zpos p => S754_finite s p (e - 150) | _ => S754_nan end.
Definition bits_of_float32 (f : float32) : Z :=
  let sign s := if (s : bool) then 2147483648 else 0 in
  match f with
  | S754_zero s => sign s
  | S754_infinity s => sign s + 2139095040
  | S754_nan => 2143289344
  | S754_finite s m e =>
      sign s + (if decide (Zpos m < 8388608) then Zpos m else (e + 150) * 8388608 + (Zpos m - 8388608))
  end.
