(* ===== verification/Rounding.v ===== *)
(** * Rounding to nearest, over the reals

    What the operations of [SpecFloat] compute: the number of the format
    nearest to the real result, as long as that does not overflow.  The lemmas
    are for any precision; Float.v's operations are the instances. *)
From Stdlib Require Import Reals Lra Floats.SpecFloat.
From S2P Require Import Prelude Float.

Local Open Scope R_scope.

(** ** Powers of two *)

Definition bp (e : Z) : R := powerRZ 2 e.

Lemma bp_pos e : 0 < bp e.
Proof. apply powerRZ_lt. lra. Qed.
Lemma bp_ne e : bp e ≠ 0.
Proof. apply Rgt_not_eq, bp_pos. Qed.
Lemma bp_add a b : bp (a + b) = bp a * bp b.
Proof. apply powerRZ_add. lra. Qed.
Lemma bp_IZR n : (0 <= n)%Z → bp n = IZR (2 ^ n).
Proof.
  intros Hn. unfold bp. rewrite <- (Z2Nat.id n) by done. rewrite <- pow_powerRZ. generalize (Z.to_nat n). clear.
  intros n. induction n as [|n IH]; [done|]. rewrite Nat2Z.inj_succ, Z.pow_succ_r, mult_IZR by lia. cbn [pow]. by rewrite IH.
Qed.
Lemma bp_le a b : (a <= b)%Z → bp a <= bp b.
Proof.
  intros H. replace b with (a + (b - a))%Z by lia. rewrite bp_add, (bp_IZR (b - a)) by lia. pose proof (bp_pos a).
  assert (IZR 1 <= IZR (2 ^ (b - a))) by (apply IZR_le; assert (0 < 2 ^ (b - a))%Z by (apply Z.pow_pos_nonneg; lia); lia). nra.
Qed.
Lemma bp_succ e : bp (e + 1) = 2 * bp e.
Proof. rewrite bp_add. change (bp 1) with (2 * 1). lra. Qed.
Lemma bp_lt a b : (a < b)%Z → bp a < bp b.
Proof. intros H. assert (a + 1 <= b)%Z as H1 by lia. apply bp_le in H1. pose proof (bp_succ a). pose proof (bp_pos a). lra. Qed.
Lemma bp_lt_inv a b : bp a < bp b → (a < b)%Z.
Proof. intros H. destruct (Z.lt_ge_cases a b) as [|Hba]; [done|]. apply bp_le in Hba. lra. Qed.

Lemma abs_between x y : Rabs x <= y → - y <= x <= y.
Proof. unfold Rabs. destruct (Rcase_abs x); lra. Qed.

(** ** Numbers *)

Definition val (f : spec_float) : R :=
  match f with S754_finite s m e => IZR (cond_Zopp s (Zpos m)) * bp e | _ => 0 end.
Definition is_num (f : spec_float) : bool :=
  match f with S754_zero _ | S754_finite _ _ _ => true | _ => false end.

Lemma digits2_bounds m : (2 ^ (Zpos (digits2_pos m) - 1) <= Zpos m < 2 ^ Zpos (digits2_pos m))%Z.
Proof.
  induction m as [m IH|m IH|]; cbn [digits2_pos]; [..|done]; rewrite Pos2Z.inj_succ.
  all: replace (Z.succ (Zpos (digits2_pos m)) - 1)%Z with (Z.succ (Zpos (digits2_pos m) - 1)) by lia.
  all: rewrite !Z.pow_succ_r by lia; lia.
Qed.
Lemma digits2_le m n : (0 < n)%Z → (0 <= m < 2 ^ n)%Z → (Zdigits2 m <= n)%Z.
Proof.
  intros Hn Hm. destruct m as [|m|m]; cbn [Zdigits2]; [lia| |lia]. pose proof (digits2_bounds m).
  destruct (Z.le_gt_cases (Zpos (digits2_pos m)) n) as [|Hd]; [done|].
  pose proof (Z.pow_le_mono_r 2 n (Zpos (digits2_pos m) - 1)). lia.
Qed.
Lemma digits2_ge m n : (0 <= n)%Z → (2 ^ n <= m)%Z → (n + 1 <= Zdigits2 m)%Z.
Proof.
  intros Hn Hm. assert (0 < 2 ^ n)%Z by (apply Z.pow_pos_nonneg; lia). destruct m as [|m|m]; cbn [Zdigits2]; [lia| |lia].
  pose proof (digits2_bounds m). destruct (Z.le_gt_cases (n + 1) (Zpos (digits2_pos m))) as [|Hd]; [done|].
  pose proof (Z.pow_le_mono_r 2 (Zpos (digits2_pos m)) n). lia.
Qed.

(** ** Shifting right *)

(** [x] is the record at exponent [e]: the half and what is below it. *)
Definition residue (x : R) (e : Z) (r : shr_record) : Prop :=
  ∃ d, x = (IZR (shr_m r) + (if shr_r r then / 2 else 0) + d) * bp e ∧
       (if shr_s r then 0 < d < / 2 else d = 0).

Lemma shr_1_residue x e r : (0 <= shr_m r)%Z → residue x e r → residue x (e + 1) (shr_1 r) ∧ shr_m (shr_1 r) = (shr_m r / 2)%Z.
Proof.
  intros Hm (d & -> & Hd). destruct r as [m r s]. cbn [shr_m shr_r shr_s] in *.
  assert (∀ m' b, m = (2 * m' + (if b : bool then 1 else 0))%Z → (0 <= m')%Z →
    residue ((IZR m + (if r then / 2 else 0) + d) * bp e) (e + 1) (Build_shr_record m' b (r || s)) ∧ m' = (m / 2)%Z) as H.
  { intros m' b E Hm'. split; [|apply (Z.div_unique m 2 m' (if b then 1 else 0)); [left; destruct b; lia|exact E]].
    exists (((if r then / 2 else 0) + d) / 2). cbn [shr_m shr_r shr_s]. rewrite bp_succ, E, plus_IZR, mult_IZR. split.
    - destruct b, r; lra.
    - destruct r, s; cbn; lra. }
  destruct m as [|[m|m|]|m]; [apply (H 0%Z false)|apply (H (Zpos m) true)|apply (H (Zpos m) false)|apply (H 0%Z true)|]; lia.
Qed.
Lemma iter_pos_ind {A} (f : A → A) (P : nat → A → Prop) a n :
  P 0%nat a → (∀ k a, P k a → P (S k) (f a)) → P (Pos.to_nat n) (SpecFloat.iter_pos f n a).
Proof.
  intros H0 HS. assert (∀ n k a, P k a → P (k + Pos.to_nat n)%nat (SpecFloat.iter_pos f n a)) as H.
  { clear a n H0. induction n as [n IH|n IH|]; intros k a Ha; cbn [SpecFloat.iter_pos].
    - replace (k + Pos.to_nat n~1)%nat with (S k + Pos.to_nat n + Pos.to_nat n)%nat by lia. by apply IH, IH, HS.
    - replace (k + Pos.to_nat n~0)%nat with (k + Pos.to_nat n + Pos.to_nat n)%nat by lia. by apply IH, IH.
    - replace (k + Pos.to_nat 1)%nat with (S k) by lia. by apply HS. }
  apply (H n 0%nat a H0).
Qed.
Lemma shr_residue x e r n :
  (0 <= shr_m r)%Z → residue x e r →
  let '(r', e') := shr r e n in
  residue x e' r' ∧ e' = (e + Z.max 0 n)%Z ∧ shr_m r' = (shr_m r / 2 ^ Z.max 0 n)%Z.
Proof.
  intros Hm Hr. destruct n as [|n|n]; cbn [shr].
  1,3: split_and!; [done|lia|]; rewrite Z.max_l by lia; by rewrite Z.div_1_r.
  pose proof (iter_pos_ind shr_1 (λ k r', residue x (e + Z.of_nat k) r' ∧ shr_m r' = (shr_m r / 2 ^ Z.of_nat k)%Z) r n) as H.
  destruct H as [H1 H2].
  - rewrite Z.add_0_r. split; [done|]. by rewrite Z.div_1_r.
  - intros k r' [Hk1 Hk2]. destruct (shr_1_residue _ _ _ ltac:(rewrite Hk2; apply Z.div_pos; [done|by apply Z.pow_pos_nonneg; lia]) Hk1) as [H1 H2].
    rewrite Nat2Z.inj_succ. split; [by replace (e + Z.succ (Z.of_nat k))%Z with (e + Z.of_nat k + 1)%Z by lia|].
    rewrite H2, Hk2, Z.div_div by lia. f_equal. rewrite Z.pow_succ_r by lia. lia.
  - rewrite positive_nat_Z in *. split_and!; [done|lia|]. by rewrite Z.max_r by lia.
Qed.

(** The integer nearest. *)
Lemma round_nearest_residue x e r :
  residue x e r → let n := round_nearest_even (shr_m r) (loc_of_shr_record r) in
  (shr_m r <= n <= shr_m r + 1)%Z ∧ Rabs (IZR n - x / bp e) <= / 2.
Proof.
  intros (d & -> & Hd). pose proof (bp_pos e). unfold Rdiv. rewrite Rmult_assoc, Rinv_r, Rmult_1_r by lra.
  destruct r as [m r s]. cbn [shr_m shr_r shr_s] in *.
  destruct r, s; cbn [loc_of_shr_record round_nearest_even]; [| |split; [lia|apply Rabs_le; lra]..].
  - rewrite plus_IZR. split; [lia|]. apply Rabs_le. lra.
  - destruct (Z.even m); [split; [lia|apply Rabs_le; lra]|]. rewrite plus_IZR. split; [lia|]. apply Rabs_le. lra.
Qed.
(** No other integer is nearer. *)
Lemma nearest_integer n k x : Rabs (IZR n - x) <= / 2 → Rabs (IZR n - x) <= Rabs (IZR k - x).
Proof.
  intros Hn. destruct (Z.eq_dec n k) as [->|Hne]; [lra|].
  assert (1 <= Rabs (IZR k - IZR n)) as H1.
  { rewrite <- minus_IZR, <- abs_IZR. apply IZR_le. lia. }
  pose proof (Rabs_triang (IZR k - x) (x - IZR n)) as Ht. replace (IZR k - x + (x - IZR n)) with (IZR k - IZR n) in Ht by lra.
  rewrite (Rabs_minus_sym x) in Ht. lra.
Qed.

(** ** Rounding *)

Section format.
Context (prec emax : Z) (Hprec : (1 < prec)%Z) (Hemax : (prec < emax)%Z).
Local Abbreviation fexp := (fexp prec emax).
Local Abbreviation emin := (emin prec emax).

(** A number of the format. *)
Definition number (f : spec_float) : Prop := is_num f = true ∧ valid_binary prec emax f = true.
(** [f] is [x] rounded. *)
Record rounds (x : R) (f : spec_float) : Prop := {
  r_number : number f;
  r_nearest g : number g → Rabs (val f - x) <= Rabs (val g - x);
  r_error : Rabs (val f - x) <= Rabs x * bp (- prec) + bp emin;
  r_grid k : x = IZR k * bp emin → Rabs (val f - x) <= Rabs x * bp (- prec);
}.

Lemma fexp_cases e : fexp e = (e - prec)%Z ∧ (emin <= e - prec)%Z ∨ fexp e = emin ∧ (e - prec < emin)%Z.
Proof. unfold SpecFloat.fexp. lia. Qed.
Lemma number_bounds s m e : number (S754_finite s m e) → (emin <= e <= emax - prec)%Z ∧ (Zpos m < 2 ^ prec)%Z ∧
  ((emin < e)%Z → (2 ^ (prec - 1) <= Zpos m)%Z).
Proof.
  intros [_ Hv]. cbn in Hv. unfold bounded, canonical_mantissa in Hv. apply andb_prop in Hv as [Hf%Z.eqb_eq He%Z.leb_le].
  pose proof (digits2_bounds m) as Hd. destruct (fexp_cases (Zpos (digits2_pos m) + e)) as [[H1 H2]|[H1 H2]].
  - assert (Zpos (digits2_pos m) = prec) as E by lia. rewrite E in Hd. split_and!; [lia|lia|lia|]. intros _. lia.
  - split_and!; [lia|lia| |lia]. pose proof (Z.pow_le_mono_r 2 (Zpos (digits2_pos m)) prec). lia.
Qed.
Lemma number_made s m e :
  (emin <= e <= emax - prec)%Z → (Zpos m < 2 ^ prec)%Z → (e = emin ∨ (2 ^ (prec - 1) <= Zpos m)%Z) →
  number (S754_finite s m e).
Proof.
  intros He Hm Hc. split; [done|]. cbn. unfold bounded, canonical_mantissa. apply andb_true_intro. split; [|lia].
  apply Z.eqb_eq. assert (Zdigits2 (Zpos m) <= prec)%Z as Hd by (apply digits2_le; lia). cbn in Hd.
  destruct Hc as [->|Hc]; [destruct (fexp_cases (Zpos (digits2_pos m) + emin)); lia|].
  apply digits2_ge in Hc; [|lia]. cbn in Hc. destruct (fexp_cases (Zpos (digits2_pos m) + e)); lia.
Qed.

(** The exponent a real is rounded at: the format's at that size. *)
Definition rounded_at (x : R) (e : Z) : Prop :=
  (emin <= e)%Z ∧ 0 <= x < bp (e + prec) ∧ ((emin < e)%Z → bp (e + prec - 1) <= x).

Lemma fine_below x e g :
  rounded_at x e → number g → (∃ k, val g = IZR k * bp e) ∨ Rabs (val g) <= bp (e + prec - 1) ∧ (emin < e)%Z.
Proof.
  intros (He & Hx & Hn) Hg. destruct g as [s|s| |s m eg]; cbn [val]; [left; exists 0%Z; lra|by destruct Hg..|].
  apply number_bounds in Hg as (Heg & Hm & Hc). destruct (Z.le_gt_cases e eg) as [Hle|Hlt].
  - left. exists (cond_Zopp s (Zpos m) * 2 ^ (eg - e))%Z. rewrite mult_IZR, <- bp_IZR, Rmult_assoc, <- bp_add by lia.
    do 2 f_equal. lia.
  - right. split; [|lia]. rewrite Rabs_mult, (Rabs_pos_eq (bp eg)) by (pose proof (bp_pos eg); lra).
    assert (Rabs (IZR (cond_Zopp s (Zpos m))) = IZR (Zpos m)) as -> by (rewrite <- abs_IZR; f_equal; by destruct s).
    apply (Rle_trans _ (bp prec * bp eg)).
    + apply Rmult_le_compat_r; [pose proof (bp_pos eg); lra|]. rewrite bp_IZR by lia. apply IZR_le. lia.
    + rewrite <- bp_add. apply bp_le. lia.
Qed.

Lemma nearest_made x e n g :
  rounded_at x e → Rabs (IZR n - x / bp e) <= / 2 → number g → Rabs (IZR n * bp e - x) <= Rabs (val g - x).
Proof.
  intros Hx Hn Hg. pose proof (bp_pos e) as He0.
  assert (∀ y, Rabs (y * bp e - x) = Rabs (y - x / bp e) * bp e) as Hs.
  { intros y. rewrite <- (Rabs_pos_eq (bp e)) at 3 by lra. rewrite <- Rabs_mult. f_equal. field. lra. }
  destruct (fine_below _ _ _ Hx Hg) as [[k ->]|[Hsmall He]].
  - rewrite !Hs. apply Rmult_le_compat_r; [lra|]. by apply nearest_integer.
  - destruct Hx as (_ & Hx & Hlow). specialize (Hlow He).
    apply (Rle_trans _ (Rabs (bp (e + prec - 1) - x))).
    + replace (e + prec - 1)%Z with ((prec - 1) + e)%Z by lia. rewrite bp_add, (bp_IZR (prec - 1)) by lia. rewrite !Hs.
      apply Rmult_le_compat_r; [lra|]. by apply nearest_integer.
    + rewrite !(Rabs_minus_sym _ x). rewrite (Rabs_pos_eq (x - _)) by lra.
      pose proof (Rle_abs (val g)). rewrite Rabs_pos_eq; lra.
Qed.
Lemma error_made x e n : rounded_at x e → Rabs (IZR n - x / bp e) <= / 2 →
  Rabs (IZR n * bp e - x) <= x * bp (- prec) + bp emin ∧
  ∀ k, x = IZR k * bp emin → Rabs (IZR n * bp e - x) <= x * bp (- prec).
Proof.
  intros (He & Hx & Hlow) Hn. pose proof (bp_pos e) as He0. pose proof (bp_pos (- prec)). pose proof (bp_pos emin).
  assert (Rabs (IZR n * bp e - x) <= bp e / 2) as H1.
  { replace (IZR n * bp e - x) with ((IZR n - x / bp e) * bp e) by (field; lra).
    rewrite Rabs_mult, (Rabs_pos_eq (bp e)) by lra. nra. }
  destruct (Z.lt_ge_cases emin e) as [Hlt|Hge].
  - specialize (Hlow Hlt). assert (bp e / 2 = bp (e + prec - 1) * bp (- prec)) as E.
    { rewrite <- bp_add. replace (e + prec - 1 + - prec)%Z with (e - 1)%Z by lia. pose proof (bp_succ (e - 1)) as Hb.
      replace (e - 1 + 1)%Z with e in Hb by lia. lra. }
    split; [|intros _ _]; nra.
  - assert (e = emin) as -> by lia. split; [nra|]. intros k ->.
    replace (IZR k * bp emin / bp emin) with (IZR k) in Hn by (field; lra).
    assert (n = k) as ->; [|rewrite Rminus_diag, Rabs_R0; nra].
    rewrite <- minus_IZR, <- abs_IZR in Hn. assert (Z.abs (n - k) < 1)%Z; [|lia]. apply lt_IZR. lra.
Qed.

(** What a mantissa and a location stand for. *)
Definition located (x : R) (m e : Z) (l : location) : Prop := (0 <= m)%Z ∧ residue x e (shr_record_of_loc m l).

Lemma located_between x m e l : located x m e l → IZR m * bp e <= x < IZR (m + 1) * bp e.
Proof.
  intros (Hm & d & -> & Hd). pose proof (bp_pos e). rewrite plus_IZR.
  destruct l as [|[| |]]; cbn in Hd |- *; split; try (apply Rmult_le_compat_r; lra); apply Rmult_lt_compat_r; lra.
Qed.
Lemma located_at x m e l :
  located x m e l → (e <= fexp (Zdigits2 m + e))%Z → rounded_at x (fexp (Zdigits2 m + e)).
Proof.
  intros Hx He. pose proof (located_between _ _ _ _ Hx) as [Hlo Hhi]. destruct Hx as [Hm _]. pose proof (bp_pos e) as Hp.
  assert (0 <= x) as Hx0 by (apply IZR_le in Hm; nra).
  assert (emin <= fexp (Zdigits2 m + e))%Z as Hmin by (destruct (fexp_cases (Zdigits2 m + e)); lia).
  destruct m as [|m|m]; [| |lia].
  - cbn [Zdigits2] in *. rewrite Z.add_0_l in *. assert (fexp e = emin) as -> by (destruct (fexp_cases e); lia).
    split_and!; [done|done| |lia]. apply (Rlt_le_trans _ (bp e)); [lra|]. apply bp_le. destruct (fexp_cases e); lia.
  - set (d := Zdigits2 (Zpos m)) in *. pose proof (digits2_bounds m) as [Hd1 Hd2].
    change (Zpos (digits2_pos m)) with d in *. assert (1 <= d)%Z as Hd0 by (pose proof (Pos2Z.is_pos (digits2_pos m)); unfold d; cbn [Zdigits2]; lia).
    assert (x < bp (d + e)) as Hup.
    { rewrite bp_add, (bp_IZR d) by lia. eapply Rlt_le_trans; [exact Hhi|]. apply Rmult_le_compat_r; [lra|]. apply IZR_le. lia. }
    assert (bp (d + e - 1) <= x) as Hdown.
    { replace (d + e - 1)%Z with ((d - 1) + e)%Z by lia. rewrite bp_add, (bp_IZR (d - 1)) by lia.
      eapply Rle_trans; [|exact Hlo]. apply Rmult_le_compat_r; [lra|]. by apply IZR_le. }
    split_and!; [done|done| |].
    + eapply Rlt_le_trans; [exact Hup|]. apply bp_le. destruct (fexp_cases (d + e)); lia.
    + intros Hgt. eapply Rle_trans; [|exact Hdown]. apply bp_le. destruct (fexp_cases (d + e)); lia.
Qed.

Definition signed (s : bool) (x : R) : R := if s then - x else x.
Lemma signed_IZR s n : IZR (cond_Zopp s n) = signed s (IZR n).
Proof. destruct s; cbn; [apply opp_IZR|done]. Qed.
Lemma signed_mult s x y : signed s x * y = signed s (x * y).
Proof. destruct s; cbn; lra. Qed.
Lemma signed_abs s x : Rabs (signed s x) = Rabs x.
Proof. destruct s; cbn; [apply Rabs_Ropp|done]. Qed.

(** The integer chosen, packed: one more shift when it is a power of two. *)
Lemma packed s x e n :
  rounded_at x e → x < bp (emax - 1) → (0 <= n)%Z → Rabs (IZR n - x / bp e) <= / 2 →
  let '(r, e') := shr_fexp prec emax n e loc_Exact in
  let f := match shr_m r with
           | Z0 => S754_zero s
           | Zpos m => if Z.leb e' (emax - prec) then S754_finite s m e' else S754_infinity s
           | _ => S754_nan
           end in
  number f ∧ val f = signed s (IZR n * bp e).
Proof.
  intros (He & Hx & Hlow) Hover Hn0 Hn. pose proof (bp_pos e) as He0. apply abs_between in Hn.
  assert (IZR n <= x / bp e + / 2) as Hup by lra. assert (x / bp e - / 2 <= IZR n) as Hdown by lra. clear Hn.
  assert (x / bp e < IZR (2 ^ prec)) as Hq.
  { apply (Rmult_lt_reg_r (bp e)); [done|]. rewrite <- bp_IZR, <- bp_add by lia. replace (prec + e)%Z with (e + prec)%Z by lia.
    unfold Rdiv. rewrite Rmult_assoc, Rinv_l, Rmult_1_r; lra. }
  assert (n <= 2 ^ prec)%Z as Hnup.
  { apply Z.lt_succ_r, lt_IZR. unfold Z.succ. rewrite plus_IZR. lra. }
  assert (e < emax - prec)%Z as Hemax'.
  { destruct (Z.lt_ge_cases emin e) as [Hlt|]; [|unfold SpecFloat.emin in *; lia].
    specialize (Hlow Hlt). assert (bp (e + prec - 1) < bp (emax - 1)) as Hb by lra. apply bp_lt_inv in Hb. lia. }
  assert (e = emin ∨ (2 ^ (prec - 1) <= n)%Z) as Hcan.
  { destruct (Z.lt_ge_cases emin e) as [Hlt|]; [right|left; lia]. specialize (Hlow Hlt).
    apply Z.lt_succ_r, lt_IZR. unfold Z.succ. rewrite plus_IZR.
    assert (IZR (2 ^ (prec - 1)) <= x / bp e); [|lra]. apply (Rmult_le_reg_r (bp e)); [done|].
    rewrite <- bp_IZR, <- bp_add by lia. unfold Rdiv. rewrite Rmult_assoc, Rinv_l, Rmult_1_r by lra.
    by replace (prec - 1 + e)%Z with (e + prec - 1)%Z by lia. }
  unfold shr_fexp. cbn [shr_record_of_loc]. destruct (Z.eq_dec n (2 ^ prec)) as [->|Hne].
  - assert (Zdigits2 (2 ^ prec) = prec + 1)%Z as ->.
    { apply Z.le_antisymm; [|apply digits2_ge; lia]. apply digits2_le; [lia|]. split; [lia|]. apply Z.pow_lt_mono_r; lia. }
    replace (fexp (prec + 1 + e) - e)%Z with 1%Z by (destruct (fexp_cases (prec + 1 + e)); lia).
    cbn [shr SpecFloat.iter_pos].
    assert (shr_1 (Build_shr_record (2 ^ prec) false false) = Build_shr_record (2 ^ (prec - 1)) false false) as ->.
    { replace (2 ^ prec)%Z with (2 * 2 ^ (prec - 1))%Z by (rewrite <- Z.pow_succ_r by lia; f_equal; lia).
      assert (0 < 2 ^ (prec - 1))%Z by (apply Z.pow_pos_nonneg; lia). by destruct (2 ^ (prec - 1))%Z. }
    cbn [shr_m]. assert (0 < 2 ^ (prec - 1) < 2 ^ prec)%Z as Hpw by (split; [apply Z.pow_pos_nonneg; lia|apply Z.pow_lt_mono_r; lia]).
    destruct (2 ^ (prec - 1))%Z as [|m|m] eqn:Em; [lia| |lia]. rewrite (proj2 (Z.leb_le _ _)) by lia.
    split; [apply number_made; [lia|lia|right; lia]|]. cbn [val]. rewrite signed_IZR, signed_mult. f_equal.
    rewrite <- Em, <- !bp_IZR, <- !bp_add by lia. f_equal. lia.
  - destruct n as [|m|m]; [| |lia].
    + cbn [Zdigits2]. rewrite Z.add_0_l. assert (fexp e - e <= 0)%Z by (destruct (fexp_cases e); lia).
      assert (shr (Build_shr_record 0 false false) e (fexp e - e) = (Build_shr_record 0 false false, e)) as ->
        by (destruct (fexp e - e)%Z; [done|lia|done]).
      cbn. split; [done|]. destruct s; cbn; lra.
    + assert (Zdigits2 (Zpos m) <= prec)%Z by (apply digits2_le; lia).
      assert (fexp (Zdigits2 (Zpos m) + e) - e <= 0)%Z by (destruct (fexp_cases (Zdigits2 (Zpos m) + e)); lia).
      assert (shr (Build_shr_record (Zpos m) false false) e (fexp (Zdigits2 (Zpos m) + e) - e) = (Build_shr_record (Zpos m) false false, e)) as ->
        by (destruct (fexp (Zdigits2 (Zpos m) + e) - e)%Z; [done|lia|done]).
      cbn [shr_m]. rewrite (proj2 (Z.leb_le _ _)) by lia. split; [apply number_made; [lia|lia|tauto]|].
      cbn [val]. by rewrite signed_IZR, signed_mult.
Qed.

Lemma number_opp g : number g → number (SFopp g).
Proof. by destruct g. Qed.
Lemma val_opp g : val (SFopp g) = - val g.
Proof. destruct g as [| | |s m e]; cbn [val SFopp]; [lra..|]. rewrite !signed_IZR. destruct s; cbn; lra. Qed.

Lemma round_aux_rounds s x m e l :
  located x m e l → (e <= fexp (Zdigits2 m + e))%Z → x < bp (emax - 1) →
  rounds (signed s x) (binary_round_aux prec emax s m e l).
Proof.
  intros Hx He Hover. pose proof (located_at _ _ _ _ Hx He) as Hat. destruct Hx as [Hm Hres].
  unfold binary_round_aux. unfold shr_fexp at 1. set (e1 := fexp (Zdigits2 m + e)) in *.
  assert (shr_m (shr_record_of_loc m l) = m) as Em by by destruct l as [|[| |]].
  pose proof (shr_residue x e (shr_record_of_loc m l) (e1 - e) ltac:(by rewrite Em) Hres) as Hs.
  destruct (shr (shr_record_of_loc m l) e (e1 - e)) as [r e'] eqn:E. destruct Hs as (Hr & He' & Hrm).
  replace e' with e1 in * by lia. clear He' E. apply round_nearest_residue in Hr as [Hn Herr].
  assert (0 <= shr_m r)%Z as Hr0 by (rewrite Hrm, Em; apply Z.div_pos; [done|apply Z.pow_pos_nonneg; lia]).
  set (n := round_nearest_even (shr_m r) (loc_of_shr_record r)) in *.
  pose proof (packed s x e1 n Hat Hover ltac:(lia) Herr) as Hp. destruct (shr_fexp prec emax n e1 loc_Exact) as [r' e'']. cbv zeta in Hp.
  destruct Hp as [Hnum Hval]. split; [exact Hnum|..]; rewrite Hval.
  - intros g Hg. destruct s; cbn [signed]; [|by apply nearest_made].
    pose proof (nearest_made x e1 n _ Hat Herr (number_opp _ Hg)) as Hne. rewrite val_opp in Hne.
    rewrite <- (Rabs_Ropp (- _ - - x)), <- (Rabs_Ropp (val g - - x)).
    replace (- (- (IZR n * bp e1) - - x)) with (IZR n * bp e1 - x) by lra. by replace (- (val g - - x)) with (- val g - x) by lra.
  - rewrite signed_abs, (Rabs_pos_eq x) by apply Hat.
    replace (signed s (IZR n * bp e1) - signed s x) with (signed s (IZR n * bp e1 - x)) by (destruct s; cbn; lra).
    rewrite signed_abs. by apply error_made.
  - intros k Hk. rewrite signed_abs, (Rabs_pos_eq x) by apply Hat.
    replace (signed s (IZR n * bp e1) - signed s x) with (signed s (IZR n * bp e1 - x)) by (destruct s; cbn; lra).
    rewrite signed_abs. apply (proj2 (error_made x e1 n Hat Herr) (cond_Zopp s k)).
    rewrite signed_IZR, signed_mult, <- Hk. destruct s; cbn; lra.
Qed.

Lemma number_rounds f : number f → rounds (val f) f.
Proof.
  intros Hf. pose proof (bp_pos (- prec)). pose proof (bp_pos emin). pose proof (Rabs_pos (val f)). split; [done|intros g _|..]; rewrite Rminus_diag, Rabs_R0.
  - apply Rabs_pos.
  - nra.
  - intros; nra.
Qed.

(** ** The operations *)

Lemma digits2_shift m k : (0 < m)%Z → (0 <= k)%Z → Zdigits2 (m * 2 ^ k) = (Zdigits2 m + k)%Z.
Proof.
  intros Hm Hk. destruct m as [|m|m]; [lia| |lia]. cbn [Zdigits2]. pose proof (digits2_bounds m) as [H1 H2].
  pose proof (Pos2Z.is_pos (digits2_pos m)) as Hd. set (d := Zpos (digits2_pos m)) in *.
  assert (0 < 2 ^ k)%Z as Hp by (apply Z.pow_pos_nonneg; lia). apply Z.le_antisymm.
  - apply digits2_le; [lia|]. rewrite Z.pow_add_r by lia. nia.
  - replace (d + k)%Z with ((d - 1 + k) + 1)%Z by lia. apply digits2_ge; [lia|]. rewrite Z.pow_add_r by lia. nia.
Qed.
Lemma shl_align_spec m e e' :
  let '(m', e'') := shl_align m e e' in e'' = Z.min e e' ∧ Zpos m' = (Zpos m * 2 ^ (e - e''))%Z.
Proof.
  unfold shl_align. destruct (e' - e)%Z as [|d|d] eqn:E.
  1,2: split; [lia|]; rewrite Z.sub_diag; lia.
  split; [lia|]. replace (e - e')%Z with (Zpos d) by lia. clear. induction d as [|d IH] using Pos.peano_ind; [cbn; lia|].
  rewrite Pos.iter_succ, Pos2Z.inj_succ, Z.pow_succ_r by lia. lia.
Qed.
Lemma located_exact m e : located (IZR (Zpos m) * bp e) (Zpos m) e loc_Exact.
Proof. split; [lia|]. exists 0. cbn. split; [lra|done]. Qed.
Lemma scaled m m' e e' : Zpos m' = (Zpos m * 2 ^ (e - e'))%Z → (e' <= e)%Z → IZR (Zpos m') * bp e' = IZR (Zpos m) * bp e.
Proof. intros -> He. rewrite mult_IZR, <- bp_IZR, Rmult_assoc, <- bp_add by lia. do 2 f_equal. lia. Qed.

Lemma normalize_rounds n e s :
  Rabs (IZR n * bp e) < bp (emax - 1) → rounds (IZR n * bp e) (binary_normalize prec emax n e s).
Proof.
  intros Hover.
  assert (∀ s m, IZR (Zpos m) * bp e < bp (emax - 1) → rounds (signed s (IZR (Zpos m) * bp e)) (binary_round prec emax s m e)) as Hpos.
  { clear n s Hover. intros s m Hover. unfold binary_round.
    pose proof (shl_align_spec m e (fexp (Zpos (digits2_pos m) + e))) as Hs.
    destruct (shl_align _ _ _) as [m' e']. destruct Hs as [-> Hm].
    rewrite <- (scaled m m' e _ Hm) in * by lia. apply round_aux_rounds; [apply located_exact| |done].
    rewrite Hm, digits2_shift by lia. cbn [Zdigits2]. replace (_ + (_ - _) + _)%Z with (Zpos (digits2_pos m) + e)%Z by lia. lia. }
  destruct n as [|m|m]; cbn [binary_normalize].
  - replace (0 * bp e) with (val (S754_zero s)) by (cbn; lra). apply number_rounds. done.
  - pose proof (Rle_abs (IZR (Zpos m) * bp e)). apply (Hpos false). lra.
  - replace (IZR (Zneg m) * bp e) with (signed true (IZR (Zpos m) * bp e)) in * by (cbn; change (Zneg m) with (- Zpos m)%Z; rewrite opp_IZR; lra).
    apply Hpos. rewrite signed_abs in Hover. pose proof (Rle_abs (IZR (Zpos m) * bp e)). lra.
Qed.

Lemma add_rounds x y :
  number x → number y → Rabs (val x + val y) < bp (emax - 1) → rounds (val x + val y) (SFadd prec emax x y).
Proof.
  intros Hx Hy Hover. destruct x as [sx|sx| |sx mx ex]; try by destruct Hx.
  - cbn [val]. rewrite Rplus_0_l. destruct y as [sy|sy| |sy my ey]; try by destruct Hy.
    + assert (∀ s, rounds 0 (S754_zero s)) as Hz by (intros s; by apply (number_rounds (S754_zero s))). destruct sx, sy; apply Hz.
    + by apply number_rounds.
  - destruct y as [sy|sy| |sy my ey]; try by destruct Hy.
    + cbn [val SFadd]. rewrite Rplus_0_r. by apply (number_rounds (S754_finite sx mx ex)).
    + cbn [SFadd]. pose proof (shl_align_spec mx ex (Z.min ex ey)) as H1. pose proof (shl_align_spec my ey (Z.min ex ey)) as H2.
      destruct (shl_align mx _ _) as [mx' ex'], (shl_align my _ _) as [my' ey']. destruct H1 as [E1 Hm1], H2 as [E2 Hm2].
      replace ex' with (Z.min ex ey) in * by lia. replace ey' with (Z.min ex ey) in * by lia. cbn [fst].
      apply scaled in Hm1, Hm2; [|lia..].
      assert (val (S754_finite sx mx ex) + val (S754_finite sy my ey) = IZR (cond_Zopp sx (Zpos mx') + cond_Zopp sy (Zpos my')) * bp (Z.min ex ey)) as E.
      { cbn [val]. rewrite plus_IZR, !signed_IZR, Rmult_plus_distr_r, !signed_mult, Hm1, Hm2. done. }
      rewrite E in *. by apply normalize_rounds.
Qed.
Lemma sub_opp x y : number x → number y → val (SFsub prec emax x y) = val (SFadd prec emax x (SFopp y)) ∧
  is_num (SFsub prec emax x y) = is_num (SFadd prec emax x (SFopp y)) ∧ valid_binary prec emax (SFsub prec emax x y) = valid_binary prec emax (SFadd prec emax x (SFopp y)).
Proof.
  intros [Hx _] [Hy _]. destruct x as [sx|sx| |sx mx ex], y as [sy|sy| |sy my ey]; try done.
  - by destruct sx, sy.
  - cbn [SFsub SFadd SFopp]. assert (∀ a b, a - cond_Zopp sy b = a + cond_Zopp (negb sy) b)%Z as E by (destruct sy; cbn; lia).
    by rewrite E.
Qed.
Lemma sub_rounds x y :
  number x → number y → Rabs (val x - val y) < bp (emax - 1) → rounds (val x - val y) (SFsub prec emax x y).
Proof.
  intros Hx Hy Hover. pose proof (add_rounds x (SFopp y) Hx (number_opp _ Hy)) as H. rewrite val_opp in H.
  destruct (H Hover) as [[H1 H2] Hn He Hg]. destruct (sub_opp x y Hx Hy) as (E1 & E2 & E3).
  split; unfold number; rewrite ?E1, ?E2, ?E3; done.
Qed.

Lemma mul_rounds x y :
  number x → number y → Rabs (val x * val y) < bp (emax - 1) → rounds (val x * val y) (SFmul prec emax x y).
Proof.
  intros Hx Hy Hover. assert (∀ s, rounds 0 (S754_zero s)) as Hz by (intros s; by apply (number_rounds (S754_zero s))).
  destruct x as [sx|sx| |sx mx ex], y as [sy|sy| |sy my ey]; try (by destruct Hx); try (by destruct Hy).
  1-3: cbn [SFmul]; cbn [val]; rewrite ?Rmult_0_l, ?Rmult_0_r; apply Hz.
  assert (val (S754_finite sx mx ex) * val (S754_finite sy my ey) = signed (xorb sx sy) (IZR (Zpos (mx * my)) * bp (ex + ey))) as E.
  { cbn [val]. rewrite !signed_IZR, Pos2Z.inj_mul, mult_IZR, bp_add. destruct sx, sy; cbn; lra. }
  rewrite E in *. rewrite signed_abs in Hover. pose proof (Rle_abs (IZR (Zpos (mx * my)) * bp (ex + ey))).
  cbn [SFmul]. apply round_aux_rounds; [apply located_exact| |lra].
  apply number_bounds in Hx as (Hex & Hmx & Hcx), Hy as (Hey & Hmy & Hcy).
  assert (∀ e, (e - prec <= fexp e)%Z ∧ (emin <= fexp e)%Z) as Hfexp by (intros e; destruct (fexp_cases e); lia).
  destruct (Hfexp (Zdigits2 (Zpos (mx * my)) + (ex + ey)))%Z as [Hf1 Hf2].
  assert (2 ^ (prec - 1) <= Zpos (mx * my) → prec <= Zdigits2 (Zpos (mx * my)))%Z as Hbig.
  { intros Hm. apply digits2_ge in Hm; lia. }
  destruct (Z.lt_ge_cases emin ex) as [Hlx|]; [specialize (Hcx Hlx); nia|].
  destruct (Z.lt_ge_cases emin ey) as [Hly|]; [specialize (Hcy Hly); nia|].
  assert (emin < 0)%Z by (unfold SpecFloat.emin; lia). lia.
Qed.

Lemma new_location_located m q r e :
  (0 <= q)%Z → (0 <= r < m)%Z → located ((IZR q + IZR r / IZR m) * bp e) q e (new_location m r).
Proof.
  intros Hq Hr. split; [done|]. assert (0 < IZR m) as Hm by (apply IZR_lt; lia).
  assert (∀ k, (k <= 2 * r)%Z → IZR k / 2 <= IZR r) as Hge by (intros k Hk%IZR_le; rewrite mult_IZR in Hk; lra).
  set (d := IZR r / IZR m). assert (IZR r = d * IZR m) as Ed by (unfold d; field; lra).
  assert (r = 0%Z → residue ((IZR q + d) * bp e) e (shr_record_of_loc q loc_Exact)) as H0.
  { intros ->. exists 0. cbn. split; [|done]. assert (d = 0) by (unfold d; lra). f_equal. lra. }
  assert ((0 < r)%Z → (2 * r < m)%Z → residue ((IZR q + d) * bp e) e (shr_record_of_loc q (loc_Inexact Lt))) as H1.
  { intros Hr0%IZR_lt Hlt%IZR_lt. exists d. cbn. split; [f_equal; lra|]. rewrite mult_IZR in Hlt. nra. }
  assert ((2 * r = m)%Z → residue ((IZR q + d) * bp e) e (shr_record_of_loc q (loc_Inexact Eq))) as H2.
  { intros Heq%(f_equal IZR). exists 0. cbn. split; [|done]. rewrite mult_IZR in Heq. f_equal. nra. }
  assert ((m < 2 * r)%Z → residue ((IZR q + d) * bp e) e (shr_record_of_loc q (loc_Inexact Gt))) as H3.
  { intros Hgt%IZR_lt. exists (d - / 2). cbn. split; [f_equal; lra|]. rewrite mult_IZR in Hgt.
    assert (IZR r < IZR m) by (apply IZR_lt; lia). nra. }
  unfold new_location. destruct (Z.even m) eqn:Em; unfold new_location_even, new_location_odd; destruct (Z.eqb_spec r 0) as [->|Hne]; [by apply H0| |by apply H0|].
  - destruct (Z.compare_spec (2 * r) m); [by apply H2|apply H1; lia|by apply H3].
  - assert (2 * r ≠ m)%Z as Hodd by (intros <-; by rewrite Z.even_mul in Em).
    destruct (Z.compare_spec (2 * r + 1) m); [apply H1; lia|apply H1; lia|apply H3; lia].
Qed.

Lemma quotient_fits m1 e1 m2 e2 :
  let d := (Zdigits2 (Zpos m1) + e1 - (Zdigits2 (Zpos m2) + e2))%Z in
  let e := Z.min (fexp d) (e1 - e2) in
  (e <= fexp (Zdigits2 (Zpos m1 * 2 ^ (e1 - e2 - e) / Zpos m2) + e))%Z.
Proof.
  intros d e. assert (e <= e1 - e2)%Z as He by lia. set (k := (e1 - e2 - e)%Z).
  destruct (Z.le_gt_cases (d - e) 0) as [Hle|Hgt].
  - pose proof (fexp_cases (Zdigits2 (Zpos m1 * 2 ^ k / Zpos m2) + e)). destruct (fexp_cases d); lia.
  - assert (d - e <= Zdigits2 (Zpos m1 * 2 ^ k / Zpos m2))%Z as Hq.
    { replace (d - e)%Z with ((d - e - 1) + 1)%Z by lia. apply digits2_ge; [lia|].
      apply Z.div_le_lower_bound; [lia|]. pose proof (digits2_bounds m1) as [H1 _]. pose proof (digits2_bounds m2) as [_ H2].
      cbn [Zdigits2] in d. assert (0 <= k)%Z by lia.
      apply (Z.le_trans _ (2 ^ Zpos (digits2_pos m2) * 2 ^ (d - e - 1))).
      - apply Z.mul_le_mono_nonneg_r; [apply Z.pow_nonneg; lia|lia].
      - rewrite <- Z.pow_add_r by lia. replace (Zpos (digits2_pos m2) + (d - e - 1))%Z with (Zpos (digits2_pos m1) - 1 + k)%Z by lia.
        rewrite Z.pow_add_r by lia. apply Z.mul_le_mono_nonneg_r; [apply Z.pow_nonneg; lia|lia]. }
    pose proof (fexp_cases (Zdigits2 (Zpos m1 * 2 ^ k / Zpos m2) + e)). destruct (fexp_cases d); lia.
Qed.
Lemma div_rounds x y :
  number x → number y → val y ≠ 0 → Rabs (val x / val y) < bp (emax - 1) → rounds (val x / val y) (SFdiv prec emax x y).
Proof.
  intros Hx Hy Hy0 Hover. assert (∀ s, rounds 0 (S754_zero s)) as Hz by (intros s; by apply (number_rounds (S754_zero s))).
  destruct y as [sy|sy| |sy my ey]; try done.
  destruct x as [sx|sx| |sx mx ex]; try by destruct Hx.
  { cbn [SFdiv]. replace (val (S754_zero sx) / _) with 0 by (cbn [val]; lra). apply Hz. }
  cbn [SFdiv]. unfold SFdiv_core_binary.
  pose proof (quotient_fits mx ex my ey) as Hfit. cbv zeta in Hfit.
  set (e := Z.min (fexp (Zdigits2 (Zpos mx) + ex - (Zdigits2 (Zpos my) + ey))) (ex - ey)) in *. assert (e <= ex - ey)%Z as He by lia.
  set (k := (ex - ey - e)%Z) in *.
  assert (match k with Z0 => Zpos mx | Zpos _ => Z.shiftl (Zpos mx) k | Zneg _ => 0%Z end = Zpos mx * 2 ^ k)%Z as ->.
  { assert (0 <= k)%Z as Hk by lia. rewrite <- Z.shiftl_mul_pow2 by done. by destruct k. }
  pose proof (Z_div_mod_full (Zpos mx * 2 ^ k) (Zpos my) ltac:(lia)) as Hdm. unfold Z.div in Hfit.
  destruct (Z.div_eucl (Zpos mx * 2 ^ k) (Zpos my)) as [q r]. destruct Hdm as [Hdm Hr].
  assert (0 <= r < Zpos my)%Z as Hr' by (destruct Hr; lia). clear Hr.
  assert (0 <= q)%Z as Hq by (assert (0 <= 2 ^ k)%Z by (apply Z.pow_nonneg; lia); nia).
  assert (val (S754_finite sx mx ex) / val (S754_finite sy my ey) = signed (xorb sx sy) ((IZR q + IZR r / IZR (Zpos my)) * bp e)) as E.
  { assert (0 < IZR (Zpos my)) by (apply IZR_lt; lia). pose proof (bp_pos ey).
    assert (IZR q + IZR r / IZR (Zpos my) = IZR (Zpos mx) * bp k / IZR (Zpos my)) as ->.
    { rewrite bp_IZR, <- mult_IZR, Hdm, plus_IZR, mult_IZR by lia. field. lra. }
    assert (bp ex = bp k * bp e * bp ey) as Eb by (rewrite <- !bp_add; f_equal; lia).
    cbn [val]. rewrite !signed_IZR, Eb. destruct sx, sy; cbn; field; lra. }
  rewrite E in *. rewrite signed_abs in Hover. pose proof (Rle_abs ((IZR q + IZR r / IZR (Zpos my)) * bp e)).
  apply round_aux_rounds; [by apply new_location_located|exact Hfit|lra].
Qed.

(** ** Order *)

Lemma compare_val x y : number x → number y →
  match SFcompare x y with
  | Some Lt => val x < val y | Some Eq => val x = val y | Some Gt => val y < val x
  | None => False
  end.
Proof.
  intros Hx Hy.
  assert (∀ m e, 0 < IZR (Zpos m) * bp e) as Hpos by (intros m e; apply Rmult_lt_0_compat; [by apply IZR_lt|apply bp_pos]).
  assert (∀ s m1 e1 s' m2 e2, number (S754_finite s m1 e1) → number (S754_finite s' m2 e2) → (e1 < e2)%Z → IZR (Zpos m1) * bp e1 < IZR (Zpos m2) * bp e2) as Hexp.
  { intros s m1 e1 s' m2 e2 H1 H2 He. apply number_bounds in H1 as (? & Hm1 & _), H2 as (? & _ & Hc). specialize (Hc ltac:(lia)).
    apply (Rlt_le_trans _ (bp (prec + e1))).
    - rewrite bp_add, (bp_IZR prec) by lia. apply Rmult_lt_compat_r; [apply bp_pos|by apply IZR_lt].
    - apply (Rle_trans _ (bp (prec - 1 + e2))); [apply bp_le; lia|]. rewrite bp_add, (bp_IZR (prec - 1)) by lia.
      apply Rmult_le_compat_r; [pose proof (bp_pos e2); lra|by apply IZR_le]. }
  destruct x as [sx|sx| |sx mx ex], y as [sy|sy| |sy my ey]; try (by destruct Hx); try (by destruct Hy); cbn [SFcompare val]; rewrite ?signed_IZR, ?signed_mult; try done.
  - specialize (Hpos my ey). destruct sy; cbn; lra.
  - specialize (Hpos mx ex). destruct sx; cbn; lra.
  - pose proof (Hpos mx ex). pose proof (Hpos my ey).
    pose proof (Hexp _ _ _ _ _ _ Hx Hy) as H1. pose proof (Hexp _ _ _ _ _ _ Hy Hx) as H2.
    change (Pos.compare_cont Eq mx my) with (Pos.compare mx my).
    assert (∀ e, (mx < my)%positive → IZR (Zpos mx) * bp e < IZR (Zpos my) * bp e) as H3
      by (intros e Hm; apply Rmult_lt_compat_r; [apply bp_pos|apply IZR_lt; lia]).
    assert (∀ e, (my < mx)%positive → IZR (Zpos my) * bp e < IZR (Zpos mx) * bp e) as H4
      by (intros e Hm; apply Rmult_lt_compat_r; [apply bp_pos|apply IZR_lt; lia]).
    destruct sx, sy; cbn [signed]; [| lra | lra |]; (destruct (Z.compare_spec ex ey) as [<-| |];
      [destruct (Pos.compare_spec mx my) as [<-| |]; cbn [CompOpp]; [lra|specialize (H3 ex ltac:(lia))|specialize (H4 ex ltac:(lia))]|..];
      try specialize (H1 ltac:(lia)); try specialize (H2 ltac:(lia)); lra).
Qed.
Lemma ltb_val x y : number x → number y → SFltb x y = true ↔ val x < val y.
Proof. intros Hx Hy. pose proof (compare_val x y Hx Hy) as H. unfold SFltb. destruct (SFcompare x y) as [[]|]; (split; [done || lra|]); intros; done || lra. Qed.
Lemma leb_val x y : number x → number y → SFleb x y = true ↔ val x <= val y.
Proof. intros Hx Hy. pose proof (compare_val x y Hx Hy) as H. unfold SFleb. destruct (SFcompare x y) as [[]|]; (split; [done || lra|]); intros; done || lra. Qed.
Lemma eqb_val x y : number x → number y → SFeqb x y = true ↔ val x = val y.
Proof. intros Hx Hy. pose proof (compare_val x y Hx Hy) as H. unfold SFeqb. destruct (SFcompare x y) as [[]|]; (split; [done || lra|]); intros; done || lra. Qed.

Lemma val_inj x y : number x → number y → val x = val y → val x ≠ 0 → x = y.
Proof.
  intros Hx Hy E H0. pose proof (compare_val x y Hx Hy) as H. rewrite E in H.
  destruct x as [sx|sx| |sx mx ex]; try done. destruct y as [sy|sy| |sy my ey]; try by rewrite E in H0. cbn [SFcompare] in H.
  change (Pos.compare_cont Eq mx my) with (Pos.compare mx my) in H.
  destruct sx, sy; try lra; (destruct (Z.compare_spec ex ey) as [->| |]; try lra); (destruct (Pos.compare_spec mx my) as [->| |]; cbn [CompOpp] in H; try lra); done.
Qed.

(** ** What rounding keeps *)

Lemma rounds_le x f g : rounds x f → number g → x <= val g → val f <= val g.
Proof.
  intros Hf Hg Hx. pose proof (r_nearest _ _ Hf g Hg) as Hn. destruct (Rle_lt_dec (val f) (val g)) as [|Hlt]; [done|].
  rewrite !Rabs_pos_eq in Hn by lra. lra.
Qed.
Lemma rounds_ge x f g : rounds x f → number g → val g <= x → val g <= val f.
Proof.
  intros Hf Hg Hx. pose proof (r_nearest _ _ Hf g Hg) as Hn. destruct (Rle_lt_dec (val g) (val f)) as [|Hlt]; [done|].
  rewrite !(Rabs_minus_sym _ x) in Hn. rewrite !Rabs_pos_eq in Hn by lra. lra.
Qed.
Lemma rounds_exact x f g : rounds x f → number g → val g = x → val f = x.
Proof. intros Hf Hg <-. apply Rle_antisym; [by eapply rounds_le|by eapply rounds_ge]. Qed.

Lemma representable_pos m e : (Zpos m < 2 ^ prec)%Z → (emin <= e <= emax - prec)%Z →
  ∃ m' e', (∀ s, number (S754_finite s m' e')) ∧ IZR (Zpos m') * bp e' = IZR (Zpos m) * bp e.
Proof.
  intros Hm He. set (d := Zdigits2 (Zpos m)). assert (d <= prec)%Z by (apply digits2_le; lia).
  set (k := Z.min (prec - d) (e - emin)). assert (0 <= k)%Z as Hk by lia.
  assert (0 < 2 ^ k)%Z as Hp by (apply Z.pow_pos_nonneg; lia).
  destruct (Zpos m * 2 ^ k)%Z as [|m'|m'] eqn:Em; [lia| |lia]. exists m', (e - k)%Z. split.
  - intros s. assert (Zdigits2 (Zpos m') = d + k)%Z as Hd by (rewrite <- Em; apply digits2_shift; lia).
    pose proof (digits2_bounds m') as Hb. cbn [Zdigits2] in Hd. rewrite Hd in Hb. apply number_made; [lia| |].
    + pose proof (Z.pow_le_mono_r 2 (d + k) prec). lia.
    + destruct (Z.le_gt_cases (prec - d) (e - emin)); [right|left; lia]. replace (prec - 1)%Z with (d + k - 1)%Z by lia. apply Hb.
  - rewrite <- Em, mult_IZR, <- (bp_IZR k), Rmult_assoc, <- bp_add by done. do 2 f_equal. lia.
Qed.
Lemma representable n e : (Z.abs n <= 2 ^ prec)%Z → (emin <= e < emax - prec)%Z → ∃ g, number g ∧ val g = IZR n * bp e.
Proof.
  intros Hn He.
  assert (∀ s m, (Zpos m <= 2 ^ prec)%Z → ∃ g, number g ∧ val g = signed s (IZR (Zpos m) * bp e)) as H.
  { intros s m Hm. assert (∃ m' e', (∀ s, number (S754_finite s m' e')) ∧ IZR (Zpos m') * bp e' = IZR (Zpos m) * bp e) as (m' & e' & Hnum & E).
    { destruct (Z.eq_dec (Zpos m) (2 ^ prec)) as [Heq|]; [|apply representable_pos; lia].
      assert (0 < 2 ^ (prec - 1) < 2 ^ prec)%Z as Hpw by (split; [apply Z.pow_pos_nonneg; lia|apply Z.pow_lt_mono_r; lia]).
      destruct (2 ^ (prec - 1))%Z as [|p|p] eqn:Ep; [lia| |lia].
      destruct (representable_pos p (e + 1)) as (m' & e' & Hnum & E); [lia|lia|]. exists m', e'. split; [done|].
      rewrite E, Heq, <- Ep, <- !bp_IZR, <- !bp_add by lia. f_equal. lia. }
    exists (S754_finite s m' e'). split; [done|]. cbn [val]. rewrite signed_IZR, signed_mult. by f_equal. }
  destruct n as [|m|m].
  - exists (S754_zero false). split; [done|]. cbn. lra.
  - by apply (H false).
  - destruct (H true m) as (g & Hg & E); [lia|]. exists g. split; [done|]. rewrite E. cbn [signed].
    change (Zneg m) with (- Zpos m)%Z. rewrite opp_IZR. lra.
Qed.
Lemma normalize_exact n e s : (Z.abs n <= 2 ^ prec)%Z → (emin <= e < emax - prec)%Z → Rabs (IZR n * bp e) < bp (emax - 1) →
  number (binary_normalize prec emax n e s) ∧ val (binary_normalize prec emax n e s) = IZR n * bp e.
Proof.
  intros Hn He Hover. pose proof (normalize_rounds n e s Hover) as Hr. split; [apply Hr|].
  destruct (representable n e Hn He) as (g & Hg & E). by eapply rounds_exact.
Qed.
(** Every number is a whole number of the smallest. *)
Lemma number_grid f : number f → ∃ k, val f = IZR k * bp emin.
Proof.
  intros Hf. destruct f as [s|s| |s m e]; try (exists 0%Z; cbn; lra). apply number_bounds in Hf as ((He & _) & _).
  exists (cond_Zopp s (Zpos m) * 2 ^ (e - emin))%Z. cbn [val]. rewrite mult_IZR, <- bp_IZR, Rmult_assoc, <- bp_add by lia. do 2 f_equal. lia.
Qed.
End format.

(** ** The C's doubles *)

Abbreviation float_number := (number 24 128).
Abbreviation double_number := (number 53 1024).
Abbreviation rounds_double := (rounds 53 1024).

Lemma bp_large : IZR (2 ^ 60) < bp (1024 - 1).
Proof. rewrite <- bp_IZR by lia. by apply bp_lt. Qed.
Lemma bp_unit : bp (Z.opp 53) = / 9007199254740992.
Proof.
  apply (Rmult_eq_reg_r (bp 53)); [|apply bp_ne]. rewrite <- bp_add, !bp_IZR by lia.
  cbn [Z.add Z.opp Z.pos_sub Pos.pred_double]. rewrite Rinv_l; [done|apply eq_IZR_contrapositive; done].
Qed.
Lemma bp_tiny : 0 < bp (SpecFloat.emin 53 1024) <= / 1152921504606846976.
Proof.
  split; [apply bp_pos|]. apply (Rle_trans _ (bp (- 60))); [by apply bp_le|]. apply Req_le.
  apply (Rmult_eq_reg_r (bp 60)); [|apply bp_ne]. rewrite <- bp_add, !bp_IZR by lia.
  cbn [Z.add Z.opp Z.pos_sub Pos.pred_double]. rewrite Rinv_l; [done|apply eq_IZR_contrapositive; done].
Qed.

(** How far a result is from the real one of size at most [b]. *)
Lemma rounds_within b x f :
  rounds_double x f → - b <= x <= b →
  x - (b / 9007199254740992 + / 1152921504606846976) <= val f <= x + (b / 9007199254740992 + / 1152921504606846976).
Proof.
  intros Hf Hx. pose proof (r_error _ _ _ _ Hf) as He. rewrite bp_unit in He. pose proof bp_tiny.
  apply abs_between in He. assert (Rabs x <= b) by (apply Rabs_le; lra). lra.
Qed.
(** A sum is never off by more than its share. *)
Lemma sum_within x y f : double_number x → double_number y → rounds_double (val x + val y) f → 0 <= val x + val y →
  (val x + val y) * (1 - / 9007199254740992) <= val f <= (val x + val y) * (1 + / 9007199254740992).
Proof.
  intros Hx Hy Hf H0. destruct (number_grid 53 1024 ltac:(lia) x Hx) as [j Ej], (number_grid 53 1024 ltac:(lia) y Hy) as [k Ek].
  pose proof (r_grid _ _ _ _ Hf (j + k)%Z) as Hg. rewrite bp_unit, (Rabs_pos_eq (val x + val y)) in Hg by done.
  assert (val x + val y = IZR (j + k) * bp (SpecFloat.emin 53 1024)) as E by (rewrite Ej, Ek, plus_IZR; ring).
  specialize (Hg E). apply abs_between in Hg. lra.
Qed.

Lemma small_enough x : Rabs x <= IZR (2 ^ 60) → Rabs x < bp (1024 - 1).
Proof. pose proof bp_large. lra. Qed.
Lemma fadd_rounds x y : double_number x → double_number y → Rabs (val x + val y) <= IZR (2 ^ 60) → rounds_double (val x + val y) (fadd x y).
Proof. intros ? ? ?%small_enough. by apply add_rounds. Qed.
Lemma fsub_rounds x y : double_number x → double_number y → Rabs (val x - val y) <= IZR (2 ^ 60) → rounds_double (val x - val y) (fsub x y).
Proof. intros ? ? ?%small_enough. by apply sub_rounds. Qed.
Lemma fmul_rounds x y : double_number x → double_number y → Rabs (val x * val y) <= IZR (2 ^ 60) → rounds_double (val x * val y) (fmul x y).
Proof. intros ? ? ?%small_enough. by apply mul_rounds. Qed.
Lemma fdiv_rounds x y : double_number x → double_number y → val y ≠ 0 → Rabs (val x / val y) <= IZR (2 ^ 60) → rounds_double (val x / val y) (fdiv x y).
Proof. intros ? ? ? ?%small_enough. by apply div_rounds. Qed.

Lemma ltb_double x y : double_number x → double_number y → SFltb x y = true ↔ val x < val y.
Proof. by apply ltb_val. Qed.
Lemma leb_double x y : double_number x → double_number y → SFleb x y = true ↔ val x <= val y.
Proof. by apply leb_val. Qed.
Lemma eqb_double x y : double_number x → double_number y → SFeqb x y = true ↔ val x = val y.
Proof. by apply eqb_val. Qed.
(** Two doubles of one value, unless it is nought, are one. *)
Lemma double_inj x y : double_number x → double_number y → val x = val y → val x ≠ 0 → x = y.
Proof. by apply val_inj. Qed.

(** Integers and halves are doubles. *)
Lemma dyadic_exact n e : (Z.abs n <= 2 ^ 53)%Z → (-60 <= e <= 0)%Z → double_number (dyadic n e) ∧ val (dyadic n e) = IZR n * bp e.
Proof.
  intros Hn He. apply normalize_exact; [lia|lia|done|unfold SpecFloat.emin; lia|]. apply small_enough. rewrite Rabs_mult, (Rabs_pos_eq (bp e)) by (pose proof (bp_pos e); lra).
  rewrite <- abs_IZR. apply IZR_le in Hn. pose proof (bp_le e 0 ltac:(lia)) as He1. change (bp 0) with 1 in He1. pose proof (bp_pos e).
  assert (0 <= IZR (Z.abs n)) by (apply IZR_le; lia). apply (Rle_trans _ (IZR (2 ^ 53))); [nra|by apply IZR_le].
Qed.
Lemma double_of_exact n : (Z.abs n <= 2 ^ 53)%Z → double_number (double_of n) ∧ val (double_of n) = IZR n.
Proof. intros Hn. destruct (dyadic_exact n 0 Hn) as [H1 H2]; [lia|]. split; [exact H1|]. etrans; [exact H2|]. change (bp 0) with 1. lra. Qed.
Lemma float_of_exact n : (Z.abs n <= 2 ^ 24)%Z → float_number (float_of n) ∧ val (float_of n) = IZR n.
Proof.
  intros Hn. destruct (normalize_exact 24 128 ltac:(lia) ltac:(lia) n 0 false) as [H1 H2]; [done|done| |].
  - change (bp 0) with 1. rewrite Rmult_1_r, <- abs_IZR. apply (Rle_lt_trans _ (IZR (2 ^ 24))); [by apply IZR_le|]. rewrite <- bp_IZR by lia. by apply bp_lt.
  - split; [exact H1|]. etrans; [exact H2|]. change (bp 0) with 1. lra.
Qed.
(** A float is the same number as a double. *)
Lemma widen_exact f : float_number f → double_number (widen f) ∧ val (widen f) = val f.
Proof.
  intros Hf. destruct f as [s|s| |s m e]; try by destruct Hf.
  apply number_bounds in Hf as (He & Hm & _); [|lia..]. unfold SpecFloat.emin in He.
  assert (Zpos m <= 2 ^ 53)%Z by lia.
  apply (normalize_exact 53 1024); [lia|lia|destruct s; cbn; lia|unfold SpecFloat.emin; lia|].
  rewrite Rabs_mult, (Rabs_pos_eq (bp e)), <- abs_IZR by (pose proof (bp_pos e); lra).
  apply (Rle_lt_trans _ (bp 24 * bp e)).
  - apply Rmult_le_compat_r; [pose proof (bp_pos e); lra|]. rewrite bp_IZR by lia. apply IZR_le. destruct s; cbn in *; lia.
  - rewrite <- bp_add. apply bp_lt. lia.
Qed.

(** A count is not lost as a float. *)
Lemma count_kept k b : (1 <= k < 2 ^ 63)%Z → narrow (double_of k) ≠ S754_zero b.
Proof.
  intros [H1%IZR_le H2]. assert (IZR k <= IZR (2 ^ 63)) as Hk by (apply IZR_le; lia).
  assert (bp 63 < bp (1024 - 1)) as Hl by by apply bp_lt. rewrite bp_IZR in Hl by lia.
  destruct (double_of_exact 1) as [Hone Eone]; [done|].
  destruct (representable 53 1024 ltac:(lia) 1 63) as (g & Hg & Eg); [done|done|]. rewrite bp_IZR, Rmult_1_l in Eg by lia.
  assert (rounds_double (IZR k) (double_of k)) as Hd.
  { pose proof (normalize_rounds 53 1024 ltac:(lia) ltac:(lia) k 0 false) as Hr. change (bp 0) with 1 in Hr. rewrite Rmult_1_r in Hr.
    apply Hr. rewrite Rabs_pos_eq by lra. lra. }
  pose proof (rounds_ge 53 1024 _ _ _ Hd Hone ltac:(lra)) as Hlo. rewrite Eone in Hlo.
  pose proof (rounds_le 53 1024 _ _ _ Hd Hg ltac:(lra)) as Hhi. rewrite Eg in Hhi.
  destruct (double_of k) as [s|s| |s m e]; try (cbn in Hlo; lra). cbn [narrow]. cbn [val] in Hlo, Hhi.
  assert (bp 63 < bp (128 - 1)) as Hl' by by apply bp_lt. rewrite bp_IZR in Hl' by lia.
  assert (rounds 24 128 (IZR (cond_Zopp s (Zpos m)) * bp e) (binary_normalize 24 128 (cond_Zopp s (Zpos m)) e s)) as Hf
    by (apply normalize_rounds; [lia|lia|rewrite Rabs_pos_eq by lra; lra]).
  destruct (float_of_exact 1) as [Hf1 Ef1]; [done|].
  pose proof (rounds_ge 24 128 _ _ _ Hf Hf1 ltac:(lra)) as Hf0. rewrite Ef1 in Hf0. intros E. rewrite E in Hf0. cbn in Hf0. lra.
Qed.

(** ** Towards zero, and up *)

Lemma trunc_magnitude (m : positive) e :
  let v := if decide (0 <= e)%Z then (Zpos m * 2 ^ e)%Z else (Zpos m / 2 ^ (- e))%Z in
  IZR v <= IZR (Zpos m) * bp e < IZR v + 1.
Proof.
  intros v. subst v. case_decide as He.
  - rewrite bp_IZR, <- mult_IZR by done. lra.
  - assert (0 < 2 ^ (- e))%Z as Hp by (apply Z.pow_pos_nonneg; lia). set (k := (2 ^ (- e))%Z) in *.
    assert (bp e = / IZR k) as ->.
    { apply (Rmult_eq_reg_r (bp (- e))); [|apply bp_ne]. rewrite <- bp_add, (bp_IZR (- e)) by lia.
      fold k. replace (e + - e)%Z with 0%Z by lia. apply IZR_lt in Hp. change (bp 0) with 1. field. lra. }
    pose proof (Z.div_mod (Zpos m) k ltac:(lia)) as Hd. pose proof (Z.mod_pos_bound (Zpos m) k Hp) as [H1%IZR_le H2%IZR_lt].
    apply (f_equal IZR) in Hd. rewrite plus_IZR, mult_IZR in Hd. apply IZR_lt in Hp.
    split; apply (Rmult_le_reg_r (IZR k)) || apply (Rmult_lt_reg_r (IZR k)); try lra; rewrite Rmult_assoc, Rinv_l by lra; lra.
Qed.
Lemma trunc_spec f : is_num f = true → Rabs (val f) <= 2147483647 →
  ∃ t, trunc f = Some t ∧ (0 <= val f → IZR t <= val f < IZR t + 1) ∧ (val f < 0 → val f <= IZR t <= 0).
Proof.
  intros Hf Hv. destruct f as [s|s| |s m e]; try done.
  { exists 0%Z. cbn. split_and!; [done|lra|lra]. }
  cbn [trunc val] in *. pose proof (trunc_magnitude m e) as Hm. cbv zeta in Hm.
  set (v := if decide (0 <= e)%Z then _ else _) in *. rewrite signed_IZR, signed_mult in *. rewrite signed_abs in Hv.
  assert (0 <= IZR (Zpos m) * bp e) as H0 by (pose proof (bp_pos e); pose proof (IZR_le 0 (Zpos m) ltac:(lia)); nra).
  rewrite Rabs_pos_eq in Hv by done.
  assert (0 <= v)%Z as Hv0 by (subst v; case_decide; [assert (0 <= 2 ^ e)%Z by (apply Z.pow_nonneg; lia); lia|apply Z.div_pos; [lia|apply Z.pow_pos_nonneg; lia]]).
  assert (v <= 2147483647)%Z as Hv1 by (apply le_IZR; lra).
  exists (cond_Zopp s v). split; [unfold int_; rewrite decide_True; [done|unfold fits_int; destruct s; cbn; lia]|].
  rewrite signed_IZR. apply IZR_le in Hv0. destruct s; cbn [signed]; split; lra.
Qed.
Lemma ceil_spec f : double_number f → 0 < val f <= 1073741824 → ∃ c, trunc (ceil f) = Some c ∧ IZR c - 1 < val f <= IZR c.
Proof.
  intros Hf Hv. destruct f as [s|s| |s m e]; try (cbn in Hv; lra). cbn [val] in Hv. rewrite signed_IZR, signed_mult in Hv.
  pose proof (bp_pos e) as Hp. assert (0 < IZR (Zpos m)) as Hm by by apply IZR_lt.
  destruct s; cbn [signed] in Hv; [nra|]. cbn [val cond_Zopp]. cbn [ceil]. case_decide as He.
  - pose proof (trunc_magnitude m e) as Ht. cbv zeta in Ht. rewrite decide_True in Ht by done. exists (Zpos m * 2 ^ e)%Z.
    cbn [trunc cond_Zopp]. rewrite decide_True by done. rewrite bp_IZR, <- mult_IZR in * by done. split; [|lra]. unfold int_. rewrite decide_True; [done|].
    assert (Zpos m * 2 ^ e <= 1073741824)%Z by (apply le_IZR; lra). assert (0 < Zpos m * 2 ^ e)%Z by (apply lt_IZR; lra). unfold fits_int. lia.
  - cbn [cond_Zopp]. assert (0 < 2 ^ (- e))%Z as Hk by (apply Z.pow_pos_nonneg; lia). set (k := (2 ^ (- e))%Z) in *.
    assert (bp e = / IZR k) as Eb.
    { apply (Rmult_eq_reg_r (bp (- e))); [|apply bp_ne]. rewrite <- bp_add, (bp_IZR (- e)) by lia.
      fold k. replace (e + - e)%Z with 0%Z by lia. apply IZR_lt in Hk. change (bp 0) with 1. field. lra. }
    set (c := (- (- Zpos m / k))%Z).
    assert (IZR c - 1 < IZR (Zpos m) * bp e <= IZR c) as Hc.
    { pose proof (Z.div_mod (- Zpos m) k ltac:(lia)) as Hd. pose proof (Z.mod_pos_bound (- Zpos m) k Hk) as [H1%IZR_le H2%IZR_lt].
      apply (f_equal IZR) in Hd. rewrite plus_IZR, mult_IZR, opp_IZR in Hd. apply IZR_lt in Hk. subst c. rewrite opp_IZR, Eb.
      split; apply (Rmult_le_reg_r (IZR k)) || apply (Rmult_lt_reg_r (IZR k)); try lra; rewrite Rmult_assoc, Rinv_l by lra; lra. }
    assert (0 < c <= 1073741824)%Z as Hcb by (split; [apply lt_IZR; lra|apply Z.lt_succ_r, lt_IZR; unfold Z.succ; rewrite plus_IZR; lra]).
    destruct (normalize_exact 53 1024 ltac:(lia) ltac:(lia) c 0 false) as [Hn Hcv]; [lia|done| |].
    { apply small_enough. change (bp 0) with 1. rewrite Rmult_1_r, <- abs_IZR. apply IZR_le. lia. }
    change (bp 0) with 1 in Hcv. rewrite Rmult_1_r in Hcv. destruct Hn as [Hn _].
    destruct (trunc_spec (binary_normalize 53 1024 c 0 false) Hn) as (t & Ht & Hpos & _).
    { rewrite Hcv, <- abs_IZR. apply IZR_le. lia. }
    exists c. split; [|exact Hc]. rewrite Ht. f_equal. rewrite Hcv in Hpos. specialize (Hpos ltac:(apply IZR_le; lia)) as [Ha%le_IZR Hb].
    rewrite <- plus_IZR in Hb. apply lt_IZR in Hb. lia.
Qed.
