(* ===== verification/Imaging.v ===== *)
(** * modules/opencv/pil: images and their memory

    Imaging.h and the part of pil-resample.c that stands for Pillow's
    libImaging: images are one block of lines, an error is a message kept for
    the caller.  Every allocation may fail; how the ones to come will go is
    the queue [mem] of the state. *)
From Stdlib Require Import Floats.SpecFloat.
From S2P Require Import Prelude Effect Float.

Local Open Scope Z_scope.

Definition IMAGING_TYPE_UINT8 : Z := 0.
Definition IMAGING_TYPE_INT32 : Z := 1.
Definition IMAGING_TYPE_FLOAT32 : Z := 2.
Definition IMAGING_TYPE_SPECIAL : Z := 3.
Definition IMAGING_MODE_LENGTH : nat := 7.

Definition IMAGING_TRANSFORM_LANCZOS : Z := 1.
Definition IMAGING_TRANSFORM_BILINEAR : Z := 2.
Definition IMAGING_TRANSFORM_BICUBIC : Z := 3.
Definition IMAGING_TRANSFORM_BOX : Z := 4.
Definition IMAGING_TRANSFORM_HAMMING : Z := 5.

(** [struct ImagingMemoryInstance]: [image8] and [image32] are views of
    [image], of which one is set; [block] and [image] are allocations, whose
    bytes, a list for each line, are [lines]. *)
Record imaging := Imaging {
  mode : bytes;
  type : Z;
  bands : Z;
  xsize : Z;
  ysize : Z;
  image8 : bool;
  image32 : bool;
  image : option nat;
  block : option nat;
  pixelsize : Z;
  linesize : Z;
  lines : list (list Z);
}.
Definition set_lines l im :=
  Imaging (mode im) (type im) (bands im) (xsize im) (ysize im) (image8 im) (image32 im) (image im) (block im)
          (pixelsize im) (linesize im) l.

(** ** Reading and writing; outside the image C says nothing *)

(** An element of an array. *)
Definition at_ {A} (l : list A) (i : Z) : option A := if decide (0 ≤ i) then l !! Z.to_nat i else None.

(** [im->image[y][x]] as an unsigned byte. *)
Definition byte_at (im : imaging) (y x : Z) : option Z := l ← at_ (lines im) y; at_ l x.
(** [im->image8[y][x]]: not through a null [image8]. *)
Definition byte8_at (im : imaging) (y x : Z) : option Z := if image8 im then byte_at im y x else None.
(** IMAGING_PIXEL_I's four bytes, and what they are. *)
Definition word_at (im : imaging) (y x : Z) : option Z :=
  if image32 im then
    b0 ← byte_at im y (4 * x); b1 ← byte_at im y (4 * x + 1);
    b2 ← byte_at im y (4 * x + 2); b3 ← byte_at im y (4 * x + 3);
    Some (b0 + 256 * b1 + 65536 * b2 + 16777216 * b3)
  else None.
Definition IMAGING_PIXEL_I (im : imaging) (x y : Z) : option Z := sint 32 <$> word_at im y x.
Definition IMAGING_PIXEL_F (im : imaging) (x y : Z) : option float32 := float32_of_bits <$> word_at im y x.
Definition word_bytes (w : Z) : list Z := (λ k, (w / 2 ^ (8 * k)) `mod` 256) <$> [0; 1; 2; 3].

(** A line written from its start. *)
Definition put_line (im : imaging) (y : Z) (l : list Z) : option imaging :=
  old ← at_ (lines im) y;
  if decide (length l ≤ length old)%nat
  then Some (set_lines (<[Z.to_nat y := l ++ drop (length l) old]> (lines im)) im) else None.
Definition put_lines (im : imaging) (ls : list (list Z)) : option imaging :=
  foldl (λ o '(y, l), im ← o; put_line im y l) (Some im) (imap (λ y l, (Z.of_nat y, l)) ls).

Definition CLIP8 (v : Z) : Z := if decide (v ≤ 0) then 0 else if decide (v < 256) then v else 255.
Definition MAKE_UINT32 (u0 u1 u2 u3 : Z) : Z := u0 + 256 * u1 + 65536 * u2 + 16777216 * u3.

(** ** Memory *)

Record pil := Pil {
  images : gmap nat imaging;        (** the structs that are live *)
  bufs : gset nat;                  (** the other allocations that are live *)
  next_p : nat;
  pil_error : option bytes;
  mem : list bool;
}.
Definition set_images v s := Pil v (bufs s) (next_p s) (pil_error s) (mem s).
Definition set_bufs v n s := Pil (images s) v n (pil_error s) (mem s).
Definition set_pil_error v s := Pil (images s) (bufs s) (next_p s) v (mem s).
Definition set_mem v s := Pil (images s) (bufs s) (next_p s) (pil_error s) v.

Abbreviation P := (M pil).

(** Outside an array, through a dangling pointer, an int overflown: C defines
    nothing, and neither does the logic. *)
Definition unknown {A} : P A := λ s, Spin s.
Definition known {A} (o : option A) : P A := match o with Some a => ret a | None => unknown end.

(** malloc, calloc; free of what may be null, and not twice. *)
Definition granted : P bool :=
  q <- gets mem ;;
  match q with [] => ret true | b :: q => modify (set_mem q) ;; ret b end.
Definition malloc : P (option nat) :=
  b <- granted ;;
  if (b : bool) then
    n <- gets next_p ;; modify (λ s, set_bufs ({[n]} ∪ bufs s) (S n) s) ;; ret (Some n)
  else ret None.
Definition free (p : option nat) : P unit :=
  match p with
  | None => ret tt
  | Some p =>
      b <- gets bufs ;;
      if decide (p ∈ b) then modify (λ s, set_bufs (bufs s ∖ {[p]}) (next_p s) s) else unknown
  end.

(** The struct at a pointer. *)
Definition deref (p : nat) : P imaging := m <- gets images ;; known (m !! p).
Definition store (p : nat) (im : imaging) : P unit := modify (λ s, set_images (<[p := im]> (images s)) s).

Definition error {A} (m : bytes) : P (option A) := modify (set_pil_error (Some m)) ;; ret None.
Definition ImagingError_MemoryError {A} : P (option A) := error $"out of memory".
Definition ImagingError_ModeError {A} : P (option A) := error $"unsupported image mode".
Definition ImagingError_ValueError {A} (m : bytes) : P (option A) := error m.

Definition ImagingDelete (p : option nat) : P unit :=
  match p with
  | None => ret tt
  | Some p =>
      im <- deref p ;;
      free (block im) ;;
      free (image im) ;;
      modify (λ s, set_images (delete p (images s)) s)
  end.

Definition ImagingNewDirty (m : bytes) (xs ys : Z) : P (option nat) :=
  if decide (xs < 0 ∨ ys < 0 ∨ (IMAGING_MODE_LENGTH ≤ length (c_str m))%nat) then
    ImagingError_ValueError $"bad image size or mode"
  else
    b <- granted ;;
    if negb b then ImagingError_MemoryError
    else
      p <- gets next_p ;;
      modify (λ s, set_bufs (bufs s) (S p) s) ;;
      let bands := Z.of_nat (length (c_str m)) in
      let ps := if decide (bands = 1) then 1 else 4 in
      ls <- known (int_ (xs * ps)) ;;
      blk <- malloc ;;
      img <- malloc ;;
      store p (Imaging (c_str m) IMAGING_TYPE_UINT8 bands xs ys false false img blk ps ls []) ;;
      match blk, img with
      | Some _, Some _ =>
          store p (Imaging (c_str m) IMAGING_TYPE_UINT8 bands xs ys (bool_decide (ps = 1)) (bool_decide (ps ≠ 1))
                           img blk ps ls (replicate (Z.to_nat ys) (replicate (Z.to_nat ls) 0))) ;;
          ret (Some p)
      | _, _ => ImagingDelete (Some p) ;; ImagingError_MemoryError
      end.

(** The whole block at once, line for line. *)
Definition ImagingCopy (p : nat) : P (option nat) :=
  im <- deref p ;;
  q <-? ImagingNewDirty (mode im) (xsize im) (ysize im) ;;
  (if decide (0 < ysize im ∧ 0 < linesize im) then
     o <- deref q ;;
     o' <- known (put_lines o (take (Z.to_nat (ysize im)) (lines im))) ;;
     store q o'
   else ret tt) ;;
  ret (Some q).
