(* ===== verification/Resample.v ===== *)
(** * modules/opencv/pil/Resample.c: Pillow's antialiased resize

    The filters, the coefficients of each output pixel, the passes over rows
    and over columns for 8, 16 and 32 bits a channel, and the two passes put
    together; then pil_resample_8u of pil-resample.c, the one way in. *)
From Stdlib Require Import Floats.SpecFloat.
From S2P Require Import Prelude Effect Float Imaging.

Local Open Scope Z_scope.

(** libm's sine and cosine. *)
Class Libm := { sin : float64 → float64; cos : float64 → float64 }.

(** ** Constants: doubles, and floats widened *)

Definition zero : float64 := S754_zero false.
Definition half : float64 := dyadic 1 (-1).
Definition one : float64 := dyadic 1 0.
Definition M_PI : float64 := dyadic 884279719003555 (-48).
Definition f054 : float32 := S754_finite false 9059697 (-24).
Definition f046 : float32 := S754_finite false 15435039 (-25).
Definition int_f (n : Z) : float64 := double_of n.

Definition ROUND_UP (f : float64) : option Z :=
  trunc (if SFleb zero f then fadd f half else fsub f half).

(** ** Filters *)

Section filters.
Context `{Libm}.

Definition box_filter (x : float64) : float64 :=
  if SFltb (SFopp half) x && SFleb x half then one else zero.
Definition bilinear_filter (x : float64) : float64 :=
  let x := if SFltb x zero then SFopp x else x in
  if SFltb x one then fsub one x else zero.
Definition hamming_filter (x : float64) : float64 :=
  let x := if SFltb x zero then SFopp x else x in
  if SFeqb x zero then one
  else if SFleb one x then zero
  else
    let x := fmul x M_PI in
    fmul (fdiv (sin x) x) (fadd f054 (fmul f046 (cos x))).
(** Bicubic convolution with a = -0.5. *)
Definition bicubic_filter (x : float64) : float64 :=
  let a := SFopp half in
  let x := if SFltb x zero then SFopp x else x in
  if SFltb x one then
    fadd (fmul (fmul (fsub (fmul (fadd a (int_f 2)) x) (fadd a (int_f 3))) x) x) one
  else if SFltb x (int_f 2) then
    fmul (fsub (fmul (fadd (fmul (fsub x (int_f 5)) x) (int_f 8)) x) (int_f 4)) a
  else zero.
Definition sinc_filter (x : float64) : float64 :=
  if SFeqb x zero then one else let x := fmul x M_PI in fdiv (sin x) x.
Definition lanczos_filter (x : float64) : float64 :=
  if SFleb (int_f (-3)) x && SFltb x (int_f 3) then
    fmul (sinc_filter x) (sinc_filter (fdiv x (int_f 3)))
  else zero.

Record filter := Filter { filter_ : float64 → float64; support : float64 }.
Definition BOX := Filter box_filter half.
Definition BILINEAR := Filter bilinear_filter one.
Definition HAMMING := Filter hamming_filter one.
Definition BICUBIC := Filter bicubic_filter (int_f 2).
Definition LANCZOS := Filter lanczos_filter (int_f 3).
End filters.

(** ** Eight bits *)

Definition PRECISION_BITS : Z := 32 - 8 - 2.
Definition clip8_lookups : list Z :=
  replicate 640 0 ++ (Z.of_nat <$> seq 0 256) ++ replicate 384 255.
Definition clip8 (v : Z) : option Z := at_ clip8_lookups (640 + Z.shiftr v PRECISION_BITS).

(** ** Coefficients *)

(** The window of one output pixel, [(xmin, xmax)], and its coefficients. *)
Definition window (inSize : Z) (center support_ : float64) : option (Z * Z) :=
  lo ← trunc (fadd (fsub center support_) half);
  let xmin := if decide (lo < 0) then 0 else lo in
  hi ← trunc (fadd (fadd center support_) half);
  let xmax := if decide (hi > inSize) then inSize else hi in
  n ← int_ (xmax - xmin);
  Some (xmin, n).
Definition weights (f : float64 → float64) (center ss : float64) (xmin n ksize : Z) : option (list float64) :=
  if decide (ksize < n) then None
  else
    let k := (λ x, f (fmul (fadd (fsub (double_of (x + xmin)) center) half) ss)) <$> seqZ 0 n in
    let ww := foldl fadd zero k in
    let k := (λ w, if SFeqb ww zero then w else fdiv w ww) <$> k in
    Some (k ++ replicate (Z.to_nat (ksize - Z.max n 0)) zero).

(** Every output pixel's. *)
Definition coeffs_at (inSize : Z) (in0 : float32) (f : filter) (scale filterscale support_ : float64) (ksize xx : Z)
    : option ((Z * Z) * list float64) :=
  let center := fadd (widen in0) (fmul (fadd (double_of xx) half) scale) in
  w ← window inSize center support_;
  k ← weights (filter_ f) center (fdiv one filterscale) (fst w) (snd w) ksize;
  Some (w, k).

(** What [precompute_coeffs] gives back: [ksize], and the two buffers. *)
Record coeffs := Coeffs {
  ksize : Z;
  bounds : list (Z * Z);
  kk : list (list float64);
  bounds_p : option nat;
  kk_p : option nat;
}.
Definition scale_of (in0 in1 : float32) (outSize : Z) : float64 := fdiv (widen (fsub32 in1 in0)) (double_of outSize).
Definition precompute_coeffs (inSize : Z) (in0 in1 : float32) (outSize : Z) (f : filter) : P (option coeffs) :=
  let scale := scale_of in0 in1 outSize in
  let filterscale := if SFltb scale one then one else scale in
  let support_ := fmul (support f) filterscale in
  c <- known (trunc (ceil support_)) ;;
  ksize <- known (c ← int_ (c * 2); int_ (c + 1)) ;;
  bytes_ <- known (int_ (ksize * 8)) ;;
  if decide (bytes_ = 0) then unknown
  else if decide (outSize > Z.quot 2147483647 bytes_) then ImagingError_MemoryError
  else
    kkp <- malloc ;;
    match kkp with
    | None => ImagingError_MemoryError
    | Some kkp =>
        bp <- malloc ;;
        match bp with
        | None => free (Some kkp) ;; ImagingError_MemoryError
        | Some bp =>
            l <- known (mapM (coeffs_at inSize in0 f scale filterscale support_ ksize) (seqZ 0 outSize)) ;;
            ret (Some (Coeffs ksize (fst <$> l) (snd <$> l) (Some bp) (Some kkp)))
        end
    end.

(** In the same buffer: an int takes half the room of the double it is made
    from, so each is written where only doubles already read have been. *)
Definition normalize (w : float64) : option Z :=
  let one_ := double_of (2 ^ PRECISION_BITS) in
  trunc (if SFltb w zero then fadd (SFopp half) (fmul w one_) else fadd half (fmul w one_)).
Definition normalize_coeffs_8bpc (outSize : Z) (prekk : list (list float64)) : option (list (list Z)) :=
  if decide (Z.of_nat (length prekk) < outSize) then None
  else mapM (mapM normalize) (take (Z.to_nat outSize) prekk).

(** ** Passes

    A pass makes each line of [imOut] in turn, pixel after pixel. *)
Definition passing (out : imaging) (row : Z → option (list Z)) : option imaging :=
  ls ← mapM row (seqZ 0 (ysize out)); put_lines out ls.
Definition row_of (n : Z) (pixel : Z → option (list Z)) : option (list Z) :=
  (λ l, concat l) <$> mapM pixel (seqZ 0 n).

(** [ss += px(x) * k[x]] for x below [n], in ints. *)
Fixpoint sum8 (ss : Z) (xs : list Z) (px : Z → option Z) (k : list Z) : option Z :=
  match xs with
  | [] => Some ss
  | x :: xs => p ← px x; c ← at_ k x; m ← int_ (p * c); ss ← int_ (ss + m); sum8 ss xs px k
  end.
Definition channel8 (n : Z) (px : Z → option Z) (k : list Z) : option Z :=
  ss ← sum8 (2 ^ (PRECISION_BITS - 1)) (seqZ 0 n) px k; clip8 ss.

(** A pixel's bytes by the image's bands, [px b] its source in band [b]. *)
Definition pixel_8bpc (im : imaging) (n : Z) (px8 : Z → option Z) (px : Z → Z → option Z) (k : list Z) : option (list Z) :=
  if image8 im then (λ v, [v]) <$> channel8 n px8 k
  else if decide (bands im = 2) then
    u0 ← channel8 n (px 0) k; u3 ← channel8 n (px 3) k; Some (word_bytes (MAKE_UINT32 u0 0 0 u3))
  else if decide (bands im = 3) then
    u0 ← channel8 n (px 0) k; u1 ← channel8 n (px 1) k; u2 ← channel8 n (px 2) k;
    Some (word_bytes (MAKE_UINT32 u0 u1 u2 0))
  else
    u0 ← channel8 n (px 0) k; u1 ← channel8 n (px 1) k; u2 ← channel8 n (px 2) k; u3 ← channel8 n (px 3) k;
    Some (word_bytes (MAKE_UINT32 u0 u1 u2 u3)).

Definition ImagingResampleHorizontal_8bpc (out inn : imaging) (offset ksize : Z) (bounds : list (Z * Z)) (prekk : list (list float64)) : option imaging :=
  kk ← normalize_coeffs_8bpc (xsize out) prekk;
  if image8 inn || bool_decide (type inn = IMAGING_TYPE_UINT8) then
    passing out (λ yy, row_of (xsize out) (λ xx,
      w ← at_ bounds xx; k ← at_ kk xx;
      pixel_8bpc inn (snd w)
        (λ x, byte8_at inn (yy + offset) (x + fst w))
        (λ b x, byte_at inn (yy + offset) ((x + fst w) * 4 + b)) k))
  else Some out.

Definition ImagingResampleVertical_8bpc (out inn : imaging) (offset ksize : Z) (bounds : list (Z * Z)) (prekk : list (list float64)) : option imaging :=
  kk ← normalize_coeffs_8bpc (ysize out) prekk;
  if image8 inn || bool_decide (type inn = IMAGING_TYPE_UINT8) then
    passing out (λ yy,
      w ← at_ bounds yy; k ← at_ kk yy;
      row_of (xsize out) (λ xx,
        pixel_8bpc inn (snd w)
          (λ y, byte8_at inn (y + fst w) xx)
          (λ b y, byte_at inn (y + fst w) (xx * 4 + b)) k))
  else Some out.

(** [ss += px(x) * k[x]] in doubles. *)
Fixpoint sumf (ss : float64) (xs : list Z) (px : Z → option float64) (k : list float64) : option float64 :=
  match xs with
  | [] => Some ss
  | x :: xs => p ← px x; c ← at_ k x; sumf (fadd ss (fmul p c)) xs px k
  end.

Section passes.
(** WORDS_BIGENDIAN *)
Context (words_bigendian : bool).

Definition bigendian (m : bytes) : bool :=
  bool_decide (c_str m = $"I;16N") || (words_bigendian && bool_decide (c_str m = $"I;16B")).
(** The two bytes of a 16-bit pixel, and a 16-bit pixel's two bytes. *)
Definition short_at (big : bool) (im : imaging) (y x : Z) : option float64 :=
  lo ← byte8_at im y (x * 2 + (if big then 1 else 0));
  hi ← byte8_at im y (x * 2 + (if big then 0 else 1));
  Some (double_of (lo + Z.shiftl hi 8)).
Definition pixel_16bpc (big : bool) (out : imaging) (n : Z) (px : Z → option float64) (k : list float64) : option (list Z) :=
  ss ← sumf zero (seqZ 0 n) px k;
  v ← ROUND_UP ss;
  if image8 out then
    let lo := CLIP8 (Z.rem v 256) in let hi := CLIP8 (Z.shiftr v 8) in
    Some (if big then [hi; lo] else [lo; hi])
  else None.

Definition ImagingResampleHorizontal_16bpc (out inn : imaging) (offset ksize : Z) (bounds : list (Z * Z)) (kk : list (list float64)) : option imaging :=
  let big := bigendian (mode inn) in
  passing out (λ yy, row_of (xsize out) (λ xx,
    w ← at_ bounds xx; k ← at_ kk xx;
    pixel_16bpc big out (snd w) (λ x, short_at big inn (yy + offset) (x + fst w)) k)).
Definition ImagingResampleVertical_16bpc (out inn : imaging) (offset ksize : Z) (bounds : list (Z * Z)) (kk : list (list float64)) : option imaging :=
  let big := bigendian (mode inn) in
  passing out (λ yy,
    w ← at_ bounds yy; k ← at_ kk yy;
    row_of (xsize out) (λ xx,
      pixel_16bpc big out (snd w) (λ y, short_at big inn (y + fst w) xx) k)).

Definition pixel_int (out : imaging) (n : Z) (px : Z → option Z) (k : list float64) : option (list Z) :=
  ss ← sumf zero (seqZ 0 n) (λ x, double_of <$> px x) k;
  v ← ROUND_UP ss;
  if image32 out then Some (word_bytes (uint 32 v)) else None.
Definition pixel_float (out : imaging) (n : Z) (px : Z → option float32) (k : list float64) : option (list Z) :=
  ss ← sumf zero (seqZ 0 n) (λ x, widen <$> px x) k;
  if image32 out then Some (word_bytes (bits_of_float32 (narrow ss))) else None.

Definition ImagingResampleHorizontal_32bpc (out inn : imaging) (offset ksize : Z) (bounds : list (Z * Z)) (kk : list (list float64)) : option imaging :=
  if decide (type inn = IMAGING_TYPE_INT32) then
    passing out (λ yy, row_of (xsize out) (λ xx,
      w ← at_ bounds xx; k ← at_ kk xx;
      pixel_int out (snd w) (λ x, IMAGING_PIXEL_I inn (x + fst w) (yy + offset)) k))
  else if decide (type inn = IMAGING_TYPE_FLOAT32) then
    passing out (λ yy, row_of (xsize out) (λ xx,
      w ← at_ bounds xx; k ← at_ kk xx;
      pixel_float out (snd w) (λ x, IMAGING_PIXEL_F inn (x + fst w) (yy + offset)) k))
  else Some out.
Definition ImagingResampleVertical_32bpc (out inn : imaging) (offset ksize : Z) (bounds : list (Z * Z)) (kk : list (list float64)) : option imaging :=
  if decide (type inn = IMAGING_TYPE_INT32) then
    passing out (λ yy,
      w ← at_ bounds yy; k ← at_ kk yy;
      row_of (xsize out) (λ xx, pixel_int out (snd w) (λ y, IMAGING_PIXEL_I inn xx (y + fst w)) k))
  else if decide (type inn = IMAGING_TYPE_FLOAT32) then
    passing out (λ yy,
      w ← at_ bounds yy; k ← at_ kk yy;
      row_of (xsize out) (λ xx, pixel_float out (snd w) (λ y, IMAGING_PIXEL_F inn xx (y + fst w)) k))
  else Some out.
End passes.

(** ** The two passes *)

Definition ResampleFunction : Type := imaging → imaging → Z → Z → list (Z * Z) → list (list float64) → option imaging.

(** A region of the source: left, top, right, bottom. *)
Record boxing := Box { box0 : float32; box1 : float32; box2 : float32; box3 : float32 }.

Definition truthy (f : float32) : bool := negb (SFeqb f (S754_zero false)).

(** A pass into a new image, if there is one. *)
Definition pass_into (f : ResampleFunction) (q p : nat) (offset : Z) (c : coeffs) (b : list (Z * Z)) : P unit :=
  o <- deref q ;; im <- deref p ;;
  r <- known (f o im offset (ksize c) b (kk c)) ;;
  store q r.
Definition pass_new (m : bytes) (xs ys : Z) (f : ResampleFunction) (p : nat) (offset : Z) (c : coeffs) (b : list (Z * Z)) : P (option nat) :=
  q <- ImagingNewDirty m xs ys ;;
  match q with Some q => pass_into f q p offset c b ;; ret (Some q) | None => ret None end.

(** The horizontal pass, into a temporary, or none.  Nothing is left when
    there is no memory for it. *)
Definition horizontal_stage (need : bool) (m : bytes) (p : nat) (xs first last : Z) (horizontal : ResampleFunction)
    (ch cv : coeffs) : P (option (option nat)) :=
  if need then
    t <- pass_new m xs (last - first) horizontal p first ch (bounds ch) ;;
    free (bounds_p ch) ;; free (kk_p ch) ;;
    match t with
    | None => free (bounds_p cv) ;; free (kk_p cv) ;; ret None
    | Some t => ret (Some (Some t))
    end
  else free (bounds_p ch) ;; free (kk_p ch) ;; ret (Some None).
(** The vertical pass, on the original or on the temporary. *)
Definition vertical_stage (need : bool) (p : nat) (temp : option nat) (ys : Z) (vertical : ResampleFunction)
    (cv : coeffs) (b : list (Z * Z)) : P (option nat) :=
  if need then
    im <- deref (default p temp) ;;
    o <- pass_new (mode im) (xsize im) ys vertical (default p temp) 0 cv b ;;
    ImagingDelete temp ;;
    free (bounds_p cv) ;; free (kk_p cv) ;;
    ret o
  else free (bounds_p cv) ;; free (kk_p cv) ;; ret temp.

Section resample.
Context `{Libm}.

Definition ImagingResampleInner (p : nat) (xs ys : Z) (f : filter) (box : boxing)
    (horizontal vertical : ResampleFunction) : P (option nat) :=
  im <- deref p ;;
  let need_horizontal := bool_decide (xs ≠ xsize im) || truthy (box0 box) || negb (SFeqb (box2 box) (float_of xs)) in
  let need_vertical := bool_decide (ys ≠ ysize im) || truthy (box1 box) || negb (SFeqb (box3 box) (float_of ys)) in
  ch <-? precompute_coeffs (xsize im) (box0 box) (box2 box) xs f ;;
  cv <- precompute_coeffs (ysize im) (box1 box) (box3 box) ys f ;;
  match cv with
  | None => free (bounds_p ch) ;; free (kk_p ch) ;; ret None
  | Some cv =>
      ybox_first <- known (fst <$> at_ (bounds cv) 0) ;;
      ybox_last <- known (w ← at_ (bounds cv) (ys - 1); int_ (fst w + snd w)) ;;
      temp <-? horizontal_stage need_horizontal (mode im) p xs ybox_first ybox_last horizontal ch cv ;;
      let b := if need_horizontal then (λ w, (fst w - ybox_first, snd w)) <$> bounds cv else bounds cv in
      out <- vertical_stage need_vertical p temp ys vertical cv b ;;
      match out with
      | None => if need_vertical then ret None else ImagingCopy (default p temp)
      | Some o => ret (Some o)
      end
  end.

(** The filter asked for, and the passes for an image's type. *)
Definition transform (n : Z) : option filter :=
  if decide (n = IMAGING_TRANSFORM_BOX) then Some BOX
  else if decide (n = IMAGING_TRANSFORM_BILINEAR) then Some BILINEAR
  else if decide (n = IMAGING_TRANSFORM_HAMMING) then Some HAMMING
  else if decide (n = IMAGING_TRANSFORM_BICUBIC) then Some BICUBIC
  else if decide (n = IMAGING_TRANSFORM_LANCZOS) then Some LANCZOS
  else None.
Definition passes (big : bool) (im : imaging) : option (ResampleFunction * ResampleFunction) :=
  if decide (mode im = $"P" ∨ mode im = $"1") then None
  else if decide (type im = IMAGING_TYPE_SPECIAL) then
    if decide (take 4 (mode im) = $"I;16")
    then Some (ImagingResampleHorizontal_16bpc big, ImagingResampleVertical_16bpc big) else None
  else if image8 im then Some (ImagingResampleHorizontal_8bpc, ImagingResampleVertical_8bpc)
  else if decide (type im = IMAGING_TYPE_UINT8) then Some (ImagingResampleHorizontal_8bpc, ImagingResampleVertical_8bpc)
  else if decide (type im = IMAGING_TYPE_INT32 ∨ type im = IMAGING_TYPE_FLOAT32) then
    Some (ImagingResampleHorizontal_32bpc, ImagingResampleVertical_32bpc)
  else None.
Definition ImagingResample (big : bool) (p : nat) (xs ys filter : Z) (box : boxing) : P (option nat) :=
  im <- deref p ;;
  match passes big im with
  | None => ImagingError_ModeError
  | Some (h, v) =>
      match transform filter with
      | None => ImagingError_ValueError $"unsupported resampling filter"
      | Some f => ImagingResampleInner p xs ys f box h v
      end
  end.

(** ** pil_resample_8u: the caller's bytes in, the resampled ones out *)

(** [n] bytes of an array from [i]. *)
Definition bytes_at (l : list Z) (i n : Z) : option (list Z) := mapM (at_ l) (seqZ i n).
(** Pixels of [channels] bytes and pixels of four. *)
Definition spread (channels : Z) (old s : list Z) (w : Z) : option (list Z) :=
  (λ l, concat l) <$> mapM (λ x, c ← bytes_at s (x * channels) channels;
                        o ← bytes_at old (x * 4 + channels) (4 - channels); Some (c ++ o)) (seqZ 0 w).
Definition gather (channels : Z) (s : list Z) (w : Z) : option (list Z) :=
  (λ l, concat l) <$> mapM (λ x, bytes_at s (x * 4) channels) (seqZ 0 w).
Definition fill_in (im : imaging) (src : list Z) (w h channels step : Z) : option imaging :=
  ls ← mapM (λ y,
    if decide (channels = 1) then bytes_at src (y * step) w
    else
      s ← bytes_at src (y * step) (w * channels);
      old ← at_ (lines im) y; spread channels old s w) (seqZ 0 h);
  put_lines im ls.
(** The caller's memory with bytes written at [i]. *)
Definition put_bytes (dst : list Z) (i : Z) (l : list Z) : option (list Z) :=
  if decide (0 ≤ i ∧ i + Z.of_nat (length l) ≤ Z.of_nat (length dst))
  then Some (list_inserts (Z.to_nat i) l dst) else None.
Definition take_out (im : imaging) (dst : list Z) (outw outh channels dststep : Z) : option (list Z) :=
  foldl (λ o y,
    d ← o; s ← at_ (lines im) y;
    r ← (if decide (channels = 1) then bytes_at s 0 outw else gather channels s outw);
    put_bytes d (y * dststep) r) (Some dst) (seqZ 0 outh).

(** The message, or none and [dst] as it is then. *)
Definition pil_resample_8u (big : bool) (src : list Z) (w h channels step outw outh filter : Z)
    (dst : list Z) (dststep : Z) : P (option bytes * list Z) :=
  let failed (why : bytes) : P (option bytes * list Z) :=
    e <- gets pil_error ;; ret (Some (default why e), dst) in
  if negb (bool_decide (channels = 1 ∨ channels = 3 ∨ channels = 4)) then
    ret (Some $"cv_resample: 1, 3 or 4 channels of 8 bits", dst)
  else if decide (outw < 1 ∨ outh < 1) then ret (Some $"cv_resample: the size must be positive", dst)
  else
    modify (set_pil_error None) ;;
    inn <- ImagingNewDirty (if decide (channels = 1) then $"L" else if decide (channels = 3) then $"RGB" else $"RGBA") w h ;;
    match inn with
    | None => failed $"cv_resample: out of memory"
    | Some p =>
        im <- deref p ;;
        im <- known (fill_in im src w h channels step) ;;
        store p im ;;
        out <- ImagingResample big p outw outh filter (Box zero zero (float_of w) (float_of h)) ;;
        ImagingDelete (Some p) ;;
        match out with
        | None => failed $"cv_resample: resampling failed"
        | Some q =>
            o <- deref q ;;
            dst <- known (take_out o dst outw outh channels dststep) ;;
            ImagingDelete (Some q) ;;
            ret (None, dst)
        end
    end.
End resample.
