(* ===== verification/Kernels.v ===== *)
(** * What a resize should compute

    The reference the resize is held to, written from its definition and not
    from Resample.c: the kernels of the five filters, the pixels an output is
    made of, their shares in 22-bit fixed point, and the sum rounded and
    clamped.  It is in doubles, since the shares are rounded doubles and the
    bytes depend on it, but it has no buffers, offsets, tables or passes. *)
From Stdlib Require Import Floats.SpecFloat.
From S2P Require Import Prelude Effect Float Imaging Resample.

Local Open Scope Z_scope.

(** ** Kernels *)

Definition nought : float64 := double_of 0.
Definition unity : float64 := double_of 1.
Definition middle : float64 := dyadic 1 (-1).
Definition pi : float64 := dyadic 7074237752028440 (-51).
(** A decimal written with an f. *)
Definition hundredths (n : Z) : float32 := narrow (fdiv (double_of n) (double_of 100)).

Section kernels.
Context `{Libm}.

Definition sinc (x : float64) : float64 :=
  if SFeqb x nought then unity else fdiv (sin (fmul x pi)) (fmul x pi).

(** 1 on half a pixel either side. *)
Definition box_kernel (x : float64) : float64 :=
  if SFltb (dyadic (-1) (-1)) x && SFleb x middle then unity else nought.
(** 1 - |x| on a pixel either side. *)
Definition tent_kernel (x : float64) : float64 :=
  if SFltb (SFabs x) unity then fsub unity (SFabs x) else nought.
(** The sinc in a Hamming window. *)
Definition hamming_kernel (x : float64) : float64 :=
  if SFeqb (SFabs x) nought then unity
  else if SFleb unity (SFabs x) then nought
  else fmul (sinc (SFabs x)) (fadd (hundredths 54) (fmul (hundredths 46) (cos (fmul (SFabs x) pi)))).
(** Keys's cubic with a = -1/2: 3/2 |x|^3 - 5/2 |x|^2 + 1, and
    -1/2 (|x|^3 - 5 |x|^2 + 8 |x| - 4). *)
Definition cubic_kernel (x : float64) : float64 :=
  let t := SFabs x in
  if SFltb t unity then
    fadd (fmul (fmul (fsub (fmul (dyadic 3 (-1)) t) (dyadic 5 (-1))) t) t) unity
  else if SFltb t (double_of 2) then
    fmul (fsub (fmul (fadd (fmul (fsub t (double_of 5)) t) (double_of 8)) t) (double_of 4)) (dyadic (-1) (-1))
  else nought.
(** The sinc in a sinc three wide. *)
Definition lanczos_kernel (x : float64) : float64 :=
  if SFleb (double_of (-3)) x && SFltb x (double_of 3) then fmul (sinc x) (sinc (fdiv x (double_of 3))) else nought.

(** By the number the caller gives; [radius] is where each ends. *)
Definition kernel (filter : Z) : float64 → float64 :=
  if decide (filter = IMAGING_TRANSFORM_BOX) then box_kernel
  else if decide (filter = IMAGING_TRANSFORM_BILINEAR) then tent_kernel
  else if decide (filter = IMAGING_TRANSFORM_HAMMING) then hamming_kernel
  else if decide (filter = IMAGING_TRANSFORM_BICUBIC) then cubic_kernel
  else lanczos_kernel.
Definition radius (filter : Z) : float64 :=
  if decide (filter = IMAGING_TRANSFORM_BOX) then middle
  else if decide (filter = IMAGING_TRANSFORM_BILINEAR) then unity
  else if decide (filter = IMAGING_TRANSFORM_HAMMING) then unity
  else if decide (filter = IMAGING_TRANSFORM_BICUBIC) then double_of 2
  else double_of 3.

(** ** An axis of [inn] pixels made [out] *)

Definition whole_part (f : float64) : Z := default 0 (trunc f).
(** A share in units of 2^-22, to the nearest, halves away from nought. *)
Definition fixed (y : float64) : option Z :=
  let z := fmul y (double_of 4194304) in
  trunc (if SFltb y nought then fsub z middle else fadd z middle).

Section axis.
Context (filter inn out : Z).

Definition scale : float64 := fdiv (double_of inn) (double_of out).
(** The kernel is stretched when the axis shrinks, and never squeezed. *)
Definition stretch : float64 := if SFltb scale unity then unity else scale.
Definition reach : float64 := fmul (radius filter) stretch.
Definition centre (i : Z) : float64 := fmul (fadd (double_of i) middle) scale.
(** Output [i] is made of pixels from [from_pixel] up to and without [upto_pixel]. *)
Definition from_pixel (i : Z) : Z := Z.max 0 (whole_part (fadd (fsub (centre i) reach) middle)).
Definition upto_pixel (i : Z) : Z := Z.min inn (whole_part (fadd (fadd (centre i) reach) middle)).
Definition pixels (i : Z) : list Z := seqZ (from_pixel i) (upto_pixel i - from_pixel i).
(** What the kernel gives pixel [j], its share, and that in fixed point. *)
Definition tap (i j : Z) : float64 :=
  kernel filter (fmul (fadd (fsub (double_of j) (centre i)) middle) (fdiv unity stretch)).
Definition total (i : Z) : float64 := foldl fadd nought (tap i <$> pixels i).
Definition share (i j : Z) : float64 := if SFeqb (total i) nought then tap i j else fdiv (tap i j) (total i).
Definition coef (i j : Z) : Z := default 0 (fixed (share i j)).

Definition sum_over (l : list Z) (f : Z → Z) : Z := foldr (λ j a, f j + a) 0 l.
(** Output [i] from the values along the axis. *)
Definition blend (px : Z → Z) (i : Z) : Z :=
  Z.max 0 (Z.min 255 ((sum_over (pixels i) (λ j, px j * coef i j) + 2097152) / 4194304)).
Definition resampled (px : Z → Z) (i : Z) : Z := if decide (out = inn) then px i else blend px i.

(** The shares of output [i] are such that no sum of bytes leaves an int:
    255 times their sizes, and the half, are within one. *)
Definition light_at (i : Z) : bool :=
  forallb (λ j, bool_decide (is_Some (fixed (share i j)))) (pixels i) &&
  bool_decide (sum_over (pixels i) (λ j, Z.abs (coef i j)) ≤ 8413280).
Definition light : bool := forallb light_at (seqZ 0 out).

(** Coefficients an output has room for, and whether all of them are more
    bytes than an int. *)
Definition slots : Z := 2 * whole_part (ceil reach) + 1.
Definition crowded : Prop := 8 * slots * out > 2147483647.
End axis.
End kernels.
