(* ===== verification/Convolve.v ===== *)
(** * The eight-bit passes of modules/opencv/pil/Resample.c are exact

    With coefficients whose sizes come to little more than twice one, no accumulator
    overflows and no lookup leaves its table: each byte of a pass is the
    convolution, rounded to nearest and clamped. *)
From Stdlib Require Import Floats.SpecFloat.
From S2P Require Import Prelude Effect Float Imaging Resample.

Local Open Scope Z_scope.

(** ** Arrays *)

Lemma at_Some {A} (l : list A) i x : at_ l i = Some x ↔ 0 ≤ i ∧ l !! Z.to_nat i = Some x.
Proof. unfold at_. case_decide; naive_solver. Qed.
Lemma at_is_Some {A} (l : list A) i : 0 ≤ i < Z.of_nat (length l) → ∃ x, at_ l i = Some x.
Proof.
  intros Hi. destruct (lookup_lt_is_Some_2 l (Z.to_nat i)) as [x Hx]; [lia|]. exists x. apply at_Some. auto with lia.
Qed.
Lemma at_fmap {A B} (f : A → B) l i : at_ (f <$> l) i = f <$> at_ l i.
Proof. unfold at_. case_decide; [by rewrite list_lookup_fmap|done]. Qed.
Lemma at_seqZ n i : 0 ≤ i < n → at_ (seqZ 0 n) i = Some i.
Proof. intros Hi. apply at_Some. split; [lia|]. rewrite lookup_seqZ. lia. Qed.

Lemma mapM_seqZ {B} (f : Z → option B) (g : Z → B) n :
  (∀ i, 0 ≤ i < n → f i = Some (g i)) → mapM f (seqZ 0 n) = Some (g <$> seqZ 0 n).
Proof.
  intros Hf. apply mapM_Some. apply Forall2_fmap_r, Forall_Forall2_diag, Forall_forall.
  intros i Hi%elem_of_seqZ. apply Hf. lia.
Qed.

(** A list of blocks of one size. *)
Lemma at_concat {A} (ls : list (list A)) w i j l :
  Forall (λ l, Z.of_nat (length l) = w) ls → at_ ls i = Some l → 0 ≤ j < w →
  at_ (concat ls) (i * w + j) = at_ l j.
Proof.
  intros Hw Hi Hj. apply at_Some in Hi as [Hi Hl]. rewrite <- (Z2Nat.id i) by done.
  revert Hl. generalize (Z.to_nat i). clear i Hi. induction Hw as [|k ls Hk Hw IH]; intros i Hl; [done|].
  destruct i as [|i]; cbn in Hl |- *.
  - injection Hl as ->. unfold at_. rewrite !decide_True by lia. cbn. by rewrite lookup_app_l by lia.
  - rewrite <- (IH i Hl). unfold at_. rewrite !decide_True by lia.
    rewrite lookup_app_r by lia. f_equal. lia.
Qed.
Lemma length_concat_blocks {A} (ls : list (list A)) w :
  Forall (λ l, Z.of_nat (length l) = w) ls → Z.of_nat (length (concat ls)) = Z.of_nat (length ls) * w.
Proof. induction 1 as [|l ls Hl Hls IH]; [done|]. cbn. rewrite length_app. lia. Qed.

(** ** One channel *)

Definition round8 (t : Z) : Z := Z.max 0 (Z.min 255 ((t + 2 ^ 21) / 2 ^ 22)).
Definition dot (k : list Z) (n : Z) (px : Z → Z) : Z :=
  foldr (λ x a, px x * default 0 (at_ k x) + a) 0 (seqZ 0 n).
Definition weight (k : list Z) : Z := foldr (λ c a, Z.abs c + a) 0 k.

Lemma round8_byte t : 0 ≤ round8 t < 256.
Proof. unfold round8. lia. Qed.

(** The table answers for every int, and clamps. *)
Lemma clip8_clamps v : fits_int v → clip8 v = Some (Z.max 0 (Z.min 255 (v / 2 ^ 22))).
Proof.
  intros Hv. unfold clip8, PRECISION_BITS, clip8_lookups. change (32 - 8 - 2) with 22. rewrite Z.shiftr_div_pow2 by lia.
  set (q := v / 2 ^ 22). assert (-512 ≤ q < 512) as Hq.
  { subst q. unfold fits_int in Hv. change (2 ^ 22) with 4194304. split; [apply Z.div_le_lower_bound|apply Z.div_lt_upper_bound]; lia. }
  apply at_Some. split; [lia|].
  destruct (decide (q < 0)) as [Hn|Hn].
  { rewrite lookup_app_l by (rewrite length_replicate; lia). rewrite lookup_replicate. split; [lia|lia]. }
  rewrite lookup_app_r, length_replicate by (rewrite length_replicate; lia).
  destruct (decide (q < 256)) as [Hm|Hm].
  - rewrite lookup_app_l by (rewrite length_fmap, length_seq; lia).
    rewrite list_lookup_fmap, lookup_seq_lt by lia. cbn. f_equal. lia.
  - rewrite lookup_app_r, length_fmap, length_seq by (rewrite length_fmap, length_seq; lia).
    rewrite lookup_replicate. split; lia.
Qed.

Lemma weight_at k x c : at_ k x = Some c → Z.abs c ≤ weight k.
Proof.
  intros [_ Hc]%at_Some. revert Hc. generalize (Z.to_nat x). induction k as [|d k IH]; intros i Hi; [done|].
  assert (∀ l, 0 ≤ weight l) as Hpos by (intros l; induction l; cbn; [lia|]; unfold weight in *; lia).
  destruct i; cbn in *; [injection Hi as ->; specialize (Hpos k); unfold weight in *; lia|].
  specialize (IH _ Hi). unfold weight in *. lia.
Qed.

Definition wsum (k : list Z) (xs : list Z) : Z := foldr (λ x a, Z.abs (default 0 (at_ k x)) + a) 0 xs.
Lemma weight_nonneg k : 0 ≤ weight k.
Proof. induction k; cbn; [lia|]. unfold weight in *. lia. Qed.
Lemma wsum_prefix k n : wsum k (seqZ 0 n) ≤ weight k.
Proof.
  assert (∀ m i, wsum k (seqZ (Z.of_nat i) (Z.of_nat m)) ≤ weight (drop i k)) as Hm.
  { induction m as [|m IH]; intros i; [rewrite seqZ_nil by lia; cbn; apply weight_nonneg|].
    rewrite seqZ_cons by lia. cbn [wsum foldr]. fold (wsum k (seqZ (Z.succ (Z.of_nat i)) (Z.pred (Z.of_nat (S m))))).
    replace (Z.succ (Z.of_nat i)) with (Z.of_nat (S i)) by lia. replace (Z.pred (Z.of_nat (S m))) with (Z.of_nat m) by lia.
    specialize (IH (S i)). unfold at_ in *. rewrite decide_True, Nat2Z.id by lia.
    destruct (k !! i) as [c|] eqn:Ei; cbn.
    - rewrite (drop_S k c i Ei). cbn. unfold weight in *. lia.
    - apply lookup_ge_None in Ei. rewrite !drop_ge in * by lia. lia. }
  destruct (decide (0 ≤ n)); [|rewrite seqZ_nil by lia; cbn; apply weight_nonneg].
  specialize (Hm (Z.to_nat n) 0%nat). rewrite Z2Nat.id in Hm by done. by rewrite drop_0 in Hm.
Qed.

Section channel.
Context (k : list Z) (px' : Z → option Z) (px : Z → Z).

Lemma sum8_exact xs ss :
  (∀ x, x ∈ xs → px' x = Some (px x) ∧ 0 ≤ px x < 256 ∧ 0 ≤ x < Z.of_nat (length k)) →
  -2147483648 ≤ ss - 255 * wsum k xs → ss + 255 * wsum k xs ≤ 2147483647 →
  sum8 ss xs px' k = Some (ss + foldr (λ x a, px x * default 0 (at_ k x) + a) 0 xs).
Proof.
  revert ss. induction xs as [|x xs IH]; intros ss Hx Hlo Hhi; cbn [sum8 foldr]; [f_equal; lia|].
  destruct (Hx x) as (-> & Hp & Hk); [set_solver|]. cbn [mbind option_bind].
  destruct (at_is_Some k x Hk) as [c Hc]. cbn [wsum foldr] in Hlo, Hhi. fold (wsum k xs) in Hlo, Hhi.
  rewrite Hc in Hlo, Hhi |- *. cbn [mbind option_bind]. change (default 0 (Some c)) with c in *.
  assert (0 ≤ wsum k xs) as Hw by (clear; induction xs; cbn; [lia|]; unfold wsum in *; lia).
  assert (Z.abs (px x * c) ≤ 255 * Z.abs c) as Hpc by (rewrite Z.abs_mul, (Z.abs_eq (px x)) by lia; apply Z.mul_le_mono_nonneg_r; lia).
  unfold int_. rewrite decide_True by (unfold fits_int; lia). cbn [mbind option_bind].
  rewrite decide_True by (unfold fits_int; lia). cbn [mbind option_bind].
  rewrite IH; [f_equal; cbn; lia|intros y Hy; apply Hx; set_solver|lia..].
Qed.

Lemma channel8_exact n :
  weight k ≤ 8413280 → n ≤ Z.of_nat (length k) →
  (∀ x, 0 ≤ x < n → px' x = Some (px x) ∧ 0 ≤ px x < 256) →
  channel8 n px' k = Some (round8 (dot k n px)).
Proof.
  intros Hw Hn Hx. unfold channel8. pose proof (wsum_prefix k n) as Hws. rewrite (sum8_exact _ _) by
    (try (intros x Hx'%elem_of_seqZ; destruct (Hx x); [lia|split_and!; [done|lia..]]);
     change (2 ^ (PRECISION_BITS - 1)) with 2097152; lia).
  cbn [mbind option_bind]. fold (dot k n px).
  assert (Z.abs (dot k n px) ≤ 255 * wsum k (seqZ 0 n)) as Hd.
  { unfold dot. assert (∀ x, x ∈ seqZ 0 n → 0 ≤ px x < 256) as Hp by (intros x Hx'%elem_of_seqZ; apply Hx; lia).
    revert Hp. generalize (seqZ 0 n). clear. intros xs Hp. induction xs as [|x xs IH]; cbn; [lia|]. fold (wsum k xs).
    specialize (IH ltac:(intros; apply Hp; set_solver)). specialize (Hp x ltac:(set_solver)).
    assert (Z.abs (px x * default 0 (at_ k x)) ≤ 255 * Z.abs (default 0 (at_ k x))) as Hpc
      by (rewrite Z.abs_mul, (Z.abs_eq (px x)) by lia; apply Z.mul_le_mono_nonneg_r; lia).
    unfold wsum in *. lia. }
  rewrite clip8_clamps by (unfold fits_int; change (2 ^ (PRECISION_BITS - 1)) with 2097152; lia).
  unfold round8. do 4 f_equal. change (PRECISION_BITS - 1) with 21. lia.
Qed.
End channel.

(** ** Images *)

Record wf_image (im : imaging) : Prop := {
  wi_x : 0 ≤ xsize im;
  wi_y : 0 ≤ ysize im;
  wi_ps : pixelsize im = (if image8 im then 1 else 4);
  wi_line : linesize im = xsize im * pixelsize im;
  wi_count : Z.of_nat (length (lines im)) = ysize im;
  wi_lines : Forall (λ l, Z.of_nat (length l) = linesize im) (lines im);
  wi_bytes : Forall (Forall (λ b, 0 ≤ b < 256)) (lines im);
}.

(** Byte [b] of the pixel at [(x, y)]. *)
Definition get (im : imaging) (b y x : Z) : Z := default 0 (byte_at im y (x * pixelsize im + b)).

Lemma byte_at_get im b y x :
  wf_image im → 0 ≤ y < ysize im → 0 ≤ x < xsize im → 0 ≤ b < pixelsize im →
  byte_at im y (x * pixelsize im + b) = Some (get im b y x) ∧ 0 ≤ get im b y x < 256.
Proof.
  intros Hwf Hy Hx Hb. unfold get, byte_at.
  destruct (at_is_Some (lines im) y) as [l Hl]; [rewrite (wi_count _ Hwf); lia|]. rewrite Hl. cbn [mbind option_bind].
  pose proof (proj1 (at_Some _ _ _) Hl) as [_ Hl'].
  pose proof (Forall_lookup_1 _ _ _ _ (wi_lines _ Hwf) Hl') as Hlen. cbn in Hlen. rewrite (wi_line _ Hwf) in Hlen.
  destruct (at_is_Some l (x * pixelsize im + b)) as [c Hc]; [rewrite Hlen; nia|].
  rewrite Hc. split; [done|]. apply at_Some in Hc as [_ Hc].
  pose proof (Forall_lookup_1 _ _ _ _ (wi_bytes _ Hwf) Hl') as Hby. exact (Forall_lookup_1 _ _ _ _ Hby Hc).
Qed.

(** Writing every line, each in its full length. *)
Lemma put_lines_all im ls :
  length ls = length (lines im) → Forall2 (λ l old, length l = length old) ls (lines im) →
  put_lines im ls = Some (set_lines ls im).
Proof.
  intros Hn Hl. unfold put_lines.
  assert (∀ l1 l2 (pre : list (list Z)), Forall2 (λ l old, length l = length old) l1 l2 →
    foldl (λ o '(y, l), im ← o; put_line im y l) (Some (set_lines (pre ++ l2) im))
          (imap (λ y l, (Z.of_nat (length pre + y), l)) l1) = Some (set_lines (pre ++ l1) im)) as Hgo.
  { induction l1 as [|l l1 IH]; intros l2 pre H2; [by inversion H2|]. inversion H2 as [|? old ? l2' Ho H2']; subst.
    rewrite imap_cons. cbn [foldl]. cbn [mbind option_bind]. rewrite Nat.add_0_r.
    assert (put_line (set_lines (pre ++ old :: l2') im) (Z.of_nat (length pre)) l = Some (set_lines ((pre ++ [l]) ++ l2') im)) as ->.
    { unfold put_line, at_. cbn [lines set_lines]. rewrite decide_True, Nat2Z.id by lia.
      rewrite list_lookup_middle by done. cbn [mbind option_bind]. rewrite decide_True by lia.
      rewrite Ho, drop_all, app_nil_r, insert_app_r_alt, Nat.sub_diag by done. cbn. rewrite <- app_assoc. done. }
    specialize (IH l2' (pre ++ [l]) H2'). rewrite length_app in IH. cbn [length] in IH.
    rewrite <- (app_assoc pre [l] l1) in IH. cbn [app] in IH. etrans; [|exact IH]. f_equal. apply imap_ext.
    intros i x _. cbn. f_equal. lia. }
  specialize (Hgo ls (lines im) [] Hl). cbn [app length] in Hgo. etrans; [|exact Hgo].
  f_equal. f_equal. by destruct im.
Qed.

(** A pass whose pixels are known. *)
Record passed (out out' : imaging) (v : Z → Z → Z → Z) : Prop := {
  pd_wf : wf_image out';
  pd_head : out' = set_lines (lines out') out;
  pd_get : ∀ b y x, 0 ≤ b < pixelsize out → 0 ≤ y < ysize out → 0 ≤ x < xsize out → get out' b y x = v b y x;
}.
Lemma passing_made out row (v : Z → Z → Z → Z) :
  wf_image out →
  (∀ b y x, 0 ≤ v b y x < 256) →
  (∀ y, 0 ≤ y < ysize out → row y = Some (concat ((λ x, (λ b, v b y x) <$> seqZ 0 (pixelsize out)) <$> seqZ 0 (xsize out)))) →
  ∃ out', passing out row = Some out' ∧ passed out out' v.
Proof.
  intros Hwf Hv Hrow. pose proof (wi_x _ Hwf). pose proof (wi_y _ Hwf).
  assert (0 < pixelsize out) as Hps by (rewrite (wi_ps _ Hwf); destruct (image8 out); lia).
  set (line := λ y, concat ((λ x, (λ b, v b y x) <$> seqZ 0 (pixelsize out)) <$> seqZ 0 (xsize out))).
  assert (∀ y, Forall (λ l : list Z, Z.of_nat (length l) = pixelsize out)
    ((λ x, (λ b, v b y x) <$> seqZ 0 (pixelsize out)) <$> seqZ 0 (xsize out))) as Hblocks.
  { intros y. apply Forall_fmap, Forall_forall. intros x _. cbn. rewrite length_fmap, length_seqZ. lia. }
  assert (∀ y, Z.of_nat (length (line y)) = linesize out) as Hline.
  { intros y. unfold line. rewrite (length_concat_blocks _ (pixelsize out)) by apply Hblocks.
    rewrite length_fmap, length_seqZ, (wi_line _ Hwf). nia. }
  exists (set_lines (line <$> seqZ 0 (ysize out)) out). split.
  - unfold passing. rewrite (mapM_seqZ _ line) by done. cbn [mbind option_bind]. apply put_lines_all.
    + rewrite length_fmap, length_seqZ. pose proof (wi_count _ Hwf). lia.
    + apply Forall2_same_length_lookup_2.
      * rewrite length_fmap, length_seqZ. pose proof (wi_count _ Hwf). lia.
      * intros i l old Hl Ho. apply list_lookup_fmap_Some in Hl as (y & -> & _).
        pose proof (Forall_lookup_1 _ _ _ _ (wi_lines _ Hwf) Ho) as Hlen. cbn in Hlen. specialize (Hline y). lia.
  - split; [split|done|]; cbn [xsize ysize image8 pixelsize linesize lines set_lines]; try apply Hwf.
    + rewrite length_fmap, length_seqZ. lia.
    + apply Forall_fmap, Forall_forall. intros y _. apply Hline.
    + apply Forall_fmap, Forall_forall. intros y _. cbn. unfold line. apply Forall_concat, Forall_fmap, Forall_forall.
      intros x _. cbn. apply Forall_fmap, Forall_forall. intros b _. apply Hv.
    + intros b y x Hb Hy Hx. unfold get, byte_at. cbn [lines set_lines pixelsize].
      rewrite at_fmap, at_seqZ by done. cbn [fmap option_fmap option_map mbind option_bind].
      unfold line. rewrite (at_concat _ (pixelsize out) x b ((λ b, v b y x) <$> seqZ 0 (pixelsize out))); [|apply Hblocks| |done].
      * rewrite at_fmap, at_seqZ by done. done.
      * rewrite at_fmap, at_seqZ by done. done.
Qed.

(** ** The passes *)

(** Which bytes of a pixel the filter is applied to; the rest are nought. *)
Definition filtered (im : imaging) (b : Z) : bool :=
  image8 im || bool_decide (bands im ≠ 2 ∧ bands im ≠ 3) || (bool_decide (bands im = 2) && bool_decide (b = 0 ∨ b = 3)) ||
  (bool_decide (bands im = 3) && bool_decide (b < 3)).
Definition convolved (im : imaging) (k : list Z) (n : Z) (px : Z → Z → Z) (b : Z) : Z :=
  if filtered im b then round8 (dot k n (px b)) else 0.
Lemma convolved_byte im k n px b : 0 ≤ convolved im k n px b < 256.
Proof. unfold convolved. destruct (filtered im b); [apply round8_byte|lia]. Qed.

Lemma word_bytes_made u0 u1 u2 u3 :
  0 ≤ u0 < 256 → 0 ≤ u1 < 256 → 0 ≤ u2 < 256 → 0 ≤ u3 < 256 →
  word_bytes (MAKE_UINT32 u0 u1 u2 u3) = [u0; u1; u2; u3].
Proof.
  intros. unfold word_bytes, MAKE_UINT32. cbn [fmap list_fmap].
  change (2 ^ (8 * 0)) with 1. change (2 ^ (8 * 1)) with 256. change (2 ^ (8 * 2)) with 65536. change (2 ^ (8 * 3)) with 16777216.
  set (w := u0 + 256 * u1 + 65536 * u2 + 16777216 * u3).
  assert (w / 1 = u0 + 256 * (u1 + 256 * (u2 + 256 * u3))) as -> by (rewrite Z.div_1_r; subst w; lia).
  assert (w / 256 = u1 + 256 * (u2 + 256 * u3)) as -> by (symmetry; apply (Z.div_unique _ 256 _ u0); subst w; lia).
  assert (w / 65536 = u2 + 256 * u3) as -> by (symmetry; apply (Z.div_unique _ 65536 _ (u0 + 256 * u1)); subst w; lia).
  assert (w / 16777216 = u3 + 256 * 0) as -> by (symmetry; apply (Z.div_unique _ 16777216 _ (u0 + 256 * u1 + 65536 * u2)); subst w; lia).
  rewrite !(Z.mul_comm 256), !Z.mod_add, !Z.mod_small by lia. done.
Qed.

Lemma pixel_8bpc_exact im n px8 px' (px : Z → Z → Z) k :
  weight k ≤ 8413280 → n ≤ Z.of_nat (length k) →
  (image8 im = true → ∀ x, 0 ≤ x < n → px8 x = Some (px 0 x) ∧ 0 ≤ px 0 x < 256) →
  (image8 im = false → ∀ b x, 0 ≤ b < 4 → 0 ≤ x < n → px' b x = Some (px b x) ∧ 0 ≤ px b x < 256) →
  pixel_8bpc im n px8 px' k = Some (convolved im k n px <$> seqZ 0 (if image8 im then 1 else 4)).
Proof.
  intros Hw Hn H8 Hb. unfold pixel_8bpc, convolved, filtered. destruct (image8 im).
  { rewrite (channel8_exact k px8 (px 0)) by auto. done. }
  change (seqZ 0 4) with [0; 1; 2; 3]. cbn [fmap list_fmap].
  assert (∀ b, 0 ≤ b < 4 → channel8 n (px' b) k = Some (round8 (dot k n (px b)))) as Hc.
  { intros b Hb'. apply channel8_exact; auto. }
  pose proof (λ b, round8_byte (dot k n (px b))) as Hr.
  rewrite !Hc by lia. cbn [mbind option_bind].
  rewrite (word_bytes_made _ 0 0 _), (word_bytes_made _ _ _ 0), word_bytes_made by (apply Hr || lia). clear H8 Hb Hc Hr.
  destruct (decide (bands im = 2)) as [E2|E2]; [by rewrite E2|].
  destruct (decide (bands im = 3)) as [E3|E3]; [by rewrite E3|].
  by rewrite (bool_decide_true (bands im ≠ 2 ∧ bands im ≠ 3)).
Qed.

(** A window is inside the image, and its coefficients are enough and light. *)
Definition window_ok (size : Z) (w : Z * Z) (k : list Z) : bool :=
  bool_decide (0 ≤ fst w ∧ fst w + snd w ≤ size ∧ snd w ≤ Z.of_nat (length k) ∧ weight k ≤ 8413280).
Definition windows_ok (size n : Z) (bounds : list (Z * Z)) (prekk : list (list float64)) : bool :=
  match normalize_coeffs_8bpc n prekk with
  | Some kk => bool_decide (n ≤ Z.of_nat (length bounds)) &&
               forallb (λ '(w, k), window_ok size w k) (zip bounds kk)
  | None => false
  end.
(** The window and the integer coefficients of output [i]. *)
Definition window_at (bounds : list (Z * Z)) (i : Z) : Z * Z := default (0, 0) (at_ bounds i).
Definition coeffs_of (n : Z) (prekk : list (list float64)) (i : Z) : list Z :=
  default [] (kk ← normalize_coeffs_8bpc n prekk; at_ kk i).

Lemma normalize_length n prekk kk : normalize_coeffs_8bpc n prekk = Some kk → Z.of_nat (length kk) = Z.max 0 n.
Proof.
  unfold normalize_coeffs_8bpc. case_decide; [done|]. intros Hk%length_mapM. rewrite <- Hk, length_take. lia.
Qed.
Lemma windows_ok_at size n bounds prekk kk i :
  windows_ok size n bounds prekk = true → normalize_coeffs_8bpc n prekk = Some kk → 0 ≤ i < n →
  at_ bounds i = Some (window_at bounds i) ∧ at_ kk i = Some (coeffs_of n prekk i) ∧
  window_ok size (window_at bounds i) (coeffs_of n prekk i) = true.
Proof.
  unfold windows_ok, coeffs_of, window_at. intros Hok Hkk Hi. rewrite Hkk in Hok |- *. cbn [mbind option_bind].
  apply normalize_length in Hkk. apply andb_prop in Hok as [Hb%bool_decide_eq_true Hf].
  destruct (at_is_Some bounds i) as [w Hw]; [lia|]. destruct (at_is_Some kk i) as [k Hk]; [lia|].
  rewrite Hw, Hk. split_and!; [done..|]. cbn. apply at_Some in Hw as [_ Hw], Hk as [_ Hk].
  rewrite forallb_forall in Hf. apply (Hf (w, k)), list_elem_of_In, list_elem_of_lookup. exists (Z.to_nat i).
  apply lookup_zip_Some. done.
Qed.

Section horizontal.
Context (out inn : imaging) (offset ksize_ : Z) (bounds : list (Z * Z)) (prekk : list (list float64)).
Context (Ho : wf_image out) (Hi : wf_image inn) (Hsame : image8 out = image8 inn) (Htype : type inn = IMAGING_TYPE_UINT8).

Lemma eight_bits : image8 inn || bool_decide (type inn = IMAGING_TYPE_UINT8) = true.
Proof. rewrite (bool_decide_true _ Htype). apply orb_true_r. Qed.
Lemma out_pixels : pixelsize out = (if image8 inn then 1 else 4).
Proof. rewrite (wi_ps _ Ho). by rewrite Hsame. Qed.

(** Along the rows: output column [x] from the window of [x]. *)
Lemma horizontal_exact :
  0 ≤ offset → offset + ysize out ≤ ysize inn →
  windows_ok (xsize inn) (xsize out) bounds prekk = true →
  ∃ out', ImagingResampleHorizontal_8bpc out inn offset ksize_ bounds prekk = Some out' ∧
    passed out out' (λ b y x,
      convolved inn (coeffs_of (xsize out) prekk x) (snd (window_at bounds x))
        (λ b i, get inn b (y + offset) (i + fst (window_at bounds x))) b).
Proof.
  intros Hoff Hrows Hok. unfold ImagingResampleHorizontal_8bpc.
  destruct (normalize_coeffs_8bpc (xsize out) prekk) as [kk|] eqn:Hkk; cycle 1.
  { unfold windows_ok in Hok. by rewrite Hkk in Hok. }
  cbn [mbind option_bind]. rewrite eight_bits.
  apply passing_made; [done|intros; apply convolved_byte|]. intros y Hy. unfold row_of.
  rewrite (mapM_seqZ _ (λ x, (λ b, convolved inn (coeffs_of (xsize out) prekk x) (snd (window_at bounds x))
        (λ b i, get inn b (y + offset) (i + fst (window_at bounds x))) b) <$> seqZ 0 (pixelsize out))); [done|].
  intros x Hx. destruct (windows_ok_at _ _ _ _ _ x Hok Hkk Hx) as (-> & -> & Hw%bool_decide_eq_true). cbn [mbind option_bind].
  rewrite out_pixels. apply pixel_8bpc_exact; try tauto.
  - intros E i Hi'. unfold byte8_at. rewrite E.
    pose proof (byte_at_get inn 0 (y + offset) (i + fst (window_at bounds x)) Hi) as Hg.
    rewrite (wi_ps _ Hi), E, Z.mul_1_r, Z.add_0_r in Hg. apply Hg; lia.
  - intros E b i Hb Hi'.
    pose proof (byte_at_get inn b (y + offset) (i + fst (window_at bounds x)) Hi) as Hg.
    rewrite (wi_ps _ Hi), E in Hg. apply Hg; lia.
Qed.

(** Down the columns: output line [y] from the window of [y]. *)
Lemma vertical_exact :
  xsize out = xsize inn →
  windows_ok (ysize inn) (ysize out) bounds prekk = true →
  ∃ out', ImagingResampleVertical_8bpc out inn offset ksize_ bounds prekk = Some out' ∧
    passed out out' (λ b y x,
      convolved inn (coeffs_of (ysize out) prekk y) (snd (window_at bounds y))
        (λ b i, get inn b (i + fst (window_at bounds y)) x) b).
Proof.
  intros Hcols Hok. unfold ImagingResampleVertical_8bpc.
  destruct (normalize_coeffs_8bpc (ysize out) prekk) as [kk|] eqn:Hkk; cycle 1.
  { unfold windows_ok in Hok. by rewrite Hkk in Hok. }
  cbn [mbind option_bind]. rewrite eight_bits.
  apply passing_made; [done|intros; apply convolved_byte|]. intros y Hy.
  destruct (windows_ok_at _ _ _ _ _ y Hok Hkk Hy) as (-> & -> & Hw%bool_decide_eq_true). cbn [mbind option_bind].
  unfold row_of.
  rewrite (mapM_seqZ _ (λ x, (λ b, convolved inn (coeffs_of (ysize out) prekk y) (snd (window_at bounds y))
        (λ b i, get inn b (i + fst (window_at bounds y)) x) b) <$> seqZ 0 (pixelsize out))); [done|].
  intros x Hx. rewrite out_pixels. apply pixel_8bpc_exact; try tauto.
  - intros E i Hi'. unfold byte8_at. rewrite E.
    pose proof (byte_at_get inn 0 (i + fst (window_at bounds y)) x Hi) as Hg.
    rewrite (wi_ps _ Hi), E, Z.mul_1_r, Z.add_0_r in Hg. apply Hg; lia.
  - intros E b i Hb Hi'.
    pose proof (byte_at_get inn b (i + fst (window_at bounds y)) x Hi) as Hg.
    rewrite (wi_ps _ Hi), E in Hg. apply Hg; lia.
Qed.
End horizontal.
