(* ===== verification/Holding.v ===== *)
(** * The memory of modules/opencv/pil

    What each allocation of the resize holds, that it may be refused, and that
    it is given back: the specifications the two passes are proved from. *)
From Stdlib Require Import Floats.SpecFloat.
From S2P Require Import Prelude Effect Float Imaging Resample Convolve.

Local Open Scope Z_scope.

Definition no_wait : pil → Prop := λ _, False.

Lemma wp_known {A} (o : option A) a Q B s : o = Some a → Q a s → wp (known o) Q B s.
Proof. by intros ->. Qed.

(** Beyond what was live at [s0]: the images [ims] and the allocations [L]. *)
Record holds (s0 s : pil) (ims : gmap nat imaging) (L : list nat) : Prop := {
  h_bufs : bufs s = list_to_set L ∪ bufs s0;
  h_images : images s = ims ∪ images s0;
  h_nodup : NoDup L;
  h_fresh : ∀ n, n ∈ L → n ∉ bufs s0;
  h_new : ims ##ₘ images s0;
  h_next : ∀ n, n ∈ bufs s ∨ is_Some (images s !! n) → (n < next_p s)%nat;
  h_mem : mem s0 = [] → mem s = [];
}.
(** Everything live has been handed out. *)
Definition tidy (s : pil) : Prop := ∀ n, n ∈ bufs s ∨ is_Some (images s !! n) → (n < next_p s)%nat.
Lemma holds_start s : tidy s → holds s s ∅ [].
Proof.
  intros Ht. split; [by rewrite list_to_set_nil, (left_id_L ∅ _)|by rewrite (left_id_L ∅ _)|apply NoDup_nil_2|by intros ? ?%elem_of_nil|apply map_disjoint_empty_l|done|done].
Qed.
Lemma holds_end s0 s : holds s0 s ∅ [] → bufs s = bufs s0 ∧ images s = images s0.
Proof.
  intros [Hb Hi _ _ _ _ _]. rewrite list_to_set_nil, (left_id_L ∅ _) in Hb. by rewrite (left_id_L ∅ _) in Hi.
Qed.
Lemma holds_perm s0 s ims L L' : L ≡ₚ L' → holds s0 s ims L → holds s0 s ims L'.
Proof.
  intros HL [Hb Hi Hn Hf Hd Hx Hm]. split; [by rewrite <- HL|done|by rewrite <- HL|intros n; rewrite <- HL; apply Hf|done..].
Qed.
Lemma holds_error s0 s ims L e : holds s0 s ims L → holds s0 (set_pil_error e s) ims L.
Proof. by intros []. Qed.

Section memory.
Context (s0 : pil) (ims : gmap nat imaging) (L : list nat).

Lemma wp_granted s : holds s0 s ims L →
  wp granted (λ b s', holds s0 s' ims L ∧ pil_error s' = pil_error s ∧ next_p s' = next_p s ∧ (b = false → mem s0 ≠ [])) no_wait s.
Proof.
  intros [Hb Hi Hn Hf Hd Hx Hm]. unfold granted. wp_steps. destruct (mem s) as [|b q] eqn:E.
  - wp_step. split_and!; [by split|done|done|by intros].
  - wp_steps. split_and!; [|done|done|].
    + split; try done. cbn. intros E0. specialize (Hm E0). congruence.
    + intros _ E0. specialize (Hm E0). congruence.
Qed.
Lemma wp_malloc s : holds s0 s ims L →
  wp malloc (λ r s', pil_error s' = pil_error s ∧ (next_p s ≤ next_p s')%nat ∧ match r with
    | Some n => holds s0 s' ims (n :: L)
    | None => holds s0 s' ims L ∧ mem s0 ≠ []
    end) no_wait s.
Proof.
  intros H. unfold malloc. wp_step. eapply wp_mono; [apply (wp_granted s H)| |done]. cbv beta.
  intros [] s1 (H1 & He & Hnx & Hb); wp_steps; [|split_and!; [done|lia|done|auto]]. split; [done|]. split; [cbn; lia|].
  destruct H1 as [Hbu Hi Hn Hf Hd Hx Hm].
  assert (next_p s1 ∉ bufs s1) as Hnew by (intros Hin; specialize (Hx (next_p s1) (or_introl Hin)); lia).
  split; cbn; try done.
  - rewrite Hbu. set_solver.
  - apply NoDup_cons. split; [|done]. set_solver.
  - intros n [->|Hn']%elem_of_cons; [set_solver|auto].
  - intros n [Hn'|Hn']; [|specialize (Hx n (or_intror Hn')); lia].
    apply elem_of_union in Hn' as [->%elem_of_singleton|Hn']; [lia|]. specialize (Hx n (or_introl Hn')). lia.
Qed.
Lemma wp_free o L' s : holds s0 s ims L → L ≡ₚ option_list o ++ L' →
  wp (free o) (λ _ s', holds s0 s' ims L' ∧ pil_error s' = pil_error s) no_wait s.
Proof.
  intros H HL. apply (holds_perm _ _ _ _ _ HL) in H. destruct o as [n|]; cbn in *; [|by split].
  destruct H as [Hbu Hi Hn Hf Hd Hx Hm]. wp_step. wp_step.
  rewrite decide_True by (rewrite Hbu; set_solver). wp_steps. split; [|done].
  apply NoDup_cons in Hn as [Hn Hnd]. split; cbn; try done.
  - rewrite Hbu. apply set_eq. intros x. rewrite elem_of_difference, list_to_set_cons. specialize (Hf n ltac:(set_solver)). set_solver.
  - set_solver.
  - intros x [Hx'|Hx']; apply Hx; [set_solver|auto].
Qed.
Lemma wp_deref p im s : images s !! p = Some im → wp (deref p) (λ r s', r = im ∧ s' = s) no_wait s.
Proof. intros Hp. unfold deref. wp_steps. by rewrite Hp. Qed.
Lemma wp_store p im s : holds s0 s ims L → images s0 !! p = None → (p < next_p s)%nat →
  wp (store p im) (λ _ s', holds s0 s' (<[p:=im]> ims) L ∧ pil_error s' = pil_error s) no_wait s.
Proof.
  intros [Hbu Hi Hn Hf Hd Hx Hm] Ho Hp. unfold store. wp_steps. split; [|done]. split; cbn; try done.
  - by rewrite Hi, insert_union_l.
  - by apply map_disjoint_insert_l.
  - intros n [Hn'|Hn']; [apply Hx; auto|]. destruct (decide (n = p)) as [->|Hne]; [done|].
    rewrite lookup_insert_ne in Hn' by done. apply Hx. auto.
Qed.
End memory.

Lemma holds_image s0 s ims L p im : holds s0 s ims L → ims !! p = Some im → images s !! p = Some im.
Proof. intros H Hp. rewrite (h_images _ _ _ _ H). by apply lookup_union_Some_l. Qed.
Lemma holds_old s0 s ims L p im : holds s0 s ims L → images s0 !! p = Some im → images s !! p = Some im.
Proof. intros H Hp. rewrite (h_images _ _ _ _ H). apply lookup_union_Some_r; [apply (h_new _ _ _ _ H)|done]. Qed.

Lemma holds_not_old s0 s ims L p im : holds s0 s ims L → ims !! p = Some im → images s0 !! p = None ∧ (p < next_p s)%nat.
Proof.
  intros H Hp. split; [by eapply map_disjoint_Some_l, Hp; apply (h_new _ _ _ _ H)|].
  apply (h_next _ _ _ _ H). right. exists im. by eapply holds_image.
Qed.

Lemma wp_ImagingDelete s0 s ims L L' p im :
  holds s0 s ims L → ims !! p = Some im → L ≡ₚ option_list (block im) ++ option_list (image im) ++ L' →
  wp (ImagingDelete (Some p)) (λ _ s', holds s0 s' (delete p ims) L' ∧ pil_error s' = pil_error s) no_wait s.
Proof.
  intros H Hp HL. unfold ImagingDelete. wp_step.
  eapply wp_mono; [apply (wp_deref p im); by eapply holds_image| |done]. cbv beta. intros ? ? [-> ->].
  wp_step. eapply wp_mono; [by apply (wp_free s0 ims L (block im) (option_list (image im) ++ L'))| |done].
  cbv beta. intros _ s1 [H1 He1]. wp_step.
  eapply wp_mono; [by apply (wp_free s0 ims (option_list (image im) ++ L') (image im) L')| |done].
  cbv beta. intros _ s2 [H2 He2]. wp_step.
  split; [|cbn; congruence]. destruct H2 as [Hbu Him Hn Hf Hd Hx Hm]. split; cbn; try done.
  - rewrite Him. rewrite delete_union. f_equal. apply delete_id. by eapply map_disjoint_Some_r.
  - by apply map_disjoint_delete_l.
  - intros n [Hn'|Hn']; apply Hx; [auto|]. right. apply lookup_delete_is_Some in Hn'. tauto.
Qed.

(** ** New images *)

Definition oom : bytes := $"out of memory".
(** A pixel's bytes by the mode's letters. *)
Definition size_of (m : bytes) : Z := if decide (Z.of_nat (length m) = 1) then 1 else 4.
Definition blank (m : bytes) (xs ys : Z) (b i : nat) : imaging :=
  Imaging m IMAGING_TYPE_UINT8 (Z.of_nat (length m)) xs ys (bool_decide (size_of m = 1)) (bool_decide (size_of m ≠ 1))
          (Some i) (Some b) (size_of m) (xs * size_of m)
          (replicate (Z.to_nat ys) (replicate (Z.to_nat (xs * size_of m)) 0)).
Lemma blank_wf m xs ys b i : 0 ≤ xs → 0 ≤ ys → wf_image (blank m xs ys b i).
Proof.
  intros Hx Hy. assert (0 < size_of m) by (unfold size_of; case_decide; lia). split; cbn; try done.
  - unfold size_of. by case_decide.
  - rewrite length_replicate. lia.
  - apply Forall_replicate. rewrite length_replicate. nia.
  - apply Forall_replicate, Forall_replicate. lia.
Qed.

Lemma wp_ImagingNewDirty s0 s ims L m xs ys :
  holds s0 s ims L → no_nul m → (length m < IMAGING_MODE_LENGTH)%nat → 0 ≤ xs → 0 ≤ ys → fits_int (xs * size_of m) →
  wp (ImagingNewDirty m xs ys) (λ r s', match r with
    | Some p => ∃ b i, holds s0 s' (<[p := blank m xs ys b i]> ims) (i :: b :: L) ∧ ims !! p = None ∧ images s0 !! p = None
    | None => holds s0 s' ims L ∧ mem s0 ≠ [] ∧ pil_error s' = Some oom
    end) no_wait s.
Proof.
  intros H Hm Hlen Hx Hy Hfit. unfold ImagingNewDirty. rewrite (c_str_id m) by done.
  rewrite decide_False by (intros [?|[?|?]]; lia). wp_step.
  eapply wp_mono; [by apply (wp_granted s0 ims L)| |done]. cbv beta. intros [] s1 (H1 & _ & _ & Hno); cycle 1.
  { cbn [negb]. unfold ImagingError_MemoryError, error. wp_steps. split_and!; [by apply holds_error|auto|done]. }
  cbn [negb]. do 4 wp_step. cbv zeta. fold (size_of m). wp_step.
  eapply wp_known; [unfold int_; by rewrite decide_True|]. set (p := next_p s1). set (s2 := set_bufs (bufs s1) (S p) s1).
  assert ((ims ∪ images s0) !! p = None) as Hp.
  { rewrite <- (h_images _ _ _ _ H1). destruct (images s1 !! p) as [o|] eqn:Eo; [|done].
    pose proof (h_next _ _ _ _ H1 p). subst p. rewrite Eo in *. assert (is_Some (Some o)) by by exists o. naive_solver lia. }
  apply lookup_union_None in Hp as [Hp Hp0].
  assert (holds s0 s2 ims L) as H2.
  { destruct H1 as [? ? ? ? ? Hn' ?]. split; try done. intros n Hn. specialize (Hn' n Hn). cbn. lia. }
  assert (p < next_p s2)%nat as Hps by (cbn; lia). clearbody s2 p. clear H1 Hno H.
  wp_step. eapply wp_mono; [by apply (wp_malloc s0 ims L)| |done]. cbv beta. intros blk s3 (_ & Hnx3 & H3).
  set (L3 := option_list blk ++ L). assert (holds s0 s3 ims L3 ∧ (blk = None → mem s0 ≠ [])) as [H3' Hb] by (destruct blk; naive_solver).
  wp_step. eapply wp_mono; [by apply (wp_malloc s0 ims L3)| |done]. cbv beta. intros img s4 (_ & Hnx4 & H4).
  set (L4 := option_list img ++ L3). assert (holds s0 s4 ims L4 ∧ (img = None → mem s0 ≠ [])) as [H4' Hi] by (destruct img; naive_solver).
  wp_step. eapply wp_mono; [apply (wp_store s0 ims L4 p); [done|done|lia]| |done]. cbv beta. intros _ s5 [H5 _].
  assert (∀ k, wp (ImagingDelete (Some p) ;; ImagingError_MemoryError) (λ (r : option nat) s', r = None ∧ holds s0 s' ims L ∧ pil_error s' = Some oom) k s5) as Hdel.
  { intros k. wp_step. eapply wp_mono; [eapply (wp_ImagingDelete s0 s5 _ L4 L p); [done|apply lookup_insert_eq|]| |done].
    { cbn. subst L4 L3. destruct blk, img; cbn; [apply Permutation_swap|done..]. }
    cbv beta. intros _ s6 [H6 _]. rewrite delete_insert_id in H6 by done.
    unfold ImagingError_MemoryError, error. wp_steps. split_and!; [done|by apply holds_error|done]. }
  destruct blk as [b|], img as [i|].
  - wp_step. eapply wp_mono; [eapply (wp_store s0 _ L4 p); [exact H5|done|]| |done].
    { apply (h_next _ _ _ _ H5). right. exists (Imaging m IMAGING_TYPE_UINT8 (Z.of_nat (length m)) xs ys false false (Some i) (Some b) (size_of m) (xs * size_of m) []).
      eapply holds_image; [done|]. apply lookup_insert_eq. }
    cbv beta. intros _ s6 [H6 _]. wp_step. exists b, i. split_and!; [|done|done]. rewrite insert_insert_eq in H6. exact H6.
  - eapply wp_mono; [apply Hdel| |done]. cbv beta. intros r s6 (-> & ? & ?). auto.
  - eapply wp_mono; [apply Hdel| |done]. cbv beta. intros r s6 (-> & ? & ?). auto.
  - eapply wp_mono; [apply Hdel| |done]. cbv beta. intros r s6 (-> & ? & ?). auto.
Qed.
