(* ===== verification/TwoPass.v ===== *)
(** * The two passes of modules/opencv/pil/Resample.c put together

    Only the lines the second pass will read go through the first, and the
    windows are shifted to match; the result is the convolution along the rows
    of the whole image followed by the convolution down its columns. *)
From Stdlib Require Import Floats.SpecFloat.
From S2P Require Import Prelude Effect Float Imaging Resample Convolve Holding.

Local Open Scope Z_scope.

(** ** What the sizes come to *)

(** An axis: [ksize], and the window and coefficients of each output.  What is
    shown here is for axes whose [plan] comes out and is [usable]; Windows.v
    shows that those of a whole image are, and what they are. *)
Definition axis : Type := Z * list ((Z * Z) * list float64).
Definition plan (inSize : Z) (in0 in1 : float32) (outSize : Z) (f : filter) : option axis :=
  let scale := scale_of in0 in1 outSize in
  let filterscale := if SFltb scale one then one else scale in
  let support_ := fmul (support f) filterscale in
  c ← trunc (ceil support_);
  ksize ← (c ← int_ (c * 2); int_ (c + 1));
  bytes_ ← int_ (ksize * 8);
  if decide (bytes_ = 0) then None
  else if decide (outSize > Z.quot 2147483647 bytes_) then None
  else
    l ← mapM (coeffs_at inSize in0 f scale filterscale support_ ksize) (seqZ 0 outSize);
    Some (ksize, l).

Lemma wp_precompute s0 s ims L inSize in0 in1 outSize f l :
  holds s0 s ims L → plan inSize in0 in1 outSize f = Some l →
  wp (precompute_coeffs inSize in0 in1 outSize f) (λ r s', match r with
    | Some c => ∃ b k, c = Coeffs (fst l) (fst <$> snd l) (snd <$> snd l) (Some b) (Some k) ∧ holds s0 s' ims (b :: k :: L)
    | None => holds s0 s' ims L ∧ mem s0 ≠ [] ∧ pil_error s' = Some oom
    end) no_wait s.
Proof.
  intros H. unfold plan, precompute_coeffs. intros Hp.
  apply bind_Some in Hp as (c & Hc & Hp). apply bind_Some in Hp as (k & Hk & Hp). apply bind_Some in Hp as (by_ & Hb & Hp).
  case_decide as Hz; [done|]. case_decide as Hbig; [done|]. apply bind_Some in Hp as (l' & Hl & [= <-]).
  cbv zeta. wp_step. eapply wp_known; [exact Hc|]. wp_step. eapply wp_known; [exact Hk|]. wp_step. eapply wp_known; [exact Hb|].
  rewrite !decide_False by done. wp_step. eapply wp_mono; [by apply (wp_malloc s0 ims L)| |done]. cbv beta.
  intros [kp|] s1 (_ & _ & H1); cycle 1.
  { unfold ImagingError_MemoryError, error. wp_steps. destruct H1 as [H1 ?]. split_and!; [by apply holds_error|done|done]. }
  wp_step. eapply wp_mono; [by apply (wp_malloc s0 ims (kp :: L))| |done]. cbv beta.
  intros [bp|] s2 (_ & _ & H2); cycle 1.
  { destruct H2 as [H2 Hno]. wp_step. eapply wp_mono; [by apply (wp_free s0 ims (kp :: L) (Some kp) L)| |done].
    cbv beta. intros _ s3 [H3 _].
    unfold ImagingError_MemoryError, error. wp_steps. split_and!; [by apply holds_error|exact Hno|done]. }
  wp_step. eapply wp_known; [exact Hl|]. wp_step. by exists bp, kp.
Qed.

(** The windows are inside the image, the coefficients light enough, and the
    first and last windows span the others, all of it where nothing is resized. *)
Definition first_of (l : axis) : Z := fst (window_at (fst <$> snd l) 0).
Definition last_of (l : axis) (n : Z) : Z :=
  let w := window_at (fst <$> snd l) (n - 1) in fst w + snd w.
Definition usable (inSize outSize : Z) (l : axis) : bool :=
  windows_ok inSize outSize (fst <$> snd l) (snd <$> snd l) &&
  forallb (λ w, bool_decide (first_of l ≤ fst w ∧ fst w + snd w ≤ last_of l outSize)) (fst <$> snd l) &&
  bool_decide (first_of l ≤ last_of l outSize ∧ fits_int (last_of l outSize)) &&
  bool_decide (outSize = inSize → first_of l = 0 ∧ last_of l outSize = inSize).

(** Output [i] of the values [px] along an axis. *)
Definition along (need : bool) (n : Z) (l : axis) (px : Z → Z) (i : Z) : Z :=
  if need then
    let w := window_at (fst <$> snd l) i in
    round8 (dot (coeffs_of n (snd <$> snd l) i) (snd w) (λ j, px (j + fst w)))
  else px i.

Lemma dot_ext k n px px' : (∀ x, 0 ≤ x < n → px x = px' x) → dot k n px = dot k n px'.
Proof.
  intros Hx. unfold dot. assert (∀ x, x ∈ seqZ 0 n → px x = px' x) as Hx' by (intros x Hi%elem_of_seqZ; apply Hx; lia).
  revert Hx'. generalize (seqZ 0 n). induction l as [|x l IH]; intros Hl; [done|]. cbn. rewrite IH, Hl; [done|set_solver..].
Qed.

(** ** A pass into a new image *)

(** An image of the shape the shim makes. *)
Definition shaped (m : bytes) (xs ys : Z) (b i : nat) (im : imaging) : Prop :=
  im = set_lines (lines im) (blank m xs ys b i) ∧ wf_image im.
Lemma shaped_blank m xs ys b i : 0 ≤ xs → 0 ≤ ys → shaped m xs ys b i (blank m xs ys b i).
Proof. split; [done|by apply blank_wf]. Qed.
Lemma passed_shaped m xs ys b i o o' v : shaped m xs ys b i o → passed o o' v → shaped m xs ys b i o'.
Proof. intros [Ho _] [Hwf Hh _]. split; [|done]. rewrite Hh, Ho. done. Qed.

Lemma wp_pass_new s0 s ims L m xs ys f p im offset c bs v :
  holds s0 s ims L → no_nul m → (length m < IMAGING_MODE_LENGTH)%nat → 0 ≤ xs → 0 ≤ ys → fits_int (xs * size_of m) →
  ims !! p = Some im →
  (∀ b i, ∃ o', f (blank m xs ys b i) im offset (ksize c) bs (kk c) = Some o' ∧ passed (blank m xs ys b i) o' v) →
  wp (pass_new m xs ys f p offset c bs) (λ r s', match r with
    | Some q => ∃ b i o, holds s0 s' (<[q := o]> ims) (i :: b :: L) ∧ ims !! q = None ∧ shaped m xs ys b i o ∧
        ∀ b y x, 0 ≤ b < size_of m → 0 ≤ y < ys → 0 ≤ x < xs → get o b y x = v b y x
    | None => holds s0 s' ims L ∧ mem s0 ≠ [] ∧ pil_error s' = Some oom
    end) no_wait s.
Proof.
  intros H Hm Hlen Hx Hy Hfit Hp Hf. unfold pass_new. wp_step.
  eapply wp_mono; [by apply (wp_ImagingNewDirty s0 s ims L m xs ys)| |done]. cbv beta. intros [q|] s1; [|by intros ?; wp_step].
  intros (b & i & H1 & Hq & Hq0). wp_step. unfold pass_into. wp_step.
  eapply wp_mono; [apply (wp_deref q (blank m xs ys b i)); eapply holds_image; [done|apply lookup_insert_eq]| |done].
  cbv beta. intros ? ? [-> ->]. wp_step.
  assert (q ≠ p) by (intros ->; congruence).
  eapply wp_mono; [apply (wp_deref p im); eapply holds_image; [done|by rewrite lookup_insert_ne]| |done].
  cbv beta. intros ? ? [-> ->]. wp_step. destruct (Hf b i) as (o & Ho & Hpd). eapply wp_known; [exact Ho|].
  eapply wp_mono; [apply (wp_store s0 _ _ q o _ H1 Hq0)| |done].
  { apply (h_next _ _ _ _ H1). right. eexists. eapply holds_image; [done|apply lookup_insert_eq]. }
  cbv beta. intros _ s2 [H2 _]. wp_step. exists b, i, o. rewrite insert_insert_eq in H2. split_and!; [done|done| |].
  - eapply passed_shaped; [by apply shaped_blank|done].
  - intros. by apply (pd_get _ _ _ Hpd).
Qed.

(** ** Both passes *)

(** Lists of known names up to their order. *)
Ltac pull x :=
  lazymatch goal with
  | |- x :: _ ≡ₚ _ => reflexivity
  | |- _ :: _ ≡ₚ _ => etrans; [apply perm_skip; pull x|apply perm_swap]
  end.
Ltac perm :=
  cbn [option_list option_rect app];
  lazymatch goal with
  | |- _ ≡ₚ ?x :: _ => etrans; [pull x|apply perm_skip; perm]
  | |- _ => reflexivity
  end.

(** The bytes of a pixel that carry its channels. *)
Definition carried (m : bytes) (b : Z) : bool := filtered (blank m 0 0 0 0) b.

Section shaped.
Context (m : bytes) (w h : Z) (bb ii : nat) (im : imaging) (Him : shaped m w h bb ii im).

Lemma shaped_wf : wf_image im.
Proof. apply Him. Qed.
Lemma shaped_x : xsize im = w.
Proof. destruct Him as [-> _]. done. Qed.
Lemma shaped_y : ysize im = h.
Proof. destruct Him as [-> _]. done. Qed.
Lemma shaped_mode : mode im = m.
Proof. destruct Him as [-> _]. done. Qed.
Lemma shaped_type : type im = IMAGING_TYPE_UINT8.
Proof. destruct Him as [-> _]. done. Qed.
Lemma shaped_filtered b : filtered im b = carried m b.
Proof. destruct Him as [-> _]. done. Qed.
Lemma shaped_eight : image8 im = bool_decide (size_of m = 1).
Proof. destruct Him as [-> _]. done. Qed.
Lemma shaped_image : image im = Some ii.
Proof. destruct Him as [-> _]. done. Qed.
Lemma shaped_block : block im = Some bb.
Proof. destruct Him as [-> _]. done. Qed.
Lemma shaped_pixel : pixelsize im = size_of m.
Proof. destruct Him as [-> _]. done. Qed.

Lemma horizontal_shaped xs rows l off ks b i :
  0 ≤ xs → 0 ≤ rows → 0 ≤ off → off + rows ≤ h → usable w xs l = true →
  ∃ o', ImagingResampleHorizontal_8bpc (blank m xs rows b i) im off ks (fst <$> snd l) (snd <$> snd l) = Some o' ∧
    passed (blank m xs rows b i) o' (λ b y x, if carried m b then along true xs l (λ x', get im b (y + off) x') x else 0).
Proof.
  intros Hxs Hrows Hoff Hh Hu. unfold usable in Hu. do 2 apply andb_prop in Hu as [Hu _]. apply andb_prop in Hu as [Hu _].
  destruct (horizontal_exact (blank m xs rows b i) im off ks (fst <$> snd l) (snd <$> snd l)) as (o' & Ho & Hp).
  - by apply blank_wf.
  - apply shaped_wf.
  - by rewrite shaped_eight.
  - apply shaped_type.
  - done.
  - rewrite shaped_y. exact Hh.
  - by rewrite shaped_x.
  - exists o'. split; [exact Ho|]. destruct Hp as [? ? Hg]. split; [done|done|]. intros c y x Hb Hy Hx. rewrite Hg by done.
    unfold convolved. by rewrite shaped_filtered.
Qed.
Lemma vertical_shaped ys (l : list ((Z * Z) * list float64)) bs off ks b i :
  0 ≤ w → 0 ≤ ys → windows_ok h ys bs (snd <$> l) = true →
  ∃ o', ImagingResampleVertical_8bpc (blank m w ys b i) im off ks bs (snd <$> l) = Some o' ∧
    passed (blank m w ys b i) o' (λ b y x, if carried m b then
      round8 (dot (coeffs_of ys (snd <$> l) y) (snd (window_at bs y)) (λ j, get im b (j + fst (window_at bs y)) x)) else 0).
Proof.
  intros Hw Hys Hu.
  destruct (vertical_exact (blank m w ys b i) im off ks bs (snd <$> l)) as (o' & Ho & Hp).
  - by apply blank_wf.
  - apply shaped_wf.
  - by rewrite shaped_eight.
  - apply shaped_type.
  - by rewrite shaped_x.
  - by rewrite shaped_y.
  - exists o'. split; [exact Ho|]. destruct Hp as [? ? Hg]. split; [done|done|]. intros c y x Hb Hy Hx. rewrite Hg by done.
    unfold convolved. by rewrite shaped_filtered.
Qed.
End shaped.

(** The windows moved to the lines the first pass kept. *)
Definition shifted (first : Z) (bs : list (Z * Z)) : list (Z * Z) := (λ w, (fst w - first, snd w)) <$> bs.
Lemma usable_window inSize n l i : usable inSize n l = true → 0 ≤ i < n →
  window_ok inSize (window_at (fst <$> snd l) i) (coeffs_of n (snd <$> snd l) i) = true ∧
  first_of l ≤ fst (window_at (fst <$> snd l) i) ∧
  fst (window_at (fst <$> snd l) i) + snd (window_at (fst <$> snd l) i) ≤ last_of l n ∧
  at_ (fst <$> snd l) i = Some (window_at (fst <$> snd l) i).
Proof.
  unfold usable. intros Hu Hi. do 2 apply andb_prop in Hu as [Hu _]. apply andb_prop in Hu as [Hw Hf].
  destruct (normalize_coeffs_8bpc n (snd <$> snd l)) as [kk|] eqn:Hkk; [|unfold windows_ok in Hw; by rewrite Hkk in Hw].
  destruct (windows_ok_at _ _ _ _ _ i Hw Hkk Hi) as (Ha & _ & Hok). split; [exact Hok|].
  rewrite forallb_forall in Hf. specialize (Hf (window_at (fst <$> snd l) i)). rewrite bool_decide_eq_true in Hf.
  destruct Hf as [? ?]; [|done]. apply list_elem_of_In, list_elem_of_lookup. exists (Z.to_nat i). apply at_Some in Ha as [_ Ha]. exact Ha.
Qed.
Lemma usable_bounds inSize n l : usable inSize n l = true → 1 ≤ n →
  0 ≤ first_of l ∧ first_of l ≤ last_of l n ∧ last_of l n ≤ inSize ∧ fits_int (last_of l n) ∧
  (n = inSize → first_of l = 0 ∧ last_of l n = inSize).
Proof.
  intros Hu Hn. destruct (usable_window inSize n l 0 Hu) as (H0%bool_decide_eq_true & _); [lia|].
  destruct (usable_window inSize n l (n - 1) Hu) as (H1%bool_decide_eq_true & _); [lia|].
  unfold usable in Hu. apply andb_prop in Hu as [Hu Hwhole%bool_decide_eq_true].
  apply andb_prop in Hu as [_ Hu%bool_decide_eq_true]. unfold first_of, last_of in *. tauto.
Qed.
Lemma windows_ok_shifted inSize n l :
  usable inSize n l = true → windows_ok (last_of l n - first_of l) n (shifted (first_of l) (fst <$> snd l)) (snd <$> snd l) = true.
Proof.
  intros Hu. pose proof Hu as Hu'. unfold usable in Hu'. do 2 apply andb_prop in Hu' as [Hu' _]. apply andb_prop in Hu' as [Hw Hf].
  unfold windows_ok in *. destruct (normalize_coeffs_8bpc n (snd <$> snd l)) as [kk|]; [|done].
  apply andb_prop in Hw as [Hn Hw]. apply andb_true_intro. split.
  { rewrite bool_decide_eq_true in Hn |- *. unfold shifted. by rewrite length_fmap. }
  rewrite forallb_forall in Hw, Hf |- *. intros [v k] Hin%list_elem_of_In. unfold shifted in Hin.
  apply list_elem_of_lookup in Hin as [j Hj]. apply lookup_zip_Some in Hj as [Hj Hk].
  apply list_lookup_fmap_Some in Hj as (u & -> & Hj).
  specialize (Hw (u, k)). specialize (Hf u). unfold window_ok in *. rewrite bool_decide_eq_true in Hf, Hw |- *. cbn [fst snd].
  destruct Hf as [? ?]; [apply list_elem_of_In, list_elem_of_lookup; by exists j|].
  destruct Hw as (? & ? & ? & ?); [apply list_elem_of_In, list_elem_of_lookup; exists j; by apply lookup_zip_Some|].
  split_and!; lia.
Qed.
Lemma window_at_shifted inSize n l i : usable inSize n l = true → 0 ≤ i < n →
  window_at (shifted (first_of l) (fst <$> snd l)) i =
  (fst (window_at (fst <$> snd l) i) - first_of l, snd (window_at (fst <$> snd l) i)).
Proof.
  intros Hu Hi. destruct (usable_window _ _ _ _ Hu Hi) as (_ & _ & _ & Ha). unfold window_at at 1, shifted.
  rewrite at_fmap, Ha. done.
Qed.

(** An output reads only inside its axis. *)
Lemma along_ext need inSize n l px px' i :
  usable inSize n l = true → 0 ≤ i < n → (need = false → n = inSize) →
  (∀ j, 0 ≤ j < inSize → px j = px' j) → along need n l px i = along need n l px' i.
Proof.
  intros Hu Hi Hn Hpx. unfold along. destruct need; [|apply Hpx; rewrite <- Hn; done].
  destruct (usable_window _ _ _ _ Hu Hi) as (Hw%bool_decide_eq_true & _).
  f_equal. apply dot_ext. intros j Hj. apply Hpx. lia.
Qed.

Section inner.
Context `{Libm} (m : bytes) (w h xs ys : Z) (f : filter) (box : boxing) (lx ly : axis).
Context (Hm : no_nul m) (Hlen : (length m < IMAGING_MODE_LENGTH)%nat) (Hx : 1 ≤ xs) (Hy : 1 ≤ ys) (Hfit : fits_int (xs * size_of m)).
Context (Hpx : plan w (box0 box) (box2 box) xs f = Some lx) (Hpy : plan h (box1 box) (box3 box) ys f = Some ly).
Context (Hux : usable w xs lx = true) (Huy : usable h ys ly = true).

Definition need_h : bool := bool_decide (xs ≠ w) || truthy (box0 box) || negb (SFeqb (box2 box) (float_of xs)).
Definition need_v : bool := bool_decide (ys ≠ h) || truthy (box1 box) || negb (SFeqb (box3 box) (float_of ys)).

Lemma need_h_same : need_h = false → xs = w.
Proof.
  unfold need_h. intros Eh. apply orb_false_iff in Eh as [Eh _]. apply orb_false_iff in Eh as [Eh%bool_decide_eq_false _].
  by apply dec_stable.
Qed.
Lemma need_v_same : need_v = false → ys = h.
Proof.
  unfold need_v. intros Ev. apply orb_false_iff in Ev as [Ev _]. apply orb_false_iff in Ev as [Ev%bool_decide_eq_false _].
  by apply dec_stable.
Qed.

(** The image resized: along its rows, then down its columns. *)
Definition rows_of (im : imaging) (b y x : Z) : Z := along need_h xs lx (λ x', get im b y x') x.
Definition resized (im : imaging) (b y x : Z) : Z := along need_v ys ly (λ y', rows_of im b y' x) y.

(** An image that is [v] in the bytes that carry channels. *)
Definition reads (o : imaging) (ys : Z) (v : Z → Z → Z → Z) : Prop :=
  ∀ b y x, 0 ≤ b < size_of m → 0 ≤ y < ys → 0 ≤ x < xs → carried m b = true → get o b y x = v b y x.

(** How a stage ends: a new image [v], or nothing left behind but the word. *)
Definition made_image (s0 : pil) (ims : gmap nat imaging) (L : list nat) (ys : Z) (v : Z → Z → Z → Z) (r : option nat) (s : pil) : Prop :=
  match r with
  | Some q => ∃ b i o, holds s0 s (<[q := o]> ims) (i :: b :: L) ∧ ims !! q = None ∧ shaped m xs ys b i o ∧ reads o ys v
  | None => holds s0 s ims L ∧ mem s0 ≠ [] ∧ pil_error s = Some oom
  end.

Lemma wp_frees {A} s0 s ims L L' a c (k : P A) Q :
  holds s0 s ims L → L ≡ₚ a :: c :: L' →
  (∀ s', holds s0 s' ims L' → pil_error s' = pil_error s → wp k Q no_wait s') →
  wp (free (Some a) ;; free (Some c) ;; k) Q no_wait s.
Proof.
  intros H0 HL Hk. wp_step. eapply wp_mono; [by apply (wp_free s0 ims L (Some a) (c :: L'))| |done].
  cbv beta. intros _ s1 [H1 E1]. wp_step. eapply wp_mono; [by apply (wp_free s0 ims (c :: L') (Some c) L')| |done].
  cbv beta. intros _ s2 [H2 E2]. apply Hk; [done|congruence].
Qed.

(** The first pass keeps the lines the second reads. *)
Lemma wp_first_pass s0 s ims L p im bb ii c :
  holds s0 s ims L → ims !! p = Some im → shaped m w h bb ii im → kk c = snd <$> snd lx → need_h = true →
  wp (pass_new m xs (last_of ly ys - first_of ly) ImagingResampleHorizontal_8bpc p (first_of ly) c (fst <$> snd lx))
     (made_image s0 ims L (last_of ly ys - first_of ly) (λ b y x, rows_of im b (y + first_of ly) x)) no_wait s.
Proof.
  intros H0 Hp Him Hk Hn. destruct (usable_bounds _ _ _ Huy) as (? & ? & ? & ? & _); [lia|].
  eapply wp_mono; [eapply (wp_pass_new s0 s ims L m xs _ _ p im); try done; try lia| |done].
  - intros b i. rewrite Hk. apply (horizontal_shaped m w h bb ii im Him xs); try done; lia.
  - cbv beta. intros [q|] s1; [|done]. intros (b & i & o & Hh1 & Hq & Ho & Hg). exists b, i, o. split_and!; try done.
    intros b' y x Hb Hy' Hx' Hc. rewrite Hg by done. rewrite Hc. unfold rows_of. by rewrite Hn.
Qed.

(** The second pass on the image itself, or on the lines kept. *)
Lemma wp_second_pass s0 s ims L p t rows bs bb ii c (v : Z → Z → Z → Z) first :
  holds s0 s ims L → ims !! p = Some t → shaped m xs rows bb ii t → kk c = snd <$> snd ly → need_v = true →
  reads t rows (λ b y x, v b (y + first) x) →
  windows_ok rows ys bs (snd <$> snd ly) = true →
  (∀ y, 0 ≤ y < ys → window_at bs y = (fst (window_at (fst <$> snd ly) y) - first, snd (window_at (fst <$> snd ly) y))) →
  (∀ y, 0 ≤ y < ys → 0 ≤ fst (window_at bs y) ∧ fst (window_at bs y) + snd (window_at bs y) ≤ rows) →
  wp (pass_new m xs ys ImagingResampleVertical_8bpc p 0 c bs)
     (made_image s0 ims L ys (λ b y x, along need_v ys ly (λ y', v b y' x) y)) no_wait s.
Proof.
  intros H0 Hp Ht Hk Hn Hr Hok Hbs Hin.
  eapply wp_mono; [eapply (wp_pass_new s0 s ims L m xs _ _ p t); try done; try lia| |done].
  - intros b i. rewrite Hk. apply (vertical_shaped m xs rows bb ii t Ht ys); try done; lia.
  - cbv beta. intros [q|] s1; [|done]. intros (b & i & o & Hh1 & Hq & Ho & Hg). exists b, i, o. split_and!; try done.
    intros b' y x Hb Hy' Hx' Hc. rewrite Hg by done. rewrite Hc, Hn. unfold along. f_equal.
    specialize (Hin y Hy'). rewrite (Hbs y Hy') in *. cbn [fst snd] in *. apply dot_ext. intros j Hj. rewrite Hr by (done || lia). f_equal. lia.
Qed.

Lemma wp_ImagingCopy s0 s ims L p im bb ii :
  holds s0 s ims L → ims !! p = Some im → shaped m xs ys bb ii im →
  wp (ImagingCopy p) (made_image s0 ims L ys (get im)) no_wait s.
Proof.
  intros H0 Hp Him. unfold ImagingCopy. wp_step.
  eapply wp_mono; [apply (wp_deref p im); by eapply holds_image| |done]. cbv beta. intros ? ? [-> ->].
  rewrite (shaped_mode _ _ _ _ _ _ Him), (shaped_x _ _ _ _ _ _ Him), (shaped_y _ _ _ _ _ _ Him). wp_step.
  eapply wp_mono; [apply (wp_ImagingNewDirty s0 s ims L m xs ys); try done; lia| |done]. cbv beta. intros [q|] s1; [|done].
  intros (b & i & H1 & Hq & Hq0). wp_step.
  pose proof (shaped_wf _ _ _ _ _ _ Him) as Hwf.
  assert (linesize im = xs * size_of m) as Hls by (rewrite (wi_line _ Hwf), (shaped_x _ _ _ _ _ _ Him), (shaped_pixel _ _ _ _ _ _ Him); done).
  rewrite Hls, decide_True by (unfold size_of; case_decide; lia).
  wp_step. eapply wp_mono; [apply (wp_deref q (blank m xs ys b i)); eapply holds_image; [done|apply lookup_insert_eq]| |done].
  cbv beta. intros ? ? [-> ->]. wp_step.
  pose proof (wi_count _ Hwf) as Hcnt. rewrite (shaped_y _ _ _ _ _ _ Him) in Hcnt.
  assert (take (Z.to_nat ys) (lines im) = lines im) as -> by (apply take_ge; lia).
  eapply wp_known; [apply put_lines_all|].
  { cbn. rewrite length_replicate. lia. }
  { apply Forall2_same_length_lookup_2; [cbn; rewrite length_replicate; lia|]. cbn. intros k l old Hl Ho.
    apply lookup_replicate in Ho as [-> _]. rewrite length_replicate.
    pose proof (Forall_lookup_1 _ _ _ _ (wi_lines _ Hwf) Hl) as Hlen'. cbn in Hlen'. lia. }
  eapply wp_mono; [eapply (wp_store s0 _ _ q _ _ H1 Hq0)| |done].
  { apply (h_next _ _ _ _ H1). right. eexists. eapply holds_image; [done|apply lookup_insert_eq]. }
  cbv beta. intros _ s2 [H2 _]. wp_step. rewrite insert_insert_eq in H2.
  exists b, i, (set_lines (lines im) (blank m xs ys b i)). split_and!; [done|done| |].
  - split; [done|]. destruct Him as [E Him]. rewrite E in Him. destruct Him. by split.
  - intros b' y x _ _ _ _. unfold get, byte_at. cbn [lines set_lines pixelsize blank].
    by rewrite (shaped_pixel _ _ _ _ _ _ Him).
Qed.

(** An image made since, and nothing else of its, given back. *)
Lemma wp_drop_made s0 s ims L p im b i x y :
  holds s0 s (<[p := im]> ims) (i :: b :: L) → ims !! p = None → shaped m x y b i im →
  wp (ImagingDelete (Some p)) (λ _ s', holds s0 s' ims L ∧ pil_error s' = pil_error s) no_wait s.
Proof.
  intros H0 Hp Him. eapply wp_mono; [eapply (wp_ImagingDelete s0 s _ _ L p im H0)| |done].
  - apply lookup_insert_eq.
  - rewrite (shaped_image _ _ _ _ _ _ Him), (shaped_block _ _ _ _ _ _ Him). perm.
  - cbv beta. intros _ s1 [H1 E1]. by rewrite delete_insert_id in H1.
Qed.

(** Between the passes: the lines the second reads, if they are not the
    image's own. *)
Definition halfway (s0 : pil) (ims : gmap nat imaging) (L : list nat) (im : imaging) (temp : option nat) (s : pil) : Prop :=
  match temp with
  | Some q => need_h = true ∧ made_image s0 ims L (last_of ly ys - first_of ly) (λ b y x, rows_of im b (y + first_of ly) x) temp s
  | None => need_h = false ∧ holds s0 s ims L
  end.

Section stages.
Context (s0 : pil) (ims : gmap nat imaging) (L : list nat) (p : nat) (im : imaging) (bb ii : nat).
Context (Hp : ims !! p = Some im) (Him : shaped m w h bb ii im).
Context (cv : coeffs) (b2 k2 : nat) (Hb2 : bounds_p cv = Some b2) (Hk2 : kk_p cv = Some k2) (Hkk : kk cv = snd <$> snd ly).

Lemma wp_horizontal_stage s ch b1 k1 :
  bounds_p ch = Some b1 → kk_p ch = Some k1 → bounds ch = fst <$> snd lx → kk ch = snd <$> snd lx →
  holds s0 s ims (b2 :: k2 :: b1 :: k1 :: L) →
  wp (horizontal_stage need_h m p xs (first_of ly) (last_of ly ys) ImagingResampleHorizontal_8bpc ch cv) (λ r s', match r with
    | Some temp => halfway s0 ims (b2 :: k2 :: L) im temp s'
    | None => made_image s0 ims L ys (resized im) None s'
    end) no_wait s.
Proof.
  intros Hb1 Hk1 Hbs Hks H0. unfold horizontal_stage. rewrite Hb1, Hk1, Hb2, Hk2, Hbs. destruct need_h eqn:Eh.
  - wp_step. eapply wp_mono; [by eapply (wp_first_pass s0 s ims _ p im bb ii)|cbv beta|done]. intros [q|] s1.
    + intros (b & i & t & H1 & Hq & Ht & Hr). eapply wp_frees; [exact H1|perm|]. intros s2 H2 _. wp_step.
      split; [done|]. by exists b, i, t.
    + intros (H1 & Hno & E1). eapply wp_frees; [exact H1|perm|]. intros s2 H2 E2.
      eapply wp_frees; [exact H2|perm|]. intros s3 H3 E3. wp_step. split_and!; [done|done|by rewrite E3, E2].
  - eapply wp_frees; [exact H0|perm|]. intros s1 H1 _. done.
Qed.

(** How the vertical stage ends: with the image, or, when there was nothing
    to do, with none. *)
Definition finished (r : option nat) (s : pil) : Prop :=
  match r with
  | None => if need_v then made_image s0 ims L ys (resized im) None s else need_h = false ∧ holds s0 s ims L
  | Some _ => made_image s0 ims L ys (resized im) r s
  end.

Lemma wp_vertical_kept q s :
  halfway s0 ims (b2 :: k2 :: L) im (Some q) s →
  wp (vertical_stage need_v p (Some q) ys ImagingResampleVertical_8bpc cv (shifted (first_of ly) (fst <$> snd ly)))
     finished no_wait s.
Proof.
  intros (Eh & b & i & t & H0 & Hq & Ht & Hr). unfold vertical_stage. rewrite Hb2, Hk2. cbn [default from_option id].
  destruct need_v eqn:Ev; cycle 1.
  { eapply wp_frees; [exact H0|perm|]. intros s1 H1 _. wp_step. pose proof (need_v_same Ev) as Hysh.
    destruct (usable_bounds _ _ _ Huy) as (_ & _ & _ & _ & Hwhole); [lia|].
    destruct (Hwhole Hysh) as [E0 E1]. rewrite E0, E1, <- Hysh, Z.sub_0_r in *.
    exists b, i, t. split_and!; [done|done|done|]. intros b' y x Hb Hy' Hx' Hc. rewrite Hr by done.
    unfold resized, along. rewrite Ev. by rewrite Z.add_0_r. }
  wp_step. eapply wp_mono; [apply (wp_deref q t); eapply holds_image; [done|apply lookup_insert_eq]| |done].
  cbv beta. intros ? ? [-> ->]. rewrite (shaped_mode _ _ _ _ _ _ Ht), (shaped_x _ _ _ _ _ _ Ht). wp_step.
  eapply wp_mono; [eapply (wp_second_pass s0 s _ _ q t _ _ b i cv (λ b y x, rows_of im b y x) (first_of ly) H0
    (lookup_insert_eq _ _ _) Ht)| |done]; try done; [by apply (windows_ok_shifted h)|by intros y Hy'; apply (window_at_shifted h ys)| |cbv beta].
  { intros y Hy'. rewrite (window_at_shifted h ys) by done. cbn [fst snd].
    destruct (usable_window _ _ _ y Huy Hy') as (Hw%bool_decide_eq_true & ? & ? & _). lia. }
  intros [o|] s1.
  - intros (b' & i' & oo & H1 & Ho & Hoo & Hro). apply lookup_insert_None in Ho as [Ho Hoq].
    rewrite insert_insert_ne in H1 by done. wp_step.
    eapply wp_mono; [eapply (wp_drop_made s0 s1 _ (i' :: b' :: b2 :: k2 :: L) q t b i); [eapply holds_perm, H1; perm| |exact Ht]|cbv beta|done].
    { by rewrite lookup_insert_ne. }
    intros _ s2 [H2 _]. eapply wp_frees; [exact H2|perm|]. intros s3 H3 _. wp_step. by exists b', i', oo.
  - intros (H1 & Hno & E1). wp_step. eapply wp_mono; [by eapply wp_drop_made|cbv beta|done]. intros _ s2 [H2 E2].
    eapply wp_frees; [exact H2|perm|]. intros s3 H3 E3. wp_step. unfold finished. rewrite Ev.
    split_and!; [done|done|by rewrite E3, E2].
Qed.
Lemma wp_vertical_own s :
  halfway s0 ims (b2 :: k2 :: L) im None s →
  wp (vertical_stage need_v p None ys ImagingResampleVertical_8bpc cv (fst <$> snd ly)) finished no_wait s.
Proof.
  intros [Eh H0]. unfold vertical_stage. rewrite Hb2, Hk2. cbn [default from_option id]. pose proof (need_h_same Eh) as Hxw.
  destruct need_v eqn:Ev; cycle 1.
  { eapply wp_frees; [exact H0|perm|]. intros s1 H1 _. wp_step. unfold finished. by rewrite Ev. }
  wp_step. eapply wp_mono; [apply (wp_deref p im); by eapply holds_image| |done].
  cbv beta. intros ? ? [-> ->]. rewrite (shaped_mode _ _ _ _ _ _ Him), (shaped_x _ _ _ _ _ _ Him). wp_step.
  rewrite <- Hxw in *.
  eapply wp_mono; [eapply (wp_second_pass s0 s _ _ p im h _ bb ii cv (λ b y x, rows_of im b y x) 0 H0 Hp Him)| |done];
    try done; [| | | |cbv beta].
  { intros b' y x _ _ _ _. unfold rows_of, along. by rewrite Eh, Z.add_0_r. }
  { unfold usable in Huy. rewrite !andb_true_iff in Huy. tauto. }
  { intros y _. rewrite Z.sub_0_r. by destruct (window_at _ y). }
  { intros y Hy'. destruct (usable_window _ _ _ y Huy Hy') as (Hw%bool_decide_eq_true & _). lia. }
  intros [o|] s1.
  - intros (b' & i' & oo & H1 & Ho & Hoo & Hro). wp_step. cbn [ImagingDelete]. wp_step.
    eapply wp_frees; [exact H1|perm|]. intros s2 H2 _. wp_step. by exists b', i', oo.
  - intros (H1 & Hno & E1). wp_step. cbn [ImagingDelete]. wp_step.
    eapply wp_frees; [exact H1|perm|]. intros s2 H2 E2. wp_step. unfold finished. rewrite Ev.
    split_and!; [done|done|by rewrite E2].
Qed.
End stages.

Lemma wp_ImagingResampleInner s0 s ims L p im bb ii :
  holds s0 s ims L → ims !! p = Some im → shaped m w h bb ii im →
  wp (ImagingResampleInner p xs ys f box ImagingResampleHorizontal_8bpc ImagingResampleVertical_8bpc)
     (made_image s0 ims L ys (resized im)) no_wait s.
Proof.
  intros H0 Hp Him. unfold ImagingResampleInner. wp_step.
  eapply wp_mono; [apply (wp_deref p im); by eapply holds_image| |done]. cbv beta. intros ? ? [-> ->].
  rewrite (shaped_mode _ _ _ _ _ _ Him), (shaped_x _ _ _ _ _ _ Him), (shaped_y _ _ _ _ _ _ Him). fold need_h need_v. cbv zeta.
  wp_step. eapply wp_mono; [by apply (wp_precompute s0 s ims L _ _ _ _ _ lx)| |done]. cbv beta. intros [ch|] s1; [|done].
  intros (b1 & k1 & -> & H1). wp_step.
  eapply wp_mono; [by apply (wp_precompute s0 s1 ims (b1 :: k1 :: L) _ _ _ _ _ ly)| |done]. cbv beta. intros [cv|] s2; cycle 1.
  { intros (H2 & Hno & He). cbn [bounds_p kk_p]. eapply wp_frees; [exact H2|perm|]. intros s3 H3 E3. wp_step. split_and!; [done|done|by rewrite E3]. }
  intros (b2 & k2 & -> & H2). cbn [bounds].
  destruct (usable_window _ _ _ 0 Huy) as (_ & _ & _ & Hat0); [lia|].
  destruct (usable_window _ _ _ (ys - 1) Huy) as (_ & _ & _ & Hat1); [lia|].
  destruct (usable_bounds _ _ _ Huy) as (_ & _ & _ & Hfit' & _); [lia|].
  wp_step. eapply wp_known; [by rewrite Hat0|]. fold (first_of ly).
  wp_step. eapply wp_known; [rewrite Hat1; cbn [mbind option_bind]; unfold int_; by rewrite decide_True|]. fold (last_of ly ys).
  fold (shifted (first_of ly) (fst <$> snd ly)). wp_step.
  eapply wp_mono; [by eapply (wp_horizontal_stage s0 ims L p im bb ii Hp Him)|cbv beta|done]. intros [temp|] s3; [|done]. intros Hhalf.
  wp_step. eapply (wp_mono _ (finished s0 ims L im)).
  - destruct temp as [q|]; pose proof (proj1 Hhalf) as Eh; rewrite Eh; [by eapply wp_vertical_kept|by eapply wp_vertical_own].
  - intros [o|] s4; unfold finished; [by intros; wp_step|]. destruct need_v eqn:Ev; [by intros; wp_step|].
    intros [Eh H4].
    pose proof (need_h_same Eh) as Hxw. pose proof (need_v_same Ev) as Hysh.
    assert (temp = None) as -> by (destruct temp; [by destruct Hhalf as [? _]; congruence|done]). cbn [default from_option id].
    eapply wp_mono; [eapply (wp_ImagingCopy s0 s4 _ _ p im); [exact H4|exact Hp|by rewrite Hxw, Hysh]| |done].
    cbv beta. intros [o|] s5; [|done]. intros (b & i & oo & ? & ? & ? & Hr). exists b, i, oo. split_and!; [done..|].
    intros c y x Hb Hy' Hx' Hc. rewrite Hr by done. unfold resized, rows_of, along. by rewrite Ev, Eh.
  - done.
Qed.
End inner.
