(* ===== verification/Windows.v ===== *)
(** * The coefficients of Resample.c are the reference's

    For an image of at most 2^24 pixels a side taken whole: [precompute_coeffs]
    has windows inside the image and room for every coefficient, by its clamps
    and the rounding of doubles, and the weights it leaves are the reference's
    shares; those of the box and the triangle are light enough for ints. *)
From Stdlib Require Import Reals Lra Floats.SpecFloat.
From S2P Require Import Prelude Effect Float Rounding Imaging Resample Kernels Convolve Holding TwoPass.

Local Open Scope Z_scope.

(** ** The filters *)

Section filters.
Context `{Libm}.

Lemma flipped x : x = S754_zero true ∨ (if SFltb x zero then SFopp x else x) = SFabs x.
Proof. destruct x as [[]|[]| |[] m e]; auto. Qed.

Lemma box_is x : box_filter x = box_kernel x.
Proof. reflexivity. Qed.
Lemma bilinear_is x : bilinear_filter x = tent_kernel x.
Proof. destruct (flipped x) as [->|E]; [reflexivity|]. unfold bilinear_filter. by rewrite E. Qed.
Lemma hamming_is x : hamming_filter x = hamming_kernel x.
Proof.
  destruct (flipped x) as [->|E]; [reflexivity|]. unfold hamming_filter, hamming_kernel, sinc. rewrite E.
  change zero with nought. by destruct (SFeqb (SFabs x) nought).
Qed.
Lemma bicubic_is x : bicubic_filter x = cubic_kernel x.
Proof. destruct (flipped x) as [->|E]; [reflexivity|]. unfold bicubic_filter. by rewrite E. Qed.
Lemma lanczos_is x : lanczos_filter x = lanczos_kernel x.
Proof. reflexivity. Qed.

Lemma transform_kernel fl f : transform fl = Some f → (∀ x, filter_ f x = kernel fl x) ∧ support f = radius fl.
Proof.
  unfold transform, kernel, radius. repeat (case_decide; [|]); intros [= <-] || intros ?; try done.
  all: first [by split; [intros; apply box_is|]|by split; [intros; apply bilinear_is|]|by split; [intros; apply hamming_is|]|
    by split; [intros; apply bicubic_is|]|by split; [intros; apply lanczos_is|]].
Qed.
End filters.

(** ** An axis in the reals *)

Local Open Scope R_scope.

Definition eps : R := / 1048576.

Lemma radius_facts fl : double_number (radius fl) ∧ / 2 <= val (radius fl) <= 3.
Proof.
  assert (bp (-1) = / 2) as Eb by (change (bp (-1)) with (/ (2 * 1)); f_equal; lra).
  assert (∀ n, (1 <= n <= 3)%Z → double_number (double_of n) ∧ / 2 <= val (double_of n) <= 3) as Hn.
  { intros n Hn. destruct (double_of_exact n) as [Hd ->]; [lia|]. split; [done|]. destruct Hn as [Ha%IZR_le Hb%IZR_le]. lra. }
  unfold radius. repeat case_decide; try (apply Hn; lia).
  destruct (dyadic_exact 1 (-1)) as [Hd E]; [done|lia|]. split; [done|]. unfold middle. rewrite E, Eb. lra.
Qed.
Lemma middle_val : double_number middle ∧ val middle = / 2.
Proof.
  destruct (dyadic_exact 1 (-1)) as [H1 H2]; [done|lia|]. split; [done|]. unfold middle. rewrite H2.
  change (bp (-1)) with (/ (2 * 1)). rewrite Rmult_1_r. lra.
Qed.
Lemma unity_val : double_number unity ∧ val unity = 1.
Proof. by apply double_of_exact. Qed.
Lemma nought_val : double_number nought ∧ val nought = 0.
Proof. by apply double_of_exact. Qed.

Section axis.
Context `{Libm} (fl inn out : Z) (Hinn : (1 <= inn <= 2 ^ 24)%Z) (Hout : (1 <= out <= 2147483647)%Z).

Lemma inn_real : 1 <= IZR inn <= 16777216.
Proof. split; apply IZR_le; lia. Qed.
Lemma out_real : 1 <= IZR out <= 2147483647.
Proof. split; apply IZR_le; lia. Qed.
Lemma double_of_size n : (0 <= n <= 2147483647)%Z → double_number (double_of n) ∧ val (double_of n) = IZR n.
Proof. intros Hn. apply double_of_exact. lia. Qed.

Lemma scale_facts : double_number (scale inn out) ∧ 0 < val (scale inn out) ∧
  IZR inn - eps <= IZR out * val (scale inn out) <= IZR inn + eps.
Proof.
  pose proof inn_real. pose proof out_real. destruct (double_of_size inn) as [Hi Ei]; [lia|]. destruct (double_of_size out) as [Ho Eo]; [lia|].
  assert (0 < IZR inn / IZR out <= 16777216) as Hq.
  { split; [apply Rdiv_lt_0_compat; lra|]. apply (Rmult_le_reg_r (IZR out)); [lra|]. unfold Rdiv. rewrite Rmult_assoc, Rinv_l by lra. nra. }
  assert (rounds_double (IZR inn / IZR out) (scale inn out)) as Hr.
  { unfold scale. rewrite <- Ei, <- Eo. apply fdiv_rounds; [done|done|lra|]. rewrite Ei, Eo, Rabs_pos_eq by lra. change (2 ^ 60)%Z with 1152921504606846976%Z. lra. }
  split; [apply Hr|]. pose proof (r_error _ _ _ _ Hr) as He. rewrite bp_unit, (Rabs_pos_eq (IZR inn / IZR out)) in He by lra.
  pose proof bp_tiny. apply abs_between in He.
  assert (IZR out * (IZR inn / IZR out) = IZR inn) as E by (field; lra).
  assert (IZR out * val (scale inn out) - IZR inn = IZR out * (val (scale inn out) - IZR inn / IZR out)) as E2 by (rewrite Rmult_minus_distr_l; lra).
  assert (- (IZR inn / 9007199254740992 + IZR out / 1152921504606846976) <= IZR out * (val (scale inn out) - IZR inn / IZR out)
          <= IZR inn / 9007199254740992 + IZR out / 1152921504606846976) as Hb.
  { set (q := IZR inn / IZR out) in *. set (v := val (scale inn out)) in *. split; nra. }
  unfold eps. split; [|lra]. apply (Rmult_lt_reg_l (IZR out)); lra.
Qed.
Lemma stretch_facts : double_number (stretch inn out) ∧ 1 <= val (stretch inn out) <= 16777217 ∧ val (scale inn out) <= val (stretch inn out).
Proof.
  destruct scale_facts as (Hn & H0 & Hs). destruct unity_val as [Hu Eu]. pose proof inn_real. pose proof out_real.
  assert (val (scale inn out) <= 16777217) by (unfold eps in *; nra). unfold stretch. destruct (SFltb (scale inn out) unity) eqn:E.
  - apply ltb_double in E; [|done..]. rewrite Eu in *. split_and!; [done|lra..].
  - assert (¬ val (scale inn out) < 1) by (intros Hlt; rewrite <- Eu in Hlt; apply ltb_double in Hlt; [congruence|done..]).
    split_and!; [done|lra..].
Qed.
Lemma reach_facts : double_number (reach fl inn out) ∧
  val (radius fl) * val (stretch inn out) - eps <= val (reach fl inn out) <= val (radius fl) * val (stretch inn out) + eps.
Proof.
  destruct stretch_facts as (Hs & H1 & _). destruct (radius_facts fl) as (Hr & H2).
  assert (0 <= val (radius fl) * val (stretch inn out) <= 50331651) as H3 by nra.
  pose proof (fmul_rounds (radius fl) (stretch inn out) Hr Hs) as Hm. rewrite Rabs_pos_eq in Hm by lra.
  change (2 ^ 60)%Z with 1152921504606846976%Z in Hm. specialize (Hm ltac:(lra)). split; [apply Hm|].
  pose proof (rounds_within 50331651 _ _ Hm ltac:(lra)) as Hw. fold (reach fl inn out) in Hw. unfold eps. lra.
Qed.

Section output.
Context (i : Z) (Hi : (0 <= i < out)%Z).

Lemma index_real : 0 <= IZR i <= IZR out - 1.
Proof. rewrite <- minus_IZR. split; apply IZR_le; lia. Qed.
Lemma halfway_val : double_number (fadd (double_of i) middle) ∧ val (fadd (double_of i) middle) = IZR i + / 2.
Proof.
  destruct (double_of_size i) as [Hn E]; [lia|]. destruct middle_val as [Hm Em]. pose proof index_real. pose proof out_real.
  pose proof (fadd_rounds _ _ Hn Hm) as Hr. rewrite E, Em, Rabs_pos_eq in Hr by lra.
  change (2 ^ 60)%Z with 1152921504606846976%Z in Hr. specialize (Hr ltac:(lra)). split; [apply Hr|].
  destruct (dyadic_exact (2 * i + 1) (-1)) as [Hd Ed]; [lia|lia|]. eapply (rounds_exact 53 1024); [exact Hr|exact Hd|].
  rewrite Ed, plus_IZR, mult_IZR. change (bp (-1)) with (/ (2 * 1)). rewrite Rmult_1_r. lra.
Qed.
Lemma centre_facts : double_number (centre inn out i) ∧
  (IZR i + / 2) * val (scale inn out) - eps <= val (centre inn out i) <= (IZR i + / 2) * val (scale inn out) + eps ∧
  0 <= (IZR i + / 2) * val (scale inn out) <= IZR inn + eps.
Proof.
  destruct scale_facts as (Hs & H0 & H1). destruct halfway_val as [Hn E]. pose proof index_real. pose proof inn_real. pose proof out_real.
  assert (0 <= (IZR i + / 2) * val (scale inn out) <= IZR inn + eps) as Hb by (unfold eps in *; nra).
  pose proof (fmul_rounds _ _ Hn Hs) as Hr. rewrite E, Rabs_pos_eq in Hr by lra.
  change (2 ^ 60)%Z with 1152921504606846976%Z in Hr. unfold eps in *. specialize (Hr ltac:(lra)).
  pose proof (rounds_within 16777217 _ _ Hr ltac:(lra)) as Hw. fold (centre inn out i) in Hw. split_and!; [apply Hr|lra..].
Qed.

(** The two edges before they are cut to the image. *)
Lemma edges : let a := fadd (fsub (centre inn out i) (reach fl inn out)) middle in
  let b := fadd (fadd (centre inn out i) (reach fl inn out)) middle in
  let c := (IZR i + / 2) * val (scale inn out) in let r := val (reach fl inn out) in
  (double_number a ∧ c - r + / 2 - 4 * eps <= val a <= c - r + / 2 + 4 * eps) ∧
  (double_number b ∧ c + r + / 2 - 4 * eps <= val b <= c + r + / 2 + 4 * eps) ∧
  0 <= c <= IZR inn + eps ∧ 0 <= r <= 50331652.
Proof.
  intros a b c r. destruct centre_facts as (Hc & Hce & Hcb). destruct reach_facts as (Hr & Hre). destruct middle_val as [Hm Em].
  destruct (radius_facts fl) as (_ & Hrad). destruct stretch_facts as (_ & Hst & _). pose proof inn_real.
  fold c in Hce, Hcb. fold r in Hre.
  assert (/ 2 <= val (radius fl) * val (stretch inn out) <= 50331651) as Hrb by nra. unfold eps in *.
  assert (∀ x y, double_number x → double_number y → - 67108870 <= val x + val y <= 67108870 →
    double_number (fadd x y) ∧ val x + val y - / 1048576 <= val (fadd x y) <= val x + val y + / 1048576) as Hadd.
  { intros x y Hx Hy Hxy. pose proof (fadd_rounds x y Hx Hy) as Hf. change (2 ^ 60)%Z with 1152921504606846976%Z in Hf.
    specialize (Hf ltac:(apply Rabs_le; lra)). pose proof (rounds_within 67108870 _ _ Hf ltac:(lra)). split; [apply Hf|lra]. }
  assert (double_number (fsub (centre inn out i) (reach fl inn out)) ∧
    val (centre inn out i) - r - / 1048576 <= val (fsub (centre inn out i) (reach fl inn out)) <= val (centre inn out i) - r + / 1048576) as (Hd & Hde).
  { pose proof (fsub_rounds _ _ Hc Hr) as Hf. change (2 ^ 60)%Z with 1152921504606846976%Z in Hf.
    specialize (Hf ltac:(apply Rabs_le; fold r; lra)). split; [apply Hf|]. pose proof (rounds_within 67108870 _ _ Hf ltac:(fold r; lra)) as Hw. fold r in Hw. lra. }
  destruct (Hadd _ _ Hd Hm) as (Ha & Hae); [lra|]. rewrite Em in Hae. fold a in Ha, Hae.
  destruct (Hadd _ _ Hc Hr) as (Hs & Hse); [fold r; lra|]. fold r in Hse.
  destruct (Hadd _ _ Hs Hm) as (Hb & Hbe); [lra|]. rewrite Em in Hbe. fold b in Hb, Hbe.
  split_and!; try done; lra.
Qed.

(** The edge found, as an integer. *)
Lemma whole_part_spec f : double_number f → Rabs (val f) <= 2147483647 →
  trunc f = Some (whole_part f) ∧ (0 <= val f → IZR (whole_part f) <= val f < IZR (whole_part f) + 1) ∧
  (val f < 0 → val f <= IZR (whole_part f) <= 0).
Proof.
  intros [Hf _] Hv. destruct (trunc_spec f Hf Hv) as (t & Ht & H1 & H2). unfold whole_part. rewrite Ht. done.
Qed.
Lemma slots_spec : ∃ c, trunc (ceil (reach fl inn out)) = Some c ∧ slots fl inn out = (2 * c + 1)%Z ∧
  (1 <= c <= 50331653)%Z ∧ val (reach fl inn out) <= IZR c.
Proof.
  destruct reach_facts as (Hr & Hre). destruct (radius_facts fl) as (_ & Hrad). destruct stretch_facts as (_ & Hst & _).
  assert (/ 2 <= val (radius fl) * val (stretch inn out) <= 50331651) as Hrb by nra. unfold eps in *.
  destruct (ceil_spec _ Hr) as (c & Hc & H1); [lra|]. exists c. unfold slots, whole_part. rewrite Hc. split_and!; [done|done| | |lra].
  - assert (0 < c)%Z by (apply lt_IZR; lra). lia.
  - assert (c < 50331654)%Z; [apply lt_IZR; lra|lia].
Qed.

Local Abbreviation lo := (from_pixel fl inn out i).
Local Abbreviation hi := (upto_pixel fl inn out i).

(** A window is inside the image, and there is room for its coefficients. *)
Lemma window_facts :
  trunc (fadd (fsub (centre inn out i) (reach fl inn out)) middle) = Some (whole_part (fadd (fsub (centre inn out i) (reach fl inn out)) middle)) ∧
  trunc (fadd (fadd (centre inn out i) (reach fl inn out)) middle) = Some (whole_part (fadd (fadd (centre inn out i) (reach fl inn out)) middle)) ∧
  (0 <= lo <= inn)%Z ∧ (0 <= hi <= inn)%Z ∧ (hi - lo <= slots fl inn out)%Z.
Proof.
  destruct edges as ((Ha & Hae) & (Hb & Hbe) & Hc & Hr). destruct slots_spec as (k & _ & -> & _ & Hk). pose proof inn_real. unfold eps in *.
  unfold from_pixel, upto_pixel.
  set (a := fadd (fsub _ _) _) in *. set (b := fadd (fadd _ _) _) in *.
  destruct (whole_part_spec a Ha) as (-> & Ha1 & Ha2); [apply Rabs_le; lra|].
  destruct (whole_part_spec b Hb) as (-> & Hb1 & Hb2); [apply Rabs_le; lra|].
  specialize (Hb1 ltac:(lra)). split; [done|]. split; [done|].
  assert (0 <= whole_part b)%Z as Hb0 by (apply Z.lt_succ_r, lt_IZR; unfold Z.succ; rewrite plus_IZR; lra).
  assert (whole_part a <= inn)%Z as Hai.
  { destruct (Rlt_le_dec (val a) 0) as [Hn|Hp]; [apply le_IZR; specialize (Ha2 Hn); lra|]. specialize (Ha1 Hp).
    destruct (Z.le_gt_cases (whole_part a) inn) as [|Hgt]; [done|exfalso]. apply (Z.le_succ_l inn), IZR_le in Hgt. unfold Z.succ in Hgt. rewrite plus_IZR in Hgt.
    pose proof reach_facts as (_ & Hre). destruct (radius_facts fl) as (_ & Hrad). destruct stretch_facts as (_ & Hst & _). unfold eps in *.
    assert (/ 2 <= val (radius fl) * val (stretch inn out)) by nra. lra. }
  split; [lia|]. split; [lia|].
  assert (val a - 1 < IZR (Z.max 0 (whole_part a))) as Hmax.
  { destruct (Rlt_le_dec (val a) 0) as [Hn|Hp].
    - apply (Rlt_le_trans _ 0); [lra|]. apply IZR_le. lia.
    - specialize (Ha1 Hp). apply (Rlt_le_trans _ (IZR (whole_part a))); [lra|]. apply IZR_le. lia. }
  assert (IZR (Z.min inn (whole_part b)) <= val b) as Hmin by (apply (Rle_trans _ (IZR (whole_part b))); [apply IZR_le; lia|lra]).
  apply Z.lt_succ_r, lt_IZR. unfold Z.succ. rewrite minus_IZR, !plus_IZR, mult_IZR. lra.
Qed.
(** The first output starts at the first pixel. *)
Lemma first_window : i = 0%Z → lo = 0%Z.
Proof.
  intros Ei. assert (IZR i = 0) as Er by by rewrite Ei. destruct edges as ((Ha & Hae) & _ & Hc & Hr). destruct reach_facts as (_ & Hre).
  destruct (radius_facts fl) as (_ & Hrad). destruct stretch_facts as (_ & Hst & Hle). destruct scale_facts as (_ & Hs0 & _). pose proof inn_real. unfold eps in *.
  assert (/ 2 * val (scale inn out) <= val (radius fl) * val (stretch inn out)) by nra.
  unfold from_pixel. set (a := fadd (fsub _ _) _) in *. rewrite Er in *.
  assert (whole_part a <= 0)%Z; [|lia].
  destruct (whole_part_spec a Ha) as (_ & Ha1 & Ha2); [apply Rabs_le; lra|].
  destruct (Rlt_le_dec (val a) 0) as [Hn|Hp]; [apply le_IZR; specialize (Ha2 Hn); lra|]. specialize (Ha1 Hp).
  apply Z.lt_succ_r, lt_IZR. unfold Z.succ. rewrite plus_IZR. lra.
Qed.
(** The last output ends at the last pixel. *)
Lemma last_window : i = (out - 1)%Z → hi = inn.
Proof.
  intros Ei. destruct edges as (_ & (Hb & Hbe) & Hc & Hr). destruct reach_facts as (_ & Hre).
  destruct (radius_facts fl) as (_ & Hrad). destruct stretch_facts as (_ & Hst & Hle). destruct scale_facts as (_ & Hs0 & Hso). pose proof inn_real. unfold eps in *.
  assert (/ 2 * val (scale inn out) <= val (radius fl) * val (stretch inn out)) by nra.
  assert (IZR i = IZR out - 1) as Er by (rewrite Ei; apply minus_IZR).
  unfold upto_pixel. set (b := fadd (fadd _ _) _) in *. rewrite Er in *.
  assert (inn <= whole_part b)%Z; [|lia].
  destruct (whole_part_spec b Hb) as (_ & Hb1 & _); [apply Rabs_le; lra|].
  assert (IZR inn - / 4 <= val b) as Hbi by lra. specialize (Hb1 ltac:(lra)).
  apply Z.lt_succ_r, lt_IZR. unfold Z.succ. rewrite plus_IZR. lra.
Qed.

(** ** The code's own *)

Lemma centre_positive : 0 < val (centre inn out i).
Proof.
  destruct scale_facts as (Hs & H0 & H1). destruct halfway_val as [Hn E]. pose proof index_real. pose proof inn_real. pose proof out_real.
  assert (/ 8589934592 <= (IZR i + / 2) * val (scale inn out) <= IZR inn + eps) as Hb by (unfold eps in *; nra).
  pose proof (fmul_rounds _ _ Hn Hs) as Hr. rewrite E, Rabs_pos_eq in Hr by lra.
  change (2 ^ 60)%Z with 1152921504606846976%Z in Hr. unfold eps in *. specialize (Hr ltac:(lra)).
  pose proof (r_error _ _ _ _ Hr) as He. rewrite bp_unit, (Rabs_pos_eq ((IZR i + / 2) * _)) in He by lra. pose proof bp_tiny.
  apply abs_between in He. fold (centre inn out i) in He. lra.
Qed.
End output.

Lemma scale_is : scale_of zero (float_of inn) out = scale inn out.
Proof.
  destruct (float_of_exact inn) as [Hf Ef]; [lia|]. destruct (double_of_size inn) as [Hd Ed]; [lia|].
  destruct (widen_exact _ Hf) as [Hw Ew]. pose proof inn_real. unfold scale_of, scale. f_equal.
  transitivity (widen (float_of inn)).
  - f_equal. unfold fsub32. destruct (float_of inn); try by destruct Hf. cbn in Ef. lra.
  - apply double_inj; [done|done|congruence|rewrite Ew, Ef; lra].
Qed.

Local Open Scope Z_scope.

Context (f : filter) (Hf : transform fl = Some f).

Lemma centre_is i : 0 ≤ i < out → fadd (widen zero) (fmul (fadd (double_of i) half) (scale inn out)) = centre inn out i.
Proof.
  intros Hi. pose proof (centre_positive i Hi) as Hp. change (fmul (fadd (double_of i) half) (scale inn out)) with (centre inn out i).
  destruct (centre inn out i); cbn in Hp; [lra|done|done|done].
Qed.

(** A row of the coefficients' buffer. *)
Definition row_at (i : Z) : (Z * Z) * list float64 :=
  ((from_pixel fl inn out i, upto_pixel fl inn out i - from_pixel fl inn out i),
   (share fl inn out i <$> pixels fl inn out i) ++
   replicate (Z.to_nat (slots fl inn out - Z.max (upto_pixel fl inn out i - from_pixel fl inn out i) 0)) zero).
Definition axis_of : axis := (slots fl inn out, row_at <$> seqZ 0 out).

Lemma pixels_shifted i : pixels fl inn out i =
  (λ x, x + from_pixel fl inn out i) <$> seqZ 0 (upto_pixel fl inn out i - from_pixel fl inn out i).
Proof.
  unfold pixels. rewrite <- (Z.add_0_r (from_pixel fl inn out i)) at 1. rewrite <- fmap_add_seqZ. apply list_fmap_ext. intros; lia.
Qed.
Lemma coeffs_at_is i : 0 ≤ i < out →
  coeffs_at inn zero f (scale inn out) (stretch inn out) (reach fl inn out) (slots fl inn out) i = Some (row_at i).
Proof.
  intros Hi. destruct (window_facts i Hi) as (Ha & Hb & Hlo & Hhi & Hn). destruct (transform_kernel fl f Hf) as [Hk _].
  unfold coeffs_at. rewrite centre_is by done. unfold window. change half with middle. rewrite Ha, Hb. cbn [mbind option_bind].
  assert ((if decide (whole_part (fadd (fsub (centre inn out i) (reach fl inn out)) middle) < 0) then 0
           else whole_part (fadd (fsub (centre inn out i) (reach fl inn out)) middle)) = from_pixel fl inn out i) as ->
    by (unfold from_pixel; case_decide; lia).
  assert ((if decide (whole_part (fadd (fadd (centre inn out i) (reach fl inn out)) middle) > inn) then inn
           else whole_part (fadd (fadd (centre inn out i) (reach fl inn out)) middle)) = upto_pixel fl inn out i) as ->
    by (unfold upto_pixel; case_decide; lia).
  unfold int_. rewrite decide_True by (unfold fits_int; lia). cbn [mbind option_bind fst snd].
  unfold weights. rewrite decide_False by lia. cbn [mbind option_bind].
  assert ((λ x, filter_ f (fmul (fadd (fsub (double_of (x + from_pixel fl inn out i)) (centre inn out i)) half) (fdiv one (stretch inn out))))
            <$> seqZ 0 (upto_pixel fl inn out i - from_pixel fl inn out i) = tap fl inn out i <$> pixels fl inn out i) as ->.
  { rewrite pixels_shifted, <- list_fmap_compose. apply list_fmap_ext. intros k x _. cbn. apply Hk. }
  do 2 f_equal. unfold row_at. f_equal. f_equal. rewrite <- list_fmap_compose. apply list_fmap_ext. done.
Qed.

Lemma plan_is : ¬ crowded fl inn out → plan inn zero (float_of inn) out f = Some axis_of.
Proof.
  intros Hc. destruct slots_spec as (c & Hceil & Hs & Hcb & _). destruct (transform_kernel fl f Hf) as [_ Hr].
  unfold plan. rewrite scale_is, Hr. change (fmul (radius fl) _) with (reach fl inn out). rewrite Hceil. cbn [mbind option_bind].
  unfold int_. rewrite decide_True by (unfold fits_int; lia). cbn [mbind option_bind].
  rewrite decide_True by (unfold fits_int; lia). cbn [mbind option_bind].
  rewrite decide_True by (unfold fits_int; lia). cbn [mbind option_bind]. rewrite decide_False by lia.
  rewrite decide_False.
  - replace (c * 2 + 1) with (slots fl inn out) by lia. rewrite (mapM_seqZ _ row_at); [done|]. intros i Hi. by apply coeffs_at_is.
  - intros Hq. apply Hc. unfold crowded. rewrite Hs. rewrite Z.quot_div_nonneg in Hq by lia.
    destruct (Z.lt_ge_cases 2147483647 (8 * (2 * c + 1) * out)) as [|Hle]; [lia|]. exfalso.
    assert (out ≤ 2147483647 / ((c * 2 + 1) * 8)); [|lia]. apply Z.div_le_lower_bound; lia.
Qed.
End axis.

(** ** The integer coefficients *)

Local Open Scope Z_scope.

Lemma add_comm x y : fadd x y = fadd y x.
Proof.
  unfold fadd. destruct x as [[]|[]| |sx mx ex], y as [[]|[]| |sy my ey]; try done. cbn [SFadd].
  rewrite (Z.min_comm ey ex), (Z.add_comm (cond_Zopp sy _)). done.
Qed.
Lemma sub_add x s m e : fsub x (S754_finite s m e) = fadd x (S754_finite (negb s) m e).
Proof.
  unfold fsub, fadd. destruct x as [[]|[]| |sx mx ex]; try done. cbn [SFsub SFadd]. f_equal. destruct s; cbn; lia.
Qed.
Lemma normalize_is w : normalize w = fixed w.
Proof.
  unfold normalize, fixed. change (double_of (2 ^ PRECISION_BITS)) with (double_of 4194304). change zero with nought.
  rewrite add_comm. destruct (SFltb w nought); [|by rewrite add_comm].
  change middle with (S754_finite false 4503599627370496 (-53)). by rewrite sub_add.
Qed.

Section usable.
Context `{Libm} (fl inn out : Z) (Hinn : 1 ≤ inn ≤ 2 ^ 24) (Hout : 1 ≤ out ≤ 2147483647) (Hlight : light fl inn out = true).

Local Abbreviation lo := (from_pixel fl inn out).
Local Abbreviation hi := (upto_pixel fl inn out).
Local Abbreviation rows := (row_at fl inn out <$> seqZ 0 out).

Definition int_row (i : Z) : list Z :=
  (coef fl inn out i <$> pixels fl inn out i) ++ replicate (Z.to_nat (slots fl inn out - Z.max (hi i - lo i) 0)) 0.

Lemma light_row i : 0 ≤ i < out →
  mapM normalize (snd (row_at fl inn out i)) = Some (int_row i) ∧ weight (int_row i) ≤ 8413280.
Proof.
  intros Hi. unfold light in Hlight. rewrite forallb_forall in Hlight. specialize (Hlight i).
  rewrite <- list_elem_of_In, elem_of_seqZ in Hlight. specialize (Hlight ltac:(lia)). unfold light_at in Hlight.
  apply andb_prop in Hlight as [Hok Hsum%bool_decide_eq_true]. rewrite forallb_forall in Hok. split.
  - cbn [row_at snd]. apply mapM_Some. apply Forall2_app.
    + apply Forall2_fmap, Forall_Forall2_diag, Forall_forall. intros j Hj. specialize (Hok j).
      rewrite <- list_elem_of_In, bool_decide_eq_true in Hok. destruct (Hok Hj) as [c Hc]. rewrite normalize_is. unfold coef. by rewrite Hc.
    + apply Forall2_replicate. done.
  - unfold int_row, weight. rewrite foldr_app.
    assert (∀ n, foldr (λ c a, Z.abs c + a) 0 (replicate n 0) = 0) as -> by (intros n; induction n; cbn; lia).
    rewrite foldr_fmap. exact Hsum.
Qed.
Lemma int_row_length i : 0 ≤ i < out → Z.of_nat (length (int_row i)) = slots fl inn out.
Proof.
  intros Hi. destruct (window_facts fl inn out Hinn Hout i Hi) as (_ & _ & _ & _ & Hn).
  destruct (slots_spec fl inn out Hinn Hout) as (c & _ & Hs & Hc & _).
  unfold int_row, pixels. rewrite length_app, length_fmap, length_replicate, length_seqZ. lia.
Qed.
Lemma normalized : normalize_coeffs_8bpc out (snd <$> rows) = Some (int_row <$> seqZ 0 out).
Proof.
  unfold normalize_coeffs_8bpc. rewrite !length_fmap, length_seqZ, decide_False by lia.
  rewrite take_ge by (rewrite !length_fmap, length_seqZ; lia). rewrite <- list_fmap_compose.
  apply mapM_Some. apply Forall2_fmap, Forall_Forall2_diag, Forall_forall. intros i Hi%elem_of_seqZ. cbn. apply light_row. lia.
Qed.
Lemma window_at_is i : 0 ≤ i < out → window_at (fst <$> rows) i = (lo i, hi i - lo i).
Proof. intros Hi. unfold window_at. rewrite !at_fmap, at_seqZ by done. done. Qed.
Lemma coeffs_of_is i : 0 ≤ i < out → coeffs_of out (snd <$> rows) i = int_row i.
Proof. intros Hi. unfold coeffs_of. rewrite normalized. cbn [mbind option_bind]. rewrite at_fmap, at_seqZ by done. done. Qed.

Lemma axis_usable : usable inn out (axis_of fl inn out) = true.
Proof.
  assert (first_of (axis_of fl inn out) = 0) as E0.
  { unfold first_of, axis_of. cbn [snd]. rewrite window_at_is by lia. apply first_window; done || lia. }
  assert (last_of (axis_of fl inn out) out = inn) as E1.
  { unfold last_of, axis_of. cbn [snd]. rewrite window_at_is by lia. cbn [fst snd].
    pose proof (last_window fl inn out Hinn Hout (out - 1) ltac:(lia) eq_refl). lia. }
  unfold usable. rewrite E0, E1. unfold axis_of. cbn [snd].
  assert (∀ i, 0 ≤ i < out → 0 ≤ lo i ∧ hi i ≤ inn ∧ hi i - lo i ≤ slots fl inn out) as Hwin
    by (intros i Hi; destruct (window_facts fl inn out Hinn Hout i Hi) as (_ & _ & ? & ? & ?); lia).
  rewrite !andb_true_iff. split_and!.
  - unfold windows_ok. rewrite normalized. rewrite andb_true_iff. split.
    + apply bool_decide_eq_true. rewrite !length_fmap, length_seqZ. lia.
    + apply forallb_forall. intros [w k] Hin%list_elem_of_In. apply list_elem_of_lookup in Hin as [j Hj].
      apply lookup_zip_Some in Hj as [Hw Hk]. apply list_lookup_fmap_Some in Hw as (r & -> & Hr).
      apply list_lookup_fmap_Some in Hr as (i & -> & Hi). apply list_lookup_fmap_Some in Hk as (i' & -> & Hi').
      assert (i' = i) as -> by congruence. apply lookup_seqZ in Hi. assert (0 ≤ i < out) as Hio by lia.
      apply bool_decide_eq_true. cbn [row_at fst snd]. rewrite int_row_length by done.
      destruct (Hwin i Hio) as (? & ? & ?). pose proof (proj2 (light_row i Hio)). split_and!; lia.
  - apply forallb_forall. intros w Hin%list_elem_of_In. apply list_elem_of_fmap in Hin as (r & -> & Hin).
    apply list_elem_of_fmap in Hin as (i & -> & Hi%elem_of_seqZ). apply bool_decide_eq_true. cbn [row_at fst snd].
    destruct (Hwin i) as (? & ? & ?); [lia|]. lia.
  - apply bool_decide_eq_true. unfold fits_int. lia.
  - apply bool_decide_eq_true. lia.
Qed.

(** An axis of the code is the reference's. *)
Lemma along_is need px i : 0 ≤ i < out → (need = true ↔ out ≠ inn) → along need out (axis_of fl inn out) px i = resampled fl inn out px i.
Proof.
  intros Hi Hneed. unfold along, resampled. destruct need; [rewrite decide_False by tauto|rewrite decide_True; [done|apply dec_stable; intros ?%Hneed; done]].
  unfold axis_of. cbn [snd]. rewrite window_at_is, coeffs_of_is by done. cbn [fst snd]. unfold round8, blend.
  change (2 ^ 21) with 2097152. change (2 ^ 22) with 4194304. do 4 f_equal.
  unfold dot, sum_over. rewrite pixels_shifted, foldr_fmap.
  assert (∀ x, 0 ≤ x < hi i - lo i → at_ (int_row i) x = Some (coef fl inn out i (x + lo i))) as Hat.
  { intros x Hx. apply at_Some. split; [lia|]. unfold int_row. rewrite pixels_shifted, <- list_fmap_compose.
    rewrite lookup_app_l by (rewrite length_fmap, length_seqZ; lia). rewrite list_lookup_fmap, lookup_seqZ_lt by lia. cbn. do 2 f_equal. lia. }
  assert (∀ l, (∀ x, x ∈ l → 0 ≤ x < hi i - lo i) →
    foldr (λ x a, px (x + lo i) * default 0 (at_ (int_row i) x) + a) 0 l = foldr (λ x a, px (x + lo i) * coef fl inn out i (x + lo i) + a) 0 l) as Hl.
  { induction l as [|x l IH]; intros Hx; [done|]. cbn. rewrite Hat by (apply Hx; left). rewrite IH by (intros; apply Hx; by right). done. }
  apply Hl. intros x Hx%elem_of_seqZ. lia.
Qed.
End usable.

(** ** The box and the triangle are light *)

Local Open Scope R_scope.

Definition sum_val (l : list float64) : R := foldr (λ w a, val w + a) 0 l.
Definition weightlike (w : float64) : Prop := double_number w ∧ 0 <= val w <= 1.

Lemma sum_val_app k l : sum_val (k ++ l) = sum_val k + sum_val l.
Proof. unfold sum_val. rewrite foldr_app. induction k as [|w k IH]; cbn; [by rewrite Rplus_0_l|]. rewrite IH. lra. Qed.
Lemma sum_val_nonneg l : Forall weightlike l → 0 <= sum_val l.
Proof. unfold sum_val. induction 1 as [|w l [_ Hw] Hl IH]; cbn; lra. Qed.
Lemma sum_val_in l w : Forall weightlike l → w ∈ l → val w <= sum_val l.
Proof.
  intros Hl (k1 & k2 & ->)%list_elem_of_split. apply Forall_app in Hl as [H1%sum_val_nonneg [_ H2%sum_val_nonneg]%Forall_cons].
  rewrite sum_val_app. cbn. fold (sum_val k2). lra.
Qed.

(** A sum of weights, each step rounded. *)
Lemma sum_facts l : Forall weightlike l → (Z.of_nat (length l) <= 2 ^ 24)%Z →
  double_number (foldl fadd nought l) ∧
  sum_val l * (1 - IZR (Z.of_nat (length l)) / 9007199254740992) <= val (foldl fadd nought l) <= IZR (Z.of_nat (length l)).
Proof.
  induction l as [|w l IH] using rev_ind; intros Hl Hlen.
  { cbn [foldl length sum_val foldr Z.of_nat]. destruct nought_val as [Hn E]. rewrite E. change (Z.of_nat 0) with 0%Z. split; [done|]. lra. }
  apply Forall_app in Hl as [Hl [[Hw Hw1] _]%Forall_cons]. rewrite length_app in *. cbn [length] in *.
  destruct IH as (Hn & Hlo & Hhi); [done|lia|]. rewrite foldl_app, sum_val_app. cbn [foldl sum_val foldr].
  set (t := foldl fadd nought l) in *. pose proof (sum_val_nonneg l Hl) as Hs.
  rewrite Nat2Z.inj_add, plus_IZR. change (Z.of_nat 1) with 1%Z.
  assert (0 <= IZR (Z.of_nat (length l)) <= 16777216) as Hn0 by (split; apply IZR_le; lia).
  set (n := IZR (Z.of_nat (length l))) in *.
  assert (0 <= val t) as Ht0 by nra.
  pose proof (fadd_rounds t w Hn Hw) as Hr. rewrite Rabs_pos_eq in Hr by lra.
  change (2 ^ 60)%Z with 1152921504606846976%Z in Hr. specialize (Hr ltac:(lra)). split; [apply Hr|].
  pose proof (sum_within t w _ Hn Hw Hr ltac:(lra)) as Hsum. split.
  - eapply Rle_trans; [|apply Hsum]. rewrite Rplus_0_r.
    assert ((sum_val l + val w) * (1 - n / 9007199254740992) <= val t + val w) as H1 by nra.
    apply (Rle_trans _ ((sum_val l + val w) * (1 - n / 9007199254740992) * (1 - / 9007199254740992))); [|apply Rmult_le_compat_r; lra].
    rewrite Rmult_assoc. apply Rmult_le_compat_l; lra.
  - destruct (double_of_exact (Z.of_nat (length l) + 1)) as [Hd Ed]; [lia|]. rewrite plus_IZR in Ed. fold n in Ed. rewrite <- Ed.
    eapply (rounds_le 53 1024); [exact Hr|exact Hd|]. rewrite Ed. lra.
Qed.

(** A share in fixed point is little more than twice the share. *)
Lemma fixed_facts y : double_number y → 0 <= val y <= 2 →
  ∃ c, fixed y = Some c ∧ (0 <= c)%Z ∧ IZR c <= 8388616 * val y + / 1073741824.
Proof.
  intros Hy Hb. destruct (double_of_exact 4194304) as [Hp Ep]; [lia|]. destruct nought_val as [Hn En]. destruct middle_val as [Hm Em].
  unfold fixed. assert (SFltb y nought = false) as ->.
  { destruct (SFltb y nought) eqn:E; [|done]. apply ltb_double in E; [|done..]. lra. }
  pose proof (fmul_rounds y (double_of 4194304) Hy Hp) as Hz. rewrite Ep, Rabs_pos_eq in Hz by lra.
  change (2 ^ 60)%Z with 1152921504606846976%Z in Hz. specialize (Hz ltac:(lra)).
  pose proof (r_error _ _ _ _ Hz) as He. rewrite bp_unit, (Rabs_pos_eq (val y * 4194304)) in He by lra. pose proof bp_tiny.
  apply abs_between in He. pose proof (rounds_ge 53 1024 _ _ nought Hz Hn ltac:(lra)) as Hz0. rewrite En in Hz0.
  set (z := fmul y (double_of 4194304)) in *. destruct Hz as [Hzn _ _ _].
  pose proof (fadd_rounds z middle Hzn Hm) as Ht. rewrite Em, Rabs_pos_eq in Ht by lra.
  change (2 ^ 60)%Z with 1152921504606846976%Z in Ht. specialize (Ht ltac:(lra)).
  pose proof Ht as Ht'. rewrite <- Em in Ht'. pose proof (sum_within z middle _ Hzn Hm Ht' ltac:(lra)) as Hs. rewrite Em in Hs.
  destruct Ht as [[Htn _] _ _ _]. destruct (trunc_spec _ Htn) as (c & -> & Hc & _).
  { rewrite Rabs_pos_eq by lra. lra. }
  specialize (Hc ltac:(lra)). exists c. assert (0 <= c)%Z as Hc0.
  { apply Z.lt_succ_r, lt_IZR. unfold Z.succ. rewrite plus_IZR. lra. }
  split_and!; [done|done|]. destruct (Z.eq_dec c 0) as [->|Hne]; [lra|].
  assert (1 <= c)%Z as Hc1%IZR_le by lia. lra.
Qed.

Section light.
Context `{Libm} (fl inn out : Z) (Hinn : (1 <= inn <= 2 ^ 24)%Z) (Hout : (1 <= out <= 2147483647)%Z).
Context (Hfl : fl = IMAGING_TRANSFORM_BOX ∨ fl = IMAGING_TRANSFORM_BILINEAR).

Lemma kernel_weightlike x : double_number x → weightlike (kernel fl x).
Proof.
  intros Hx. destruct unity_val as [Hu Eu]. destruct nought_val as [Hn En].
  assert (weightlike unity) as H1 by (split; [done|lra]). assert (weightlike nought) as H0 by (split; [done|lra]).
  destruct Hfl as [->| ->]; unfold kernel; cbn [decide IMAGING_TRANSFORM_BOX IMAGING_TRANSFORM_BILINEAR].
  - rewrite decide_True by done. unfold box_kernel. by destruct (_ && _).
  - rewrite decide_False, decide_True by done. unfold tent_kernel.
    assert (double_number (SFabs x) ∧ 0 <= val (SFabs x)) as [Ha Ha0].
    { split; [by destruct x|]. destruct x as [s|s| |s m e]; cbn; try lra. pose proof (bp_pos e). pose proof (IZR_le 0 (Zpos m) ltac:(lia)). nra. }
    destruct (SFltb (SFabs x) unity) eqn:E; [|done]. apply ltb_double in E; [|done..]. rewrite Eu in E.
    pose proof (fsub_rounds unity (SFabs x) Hu Ha) as Hr. rewrite Eu, Rabs_pos_eq in Hr by lra.
    change (2 ^ 60)%Z with 1152921504606846976%Z in Hr. specialize (Hr ltac:(lra)). split; [apply Hr|].
    pose proof (rounds_ge 53 1024 _ _ nought Hr Hn ltac:(lra)). pose proof (rounds_le 53 1024 _ _ unity Hr Hu ltac:(lra)). lra.
Qed.

Section output.
Context (i : Z) (Hi : (0 <= i < out)%Z).
Local Abbreviation js := (pixels fl inn out i).
Local Abbreviation ws := (tap fl inn out i <$> js).

Lemma pixels_few : (Z.of_nat (length js) <= 2 ^ 24)%Z.
Proof.
  destruct (window_facts fl inn out Hinn Hout i Hi) as (_ & _ & ? & ? & _). unfold pixels. rewrite length_seqZ. lia.
Qed.
Lemma tap_weightlike j : j ∈ js → weightlike (tap fl inn out i j).
Proof.
  intros Hj. apply elem_of_seqZ in Hj. destruct (window_facts fl inn out Hinn Hout i Hi) as (_ & _ & Hlo & Hhi & _).
  apply kernel_weightlike. destruct (double_of_size j) as [Hd Ed]; [lia|].
  destruct (centre_facts inn out Hinn Hout i Hi) as (Hc & Hce & Hcb). destruct (stretch_facts inn out Hinn Hout) as (Hs & Hst & _).
  destruct middle_val as [Hm Em]. destruct unity_val as [Hu Eu]. pose proof (inn_real inn Hinn) as Hir. unfold eps in *.
  assert (0 <= IZR j <= 16777216) as Hjr by (split; apply IZR_le; lia).
  pose proof (fsub_rounds _ _ Hd Hc) as Hr. rewrite Ed in Hr. change (2 ^ 60)%Z with 1152921504606846976%Z in Hr. specialize (Hr ltac:(apply Rabs_le; lra)).
  pose proof (rounds_within 33554432 _ _ Hr ltac:(lra)) as Hw. destruct Hr as [Hx _ _ _]. set (x := fsub _ _) in *.
  pose proof (fadd_rounds x middle Hx Hm) as Hr. rewrite Em in Hr. change (2 ^ 60)%Z with 1152921504606846976%Z in Hr. specialize (Hr ltac:(apply Rabs_le; lra)).
  pose proof (rounds_within 33554440 _ _ Hr ltac:(lra)) as Hw2. destruct Hr as [Hy _ _ _]. set (y := fadd x middle) in *.
  assert (0 < 1 / val (stretch inn out) <= 1) as Hq.
  { split; [apply Rdiv_lt_0_compat; lra|]. apply (Rmult_le_reg_r (val (stretch inn out))); [lra|]. unfold Rdiv. rewrite Rmult_assoc, Rinv_l by lra. lra. }
  pose proof (fdiv_rounds unity _ Hu Hs ltac:(lra)) as Hr. rewrite Eu, Rabs_pos_eq in Hr by lra. change (2 ^ 60)%Z with 1152921504606846976%Z in Hr. specialize (Hr ltac:(lra)).
  pose proof (rounds_within 1 _ _ Hr ltac:(lra)) as Hw3. destruct Hr as [Hv _ _ _]. set (v := fdiv unity _) in *.
  pose proof (fmul_rounds y v Hy Hv) as Hr. change (2 ^ 60)%Z with 1152921504606846976%Z in Hr.
  destruct (Hr ltac:(rewrite Rabs_mult; assert (Rabs (val y) <= 33554450) by (apply Rabs_le; lra); assert (Rabs (val v) <= 2) by (apply Rabs_le; lra); pose proof (Rabs_pos (val y)); pose proof (Rabs_pos (val v)); nra)); done.
Qed.
Lemma taps_weightlike : Forall weightlike ws.
Proof. apply Forall_fmap, Forall_forall. intros j Hj. by apply tap_weightlike. Qed.

(** A share is a double from nought to two, by its part of the whole. *)
Lemma share_facts : ∃ q, 0 <= q ∧ sum_val ws * q <= 1 + / 16777216 ∧ ∀ j, j ∈ js →
  double_number (share fl inn out i j) ∧ 0 <= val (share fl inn out i j) <= 2 ∧
  val (share fl inn out i j) <= val (tap fl inn out i j) * q * (1 + / 9007199254740992) + / 1152921504606846976.
Proof.
  pose proof taps_weightlike as Hws. destruct (sum_facts ws Hws) as (Ht & Hlo & Hhi); [rewrite length_fmap; apply pixels_few|].
  fold (total fl inn out i) in Ht, Hlo, Hhi. pose proof (sum_val_nonneg _ Hws) as Hs0. destruct nought_val as [Hn En].
  assert (IZR (Z.of_nat (length ws)) <= 16777216) as Hlen by (apply IZR_le; rewrite length_fmap; apply pixels_few).
  assert (sum_val ws * (1 - / 536870912) <= val (total fl inn out i)) as Hlow by nra.
  assert (∀ j, j ∈ js → val (tap fl inn out i j) <= sum_val ws) as Hle.
  { intros j Hj. apply sum_val_in; [done|]. by apply list_elem_of_fmap_2. }
  unfold share. destruct (SFeqb (total fl inn out i) nought) eqn:E.
  - apply eqb_double in E; [|done..]. rewrite En in E. exists 0. split_and!; [lra|lra|]. intros j Hj. specialize (Hle j Hj).
    destruct (tap_weightlike j Hj) as [Htap Hv]. split_and!; try done; lra.
  - assert (val (total fl inn out i) ≠ 0) as Hne by (intros E0; rewrite <- En in E0; apply eqb_double in E0; [congruence|done..]).
    assert (0 < val (total fl inn out i)) as Hpos by (assert (0 <= val (total fl inn out i)) by nra; lra).
    set (t := val (total fl inn out i)) in *.
    assert (sum_val ws * / t <= 1 + / 16777216) as Hq.
    { apply (Rmult_le_reg_r t); [done|]. rewrite Rmult_assoc, Rinv_l by lra. lra. }
    assert (0 < / t) as Hinv by by apply Rinv_0_lt_compat.
    exists (/ t). split; [lra|]. split; [done|]. intros j Hj. specialize (Hle j Hj). destruct (tap_weightlike j Hj) as [Htap Hv].
    assert (0 <= val (tap fl inn out i j) * / t <= 1 + / 16777216) as Hp by (split; nra).
    pose proof (fdiv_rounds _ _ Htap Ht Hne) as Hr. fold t in Hr. unfold Rdiv in Hr. rewrite Rabs_pos_eq in Hr by lra.
    change (2 ^ 60)%Z with 1152921504606846976%Z in Hr. specialize (Hr ltac:(lra)).
    pose proof (rounds_ge 53 1024 _ _ nought Hr Hn ltac:(lra)) as H0. rewrite En in H0.
    pose proof (r_error _ _ _ _ Hr) as He. rewrite bp_unit, (Rabs_pos_eq (_ * / t)) in He by lra. pose proof bp_tiny.
    apply abs_between in He. split_and!; [apply Hr|lra|lra|lra].
Qed.

Lemma light_at_nonneg : light_at fl inn out i = true.
Proof.
  destruct share_facts as (q & Hq & Hsum & Hshare).
  assert (∀ j, j ∈ js → ∃ c, fixed (share fl inn out i j) = Some c ∧ (0 <= c)%Z ∧ IZR c <= 8388617 * (val (tap fl inn out i j) * q) + / 536870912) as Hc.
  { intros j Hj. destruct (Hshare j Hj) as (Hn & Hb & Hv). destruct (fixed_facts _ Hn Hb) as (c & ? & ? & Hcv). exists c.
    split_and!; [done|done|]. destruct (tap_weightlike j Hj) as [_ Ht].
    assert (0 <= val (tap fl inn out i j) * q) by nra. lra. }
  unfold light_at. apply andb_true_intro. split.
  - apply forallb_forall. intros j Hj%list_elem_of_In. destruct (Hc j Hj) as (c & E & _). rewrite E. by apply bool_decide_eq_true.
  - apply bool_decide_eq_true.
    assert (∀ l, (∀ j, j ∈ l → j ∈ js) → IZR (sum_over l (λ j, Z.abs (coef fl inn out i j))) <=
      8388617 * (sum_val (tap fl inn out i <$> l) * q) + IZR (Z.of_nat (length l)) * / 536870912) as Hl.
    { induction l as [|j l IH]; intros Hin; [change (0 <= 8388617 * (0 * q) + 0 * / 536870912); lra|]. cbn [sum_over foldr fmap list_fmap sum_val length].
      rewrite plus_IZR, Nat2Z.inj_succ. unfold Z.succ. rewrite plus_IZR. specialize (IH ltac:(intros; apply Hin; by right)).
      unfold sum_over, sum_val in IH. destruct (Hc j ltac:(apply Hin; left)) as (c & E & Hc0 & Hcv). unfold coef at 1. rewrite E. change (default 0%Z (Some c)) with c.
      rewrite Z.abs_eq by done. lra. }
    specialize (Hl js ltac:(done)). assert (IZR (Z.of_nat (length js)) <= 16777216) by (apply IZR_le, pixels_few).
    apply Z.lt_succ_r, lt_IZR. unfold Z.succ. rewrite plus_IZR. lra.
Qed.
End output.

Lemma light_nonneg : light fl inn out = true.
Proof. apply forallb_forall. intros i Hi%list_elem_of_In%elem_of_seqZ. apply light_at_nonneg. lia. Qed.
End light.

(** ** The reference reads inside its axis *)

Local Open Scope Z_scope.

Lemma resampled_ext `{Libm} fl inn out px px' i : (∀ j, (j ∈ pixels fl inn out i ∨ j = i ∧ out = inn) → px j = px' j) →
  resampled fl inn out px i = resampled fl inn out px' i.
Proof.
  intros Hpx. unfold resampled. case_decide; [apply Hpx; auto|]. unfold blend. do 4 f_equal. unfold sum_over.
  assert (∀ j, j ∈ pixels fl inn out i → px j = px' j) as Hpx' by auto. clear Hpx.
  induction (pixels fl inn out i) as [|j l IH]; [done|]. cbn. rewrite (Hpx' j) by left. rewrite IH by (intros; apply Hpx'; by right). done.
Qed.
Lemma resampled_inside `{Libm} fl inn out (Hinn : 1 ≤ inn ≤ 2 ^ 24) (Hout : 1 ≤ out ≤ 2147483647) i px px' : 0 ≤ i < out →
  (∀ j, 0 ≤ j < inn → px j = px' j) → resampled fl inn out px i = resampled fl inn out px' i.
Proof.
  intros Hi Hpx. apply resampled_ext. intros j [Hj%elem_of_seqZ|[-> <-]]; apply Hpx; [|done].
  destruct (window_facts fl inn out Hinn Hout i Hi) as (_ & _ & ? & ? & _). lia.
Qed.

(** ** Too many coefficients *)

Section crowded.
Context `{Libm} (fl inn out : Z) (Hinn : 1 ≤ inn ≤ 2 ^ 24) (Hout : 1 ≤ out ≤ 2147483647).
Context (f : filter) (Hf : transform fl = Some f).

Lemma wp_precompute_crowded s0 s ims L :
  holds s0 s ims L → crowded fl inn out →
  wp (precompute_coeffs inn zero (float_of inn) out f) (λ r s', r = None ∧ holds s0 s' ims L ∧ pil_error s' = Some oom) no_wait s.
Proof.
  intros H0 Hc. destruct (slots_spec fl inn out Hinn Hout) as (c & Hceil & Hs & Hcb & _). destruct (transform_kernel fl f Hf) as [_ Hr].
  unfold precompute_coeffs. rewrite (scale_is inn out Hinn), Hr. cbv zeta.
  change (fmul (radius fl) _) with (reach fl inn out). wp_step. eapply wp_known; [exact Hceil|].
  wp_step. eapply wp_known; [unfold int_; rewrite decide_True by (unfold fits_int; lia); cbn [mbind option_bind]; rewrite decide_True by (unfold fits_int; lia); done|].
  wp_step. eapply wp_known; [unfold int_; rewrite decide_True by (unfold fits_int; lia); done|].
  rewrite decide_False by lia. rewrite decide_True.
  - unfold ImagingError_MemoryError, error. wp_steps. split_and!; [done|by apply holds_error|done].
  - unfold crowded in Hc. rewrite Hs in Hc. rewrite Z.quot_div_nonneg by lia.
    assert (2147483647 / ((c * 2 + 1) * 8) < out); [|lia]. apply Z.div_lt_upper_bound; lia.
Qed.
(** The lines of an image that is not are no longer than an int. *)
Lemma uncrowded_fits : ¬ crowded fl inn out → 4 * out ≤ 2147483647.
Proof. destruct (slots_spec fl inn out Hinn Hout) as (c & _ & Hs & Hcb & _). unfold crowded. rewrite Hs. nia. Qed.
End crowded.
