(* ===== verification/Resized.v ===== *)
(** * pil_resample_8u, from the caller's bytes to the caller's bytes

    What library(opencv) gets from pil-resample.c: the source's bytes resized
    along the rows and then down the columns, in the destination's rows and
    nowhere else; or the word that memory ran out; and in either case nothing
    kept. *)
From Stdlib Require Import Floats.SpecFloat.
From S2P Require Import Prelude Effect Float Rounding Imaging Resample Kernels Convolve Holding TwoPass Windows.

Local Open Scope Z_scope.

(** ** Arrays of the caller's *)

Definition bytes_ok (l : list Z) : Prop := Forall (λ b, 0 ≤ b < 256) l.
(** [h] rows of [n] bytes, [step] apart, are in the array. *)
Definition rows_in (l : list Z) (h n step : Z) : Prop :=
  0 ≤ step ∧ ∀ y, 0 ≤ y < h → y * step + n ≤ Z.of_nat (length l).
Definition byte_of_ (l : list Z) (i : Z) : Z := default 0 (at_ l i).

Lemma mapM_seqZ_at {B} (f : Z → option B) (g : Z → B) i n :
  (∀ j, 0 ≤ j < n → f (i + j) = Some (g j)) → mapM f (seqZ i n) = Some (g <$> seqZ 0 n).
Proof.
  intros Hf. apply mapM_Some. rewrite <- (Z.add_0_r i) at 1. rewrite <- fmap_add_seqZ.
  apply Forall2_fmap, Forall_Forall2_diag, Forall_forall. intros j Hj%elem_of_seqZ. apply Hf. lia.
Qed.
Lemma bytes_at_spec l i n :
  0 ≤ i → i + n ≤ Z.of_nat (length l) → bytes_at l i n = Some ((λ j, byte_of_ l (i + j)) <$> seqZ 0 n).
Proof.
  intros Hi Hn. apply mapM_seqZ_at. intros j Hj. unfold byte_of_. destruct (at_is_Some l (i + j)) as [c ->]; [lia|done].
Qed.
Lemma byte_of_range l i : bytes_ok l → 0 ≤ byte_of_ l i < 256.
Proof.
  intros Hl. unfold byte_of_. destruct (at_ l i) as [c|] eqn:E; cbn; [|lia]. apply at_Some in E as [_ E].
  exact (Forall_lookup_1 _ _ _ _ Hl E).
Qed.
Lemma at_blocks {A} (f : Z → Z → A) w n x c :
  0 ≤ x < n → 0 ≤ c < w → at_ (concat ((λ x, (λ c, f x c) <$> seqZ 0 w) <$> seqZ 0 n)) (x * w + c) = Some (f x c).
Proof.
  intros Hx Hc. rewrite (at_concat _ w x c ((λ c, f x c) <$> seqZ 0 w)); [by rewrite at_fmap, at_seqZ| | |done].
  - apply Forall_fmap, Forall_forall. intros i _. cbn. rewrite length_fmap, length_seqZ. lia.
  - by rewrite at_fmap, at_seqZ.
Qed.

(** ** In *)

Section source.
Context (m : bytes) (channels w h step : Z) (src : list Z) (b i : nat).
Context (Hch : channels = 1 ∧ size_of m = 1 ∨ (channels = 3 ∨ channels = 4) ∧ size_of m = 4).
Context (Hw : 1 ≤ w) (Hh : 1 ≤ h) (Hsrc : rows_in src h (w * channels) step) (Hbytes : bytes_ok src).

(** The source, channel by channel. *)
Definition source (c y x : Z) : Z := byte_of_ src (y * step + x * channels + c).
Definition source_line (y : Z) : list Z :=
  concat ((λ x, (λ c, if decide (c < channels) then source c y x else 0) <$> seqZ 0 (size_of m)) <$> seqZ 0 w).

Lemma source_bytes y : 0 ≤ y < h → bytes_at src (y * step) (w * channels) = Some ((λ j, byte_of_ src (y * step + j)) <$> seqZ 0 (w * channels)).
Proof. intros Hy. destruct Hsrc as [Hs Hr]. apply bytes_at_spec; [nia|by apply Hr]. Qed.

Lemma spread_blank y : 0 ≤ y < h → size_of m = 4 →
  spread channels (replicate (Z.to_nat (w * 4)) 0) ((λ j, byte_of_ src (y * step + j)) <$> seqZ 0 (w * channels)) w = Some (source_line y).
Proof.
  intros Hy Hm. unfold spread, source_line. rewrite Hm.
  rewrite (mapM_seqZ _ (λ x, (λ c, if decide (c < channels) then source c y x else 0) <$> seqZ 0 4)); [done|].
  intros x Hx. assert (1 ≤ channels ≤ 4) as Hc by (destruct Hch as [[-> _]|[[->| ->] _]]; lia).
  assert ((x + 1) * channels ≤ w * channels) by (apply Z.mul_le_mono_nonneg_r; lia).
  assert (0 ≤ x * channels) by (apply Z.mul_nonneg_nonneg; lia).
  rewrite (bytes_at_spec _ (x * channels) channels) by (rewrite ?length_fmap, ?length_seqZ; lia). cbn [mbind option_bind].
  rewrite bytes_at_spec by (rewrite ?length_replicate; lia). cbn [mbind option_bind]. f_equal.
  apply list_eq. intros k. destruct (decide (k < 4)%nat) as [Hk|Hk]; cycle 1.
  { rewrite !lookup_ge_None_2; [done|rewrite length_fmap, length_seqZ; lia|rewrite length_app, !length_fmap, !length_seqZ; lia]. }
  rewrite list_lookup_fmap, lookup_app, !list_lookup_fmap.
  rewrite (proj2 (lookup_seqZ 0 4 k (Z.of_nat k))) by lia. cbn [fmap option_fmap option_map].
  destruct (decide (Z.of_nat k < channels)) as [Hkc|Hkc].
  - rewrite (proj2 (lookup_seqZ 0 channels k (Z.of_nat k))) by lia. cbn [fmap option_fmap option_map].
    unfold byte_of_ at 1, source. rewrite at_fmap, at_seqZ by lia. cbn. do 2 f_equal. lia.
  - rewrite (lookup_seqZ_ge 0 channels k) by lia. cbn [fmap option_fmap option_map].
    rewrite length_fmap, length_seqZ. rewrite (proj2 (lookup_seqZ 0 (4 - channels) _ (Z.of_nat k - channels))) by lia.
    cbn. f_equal. unfold byte_of_. destruct (at_ _ _) as [z|] eqn:E; [|done]. apply at_Some in E as [_ E].
    by apply lookup_replicate in E as [-> _].
Qed.

(** The source as an image of the shim's. *)
Lemma fill_in_blank : ∃ im,
  fill_in (blank m w h b i) src w h channels step = Some im ∧ shaped m w h b i im ∧
  ∀ c y x, 0 ≤ c < channels → 0 ≤ y < h → 0 ≤ x < w → get im c y x = source c y x.
Proof.
  assert (size_of m = 1 ∨ size_of m = 4) as Hsz by tauto.
  assert (0 < channels ≤ size_of m) as Hcs by (destruct Hch as [[-> ->]|[[->| ->] ->]]; lia).
  assert (∀ y, Z.of_nat (length (source_line y)) = w * size_of m) as Hlen.
  { intros y. unfold source_line. rewrite (length_concat_blocks _ (size_of m)).
    - rewrite length_fmap, length_seqZ. lia.
    - apply Forall_fmap, Forall_forall. intros x _. cbn. rewrite length_fmap, length_seqZ. lia. }
  exists (set_lines (source_line <$> seqZ 0 h) (blank m w h b i)). split_and!.
  - unfold fill_in. rewrite (mapM_seqZ _ source_line).
    + cbn [mbind option_bind]. apply put_lines_all; cbn [lines blank].
      * rewrite length_fmap, length_seqZ, length_replicate. lia.
      * apply Forall2_same_length_lookup_2; [rewrite length_fmap, length_seqZ, length_replicate; lia|].
        intros k l old Hl Ho. apply list_lookup_fmap_Some in Hl as (y & -> & _). apply lookup_replicate in Ho as [-> _].
        rewrite length_replicate. specialize (Hlen y). lia.
    + intros y Hy. pose proof (source_bytes y Hy) as Hb. destruct Hch as [[Hc1 Hs1]|[Hc1 Hs1]].
      * rewrite decide_True by done. rewrite Hc1, Z.mul_1_r in Hb. rewrite Hb. f_equal. unfold source_line, source. rewrite Hc1, Hs1.
        change (seqZ 0 1) with [0]. cbn [fmap list_fmap].
        generalize (seqZ 0 w). intros xs. induction xs as [|x xs IH]; [done|].
        cbn [fmap list_fmap concat app]. f_equal; [rewrite decide_True by lia; f_equal; lia|exact IH].
      * rewrite decide_False by lia. rewrite Hb. cbn [mbind option_bind].
        assert (at_ (lines (blank m w h b i)) y = Some (replicate (Z.to_nat (w * size_of m)) 0)) as ->.
        { apply at_Some. split; [lia|]. cbn. apply lookup_replicate. split; [done|lia]. }
        cbn [mbind option_bind]. rewrite Hs1. by apply spread_blank.
  - split; [done|]. split; cbn [xsize ysize image8 pixelsize linesize lines set_lines blank]; try lia; try done.
    + unfold size_of. by case_decide.
    + rewrite length_fmap, length_seqZ. lia.
    + apply Forall_fmap, Forall_forall. intros y _. apply Hlen.
    + apply Forall_fmap, Forall_forall. intros y _. cbn. unfold source_line. apply Forall_concat, Forall_fmap, Forall_forall.
      intros x _. cbn. apply Forall_fmap, Forall_forall. intros c _. cbn. case_decide; [by apply byte_of_range|lia].
  - intros c y x Hc Hy Hx. unfold get, byte_at. cbn [lines set_lines pixelsize blank].
    rewrite at_fmap, at_seqZ by done. cbn [fmap option_fmap option_map mbind option_bind].
    unfold source_line. rewrite at_blocks by lia. cbn. by rewrite decide_True by lia.
Qed.

Lemma wp_source_in {A} s s1 p (k : P A) Q :
  holds s s1 (<[p := blank m w h b i]> ∅) [i; b] → images s !! p = None →
  (∀ im s2, shaped m w h b i im → (∀ c y x, 0 ≤ c < channels → 0 ≤ y < h → 0 ≤ x < w → get im c y x = source c y x) →
     holds s s2 (<[p := im]> ∅) [i; b] → wp k Q no_wait s2) →
  wp (im <- deref p ;; im <- known (fill_in im src w h channels step) ;; store p im ;; k) Q no_wait s1.
Proof.
  intros H1 Hp0 Hk. assert (images s1 !! p = Some (blank m w h b i)) as Hp1 by (eapply holds_image; [done|apply lookup_insert_eq]).
  wp_step. eapply wp_mono; [by eapply wp_deref| |done]. cbv beta. intros ? ? [-> ->]. wp_step.
  destruct fill_in_blank as (im & Hfill & Him & Hsource). eapply wp_known; [exact Hfill|]. wp_step.
  eapply wp_mono; [apply (wp_store s _ _ p im _ H1 Hp0)| |done].
  { apply (h_next _ _ _ _ H1). right. by eexists. }
  cbv beta. intros _ s2 [H2 _]. rewrite insert_insert_eq in H2. by apply (Hk im).
Qed.
End source.

(** ** Out *)

Lemma put_bytes_at dst i l dst' j :
  put_bytes dst i l = Some dst' →
  at_ dst' j = (if decide (i ≤ j < i + Z.of_nat (length l)) then at_ l (j - i) else at_ dst j) ∧ length dst' = length dst.
Proof.
  unfold put_bytes. case_decide as Hi; [|done]. intros [= <-]. split; [|apply length_inserts].
  case_decide as Hj.
  - unfold at_. rewrite !decide_True by lia. rewrite list_lookup_inserts by lia. f_equal. lia.
  - unfold at_. case_decide; [|done]. destruct (decide (j < i)).
    + apply list_lookup_inserts_lt. lia.
    + apply list_lookup_inserts_ge. lia.
Qed.

Section sink.
Context (m : bytes) (channels outw outh step : Z) (dst : list Z) (b i : nat) (o : imaging).
Context (Hch : channels = 1 ∧ size_of m = 1 ∨ (channels = 3 ∨ channels = 4) ∧ size_of m = 4).
Context (Hw : 1 ≤ outw) (Hh : 1 ≤ outh) (Hdst : rows_in dst outh (outw * channels) step) (Hstep : outw * channels ≤ step).
Context (Ho : shaped m outw outh b i o).

Definition sink_line (y : Z) : list Z :=
  concat ((λ x, (λ c, get o c y x) <$> seqZ 0 channels) <$> seqZ 0 outw).
Lemma sink_line_length y : Z.of_nat (length (sink_line y)) = outw * channels.
Proof.
  assert (0 < channels) by (destruct Hch as [[-> _]|[[->| ->] _]]; lia).
  unfold sink_line. rewrite (length_concat_blocks _ channels).
  - rewrite length_fmap, length_seqZ. lia.
  - apply Forall_fmap, Forall_forall. intros x _. cbn. rewrite length_fmap, length_seqZ. lia.
Qed.

(** One line as the caller gets it. *)
Lemma sink_row y : 0 ≤ y < outh → ∃ s, at_ (lines o) y = Some s ∧
  (if decide (channels = 1) then bytes_at s 0 outw else gather channels s outw) = Some (sink_line y).
Proof.
  intros Hy. pose proof (shaped_wf _ _ _ _ _ _ Ho) as Hwf.
  destruct (at_is_Some (lines o) y) as [s Hs]; [rewrite (wi_count _ Hwf), (shaped_y _ _ _ _ _ _ Ho); lia|].
  exists s. split; [done|].
  assert (0 < channels ≤ size_of m) as Hcs by (destruct Hch as [[-> ->]|[[->| ->] ->]]; lia).
  assert (∀ c x, 0 ≤ x < outw → 0 ≤ c < size_of m → at_ s (x * size_of m + c) = Some (get o c y x)) as Hg.
  { intros c x Hx Hc. pose proof (byte_at_get o c y x Hwf) as Hb. rewrite (shaped_y _ _ _ _ _ _ Ho), (shaped_x _ _ _ _ _ _ Ho), (shaped_pixel _ _ _ _ _ _ Ho) in Hb.
    destruct (Hb Hy Hx Hc) as [Hb' _]. unfold byte_at in Hb'. by rewrite Hs in Hb'. }
  destruct Hch as [[Hc1 Hs1]|[Hc1 Hs1]].
  - rewrite decide_True by done. unfold bytes_at, sink_line. rewrite Hc1. change (seqZ 0 1) with [0]. cbn [fmap list_fmap].
    rewrite (mapM_seqZ _ (λ x, get o 0 y x)).
    + f_equal. generalize (seqZ 0 outw). intros xs. induction xs as [|x xs IH]; [done|]. cbn. f_equal. exact IH.
    + intros x Hx. specialize (Hg 0 x Hx ltac:(lia)). rewrite Hs1 in Hg. replace (x * 1 + 0) with x in Hg by lia. exact Hg.
  - rewrite decide_False by lia. unfold gather, sink_line.
    rewrite (mapM_seqZ _ (λ x, (λ c, get o c y x) <$> seqZ 0 channels)); [done|]. intros x Hx. apply mapM_seqZ_at.
    intros c Hc. rewrite Hs1 in Hg. apply Hg; lia.
Qed.

(** The lines in the caller's array, and the rest as it was. *)
Lemma take_out_all : ∃ dst', take_out o dst outw outh channels step = Some dst' ∧ length dst' = length dst ∧
  (∀ c y x, 0 ≤ c < channels → 0 ≤ y < outh → 0 ≤ x < outw → at_ dst' (y * step + x * channels + c) = Some (get o c y x)) ∧
  (∀ j, (∀ y, 0 ≤ y < outh → ¬ y * step ≤ j < y * step + outw * channels) → at_ dst' j = at_ dst j).
Proof.
  destruct Hdst as [Hs0 Hrows].
  assert (0 < channels) as Hc0 by (destruct Hch as [[-> _]|[[->| ->] _]]; lia).
  assert (∀ n : nat, Z.of_nat n ≤ outh → ∃ dst', foldl (λ o' y, d ← o'; s ← at_ (lines o) y;
      r ← (if decide (channels = 1) then bytes_at s 0 outw else gather channels s outw); put_bytes d (y * step) r)
      (Some dst) (seqZ 0 (Z.of_nat n)) = Some dst' ∧ length dst' = length dst ∧
    (∀ c y x, 0 ≤ c < channels → 0 ≤ y < Z.of_nat n → 0 ≤ x < outw → at_ dst' (y * step + x * channels + c) = Some (get o c y x)) ∧
    (∀ j, (∀ y, 0 ≤ y < Z.of_nat n → ¬ y * step ≤ j < y * step + outw * channels) → at_ dst' j = at_ dst j)) as Hgo.
  { induction n as [|n IH]; intros Hn.
    { exists dst. split_and!; [done|done|intros; lia|done]. }
    destruct IH as (d & Hd & Hlen & Hin & Hout); [lia|].
    rewrite Nat2Z.inj_succ, <- Z.add_1_r, seqZ_app, foldl_app, Hd by lia. change (seqZ (0 + Z.of_nat n) 1) with [Z.of_nat n].
    cbn [foldl mbind option_bind]. destruct (sink_row (Z.of_nat n)) as (s & -> & Hrow); [lia|]. cbn [mbind option_bind].
    rewrite Hrow. cbn [mbind option_bind]. pose proof (sink_line_length (Z.of_nat n)) as Hll.
    specialize (Hrows (Z.of_nat n) ltac:(lia)).
    destruct (put_bytes d (Z.of_nat n * step) (sink_line (Z.of_nat n))) as [d'|] eqn:Ed; cycle 1.
    { unfold put_bytes in Ed. rewrite decide_True in Ed; [done|]. rewrite Hlen, Hll. nia. }
    pose proof (λ j, put_bytes_at _ _ _ _ j Ed) as Hput.
    exists d'. split_and!; [done|by rewrite (proj2 (Hput 0))| |].
    - intros c y x Hc Hy Hx. rewrite (proj1 (Hput _)), Hll.
      assert (0 ≤ x * channels) by (apply Z.mul_nonneg_nonneg; lia).
      assert ((x + 1) * channels ≤ outw * channels) by (apply Z.mul_le_mono_nonneg_r; lia).
      destruct (decide (y = Z.of_nat n)) as [->|Hne].
      + rewrite decide_True by lia. replace (_ - _) with (x * channels + c) by lia.
        unfold sink_line. by apply (at_blocks (λ x c, get o c (Z.of_nat n) x)).
      + assert ((y + 1) * step ≤ Z.of_nat n * step) by (apply Z.mul_le_mono_nonneg_r; lia).
        rewrite decide_False by lia. apply Hin; lia.
    - intros j Hj. rewrite (proj1 (Hput _)), Hll, decide_False by (apply Hj; lia). apply Hout. intros y Hy. apply Hj. lia. }
  destruct (Hgo (Z.to_nat outh)) as (dst' & H1 & H2 & H3 & H4); [lia|]. rewrite Z2Nat.id in * by lia.
  exists dst'. split_and!; [exact H1|done|exact H3|exact H4].
Qed.

Lemma wp_sink_out s s1 q :
  holds s s1 (<[q := o]> ∅) [i; b] →
  wp (o <- deref q ;; dst <- known (take_out o dst outw outh channels step) ;; ImagingDelete (Some q) ;; ret (None : option bytes, dst))
     (λ '(e, dst') s', holds s s' ∅ [] ∧ e = None ∧ length dst' = length dst ∧
        (∀ c y x, 0 ≤ c < channels → 0 ≤ y < outh → 0 ≤ x < outw → at_ dst' (y * step + x * channels + c) = Some (get o c y x)) ∧
        (∀ j, (∀ y, 0 ≤ y < outh → ¬ y * step ≤ j < y * step + outw * channels) → at_ dst' j = at_ dst j)) no_wait s1.
Proof.
  intros H1. wp_step. eapply wp_mono; [apply (wp_deref q o); eapply holds_image; [done|apply lookup_insert_eq]| |done].
  cbv beta. intros ? ? [-> ->]. wp_step. destruct take_out_all as (dst' & Hout & Hlen & Hin & Hrest).
  eapply wp_known; [exact Hout|]. wp_step. eapply wp_mono; [by eapply (wp_drop_made m s s1 ∅ [] q o b i)|cbv beta|done].
  intros _ s2 [H2 _]. by wp_step.
Qed.
End sink.

(** ** The whole *)

Definition mode_of (channels : Z) : bytes :=
  if decide (channels = 1) then $"L" else if decide (channels = 3) then $"RGB" else $"RGBA".
(** The whole image as the region. *)
Definition whole (w h : Z) : boxing := Box zero zero (float_of w) (float_of h).

Section modes.
Context (channels : Z) (Hc : channels = 1 ∨ channels = 3 ∨ channels = 4).
Local Abbreviation m := (mode_of channels).

Lemma mode_size : channels = 1 ∧ size_of m = 1 ∨ (channels = 3 ∨ channels = 4) ∧ size_of m = 4.
Proof. destruct Hc as [->|[->| ->]]; cbn; auto. Qed.
Lemma mode_named : no_nul m ∧ (length m < IMAGING_MODE_LENGTH)%nat ∧ m ≠ $"P" ∧ m ≠ $"1".
Proof. destruct Hc as [->|[->| ->]]; apply (bool_decide_unpack _); by vm_compute. Qed.
Lemma mode_carried c : 0 ≤ c < channels → carried m c = true ∧ c < size_of m.
Proof.
  intros Hcc. assert (c = 0 ∨ channels ≠ 1 ∧ (c = 1 ∨ c = 2 ∨ c = 3)) as Hi by lia.
  destruct Hc as [->|[->| ->]], Hi as [->|[? [->|[->| ->]]]]; try lia; by vm_compute.
Qed.

(** An image of bytes is resized by the passes for bytes. *)
Lemma wp_ImagingResample `{Libm} big p im w h b i xs ys fl f box Q s :
  images s !! p = Some im → shaped m w h b i im → transform fl = Some f →
  wp (ImagingResampleInner p xs ys f box ImagingResampleHorizontal_8bpc ImagingResampleVertical_8bpc) Q no_wait s →
  wp (ImagingResample big p xs ys fl box) Q no_wait s.
Proof.
  intros Hp Him Hfl HQ. unfold ImagingResample. wp_step. eapply wp_mono; [by apply (wp_deref p im)| |done].
  cbv beta. intros ? ? [-> ->]. unfold passes. rewrite (shaped_mode _ _ _ _ _ _ Him), (shaped_type _ _ _ _ _ _ Him).
  destruct mode_named as (_ & _ & ? & ?). rewrite decide_False by tauto. rewrite decide_False by done. rewrite Hfl. by destruct (image8 im).
Qed.
End modes.

Lemma filter_given `{Libm} fl : 1 ≤ fl ≤ 5 → ∃ f, transform fl = Some f.
Proof.
  intros Hfl. assert (fl = 1 ∨ fl = 2 ∨ fl = 3 ∨ fl = 4 ∨ fl = 5) as [->|[->|[->|[->| ->]]]] by lia; by eexists.
Qed.

Lemma whole_needed out inn : 1 ≤ inn ≤ 2 ^ 24 →
  bool_decide (out ≠ inn) || truthy zero || negb (SFeqb (float_of inn) (float_of out)) = true ↔ out ≠ inn.
Proof.
  intros Hi. destruct (decide (out = inn)) as [->|Hne]; [|rewrite bool_decide_true by done; cbn; tauto].
  rewrite bool_decide_false by tauto. destruct (float_of_exact inn) as [Hn _]; [lia|].
  assert (SFeqb (float_of inn) (float_of inn) = true) as -> by by apply (eqb_val 24 128). cbn. split; [done|intros []; done].
Qed.

(** Both axes of a whole image. *)
Section inner.
Context `{Libm} (m : bytes) (w h outw outh fl : Z) (f : filter) (Hf : transform fl = Some f).
Context (Hm : no_nul m) (Hml : (length m < IMAGING_MODE_LENGTH)%nat).
Context (Hw : 1 ≤ w ≤ 2 ^ 24) (Hh : 1 ≤ h ≤ 2 ^ 24) (How : 1 ≤ outw ≤ 2147483647) (Hoh : 1 ≤ outh ≤ 2147483647).
Context (s0 : pil) (ims : gmap nat imaging) (L : list nat).
Local Abbreviation inner p := (ImagingResampleInner p outw outh f (whole w h) ImagingResampleHorizontal_8bpc ImagingResampleVertical_8bpc).

(** No image: no memory, or more coefficients than can be. *)
Definition refused (s : pil) : Prop :=
  (mem s0 ≠ [] ∨ crowded fl w outw ∨ crowded fl h outh) ∧ holds s0 s ims L ∧ pil_error s = Some oom.
(** A new image of the size asked for, [R] of the old. *)
Definition answered (R : (Z → Z → Z) → Z → Z → Z) (im : imaging) (r : option nat) (s : pil) : Prop :=
  match r with
  | Some q => (¬ crowded fl w outw ∧ ¬ crowded fl h outh) ∧
      ∃ b i o, holds s0 s (<[q := o]> ims) (i :: b :: L) ∧ ims !! q = None ∧ shaped m outw outh b i o ∧
      ∀ c y x, 0 ≤ c < size_of m → 0 ≤ y < outh → 0 ≤ x < outw → carried m c = true → get o c y x = R (get im c) y x
  | None => refused s
  end.

Lemma wp_inner_uncrowded s p im b i Q :
  holds s0 s ims L → ims !! p = Some im → shaped m w h b i im →
  (∀ s', refused s' → Q None s') →
  (¬ crowded fl w outw → ¬ crowded fl h outh → wp (inner p) Q no_wait s) → wp (inner p) Q no_wait s.
Proof.
  intros H0 Hp Him HQ Hgo. unfold refused in HQ.
  destruct (Z.lt_ge_cases 2147483647 (8 * slots fl w outw * outw)) as [Hcx|Hcx].
  { assert (crowded fl w outw) as Hx by (unfold crowded; lia). unfold ImagingResampleInner. wp_step.
    eapply wp_mono; [apply (wp_deref p im); by eapply holds_image| |done]. cbv beta. intros ? ? [-> ->].
    rewrite (shaped_x _ _ _ _ _ _ Him). cbv zeta.
    wp_step. eapply wp_mono; [by apply (wp_precompute_crowded fl w outw Hw How f Hf s0 s ims L)| |done]. cbv beta.
    intros r s1 (-> & H1 & E1). apply HQ. auto. }
  assert (¬ crowded fl w outw) as Hx by (unfold crowded; lia). pose proof (plan_is fl w outw Hw How f Hf Hx) as Hpx.
  destruct (Z.lt_ge_cases 2147483647 (8 * slots fl h outh * outh)) as [Hcy|Hcy]; [|apply Hgo; [done|unfold crowded; lia]].
  assert (crowded fl h outh) as Hy by (unfold crowded; lia). unfold ImagingResampleInner. wp_step.
  eapply wp_mono; [apply (wp_deref p im); by eapply holds_image| |done]. cbv beta. intros ? ? [-> ->].
  rewrite (shaped_x _ _ _ _ _ _ Him), (shaped_y _ _ _ _ _ _ Him). cbv zeta.
  wp_step. eapply wp_mono; [by apply (wp_precompute s0 s ims L _ _ _ _ _ (axis_of fl w outw))| |done]. cbv beta.
  intros [ch|] s1; [|by intros (? & ? & ?); apply HQ; auto]. intros (b1 & k1 & -> & H1). wp_step.
  eapply wp_mono; [by apply (wp_precompute_crowded fl h outh Hh Hoh f Hf s0 s1 ims (b1 :: k1 :: L))| |done]. cbv beta.
  intros r s2 (-> & H2 & E2). cbn [bounds_p kk_p]. eapply wp_frees; [exact H2|perm|]. intros s3 H3 E3. wp_step.
  apply HQ. split_and!; [auto|done|by rewrite E3].
Qed.

Definition bytes_resampled (px : Z → Z → Z) (y x : Z) : Z :=
  resampled fl h outh (λ y', resampled fl w outw (px y') x) y.

Lemma wp_resize_inner s p im b i (Hlw : light fl w outw = true) (Hlh : light fl h outh = true) :
  holds s0 s ims L → ims !! p = Some im → shaped m w h b i im →
  wp (inner p) (answered bytes_resampled im) no_wait s.
Proof.
  intros H0 Hp Him. eapply wp_inner_uncrowded; [done|done|exact Him|done|]. intros Hx Hy.
  pose proof (plan_is fl w outw Hw How f Hf Hx) as Hpx. pose proof (plan_is fl h outh Hh Hoh f Hf Hy) as Hpy.
  pose proof (uncrowded_fits fl w outw Hw How Hx) as Hfit.
  eapply wp_mono; [eapply (wp_ImagingResampleInner m w h outw outh f (whole w h) (axis_of fl w outw) (axis_of fl h outh)) with (p := p) (im := im);
    try done; try lia; try by apply axis_usable|cbv beta|done].
  { unfold fits_int, size_of. case_decide; lia. }
  intros [q|] s1; [|intros (? & ? & ?); split_and!; auto]. intros (b' & i' & o & H1 & Hq & Ho & Hr). split; [done|].
  exists b', i', o. split_and!; [done..|]. intros c y x Hc Hy' Hx' Hcar. rewrite Hr by done. unfold resized, bytes_resampled.
  rewrite (along_is fl h outh Hh Hoh Hlh) by (done || by apply whole_needed). apply resampled_ext. intros y' _.
  unfold rows_of. apply along_is; try done. by apply whole_needed.
Qed.
End inner.

(** Asked for the size it has, an image is copied: no pass is made. *)
Lemma wp_copy_inner `{Libm} m w h fl f (Hf : transform fl = Some f) (Hm : no_nul m) (Hml : (length m < IMAGING_MODE_LENGTH)%nat)
    (Hw : 1 ≤ w ≤ 2 ^ 24) (Hh : 1 ≤ h ≤ 2 ^ 24) s0 ims L s p im b i :
  holds s0 s ims L → ims !! p = Some im → shaped m w h b i im →
  wp (ImagingResampleInner p w h f (whole w h) ImagingResampleHorizontal_8bpc ImagingResampleVertical_8bpc)
     (answered m w h w h fl s0 ims L (λ px, px) im) no_wait s.
Proof.
  intros H0 Hp Him. assert (1 ≤ w ≤ 2147483647) as How by lia. assert (1 ≤ h ≤ 2147483647) as Hoh by lia.
  eapply wp_inner_uncrowded; [done..|exact Him|done|]. intros Hx Hy.
  pose proof (plan_is fl w w Hw How f Hf Hx) as Hpx. pose proof (plan_is fl h h Hh Hoh f Hf Hy) as Hpy.
  pose proof (uncrowded_fits fl w w Hw How Hx) as Hfit.
  unfold ImagingResampleInner. wp_step. eapply wp_mono; [apply (wp_deref p im); by eapply holds_image| |done]. cbv beta. intros ? ? [-> ->].
  rewrite (shaped_x _ _ _ _ _ _ Him), (shaped_y _ _ _ _ _ _ Him). cbv zeta. cbn [whole box0 box1 box2 box3].
  assert (∀ n, 1 ≤ n ≤ 2 ^ 24 → bool_decide (n ≠ n) || truthy zero || negb (SFeqb (float_of n) (float_of n)) = false) as Hneed.
  { intros n Hn. apply not_true_is_false. by intros ?%whole_needed. }
  rewrite (Hneed w Hw), (Hneed h Hh).
  wp_step. eapply wp_mono; [by apply (wp_precompute s0 s ims L _ _ _ _ _ (axis_of fl w w))| |done]. cbv beta.
  intros [ch|] s1; [|by intros (? & ? & ?); split_and!; auto]. intros (b1 & k1 & -> & H1). wp_step.
  eapply wp_mono; [by apply (wp_precompute s0 s1 ims (b1 :: k1 :: L) _ _ _ _ _ (axis_of fl h h))| |done]. cbv beta. intros [cv|] s2; cycle 1.
  { intros (H2 & Hno & He). cbn [bounds_p kk_p]. eapply wp_frees; [exact H2|perm|]. intros s3 H3 E3. wp_step. split_and!; [auto|done|by rewrite E3]. }
  intros (b2 & k2 & -> & H2). cbn [bounds].
  destruct (window_facts fl h h Hh Hoh (h - 1) ltac:(lia)) as (_ & _ & Hfrom & Hupto & _).
  wp_step. eapply wp_known; [unfold axis_of; cbn [snd]; rewrite !at_fmap, at_seqZ by lia; done|].
  wp_step. eapply wp_known; [unfold axis_of; cbn [snd]; rewrite !at_fmap, at_seqZ by lia; cbn [fmap option_fmap option_map mbind option_bind row_at fst snd];
    unfold int_; rewrite decide_True by (unfold fits_int; lia); done|].
  unfold horizontal_stage, vertical_stage. cbn [bounds_p kk_p]. wp_step. eapply wp_frees; [exact H2|perm|]. intros s3 H3 _.
  do 2 wp_step. eapply wp_frees; [exact H3|perm|]. intros s4 H4 _. wp_step. cbn [default from_option id].
  eapply wp_mono; [eapply (wp_ImagingCopy m w h); [..|exact H4|exact Hp|exact Him]; try done; try lia; unfold fits_int, size_of; case_decide; lia|cbv beta|done].
  intros [q|] s5; [|by intros (? & ? & ?); split_and!; auto]. intros (b' & i' & o & ? & ? & ? & Hr). split; [done|].
  exists b', i', o. split_and!; [done..|]. intros. by rewrite Hr.
Qed.


(** The caller's bytes in and out around a resize that makes [R] of an image. *)
Section around.
Context `{Libm} (big : bool) (s : pil) (src : list Z) (w h channels step outw outh fl : Z) (dst : list Z) (dststep : Z).
Context (f : filter) (Hf : transform fl = Some f) (R : (Z → Z → Z) → Z → Z → Z).
Context (Ht : tidy s) (Hw : 1 ≤ w ≤ 2 ^ 24) (Hh : 1 ≤ h ≤ 2 ^ 24) (How : 1 ≤ outw) (Hoh : 1 ≤ outh).
Context (Hc : channels = 1 ∨ channels = 3 ∨ channels = 4).
Context (Hb : bytes_ok src) (Hsrc : rows_in src h (w * channels) step).
Context (Hdst : rows_in dst outh (outw * channels) dststep) (Hds : outw * channels ≤ dststep).
Local Abbreviation m := (mode_of channels).
Context (Hinner : ∀ L s1 p im b i ims, holds s s1 ims L → ims !! p = Some im → shaped m w h b i im →
  wp (ImagingResampleInner p outw outh f (whole w h) ImagingResampleHorizontal_8bpc ImagingResampleVertical_8bpc)
     (answered m w h outw outh fl s ims L R im) no_wait s1).
Context (Hinside : ∀ px px' y x, 0 ≤ y < outh → 0 ≤ x < outw →
  (∀ y' x', 0 ≤ y' < h → 0 ≤ x' < w → px y' x' = px' y' x') → R px y x = R px' y x).

Lemma wp_pil_resample :
  wp (pil_resample_8u big src w h channels step outw outh fl dst dststep) (λ '(e, dst') s',
    bufs s' = bufs s ∧ images s' = images s ∧
    match e with
    | None =>
        (¬ crowded fl w outw ∧ ¬ crowded fl h outh) ∧ length dst' = length dst ∧
        (∀ c y x, 0 ≤ c < channels → 0 ≤ y < outh → 0 ≤ x < outw →
           at_ dst' (y * dststep + x * channels + c) = Some (R (source channels step src c) y x)) ∧
        (∀ j, (∀ y, 0 ≤ y < outh → ¬ y * dststep ≤ j < y * dststep + outw * channels) → at_ dst' j = at_ dst j)
    | Some why => why = $"out of memory" ∧ dst' = dst ∧ (mem s ≠ [] ∨ crowded fl w outw ∨ crowded fl h outh)
    end) no_wait s.
Proof.
  pose proof (mode_size channels Hc) as Hch. destruct (mode_named channels Hc) as (Hm & Hml & _ & _).
  assert (1 ≤ channels ≤ 4) as Hc4 by lia.
  assert (fits_int (w * size_of m)) as Hfit by (unfold fits_int; lia).
  unfold pil_resample_8u. rewrite (bool_decide_true _ Hc), decide_False by lia. cbn [negb]. do 3 wp_step. fold m.
  assert (holds s (set_pil_error None s) ∅ []) as H0 by by apply holds_error, holds_start.
  eapply wp_mono; [apply (wp_ImagingNewDirty s _ ∅ [] m w h H0); try done; lia| |done]. cbv beta. intros [p|] s1; cycle 1.
  { intros (H1 & Hno & E1). do 3 wp_step. rewrite E1. destruct (holds_end _ _ H1) as [-> ->]. split_and!; [done..|by left]. }
  intros (b & i & H1 & _ & Hp0).
  apply (wp_source_in m channels w h step src b i Hch ltac:(lia) ltac:(lia) Hsrc Hb s); [done|done|].
  intros im s2 Him Hsource H2. wp_step.
  eapply wp_mono; [eapply (wp_ImagingResample channels Hc); [eapply holds_image; [exact H2|apply lookup_insert_eq]|exact Him|exact Hf|
    eapply Hinner; [exact H2|apply lookup_insert_eq|exact Him]]|cbv beta|done].
  intros [q|] s3.
  - intros (Hcr & b' & i' & o & H3 & Hq & Hos & Hr). apply lookup_insert_None in Hq as [_ Hqp]. rewrite insert_insert_ne in H3 by done. wp_step.
    eapply wp_mono; [eapply (wp_drop_made m s s3 _ [i'; b'] p im b i); [eapply holds_perm, H3; perm|by rewrite lookup_insert_ne|exact Him]|cbv beta|done].
    intros _ s4 [H4 _].
    eapply wp_mono; [eapply (wp_sink_out m channels outw outh dststep dst b' i' o); (done || lia)|cbv beta|done].
    intros [e dst'] s5 (H5 & -> & Hlen & Hin & Hrest). destruct (holds_end _ _ H5) as [-> ->]. split_and!; [done|done|apply Hcr|apply Hcr|done| |done].
    intros c y x Hcc Hy Hx. rewrite Hin by done. f_equal. destruct (mode_carried channels Hc c Hcc). rewrite Hr by (done || lia).
    apply Hinside; [done|done|]. intros y' x' Hy' Hx'. by apply Hsource.
  - intros (Hno & H3 & E3). wp_step. eapply wp_mono; [by eapply (wp_drop_made m s s3 ∅ [] p im b i)|cbv beta|done].
    intros _ s4 [H4 E4]. do 3 wp_step. rewrite E4, E3. destruct (holds_end _ _ H4) as [-> ->]. done.
Qed.
End around.

(** C39. What library(opencv) gets of pil_resample_8u for an image of at most
    2^24 pixels a side, whatever the sizes asked for and whatever the memory
    does: each channel of each destination pixel is what the reference of
    Kernels.v makes of the source's row, and then of those down the column --
    the kernel's shares of the pixels in reach, in 22-bit fixed point, summed,
    rounded and clamped -- and no byte outside the destination's rows changes;
    or the answer is that memory ran out, the destination is as it was, and it
    did run out or an axis's coefficients are more bytes than an int.  Either
    way every image and buffer is given back, no access is outside its array
    and no int overflows.  For the box and the bilinear filter nothing is
    assumed of the coefficients; for the bicubic, Hamming and Lanczos filters
    [light] is: for each output, the reference's coefficients are ints whose
    sizes add up to at most 8413280, twice one and three in a thousand. *)
Theorem pil_resample_8u_exact `{Libm} big s src w h channels step outw outh fl dst dststep :
  tidy s → 1 ≤ w ≤ 2 ^ 24 → 1 ≤ h ≤ 2 ^ 24 → 1 ≤ outw ≤ 2147483647 → 1 ≤ outh ≤ 2147483647 →
  (channels = 1 ∨ channels = 3 ∨ channels = 4) → 1 ≤ fl ≤ 5 →
  bytes_ok src → rows_in src h (w * channels) step →
  rows_in dst outh (outw * channels) dststep → outw * channels ≤ dststep →
  (fl ≠ IMAGING_TRANSFORM_BOX → fl ≠ IMAGING_TRANSFORM_BILINEAR → light fl w outw = true ∧ light fl h outh = true) →
  wp (pil_resample_8u big src w h channels step outw outh fl dst dststep) (λ '(e, dst') s',
    bufs s' = bufs s ∧ images s' = images s ∧
    match e with
    | None =>
        let rows c y x := resampled fl w outw (λ x', source channels step src c y x') x in
        let result c y x := resampled fl h outh (λ y', rows c y' x) y in
        (¬ crowded fl w outw ∧ ¬ crowded fl h outh) ∧
        length dst' = length dst ∧
        (∀ c y x, 0 ≤ c < channels → 0 ≤ y < outh → 0 ≤ x < outw →
           at_ dst' (y * dststep + x * channels + c) = Some (result c y x)) ∧
        (∀ j, (∀ y, 0 ≤ y < outh → ¬ y * dststep ≤ j < y * dststep + outw * channels) → at_ dst' j = at_ dst j)
    | Some why => why = $"out of memory" ∧ dst' = dst ∧ (mem s ≠ [] ∨ crowded fl w outw ∨ crowded fl h outh)
    end) no_wait s.
Proof.
  intros Ht Hw Hh How Hoh Hc Hfl Hb Hsrc Hdst Hds Hheavy.
  assert (light fl w outw = true ∧ light fl h outh = true) as [Hlw Hlh].
  { destruct (decide (fl = IMAGING_TRANSFORM_BOX ∨ fl = IMAGING_TRANSFORM_BILINEAR)) as [Hnn|Hnn]; [|by apply Hheavy; tauto].
    split; by apply light_nonneg. }
  destruct (filter_given fl Hfl) as [f Hf]. destruct (mode_named channels Hc) as (Hm & Hml & _ & _).
  eapply (wp_pil_resample big s src w h channels step outw outh fl dst dststep f Hf (bytes_resampled w h outw outh fl)); try done; try lia.
  - intros. by eapply wp_resize_inner.
  - intros px px' y x Hy Hx Hpx. apply (resampled_inside fl h outh Hh Hoh y _ _ Hy). intros y' Hy'.
    apply (resampled_inside fl w outw Hw How x _ _ Hx). intros x' Hx'. by apply Hpx.
Qed.

(** C40. Asked for the size the image has, pil_resample_8u copies it, by any
    filter and any sine and cosine: every byte of the destination's rows is the
    source's, the others are as they were, and nothing is kept; or memory ran
    out, as in [pil_resample_8u_exact].  Nothing is assumed of the
    coefficients, which are made but not used. *)
Theorem same_size_copied `{Libm} big s src w h channels step fl dst dststep :
  tidy s → 1 ≤ w ≤ 2 ^ 24 → 1 ≤ h ≤ 2 ^ 24 → (channels = 1 ∨ channels = 3 ∨ channels = 4) → 1 ≤ fl ≤ 5 →
  bytes_ok src → rows_in src h (w * channels) step →
  rows_in dst h (w * channels) dststep → w * channels ≤ dststep →
  wp (pil_resample_8u big src w h channels step w h fl dst dststep) (λ '(e, dst') s',
    bufs s' = bufs s ∧ images s' = images s ∧
    match e with
    | None => length dst' = length dst ∧
        (∀ y k, 0 ≤ y < h → 0 ≤ k < w * channels → at_ dst' (y * dststep + k) = at_ src (y * step + k)) ∧
        (∀ j, (∀ y, 0 ≤ y < h → ¬ y * dststep ≤ j < y * dststep + w * channels) → at_ dst' j = at_ dst j)
    | Some why => why = $"out of memory" ∧ dst' = dst ∧ (mem s ≠ [] ∨ crowded fl w w ∨ crowded fl h h)
    end) no_wait s.
Proof.
  intros Ht Hw Hh Hc Hfl Hb Hsrc Hdst Hds.
  destruct (filter_given fl Hfl) as [f Hf]. destruct (mode_named channels Hc) as (Hm & Hml & _ & _).
  eapply wp_mono; [eapply (wp_pil_resample big s src w h channels step w h fl dst dststep f Hf (λ px, px)); try done; try lia|cbv beta|done].
  - intros. by eapply wp_copy_inner.
  - auto.
  - intros [[why|] d] s1 (Hbufs & Himgs & Hr); [done|]. destruct Hr as (_ & Hlen & Hin & Hrest). split_and!; try done.
    intros y k Hy Hk. assert (0 < channels) as Hc0 by lia.
    pose proof (Z.div_mod k channels ltac:(lia)) as Hdm. pose proof (Z.mod_pos_bound k channels Hc0) as Hmod.
    assert (0 ≤ k / channels < w) as Hx by (split; [apply Z.div_pos; lia|apply Z.div_lt_upper_bound; lia]).
    replace (y * dststep + k) with (y * dststep + k / channels * channels + k mod channels) by lia. rewrite Hin by done.
    unfold source, byte_of_. replace (y * step + k / channels * channels + k mod channels) with (y * step + k) by lia.
    destruct Hsrc as [Hs0 Hrows]. specialize (Hrows y Hy). destruct (at_is_Some src (y * step + k)) as [v ->]; [nia|done].
Qed.

#[local] Instance plain_libm : Libm := {| sin := λ x, x; cos := λ x, x |}.
(** Nothing is live, and every allocation succeeds. *)
Definition empty_pil : pil := Pil ∅ ∅ 0 None [].
Lemma empty_tidy : tidy empty_pil.
Proof. intros n [Hn|[? Hn]]; cbn in Hn; [set_solver|done]. Qed.

(** The numbers of test/opencv.pl: box and bilinear on [0, 0, 255, 255], bicubic
    on the same, bilinear on [0, 255] to six. *)
Example opencv_box : resampled IMAGING_TRANSFORM_BOX 4 2 (byte_of_ [0; 0; 255; 255]) <$> [0; 1] = [0; 255].
Proof. by vm_compute. Qed.
Example opencv_bilinear : resampled IMAGING_TRANSFORM_BILINEAR 4 2 (byte_of_ [0; 0; 255; 255]) <$> [0; 1] = [36; 219].
Proof. by vm_compute. Qed.
Example opencv_bicubic : resampled IMAGING_TRANSFORM_BICUBIC 4 2 (byte_of_ [0; 0; 255; 255]) <$> [0; 1] = [21; 234].
Proof. by vm_compute. Qed.
Example opencv_upscale :
  resampled IMAGING_TRANSFORM_BILINEAR 2 6 (byte_of_ [0; 255]) <$> [0; 1; 2; 3; 4; 5] = [0; 0; 85; 170; 255; 255].
Proof. by vm_compute. Qed.

(** Its four pixels of three channels to two by the bilinear filter, and its
    row of four to two by the bicubic one; a byte after the row is kept. *)
Lemma pil_resample_8u_exact_witness :
  (∃ d s', pil_resample_8u false [0; 255; 0; 0; 255; 0; 255; 0; 255; 255; 0; 255] 4 1 3 12 2 1 IMAGING_TRANSFORM_BILINEAR
             (replicate 6 7) 6 empty_pil = Ret (None, d) s' ∧ bufs s' = ∅ ∧ images s' = ∅ ∧
     at_ d <$> [0; 1; 2; 3; 4; 5] = Some <$> [36; 219; 36; 219; 36; 219]) ∧
  (∃ d s', pil_resample_8u false [0; 0; 255; 255] 4 1 1 4 2 1 IMAGING_TRANSFORM_BICUBIC (replicate 3 7) 2 empty_pil = Ret (None, d) s' ∧
     bufs s' = ∅ ∧ images s' = ∅ ∧ at_ d <$> [0; 1; 2] = Some <$> [21; 234; 7]).
Proof.
  split.
  - pose proof (pil_resample_8u_exact false empty_pil [0; 255; 0; 0; 255; 0; 255; 0; 255; 255; 0; 255] 4 1 3 12 2 1 IMAGING_TRANSFORM_BILINEAR
      (replicate 6 7) 6 empty_tidy ltac:(lia) ltac:(lia) ltac:(lia) ltac:(lia) ltac:(lia) ltac:(done)
      ltac:(by apply (bool_decide_unpack _); vm_compute) ltac:(split; [lia|cbn; lia]) ltac:(split; [lia|cbn; lia]) ltac:(lia) ltac:(done)) as Hwp.
    unfold wp in Hwp. destruct (pil_resample_8u _ _ _ _ _ _ _ _ _ _ _ _) as [[[why|] d] s'|s'|s']; [| |done..].
    { exfalso. destruct Hwp as (_ & _ & _ & _ & [Hm|[Hc|Hc]]); [done|by vm_compute in Hc..]. }
    destruct Hwp as (Hb & Hi & _ & _ & Hin & _). exists d, s'. split_and!; [done|exact Hb|exact Hi|]. cbn [fmap list_fmap].
    repeat f_equal; (etrans; [first [apply (Hin 0 0 0)|apply (Hin 1 0 0)|apply (Hin 2 0 0)|apply (Hin 0 0 1)|apply (Hin 1 0 1)|apply (Hin 2 0 1)]; lia|by vm_compute]).
  - pose proof (pil_resample_8u_exact false empty_pil [0; 0; 255; 255] 4 1 1 4 2 1 IMAGING_TRANSFORM_BICUBIC
      (replicate 3 7) 2 empty_tidy ltac:(lia) ltac:(lia) ltac:(lia) ltac:(lia) ltac:(lia) ltac:(done)
      ltac:(by apply (bool_decide_unpack _); vm_compute) ltac:(split; [lia|cbn; lia]) ltac:(split; [lia|cbn; lia]) ltac:(lia)
      ltac:(intros _ _; by vm_compute)) as Hwp.
    unfold wp in Hwp. destruct (pil_resample_8u _ _ _ _ _ _ _ _ _ _ _ _) as [[[why|] d] s'|s'|s']; [| |done..].
    { exfalso. destruct Hwp as (_ & _ & _ & _ & [Hm|[Hc|Hc]]); [done|by vm_compute in Hc..]. }
    destruct Hwp as (Hb & Hi & _ & _ & Hin & Hout). exists d, s'. split_and!; [done|exact Hb|exact Hi|]. cbn [fmap list_fmap].
    repeat f_equal; (etrans; [first [apply (Hin 0 0 0)|apply (Hin 0 0 1)|apply (Hout 2)]; intros; lia|by vm_compute]).
Defined.
(** Two rows of two, two bytes apart from each other in the destination, by the
    Lanczos filter. *)
Lemma same_size_copied_witness :
  ∃ d s', pil_resample_8u false [9; 8; 7; 6] 2 2 1 2 2 2 IMAGING_TRANSFORM_LANCZOS (replicate 6 1) 4 empty_pil = Ret (None, d) s' ∧
    bufs s' = ∅ ∧ images s' = ∅ ∧ at_ d <$> [0; 1; 2; 3; 4; 5] = Some <$> [9; 8; 1; 1; 7; 6].
Proof.
  pose proof (same_size_copied false empty_pil [9; 8; 7; 6] 2 2 1 2 IMAGING_TRANSFORM_LANCZOS (replicate 6 1) 4 empty_tidy
    ltac:(lia) ltac:(lia) ltac:(lia) ltac:(done) ltac:(by apply (bool_decide_unpack _); vm_compute)
    ltac:(split; [lia|cbn; lia]) ltac:(split; [lia|cbn; lia]) ltac:(lia)) as Hwp.
  unfold wp in Hwp. destruct (pil_resample_8u _ _ _ _ _ _ _ _ _ _ _ _) as [[[why|] d] s'|s'|s']; [| |done..].
  { exfalso. destruct Hwp as (_ & _ & _ & _ & [Hm|[Hc|Hc]]); [done|by vm_compute in Hc..]. }
  destruct Hwp as (Hb & Hi & _ & Hin & Hout). exists d, s'. split_and!; [done|exact Hb|exact Hi|]. cbn [fmap list_fmap].
  repeat f_equal; (etrans; [first [apply (Hin 0 0)|apply (Hin 0 1)|apply (Hin 1 0)|apply (Hin 1 1)|apply (Hout 2)|apply (Hout 3)]; intros; lia|by vm_compute]).
Defined.
