(* ===== verification/Tensor.v ===== *)
(** * modules/tensorflow/backend.c: tensors, slots and handles

    The state of the TensorFlow back end and the operations on its slot table:
    making and freeing slots, the references nodes hold on what they read, the
    values a slot may carry.  TensorFlow itself is the class [TensorFlow]; each
    call into it may fail, and how it goes is the queue [tfq] of the state. *)
From Stdlib Require Import Floats.SpecFloat.
From S2P Require Import Prelude Effect Float.

Local Open Scope Z_scope.

Definition TF_SLOTS : Z := 65536.
Definition TF_MAXIN : nat := 65.
Definition TF_MAXDIM : nat := 8.
Definition TF_MAXLEAF : nat := Z.to_nat 4096.
Definition TF_MAXNODE : nat := Z.to_nat 8192.
Definition TF_MAXENTRY : nat := Z.to_nat 4096.
Definition TF_MAXPARAM : nat := 64.
Definition TF_SCALARS : nat := 256.

(** TensorFlow's TF_DataType, as far as the file names it. *)
Definition TF_FLOAT : Z := 1.
Definition TF_DOUBLE : Z := 2.
Definition TF_INT32 : Z := 3.
Definition TF_INT64 : Z := 9.

(** A tensor: its type, its sizes, its elements in order. *)
Inductive num := Int (i : Z) | Flt (f : spec_float).
Record tensor := Tensor { t_dtype : Z; t_dims : list Z; t_data : list num }.

Definition elements (shape : list Z) : Z := foldl Z.mul 1 shape.

Definition tensor_f32 (data : list float64) (shape : list Z) : tensor :=
  Tensor TF_FLOAT shape ((λ d, Flt (narrow d)) <$> take (Z.to_nat (elements shape)) data).
Definition tensor_i32 (data : list Z) (shape : list Z) : tensor :=
  Tensor TF_INT32 shape ((λ i, Int (sint 32 i)) <$> take (Z.to_nat (elements shape)) data).

(** ** An operation's recipe *)

(** [OpSpec]: an array and its count are one list. *)
Record OpSpec := MkSpec {
  op : bytes;
  ins : list Z;                  (** [in], [nin] *)
  list_n : Z;
  types : list (bytes * Z);      (** [type_attrs], [type_vals], [ntypes] *)
  ints : list (bytes * Z);
  bools : list (bytes * Z);
}.

Definition spec_init (o : bytes) : OpSpec := MkSpec o [] 0 [] [] [].
Definition spec_in (h : Z) (p : OpSpec) : OpSpec :=
  if decide (length (ins p) < TF_MAXIN)%nat
  then MkSpec (op p) (ins p ++ [h]) (list_n p) (types p) (ints p) (bools p) else p.
Definition spec_type (a : bytes) (t : Z) (p : OpSpec) : OpSpec :=
  if decide (length (types p) < 4)%nat
  then MkSpec (op p) (ins p) (list_n p) (types p ++ [(a, t)]) (ints p) (bools p) else p.
Definition spec_int (a : bytes) (v : Z) (p : OpSpec) : OpSpec :=
  if decide (length (ints p) < 2)%nat
  then MkSpec (op p) (ins p) (list_n p) (types p) (ints p ++ [(a, v)]) (bools p) else p.
Definition spec_bool (a : bytes) (v : Z) (p : OpSpec) : OpSpec :=
  if decide (length (bools p) < 2)%nat
  then MkSpec (op p) (ins p) (list_n p) (types p) (ints p) (bools p ++ [(a, uint 8 v)]) else p.
(** [p.list_n = n] *)
Definition spec_list (n : Z) (p : OpSpec) : OpSpec :=
  MkSpec (op p) (ins p) n (types p) (ints p) (bools p).

(** ** A slot *)

Inductive kinds := K_FREE | K_VALUE | K_NODE.
#[export] Instance kinds_eq_decision : EqDecision kinds.
Proof. solve_decision. Defined.

(** [TfSlot]; [shape] and [nd] are one list, a handle is a number. *)
Record TfSlot := MkSlot {
  kind : kinds;
  eh : option nat;
  val : option tensor;
  spec : OpSpec;
  refs : Z;
  released : bool;
  ckey : bool;
  is_param : bool;
  under_param : bool;
  shape : list Z;
  shape_known : bool;
  dtype : Z;
}.

(** [memset(s, 0, sizeof *s)]. *)
Definition zero_slot : TfSlot :=
  MkSlot K_FREE None None (spec_init []) 0 false false false false [] false 0.

Definition set_kind k s :=
  MkSlot k (eh s) (val s) (spec s) (refs s) (released s) (ckey s) (is_param s) (under_param s) (shape s) (shape_known s) (dtype s).
Definition set_eh h s :=
  MkSlot (kind s) h (val s) (spec s) (refs s) (released s) (ckey s) (is_param s) (under_param s) (shape s) (shape_known s) (dtype s).
Definition set_val v s :=
  MkSlot (kind s) (eh s) v (spec s) (refs s) (released s) (ckey s) (is_param s) (under_param s) (shape s) (shape_known s) (dtype s).
Definition set_spec p s :=
  MkSlot (kind s) (eh s) (val s) p (refs s) (released s) (ckey s) (is_param s) (under_param s) (shape s) (shape_known s) (dtype s).
Definition set_refs r s :=
  MkSlot (kind s) (eh s) (val s) (spec s) r (released s) (ckey s) (is_param s) (under_param s) (shape s) (shape_known s) (dtype s).
Definition set_released b s :=
  MkSlot (kind s) (eh s) (val s) (spec s) (refs s) b (ckey s) (is_param s) (under_param s) (shape s) (shape_known s) (dtype s).
Definition set_ckey b s :=
  MkSlot (kind s) (eh s) (val s) (spec s) (refs s) (released s) b (is_param s) (under_param s) (shape s) (shape_known s) (dtype s).
Definition set_is_param b s :=
  MkSlot (kind s) (eh s) (val s) (spec s) (refs s) (released s) (ckey s) b (under_param s) (shape s) (shape_known s) (dtype s).
Definition set_under_param b s :=
  MkSlot (kind s) (eh s) (val s) (spec s) (refs s) (released s) (ckey s) (is_param s) b (shape s) (shape_known s) (dtype s).
Definition set_shape sh s :=
  MkSlot (kind s) (eh s) (val s) (spec s) (refs s) (released s) (ckey s) (is_param s) (under_param s) sh (shape_known s) (dtype s).
Definition set_shape_known b s :=
  MkSlot (kind s) (eh s) (val s) (spec s) (refs s) (released s) (ckey s) (is_param s) (under_param s) (shape s) b (dtype s).
Definition set_dtype t s :=
  MkSlot (kind s) (eh s) (val s) (spec s) (refs s) (released s) (ckey s) (is_param s) (under_param s) (shape s) (shape_known s) t.

(** ** Compiled closures *)

(** A graph as it is built: a constant or a placeholder for each leaf, then an
    operation for each node; a recipe in it has [ins] empty, its inputs are
    references into the graph. *)
Inductive gref := R_leaf (j : Z) | R_node (i : Z).
Inductive gleaf := G_const (t : tensor) | G_placeholder (dt : Z) (sh : list Z).
Record gnode := GNode { g_op : OpSpec; g_in : list gref }.
Record graph := Graph { g_leaves : list gleaf; g_nodes : list gnode }.

(** What a function gives back: an output of its graph, or the [k]-th of the
    gradients of [y] by [xs]. *)
Inductive gout := O_ref (r : gref) | O_grad (y : gref) (xs : list gref) (k : nat).

(** A [TF_Function]: its name's number, and what it was made of. *)
Record func := Func { f_name : Z; f_graph : graph; f_in : list Z; f_out : list gout }.

Record Entry := MkEntry {
  e_key : bytes;
  e_hash : Z;
  e_graph : graph;
  in_leaf : list Z;
  out_node : list Z;
  grads : list (option gout);
  grad_at : list Z;
  noutputs : Z;
  fn : option func;
}.
Definition set_grads g e :=
  MkEntry (e_key e) (e_hash e) (e_graph e) (in_leaf e) (out_node e) g (grad_at e) (noutputs e) (fn e).
Definition set_grad_at g e :=
  MkEntry (e_key e) (e_hash e) (e_graph e) (in_leaf e) (out_node e) (grads e) g (noutputs e) (fn e).
Definition set_noutputs n e :=
  MkEntry (e_key e) (e_hash e) (e_graph e) (in_leaf e) (out_node e) (grads e) (grad_at e) n (fn e).
Definition set_fn f e :=
  MkEntry (e_key e) (e_hash e) (e_graph e) (in_leaf e) (out_node e) (grads e) (grad_at e) (noutputs e) f.

(** ** TensorFlow *)

Class TensorFlow := {
  (** TFE_Execute on a recipe's inputs: a tensor, or a refusal. *)
  tf_exec : OpSpec → list tensor → tensor + bytes;
  (** TF_FinishOperation: a refusal, if it refuses. *)
  tf_check : graph → gnode → option bytes;
  (** The sizes TF_GraphGetTensorShape knows, -1 for one it does not; [None]
      when not even their number is known. *)
  tf_infer : graph → gref → option (list Z);
  (** TF_AddGradients: which of the gradients exist; [None] when it fails. *)
  tf_gradients : graph → gref → list gref → option (list bool);
  (** TFE_Execute of a function: its arguments, its results. *)
  tf_call : func → list tensor → list tensor + bytes;
  (** What TensorFlow says of a null handle. *)
  tf_null : bytes;
  (** printf's %g. *)
  fmt_g : float32 → bytes;
}.

(** ** The state *)

Record tfst := TfSt {
  slots : Z → TfSlot;
  slot_cursor : Z;
  hs : gmap nat tensor;              (** the TFE_TensorHandles that are live *)
  next_h : nat;
  entries : list Entry;
  scalars : list (float32 * nat);    (** [scalar_cache], [nscalars] *)
  scalar_next : Z;
  seed_base : Z;
  seed_next : Z;
  gpu_name : bytes;
  dev_gpu : bool;
  graph_mode : Z;                    (** what the torch module's switch says *)
  errbuf : bytes;
  opcount : Z;
  fncount : Z;
  stat_rec : Z;
  stat_exe : Z;
  stat_rep : Z;
  tfq : list (option bytes);         (** how the calls to come will go *)
}.

Definition set_slots v s := TfSt v (slot_cursor s) (hs s) (next_h s) (entries s) (scalars s) (scalar_next s) (seed_base s) (seed_next s) (gpu_name s) (dev_gpu s) (graph_mode s) (errbuf s) (opcount s) (fncount s) (stat_rec s) (stat_exe s) (stat_rep s) (tfq s).
Definition set_slot_cursor v s := TfSt (slots s) v (hs s) (next_h s) (entries s) (scalars s) (scalar_next s) (seed_base s) (seed_next s) (gpu_name s) (dev_gpu s) (graph_mode s) (errbuf s) (opcount s) (fncount s) (stat_rec s) (stat_exe s) (stat_rep s) (tfq s).
Definition set_hs v n s := TfSt (slots s) (slot_cursor s) v n (entries s) (scalars s) (scalar_next s) (seed_base s) (seed_next s) (gpu_name s) (dev_gpu s) (graph_mode s) (errbuf s) (opcount s) (fncount s) (stat_rec s) (stat_exe s) (stat_rep s) (tfq s).
Definition set_entries v s := TfSt (slots s) (slot_cursor s) (hs s) (next_h s) v (scalars s) (scalar_next s) (seed_base s) (seed_next s) (gpu_name s) (dev_gpu s) (graph_mode s) (errbuf s) (opcount s) (fncount s) (stat_rec s) (stat_exe s) (stat_rep s) (tfq s).
Definition set_scalars v n s := TfSt (slots s) (slot_cursor s) (hs s) (next_h s) (entries s) v n (seed_base s) (seed_next s) (gpu_name s) (dev_gpu s) (graph_mode s) (errbuf s) (opcount s) (fncount s) (stat_rec s) (stat_exe s) (stat_rep s) (tfq s).
Definition set_seed b n s := TfSt (slots s) (slot_cursor s) (hs s) (next_h s) (entries s) (scalars s) (scalar_next s) b n (gpu_name s) (dev_gpu s) (graph_mode s) (errbuf s) (opcount s) (fncount s) (stat_rec s) (stat_exe s) (stat_rep s) (tfq s).
Definition set_dev_gpu v s := TfSt (slots s) (slot_cursor s) (hs s) (next_h s) (entries s) (scalars s) (scalar_next s) (seed_base s) (seed_next s) (gpu_name s) v (graph_mode s) (errbuf s) (opcount s) (fncount s) (stat_rec s) (stat_exe s) (stat_rep s) (tfq s).
Definition set_errbuf v s := TfSt (slots s) (slot_cursor s) (hs s) (next_h s) (entries s) (scalars s) (scalar_next s) (seed_base s) (seed_next s) (gpu_name s) (dev_gpu s) (graph_mode s) v (opcount s) (fncount s) (stat_rec s) (stat_exe s) (stat_rep s) (tfq s).
Definition set_counts o f s := TfSt (slots s) (slot_cursor s) (hs s) (next_h s) (entries s) (scalars s) (scalar_next s) (seed_base s) (seed_next s) (gpu_name s) (dev_gpu s) (graph_mode s) (errbuf s) o f (stat_rec s) (stat_exe s) (stat_rep s) (tfq s).
Definition set_stats r x p s := TfSt (slots s) (slot_cursor s) (hs s) (next_h s) (entries s) (scalars s) (scalar_next s) (seed_base s) (seed_next s) (gpu_name s) (dev_gpu s) (graph_mode s) (errbuf s) (opcount s) (fncount s) r x p (tfq s).
Definition set_tfq v s := TfSt (slots s) (slot_cursor s) (hs s) (next_h s) (entries s) (scalars s) (scalar_next s) (seed_base s) (seed_next s) (gpu_name s) (dev_gpu s) (graph_mode s) (errbuf s) (opcount s) (fncount s) (stat_rec s) (stat_exe s) (stat_rep s) v.

Abbreviation T := (M tfst).

(** A store outside an array, or a use of a pointer that is not one: C defines
    nothing, and neither does the logic. *)
Definition undefined {A} : T A := λ s, Spin s.

Definition slot (h : Z) : T TfSlot := gets (λ s, slots s h).
Definition upd_slots (h : Z) (f : TfSlot → TfSlot) (s : tfst) : tfst :=
  set_slots (λ i, if decide (i = h) then f (slots s i) else slots s i) s.
Definition upd (h : Z) (f : TfSlot → TfSlot) : T unit := modify (upd_slots h f).

(** ** Status *)

Definition fail (m : bytes) : T unit := modify (set_errbuf (snprintf_s 512 m)).
Definition tfb_error : T bytes := gets errbuf.
Definition tfb_mode : T Z := gets graph_mode.

(** A call into TensorFlow followed by [bad()]: 1 when it failed, with what it
    said in [errbuf]. *)
Definition bad : T bool :=
  q <- gets tfq ;;
  match q with
  | [] => ret false
  | None :: q => modify (set_tfq q) ;; ret false
  | Some m :: q => modify (set_tfq q) ;; fail m ;; ret true
  end.
(** One whose status is put back to TF_OK unread. *)
Definition unread : T bool :=
  q <- gets tfq ;;
  match q with
  | [] => ret true
  | a :: q => modify (set_tfq q) ;; ret (bool_decide (a = None))
  end.

(** ** TFE_TensorHandles *)

Definition new_handle (t : tensor) : T nat := λ s,
  Ret (next_h s) (set_hs (<[next_h s := t]> (hs s)) (S (next_h s)) s).
(** TFE_DeleteTensorHandle *)
Definition delete_handle (h : nat) : T unit := modify (λ s, set_hs (delete h (hs s)) (next_h s) s).
(** What a handle holds. *)
Definition held_by (h : nat) : T tensor :=
  m <- gets hs ;;
  match m !! h with Some t => ret t | None => undefined end.
(** TFE_NewTensorHandle, TFE_TensorHandleCopySharingTensor: a new handle, or
    [None] and the reason in [errbuf]; the second refuses a null handle. *)
Definition make_handle (t : tensor) : T (option nat) :=
  b <- bad ;;
  if (b : bool) then ret None else h <- new_handle t ;; ret (Some h).
Definition copy_sharing `{TensorFlow} (h : option nat) : T (option nat) :=
  match h with
  | None => fail tf_null ;; ret None
  | Some h => t <- held_by h ;; make_handle t
  end.

Definition tfb_device_set (k : Z) : T bool :=
  g <- gets gpu_name ;;
  if decide (k = 0) then modify (set_dev_gpu false) ;; ret true
  else if decide (k = 2) then modify (set_dev_gpu (bool_decide (g ≠ []))) ;; ret true
  else if decide (g ≠ []) then modify (set_dev_gpu true) ;; ret true
  else modify (set_dev_gpu false) ;; ret false.
Definition tfb_on_gpu : T bool := gets dev_gpu.
Definition tfb_seed (s : Z) : T unit := modify (set_seed s 0).

(** ** Slots *)

(** The cursor goes once round the table at most. *)
Fixpoint slot_scan (n : nat) : T (option Z) :=
  match n with
  | O => fail $"handle table full" ;; ret None
  | S n =>
      i <- gets slot_cursor ;;
      modify (set_slot_cursor (if decide (i + 1 < TF_SLOTS) then i + 1 else 1)) ;;
      s <- slot i ;;
      if decide (kind s = K_FREE) then upd i (λ _, zero_slot) ;; ret (Some i)
      else slot_scan n
  end.
Definition slot_new : T (option Z) := slot_scan (Z.to_nat (TF_SLOTS - 1)).

Definition in_table (h : Z) : Prop := 0 < h < TF_SLOTS.
#[export] Instance in_table_decision h : Decision (in_table h).
Proof. unfold in_table. apply _. Defined.

Definition is_live (s : tfst) (h : Z) : bool :=
  bool_decide (in_table h ∧ kind (slots s h) ≠ K_FREE).
Definition exists_ (s : tfst) (h : Z) : bool := is_live s h && negb (released (slots s h)).
Definition live (h : Z) : T bool := gets (λ s, is_live s h).
Definition tfb_exists (h : Z) : T bool := gets (λ s, exists_ s h).

Definition for_each {A} (f : A → T unit) : list A → T unit :=
  fix go l := match l with [] => ret tt | x :: l => f x ;; go l end.

(** [unref] and [really_free] call each other; a free leaves fewer live slots,
    so there are never more than [TF_SLOTS] of them under way. *)
Definition unref_with (really_free : Z → T unit) (h : Z) : T unit :=
  l <- live h ;;
  if (l : bool) then
    s <- slot h ;;
    when (bool_decide (0 < refs s)) (upd h (set_refs (refs s - 1))) ;;
    s <- slot h ;;
    when (released s && bool_decide (refs s = 0)) (really_free h)
  else ret tt.
Fixpoint really_free_n (fuel : nat) (h : Z) : T unit :=
  match fuel with
  | O => λ s, Spin s
  | S fuel =>
      s <- slot h ;;
      match eh s with Some e => delete_handle e | None => ret tt end ;;
      upd h (λ _, zero_slot) ;;
      if decide (kind s = K_NODE) then for_each (unref_with (really_free_n fuel)) (ins (spec s))
      else ret tt
  end.
Definition really_free : Z → T unit := really_free_n (Z.to_nat TF_SLOTS).
Definition unref : Z → T unit := unref_with really_free.

Definition tfb_free (h : Z) : T bool :=
  x <- tfb_exists h ;;
  if (x : bool) then
    upd h (set_released true) ;;
    s <- slot h ;;
    if decide (refs s = 0) then really_free h ;; ret true
    else
      match kind s, eh s with
      | K_NODE, Some e => delete_handle e ;; upd h (set_eh None)
      | _, _ => ret tt
      end ;;
      ret true
  else ret false.

Definition drop_structure (h : Z) : T unit :=
  s <- slot h ;;
  if decide (kind s = K_NODE) then
    upd h (λ s, set_kind K_VALUE (set_spec (spec_init []) s)) ;;
    for_each unref (ins (spec s))
  else ret tt.

Definition set_shape_from_tensor (t : tensor) (s : TfSlot) : TfSlot :=
  set_dtype (t_dtype t) (set_shape_known true (set_shape (take TF_MAXDIM (t_dims t)) s)).

(** The slot takes the handle as its value. *)
Definition take_handle (h : Z) (e : nat) : T unit :=
  s <- slot h ;;
  match eh s with Some old => delete_handle old | None => ret tt end ;;
  t <- held_by e ;;
  upd h (λ s, set_shape_from_tensor t (set_eh (Some e) s)).

(** A float goes to the device at birth: the same value under a new handle. *)
Definition placed (e : nat) : T nat :=
  t <- held_by e ;;
  gpu <- gets dev_gpu ;;
  if negb gpu || bool_decide (t_dtype t ≠ TF_FLOAT) then ret e
  else
    ok <- unread ;;
    if (ok : bool) then d <- new_handle t ;; delete_handle e ;; ret d
    else ret e.

(** A slot holding a value made on the host. *)
Definition slot_from_tensor (t : tensor) (ck : bool) : T (option Z) :=
  h <-? slot_new ;;
  upd h (set_shape_from_tensor t) ;;
  e <- make_handle t ;;
  match e with
  | None => upd h (set_kind K_FREE) ;; ret None
  | Some e =>
      upd h (λ s, set_ckey ck (set_kind K_VALUE (set_eh (Some e) s))) ;;
      (if ck then upd h (set_val (Some t))
       else e' <- placed e ;; upd h (set_eh (Some e'))) ;;
      ret (Some h)
  end.

(** A slot holding a value the runtime made. *)
Definition slot_from_handle (e : nat) : T (option Z) :=
  h <- slot_new ;;
  match h with
  | None => delete_handle e ;; ret None
  | Some h => upd h (set_kind K_VALUE) ;; take_handle h e ;; ret (Some h)
  end.

Definition tfb_from_doubles (data : list float64) (sh : list Z) : T (option Z) :=
  slot_from_tensor (tensor_f32 data sh) false.
Definition tfb_from_ints (data : list Z) : T (option Z) :=
  slot_from_tensor (tensor_i32 data [Z.of_nat (length data)]) false.
Definition ivec (v : list Z) : T (option Z) :=
  slot_from_tensor (tensor_i32 v [Z.of_nat (length v)]) true.
Definition iscalar (v : Z) : T (option Z) :=
  slot_from_tensor (Tensor TF_INT32 [] [Int (sint 32 v)]) true.

(** The cache of scalars: the first entry with an equal value. *)
Definition scalar_find (f : float32) (c : list (float32 * nat)) : option nat :=
  snd <$> head (filter (λ p, SFeqb (fst p) f = true) c).
Definition scalar_keep (f : float32) (e : nat) : T unit :=
  c <- gets scalars ;; n <- gets scalar_next ;;
  let i := if decide (length c < TF_SCALARS)%nat then Z.of_nat (length c) else n in
  let n' := if decide (i = n) then (n + 1) `mod` Z.of_nat TF_SCALARS else n in
  match c !! Z.to_nat i with
  | Some (_, old) => delete_handle old ;; modify (set_scalars (<[Z.to_nat i := (f, e)]> c) n')
  | None => modify (set_scalars (c ++ [(f, e)]) n')
  end.

Section scalars.
Context `{TensorFlow}.

Definition fscalar (v : float64) : T (option Z) :=
  let f := narrow v in
  c <- gets scalars ;;
  match scalar_find f c with
  | Some e => sh <-? copy_sharing (Some e) ;; slot_from_handle sh
  | None =>
      h <-? slot_from_tensor (Tensor TF_FLOAT [] [Flt f]) false ;;
      s <- slot h ;;
      keep <- copy_sharing (eh s) ;;
      match keep with
      | None => ret (Some h)
      | Some keep => scalar_keep f keep ;; ret (Some h)
      end
  end.
End scalars.

Definition with_free (result : T (option Z)) (tmp : Z) : T (option Z) :=
  r <- result ;; when (bool_decide (0 < tmp)) (tfb_free tmp ;; ret tt) ;; ret r.
