(* ===== verification/Closure.v ===== *)
(** * modules/tensorflow/backend.c: the closure of a node, and its key

    What a read or a gradient needs: the nodes down to the values they rest
    on, each after what it reads, and the text that names their structure. *)
From Stdlib Require Import Floats.SpecFloat.
From S2P Require Import Prelude Effect Float Tensor.

Local Open Scope Z_scope.

(** ** printf's %d *)

Fixpoint dec_digits (fuel : nat) (n : Z) : bytes :=
  match fuel with
  | O => []
  | S f => (if decide (n < 10) then [] else dec_digits f (n / 10)) ++ [byte_of (48 + n `mod` 10)]
  end.
Definition dec_nat (n : Z) : bytes := dec_digits (Z.to_nat (Z.log2 n + 1)) n.
Definition dec (n : Z) : bytes := if decide (n < 0) then $"-" ++ dec_nat (- n) else dec_nat n.

(** ** A closure *)

Definition KEY_SIZE : Z := 1048576.

Record Closure := MkClosure {
  leaves : list Z;
  nodes : list Z;
  want : list bool;   (** node i is a result of the call *)
  key : bytes;
}.

(** One printf into the key, of which what does not fit is lost. *)
Definition kput (k : bytes) (text : bytes) : bytes :=
  if decide (Z.of_nat (length k) < KEY_SIZE - 1)
  then take (Z.to_nat (KEY_SIZE - 1)) (k ++ text) else k.

(** What [visit] has been through: its [Closure], as far as it goes, and
    [seen]. *)
Record visiting := Visiting { v_leaves : list Z; v_nodes : list Z; seen : gset Z }.
Inductive visited :=
| V_ok (v : visiting)
| V_fail (why : bytes)
| V_spin.

Definition visit_all (visit : Z → visiting → visited) : list Z → visiting → visited :=
  fix go l v :=
    match l with
    | [] => V_ok v
    | h :: l => match visit h v with V_ok v => go l v | r => r end
    end.

Definition is_leaf (grad_mode : bool) (s : TfSlot) : bool :=
  bool_decide (kind s = K_VALUE) ||
  (bool_decide (eh s ≠ None) && (negb grad_mode || is_param s)).

Fixpoint visit (fuel : nat) (s : tfst) (grad_mode : bool) (h : Z) (v : visiting) : visited :=
  match fuel with
  | O => V_spin
  | S fuel =>
      if negb (is_live s h) then V_fail $"a tensor this one needs has been freed"
      else if decide (h ∈ seen v) then V_ok v
      else
        let v := Visiting (v_leaves v) (v_nodes v) ({[h]} ∪ seen v) in
        if is_leaf grad_mode (slots s h) then
          if decide (TF_MAXLEAF ≤ length (v_leaves v))%nat then V_fail $"too many leaves"
          else V_ok (Visiting (v_leaves v ++ [h]) (v_nodes v) (seen v))
        else
          match visit_all (visit fuel s grad_mode) (ins (spec (slots s h))) v with
          | V_ok v =>
              if decide (TF_MAXNODE ≤ length (v_nodes v))%nat then V_fail $"too many nodes"
              else V_ok (Visiting (v_leaves v) (v_nodes v ++ [h]) (seen v))
          | r => r
          end
  end.
(** Each visit that goes down marks a slot not seen before. *)
Definition visit_fuel : nat := S (Z.to_nat TF_SLOTS).

Fixpoint index_of (h : Z) (l : list Z) : option Z :=
  match l with
  | [] => None
  | x :: l => if decide (x = h) then Some 0 else Z.succ <$> index_of h l
  end.
Definition leaf_index (c : Closure) (h : Z) : Z := default (-1) (index_of h (leaves c)).
Definition node_index (c : Closure) (h : Z) : Z := default (-1) (index_of h (nodes c)).

Section closure.
Context `{TensorFlow}.

Definition print_num (dt : Z) (x : num) : bytes :=
  match x with
  | Int i => if decide (dt = TF_INT32) then dec i ++ $"," else []
  | Flt f => if decide (dt = TF_FLOAT) then fmt_g f ++ $"," else []
  end.

(** Each element of the list is one [kput]. *)
Definition key_leaf (s : tfst) (j : nat) (h : Z) : list bytes :=
  let l := slots s h in
  ($"L" ++ dec (Z.of_nat j) ++ $":" ++ dec (dtype l) ++ $"[")
  :: ((λ d, dec d ++ $",") <$> shape l)
  ++ [ $"]" ]
  ++ match (if ckey l then val l else None) with
     | Some t => $"=" :: (print_num (dtype l) <$> take 32 (t_data t))
     | None => []
     end
  ++ [ $" " ].

Definition print_attr (a : bytes * Z) : bytes := fst a ++ $":" ++ dec (snd a) ++ $",".
Definition print_input (ls ns : list Z) (h : Z) : bytes :=
  match index_of h ls with
  | Some j => $"L" ++ dec j ++ $","
  | None => $"N" ++ dec (default (-1) (index_of h ns)) ++ $","
  end.
Definition key_node (s : tfst) (ls ns : list Z) (i : nat) (h : Z) (w : bool) : list bytes :=
  let p := spec (slots s h) in
  ($"N" ++ dec (Z.of_nat i) ++ $"=" ++ op p ++ $"{")
  :: (print_attr <$> types p) ++ (print_attr <$> ints p) ++ (print_attr <$> bools p)
  ++ [ $"}" ++ dec (list_n p) ++ $"(" ]
  ++ (print_input ls ns <$> ins p)
  ++ [ $")" ++ (if w then $"o" else []) ++ $" " ].

Definition key_pieces (s : tfst) (ls ns : list Z) (ws : list bool) : list bytes :=
  concat (imap (key_leaf s) ls) ++
  concat (imap (λ i '(h, w), key_node s ls ns i h w) (zip ns ws)).

(** A node is wanted when it has no value and the program still names it, or
    it is a parameter, or it is the one asked for. *)
Definition wanted (s : tfst) (asked h : Z) : bool :=
  let l := slots s h in
  bool_decide (eh l = None) && (negb (released l) || is_param l || bool_decide (h = asked)).

Definition closure_of (h : Z) (grad_mode : bool) : T (option Closure) :=
  s <- get ;;
  match visit visit_fuel s grad_mode h (Visiting [] [] ∅) with
  | V_spin => λ s, Spin s
  | V_fail why => fail why ;; ret None
  | V_ok v =>
      let ws := wanted s h <$> v_nodes v in
      ret (Some (MkClosure (v_leaves v) (v_nodes v) ws
                           (foldl kput [] (key_pieces s (v_leaves v) (v_nodes v) ws))))
  end.
End closure.
