(* ===== verification/Compile.v ===== *)
(** * modules/tensorflow/backend.c: compiling a closure, running it, reading

    A closure is compiled once for its key, made a function once, and called;
    a read runs what it needs. *)
From Stdlib Require Import Floats.SpecFloat.
From S2P Require Import Prelude Effect Float Tensor Closure.

Local Open Scope Z_scope.

(** FNV-1a over the key's bytes, 64 bits. *)
Definition fnv (k : bytes) : Z :=
  foldl (λ h b, uint 64 (Z.lxor h (byte_val b) * 1099511628211)) 1469598103934665603 (c_str k).

(** Entries are named by their place in the table. *)
Definition entry_find (k : bytes) (es : list Entry) : option nat :=
  fst <$> list_find (λ e, e_hash e = fnv k ∧ e_key e = k) es.

(** ** The graph of a closure *)

(** The recipe as the operation carries it: its inputs are wired apart. *)
Definition recipe (p : OpSpec) : OpSpec := MkSpec (op p) [] (list_n p) (types p) (ints p) (bools p).

Definition graph_leaf (l : TfSlot) : gleaf :=
  match (if ckey l then val l else None) with
  | Some t => G_const t
  | None => G_placeholder (dtype l) (shape l)
  end.
Definition is_fed (l : TfSlot) : bool :=
  match (if ckey l then val l else None) with Some _ => false | None => true end.
(** The function's arguments: the leaves that are not constants. *)
Definition fed (s : tfst) (ls : list Z) : list Z :=
  concat (imap (λ j h, if is_fed (slots s h) then [Z.of_nat j] else []) ls).
Definition graph_ref (c : Closure) (h : Z) : gref :=
  if decide (0 ≤ leaf_index c h) then R_leaf (leaf_index c h) else R_node (node_index c h).
Definition graph_node (c : Closure) (p : OpSpec) : gnode := GNode (recipe p) (graph_ref c <$> ins p).
(** The nodes that are results, in order. *)
Definition out_nodes (ws : list bool) : list Z :=
  concat (imap (λ i (w : bool), if w then [Z.of_nat i] else []) ws).

Section compile.
Context `{TensorFlow}.

(** Each operation is finished in turn; one refused ends it. *)
Fixpoint finish_leaves (ls : list gleaf) (g : graph) : T (option graph) :=
  match ls with
  | [] => ret (Some g)
  | l :: ls =>
      modify (λ s, set_counts (opcount s + 1) (fncount s) s) ;;
      b <- bad ;;
      if (b : bool) then ret None
      else finish_leaves ls (Graph (g_leaves g ++ [l]) (g_nodes g))
  end.
Fixpoint finish_nodes (ns : list gnode) (g : graph) : T (option graph) :=
  match ns with
  | [] => ret (Some g)
  | n :: ns =>
      modify (λ s, set_counts (opcount s + 1) (fncount s) s) ;;
      match tf_check g n with
      | Some why => fail why ;; ret None
      | None =>
          b <- bad ;;
          if (b : bool) then ret None
          else finish_nodes ns (Graph (g_leaves g) (g_nodes g ++ [n]))
      end
  end.

Definition entry_compile (c : Closure) : T (option nat) :=
  es <- gets entries ;;
  if decide (TF_MAXENTRY ≤ length es)%nat then fail $"too many compiled closures" ;; ret None
  else
    s <- get ;;
    g <-? finish_leaves ((λ h, graph_leaf (slots s h)) <$> leaves c) (Graph [] []) ;;
    g <-? finish_nodes ((λ h, graph_node c (spec (slots s h))) <$> nodes c) g ;;
    modify (λ s, set_entries (entries s ++
      [MkEntry (key c) (fnv (key c)) g (fed s (leaves c)) (out_nodes (want c)) [] [] 0 None]) s) ;;
    ret (Some (length es)).

(** The entry, and whether it was there. *)
Definition entry_for (c : Closure) : T (option (nat * bool)) :=
  es <- gets entries ;;
  match entry_find (key c) es with
  | Some e => ret (Some (e, true))
  | None => e <-? entry_compile c ;; ret (Some (e, false))
  end.

Definition entry (e : nat) : T Entry :=
  es <- gets entries ;;
  match es !! e with Some x => ret x | None => undefined end.
Definition upd_entry (e : nat) (f : Entry → Entry) : T unit :=
  modify (λ s, set_entries (alter f e (entries s)) s).

(** Where each gradient comes among the results, -1 for one that does not
    exist; and the results. *)
Fixpoint place_grads (nout : Z) (gs : list (option gout)) : list Z :=
  match gs with
  | [] => []
  | Some _ :: gs => nout :: place_grads (nout + 1) gs
  | None :: gs => -1 :: place_grads nout gs
  end.
Definition function_outs (e : Entry) : list gout :=
  ((λ i, O_ref (R_node i)) <$> out_node e) ++ omap id (grads e).

Definition entry_function (e : nat) : T bool :=
  x <- entry e ;;
  if decide (fn x ≠ None) then ret true
  else
    let nout := Z.of_nat (length (function_outs x)) in
    upd_entry e (set_grad_at (place_grads (Z.of_nat (length (out_node x))) (grads x))) ;;
    n <- gets fncount ;;
    modify (λ s, set_counts (opcount s) (fncount s + 1) s) ;;
    b <- bad ;;
    if (b : bool) then ret false
    else
      upd_entry e (set_fn (Some (Func n (e_graph x) (in_leaf x) (function_outs x)))) ;;
      b <- bad ;;
      if (b : bool) then ret false
      else upd_entry e (set_noutputs nout) ;; ret true.

(** ** A call *)

(** [TFE_OpAddInput] of each handle: the tensors, or a refusal. *)
Fixpoint add_inputs (l : list (option nat)) : T (option (list tensor)) :=
  match l with
  | [] => ret (Some [])
  | None :: _ => fail tf_null ;; ret None
  | Some h :: l =>
      b <- bad ;;
      if (b : bool) then ret None
      else t <- held_by h ;; ts <-? add_inputs l ;; ret (Some (t :: ts))
  end.
Definition new_handles : list tensor → T (list nat) :=
  fix go l := match l with
              | [] => ret []
              | t :: l => h <- new_handle t ;; hs <- go l ;; ret (h :: hs)
              end.

(** The function called on its arguments: handles on its results. *)
Definition call_function (c : Closure) (x : Entry) (f : func) : T (option (list nat)) :=
  b <- bad ;;
  if (b : bool) then ret None
  else
    s <- get ;;
    ts <-? add_inputs ((λ k, eh (slots s (default 0 (leaves c !! Z.to_nat k)))) <$> in_leaf x) ;;
    b <- bad ;;
    if (b : bool) then ret None
    else match tf_call f ts with
         | inr why => fail why ;; ret None
         | inl outs => r <- new_handles outs ;; ret (Some r)
         end.

Definition bump_exe : T unit :=
  modify (λ s, set_stats (stat_rec s) (stat_exe s + 1) (stat_rep s) s).
Definition bump_rep : T unit :=
  modify (λ s, set_stats (stat_rec s) (stat_exe s) (stat_rep s + 1) s).

(** The results taken by the nodes they are of.  A node keeps its structure
    only when a parameter is under it and it is not one itself. *)
Definition take_results (c : Closure) : list (Z * nat) → T unit :=
  for_each (λ '(i, r),
    let h := default 0 (nodes c !! Z.to_nat i) in
    take_handle h r ;;
    bump_exe ;;
    s <- slot h ;;
    when (negb (under_param s) || is_param s) (drop_structure h)).

(** The gradients, each a slot of its own: the function's result, or zeros of
    the parameter's shape.  [rets] are the results not yet taken, deleted if a
    slot cannot be had. *)
Fixpoint take_grads (rets : list (option nat)) (pg : list (Z * Z)) (gs : list Z) : T (option (list Z)) :=
  match pg with
  | [] => ret (Some gs)
  | (p, at_) :: pg =>
      if decide (at_ < 0) then
        s <- slot p ;;
        let n := elements (shape s) in
        h <- tfb_from_doubles (replicate (Z.to_nat (Z.max n 1)) (S754_zero false)) (shape s) ;;
        match h with
        | None => for_each delete_handle (omap id rets) ;; ret None
        | Some h => take_grads rets pg (gs ++ [h])
        end
      else
        match rets !! Z.to_nat at_ with
        | Some (Some r) =>
            h <- slot_from_handle r ;;
            bump_exe ;;
            let rets := <[Z.to_nat at_ := None]> rets in
            match h with
            | None => for_each delete_handle (omap id rets) ;; ret None
            | Some h => take_grads rets pg (gs ++ [h])
            end
        | _ => undefined
        end
  end.

(** One call: the leaves in, the wanted nodes and the gradients out. *)
Definition execute (c : Closure) (e : nat) (ps : list Z) : T (option (list Z)) :=
  ok <- entry_function e ;;
  if negb ok then ret None
  else
    x <- entry e ;;
    rets <-? (if decide (0 < noutputs x) then
                match fn x with
                | None => undefined
                | Some f =>
                    rs <-? call_function c x f ;;
                    take_results c (zip (out_node x) rs) ;;
                    ret (Some (replicate (length (out_node x)) None ++ (Some <$> drop (length (out_node x)) rs)))
                end
              else ret (Some [])) ;;
    take_grads rets (zip ps (grad_at x)) [].

(** Run the closure of [h]: it, and every node in it the program names, get
    their values. *)
Definition run_closure (h : Z) : T bool :=
  c <-& closure_of h false ;;
  if decide (length (nodes c) = 0)%nat then ret true
  else
    eh <-& entry_for c ;;
    r <- execute c (fst eh) [] ;;
    when (bool_decide (r ≠ None) && snd eh) bump_rep ;;
    ret (bool_decide (r ≠ None)).

Definition tfb_force (h : Z) : T bool :=
  x <- tfb_exists h ;;
  if negb x then ret false
  else s <- slot h ;; if decide (eh s = None) then run_closure h else ret true.

(** ** Reading *)

(** An element as a double: an int64 is rounded, the rest are exact. *)
Definition as_double (x : num) : float64 :=
  match x with Int i => double_of i | Flt f => widen f end.
Definition readable (dt : Z) : bool :=
  bool_decide (dt = TF_FLOAT ∨ dt = TF_DOUBLE ∨ dt = TF_INT32 ∨ dt = TF_INT64).

(** TFE_TensorHandleResolve, then the elements and the sizes. *)
Definition tfb_values (h : Z) : T (option (list float64 * list Z)) :=
  x <- tfb_exists h ;;
  if negb x then fail $"not a tensor" ;; ret None
  else
    ok <- tfb_force h ;;
    if negb ok then ret None
    else
      s <- slot h ;;
      match eh s with
      | None => fail tf_null ;; ret None
      | Some e =>
          b <- bad ;;
          if (b : bool) then ret None
          else
            t <- held_by e ;;
            if readable (t_dtype t) then ret (Some (as_double <$> t_data t, t_dims t))
            else fail $"unsupported dtype" ;; ret None
      end.

Definition tfb_is_int (h : Z) : T bool :=
  gets (λ s, exists_ s h && bool_decide (dtype (slots s h) = TF_INT32 ∨ dtype (slots s h) = TF_INT64)).

(** The shape without running anything, if it can be had. *)
Definition tfb_shape (h : Z) : T (option (list Z)) :=
  x <- tfb_exists h ;;
  if negb x then ret None
  else
    s <- slot h ;;
    if shape_known s then ret (Some (shape s))
    else
      c <-? closure_of h false ;;
      eh <-? entry_for c ;;
      x <- entry (fst eh) ;;
      let by_running := ok <- run_closure h ;;
                        if (ok : bool) then s <- slot h ;; ret (Some (shape s)) else ret None in
      b <- bad ;;
      match (if (b : bool) then None else tf_infer (e_graph x) (R_node (node_index c h))) with
      | None => by_running
      | Some dims =>
          if decide (TF_MAXDIM < length dims)%nat then undefined
          else
            b <- bad ;;
            if (b : bool) then ret None
            else if existsb (λ d, bool_decide (d < 0)) dims then by_running
            else upd h (λ s, set_shape_known true (set_shape dims s)) ;; ret (Some dims)
      end.
End compile.
