(* ===== verification/Shape.v ===== *)
(** * modules/tensorflow/backend.c: the shape of a recorded node, by rule *)
From Stdlib Require Import Floats.SpecFloat.
From S2P Require Import Prelude Effect Float Tensor Closure Compile.

Local Open Scope Z_scope.

(** [bcast]: the sizes line up from the last; a missing one is 1. *)
Definition bdim (l : list Z) (n i : nat) : Z :=
  if decide (i < n - length l)%nat then 1 else default 0 (l !! (i - (n - length l))%nat).
Definition bcast_dim (da db : Z) : option Z :=
  if decide (da ≠ db ∧ da ≠ 1 ∧ db ≠ 1) then None else Some (if decide (da > db) then da else db).
Definition bcast (a b : list Z) : option (list Z) :=
  let n := (length a `max` length b)%nat in
  mapM (λ i, bcast_dim (bdim a n i) (bdim b n i)) (seq 0 n).

(** The integers a made constant holds. *)
Definition int_of (x : num) : Z := match x with Int i => i | Flt _ => 0 end.
Definition made_ints (s : tfst) (h : Z) : option (list Z) :=
  t ← val (slots s h); Some (int_of <$> t_data t).

(** [keep_dims] among the flags, the last one standing. *)
Definition keep_dims (p : OpSpec) : bool :=
  foldl (λ k '(a, v), if decide (a = $"keep_dims") then bool_decide (v ≠ 0) else k) false (bools p).

Definition reduced (axes : list Z) (na i : Z) : bool :=
  existsb (λ x, bool_decide (x = i ∨ x + na = i)) axes.
Definition reduce_dims (axes : list Z) (keep : bool) (a : list Z) : list Z :=
  concat (imap (λ i d, if reduced axes (Z.of_nat (length a)) (Z.of_nat i)
                       then (if keep then [1] else []) else [d]) a).

(** All sizes but the [dim]-th, if there is one. *)
Definition drop_dim (dim : Z) (a : list Z) : list Z :=
  concat (imap (λ i d, if decide (Z.of_nat i = dim) then [] else [d]) a).

(** An axis, a negative one counted from the end. *)
Definition from_end (dim : Z) (na : nat) : Z := if decide (dim < 0) then dim + Z.of_nat na else dim.

(** A product in 64 bits. *)
Definition product64 (l : list Z) : Z := foldl (λ n d, sint 64 (n * d)) 1 l.

(** The sizes asked of Reshape: the last -1 takes what is left. *)
Definition reshape_dims (total : Z) (v : list Z) : list Z + bytes :=
  let known := product64 (filter (λ x, x ≠ -1) v) in
  match last (filter (λ i, v !! i = Some (-1)) (seq 0 (length v))) with
  | Some w =>
      if decide (known = 0) then inr $"!reshape: the sizes do not divide"
      else if decide (Z.rem total known ≠ 0) then inr $"!reshape: the sizes do not divide"
      else inl (<[w := Z.quot total known]> v)
  | None =>
      if decide (known = total) then inl v
      else inr ($"!reshape: " ++ dec total ++ $" values into " ++ dec known)
  end.

(** One axis of Slice. *)
Definition slice_dim (a begin size : Z) : option Z :=
  let s0 := if decide (size < 0) then a - begin else size in
  if decide (begin < 0 ∨ begin + s0 > a) then None else Some s0.
Definition slice_dims (a begin size : list Z) : option (list Z) :=
  mapM (λ '(d, (b, z)), slice_dim d b z) (zip a (zip begin size)).

(** Concatenation along [dim]: the ranks and the other sizes agree. *)
Definition cat_fits (dim : Z) (a b : list Z) : bool :=
  forallb (λ '(i, (x, y)), bool_decide (Z.of_nat i = dim) || bool_decide (x = y))
          (imap (λ i p, (i, p)) (zip a b)).

Definition same_shape : list bytes :=
  [$"Neg"; $"Abs"; $"Exp"; $"Log"; $"Sqrt"; $"Relu"; $"Sigmoid"; $"Tanh"; $"Cast"].
Definition broadcasting : list bytes := [$"AddV2"; $"Sub"; $"Mul"; $"RealDiv"; $"Pow"; $"Maximum"].
Definition reducing : list bytes := [$"Sum"; $"Mean"; $"Max"; $"Min"].

Section shape.
Context `{TensorFlow}.

Definition input (p : OpSpec) (i : nat) : Z := default 0 (ins p !! i).
(** A refusal: the goal's error, marked with a [!]. *)
Definition refuse (m : bytes) : T (option (list Z)) :=
  modify (set_errbuf (snprintf_s 512 m)) ;; ret None.

(** [sh[dim] += b[dim]] for each further input: [sh] and [b] are arrays of
    eight, of which the first [na] are the shape. *)
Fixpoint cat_dims (dim : Z) (a : list Z) (sh : list Z) (hs : list Z) : T (option (list Z)) :=
  match hs with
  | [] => ret (Some sh)
  | h :: hs =>
      b <-? tfb_shape h ;;
      if decide (length b ≠ length a) then refuse $"!cat: ranks differ"
      else if negb (cat_fits dim a b) then refuse $"!cat: shapes differ off the axis"
      else if decide (dim < 0 ∨ Z.of_nat TF_MAXDIM ≤ dim) then undefined
      else cat_dims dim a (alter (Z.add (default 0 (b !! Z.to_nat dim))) (Z.to_nat dim) sh) hs
  end.

Definition shape_rule (p : OpSpec) : T (option (list Z)) :=
  a <-? (if decide (ins p = []) then ret (Some []) else tfb_shape (input p 0)) ;;
  let na := length a in
  if decide (op p ∈ same_shape) then ret (Some a)
  else if decide (op p ∈ broadcasting) then
    b <-? tfb_shape (input p 1) ;;
    match bcast a b with
    | Some sh => ret (Some sh)
    | None => refuse $"!shapes do not broadcast"
    end
  else if decide (op p = $"MatMul") then
    b <-? tfb_shape (input p 1) ;;
    match a, b with
    | [a0; a1], [b0; b1] =>
        if decide (a1 = b0) then ret (Some [a0; b1])
        else refuse ($"!matmul: " ++ dec a1 ++ $" columns against " ++ dec b0 ++ $" rows")
    | _, _ => refuse $"!matmul wants two matrices"
    end
  else if decide (op p = $"Transpose") then
    match a with [a0; a1] => ret (Some [a1; a0]) | _ => ret None end
  else if decide (op p ∈ reducing) then
    s <- get ;;
    match made_ints s (input p 1) with
    | None => ret None
    | Some axes => ret (Some (reduce_dims axes (keep_dims p) a))
    end
  else if decide (op p = $"ArgMax") then
    s <- get ;;
    match made_ints s (input p 1) with
    | None => ret None
    | Some v => ret (Some (drop_dim (from_end (default 0 (v !! 0%nat)) na) a))
    end
  else if decide (op p = $"Reshape") then
    s <- get ;;
    match made_ints s (input p 1) with
    | None => ret None
    | Some v =>
        if decide (TF_MAXDIM < length v)%nat then undefined
        else match reshape_dims (product64 a) v with
             | inl sh => ret (Some sh)
             | inr why => refuse why
             end
    end
  else if decide (op p = $"ConcatV2") then
    s <- get ;;
    match made_ints s (input p (length (ins p) - 1)) with
    | None => ret None
    | Some v => cat_dims (from_end (default 0 (v !! 0%nat)) na) a a
                         (take (Z.to_nat (list_n p) - 1) (drop 1 (ins p)))
    end
  else if decide (op p = $"GatherV2") then
    b <-? tfb_shape (input p 1) ;;
    let sh := b ++ drop 1 a in
    if decide (TF_MAXDIM < length sh)%nat then undefined else ret (Some sh)
  else if decide (op p = $"Slice") then
    s <- get ;;
    match made_ints s (input p 1), made_ints s (input p 2) with
    | Some begin, Some size =>
        match slice_dims a begin size with
        | Some sh => ret (Some sh)
        | None => refuse $"!slice: out of range"
        end
    | _, _ => ret None
    end
  else ret None.
End shape.
