(* ===== verification/Producer.v ===== *)
(** * modules/tensorflow/backend.c: the producers, gradients and steps *)
From Stdlib Require Import Floats.SpecFloat.
From S2P Require Import Prelude Effect Float Tensor Closure Compile Shape.

Local Open Scope Z_scope.

Definition stat_rec_add (n : Z) (s : tfst) : tfst := set_stats (stat_rec s + n) (stat_exe s) (stat_rep s) s.

(** An input is a parameter, or a recorded node with one under it. *)
Definition param_below (s : TfSlot) : bool :=
  is_param s || (bool_decide (kind s = K_NODE) && under_param s).

(** The type a recorded node will have. *)
Definition recorded_dtype (p : OpSpec) (in0 : Z) : Z :=
  if decide (op p = $"Reshape" ∨ op p = $"GatherV2" ∨ op p = $"Slice") then in0
  else foldl (λ d '(a, t), if decide (a = $"output_type" ∨ a = $"DstT") then t else d) TF_FLOAT (types p).

Section producers.
Context `{TensorFlow}.

Definition all_exist (hs : list Z) : T bool := gets (λ s, forallb (exists_ s) hs).

(** Recorded tensors among the inputs are run first. *)
Fixpoint run_inputs (hs : list Z) : T bool :=
  match hs with
  | [] => ret true
  | h :: hs =>
      s <- slot h ;;
      (if decide (eh s = None) then run_closure h else ret true) &;
      run_inputs hs
  end.

(** A list of inputs is added in one call. *)
Fixpoint get_inputs (l : list (option nat)) : T (option (list tensor)) :=
  match l with
  | [] => ret (Some [])
  | None :: _ => fail tf_null ;; ret None
  | Some h :: l => t <- held_by h ;; ts <-? get_inputs l ;; ret (Some (t :: ts))
  end.
Definition op_inputs (n : nat) (l : list (option nat)) : T (option (list tensor)) :=
  if decide (n = 0)%nat then add_inputs l
  else
    b <- bad ;;
    if (b : bool) then ret None
    else ts <-? get_inputs (take n l) ;; us <-? add_inputs (drop n l) ;; ret (Some (ts ++ us)).

(** Executed now, on the device. *)
Definition execute_op (p : OpSpec) : T (option Z) :=
  b <- bad ;;
  if (b : bool) then ret None
  else
    s <- get ;;
    ts <-? op_inputs (Z.to_nat (list_n p)) ((λ h, eh (slots s h)) <$> ins p) ;;
    b <- bad ;;
    if (b : bool) then ret None
    else match tf_exec (recipe p) ts with
         | inr why => fail why ;; ret None
         | inl t => e <- new_handle t ;; slot_from_handle e
         end.

Definition add_ref (h : Z) : T unit := upd h (λ s, set_refs (refs s + 1) s).

(** A node is made: its recipe, and a reference on each input. *)
Definition record (h : Z) (p : OpSpec) (up : bool) : T unit :=
  upd h (λ s, set_under_param up (set_spec p (set_kind K_NODE s))) ;;
  for_each add_ref (ins p).
(** ... and unmade. *)
Definition undo (h : Z) (p : OpSpec) : T (option Z) :=
  for_each unref (ins p) ;;
  upd h (set_kind K_FREE) ;;
  modify (stat_rec_add (-1)) ;;
  ret None.

Definition run_eager (p : OpSpec) (up : bool) : T (option Z) :=
  ok <- run_inputs (ins p) ;;
  if negb ok then ret None
  else
    h <-? execute_op p ;;
    (if up then record h p true ;; modify (stat_rec_add 1) else ret tt) ;;
    ret (Some h).

Definition run_graph (p : OpSpec) (up : bool) : T (option Z) :=
  h <-? slot_new ;;
  record h p up ;;
  s <- get ;;
  upd h (set_dtype (recorded_dtype p (dtype (slots s (input p 0))))) ;;
  modify (stat_rec_add 1) ;;
  sh <- shape_rule p ;;
  match sh with
  | Some sh => upd h (λ s, set_shape_known true (set_shape sh s)) ;; ret (Some h)
  | None =>
      e <- gets errbuf ;;
      if decide (head e = Some (byte_of 33)) then
        modify (set_errbuf (tail e)) ;; undo h p
      else
        sh <- tfb_shape h ;;
        match sh with
        | None => undo h p
        | Some _ => ret (Some h)
        end
  end.

Definition run_spec (p : OpSpec) : T (option Z) :=
  x <- all_exist (ins p) ;;
  if negb x then fail $"not a tensor" ;; ret None
  else
    s <- get ;;
    let up := existsb (λ h, param_below (slots s h)) (ins p) in
    m <- tfb_mode ;;
    if decide (m = 0) then run_eager p up else run_graph p up.

(** ** The producers *)

Definition unop (nm : bytes) : option bytes :=
  if decide (nm = $"neg") then Some $"Neg" else if decide (nm = $"abs") then Some $"Abs"
  else if decide (nm = $"exp") then Some $"Exp" else if decide (nm = $"log") then Some $"Log"
  else if decide (nm = $"sqrt") then Some $"Sqrt" else if decide (nm = $"relu") then Some $"Relu"
  else if decide (nm = $"sigmoid") then Some $"Sigmoid" else if decide (nm = $"tanh") then Some $"Tanh"
  else None.
Definition transpose_spec (a pv : Z) : OpSpec :=
  spec_type $"Tperm" TF_INT32 (spec_type $"T" TF_FLOAT (spec_in pv (spec_in a (spec_init $"Transpose")))).
Definition tfb_unary (nm : bytes) (a : Z) : T (option Z) :=
  if decide (nm = $"transpose") then
    pv <-? ivec [1; 0] ;;
    with_free (run_spec (transpose_spec a pv)) pv
  else match unop nm with
       | None => fail $"unknown unary" ;; ret None
       | Some o => run_spec (spec_type $"T" TF_FLOAT (spec_in a (spec_init o)))
       end.

Definition binop (nm : bytes) : option bytes :=
  if decide (nm = $"add") then Some $"AddV2" else if decide (nm = $"sub") then Some $"Sub"
  else if decide (nm = $"mul") then Some $"Mul" else if decide (nm = $"div") then Some $"RealDiv"
  else if decide (nm = $"pow") then Some $"Pow" else if decide (nm = $"matmul") then Some $"MatMul"
  else None.
Definition binary_spec (o : bytes) (a b : Z) : OpSpec :=
  spec_type $"T" TF_FLOAT (spec_in b (spec_in a (spec_init o))).
Definition tfb_binary (nm : bytes) (a b : Z) : T (option Z) :=
  match binop nm with
  | None => fail $"unknown binary" ;; ret None
  | Some o =>
      let p := binary_spec o a b in
      run_spec (if decide (o = $"MatMul")
                then spec_bool $"transpose_b" 0 (spec_bool $"transpose_a" 0 p) else p)
  end.
Definition tfb_scalar (nm : bytes) (a : Z) (v : float64) : T (option Z) :=
  match binop nm with
  | None => fail $"unknown scalar op" ;; ret None
  | Some o =>
      if decide (o = $"MatMul") then fail $"unknown scalar op" ;; ret None
      else
        s <-? fscalar v ;;
        with_free (run_spec (binary_spec o a s)) s
  end.

Definition reduce_spec (o : bytes) (a ax keep : Z) : OpSpec :=
  spec_bool $"keep_dims" keep (spec_type $"Tidx" TF_INT32 (spec_type $"T" TF_FLOAT (spec_in ax (spec_in a (spec_init o))))).
Definition reduce_all (o : bytes) (a keep : Z) : T (option Z) :=
  sh <-? tfb_shape a ;;
  ax <-? ivec (Z.of_nat <$> seq 0 (length sh)) ;;
  with_free (run_spec (reduce_spec o a ax keep)) ax.
Definition reduce_axis (o : bytes) (a axis keep : Z) : T (option Z) :=
  ax <-? ivec [axis] ;;
  with_free (run_spec (reduce_spec o a ax keep)) ax.

(** [int64_t x = f(...); tfb_free(a); if (x < 0) return -1;] *)
Definition then_free (m : T (option Z)) (a : Z) : T (option Z) :=
  x <- m ;; tfb_free a ;; ret x.
(** The divisor of a sample variance. *)
Definition sample_count (n : Z) : float64 := double_of (if decide (1 < n) then n - 1 else 1).

Definition tfb_std (a : Z) : T (option Z) :=
  sh <-? tfb_shape a ;;
  let n := product64 sh in
  mu <-? reduce_all $"Mean" a 0 ;;
  d <-? then_free (tfb_binary $"sub" a mu) mu ;;
  sq <-? then_free (tfb_binary $"mul" d d) d ;;
  ss <-? then_free (reduce_all $"Sum" sq 0) sq ;;
  v <-? then_free (tfb_scalar $"div" ss (sample_count n)) ss ;;
  then_free (tfb_unary $"sqrt" v) v.
Definition tfb_agg (nm : bytes) (a : Z) : T (option Z) :=
  if decide (nm = $"sum") then reduce_all $"Sum" a 0
  else if decide (nm = $"mean") then reduce_all $"Mean" a 0
  else if decide (nm = $"max") then reduce_all $"Max" a 0
  else if decide (nm = $"min") then reduce_all $"Min" a 0
  else if decide (nm = $"std") then tfb_std a
  else fail $"unknown aggregation" ;; ret None.

Definition argmax_spec (a d : Z) : OpSpec :=
  spec_type $"output_type" TF_INT64 (spec_type $"Tidx" TF_INT32 (spec_type $"T" TF_FLOAT
    (spec_in d (spec_in a (spec_init $"ArgMax"))))).
Definition tfb_argmax (a dim : Z) : T (option Z) :=
  d <-? iscalar dim ;;
  with_free (run_spec (argmax_spec a d)) d.

(** The type of a tensor's elements as an operation is told it. *)
Definition own_type (a : Z) : T Z :=
  i <- tfb_is_int a ;; s <- slot a ;; ret (if (i : bool) then dtype s else TF_FLOAT).

Definition tfb_reshape (a : Z) (sh : list Z) : T (option Z) :=
  sv <-? ivec sh ;;
  t <- own_type a ;;
  with_free (run_spec (spec_type $"Tshape" TF_INT32 (spec_type $"T" t
                         (spec_in sv (spec_in a (spec_init $"Reshape")))))) sv.

Definition tfb_cat (l : list Z) (dim : Z) : T (option Z) :=
  if decide (length l < 1 ∨ TF_MAXIN - 1 < length l)%nat then fail $"cat: 1 to 7 tensors" ;; ret None
  else
    ax <-? iscalar dim ;;
    let n := Z.of_nat (length l) in
    with_free (run_spec (spec_int $"N" n (spec_type $"Tidx" TF_INT32 (spec_type $"T" TF_FLOAT
      (spec_list n (spec_in ax (foldl (λ p h, spec_in h p) (spec_init $"ConcatV2") l))))))) ax.

Definition cast_spec (idx : Z) : OpSpec :=
  spec_bool $"Truncate" 0 (spec_type $"DstT" TF_INT32 (spec_type $"SrcT" TF_FLOAT (spec_in idx (spec_init $"Cast")))).
Definition tfb_gather (a idx : Z) : T (option Z) :=
  i <- tfb_is_int idx ;;
  tmp <-? (if (i : bool) then ret (Some (-1)) else run_spec (cast_spec idx)) ;;
  let ix := if (i : bool) then idx else tmp in
  ax <- iscalar 0 ;;
  match ax with
  | None => when (bool_decide (0 < tmp)) (tfb_free tmp ;; ret tt) ;; ret None
  | Some ax =>
      ta <- own_type a ;;
      s <- slot ix ;;
      r <- run_spec (spec_int $"batch_dims" 0 (spec_type $"Taxis" TF_INT32 (spec_type $"Tindices" (dtype s)
             (spec_type $"Tparams" ta (spec_in ax (spec_in ix (spec_in a (spec_init $"GatherV2")))))))) ;;
      tfb_free ax ;;
      when (bool_decide (0 < tmp)) (tfb_free tmp ;; ret tt) ;;
      ret r
  end.

Definition tfb_slice (a axis from to : Z) : T (option Z) :=
  sh <-? tfb_shape a ;;
  let nd := length sh in
  if decide (Z.of_nat nd ≤ axis) then fail $"slice: no such axis" ;; ret None
  else if decide (axis < 0) then undefined
  else
    b <- ivec (<[Z.to_nat axis := from]> (replicate nd 0)) ;;
    z <- ivec (<[Z.to_nat axis := sint 64 (to - from)]> (replicate nd (-1))) ;;
    match b, z with
    | Some b, Some z =>
        t <- own_type a ;;
        r <- run_spec (spec_type $"Index" TF_INT32 (spec_type $"T" t
               (spec_in z (spec_in b (spec_in a (spec_init $"Slice")))))) ;;
        tfb_free b ;; tfb_free z ;; ret r
    | _, _ => ret None
    end.

(** 1e-7 as a double. *)
Definition tiny : float64 := S754_finite false 7555786372591432 (-76).
Definition tfb_standardise (a ntrain : Z) : T (option Z) :=
  hd <-? tfb_slice a 0 0 ntrain ;;
  mu <-? reduce_axis $"Mean" hd 0 1 ;;
  d <-? then_free (tfb_binary $"sub" hd mu) hd ;;
  sq <-? then_free (tfb_binary $"mul" d d) d ;;
  ss <-? then_free (reduce_axis $"Sum" sq 0 1) sq ;;
  var <-? then_free (tfb_scalar $"div" ss (sample_count ntrain)) ss ;;
  sd0 <-? then_free (tfb_unary $"sqrt" var) var ;;
  floor <-? fscalar tiny ;;
  sd <-? then_free (then_free (run_spec (binary_spec $"Maximum" sd0 floor)) sd0) floor ;;
  c <-? then_free (tfb_binary $"sub" a mu) mu ;;
  then_free (then_free (tfb_binary $"div" c sd) c) sd.

(** ** Leaves *)

Definition tfb_fill (sh : list Z) (v : float64) : T (option Z) :=
  tfb_from_doubles (replicate (Z.to_nat (Z.max (elements sh) 1)) v) sh.
Definition one : float64 := double_of 1.
Definition tfb_eye (n : Z) : T (option Z) :=
  tfb_from_doubles ((λ k, if decide (k `mod` (n + 1) = 0) then one else S754_zero false)
                      <$> (Z.of_nat <$> seq 0 (Z.to_nat (n * n)))) [n; n].
Definition tfb_arange (n : Z) : T (option Z) :=
  tfb_from_doubles (double_of <$> (Z.of_nat <$> seq 0 (Z.to_nat n))) [n].

(** The shape and the seed are handles for the length of the call. *)
Definition tfb_random (sh : list Z) (normal : bool) : T (option Z) :=
  shp <-? make_handle (tensor_i32 sh [Z.of_nat (length sh)]) ;;
  b <- gets seed_base ;; n <- gets seed_next ;;
  modify (set_seed b (n + 1)) ;;
  sd <- make_handle (tensor_i32 [b; n + 1] [2]) ;;
  match sd with
  | None => delete_handle shp ;; ret None
  | Some sd =>
      b <- bad ;;
      if (b : bool) then delete_handle shp ;; delete_handle sd ;; ret None
      else
        ts <- held_by shp ;; td <- held_by sd ;;
        b <- bad ;;
        let o := if normal then $"StatelessRandomNormal" else $"StatelessRandomUniform" in
        let p := spec_type $"Tseed" TF_INT32 (spec_type $"T" TF_INT32 (spec_type $"dtype" TF_FLOAT (spec_init o))) in
        delete_handle shp ;; delete_handle sd ;;
        if (b : bool) then ret None
        else match tf_exec p [ts; td] with
             | inr why => fail why ;; ret None
             | inl t => e <- new_handle t ;; e <- placed e ;; slot_from_handle e
             end
  end.

(** The generator, and the shuffle: [v[i]] changes places with one at or below
    it, from the top down. *)
Definition lcg (x : Z) : Z := uint 64 (x * 6364136223846793005 + 1442695040888963407).
Definition swap {A} (i j : nat) (v : list A) : list A :=
  match v !! i, v !! j with
  | Some a, Some b => <[j := a]> (<[i := b]> v)
  | _, _ => v
  end.
Fixpoint shuffle {A} (i : nat) (x : Z) (v : list A) : list A :=
  match i with
  | O => v
  | S i' =>
      let x := lcg x in
      let j := Z.to_nat (Z.shiftr x 33 `mod` (Z.of_nat i + 1)) in
      shuffle i' x (swap i j v)
  end.
Definition tfb_randperm (n : Z) : T (option Z) :=
  b <- gets seed_base ;; k <- gets seed_next ;;
  modify (set_seed b (k + 1)) ;;
  let x := uint 64 (uint 64 b * 6364136223846793005 + uint 64 (k + 1) * 1442695040888963407) in
  tfb_from_doubles (shuffle (Z.to_nat (n - 1)) x (double_of <$> (Z.of_nat <$> seq 0 (Z.to_nat n)))) [n].

(** ** Parameters, steps and gradients *)

Definition tfb_parameter (a : Z) : T (option Z) :=
  x <- tfb_exists a ;;
  if negb x then fail $"not a tensor" ;; ret None
  else
    ok <- tfb_force a ;;
    if negb ok then ret None
    else
      s <- slot a ;;
      e <-? copy_sharing (eh s) ;;
      h <-? slot_from_handle e ;;
      upd h (set_is_param true) ;;
      ret (Some h).

Definition tfb_step (w g : Z) (lr : float64) : T (option Z) :=
  scaled <-? tfb_scalar $"mul" g lr ;;
  next <-? then_free (tfb_binary $"sub" w scaled) scaled ;;
  upd next (set_is_param true) ;;
  s <- slot next ;;
  when (bool_decide (eh s ≠ None)) (drop_structure next) ;;
  ret (Some next).

(** Where a parameter comes in the closure: a leaf, a node, or nowhere. *)
Definition place (c : Closure) (p : Z) : option gref :=
  if decide (0 ≤ leaf_index c p) then Some (R_leaf (leaf_index c p))
  else if decide (0 ≤ node_index c p) then Some (R_node (node_index c p))
  else None.
Definition print_place (r : option gref) : bytes :=
  match r with
  | Some (R_leaf j) => $"L" ++ dec j ++ $","
  | Some (R_node i) => $"N" ++ dec i ++ $","
  | None => $"-,"
  end.
Definition grad_key (c : Closure) (ps : list Z) : Closure :=
  MkClosure (leaves c) (nodes c) (want c) (foldl kput (key c) ($"|G:" :: (print_place ∘ place c <$> ps))).

(** The gradients of all at once; or, should that fail, one at a time. *)
Fixpoint give_places (at_ : list (option gref)) (gs : list (option gout)) : list (option gout) :=
  match at_, gs with
  | Some _ :: at_, g :: gs => g :: give_places at_ gs
  | None :: at_, gs => None :: give_places at_ gs
  | _, _ => (λ _, None) <$> at_
  end.
Fixpoint grads_singly (g : graph) (y : gref) (xs : list gref) : T (list (option gout)) :=
  match xs with
  | [] => ret []
  | x :: xs =>
      ok <- unread ;;
      r <- grads_singly g y xs ;;
      ret ((if (ok : bool) then
              match tf_gradients g y [x] with
              | Some (true :: _) => Some (O_grad y [x] 0)
              | _ => None
              end
            else None) :: r)
  end.
Definition grads_of (g : graph) (y : gref) (xs : list gref) : T (list (option gout)) :=
  ok <- unread ;;
  match (if (ok : bool) then tf_gradients g y xs else None) with
  | Some there => ret (imap (λ k (b : bool), if b then Some (O_grad y xs k) else None) there)
  | None => grads_singly g y xs
  end.

(** The entry of a closure keyed with the parameters' places, its gradients
    added to the graph when it is first compiled; and whether it was there. *)
Definition grad_entry (c : Closure) (loss : Z) (ps : list Z) : T (option (nat * bool)) :=
  let at_ := place c <$> ps in
  es <- gets entries ;;
  match entry_find (key c) es with
  | Some e => ret (Some (e, true))
  | None =>
      e <-? entry_compile c ;;
      if decide (node_index c loss < 0) then undefined
      else
        x <- entry e ;;
        gs <- (match omap id at_ with
               | [] => ret []
               | xs => grads_of (e_graph x) (R_node (node_index c loss)) xs
               end) ;;
        upd_entry e (set_grads (give_places at_ gs)) ;;
        ret (Some (e, false))
  end.

Fixpoint zeros_for (ps : list Z) (gs : list Z) : T (option (list Z)) :=
  match ps with
  | [] => ret (Some gs)
  | p :: ps =>
      sh <-? tfb_shape p ;;
      h <-? tfb_fill sh (S754_zero false) ;;
      zeros_for ps (gs ++ [h])
  end.

Definition tfb_grad (loss : Z) (ps : list Z) : T (option (list Z)) :=
  x <- tfb_exists loss ;;
  if negb x then fail $"the loss is not a tensor" ;; ret None
  else if decide (TF_MAXPARAM < length ps)%nat then fail $"at most 64 parameters" ;; ret None
  else
    ok <- gets (λ s, forallb (λ p, exists_ s p && is_param (slots s p)) ps) ;;
    if negb ok then
      fail $"a parameter must be a leaf: tensor_parameter/2 or tensor_step/4 makes one" ;; ret None
    else
      l <- slot loss ;;
      if decide (kind l ≠ K_NODE ∨ under_param l = false) then zeros_for ps []
      else
        c <-? closure_of loss true ;;
        let c := grad_key c ps in
        eh <-? grad_entry c loss ps ;;
        r <- execute c (fst eh) ps ;;
        when (bool_decide (r ≠ None) && snd eh) bump_rep ;;
        ret r.

Definition tfb_stats : T (Z * Z * Z * Z) :=
  gets (λ s, (stat_rec s, stat_exe s, stat_rep s,
    Z.of_nat (length (filter (λ i, kind (slots s i) = K_NODE ∧ eh (slots s i) = None ∧ released (slots s i) = false)
                             (seqZ 1 (TF_SLOTS - 1)))))).
End producers.
