(* ===== verification/Csv.v ===== *)
(** * modules/tensorflow/backend.c: a tensor read from a file of numbers

    [tfb_load_csv], over strtod(3) and fgets(3); a file is its bytes. *)
From Stdlib Require Import Floats.SpecFloat.
From S2P Require Import Prelude Effect Float Tensor.

Local Open Scope Z_scope.

(** ** strtod *)

Definition isc (c : Z) (b : Byte.byte) : Prop := byte_val b = c.
#[export] Instance isc_decision c b : Decision (isc c b).
Proof. unfold isc. apply _. Defined.
Definition blank_byte (b : Byte.byte) : bool := bool_decide (byte_val b = 32 ∨ 9 ≤ byte_val b ≤ 13).
(** A letter, whatever its case. *)
Definition lower (b : Byte.byte) : Z := let c := byte_val b in if decide (65 ≤ c ≤ 90) then c + 32 else c.
(** A digit of a base up to 16. *)
Definition digit_of (base : Z) (b : Byte.byte) : option Z :=
  let c := lower b in
  let d := if decide (48 ≤ c ≤ 57) then c - 48 else if decide (97 ≤ c ≤ 102) then c - 87 else 16 in
  if decide (d < base) then Some d else None.

(** The digits something starts with. *)
Fixpoint leading (base : Z) (l : bytes) : list Z :=
  match l with
  | [] => []
  | b :: l => match digit_of base b with Some d => d :: leading base l | None => [] end
  end.
Definition number (base : Z) (ds : list Z) : Z := foldl (λ n d, n * base + d) 0 ds.
(** Digits with a point among them: their number, how many are behind the
    point, and the bytes they take; none without a digit. *)
Definition mantissa (base : Z) (l : bytes) : option (Z * nat * nat) :=
  let ip := leading base l in
  let fp := match drop (length ip) l with
            | b :: r => if decide (isc 46 b) then Some (leading base r) else None
            | [] => None
            end in
  match ip ++ default [] fp with
  | [] => None
  | ds => Some (number base ds, length (default [] fp), (length ds + (if decide (fp = None) then 0 else 1))%nat)
  end.
(** A sign, and the bytes it takes. *)
Definition sign (l : bytes) : bool * nat :=
  match l with
  | b :: _ => if decide (isc 45 b) then (true, 1%nat) else if decide (isc 43 b) then (false, 1%nat) else (false, 0%nat)
  | [] => (false, 0%nat)
  end.
(** An exponent behind the letter [c]: nothing, unless it has a digit. *)
Definition exponent (c : Z) (l : bytes) : Z * nat :=
  match l with
  | b :: r =>
      let (neg, k) := sign r in
      match leading 10 (drop k r) with
      | [] => (0, 0%nat)
      | ds => if decide (lower b = c) then ((if neg then - number 10 ds else number 10 ds), (1 + k + length ds)%nat) else (0, 0%nat)
      end
  | [] => (0, 0%nat)
  end.

(** The double nearest to m / d: a quotient of more bits than it holds, its
    last bit saying whether there was a remainder. *)
Definition nearest (m d : Z) : float64 :=
  let k := Z.max 0 (Z.log2 d - Z.log2 m + 64) in
  let q := Z.shiftl m k / d in
  dyadic (2 * q + (if decide (Z.shiftl m k `mod` d = 0) then 0 else 1)) (- k - 1).
Definition decimal (m e : Z) : float64 := if decide (0 ≤ e) then dyadic (m * 10 ^ e) 0 else nearest m (10 ^ (- e)).

Definition begins (w : bytes) (l : bytes) : bool := bool_decide (lower <$> take (length w) l = lower <$> w).
(** Behind nan there may be a word in brackets. *)
Definition word_byte (b : Byte.byte) : bool :=
  let c := lower b in bool_decide (48 ≤ c ≤ 57 ∨ 97 ≤ c ≤ 122 ∨ c = 95).
Fixpoint word_length (l : bytes) : nat :=
  match l with b :: l => if word_byte b then S (word_length l) else 0%nat | [] => 0%nat end.
Definition nan_length (l : bytes) : nat :=
  match l with
  | b :: l =>
      let n := word_length l in
      match drop n l with
      | c :: _ => if decide (isc 40 b ∧ isc 41 c) then (n + 2)%nat else 0%nat
      | [] => 0%nat
      end
  | [] => 0%nat
  end.
(** A number without its sign; the bytes it takes, 0 for none. *)
Definition unsigned (l : bytes) : float64 * nat :=
  if begins $"infinity" l then (S754_infinity false, 8%nat)
  else if begins $"inf" l then (S754_infinity false, 3%nat)
  else if begins $"nan" l then (S754_nan, (3 + nan_length (drop 3 l))%nat)
  else
    match (if begins $"0x" l then mantissa 16 (drop 2 l) else None) with
    | Some (m, f, n) =>
        let (e, k) := exponent 112 (drop (2 + n) l) in (dyadic m (e - 4 * Z.of_nat f), (2 + n + k)%nat)
    | None =>
        match mantissa 10 l with
        | Some (m, f, n) => let (e, k) := exponent 101 (drop n l) in (decimal m (e - Z.of_nat f), (n + k)%nat)
        | None => (S754_zero false, 0%nat)
        end
    end.
Fixpoint blanks (l : bytes) : nat :=
  match l with b :: l => if blank_byte b then S (blanks l) else 0%nat | [] => 0%nat end.
(** [strtod(p, &end)]: the value and [end - p]. *)
Definition strtod (l : bytes) : float64 * nat :=
  let w := blanks l in
  let (neg, k) := sign (drop w l) in
  let (v, n) := unsigned (drop (w + k) l) in
  if decide (n = 0%nat) then (S754_zero false, 0%nat)
  else ((if neg then SFopp v else v), (w + k + n)%nat).

(** ** A file *)

(** [fgets(line, n + 1, f)]: what it reads, and what is left. *)
Fixpoint fgets (n : nat) (l : bytes) : bytes * bytes :=
  match n, l with
  | O, _ => ([], l)
  | _, [] => ([], [])
  | S n, b :: l => if decide (isc 10 b) then ([b], l) else let (x, r) := fgets n l in (b :: x, r)
  end.
Definition LINE_SIZE : nat := Z.to_nat 8192.

Fixpoint skip_separators (p : bytes) : bytes :=
  match p with
  | b :: r => if decide (byte_val b ∈ [32; 44; 9; 59]) then skip_separators r else p
  | [] => []
  end.
(** The numbers of a line, up to what is none. *)
Fixpoint fields (fuel : nat) (p : bytes) : list float64 :=
  match fuel with
  | O => []
  | S fuel =>
      match skip_separators p with
      | [] => []
      | (b :: _) as q =>
          if decide (isc 10 b ∨ isc 13 b) then []
          else let (v, n) := strtod q in
               if decide (n = 0%nat) then [] else v :: fields fuel (drop n q)
      end
  end.
Definition line_fields (line : bytes) : list float64 := fields (length (c_str line)) (c_str line).

(** Every line a row, unless it has no number; all of them as long. *)
Fixpoint csv_rows (fuel : nat) (f : bytes) (buf : list float64) (rows cols : Z) : list float64 * Z * Z + bytes :=
  match fuel, f with
  | S fuel, _ :: _ =>
      let (line, f) := fgets (LINE_SIZE - 1) f in
      let vs := line_fields line in
      let c := Z.of_nat (length vs) in
      if decide (0 < c) then
        let cols := if decide (cols = 0) then c else cols in
        if decide (c ≠ cols) then inr $"ragged rows"
        else csv_rows fuel f (buf ++ vs) (rows + 1) cols
      else csv_rows fuel f buf rows cols
  | _, _ => if decide (rows = 0) then inr $"empty" else inl (buf, rows, cols)
  end.
Definition csv (f : bytes) : list float64 * Z * Z + bytes := csv_rows (length f) f [] 0 0.

Definition tfb_load_csv (file : option bytes) : T (option Z) :=
  match file with
  | None => fail $"cannot open" ;; ret None
  | Some f =>
      match csv f with
      | inr why => fail why ;; ret None
      | inl (buf, rows, cols) => tfb_from_doubles buf [rows; cols]
      end
  end.

Example csv_reads :
  csv ($"1, -2.5e1;+.5" ++ [byte_of 10; byte_of 10] ++ $"0x1p-1 inf 3.x" ++ [byte_of 10]) =
    inl ([double_of 1; double_of (-25); dyadic 1 (-1); dyadic 1 (-1); S754_infinity false; double_of 3], 2, 3).
Proof. by vm_compute. Qed.
Example csv_refuses : csv ($"1 2" ++ [byte_of 10] ++ $"3") = inr $"ragged rows" ∧ csv ($"x,1" ++ [byte_of 10]) = inr $"empty".
Proof. by split; vm_compute. Qed.

(** ** What is read is a matrix *)

Local Close Scope Z_scope.

Lemma fgets_app n l : (fgets n l).1 ++ (fgets n l).2 = l.
Proof.
  revert l. induction n as [|n IH]; intros [|b l]; [done..|]. cbn [fgets]. case_decide; [done|]. specialize (IH l).
  destruct (fgets n l). cbn in *. by rewrite IH.
Qed.
Lemma fgets_some n b l : (fgets (S n) (b :: l)).1 ≠ [].
Proof. cbn [fgets]. case_decide; [done|]. by destruct (fgets n l). Qed.
Lemma skip_separators_length p : length (skip_separators p) ≤ length p.
Proof. induction p as [|b p IH]; [done|]. cbn. case_decide; cbn; lia. Qed.
Lemma fields_length n p : length (fields n p) ≤ length p.
Proof.
  revert p. induction n as [|n IH]; intros p; cbn [fields]; [cbn; lia|]. pose proof (skip_separators_length p) as Hs.
  destruct (skip_separators p) as [|b r]; [cbn; lia|]. case_decide; [cbn; lia|]. destruct (strtod (b :: r)) as [v k].
  destruct (decide (k = 0)) as [|Hk]; [cbn; lia|]. specialize (IH (drop k (b :: r))). rewrite length_drop in IH. cbn [length] in *. lia.
Qed.
Lemma line_fields_length l : length (line_fields l) ≤ length l.
Proof. unfold line_fields. etrans; [apply fields_length|apply c_str_length]. Qed.

(** A matrix with as many elements as its sizes say, no more than the file
    has bytes. *)
Definition matrix (bound : nat) (buf : list float64) (rows cols : Z) : Prop :=
  (0 ≤ rows)%Z ∧ (0 ≤ cols)%Z ∧ Z.of_nat (length buf) = (rows * cols)%Z ∧ length buf ≤ bound.
Lemma csv_rows_matrix n f buf rows cols buf' rows' cols' k :
  matrix k buf rows cols → (cols = 0 → rows = 0)%Z → csv_rows n f buf rows cols = inl (buf', rows', cols') →
  matrix (k + length f) buf' rows' cols' ∧ (1 ≤ rows')%Z ∧ (1 ≤ cols')%Z.
Proof.
  revert f buf rows cols k. induction n as [|n IH]; intros f buf rows cols k Hm Hz.
  - cbn. case_decide; [done|]. intros [= <- <- <-]. destruct Hm as (? & ? & ? & ?). unfold matrix. lia.
  - destruct f as [|b f].
    { cbn. case_decide; [done|]. intros [= <- <- <-]. destruct Hm as (? & ? & ? & ?). unfold matrix. lia. }
    cbn [csv_rows]. pose proof (fgets_app (LINE_SIZE - 1) (b :: f)) as Ha.
    destruct (fgets (LINE_SIZE - 1) (b :: f)) as [line rest]. cbn [fst snd] in Ha. rewrite <- Ha, length_app.
    pose proof (line_fields_length line) as Hl. destruct Hm as (Hr & Hc & Hb & Hk).
    case_decide as Hpos; cycle 1.
    { intros Hres. destruct (IH _ _ _ _ k (conj Hr (conj Hc (conj Hb Hk))) Hz Hres) as [(? & ? & ? & ?) ?].
      split; [|done]. unfold matrix. lia. }
    set (cols1 := if decide (cols = 0)%Z then _ else cols). case_decide as Hne; [done|].
    assert (matrix (k + length line) (buf ++ line_fields line) (rows + 1) cols1) as Hm1.
    { unfold matrix. rewrite length_app, Nat2Z.inj_add, Hb, Hne. split; [lia|]. split; [lia|]. split; [|lia].
      unfold cols1. case_decide as Hcz; [rewrite Hz by done|]; lia. }
    intros Hres. destruct (IH _ _ _ _ _ Hm1 ltac:(lia) Hres) as [(? & ? & ? & ?) ?]. split; [|done]. unfold matrix. lia.
Qed.
Lemma csv_matrix f buf rows cols :
  csv f = inl (buf, rows, cols) → matrix (length f) buf rows cols ∧ (1 ≤ rows)%Z ∧ (1 ≤ cols)%Z.
Proof. apply (csv_rows_matrix _ f [] 0 0 buf rows cols 0); [|done]. by split_and!. Qed.

(** Fuel enough for every line. *)
Lemma csv_rows_fuel n m f buf rows cols : length f ≤ n → length f ≤ m → csv_rows n f buf rows cols = csv_rows m f buf rows cols.
Proof.
  revert m f buf rows cols. induction n as [|n IH]; intros m f buf rows cols Hn Hm.
  { destruct f; [|cbn in Hn; lia]. by destruct m. }
  destruct f as [|b f]; [by destruct m|]. destruct m as [|m]; [cbn in Hm; lia|]. cbn [csv_rows].
  pose proof (fgets_app (LINE_SIZE - 1) (b :: f)) as Ha. pose proof (fgets_some (LINE_SIZE - 2) b f) as Hne.
  change (S (LINE_SIZE - 2)) with (LINE_SIZE - 1) in Hne.
  destruct (fgets (LINE_SIZE - 1) (b :: f)) as [line rest]. cbn [fst snd] in *.
  assert (length rest < length (b :: f)) as Hlt.
  { rewrite <- Ha, length_app. destruct line; [done|cbn; lia]. }
  repeat case_decide; try done; apply IH; cbn in *; lia.
Qed.
