(* ===== verification/Slots.v ===== *)
(** * The slot table of modules/tensorflow/backend.c

    What the reference counts mean, and that freeing keeps it so: a slot's
    count is the number of times nodes read it, what a node reads is there,
    no node reads itself through others, and every TensorFlow handle belongs
    to exactly one slot, cache entry or call under way. *)
From Stdlib Require Import Floats.SpecFloat.
From S2P Require Import Prelude Effect Float Tensor.

(** ** Running an operation *)

Lemma wp_slot h Q B s : Q (slots s h) s → wp (slot h) Q B s.
Proof. done. Qed.
Lemma wp_upd h f Q B s : Q tt (upd_slots h f s) → wp (upd h f) Q B s.
Proof. done. Qed.
Lemma wp_when b (m : T unit) Q B s :
  (b = true → wp m Q B s) → (b = false → Q tt s) → wp (when b m) Q B s.
Proof. destruct b; cbn; [auto|]. intros _ Hq. by apply Hq. Qed.

(** One step of a back-end operation. *)
Ltac tf_step :=
  lazymatch goal with
  | |- wp (slot _) _ _ _ => apply wp_slot
  | |- wp (upd _ _) _ _ _ => apply wp_upd
  | |- wp (live _) _ _ _ => apply wp_gets
  | |- wp (tfb_exists _) _ _ _ => apply wp_gets
  | |- _ => wp_step
  end; cbv beta.

(** ** Counting *)

Section occ.
Context `{EqDecision A}.
Implicit Types (h x : A) (l : list A).

Definition occ h l : nat := length (filter (λ x, x = h) l).

Lemma occ_nil h : occ h [] = 0.
Proof. done. Qed.
Lemma occ_cons h x l : occ h (x :: l) = (if decide (x = h) then 1 else 0) + occ h l.
Proof. unfold occ. rewrite filter_cons. by case_decide. Qed.
Lemma occ_app h l k : occ h (l ++ k) = occ h l + occ h k.
Proof. unfold occ. by rewrite filter_app, length_app. Qed.
Lemma occ_pos h l : h ∈ l ↔ 0 < occ h l.
Proof.
  induction l as [|x l IH]; [rewrite occ_nil, elem_of_nil; lia|].
  rewrite occ_cons, elem_of_cons, IH. case_decide as Hx.
  - split; [lia|auto].
  - split; [by intros [->|?]; [|lia]|right; lia].
Qed.
End occ.
#[global] Arguments occ : simpl never.

Section slots.
(** A slot whose node is being unmade: its reads no longer count. *)
Context (hid : option Z).

(** What a slot's node reads. *)
Definition edges (sl : Z → TfSlot) (i : Z) : list Z :=
  if decide (hid ≠ Some i ∧ kind (sl i) = K_NODE) then ins (spec (sl i)) else [].
Definition table : list Z := seqZ 1 (TF_SLOTS - 1).
(** How often the nodes of the table read [h]. *)
Definition uses (sl : Z → TfSlot) (h : Z) : nat := sum_list_with (λ i, occ h (edges sl i)) table.
(** The live slots. *)
Definition nlive (sl : Z → TfSlot) : nat := length (filter (λ i, kind (sl i) ≠ K_FREE) table).

Lemma elem_of_table h : h ∈ table ↔ in_table h.
Proof. unfold table. rewrite elem_of_seqZ. unfold in_table. lia. Qed.
Lemma NoDup_table : NoDup table.
Proof. apply NoDup_seqZ. Qed.
Lemma table_length : length table < Z.to_nat TF_SLOTS.
Proof. unfold table. rewrite length_seqZ. unfold TF_SLOTS. lia. Qed.
#[global] Opaque table.

(** [sl'] is [sl] with [x] at [h]. *)
Definition is_put (h : Z) (x : TfSlot) (sl sl' : Z → TfSlot) : Prop :=
  ∀ i, sl' i = if decide (i = h) then x else sl i.

Lemma is_put_at h x sl sl' : is_put h x sl sl' → sl' h = x.
Proof. intros Hp. rewrite Hp. by rewrite decide_True. Qed.
Lemma is_put_other h x sl sl' i : is_put h x sl sl' → i ≠ h → sl' i = sl i.
Proof. intros Hp Hi. rewrite Hp. by rewrite decide_False. Qed.
Lemma upd_slots_put h f s : is_put h (f (slots s h)) (slots s) (slots (upd_slots h f s)).
Proof. intros i. cbn. by destruct (decide (i = h)) as [->|]. Qed.

Lemma sum_put (f g : Z → nat) h l :
  NoDup l → h ∈ l → (∀ i, i ≠ h → g i = f i) →
  sum_list_with g l + f h = sum_list_with f l + g h.
Proof.
  intros Hnd Hin Hne. induction Hnd as [|x l Hx Hnd IH]; [by apply elem_of_nil in Hin|]. cbn.
  apply elem_of_cons in Hin as [<-|Hin].
  - assert (sum_list_with g l = sum_list_with f l) as ->; [|lia].
    clear -Hx Hne. induction l as [|y l IH]; [done|]. cbn.
    apply not_elem_of_cons in Hx as [? ?]. rewrite IH, Hne by done. done.
  - assert (x ≠ h) by (intros ->; done). rewrite (Hne x) by done. specialize (IH Hin). lia.
Qed.

Lemma uses_put h x sl sl' i :
  is_put h x sl sl' → in_table h →
  uses sl' i + occ i (edges sl h) = uses sl i + occ i (edges sl' h).
Proof.
  intros Hp Hh. unfold uses. pose proof (proj2 (elem_of_table h) Hh) as Hin. pose proof NoDup_table as Hnd.
  apply (sum_put (λ j, occ i (edges sl j)) (λ j, occ i (edges sl' j)) h table Hnd Hin).
  intros j Hj. cbv beta. unfold edges. by rewrite (is_put_other _ _ _ _ _ Hp Hj).
Qed.
Lemma uses_pos sl n h : in_table n → h ∈ edges sl n → 0 < uses sl h.
Proof.
  intros Hn Hh. apply occ_pos in Hh. unfold uses.
  pose proof (sum_list_with_in n (λ i, occ h (edges sl i)) table (proj2 (elem_of_table n) Hn)) as Hs.
  cbv beta in Hs. lia.
Qed.
Lemma uses_zero sl h : (∀ n, h ∉ edges sl n) → uses sl h = 0.
Proof.
  intros Hn. unfold uses. induction table as [|x l IH]; [done|]. cbn. rewrite IH.
  specialize (Hn x). rewrite occ_pos in Hn. lia.
Qed.
Lemma uses_used sl h : 0 < uses sl h → ∃ n, in_table n ∧ h ∈ edges sl n.
Proof.
  unfold uses. intros Hu. assert (∃ n, n ∈ table ∧ h ∈ edges sl n) as (n & Hn & He).
  { induction table as [|x l IH]; cbn in Hu; [lia|].
    destruct (decide (h ∈ edges sl x)) as [Hx|Hx]; [exists x; set_solver|].
    rewrite occ_pos in Hx. destruct IH as (n & ? & ?); [lia|]. exists n. set_solver. }
  exists n. by rewrite <- elem_of_table.
Qed.

Lemma nlive_bound sl : nlive sl < Z.to_nat TF_SLOTS.
Proof.
  unfold nlive. eapply Nat.le_lt_trans; [apply length_filter|apply table_length].
Qed.
Lemma nlive_put_live h x sl sl' :
  is_put h x sl sl' → kind x ≠ K_FREE → kind (sl h) ≠ K_FREE → nlive sl' = nlive sl.
Proof.
  intros Hp Hx Hh. unfold nlive. f_equal. apply list_filter_iff. intros i. rewrite Hp. by case_decide; subst.
Qed.
Lemma nlive_put_free h x sl sl' :
  is_put h x sl sl' → in_table h → kind x = K_FREE → kind (sl h) ≠ K_FREE → nlive sl = S (nlive sl').
Proof.
  intros Hp Hh Hx Hl. unfold nlive.
  assert (∀ l, NoDup l → h ∈ l →
    length (filter (λ i, kind (sl i) ≠ K_FREE) l) = S (length (filter (λ i, kind (sl' i) ≠ K_FREE) l))) as Hgo.
  { intros l Hnd Hin. induction Hnd as [|y l Hy Hnd IH]; [by apply elem_of_nil in Hin|].
    rewrite !filter_cons. apply elem_of_cons in Hin as [<-|Hin].
    - rewrite decide_True by done. rewrite (is_put_at _ _ _ _ Hp). rewrite decide_False by auto. cbn. do 2 f_equal.
      clear IH. induction l as [|z l IHl]; [done|]. apply not_elem_of_cons in Hy as [Hz Hy].
      apply NoDup_cons in Hnd as [_ Hnd]. rewrite !filter_cons, (is_put_other _ _ _ _ z Hp) by done.
      destruct (decide _); [f_equal|]; auto.
    - assert (y ≠ h) by (intros ->; done). rewrite (is_put_other _ _ _ _ y Hp) by done.
      destruct (decide _); cbn; rewrite IH; auto. }
  apply Hgo; [apply NoDup_table|by apply elem_of_table].
Qed.

(** ** The counts *)

Definition acyclic (sl : Z → TfSlot) : Prop :=
  ∃ rank : Z → nat, ∀ n h, h ∈ edges sl n → rank h < rank n.

(** [pend]: references given up but not yet taken off; [doomed]: slots about
    to go. *)
Record counted (doomed pend : list Z) (sl : Z → TfSlot) : Prop := {
  c_table : ∀ h, kind (sl h) ≠ K_FREE → in_table h;
  c_refs : ∀ h, kind (sl h) ≠ K_FREE → refs (sl h) = Z.of_nat (uses sl h + occ h pend);
  c_edges : ∀ n h, h ∈ edges sl n → kind (sl h) ≠ K_FREE;
  c_pend : ∀ h, h ∈ pend → kind (sl h) ≠ K_FREE;
  c_gone : ∀ h, kind (sl h) ≠ K_FREE → released (sl h) = true → refs (sl h) = 0%Z → h ∈ doomed;
  c_rank : acyclic sl;
  c_free : ∀ h, kind (sl h) = K_FREE → eh (sl h) = None;
  c_value : ∀ h, kind (sl h) = K_VALUE → eh (sl h) ≠ None;
  c_hid : ∀ h, hid = Some h → released (sl h) = false;
}.

Lemma edges_live doomed pend sl n h :
  counted doomed pend sl → h ∈ edges sl n → in_table n ∧ in_table h.
Proof.
  intros Hc He. split; [|by eapply c_table, c_edges].
  eapply c_table; [done|]. unfold edges in He. case_decide as Hk; [|by apply elem_of_nil in He]. by rewrite (proj2 Hk).
Qed.

Lemma acyclic_fewer sl sl' :
  (∀ n h, h ∈ edges sl' n → h ∈ edges sl n) → acyclic sl → acyclic sl'.
Proof. intros Hs [rank Hr]. exists rank. auto. Qed.

Lemma edges_kind sl sl' i :
  kind (sl i) = kind (sl' i) → spec (sl i) = spec (sl' i) → edges sl i = edges sl' i.
Proof. unfold edges. by intros -> ->. Qed.

(** A slot changed in what the counts do not look at. *)
Lemma counted_put doomed doomed' pend pend' sl sl' h x :
  is_put h x sl sl' → counted doomed pend sl →
  kind x = kind (sl h) → spec x = spec (sl h) →
  (kind x = K_VALUE → eh x ≠ None) → (kind x = K_FREE → eh x = None) →
  (kind x ≠ K_FREE → refs x = Z.of_nat (uses sl h + occ h pend')) →
  (∀ i, i ≠ h → occ i pend' = occ i pend) →
  (h ∈ pend' → kind x ≠ K_FREE) →
  (kind x ≠ K_FREE → released x = true → refs x = 0%Z → h ∈ doomed') →
  (∀ i, i ≠ h → i ∈ doomed → i ∈ doomed') →
  (hid = Some h → released x = false) →
  counted doomed' pend' sl'.
Proof.
  intros Hp Hc Hk Hs Hv Hf Hr Ho Hpe Hd Hd' Hx.
  assert (∀ i, edges sl' i = edges sl i) as He.
  { intros i. destruct (decide (i = h)) as [->|]; [|apply edges_kind; by rewrite (is_put_other _ _ _ _ _ Hp)].
    apply edges_kind; by rewrite (is_put_at _ _ _ _ Hp). }
  assert (∀ i, kind (sl' i) = kind (sl i)) as Hki.
  { intros i. destruct (decide (i = h)) as [->|]; [|by rewrite (is_put_other _ _ _ _ _ Hp)].
    by rewrite (is_put_at _ _ _ _ Hp). }
  assert (∀ i, uses sl' i = uses sl i) as Hu.
  { intros i. unfold uses.
    induction table as [|z l IH]; [done|]. cbn. by rewrite IH, He. }
  split.
  - intros i. rewrite Hki. by apply Hc.
  - intros i. rewrite Hki, Hu. intros Hl. destruct (decide (i = h)) as [->|Hi].
    + rewrite (is_put_at _ _ _ _ Hp). apply Hr. by rewrite Hk.
    + rewrite (is_put_other _ _ _ _ _ Hp Hi), Ho by done. by apply Hc.
  - intros n i. rewrite He, Hki. by apply Hc.
  - intros i Hi. rewrite Hki. destruct (decide (i = h)) as [->|Hne].
    + rewrite <- Hk. auto.
    + eapply (c_pend _ _ _ Hc). apply occ_pos. rewrite <- Ho by done. by apply occ_pos.
  - intros i. rewrite Hki. destruct (decide (i = h)) as [->|Hi].
    + rewrite (is_put_at _ _ _ _ Hp), <- Hk. auto.
    + rewrite (is_put_other _ _ _ _ _ Hp Hi). intros. apply Hd'; [done|]. by apply Hc.
  - eapply acyclic_fewer; [|apply Hc]. intros n i. by rewrite He.
  - intros i. rewrite Hki. destruct (decide (i = h)) as [->|Hi].
    + rewrite (is_put_at _ _ _ _ Hp), <- Hk. auto.
    + rewrite (is_put_other _ _ _ _ _ Hp Hi). apply Hc.
  - intros i. rewrite Hki. destruct (decide (i = h)) as [->|Hi].
    + rewrite (is_put_at _ _ _ _ Hp), <- Hk. auto.
    + rewrite (is_put_other _ _ _ _ _ Hp Hi). apply Hc.
  - intros i Hi. destruct (decide (i = h)) as [->|Hne].
    + rewrite (is_put_at _ _ _ _ Hp). auto.
    + rewrite (is_put_other _ _ _ _ _ Hp Hne). by apply (c_hid _ _ _ Hc).
Qed.

(** ** The handles *)

Lemma occ_one `{EqDecision A} (x : A) : occ x (option_list (Some x)) = 1.
Proof. unfold option_list, occ. cbn. rewrite decide_True by done. done. Qed.

(** How many slots hold the handle [e]. *)
Definition slots_holding (sl : Z → TfSlot) (e : nat) : nat :=
  sum_list_with (λ i, occ e (option_list (eh (sl i)))) table.

(** [loose]: handles a call under way holds in its own variables.  Every live
    handle is held once, by a slot, the scalar cache or such a call. *)
Record owned (loose : list nat) (s : tfst) : Prop := {
  o_once : ∀ e, occ e loose + occ e (scalars s).*2 + slots_holding (slots s) e
                = (if decide (is_Some (hs s !! e)) then 1 else 0);
  o_next : ∀ e, next_h s ≤ e → hs s !! e = None;
}.

Lemma holding_put h x sl sl' e :
  is_put h x sl sl' → in_table h →
  slots_holding sl' e + occ e (option_list (eh (sl h))) = slots_holding sl e + occ e (option_list (eh x)).
Proof.
  intros Hp Hh. rewrite <- (is_put_at _ _ _ _ Hp).
  unfold slots_holding. pose proof (proj2 (elem_of_table h) Hh) as Hin. pose proof NoDup_table as Hnd.
  apply (sum_put (λ j, occ e (option_list (eh (sl j)))) (λ j, occ e (option_list (eh (sl' j))))
           h table Hnd Hin).
  intros j Hj. by rewrite (is_put_other _ _ _ _ _ Hp Hj).
Qed.
Lemma holding_same sl sl' e : (∀ i, eh (sl' i) = eh (sl i)) → slots_holding sl' e = slots_holding sl e.
Proof.
  intros Hs. unfold slots_holding. induction table as [|x l IH]; [done|]. cbn. by rewrite IH, Hs.
Qed.
Lemma holding_pos sl h e : in_table h → eh (sl h) = Some e → 0 < slots_holding sl e.
Proof.
  intros Hh He. unfold slots_holding.
  pose proof (sum_list_with_in h (λ i, occ e (option_list (eh (sl i)))) table (proj2 (elem_of_table h) Hh)) as Hs.
  cbv beta in Hs. rewrite He, occ_one in Hs. lia.
Qed.

Lemma owned_slot_live loose s h e :
  owned loose s → in_table h → eh (slots s h) = Some e → is_Some (hs s !! e).
Proof.
  intros Ho Hh He. pose proof (holding_pos _ _ _ Hh He). pose proof (o_once _ _ Ho e).
  case_decide; [done|lia].
Qed.
Lemma owned_loose_live loose s e : owned loose s → e ∈ loose → is_Some (hs s !! e).
Proof. intros Ho He%occ_pos. pose proof (o_once _ _ Ho e). case_decide; [done|lia]. Qed.
Lemma owned_cache_live loose s e : owned loose s → e ∈ (scalars s).*2 → is_Some (hs s !! e).
Proof. intros Ho He%occ_pos. pose proof (o_once _ _ Ho e). case_decide; [done|lia]. Qed.

(** Two slots never hold the same handle. *)
Lemma owned_inj loose s h h' e :
  owned loose s → in_table h → in_table h' →
  eh (slots s h) = Some e → eh (slots s h') = Some e → h = h'.
Proof.
  intros Ho Hh Hh' He He'. destruct (decide (h = h')) as [|Hne]; [done|]. exfalso.
  pose (x := set_eh None (slots s h)).
  pose proof (upd_slots_put h (set_eh None) s) as Hp.
  pose proof (holding_put _ _ _ _ e Hp Hh) as Hput. rewrite He, occ_one in Hput. change (occ e (option_list (eh (set_eh None (slots s h))))) with 0 in Hput.
  pose proof (holding_pos (slots (upd_slots h (set_eh None) s)) h' e Hh') as Hpos.
  rewrite (is_put_other _ _ _ _ h' Hp) in Hpos by done. specialize (Hpos He').
  pose proof (o_once _ _ Ho e). case_decide; lia.
Qed.

(** The same handles under other slots, of which only [h] changed hands. *)
Lemma owned_put loose loose' s s' h x :
  is_put h x (slots s) (slots s') → in_table h → owned loose s →
  scalars s' = scalars s → hs s' = hs s → next_h s' = next_h s →
  (∀ e, occ e loose' + occ e (option_list (eh x)) = occ e loose + occ e (option_list (eh (slots s h)))) →
  owned loose' s'.
Proof.
  intros Hp Hh Ho Hc Hhs Hn Hl. split.
  - intros e. rewrite Hc, Hhs, <- (o_once _ _ Ho e).
    pose proof (holding_put _ _ _ _ e Hp Hh). specialize (Hl e). lia.
  - intros e. rewrite Hhs, Hn. apply Ho.
Qed.
(** ... or none did. *)
Lemma owned_same loose s s' :
  owned loose s → (∀ i, eh (slots s' i) = eh (slots s i)) →
  scalars s' = scalars s → hs s' = hs s → next_h s' = next_h s → owned loose s'.
Proof.
  intros Ho He Hc Hh Hn. split.
  - intros e. rewrite Hc, Hh, (holding_same (slots s) (slots s')) by done. apply Ho.
  - intros e. rewrite Hh, Hn. apply Ho.
Qed.
(** A handle let go. *)
Lemma owned_delete loose s e :
  owned (e :: loose) s → owned loose (set_hs (delete e (hs s)) (next_h s) s).
Proof.
  intros Ho. split; cbn.
  - intros i. pose proof (o_once _ _ Ho i) as Hi. rewrite occ_cons in Hi.
    destruct (decide (e = i)) as [->|Hne].
    + rewrite lookup_delete_eq, (decide_False (P := is_Some None)) by (intros [? ?]; done).
      case_decide; lia.
    + rewrite lookup_delete_ne by done. lia.
  - intros i Hi. apply lookup_delete_None. right. by apply (o_next _ _ Ho).
Qed.
(** A handle made. *)
Lemma owned_new loose s t :
  owned loose s → owned (next_h s :: loose) (set_hs (<[next_h s := t]> (hs s)) (S (next_h s)) s).
Proof.
  intros Ho. split; cbn.
  - intros i. pose proof (o_once _ _ Ho i) as Hi. rewrite occ_cons.
    destruct (decide (next_h s = i)) as [<-|Hne].
    + rewrite lookup_insert_eq, (decide_True (P := is_Some (Some t))) by (by eexists).
      rewrite (o_next _ _ Ho), decide_False in Hi by (try intros [? ?]; done || lia). lia.
    + rewrite lookup_insert_ne by done. lia.
  - intros i Hi. rewrite lookup_insert_ne by lia. apply (o_next _ _ Ho). lia.
Qed.
(** The order of those under way does not matter. *)
Lemma owned_perm loose loose' s : loose ≡ₚ loose' → owned loose s → owned loose' s.
Proof.
  intros Hp Ho. split; [|apply Ho]. intros e. rewrite <- (o_once _ _ Ho e).
  assert (occ e loose' = occ e loose) as ->; [|done]. unfold occ. by rewrite Hp.
Qed.

(** ** The invariant *)

Record wf (doomed pend : list Z) (loose : list nat) (s : tfst) : Prop := {
  wf_counted : counted doomed pend (slots s);
  wf_owned : owned loose s;
  wf_cursor : in_table (slot_cursor s);
}.

(** What freeing may do to the rest: released slots vanish, counts go down,
    the handles of what vanished go with it. *)
Record thinner (s s' : tfst) : Prop := {
  t_slot : ∀ i, slots s' i = zero_slot ∧ released (slots s i) = true ∨
                (∃ r, slots s' i = set_refs r (slots s i)) ∧
                (kind (slots s i) = K_FREE → slots s' i = slots s i);
  t_hs : hs s' ⊆ hs s;
  t_rest : ∃ m sl, s' = set_hs m (next_h s) (set_slots sl s);
}.

Lemma set_refs_id x : set_refs (refs x) x = x.
Proof. by destruct x. Qed.
Lemma thinner_refl s : thinner s s.
Proof.
  split; [|done|by exists (hs s), (slots s); destruct s]. intros i. right. split; [|done]. exists (refs (slots s i)). by rewrite set_refs_id.
Qed.
Lemma thinner_trans s s' s'' : thinner s s' → thinner s' s'' → thinner s s''.
Proof.
  intros Ha Hb. split.
  - intros i. destruct (t_slot _ _ Ha i) as [[Hz Hr]|[[r Hr] Hf]].
    + left. split; [|done]. destruct (t_slot _ _ Hb i) as [[? _]|[_ Hf]]; [done|].
      rewrite Hf, Hz by (by rewrite Hz). done.
    + destruct (t_slot _ _ Hb i) as [[Hz Hr']|[[r' Hr'] Hf']].
      * left. split; [done|]. rewrite Hr in Hr'. by destruct (slots s i).
      * right. split; [exists r'; rewrite Hr', Hr; by destruct (slots s i)|].
        intros Hk. rewrite Hf', Hf; [done|done|]. by rewrite Hf.
  - etrans; [apply Hb|apply Ha].
  - destruct (t_rest _ _ Ha) as (m & sl & ->), (t_rest _ _ Hb) as (m' & sl' & ->). by exists m', sl'.
Qed.
#[export] Instance thinner_preorder : PreOrder thinner.
Proof. split; [exact thinner_refl|exact thinner_trans]. Qed.

(** Slots still named stay, but for their counts. *)
Lemma thinner_named s s' h :
  thinner s s' → released (slots s h) = false → ∃ r, slots s' h = set_refs r (slots s h).
Proof. intros Ht Hr. destruct (t_slot _ _ Ht h) as [[_ ?]|[? _]]; [congruence|done]. Qed.
Lemma thinner_slot s s' h :
  thinner s s' → kind (slots s' h) ≠ K_FREE → ∃ r, slots s' h = set_refs r (slots s h).
Proof. intros Ht Hk. destruct (t_slot _ _ Ht h) as [[Hz _]|[? _]]; [by rewrite Hz in Hk|done]. Qed.

(** ** Freeing *)

Definition never : tfst → Prop := λ _, False.

(** [rf] frees a slot nothing names or reads, when at most [n] are live. *)
Definition frees (n : nat) (rf : Z → T unit) : Prop := ∀ h pend loose s,
  wf [h] pend loose s → kind (slots s h) ≠ K_FREE → released (slots s h) = true → refs (slots s h) = 0%Z →
  nlive (slots s) ≤ n →
  wp (rf h) (λ _ s', wf [] pend loose s' ∧ thinner s s' ∧ nlive (slots s') < nlive (slots s)) never s.

Lemma is_live_kind loose doomed pend s h :
  wf doomed pend loose s → is_live s h = true ↔ kind (slots s h) ≠ K_FREE.
Proof.
  intros Hwf. unfold is_live. rewrite bool_decide_eq_true. split; [by intros [_ ?]|].
  intros Hk. split; [|done]. by apply (c_table _ _ _ (wf_counted _ _ _ _ Hwf)).
Qed.

Lemma lower_wf h pend loose s :
  wf [] (h :: pend) loose s →
  let s' := upd_slots h (set_refs (refs (slots s h) - 1)) s in
  wf (if released (slots s h) && bool_decide (refs (slots s h) - 1 = 0)%Z then [h] else []) pend loose s' ∧
  thinner s s' ∧ nlive (slots s') = nlive (slots s).
Proof.
  intros Hwf s'. pose proof (wf_counted _ _ _ _ Hwf) as Hc.
  assert (kind (slots s h) ≠ K_FREE) as Hk by (apply Hc; set_solver).
  pose proof (c_refs _ _ _ Hc h Hk) as Hr. rewrite occ_cons, decide_True in Hr by done.
  pose proof (upd_slots_put h (set_refs (refs (slots s h) - 1)) s) as Hp.
  split; [split|split].
  - eapply (counted_put [] _ (h :: pend)); [exact Hp|exact Hc|done|done|exact (c_value _ _ _ Hc h)|exact (c_free _ _ _ Hc h)|..]; cbn.
    + intros _. rewrite Hr. lia.
    + intros i Hi. rewrite occ_cons. by rewrite decide_False.
    + done.
    + intros _ -> Hz. rewrite bool_decide_true by lia. set_solver.
    + intros i _ Hi. by apply elem_of_nil in Hi.
    + exact (c_hid _ _ _ Hc h).
  - eapply owned_same; [exact (wf_owned _ _ _ _ Hwf)| |done..]. intros i. cbn. by case_decide.
  - exact (wf_cursor _ _ _ _ Hwf).
  - split; [|done|by exists (hs s), (slots s'); destruct s]. intros i. right. cbn. case_decide; [subst|].
    + split; [by eexists|done].
    + split; [|done]. exists (refs (slots s i)). by rewrite set_refs_id.
  - eapply nlive_put_live; done.
Qed.

(** A slot gone: nothing read it, and what it read is one reader the fewer. *)
Lemma zero_counted h pend sl sl' :
  counted [h] pend sl → kind (sl h) ≠ K_FREE → refs (sl h) = 0%Z → is_put h zero_slot sl sl' →
  counted [] (edges sl h ++ pend) sl'.
Proof.
  intros Hc Hk Hz Hp. pose proof (c_table _ _ _ Hc h Hk) as Hh. pose proof (c_refs _ _ _ Hc h Hk) as Hr. rewrite Hz in Hr.
  assert (∀ n, h ∉ edges sl n) as Hno.
  { intros n Hn. pose proof (uses_pos _ _ _ (proj1 (edges_live _ _ _ _ _ Hc Hn)) Hn). lia. }
  assert (∀ i, kind (sl' i) ≠ K_FREE → i ≠ h ∧ kind (sl i) ≠ K_FREE ∧ sl' i = sl i) as Hl.
  { intros i. rewrite Hp. by case_decide. }
  assert (∀ i, i ≠ h → sl' i = sl i) as Ho by (intros; by apply (is_put_other _ _ _ _ _ Hp)).
  assert (edges sl' h = []) as Heh.
  { unfold edges. rewrite (is_put_at _ _ _ _ Hp). by rewrite decide_False by (by intros [_ ?]). }
  assert (∀ n i, i ∈ edges sl' n → i ∈ edges sl n) as He.
  { intros n i. destruct (decide (n = h)) as [->|Hne]; [by rewrite Heh; intros ?%elem_of_nil|].
    unfold edges. by rewrite Ho. }
  split.
  - intros i (_ & Hi & _)%Hl. by apply (c_table _ _ _ Hc).
  - intros i (Hne & Hi & ->)%Hl. rewrite (c_refs _ _ _ Hc i Hi), occ_app.
    pose proof (uses_put _ _ _ _ i Hp Hh) as Hu. rewrite Heh, occ_nil in Hu. lia.
  - intros n i Hi. pose proof (c_edges _ _ _ Hc n i (He _ _ Hi)) as Hki.
    assert (i ≠ h) by (intros ->; by apply (Hno n), He). by rewrite Ho.
  - intros i [Hi|Hi]%elem_of_app.
    + assert (i ≠ h) by (intros ->; by apply (Hno h)). rewrite Ho by done. by apply (c_edges _ _ _ Hc h).
    + assert (i ≠ h) by (intros ->; apply occ_pos in Hi; lia). rewrite Ho by done. by apply (c_pend _ _ _ Hc).
  - intros i (Hne & Hi & ->)%Hl ? ?. pose proof (c_gone _ _ _ Hc i) as Hg. set_solver.
  - eapply acyclic_fewer; [exact He|apply (c_rank _ _ _ Hc)].
  - intros i. rewrite Hp. case_decide; [done|]. apply (c_free _ _ _ Hc).
  - intros i. rewrite Hp. case_decide; [done|]. apply (c_value _ _ _ Hc).
  - intros i Hi. rewrite Hp. case_decide; [done|]. by apply (c_hid _ _ _ Hc).
Qed.
Lemma zero_wf h pend loose s m :
  wf [h] pend loose s → kind (slots s h) ≠ K_FREE → refs (slots s h) = 0%Z → released (slots s h) = true →
  m = match eh (slots s h) with Some e => delete e (hs s) | None => hs s end →
  let s' := upd_slots h (λ _, zero_slot) (set_hs m (next_h s) s) in
  wf [] (edges (slots s) h ++ pend) loose s' ∧ thinner s s' ∧ nlive (slots s) = S (nlive (slots s')).
Proof.
  intros Hwf Hk Hz Hrel -> s'. pose proof (wf_counted _ _ _ _ Hwf) as Hc. pose proof (c_table _ _ _ Hc h Hk) as Hh.
  assert (is_put h zero_slot (slots s) (slots s')) as Hp by (intros i; done).
  split; [split; [by eapply zero_counted| |exact (wf_cursor _ _ _ _ Hwf)]|split; [split|]].
  - destruct (eh (slots s h)) as [e|] eqn:Ee.
    + apply (owned_delete loose (upd_slots h (λ _, zero_slot) s) e).
      eapply (owned_put loose (e :: loose) s); [exact Hp|done|exact (wf_owned _ _ _ _ Hwf)|done..|].
      intros i. rewrite Ee, occ_cons. change (occ i (option_list (eh zero_slot))) with 0.
      unfold option_list, option_rect. rewrite occ_cons, occ_nil. lia.
    + eapply (owned_put loose loose s); [exact Hp|done|exact (wf_owned _ _ _ _ Hwf)|done..|]. by rewrite Ee.
  - intros i. rewrite Hp. case_decide; [subst; by left|]. right. split; [|done].
    exists (refs (slots s i)). by rewrite set_refs_id.
  - cbn. destruct (eh (slots s h)); [apply delete_subseteq|done].
  - exists (hs s'), (slots s'). by destruct s.
  - by apply (nlive_put_free h zero_slot).
Qed.

Lemma wp_unref rf n h pend loose s :
  frees n rf → wf [] (h :: pend) loose s → nlive (slots s) ≤ n →
  wp (unref_with rf h) (λ _ s', wf [] pend loose s' ∧ thinner s s' ∧ nlive (slots s') ≤ n) never s.
Proof.
  intros Hrf Hwf Hn. pose proof (wf_counted _ _ _ _ Hwf) as Hc.
  assert (kind (slots s h) ≠ K_FREE) as Hk by (apply (c_pend _ _ _ Hc); set_solver).
  assert (is_live s h = true) as Hl by by eapply is_live_kind.
  pose proof (c_refs _ _ _ Hc h Hk) as Hr. rewrite occ_cons, decide_True in Hr by done.
  unfold unref_with. do 2 tf_step. rewrite Hl. do 3 tf_step.
  rewrite bool_decide_true by lia. cbn [when]. tf_step.
  destruct (lower_wf _ _ _ _ Hwf) as (Hwf' & Ht & Hnl). cbv zeta in *.
  set (s' := upd_slots h (set_refs (refs (slots s h) - 1)) s) in *.
  do 2 tf_step.
  assert (slots s' h = set_refs (refs (slots s h) - 1) (slots s h)) as Hs'.
  { exact (is_put_at _ _ _ _ (upd_slots_put h (set_refs (refs (slots s h) - 1)) s)). }
  rewrite Hs'. cbn [released refs set_refs].
  apply wp_when; intros Hz; rewrite Hz in Hwf'; [|split_and!; [done|done|lia]].
  apply andb_prop in Hz as [Hrel Hz%bool_decide_eq_true].
  eapply wp_mono; [apply (Hrf h pend loose s'); [done|rewrite Hs'; done..|lia]| |done].
  cbv beta. intros _ s'' (? & ? & ?). split_and!; [done|by etrans|lia].
Qed.

Lemma wp_unrefs rf n l pend loose s :
  frees n rf → wf [] (l ++ pend) loose s → nlive (slots s) ≤ n →
  wp (for_each (unref_with rf) l)
     (λ _ s', wf [] pend loose s' ∧ thinner s s' ∧ nlive (slots s') ≤ n) never s.
Proof.
  intros Hrf. revert s. induction l as [|h l IH]; intros s Hwf Hn; cbn [for_each].
  - by apply wp_ret.
  - wp_step. eapply wp_mono; [eapply wp_unref; [done|exact Hwf|done]| |done].
    cbv beta. intros _ s1 (Hwf1 & Ht1 & Hn1). eapply wp_mono; [by apply IH| |done].
    cbv beta. intros _ s2 (? & ? & ?). split_and!; [done|by etrans|done].
Qed.

Lemma nlive_pos doomed pend sl h : counted doomed pend sl → kind (sl h) ≠ K_FREE → 0 < nlive sl.
Proof.
  intros Hc Hk. unfold nlive. pose proof (c_table _ _ _ Hc h Hk) as Hh.
  assert (h ∈ filter (λ i, kind (sl i) ≠ K_FREE) table) as Hin.
  { apply list_elem_of_filter. split; [done|by apply elem_of_table]. }
  destruct (filter _ table); [by apply elem_of_nil in Hin|]. cbn. lia.
Qed.

Lemma frees_n fuel : frees fuel (really_free_n fuel).
Proof.
  induction fuel as [|fuel IH]; intros h pend loose s Hwf Hk Hrel Hz Hn.
  { pose proof (nlive_pos _ _ _ h (wf_counted _ _ _ _ Hwf) Hk). lia. }
  cbn [really_free_n]. do 2 tf_step.
  destruct (zero_wf h pend loose s _ Hwf Hk Hz Hrel eq_refl) as (Hwf' & Ht & Hnl). cbv zeta in *.
  assert (∀ (k : unit → T unit) Q s0,
    s0 = set_hs match eh (slots s h) with Some e => delete e (hs s) | None => hs s end (next_h s) s →
    wp (k tt) Q never s0 →
    wp (x <- match eh (slots s h) with Some e => delete_handle e | None => ret tt end ;; k x) Q never s) as Hdel.
  { intros k Q s0 -> Hk'. wp_step. destruct (eh (slots s h)); apply wp_ret || (apply wp_modify); [done|by destruct s]. }
  eapply Hdel; [done|]. do 2 tf_step.
  set (s1 := upd_slots h (λ _, zero_slot) _) in *.
  assert (edges (slots s) h = if decide (kind (slots s h) = K_NODE) then ins (spec (slots s h)) else []) as He.
  { unfold edges. apply decide_ext. split; [by intros [_ ?]|]. intros ?. split; [|done].
    intros Hh. apply (c_hid _ _ _ (wf_counted _ _ _ _ Hwf)) in Hh. congruence. }
  case_decide as Hkn; rewrite He in Hwf'.
  - eapply wp_mono; [eapply (wp_unrefs _ (nlive (slots s1))); [|exact Hwf'|lia]| |done].
    { intros ???? ? ? ? ? ?. apply IH; try done. lia. }
    cbv beta. intros _ s2 (? & ? & ?). split_and!; [done|by etrans|lia].
  - apply wp_ret. split_and!; [done|done|lia].
Qed.

Lemma wp_really_free h pend loose s :
  wf [h] pend loose s → kind (slots s h) ≠ K_FREE → released (slots s h) = true → refs (slots s h) = 0%Z →
  wp (really_free h) (λ _ s', wf [] pend loose s' ∧ thinner s s') never s.
Proof.
  intros ????. eapply wp_mono; [eapply frees_n; try done|naive_solver|done].
  pose proof (nlive_bound (slots s)). lia.
Qed.
Lemma wp_unref_all l pend loose s :
  wf [] (l ++ pend) loose s →
  wp (for_each unref l) (λ _ s', wf [] pend loose s' ∧ thinner s s') never s.
Proof.
  intros Hwf. eapply wp_mono; [eapply wp_unrefs; [apply frees_n|done|]|naive_solver|done].
  pose proof (nlive_bound (slots s)). lia.
Qed.
End slots.
