(* ===== verification/Table.v ===== *)
(** * Making, taking and freeing slots

    What each operation on the slot table of modules/tensorflow/backend.c
    leaves of the rest: the specifications the producers, the reads and the
    gradients are proved from. *)
From Stdlib Require Import Floats.SpecFloat.
From S2P Require Import Prelude Effect Float Tensor Slots.

(** The value a slot carries. *)
Definition value_of (s : tfst) (i : Z) : option tensor := e ← eh (slots s i); hs s !! e.

(** The slot [i] is as it was, but for its count. *)
Definition stays (s s' : tfst) (i : Z) : Prop :=
  (∃ r, slots s' i = set_refs r (slots s i)) ∧ value_of s' i = value_of s i.

(** Outside the slots [N] nothing happened but that unnamed ones may be gone
    and counts may be different. *)
Record steps (N : Z → Prop) (s s' : tfst) : Prop := {
  st_slot : ∀ i, ¬ N i → kind (slots s' i) ≠ K_FREE → kind (slots s i) ≠ K_FREE ∧ stays s s' i;
  st_named : ∀ i, ¬ N i → exists_ s i = true → exists_ s' i = true;
  st_entries : entries s' = entries s;
  st_mode : graph_mode s' = graph_mode s;
}.

Abbreviation none := (λ _ : Z, False).
Abbreviation only h := (λ i : Z, i = h).

Lemma stays_refl s i : stays s s i.
Proof. split; [|done]. exists (refs (slots s i)). by rewrite set_refs_id. Qed.
Lemma stays_trans s s' s'' i : stays s s' i → stays s' s'' i → stays s s'' i.
Proof.
  intros [[r Hr] Hv] [[r' Hr'] Hv']. split; [|congruence]. exists r'. rewrite Hr', Hr. done.
Qed.
Lemma stays_kind s s' i : stays s s' i → kind (slots s' i) = kind (slots s i).
Proof. by intros [[r ->] _]. Qed.
Lemma steps_refl N s : steps N s s.
Proof. split; auto using stays_refl. Qed.
Lemma steps_trans N N' s s' s'' : steps N s s' → steps N' s' s'' → steps (λ i, N i ∨ N' i) s s''.
Proof.
  intros Ha Hb. split.
  - intros i Hi Hk. destruct (st_slot _ _ _ Hb i) as [Hk' Hs']; [tauto|done|].
    destruct (st_slot _ _ _ Ha i) as [? Hs]; [tauto|done|]. split; [done|by eapply stays_trans].
  - intros i Hi He. apply (st_named _ _ _ Hb); [tauto|]. apply (st_named _ _ _ Ha); [tauto|done].
  - rewrite (st_entries _ _ _ Hb). apply Ha.
  - rewrite (st_mode _ _ _ Hb). apply Ha.
Qed.
Lemma steps_weaken (N N' : Z → Prop) s s' : (∀ i, N i → N' i) → steps N s s' → steps N' s s'.
Proof. intros Hn Hs. split; [intros; apply Hs; auto..|apply Hs|apply Hs]. Qed.

Lemma steps_none_l N s s' s'' : steps none s s' → steps N s' s'' → steps N s s''.
Proof. intros Ha Hb. eapply steps_weaken; [|by eapply steps_trans]. cbn. tauto. Qed.
Lemma steps_none_r N s s' s'' : steps N s s' → steps none s' s'' → steps N s s''.
Proof. intros Ha Hb. eapply steps_weaken; [|by eapply steps_trans]. cbn. tauto. Qed.

Lemma exists_spec s i : exists_ s i = true ↔ in_table i ∧ kind (slots s i) ≠ K_FREE ∧ released (slots s i) = false.
Proof.
  unfold exists_, is_live. rewrite andb_true_iff, bool_decide_eq_true, negb_true_iff. tauto.
Qed.

Lemma steps_names N s s' i : steps N s s' → ¬ N i → exists_ s' i = true → exists_ s i = true.
Proof.
  intros Hst Hi (Hin & Hk & Hr)%exists_spec. destruct (st_slot _ _ _ Hst i Hi Hk) as [Hk' [[r Hsl] _]].
  apply exists_spec. rewrite Hsl in Hr. done.
Qed.

Section table.
Context (hid : option Z) (pend : list Z).

(** Slots freed along the way. *)
Lemma thinner_steps doomed doomed' pend' loose loose' s s' :
  wf hid doomed pend loose s → wf hid doomed' pend' loose' s' → thinner s s' → steps none s s'.
Proof.
  intros Hwf Hwf' Ht. split.
  - intros i _ Hk. destruct (thinner_slot _ _ _ Ht Hk) as [r Hr].
    assert (kind (slots s i) ≠ K_FREE) as Hki by (by rewrite Hr in Hk).
    split; [done|]. split; [by exists r|]. unfold value_of. rewrite Hr. cbn [eh set_refs].
    destruct (eh (slots s i)) as [e|] eqn:Ee; [|done]. cbn.
    pose proof (c_table _ _ _ _ (wf_counted _ _ _ _ _ Hwf') i Hk) as Hi.
    destruct (owned_slot_live _ _ i e (wf_owned _ _ _ _ _ Hwf') Hi) as [t Ht']; [by rewrite Hr|].
    rewrite Ht'. symmetry. eapply lookup_weaken; [exact Ht'|apply Ht].
  - intros i _ (Hi & Hk & Hr)%exists_spec. apply exists_spec.
    destruct (thinner_named _ _ i Ht Hr) as [r ->]. done.
  - by destruct (t_rest _ _ Ht) as (m & sl & ->).
  - by destruct (t_rest _ _ Ht) as (m & sl & ->).
Qed.

(** ** Slots *)

(** The table under another cursor and other texts. *)
Lemma wf_same doomed loose s s' :
  wf hid doomed pend loose s → slots s' = slots s → scalars s' = scalars s → hs s' = hs s →
  next_h s' = next_h s → in_table (slot_cursor s') → wf hid doomed pend loose s'.
Proof.
  intros Hwf Hs Hc Hh Hn Hcu. split; [rewrite Hs; apply Hwf| |done].
  eapply owned_same; [exact (wf_owned _ _ _ _ _ Hwf)| |done..]. intros. by rewrite Hs.
Qed.
Lemma steps_same N s s' :
  (∀ i, slots s' i = slots s i) → hs s' = hs s → entries s' = entries s → graph_mode s' = graph_mode s → steps N s s'.
Proof.
  intros Hs Hh He Hm. split; [| |done|done].
  - intros i _. rewrite Hs. split; [done|]. split; [exists (refs (slots s i)); by rewrite set_refs_id|].
    unfold value_of. by rewrite Hs, Hh.
  - intros i _ (?&?&?)%exists_spec. apply exists_spec. by rewrite Hs.
Qed.

Lemma wf_kind_free doomed loose s i : wf hid doomed pend loose s → ¬ in_table i → kind (slots s i) = K_FREE.
Proof.
  intros Hwf Hi. destruct (decide (kind (slots s i) = K_FREE)) as [|Hk]; [done|].
  by apply (c_table _ _ _ _ (wf_counted _ _ _ _ _ Hwf)) in Hk.
Qed.

Lemma free_not_used doomed s h : counted hid doomed pend (slots s) → kind (slots s h) = K_FREE →
  uses hid (slots s) h = 0 ∧ h ∉ pend.
Proof.
  intros Hc Hk. split.
  - apply uses_zero. intros n Hn. by apply (c_edges _ _ _ _ Hc) in Hn.
  - intros Hp. by apply (c_pend _ _ _ _ Hc) in Hp.
Qed.

(** A free slot may hold anything as long as it is free. *)
Lemma wf_put_free loose s s' h x :
  wf hid [] pend loose s → is_put h x (slots s) (slots s') → kind (slots s h) = K_FREE → kind x = K_FREE → eh x = None → released x = false →
  scalars s' = scalars s → hs s' = hs s → next_h s' = next_h s → in_table (slot_cursor s') → wf hid [] pend loose s'.
Proof.
  intros Hwf Hp Hk Hx He Hrx Hc Hh Hn Hcu.
  assert (∀ i, edges hid (slots s') i = edges hid (slots s) i) as Hed.
  { intros i. unfold edges. rewrite Hp. destruct (decide (i = h)) as [->|]; [|done].
    rewrite !decide_False by (intros [_ ?]; congruence). done. }
  assert (∀ i, kind (slots s' i) = kind (slots s i)) as Hki.
  { intros i. rewrite Hp. by case_decide; subst; congruence. }
  assert (∀ i, uses hid (slots s') i = uses hid (slots s) i) as Hu.
  { intros i. unfold uses. induction table as [|z l IH]; [done|]. cbn [sum_list_with]. by rewrite IH, Hed. }
  assert (∀ i, kind (slots s i) ≠ K_FREE → slots s' i = slots s i) as Hs.
  { intros i Hi. rewrite Hp. case_decide; [by subst|done]. }
  pose proof (wf_counted _ _ _ _ _ Hwf) as C.
  split; [split| |done].
  - intros i. rewrite Hki. apply (c_table _ _ _ _ C).
  - intros i. rewrite Hki, Hu. intros Hi. rewrite Hs by done. by apply (c_refs _ _ _ _ C).
  - intros n i. rewrite Hed, Hki. apply (c_edges _ _ _ _ C).
  - intros i. rewrite Hki. apply (c_pend _ _ _ _ C).
  - intros i. rewrite Hki. intros Hi. rewrite Hs by done. by apply (c_gone _ _ _ _ C).
  - eapply acyclic_fewer; [|apply (c_rank _ _ _ _ C)]. intros n i. by rewrite Hed.
  - intros i. rewrite Hki. intros Hi. rewrite Hp. case_decide; [done|by apply (c_free _ _ _ _ C)].
  - intros i. rewrite Hki. intros Hi. rewrite Hs by congruence. by apply (c_value _ _ _ _ C).
  - intros i Hi. rewrite Hp. case_decide; [done|by apply (c_hid _ _ _ _ C)].
  - eapply owned_same; [exact (wf_owned _ _ _ _ _ Hwf)| |done..].
    intros i. rewrite Hp. case_decide; [subst; rewrite He; symmetry; by apply (c_free _ _ _ _ C)|done].
Qed.

(** A new slot: one that was free. *)
Record new_slot (h : Z) (s s' : tfst) : Prop := {
  ns_in : in_table h;
  ns_free : kind (slots s h) = K_FREE;
  ns_put : is_put h zero_slot (slots s) (slots s');
  ns_hs : hs s' = hs s;
  ns_next : next_h s' = next_h s;
  ns_scalars : scalars s' = scalars s;
  ns_entries : entries s' = entries s;
  ns_mode : graph_mode s' = graph_mode s;
}.

Lemma wp_slot_scan n loose s :
  wf hid [] pend loose s →
  wp (slot_scan n) (λ r s', wf hid [] pend loose s' ∧
    match r with
    | Some h => new_slot h s s'
    | None => slots s' = slots s ∧ hs s' = hs s ∧ next_h s' = next_h s ∧ scalars s' = scalars s ∧
              entries s' = entries s ∧ graph_mode s' = graph_mode s
    end) never s.
Proof.
  revert s. induction n as [|n IH]; intros s Hwf; cbn [slot_scan].
  - unfold fail. repeat tf_step. split; [|done].
    eapply wf_same; [exact Hwf|done..|exact (wf_cursor _ _ _ _ _ Hwf)].
  - repeat tf_step. pose proof (wf_cursor _ _ _ _ _ Hwf) as Hcu.
    set (s1 := set_slot_cursor _ s).
    assert (in_table (slot_cursor s1)) as Hcu1.
    { cbn. unfold in_table in *. case_decide; unfold TF_SLOTS in *; lia. }
    assert (wf hid [] pend loose s1) as Hwf1 by (eapply wf_same; [exact Hwf|done..|done]).
    case_decide as Hk.
    + do 3 tf_step. split.
      * eapply wf_put_free; [exact Hwf1|apply upd_slots_put|done..].
      * by split.
    + eapply wp_mono; [by apply IH| |done]. cbv beta. intros r s2 [Hwf2 Hr]. split; [done|].
      destruct r; [|done]. destruct Hr. by split.
Qed.

Lemma wp_slot_new loose s :
  wf hid [] pend loose s →
  wp slot_new (λ r s', wf hid [] pend loose s' ∧
    match r with
    | Some h => new_slot h s s'
    | None => slots s' = slots s ∧ hs s' = hs s ∧ next_h s' = next_h s ∧ scalars s' = scalars s ∧
              entries s' = entries s ∧ graph_mode s' = graph_mode s
    end) never s.
Proof. apply wp_slot_scan. Qed.

(** ** Handles *)

(** Nothing of the table, the handles or the entries changed. *)
Record inert (s s' : tfst) : Prop := {
  in_slots : slots s' = slots s;
  in_hs : hs s' = hs s;
  in_next : next_h s' = next_h s;
  in_scalars : scalars s' = scalars s;
  in_cursor : slot_cursor s' = slot_cursor s;
  in_entries : entries s' = entries s;
  in_mode : graph_mode s' = graph_mode s;
}.
#[global] Instance inert_preorder : PreOrder inert.
Proof. split; [by split|]. intros s1 s2 s3 [] []. split; congruence. Qed.
Lemma inert_wf doomed loose s s' : inert s s' → wf hid doomed pend loose s → wf hid doomed pend loose s'.
Proof.
  intros [] Hwf. eapply wf_same; [exact Hwf|done..|]. rewrite in_cursor0. exact (wf_cursor _ _ _ _ _ Hwf).
Qed.
Lemma inert_steps N s s' : inert s s' → steps N s s'.
Proof. intros []. apply steps_same; [|done..]. intros. by rewrite in_slots0. Qed.

Lemma wp_tf_fail m s : wp (fail m) (λ _ s', inert s s') never s.
Proof. done. Qed.
Lemma wp_bad s : wp bad (λ _ s', inert s s') never s.
Proof. unfold bad, wp, bind, gets, modify, fail, ret. by destruct (tfq s) as [|[m|] q]. Qed.
Lemma wp_unread s : wp unread (λ _ s', inert s s') never s.
Proof. unfold unread, wp, bind, gets, modify, ret. by destruct (tfq s) as [|a q]. Qed.
Lemma wp_held_by e t s : hs s !! e = Some t → wp (held_by e) (λ t' s', t' = t ∧ s' = s) never s.
Proof. intros He. unfold held_by, wp, bind, gets. by rewrite He. Qed.

(** A slot's handle under other handles that leave it alone. *)
Lemma steps_put h x s s' :
  is_put h x (slots s) (slots s') →
  (∀ i e, i ≠ h → kind (slots s i) ≠ K_FREE → eh (slots s i) = Some e → hs s' !! e = hs s !! e) →
  entries s' = entries s → graph_mode s' = graph_mode s → steps (only h) s s'.
Proof.
  intros Hp Hh He Hm. split; [| |done|done].
  - intros i Hi. rewrite (is_put_other _ _ _ _ _ Hp Hi). intros Hk. split; [done|].
    split; [exists (refs (slots s i)); rewrite set_refs_id; by apply (is_put_other _ _ _ _ _ Hp)|].
    unfold value_of. rewrite (is_put_other _ _ _ _ _ Hp Hi).
    destruct (eh (slots s i)) as [e|] eqn:Ee; [|done]. cbn. by apply (Hh i).
  - intros i Hi. rewrite !exists_spec. by rewrite (is_put_other _ _ _ _ _ Hp Hi).
Qed.
Lemma put_put h x y sl sl1 sl2 : is_put h x sl sl1 → is_put h y sl1 sl2 → is_put h y sl sl2.
Proof. intros Ha Hb i. rewrite Hb. case_decide; [done|]. rewrite Ha. by case_decide. Qed.

(** A handle made: under way, and holding [t]. *)
Record made (e : nat) (t : tensor) (s s' : tfst) : Prop := {
  md_hs : hs s' = <[e := t]> (hs s);
  md_new : hs s !! e = None;
  md_slots : slots s' = slots s;
  md_scalars : scalars s' = scalars s;
  md_entries : entries s' = entries s;
  md_mode : graph_mode s' = graph_mode s;
}.
Lemma made_steps doomed loose e t s s' N : wf hid doomed pend loose s → made e t s s' → steps N s s'.
Proof.
  intros Hwf []. split; [|by intros i _; rewrite !exists_spec, md_slots0|done|done].
  intros i _ Hk. rewrite md_slots0 in Hk. split; [done|]. split.
  - exists (refs (slots s i)). by rewrite set_refs_id, md_slots0.
  - unfold value_of. rewrite md_slots0. destruct (eh (slots s i)) as [e'|] eqn:Ee; [|done]. cbn.
    rewrite md_hs0. apply lookup_insert_ne. intros <-.
    destruct (owned_slot_live _ _ i e (wf_owned _ _ _ _ _ Hwf)) as [? ?]; [|done|congruence].
    by apply (c_table _ _ _ _ (wf_counted _ _ _ _ _ Hwf)).
Qed.
Lemma made_live e t s s' : made e t s s' → hs s' !! e = Some t.
Proof. intros []. rewrite md_hs0. apply lookup_insert_eq. Qed.

Lemma wp_new_handle doomed loose t s :
  wf hid doomed pend loose s →
  wp (new_handle t) (λ e s', wf hid doomed pend (e :: loose) s' ∧ made e t s s') never s.
Proof.
  intros Hwf. cbn. split; [split|split]; try done.
  - exact (wf_counted _ _ _ _ _ Hwf).
  - apply owned_new. exact (wf_owned _ _ _ _ _ Hwf).
  - exact (wf_cursor _ _ _ _ _ Hwf).
  - by apply (o_next _ _ (wf_owned _ _ _ _ _ Hwf)).
Qed.
Lemma wp_make_handle doomed loose t s :
  wf hid doomed pend loose s →
  wp (make_handle t) (λ r s', match r with
    | Some e => wf hid doomed pend (e :: loose) s' ∧ made e t s s'
    | None => inert s s'
    end) never s.
Proof.
  intros Hwf. unfold make_handle. tf_step. eapply wp_mono; [apply wp_bad| |done]. cbv beta.
  intros [] s1 Hi; [by tf_step|]. tf_step.
  eapply wp_mono; [apply wp_new_handle, (inert_wf _ _ _ _ Hi Hwf)| |done]. cbv beta.
  intros e s2 [Hwf2 []]. tf_step. split; [done|]. destruct Hi. split; congruence.
Qed.
Lemma wp_copy_sharing `{TensorFlow} doomed loose o s :
  wf hid doomed pend loose s → (∀ e, o = Some e → is_Some (hs s !! e)) →
  wp (copy_sharing o) (λ r s', match r with
    | Some e => ∃ t, o ≫= (hs s !!.) = Some t ∧ wf hid doomed pend (e :: loose) s' ∧ made e t s s'
    | None => inert s s'
    end) never s.
Proof.
  intros Hwf Ho. unfold copy_sharing. destruct o as [e|].
  - destruct (Ho e eq_refl) as [t Ht]. tf_step. eapply wp_mono; [by apply wp_held_by| |done].
    cbv beta. intros ? ? [-> ->]. eapply wp_mono; [by apply wp_make_handle| |done]. cbv beta.
    intros [e'|] s'; [|done]. intros [??]. exists t. cbn. by rewrite Ht.
  - tf_step. eapply wp_mono; [apply wp_tf_fail| |done]. cbv beta. intros _ s' Hi. by tf_step.
Qed.
Lemma wp_delete_handle doomed loose e s :
  wf hid doomed pend (e :: loose) s →
  wp (delete_handle e) (λ _ s', wf hid doomed pend loose s' ∧ steps none s s' ∧ slots s' = slots s ∧
                                hs s' = delete e (hs s)) never s.
Proof.
  intros Hwf. cbn. split; [split|split; [split|]]; try done.
  - exact (wf_counted _ _ _ _ _ Hwf).
  - apply owned_delete. exact (wf_owned _ _ _ _ _ Hwf).
  - exact (wf_cursor _ _ _ _ _ Hwf).
  - intros i _ Hk. cbn in Hk. split; [done|]. split; [exists (refs (slots s i)); by rewrite set_refs_id|].
    unfold value_of. cbn. destruct (eh (slots s i)) as [e'|] eqn:Ee; [|done]. cbn.
    apply lookup_delete_ne. intros <-.
    pose proof (c_table _ _ _ _ (wf_counted _ _ _ _ _ Hwf) i Hk) as Hi.
    pose proof (holding_pos _ _ _ Hi Ee). pose proof (o_once _ _ (wf_owned _ _ _ _ _ Hwf) e) as Ho.
    rewrite occ_cons, decide_True in Ho by done. case_decide; lia.
Qed.

(** ** A slot that holds a value *)

(** What the slot is, once made: a value and nothing else. *)
Definition value_slot (t : tensor) (ck : bool) (e : nat) : TfSlot :=
  MkSlot K_VALUE (Some e) (if ck then Some t else None) (spec_init []) 0 false ck false false
         (take TF_MAXDIM (t_dims t)) true (t_dtype t).
Record fresh_value (h : Z) (t : tensor) (ck : bool) (s s' : tfst) : Prop := {
  fv_in : in_table h;
  fv_free : kind (slots s h) = K_FREE;
  fv_slot : ∃ e, slots s' h = value_slot t ck e ∧ hs s' !! e = Some t;
  fv_steps : steps (only h) s s';
}.

Lemma wf_put_value loose s s' h e x :
  wf hid [] pend (e :: loose) s → is_put h x (slots s) (slots s') →
  in_table h → kind (slots s h) = K_FREE →
  kind x = K_VALUE → eh x = Some e → refs x = 0%Z → released x = false →
  scalars s' = scalars s → hs s' = hs s → next_h s' = next_h s → slot_cursor s' = slot_cursor s →
  wf hid [] pend loose s'.
Proof.
  intros Hwf Hp Hh Hk Hx He Hr Hrel Hc Hhs Hn Hcu. pose proof (wf_counted _ _ _ _ _ Hwf) as C.
  destruct (free_not_used _ _ _ C Hk) as [Hu0 Hp0].
  assert (∀ i, edges hid (slots s') i = edges hid (slots s) i) as Hed.
  { intros i. unfold edges. rewrite Hp. destruct (decide (i = h)) as [->|]; [|done].
    rewrite !decide_False by (intros [_ ?]; congruence). done. }
  assert (∀ i, uses hid (slots s') i = uses hid (slots s) i) as Hu.
  { intros i. unfold uses. induction table as [|z l IH]; [done|]. cbn [sum_list_with]. by rewrite IH, Hed. }
  assert (∀ i, i ≠ h → slots s' i = slots s i) as Ho by (intros; by apply (is_put_other _ _ _ _ _ Hp)).
  pose proof (is_put_at _ _ _ _ Hp) as Hat.
  assert (∀ i, i = h ∨ i ≠ h) as Hdec by (intros; destruct (decide (i = h)); auto).
  split; [split| |].
  - intros i. destruct (Hdec i) as [->|Hi]; [done|]. rewrite Ho by done. apply (c_table _ _ _ _ C).
  - intros i. rewrite Hu. destruct (Hdec i) as [->|Hi].
    + intros _. rewrite Hat, Hr, Hu0. rewrite occ_pos in Hp0. lia.
    + rewrite Ho by done. apply (c_refs _ _ _ _ C).
  - intros n i. rewrite Hed. intros Hi. destruct (Hdec i) as [->|Hne]; [rewrite Hat; congruence|].
    rewrite Ho by done. by apply (c_edges _ _ _ _ C n).
  - intros i Hi. destruct (Hdec i) as [->|Hne]; [done|]. rewrite Ho by done. by apply (c_pend _ _ _ _ C).
  - intros i. destruct (Hdec i) as [->|Hi]; [rewrite Hat; congruence|]. rewrite Ho by done. apply (c_gone _ _ _ _ C).
  - eapply acyclic_fewer; [|apply (c_rank _ _ _ _ C)]. intros n i. by rewrite Hed.
  - intros i. destruct (Hdec i) as [->|Hi]; [rewrite Hat; congruence|]. rewrite Ho by done. apply (c_free _ _ _ _ C).
  - intros i. destruct (Hdec i) as [->|Hi]; [rewrite Hat; congruence|]. rewrite Ho by done. apply (c_value _ _ _ _ C).
  - intros i ?. destruct (Hdec i) as [->|Hi]; [by rewrite Hat|]. rewrite Ho by done. by apply (c_hid _ _ _ _ C).
  - eapply (owned_put (e :: loose) loose s); [exact Hp|done|exact (wf_owned _ _ _ _ _ Hwf)|done..|].
    intros i. rewrite He, (c_free _ _ _ _ C h Hk). unfold option_list, option_rect.
    rewrite !occ_cons, !occ_nil. lia.
  - rewrite Hcu. exact (wf_cursor _ _ _ _ _ Hwf).
Qed.

(** A loose handle takes its place in a new slot. *)
Lemma wp_slot_from_handle loose e t s :
  wf hid [] pend (e :: loose) s → hs s !! e = Some t →
  wp (slot_from_handle e) (λ r s', wf hid [] pend loose s' ∧
    match r with Some h => fresh_value h t false s s' | None => steps none s s' end) never s.
Proof.
  intros Hwf He. unfold slot_from_handle. tf_step. eapply wp_mono; [by apply wp_slot_new| |done].
  cbv beta. intros [h|] s1 [Hwf1 Hr].
  - destruct Hr as [Hin Hfree Hput Hhs Hnext Hsc Hen Hmo]. do 2 tf_step. unfold take_handle. do 4 tf_step.
    assert (eh (slots (upd_slots h (set_kind K_VALUE) s1) h) = None) as ->.
    { rewrite (is_put_at _ _ _ _ (upd_slots_put h (set_kind K_VALUE) s1)). cbn. by rewrite (is_put_at _ _ _ _ Hput). }
    tf_step. tf_step. eapply wp_mono; [apply (wp_held_by e t); cbn; by rewrite Hhs| |done].
    cbv beta. intros ? ? [-> ->]. do 2 tf_step.
    set (s2 := upd_slots h _ (upd_slots h _ s1)).
    assert (is_put h (value_slot t false e) (slots s1) (slots s2)) as Hp2.
    { intros i. cbn. case_decide as Hi; [|done]. subst i. by rewrite (is_put_at _ _ _ _ Hput). }
    pose proof (put_put _ _ _ _ _ _ Hput Hp2) as Hp.
    split; [|split; [done|done| |]].
    + eapply wf_put_value; [exact Hwf1|exact Hp2|done|by rewrite (is_put_at _ _ _ _ Hput)|done..].
    + exists e. split; [exact (is_put_at _ _ _ _ Hp)|]. cbn. by rewrite Hhs.
    + eapply steps_put; [exact Hp| |done|done]. intros. cbn. by rewrite Hhs.
  - destruct Hr as (Hs1 & Hh1 & Hn1 & Hc1 & He1 & Hm1). tf_step.
    eapply wp_mono; [by apply wp_delete_handle| |done]. cbv beta. intros _ s2 (Hwf2 & Hst & _). tf_step.
    split; [done|]. eapply steps_none_l; [|exact Hst]. apply steps_same; [intros; by rewrite Hs1|done..].
Qed.

(** A handle that has perhaps moved to the device: the same value, and only one
    handle for it. *)
Record replaced (e e' : nat) (t : tensor) (s s' : tfst) : Prop := {
  rp_hs : e' = e ∧ hs s' = hs s ∧ next_h s' = next_h s ∨
          e' = next_h s ∧ hs s' = delete e (<[e' := t]> (hs s)) ∧ next_h s' = S (next_h s);
  rp_slots : slots s' = slots s;
  rp_scalars : scalars s' = scalars s;
  rp_cursor : slot_cursor s' = slot_cursor s;
  rp_entries : entries s' = entries s;
  rp_mode : graph_mode s' = graph_mode s;
}.
Lemma wp_placed e t s :
  hs s !! e = Some t → wp (placed e) (λ e' s', replaced e e' t s s') never s.
Proof.
  intros He. unfold placed. tf_step. eapply wp_mono; [by apply wp_held_by| |done].
  cbv beta. intros ? ? [-> ->]. do 2 tf_step. apply wp_if; intros _.
  - tf_step. split; auto.
  - tf_step. eapply wp_mono; [apply wp_unread| |done]. cbv beta. intros [] s1 Hi; destruct Hi.
    + split; cbn; try done. right. by rewrite in_hs0, in_next0.
    + tf_step. split; auto.
Qed.
Lemma replaced_wf loose e e' t s s' :
  wf hid [] pend (e :: loose) s → hs s !! e = Some t → replaced e e' t s s' →
  wf hid [] pend (e' :: loose) s' ∧ hs s' !! e' = Some t ∧
  (∀ i, i ≠ e → is_Some (hs s !! i) → hs s' !! i = hs s !! i).
Proof.
  intros Hwf He [Hh Hsl Hsc Hcu Hen Hmo]. pose proof (wf_owned _ _ _ _ _ Hwf) as O.
  assert (wf hid [] pend (e' :: loose) s' ↔ owned (e' :: loose) s') as ->.
  { split; [apply wf_owned|]. intros Ho. split; [rewrite Hsl; exact (wf_counted _ _ _ _ _ Hwf)|done|].
    rewrite Hcu. exact (wf_cursor _ _ _ _ _ Hwf). }
  destruct Hh as [(-> & Hh & Hn)|(-> & Hh & Hn)].
  - split_and!; [|by rewrite Hh|by rewrite Hh]. eapply owned_same; [exact O| |done..]. by rewrite Hsl.
  - assert (next_h s ≠ e) as Hne. { intros Hn'. rewrite <- Hn', (o_next _ _ O) in He; [done|lia]. }
    split_and!.
    + apply (owned_new _ _ t) in O. eapply owned_perm in O; [|apply Permutation_swap].
      apply owned_delete in O. cbn in O. eapply owned_same; [exact O|..]; cbn; try done. by rewrite Hsl.
    + rewrite Hh, lookup_delete_ne by done. apply lookup_insert_eq.
    + intros i Hi [t' Ht']. rewrite Hh, lookup_delete_ne by done. apply lookup_insert_ne.
      intros <-. rewrite (o_next _ _ O) in Ht'; [done|lia].
Qed.

(** The slot done, under handles where [e'] stands for the one made. *)
Lemma slot_valued loose t ck h x e e' s s2 s3 s6 :
  wf hid [] pend loose s → in_table h → kind (slots s h) = K_FREE → is_put h x (slots s) (slots s2) → kind x = K_FREE →
  hs s2 = hs s → entries s2 = entries s → graph_mode s2 = graph_mode s →
  wf hid [] pend (e :: loose) s3 → made e t s2 s3 → replaced e e' t s3 (set_hs (hs s6) (next_h s6) s3) →
  is_put h (value_slot t ck e') (slots s3) (slots s6) → scalars s6 = scalars s3 →
  slot_cursor s6 = slot_cursor s3 → entries s6 = entries s3 → graph_mode s6 = graph_mode s3 →
  wf hid [] pend loose s6 ∧ fresh_value h t ck s s6.
Proof.
  intros Hwf Hin Hfree Hp2 Hx Hhs Hen Hmo Hwf3 Hmd Hrp Hp6 Hsc6 Hcu6 Hen6 Hmo6.
  destruct (replaced_wf _ _ _ _ _ _ Hwf3 (made_live _ _ _ _ Hmd) Hrp) as (Hwf5 & He5 & Hoth).
  destruct Hmd as [Hmd1 Hmd2 Hmd3 Hmd4 Hmd5 Hmd6].
  assert (is_put h (value_slot t ck e') (slots s) (slots s6)) as Hp.
  { eapply put_put; [exact Hp2|]. by rewrite <- Hmd3. }
  split; [|split; [done|done| |]].
  - eapply wf_put_value; [exact Hwf5|exact Hp6|done| |done..]. cbn. by rewrite Hmd3, (is_put_at _ _ _ _ Hp2).
  - exists e'. split; [exact (is_put_at _ _ _ _ Hp6)|done].
  - apply (steps_put h (value_slot t ck e')); [done| |cbn in *; congruence|cbn in *; congruence].
    intros i e0 Hi Hk He0. cbn in *.
    destruct (owned_slot_live _ s i e0 (wf_owned _ _ _ _ _ Hwf)) as [t0 Ht0]; [|done|].
    { by apply (c_table _ _ _ _ (wf_counted _ _ _ _ _ Hwf)). }
    assert (e0 ≠ e) as Hne by (intros ->; congruence).
    assert (hs s3 !! e0 = Some t0) as H30 by (rewrite Hmd1, lookup_insert_ne by done; congruence).
    rewrite Hoth; [congruence|done|by eexists].
Qed.
(** A slot taken and given back. *)
Lemma slot_given_back loose h x s s' :
  wf hid [] pend loose s → is_put h x (slots s) (slots s') → kind (slots s h) = K_FREE →
  kind x = K_FREE → eh x = None → released x = false →
  scalars s' = scalars s → hs s' = hs s → next_h s' = next_h s → entries s' = entries s → graph_mode s' = graph_mode s →
  in_table (slot_cursor s') → wf hid [] pend loose s' ∧ steps none s s'.
Proof.
  intros Hwf Hp Hf Hx He Hr Hsc Hhs Hn Hen Hmo Hcu. split; [by eapply wf_put_free|]. split; [| |done|done].
  - intros i _ Hk. assert (i ≠ h) as Hi. { intros ->. by rewrite (is_put_at _ _ _ _ Hp) in Hk. }
    rewrite (is_put_other _ _ _ _ _ Hp Hi) in Hk. split; [done|]. split.
    { exists (refs (slots s i)). rewrite set_refs_id. by apply (is_put_other _ _ _ _ _ Hp). }
    unfold value_of. by rewrite (is_put_other _ _ _ _ _ Hp Hi), Hhs.
  - intros i _ (Hi & Hk & Hrl)%exists_spec. apply exists_spec. rewrite (is_put_other _ _ _ _ _ Hp); [done|]. by intros ->.
Qed.

(** A host tensor becomes a slot. *)
Lemma wp_slot_from_tensor loose t ck s :
  wf hid [] pend loose s →
  wp (slot_from_tensor t ck) (λ r s', wf hid [] pend loose s' ∧
    match r with Some h => fresh_value h t ck s s' | None => steps none s s' end) never s.
Proof.
  intros Hwf. unfold slot_from_tensor. tf_step. eapply wp_mono; [by apply wp_slot_new| |done].
  cbv beta. intros [h|] s1 [Hwf1 Hr]; cycle 1.
  { destruct Hr as (Hs1 & Hh1 & Hn1 & Hc1 & He1 & Hm1). split; [done|].
    apply steps_same; [intros; by rewrite Hs1|done..]. }
  destruct Hr as [Hin Hfree Hput Hhs Hnext Hsc Hen Hmo]. do 2 tf_step.
  set (s2 := upd_slots h (set_shape_from_tensor t) s1). set (x2 := set_shape_from_tensor t zero_slot).
  assert (is_put h x2 (slots s) (slots s2)) as Hp2.
  { eapply put_put; [exact Hput|]. intros i. cbn. case_decide; [subst i; by rewrite (is_put_at _ _ _ _ Hput)|done]. }
  assert (wf hid [] pend loose s2) as Hwf2.
  { eapply wf_put_free; [exact Hwf|exact Hp2|done..|exact (wf_cursor _ _ _ _ _ Hwf1)]. }
  pose proof (λ e e' s3 s6, slot_valued loose t ck h x2 e e' s s2 s3 s6 Hwf Hin Hfree Hp2 eq_refl Hhs Hen Hmo) as Hdone.
  tf_step. eapply wp_mono; [by apply wp_make_handle| |done]. cbv beta. intros [e|] s3 H3.
  - destruct H3 as [Hwf3 Hmd]. assert (slots s3 h = x2) as Hx3 by (rewrite (md_slots _ _ _ _ Hmd); exact (is_put_at _ _ _ _ Hp2)).
    do 3 tf_step. destruct ck.
    + do 2 tf_step. eapply (Hdone e e s3); try done.
      * split; auto.
      * intros i. cbn. case_decide as Hi; [|done]. subst i. by rewrite Hx3.
    + tf_step. eapply wp_mono; [apply (wp_placed e t); exact (made_live _ _ _ _ Hmd)| |done].
      cbv beta. intros e' s5 [Hrh Hrs Hrc Hru Hre Hrm]. do 2 tf_step. eapply (Hdone e e' s3); try done.
      intros i. cbn. rewrite Hrs. cbn. case_decide as Hi; [|done]. subst i. by rewrite Hx3.
  - do 3 tf_step. destruct H3 as [Hs3 Hh3 Hn3 Hc3 Hcu3 He3 Hm3].
    eapply (slot_given_back loose h (set_kind K_FREE x2)); try done;
      [|exact (eq_trans Hc3 Hsc)|exact (eq_trans Hh3 Hhs)|exact (eq_trans Hn3 Hnext)|exact (eq_trans He3 Hen)|exact (eq_trans Hm3 Hmo)|].
    + eapply put_put; [exact Hp2|]. pose proof (upd_slots_put h (set_kind K_FREE) s3) as Hq.
      by rewrite Hs3, (is_put_at _ _ _ _ Hp2) in Hq.
    + cbn. rewrite Hcu3. exact (wf_cursor _ _ _ _ _ Hwf1).
Qed.

(** ** Scalars *)

Lemma scalar_find_in f c e : scalar_find f c = Some e → ∃ v, (v, e) ∈ c ∧ SFeqb v f = true.
Proof.
  unfold scalar_find. destruct (filter _ c) as [|[v e'] l] eqn:E; [done|]. cbn. intros [= ->]. exists v.
  assert ((v, e) ∈ filter (λ p, SFeqb p.1 f = true) c) as Hin by (rewrite E; set_solver).
  by apply list_elem_of_filter in Hin as [? ?].
Qed.

(** A loose handle takes its place in the cache; what was there is let go. *)
Lemma wp_scalar_keep loose f e s :
  wf hid [] pend (e :: loose) s →
  wp (scalar_keep f e) (λ _ s', wf hid [] pend loose s' ∧ slots s' = slots s ∧ steps none s s') never s.
Proof.
  intros Hwf. unfold scalar_keep. do 4 tf_step. set (i := if decide _ then _ else _).
  destruct (scalars s !! Z.to_nat i) as [[v old]|] eqn:Ei.
  - tf_step.
    assert (wf hid [] pend (old :: loose) (set_scalars (<[Z.to_nat i := (f, e)]> (scalars s)) (scalar_next s) s)) as Hw.
    { split; [exact (wf_counted _ _ _ _ _ Hwf)| |exact (wf_cursor _ _ _ _ _ Hwf)].
      split; [|exact (o_next _ _ (wf_owned _ _ _ _ _ Hwf))]. intros x. cbn.
      rewrite <- (o_once _ _ (wf_owned _ _ _ _ _ Hwf) x). rewrite !occ_cons.
      rewrite <- (take_drop_middle (scalars s) (Z.to_nat i) (v, old)) at 2 by done.
      rewrite insert_take_drop by (by eapply lookup_lt_Some). rewrite !fmap_app, !fmap_cons, !occ_app, !occ_cons. cbn. lia. }
    apply (wp_delete_handle _ _ old) in Hw. cbn in Hw. destruct Hw as (Hw & Hst & _ & _). cbn. split_and!.
    + split; [exact (wf_counted _ _ _ _ _ Hw)| |exact (wf_cursor _ _ _ _ _ Hw)].
      split; [exact (o_once _ _ (wf_owned _ _ _ _ _ Hw))|exact (o_next _ _ (wf_owned _ _ _ _ _ Hw))].
    + done.
    + split; [exact (st_slot _ _ _ Hst)|exact (st_named _ _ _ Hst)|done..].
  - cbn. split; [|split; [done|by apply steps_same]].
    split; [exact (wf_counted _ _ _ _ _ Hwf)| |exact (wf_cursor _ _ _ _ _ Hwf)].
    split; [|exact (o_next _ _ (wf_owned _ _ _ _ _ Hwf))]. intros x. cbn.
    rewrite <- (o_once _ _ (wf_owned _ _ _ _ _ Hwf) x).
    rewrite fmap_app, occ_app, !occ_cons. cbn. rewrite occ_cons, occ_nil. lia.
Qed.

Lemma fresh_value_steps h t ck s s' s'' :
  fresh_value h t ck s s' → (∀ N, steps N s' s'') → slots s'' = slots s' →
  wf hid [] pend [] s'' → fresh_value h t ck s s''.
Proof.
  intros [Hin Hf (e & He & Ht) Hst] Hs Hsl Hwf. split; [done|done| |].
  - exists e. rewrite Hsl. split; [done|]. destruct (st_slot _ _ _ (Hs none) h) as [_ [_ Hv]]; [tauto|by rewrite Hsl, He|].
    unfold value_of in Hv. rewrite Hsl, He in Hv. cbn in Hv. congruence.
  - eapply steps_none_r; [exact Hst|apply Hs].
Qed.

Lemma wp_fscalar `{TensorFlow} v s :
  wf hid [] pend [] s →
  wp (fscalar v) (λ r s', wf hid [] pend [] s' ∧
    match r with
    | Some h => ∃ t, fresh_value h t false s s' ∧ (t = Tensor TF_FLOAT [] [Flt (narrow v)] ∨
        ∃ f e, (f, e) ∈ scalars s ∧ SFeqb f (narrow v) = true ∧ hs s !! e = Some t)
    | None => steps none s s'
    end) never s.
Proof.
  intros Hwf. unfold fscalar. do 2 tf_step. destruct (scalar_find _ _) as [e|] eqn:Ef.
  - tf_step. apply scalar_find_in in Ef as (f & Hfe & Hff).
    eapply wp_mono; [apply (wp_copy_sharing []); [exact Hwf|]| |done].
    { intros e' [= <-]. apply (owned_cache_live _ _ _ (wf_owned _ _ _ _ _ Hwf)). apply list_elem_of_fmap. by exists (f, e). }
    cbv beta. intros [e'|] s1.
    + intros (t & Ht & Hwf1 & Hmd).
      eapply wp_mono; [apply wp_slot_from_handle; [exact Hwf1|by apply (made_live _ _ _ _ Hmd)]| |done].
      cbv beta. intros [h|] s2 [Hwf2 Hr]; (split; [done|]).
      * exists t. destruct Hr as [Hin Hf Hsl Hst]. split; [split; [done| |done|]|right; by exists f, e].
        { by rewrite <- (md_slots _ _ _ _ Hmd). }
        { eapply steps_none_l; [by eapply made_steps|done]. }
      * eapply steps_none_l; [by eapply made_steps|done].
    + intros Hi. split; [by eapply inert_wf|by apply inert_steps].
  - tf_step. eapply wp_mono; [by apply wp_slot_from_tensor| |done]. cbv beta. intros [h|] s1 [Hwf1 Hr]; [|done].
    do 3 tf_step. pose proof (fv_slot _ _ _ _ _ Hr) as (e & He & Ht).
    eapply wp_mono; [apply (wp_copy_sharing []); [exact Hwf1|]| |done].
    { rewrite He. intros e' [= <-]. by eexists. }
    cbv beta. intros [e'|] s2.
    + intros (t' & _ & Hwf2 & Hmd). tf_step. eapply wp_mono; [by apply wp_scalar_keep| |done].
      cbv beta. intros _ s3 (Hwf3 & Hsl3 & Hst3). tf_step. split; [done|]. exists (Tensor TF_FLOAT [] [Flt (narrow v)]). split; [|by left].
      eapply fresh_value_steps; [exact Hr| | |done].
      * intros N. eapply steps_none_r; [by eapply made_steps|done].
      * by rewrite Hsl3, (md_slots _ _ _ _ Hmd).
    + intros Hi. tf_step. split; [by eapply inert_wf|]. eexists. split; [|by left].
      eapply fresh_value_steps; [exact Hr|intros; by apply inert_steps|apply Hi|by eapply inert_wf].
Qed.

(** ** A live slot and its value *)

(** A live slot changed in its handle, or in what nothing looks at. *)
Lemma wf_put_live doomed loose loose' s s' h x :
  wf hid doomed pend loose s → is_put h x (slots s) (slots s') → kind (slots s h) ≠ K_FREE →
  kind x = kind (slots s h) → spec x = spec (slots s h) → refs x = refs (slots s h) →
  released x = released (slots s h) →
  (kind x = K_VALUE → eh x ≠ None) →
  scalars s' = scalars s → hs s' = hs s → next_h s' = next_h s → slot_cursor s' = slot_cursor s →
  (∀ e, occ e loose' + occ e (option_list (eh x)) = occ e loose + occ e (option_list (eh (slots s h)))) →
  wf hid doomed pend loose' s'.
Proof.
  intros Hwf Hp Hk Hkx Hs Hr Hrel Hv Hc Hh Hn Hcu Ho. pose proof (wf_counted _ _ _ _ _ Hwf) as C. split.
  - eapply (counted_put _ doomed _ pend); [exact Hp|exact C|done|done|done|congruence|..].
    + intros _. rewrite Hr. by apply (c_refs _ _ _ _ C).
    + done.
    + congruence.
    + intros _. rewrite Hrel, Hr. by apply (c_gone _ _ _ _ C).
    + done.
    + rewrite Hrel. exact (c_hid _ _ _ _ C h).
  - eapply owned_put; [exact Hp|by apply (c_table _ _ _ _ C)|exact (wf_owned _ _ _ _ _ Hwf)|done..].
  - rewrite Hcu. exact (wf_cursor _ _ _ _ _ Hwf).
Qed.

(** A node takes a loose handle as its value. *)
Lemma wp_take_handle loose h e t s :
  wf hid [] pend (e :: loose) s → kind (slots s h) = K_NODE → hs s !! e = Some t →
  wp (take_handle h e) (λ _ s', wf hid [] pend loose s' ∧ steps (only h) s s' ∧
    slots s' h = set_shape_from_tensor t (set_eh (Some e) (slots s h)) ∧ hs s' !! e = Some t ∧ hs s' ⊆ hs s) never s.
Proof.
  intros Hwf Hk He. unfold take_handle. do 3 tf_step.
  pose proof (c_table _ _ _ _ (wf_counted _ _ _ _ _ Hwf) h ltac:(congruence)) as Hh.
  assert (∀ s1 old, eh (slots s h) = old →
    s1 = match old with Some e0 => set_hs (delete e0 (hs s)) (next_h s) s | None => s end →
    hs s1 !! e = Some t ∧ hs s1 ⊆ hs s ∧
    let s' := upd_slots h (λ s, set_shape_from_tensor t (set_eh (Some e) s)) s1 in
    wf hid [] pend loose s' ∧ steps (only h) s s' ∧ hs s' !! e = Some t) as Hmain.
  { intros s1 old Eold ->. pose proof (wf_owned _ _ _ _ _ Hwf) as O.
    assert (∀ e0, old = Some e0 → e0 ≠ e) as Hne.
    { intros e0 -> ->. pose proof (holding_pos _ _ _ Hh Eold). pose proof (o_once _ _ O e) as Ho.
      rewrite occ_cons, decide_True in Ho by done. case_decide; lia. }
    set (s0 := upd_slots h (λ s, set_shape_from_tensor t (set_eh (Some e) s)) s).
    assert (wf hid [] pend (option_list old ++ loose) s0) as Hw0.
    { eapply wf_put_live; [exact Hwf|apply upd_slots_put|congruence|done..|].
      intros i. rewrite Eold. cbn [eh set_eh set_shape_from_tensor set_dtype set_shape_known set_shape].
      rewrite occ_app. unfold option_list at 2, option_rect. rewrite !occ_cons, occ_nil. lia. }
    assert (steps (only h) s s0) as Hst0.
    { eapply steps_put; [apply upd_slots_put|done..]. }
    destruct old as [e0|]; cbn in Hw0 |- *.
    - rewrite lookup_delete_ne by auto. split; [done|]. split; [apply delete_subseteq|].
      destruct (wp_delete_handle _ _ _ _ Hw0) as (Hw1 & Hst1 & _). split_and!; [exact Hw1| |done].
      eapply steps_none_r; [exact Hst0|exact Hst1].
    - done. }
  destruct (Hmain _ _ eq_refl eq_refl) as (He1 & Hsub & Hw & Hst & He2). clear Hmain.
  destruct (eh (slots s h)) as [e0|]; cbn in He1, Hsub, Hw, Hst, He2.
  - unfold delete_handle. do 2 tf_step. eapply wp_mono; [by apply wp_held_by| |done]. cbv beta.
    intros ? ? [-> ->]. tf_step. split_and!; [done|done| |done|done]. cbn. by rewrite decide_True.
  - do 2 tf_step. eapply wp_mono; [by apply wp_held_by| |done]. cbv beta.
    intros ? ? [-> ->]. tf_step. split_and!; [done|done| |done|done]. cbn. by rewrite decide_True.
Qed.
End table.

(** ** Between operations *)

(** Nothing is half done; [loose] is what the operation under way holds. *)
Abbreviation ok loose s := (wf None [] [] loose s).

(** A slot that lost at most the value its node can compute again. *)
Record worn (s s' : tfst) (h : Z) : Prop := {
  wn_kind : kind (slots s' h) = kind (slots s h);
  wn_spec : spec (slots s' h) = spec (slots s h);
  wn_param : is_param (slots s' h) = is_param (slots s h);
  wn_under : under_param (slots s' h) = under_param (slots s h);
  wn_ckey : ckey (slots s' h) = ckey (slots s h);
  wn_val : val (slots s' h) = val (slots s h);
  wn_shape : shape (slots s' h) = shape (slots s h);
  wn_dtype : dtype (slots s' h) = dtype (slots s h);
  wn_known : shape_known (slots s' h) = shape_known (slots s h);
  wn_value : value_of s' h = value_of s h ∨ kind (slots s h) = K_NODE ∧ value_of s' h = None;
}.
Lemma stays_worn s s' h : stays s s' h → worn s s' h.
Proof. intros [[r Hr] Hv]. split; try (by rewrite Hr). by left. Qed.

(** A slot whose name is given up. *)
Lemma wf_release loose h s :
  ok loose s → in_table h → kind (slots s h) ≠ K_FREE →
  let s' := upd_slots h (set_released true) s in
  (∀ D, (refs (slots s h) = 0%Z → h ∈ D) → wf None D [] loose s') ∧ steps (only h) s s' ∧ worn s s' h.
Proof.
  intros Hwf Hh Hk s1. pose proof (wf_counted _ _ _ _ _ Hwf) as C.
  pose proof (upd_slots_put h (set_released true) s) as Hp1. fold s1 in Hp1. pose proof (is_put_at _ _ _ _ Hp1) as E1.
  split_and!; [|by eapply steps_put; [exact Hp1|..]|split; rewrite ?E1; try done; left; unfold value_of; by rewrite E1].
  intros D HD. split; [| |exact (wf_cursor _ _ _ _ _ Hwf)].
  - eapply (counted_put _ [] D [] []); [exact Hp1|exact C|done|done|exact (c_value _ _ _ _ C h)|exact (c_free _ _ _ _ C h)|..]; cbn.
    + intros _. by apply (c_refs _ _ _ _ C).
    + done.
    + by intros ?%elem_of_nil.
    + auto.
    + by intros i _ ?%elem_of_nil.
    + done.
  - eapply owned_same; [exact (wf_owned _ _ _ _ _ Hwf)| |done..]. intros i. rewrite Hp1. by destruct (decide (i = h)) as [->|].
Qed.
(** A node that is only read gives up its value. *)
Lemma wf_unvalue loose h e s :
  ok loose s → kind (slots s h) = K_NODE → eh (slots s h) = Some e →
  let s' := upd_slots h (set_eh None) (set_hs (delete e (hs s)) (next_h s) s) in
  ok loose s' ∧ steps (only h) s s'.
Proof.
  intros Hwf Ek Ee s'. set (s2 := upd_slots h (set_eh None) s).
  pose proof (upd_slots_put h (set_eh None) s) as Hp2. fold s2 in Hp2.
  assert (ok (e :: loose) s2) as Hw2.
  { eapply wf_put_live; [exact Hwf|exact Hp2|congruence|done|done|done|done| |done..|].
    - intros Hv. change (kind (slots s h) = K_VALUE) in Hv. congruence.
    - intros i. rewrite Ee. cbn [eh set_eh]. unfold option_list, option_rect. rewrite !occ_cons, !occ_nil. lia. }
  pose proof (wp_delete_handle _ _ _ _ _ _ Hw2) as Hd. cbn in Hd. destruct Hd as (Hw3 & Hst3 & _ & _). split; [exact Hw3|].
  eapply steps_none_r; [by eapply steps_put; [exact Hp2|..]|exact Hst3].
Qed.

Lemma wp_tfb_free loose h s :
  ok loose s →
  wp (tfb_free h) (λ b s', ok loose s' ∧ b = exists_ s h ∧ exists_ s' h = false ∧ steps (only h) s s' ∧
    (kind (slots s' h) ≠ K_FREE → kind (slots s h) ≠ K_FREE ∧ worn s s' h)) never s.
Proof.
  intros Hwf. unfold tfb_free. do 2 tf_step.
  destruct (exists_ s h) eqn:Ex; cycle 1.
  { tf_step. split_and!; [done|done|done|apply steps_refl|]. intros Hk. split; [done|]. apply stays_worn, stays_refl. }
  apply exists_spec in Ex as (Hh & Hk & Hrel). destruct (wf_release loose h s Hwf Hh Hk) as (Hw1 & Hst1 & Hworn).
  do 4 tf_step. set (s1 := upd_slots h (set_released true) s) in *.
  assert (slots s1 h = set_released true (slots s h)) as E1 by exact (is_put_at _ _ _ _ (upd_slots_put h (set_released true) s)).
  rewrite E1. cbn [refs set_released]. case_decide as Hz.
  - tf_step. eapply wp_mono; [apply (wp_really_free None h [] loose); [apply Hw1; set_solver|by rewrite E1..]| |done].
    cbv beta. intros _ s2 [Hw2 Ht]. tf_step.
    assert (steps none s1 s2) as Hst2 by (eapply thinner_steps; [apply (Hw1 [h]); set_solver|exact Hw2|done]).
    assert (exists_ s2 h = false) as Hx2.
    { apply not_true_is_false. intros (_ & Hk2 & Hr2)%exists_spec. destruct (thinner_slot _ _ h Ht Hk2) as [r Hr].
      rewrite Hr, E1 in Hr2. done. }
    split_and!; [done|done|done|by eapply steps_none_r|]. intros Hk2. split; [done|].
    destruct (st_slot _ _ _ Hst2 h ltac:(tauto) Hk2) as [_ [[r Hr] Hv]].
    destruct Hworn. split; rewrite ?Hr; try done. by rewrite Hv.
  - cbn [kind eh set_released]. specialize (Hw1 [] ltac:(done)).
    tf_step. eapply (wp_mono _ (λ _ s', ok loose s' ∧ exists_ s' h = false ∧ steps (only h) s s' ∧ worn s s' h));
      [|by intros _ s2 (? & ? & ? & ?); tf_step; split_and!|done].
    assert (wp (ret tt) (λ _ s', ok loose s' ∧ exists_ s' h = false ∧ steps (only h) s s' ∧ worn s s' h) never s1) as Hdone.
    { tf_step. split; [done|]. split; [|done]. unfold exists_. rewrite E1. apply andb_false_r. }
    destruct (kind (slots s h)) eqn:Ek, (eh (slots s h)) as [e|] eqn:Ee; try exact Hdone.
    destruct (wf_unvalue loose h e s1 Hw1) as [Hw3 Hst3]; [by rewrite E1..|].
    unfold delete_handle. do 2 tf_step. split_and!; [exact Hw3| | |].
    + unfold exists_. cbn. rewrite !decide_True by done. cbn. apply andb_false_r.
    + eapply steps_weaken; [|by eapply steps_trans; [exact Hst1|exact Hst3]]. cbn. tauto.
    + destruct Hworn. split; cbn; rewrite ?decide_True by done; rewrite ?E1; cbn; try done.
      right. split; [done|]. unfold value_of. cbn. by rewrite decide_True.
Qed.

(** A node that is a value now: its meaning is its value. *)
Record settled_to_value (s s' : tfst) (h : Z) : Prop := {
  sv_kind : kind (slots s' h) = K_VALUE;
  sv_value : value_of s' h = value_of s h;
  sv_named : released (slots s' h) = released (slots s h);
  sv_param : is_param (slots s' h) = is_param (slots s h);
  sv_ckey : ckey (slots s' h) = ckey (slots s h);
  sv_val : val (slots s' h) = val (slots s h);
  sv_shape : shape (slots s' h) = shape (slots s h);
  sv_dtype : dtype (slots s' h) = dtype (slots s h);
  sv_known : shape_known (slots s' h) = shape_known (slots s h);
}.
(** A node made a value: what it read is still to be let go. *)
Lemma wf_undress loose h s :
  ok loose s → kind (slots s h) = K_NODE → eh (slots s h) ≠ None →
  wf None [] (ins (spec (slots s h)) ++ []) loose (upd_slots h (λ x, set_kind K_VALUE (set_spec (spec_init []) x)) s).
Proof.
  intros Hwf Hk He. pose proof (wf_counted _ _ _ _ _ Hwf) as C. set (f := λ x, set_kind K_VALUE (set_spec (spec_init []) x)).
  set (s1 := upd_slots h f s). pose proof (upd_slots_put h f s) as Hp. fold s1 in Hp.
  pose proof (c_table _ _ _ _ C h ltac:(congruence)) as Hh. pose proof (is_put_at _ _ _ _ Hp) as E1.
  assert (edges None (slots s) h = ins (spec (slots s h))) as Eh by (unfold edges; by rewrite decide_True).
  assert (edges None (slots s1) h = []) as Eh1 by (unfold edges; rewrite E1; cbn; by rewrite decide_False by (by intros [_ ?])).
  assert (∀ i, i ≠ h → slots s1 i = slots s i) as Ho by (intros; by apply (is_put_other _ _ _ _ _ Hp)).
  assert (∀ n i, i ∈ edges None (slots s1) n → i ∈ edges None (slots s) n) as Hed.
  { intros n i. destruct (decide (n = h)) as [->|]; [rewrite Eh1; by intros ?%elem_of_nil|]. unfold edges. by rewrite Ho. }
  assert (∀ i, (kind (slots s1 i) ≠ K_FREE ↔ kind (slots s i) ≠ K_FREE) ∧ refs (slots s1 i) = refs (slots s i) ∧
    released (slots s1 i) = released (slots s i) ∧ eh (slots s1 i) = eh (slots s i)) as Hsame.
  { intros i. destruct (decide (i = h)) as [->|]; [rewrite E1; cbn; by rewrite Hk|by rewrite Ho]. }
  assert (∀ i, kind (slots s1 i) ≠ K_FREE ↔ kind (slots s i) ≠ K_FREE) as Hkf by apply Hsame.
  split; [split| |exact (wf_cursor _ _ _ _ _ Hwf)].
  - intros i. rewrite Hkf. apply (c_table _ _ _ _ C).
  - intros i Hi%Hkf. destruct (Hsame i) as (_ & -> & _). rewrite (c_refs _ _ _ _ C i Hi). pose proof (uses_put None _ _ _ _ i Hp Hh) as Hu.
    rewrite Eh, Eh1, !occ_nil in Hu. rewrite !occ_app, occ_nil. lia.
  - intros n i Hi. apply Hkf. by apply (c_edges _ _ _ _ C n), Hed.
  - intros i [Hi|?%elem_of_nil]%elem_of_app; [|done]. apply Hkf, (c_edges _ _ _ _ C h). by rewrite Eh.
  - intros i Hi%Hkf. destruct (Hsame i) as (_ & -> & -> & _). by apply (c_gone _ _ _ _ C).
  - eapply acyclic_fewer; [exact Hed|apply (c_rank _ _ _ _ C)].
  - intros i Hi. destruct (Hsame i) as (_ & _ & _ & ->). apply (c_free _ _ _ _ C).
    destruct (decide (kind (slots s i) = K_FREE)) as [|Hn]; [done|]. by apply Hkf in Hn.
  - intros i Hi. destruct (Hsame i) as (_ & _ & _ & ->). destruct (decide (i = h)) as [->|]; [done|].
    rewrite Ho in Hi by done. by apply (c_value _ _ _ _ C).
  - done.
  - eapply owned_same; [exact (wf_owned _ _ _ _ _ Hwf)|apply Hsame|done..].
Qed.

Lemma wp_drop_structure loose h s :
  ok loose s → kind (slots s h) = K_NODE → eh (slots s h) ≠ None →
  wp (drop_structure h) (λ _ s', ok loose s' ∧ steps (only h) s s' ∧
    (kind (slots s' h) ≠ K_FREE → settled_to_value s s' h) ∧
    (exists_ s h = true ↔ exists_ s' h = true) ∧ hs s' ⊆ hs s) never s.
Proof.
  intros Hwf Hk He. unfold drop_structure. do 2 tf_step. rewrite decide_True by done. do 2 tf_step.
  pose proof (wf_undress loose h s Hwf Hk He) as Hw1. set (f := λ x, set_kind K_VALUE (set_spec (spec_init []) x)) in *.
  set (s1 := upd_slots h f s) in *. pose proof (upd_slots_put h f s) as Hp. fold s1 in Hp. pose proof (is_put_at _ _ _ _ Hp) as E1.
  assert (steps (only h) s s1) as Hst1 by (eapply steps_put; [exact Hp|done..]).
  eapply wp_mono; [apply (wp_unref_all None _ [] loose); exact Hw1| |done]. cbv beta. intros _ s2 [Hw2 Ht].
  assert (steps none s1 s2) as Hst2 by (by eapply thinner_steps).
  assert (value_of s1 h = value_of s h) as Hv1 by (unfold value_of; by rewrite E1).
  split_and!; [done|by eapply steps_none_r| | |exact (t_hs _ _ Ht)].
  - intros Hk2. destruct (st_slot _ _ _ Hst2 h ltac:(tauto) Hk2) as [_ [[r Hr] Hv]].
    split; rewrite ?Hr, ?E1; try done. congruence.
  - assert (exists_ s h = true ↔ exists_ s1 h = true) as -> by (rewrite !exists_spec, E1; cbn; rewrite Hk; split; intros (? & _ & ?); done).
    split; [apply (st_named _ _ _ Hst2)|apply (steps_names none s1 s2 h Hst2)]; tauto.
Qed.
