(* ===== verification/Record.v ===== *)
(** * Recording a node, and undoing it

    What run_spec_ of modules/tensorflow/backend.c does to the slot table: a
    node with its references on its inputs, and their return when the shape
    rule refuses it. *)
From Stdlib Require Import Floats.SpecFloat.
From S2P Require Import Prelude Effect Float Tensor Closure Compile Shape Producer Slots Table.

(** The references taken, one for each time an input is named. *)
Lemma wp_add_refs `{TensorFlow} l s :
  wp (for_each add_ref l) (λ _ s',
    (∀ i, slots s' i = set_refs (refs (slots s i) + Z.of_nat (occ i l)) (slots s i)) ∧
    s' = set_slots (slots s') s) never s.
Proof.
  revert s. induction l as [|h l IH]; intros s; cbn [for_each].
  - tf_step. split; [|by destruct s]. intros i. rewrite occ_nil, Z.add_0_r. by rewrite set_refs_id.
  - tf_step. unfold add_ref at 1. tf_step. eapply wp_mono; [apply IH| |done]. cbv beta.
    intros _ s' [Hs Hr]. split; [|by destruct s'].
    intros i. rewrite Hs, occ_cons. cbn. destruct (decide (i = h)) as [->|Hne].
    + rewrite (decide_True (P := h = h)) by done. destruct (slots s h). unfold set_refs. cbn. f_equal. lia.
    + by rewrite decide_False by congruence.
Qed.

Lemma max_rank (rank : Z → nat) (l : list Z) : ∃ m, ∀ i, i ∈ l → rank i < m.
Proof.
  induction l as [|x l [m Hm]]; [exists 0; by intros i ?%elem_of_nil|].
  exists (S (m `max` rank x)). intros i [->|Hi]%elem_of_cons; [lia|]. specialize (Hm _ Hi). lia.
Qed.

(** What a slot is once its node is recorded. *)
Definition node_of (p : OpSpec) (up : bool) (x : TfSlot) : TfSlot :=
  set_under_param up (set_spec p (set_kind K_NODE x)).

(** A slot that nothing reads becomes a node, and what it reads is counted. *)
Lemma recorded_counted h p up s sl :
  counted None [] [] (slots s) → in_table h → kind (slots s h) ≠ K_NODE →
  refs (slots s h) = 0%Z → released (slots s h) = false →
  (∀ n, h ∉ edges None (slots s) n) → (∀ i, i ∈ ins p → kind (slots s i) ≠ K_FREE ∧ i ≠ h) →
  sl h = node_of p up (slots s h) →
  (∀ i, i ≠ h → sl i = set_refs (refs (slots s i) + Z.of_nat (occ i (ins p))) (slots s i)) →
  counted None [] [] sl.
Proof.
  intros C Hh Hk Hz Hrel Hno Hins Eh Eo.
  assert (h ∉ ins p) as Hhp by (intros Hi; by apply Hins in Hi as [_ ?]).
  assert (∀ n, n ≠ h → edges None sl n = edges None (slots s) n) as Hed.
  { intros n Hn. unfold edges. by rewrite Eo. }
  assert (edges None sl h = ins p) as Hedh by (unfold edges; rewrite Eh; cbn; by rewrite decide_True).
  assert (edges None (slots s) h = []) as Hedh0 by (unfold edges; by rewrite decide_False by (by intros [_ ?])).
  assert (∀ i, uses None sl i = uses None (slots s) i + occ i (ins p)) as Hu.
  { intros i. pose proof (sum_put (λ j, occ i (edges None (slots s) j)) (λ j, occ i (edges None sl j)) h table
      NoDup_table (proj2 (elem_of_table h) Hh)) as Hsum. cbv beta in Hsum. rewrite Hedh, Hedh0, occ_nil in Hsum.
    unfold uses. specialize (Hsum ltac:(intros j Hj; by rewrite Hed)). lia. }
  assert (∀ i, i = h ∨ i ≠ h) as Hdec by (intros i; destruct (decide (i = h)); auto). split.
  - intros i. destruct (Hdec i) as [->|Hi]; [done|]. rewrite Eo by done. apply (c_table _ _ _ _ C).
  - intros i. rewrite Hu, occ_nil. destruct (Hdec i) as [->|Hi].
    + rewrite occ_pos in Hhp. rewrite Eh, (uses_zero None _ h Hno). cbn. lia.
    + rewrite Eo by done. cbn. intros Hki. rewrite (c_refs _ _ _ _ C i Hki), occ_nil. lia.
  - intros n i. destruct (Hdec n) as [->|Hn].
    + rewrite Hedh. intros [Hki Hi]%Hins. by rewrite Eo.
    + rewrite Hed by done. intros Hi. assert (i ≠ h) by (intros ->; by apply (Hno n)).
      rewrite Eo by done. by apply (c_edges _ _ _ _ C n).
  - by intros i ?%elem_of_nil.
  - intros i. destruct (Hdec i) as [->|Hi]; [rewrite Eh; cbn; congruence|].
    rewrite Eo by done. cbn. intros Hki Hri Hzi. pose proof (c_refs _ _ _ _ C i Hki).
    apply (c_gone _ _ _ _ C i Hki Hri). lia.
  - destruct (c_rank _ _ _ _ C) as [rank Hrank]. destruct (max_rank rank (ins p)) as [m Hm].
    exists (λ i, if decide (i = h) then m else rank i). intros n i. destruct (Hdec n) as [->|Hn].
    + rewrite Hedh, (decide_True (P := h = h)) by done. intros Hi. pose proof (Hm _ Hi). apply Hins in Hi as [_ ?].
      by rewrite decide_False.
    + rewrite Hed by done. intros Hi. assert (i ≠ h) by (intros ->; by apply (Hno n)).
      rewrite !decide_False by done. by apply Hrank.
  - intros i. destruct (Hdec i) as [->|Hi]; [by rewrite Eh|]. rewrite Eo by done. apply (c_free _ _ _ _ C).
  - intros i. destruct (Hdec i) as [->|Hi]; [by rewrite Eh|]. rewrite Eo by done. apply (c_value _ _ _ _ C).
  - done.
Qed.
Lemma wp_record `{TensorFlow} loose h p up s :
  ok loose s → in_table h → kind (slots s h) ≠ K_NODE →
  refs (slots s h) = 0%Z → released (slots s h) = false →
  (∀ n, h ∉ edges None (slots s) n) →
  (∀ i, i ∈ ins p → kind (slots s i) ≠ K_FREE ∧ i ≠ h) →
  wp (record h p up) (λ _ s', ok loose s' ∧ steps (only h) s s' ∧
    slots s' h = node_of p up (slots s h) ∧ hs s' = hs s ∧
    (∀ i, ∃ r, i ≠ h → slots s' i = set_refs r (slots s i))) never s.
Proof.
  intros Hwf Hh Hk Hz Hrel Hno Hins. unfold record. do 2 tf_step.
  change (λ s, set_under_param up (set_spec p (set_kind K_NODE s))) with (node_of p up).
  set (s1 := upd_slots h (node_of p up) s). pose proof (upd_slots_put h (node_of p up) s) as Hp. fold s1 in Hp.
  eapply wp_mono; [apply wp_add_refs| |done]. cbv beta. intros _ s' [Hs Hr].
  assert (slots s' h = node_of p up (slots s h)) as Eh.
  { assert (h ∉ ins p) as Hhp by (intros Hi; by apply Hins in Hi as [_ ?]). rewrite occ_pos in Hhp.
    rewrite Hs. replace (occ h (ins p)) with 0 by lia. rewrite Z.add_0_r, set_refs_id. exact (is_put_at _ _ _ _ Hp). }
  assert (∀ i, i ≠ h → slots s' i = set_refs (refs (slots s i) + Z.of_nat (occ i (ins p))) (slots s i)) as Eo.
  { intros i Hi. by rewrite Hs, (is_put_other _ _ _ _ _ Hp Hi). }
  split_and!; [| |done|by rewrite Hr|intros i; eexists; intros Hi; by apply Eo].
  - split; [eapply recorded_counted; [exact (wf_counted _ _ _ _ _ Hwf)|done..]| |rewrite Hr; exact (wf_cursor _ _ _ _ _ Hwf)].
    eapply owned_same; [exact (wf_owned _ _ _ _ _ Hwf)| |by rewrite Hr..].
    intros i. destruct (decide (i = h)) as [->|Hi]; [by rewrite Eh|by rewrite Eo].
  - split; [| |by rewrite Hr|by rewrite Hr].
    + intros i Hi. rewrite Eo by done. cbn. intros Hki. split; [done|]. split; [eexists; by apply Eo|].
      unfold value_of. rewrite Eo by done. by rewrite Hr.
    + intros i Hi. rewrite !exists_spec. by rewrite Eo.
Qed.

(** The references given back while the node is still there, then the node
    gone. *)
Lemma edges_hidden h sl n i : i ∈ edges (Some h) sl n → i ∈ edges None sl n.
Proof. unfold edges. repeat case_decide; try done; [naive_solver|by intros ?%elem_of_nil]. Qed.
(** A node to be undone: its reads are no longer its own, and are pending. *)
Lemma hide_node loose h s :
  ok loose s → kind (slots s h) = K_NODE → released (slots s h) = false → wf (Some h) [] (ins (spec (slots s h)) ++ []) loose s.
Proof.
  intros Hwf Hk Hrel. pose proof (wf_counted _ _ _ _ _ Hwf) as C. pose proof (c_table _ _ _ _ C h ltac:(congruence)) as Hh.
  assert (∀ n, n ≠ h → edges (Some h) (slots s) n = edges None (slots s) n) as Hed.
  { intros n Hn. unfold edges. apply decide_ext. split; intros [_ ?]; split; congruence. }
  assert (edges (Some h) (slots s) h = []) as Hedh by (unfold edges; by rewrite decide_False by (by intros [? _])).
  assert (edges None (slots s) h = ins (spec (slots s h))) as Hedh0 by (unfold edges; by rewrite decide_True).
  assert (∀ i, uses None (slots s) i = uses (Some h) (slots s) i + occ i (ins (spec (slots s h)))) as Hu.
  { intros i. pose proof (sum_put (λ j, occ i (edges None (slots s) j)) (λ j, occ i (edges (Some h) (slots s) j)) h table
      NoDup_table (proj2 (elem_of_table h) Hh)) as Hsum. cbv beta in Hsum. rewrite Hedh, Hedh0, occ_nil in Hsum.
    unfold uses. specialize (Hsum ltac:(intros j Hj; by rewrite Hed)). lia. }
  split; [split|exact (wf_owned _ _ _ _ _ Hwf)|exact (wf_cursor _ _ _ _ _ Hwf)].
  - exact (c_table _ _ _ _ C).
  - intros i Hi. rewrite (c_refs _ _ _ _ C i Hi), Hu, !occ_app, occ_nil. lia.
  - intros n i Hi. by apply (c_edges _ _ _ _ C n), (edges_hidden h).
  - intros i [Hi|?%elem_of_nil]%elem_of_app; [|done]. apply (c_edges _ _ _ _ C h). by rewrite Hedh0.
  - exact (c_gone _ _ _ _ C).
  - destruct (c_rank _ _ _ _ C) as [rank Hrank]. exists rank. intros n i Hi. apply Hrank. by apply (edges_hidden h).
  - exact (c_free _ _ _ _ C).
  - exact (c_value _ _ _ _ C).
  - by intros i [= <-].
Qed.
(** A hidden node nothing reads is freed. *)
Lemma free_hidden loose h s s' :
  wf (Some h) [] [] loose s → kind (slots s h) = K_NODE → eh (slots s h) = None → (∀ n, h ∉ edges (Some h) (slots s) n) →
  is_put h (set_kind K_FREE (slots s h)) (slots s) (slots s') →
  scalars s' = scalars s → hs s' = hs s → next_h s' = next_h s → slot_cursor s' = slot_cursor s → ok loose s'.
Proof.
  intros Hwf Hk Heh Hno Hp Hsc Hhs Hn Hcu. pose proof (wf_counted _ _ _ _ _ Hwf) as C.
  assert (∀ n, edges None (slots s') n = edges (Some h) (slots s) n) as Hed.
  { intros n. unfold edges. rewrite Hp. destruct (decide (n = h)) as [->|Hne].
    - rewrite !decide_False; [done|by intros [? _]|by intros [_ ?]].
    - apply decide_ext. split; intros [_ ?]; split; congruence. }
  assert (∀ i, uses None (slots s') i = uses (Some h) (slots s) i) as Hu.
  { intros i. unfold uses. induction table as [|z l IH]; [done|]. cbn [sum_list_with]. by rewrite IH, Hed. }
  assert (∀ i, i = h ∨ i ≠ h) as Hdec by (intros i; destruct (decide (i = h)); auto).
  pose proof (is_put_at _ _ _ _ Hp) as E. pose proof (λ i, is_put_other _ _ _ _ i Hp) as Eo.
  split; [split| |rewrite Hcu; exact (wf_cursor _ _ _ _ _ Hwf)].
  - intros i. destruct (Hdec i) as [->|Hi]; [by rewrite E|]. rewrite Eo by done. apply (c_table _ _ _ _ C).
  - intros i. rewrite Hu. destruct (Hdec i) as [->|Hi]; [by rewrite E|]. rewrite Eo by done. apply (c_refs _ _ _ _ C).
  - intros n i. rewrite Hed. intros Hi. assert (i ≠ h) by (intros ->; by apply (Hno n)).
    rewrite Eo by done. by apply (c_edges _ _ _ _ C n).
  - by intros i ?%elem_of_nil.
  - intros i. destruct (Hdec i) as [->|Hi]; [by rewrite E|]. rewrite Eo by done. apply (c_gone _ _ _ _ C).
  - destruct (c_rank _ _ _ _ C) as [rank Hrank]. exists rank. intros n i. rewrite Hed. auto.
  - intros i. destruct (Hdec i) as [->|Hi]; [by rewrite E|]. rewrite Eo by done. apply (c_free _ _ _ _ C).
  - intros i. destruct (Hdec i) as [->|Hi]; [by rewrite E|]. rewrite Eo by done. apply (c_value _ _ _ _ C).
  - done.
  - eapply owned_same; [exact (wf_owned _ _ _ _ _ Hwf)| |done..].
    intros i. destruct (Hdec i) as [->|Hi]; [by rewrite E|by rewrite Eo].
Qed.

Lemma wp_undo `{TensorFlow} loose h p s :
  ok loose s → kind (slots s h) = K_NODE → spec (slots s h) = p → eh (slots s h) = None →
  released (slots s h) = false → (∀ n, h ∉ edges None (slots s) n) →
  wp (undo h p) (λ r s', r = None ∧ ok loose s' ∧ steps (only h) s s' ∧ kind (slots s' h) = K_FREE) never s.
Proof.
  intros Hwf Hk <- Heh Hrel Hno. pose proof (hide_node loose h s Hwf Hk Hrel) as Hw0.
  unfold undo. tf_step. eapply wp_mono; [apply (wp_unref_all (Some h) _ [] loose), Hw0| |done].
  cbv beta. intros _ s1 [Hw1 Ht]. do 5 tf_step. split; [done|].
  destruct (thinner_named _ _ h Ht Hrel) as [r Hr1]. pose proof (upd_slots_put h (set_kind K_FREE) s1) as Hp.
  set (s2 := stat_rec_add (-1) (upd_slots h (set_kind K_FREE) s1)).
  split_and!; [| |change (kind (slots (upd_slots h (set_kind K_FREE) s1) h) = K_FREE); by rewrite (is_put_at _ _ _ _ Hp)].
  - eapply (free_hidden loose h s1 s2); [exact Hw1|by rewrite Hr1|by rewrite Hr1| |exact Hp|done..].
    intros n Hn. assert (kind (slots s1 n) ≠ K_FREE) as Hkn.
    { unfold edges in Hn. case_decide as Hd; [destruct Hd; congruence|by apply elem_of_nil in Hn]. }
    destruct (thinner_slot _ _ _ Ht Hkn) as [r' Hr']. apply (Hno n), (edges_hidden h). revert Hn. unfold edges. by rewrite Hr'.
  - eapply steps_none_l; [eapply (thinner_steps (Some h)); [exact Hw0|exact Hw1|done]|].
    eapply steps_put; [exact Hp|done..].
Qed.
