(* ===== verification/Meaning.v ===== *)
(** * What a tensor is

    A slot of modules/tensorflow/backend.c stands for a tensor whether or not
    it has been computed: a value for itself, a node for what its operation
    makes of its inputs.  This is the abstract state of the back end; every
    operation is shown to keep what the program's tensors stand for. *)
From Stdlib Require Import Floats.SpecFloat.
From S2P Require Import Prelude Effect Float Tensor Closure Compile Slots Table.

Section meaning.
Context `{TensorFlow}.
Implicit Types s : tfst.

(** The tensor a slot stands for, looked for to a depth. *)
Fixpoint mean (fuel : nat) (s : tfst) (h : Z) : option tensor :=
  match fuel with
  | O => None
  | S fuel =>
      match kind (slots s h) with
      | K_FREE => None
      | K_VALUE => value_of s h
      | K_NODE =>
          ts ← mapM (mean fuel s) (ins (spec (slots s h)));
          match tf_exec (recipe (spec (slots s h))) ts with inl t => Some t | inr _ => None end
      end
  end.
Definition means (s : tfst) (h : Z) (t : tensor) : Prop := ∃ n, mean n s h = Some t.

Lemma mapM_mono {A B} (f g : A → option B) l k :
  (∀ x y, f x = Some y → g x = Some y) → mapM f l = Some k → mapM g l = Some k.
Proof.
  intros Hfg. rewrite !mapM_Some. intros Hf. eapply Forall2_impl; [exact Hf|auto].
Qed.
Lemma mean_mono n m s h t : n ≤ m → mean n s h = Some t → mean m s h = Some t.
Proof.
  revert m h t. induction n as [|n IH]; intros m h t Hle Hm; [done|].
  destruct m as [|m]; [lia|]. cbn in *. destruct (kind (slots s h)); try done.
  apply bind_Some in Hm as (ts & Hts & Hm). rewrite (mapM_mono (mean n s) (mean m s) _ ts); [done| |done].
  intros. apply IH; [lia|done].
Qed.

Lemma means_det s h t t' : means s h t → means s h t' → t = t'.
Proof.
  intros [n Hn] [m Hm]. apply (mean_mono _ (n `max` m)) in Hn, Hm; [congruence|lia..].
Qed.
Lemma means_value s h t : kind (slots s h) = K_VALUE → means s h t ↔ value_of s h = Some t.
Proof.
  intros Hk. split.
  - intros [[|n] Hn]; [done|]. cbn in Hn. by rewrite Hk in Hn.
  - intros Hv. exists 1. cbn. by rewrite Hk.
Qed.
Lemma means_all s l ts : Forall2 (means s) l ts → ∃ n, mapM (mean n s) l = Some ts.
Proof.
  induction 1 as [|h t l ts [n Hn] _ [m Hm]]; [by exists 0|]. exists (n `max` m). cbn.
  rewrite (mean_mono n _ s h t) by (lia || done). cbn.
  rewrite (mapM_mono (mean m s) (mean (n `max` m) s) l ts); [done| |done]. intros. eapply mean_mono; [|done]. lia.
Qed.
Lemma means_node s h t :
  kind (slots s h) = K_NODE →
  means s h t ↔ ∃ ts, Forall2 (means s) (ins (spec (slots s h))) ts ∧ tf_exec (recipe (spec (slots s h))) ts = inl t.
Proof.
  intros Hk. split.
  - intros [[|n] Hn]; [done|]. cbn in Hn. rewrite Hk in Hn.
    apply bind_Some in Hn as (ts & Hts & Hn). exists ts. split.
    + apply mapM_Some in Hts. eapply Forall2_impl; [done|]. intros j tj ?. by exists n.
    + by destruct (tf_exec _ ts); [simplify_eq|].
  - intros (ts & [n Hn]%means_all & Ht). exists (S n). cbn. rewrite Hk, Hn. cbn. by rewrite Ht.
Qed.
Lemma means_live s h t : means s h t → kind (slots s h) ≠ K_FREE.
Proof. intros [[|n] Hn]; [done|]. cbn in Hn. by destruct (kind (slots s h)). Qed.

(** Induction on the depth. *)
Lemma means_ind' s (P : Z → tensor → Prop) :
  (∀ h t, kind (slots s h) = K_VALUE → value_of s h = Some t → P h t) →
  (∀ h ts t, kind (slots s h) = K_NODE →
     Forall2 (λ j tj, means s j tj ∧ P j tj) (ins (spec (slots s h))) ts →
     tf_exec (recipe (spec (slots s h))) ts = inl t → P h t) →
  ∀ h t, means s h t → P h t.
Proof.
  intros Hv Hn h t [n Ht]. revert h t Ht. induction n as [|n IH]; intros h t Ht; [done|]. cbn in Ht.
  destruct (kind (slots s h)) eqn:Hk; [done|by apply Hv|].
  apply bind_Some in Ht as (ts & Hts & Ht). eapply (Hn h ts); [done| |].
  - apply mapM_Some in Hts. eapply Forall2_impl; [done|]. intros j tj Hj. split; [by exists n|by apply IH].
  - by destruct (tf_exec _ ts); [simplify_eq|].
Qed.

(** ** Values agree with meanings *)

(** A constant made here: the key tells it apart by its sizes and integers. *)
Definition constant (t : tensor) : Prop :=
  t_dtype t = TF_INT32 ∧ length (t_data t) ≤ 32 ∧ length (t_dims t) ≤ TF_MAXDIM ∧
  Forall (λ x, ∃ i, x = Int i) (t_data t).

(** Sizes as a slot has them: right where they are not 0.  (The rule for two
    shapes to broadcast takes 0 against 1 for 1.) *)
Definition agrees (sh dims : list Z) : Prop := Forall2 (λ x y, y = 0%Z ∨ x = y) sh dims.
Lemma agrees_refl l : agrees l l.
Proof. apply Forall_Forall2_diag, Forall_true. auto. Qed.
(** The sizes of a tensor: none negative, their product in 64 bits. *)
Definition proper_dims (l : list Z) : Prop := Forall (λ d, 0 ≤ d)%Z l ∧ (elements l < 2 ^ 63)%Z.
#[export] Instance proper_dims_decision l : Decision (proper_dims l).
Proof. unfold proper_dims. apply _. Defined.
(** What a slot tells of the tensor it stands for ... *)
Record fits (x : TfSlot) (t : tensor) : Prop := {
  ft_room : length (t_dims t) ≤ TF_MAXDIM;
  ft_proper : proper_dims (t_dims t);
  ft_dtype : dtype x = t_dtype t;
  ft_shape : shape_known x = true → agrees (shape x) (t_dims t);
}.
(** ... and of its value. *)
Definition exact (x : TfSlot) (t : tensor) : Prop := shape_known x = true ∧ shape x = t_dims t.

Record sound_at (s : tfst) (h : Z) : Prop := {
  sd_node : ∀ t, kind (slots s h) = K_NODE → value_of s h = Some t → means s h t;
  sd_const : ∀ t, val (slots s h) = Some t → kind (slots s h) = K_VALUE ∧ value_of s h = Some t ∧ constant t;
  sd_fits : ∀ t, means s h t → fits (slots s h) t;
  sd_exact : ∀ t, value_of s h = Some t → exact (slots s h) t;
  sd_room : length (shape (slots s h)) ≤ TF_MAXDIM;
}.
Definition sound (s : tfst) : Prop := ∀ h, kind (slots s h) ≠ K_FREE → sound_at s h.

(** What may become of a slot that stays: it keeps its structure and has its
    value, loses it, or gets the one it stands for; or it becomes the value
    it stands for.  What it tells of that remains true. *)
Definition outlined (s s' : tfst) (i : Z) : Prop := ∀ t,
  means s i t → fits (slots s i) t →
  fits (slots s' i) t ∧ ((value_of s i = Some t → exact (slots s i) t) → value_of s' i = Some t → exact (slots s' i) t).
Lemma outlined_then s s1 s2 i :
  outlined s s1 i → shape (slots s2 i) = shape (slots s1 i) → dtype (slots s2 i) = dtype (slots s1 i) →
  shape_known (slots s2 i) = shape_known (slots s1 i) → value_of s2 i = value_of s1 i → outlined s s2 i.
Proof.
  intros Ho Hs Hd Hk Hv t Hm Hf. destruct (Ho t Hm Hf) as [[Hr Hp Ht Hsh] He]. unfold exact in *. rewrite Hs, Hk, Hv.
  split; [split; by rewrite ?Hs, ?Hd, ?Hk|done].
Qed.
Record evolved (s s' : tfst) (i : Z) : Prop := {
  ev_ckey : ckey (slots s' i) = ckey (slots s i);
  ev_val : val (slots s' i) = val (slots s i);
  ev_outline : outlined s s' i;
  ev_room : length (shape (slots s i)) ≤ TF_MAXDIM → length (shape (slots s' i)) ≤ TF_MAXDIM;
  ev_becomes :
    (kind (slots s' i) = kind (slots s i) ∧ spec (slots s' i) = spec (slots s i) ∧
     (value_of s' i = value_of s i ∨
      kind (slots s i) = K_NODE ∧ ∀ t, value_of s' i = Some t → means s i t)) ∨
    (kind (slots s i) = K_NODE ∧ kind (slots s' i) = K_VALUE ∧ ∃ t, value_of s' i = Some t ∧ means s i t);
}.
Definition evolves (s s' : tfst) : Prop := ∀ i,
  kind (slots s' i) ≠ K_FREE → kind (slots s i) ≠ K_FREE → evolved s s' i.

Lemma outlined_same s s' i :
  shape (slots s' i) = shape (slots s i) → dtype (slots s' i) = dtype (slots s i) →
  shape_known (slots s' i) = shape_known (slots s i) →
  (∀ t, value_of s' i = Some t → value_of s i = Some t ∨ exact (slots s i) t) → outlined s s' i.
Proof.
  intros Hs Hd Hk Hv t _ [Hr Hp Ht Hsh]. unfold exact. rewrite Hs, Hk. split; [split; by rewrite ?Hs, ?Hd, ?Hk|].
  intros He Hv'. destruct (Hv t Hv') as [?|?]; [by apply He|done].
Qed.
Lemma stays_evolved s s' i : stays s s' i → evolved s s' i.
Proof.
  intros [[r Hr] Hv]. split; rewrite ?Hr; [done..| |done|left; auto].
  apply outlined_same; rewrite ?Hr; [done..|]. intros t Ht. left. by rewrite <- Hv.
Qed.
(** The value it stands for, taken with its sizes. *)
Lemma outlined_taken s s' i e t :
  means s i t → slots s' i = set_shape_from_tensor t (set_eh e (slots s i)) → outlined s s' i.
Proof.
  intros Hm Hs u Hu [Hr Hp _ _]. assert (u = t) as -> by by eapply means_det. rewrite Hs.
  assert (take TF_MAXDIM (t_dims t) = t_dims t) as Ht by by apply take_ge.
  split; [|by split]. split; [done..|]. intros _. cbn [shape set_shape_from_tensor set_dtype set_shape_known set_shape set_eh].
  rewrite Ht. apply agrees_refl.
Qed.
Lemma steps_evolves N s s' :
  steps N s s' → (∀ i, N i → kind (slots s' i) ≠ K_FREE → kind (slots s i) ≠ K_FREE → evolved s s' i) →
  (∀ i, N i ∨ ¬ N i) → evolves s s'.
Proof.
  intros Hs HN Hdec i Hk' Hk. destruct (Hdec i) as [Hi|Hi]; [auto|].
  by apply stays_evolved, (st_slot _ _ _ Hs i Hi Hk').
Qed.

Lemma node_input_live loose s h j :
  ok loose s → kind (slots s h) = K_NODE → j ∈ ins (spec (slots s h)) → kind (slots s j) ≠ K_FREE.
Proof.
  intros Hwf Hk Hj. apply (c_edges _ _ _ _ (wf_counted _ _ _ _ _ Hwf) h). unfold edges. by rewrite decide_True.
Qed.

(** Along such a change every slot that stays means what it meant. *)
Lemma evolves_means loose loose' s s' i t :
  ok loose s → ok loose' s' → evolves s s' → kind (slots s' i) ≠ K_FREE → kind (slots s i) ≠ K_FREE →
  means s i t ↔ means s' i t.
Proof.
  intros Hwf Hwf' He Hk' Hk. split.
  - intros Hm. revert i t Hm Hk Hk'. apply (means_ind' s (λ i t, kind (slots s i) ≠ K_FREE → kind (slots s' i) ≠ K_FREE → means s' i t)).
    + intros i t Hki Hv _ Hk'. destruct (ev_becomes _ _ _ (He i Hk' ltac:(congruence))) as [(Hk2 & _ & Hv2)|(?&_)]; [|congruence].
      apply means_value; [congruence|]. destruct Hv2 as [->|[? _]]; [done|congruence].
    + intros i ts t Hki Hts Ht _ Hk'. destruct (ev_becomes _ _ _ (He i Hk' ltac:(congruence))) as [(Hk2 & Hs2 & _)|(_&Hk2&t'&Hv&Hm)].
      * apply means_node; [congruence|]. rewrite Hs2. exists ts. split; [|done].
        assert (∀ j, j ∈ ins (spec (slots s i)) → kind (slots s' j) ≠ K_FREE) as Hl.
        { intros j Hj. apply (node_input_live loose' s' i); [done|congruence|]. by rewrite Hs2. }
        clear -Hts Hl Hwf Hki. revert Hl. assert (∀ j, j ∈ ins (spec (slots s i)) → kind (slots s j) ≠ K_FREE) as Hl'.
        { intros j. by apply (node_input_live loose). }
        revert Hl'. induction Hts as [|j tj l ts [Hm IHj] _ IH]; [constructor|].
        intros Hl' Hl. constructor; [apply IHj; [apply Hl'|apply Hl]; set_solver|]. apply IH; set_solver.
      * apply means_value; [done|]. rewrite Hv. f_equal. eapply means_det; [exact Hm|].
        apply means_node; [done|]. exists ts. split; [|done]. eapply Forall2_impl; [done|]. by intros ?? [? _].
  - intros Hm. revert i t Hm Hk Hk'. apply (means_ind' s' (λ i t, kind (slots s i) ≠ K_FREE → kind (slots s' i) ≠ K_FREE → means s i t)).
    + intros i t Hki Hv Hk Hk'. destruct (ev_becomes _ _ _ (He i Hk' Hk)) as [(Hk2 & _ & Hv2)|(Hn&_&t'&Hv2&Hm)]; [|congruence].
      destruct Hv2 as [Hv2|[? Hm]]; [|by apply Hm]. apply means_value; congruence.
    + intros i ts t Hki Hts Ht Hk Hk'. destruct (ev_becomes _ _ _ (He i Hk' Hk)) as [(Hk2 & Hs2 & _)|(_&Hk2&_)]; [|congruence].
      rewrite Hs2 in Hts, Ht. apply means_node; [congruence|]. exists ts. split; [|done].
      assert (∀ j, j ∈ ins (spec (slots s i)) → kind (slots s j) ≠ K_FREE ∧ kind (slots s' j) ≠ K_FREE) as Hl.
      { intros j Hj. split; [apply (node_input_live loose s i); [done|congruence|done]|].
        apply (node_input_live loose' s' i); [done|congruence|]. by rewrite Hs2. }
      clear -Hts Hl. revert Hl. induction Hts as [|j tj l ts [Hm IHj] _ IH]; [constructor|].
      intros Hl. constructor; [apply IHj; apply Hl; set_solver|]. apply IH. set_solver.
Qed.

(** ... and what was sound is. *)
Lemma evolves_sound loose loose' s s' :
  ok loose s → ok loose' s' → sound s → evolves s s' →
  (∀ i, kind (slots s' i) ≠ K_FREE → kind (slots s i) = K_FREE → sound_at s' i) → sound s'.
Proof.
  intros Hwf Hwf' Hs He Hnew i Hk'. destruct (decide (kind (slots s i) = K_FREE)) as [Hf|Hk]; [by apply Hnew|].
  destruct (Hs i Hk) as [Hsn Hsc Hsf Hse Hsr]. pose proof (λ t, evolves_means loose loose' s s' i t Hwf Hwf' He Hk' Hk) as Hem.
  destruct (He i Hk' Hk) as [_ Hval Hout Hrm Hb].
  assert (∀ t, kind (slots s' i) = K_NODE → value_of s' i = Some t → means s' i t) as Hn.
  { intros t Hn Hv. apply Hem. destruct Hb as [(Hk2 & _ & Hv2)|(_&Hk2&_)]; [|congruence].
    destruct Hv2 as [Hv2|[_ Hm]]; [|by apply Hm]. apply Hsn; congruence. }
  assert (∀ t, value_of s' i = Some t → means s' i t) as Hvm.
  { intros t Hv. destruct (kind (slots s' i)) eqn:E; [done|by apply means_value|by apply Hn]. }
  split; [done| | | |by apply Hrm].
  - intros t Ht. rewrite Hval in Ht. destruct (Hsc t Ht) as (Hkv & Hv & Hct). destruct Hb as [(Hk2 & _ & Hv2)|(Hn2 & _)]; [|congruence].
    split; [congruence|]. split; [|done]. destruct Hv2 as [->|[? _]]; [done|congruence].
  - intros t Hm%Hem. by apply Hout; [|apply Hsf].
  - intros t Hv. pose proof (proj2 (Hem t) (Hvm t Hv)) as Hm. by apply (Hout t Hm (Hsf t Hm)); [apply Hse|].
Qed.

(** The slots and their handles are all there is to it. *)
Lemma mean_same n s s' h : slots s' = slots s → hs s' = hs s → mean n s' h = mean n s h.
Proof.
  intros Hs Hh. revert h. induction n as [|n IH]; intros h; [done|]. cbn. unfold value_of. rewrite Hs, Hh.
  destruct (kind (slots s h)); [done..|]. f_equal. apply mapM_ext. done.
Qed.
Lemma means_same s s' h t : slots s' = slots s → hs s' = hs s → means s' h t ↔ means s h t.
Proof. intros Hs Hh. unfold means. by setoid_rewrite (mean_same _ s s' h Hs Hh). Qed.
Lemma sound_same s s' : slots s' = slots s → hs s' = hs s → sound s → sound s'.
Proof.
  intros Hs Hh Ho i. rewrite Hs. intros Hk. destruct (Ho i Hk) as [Hn Hc Hf He Hro].
  assert (value_of s' i = value_of s i) as Hv by (unfold value_of; by rewrite Hs, Hh). split; rewrite ?Hs, ?Hv; [|done| |done|done];
    intros t; rewrite means_same by done; auto.
Qed.

(** ** What the program's tensors stand for is kept *)

Definition keeps (s s' : tfst) : Prop := ∀ h,
  exists_ s h = true → exists_ s' h = true ∧ ∀ t, means s h t ↔ means s' h t.

#[export] Instance keeps_preorder : PreOrder keeps.
Proof.
  split; [done|]. intros s1 s2 s3 Ha Hb h Hh. destruct (Ha h Hh) as [Hh2 Hm]. destruct (Hb h Hh2) as [Hh3 Hm'].
  split; [done|]. intros t. by rewrite Hm.
Qed.
Lemma exists_live s h : exists_ s h = true → kind (slots s h) ≠ K_FREE.
Proof. by intros (_ & ? & _)%exists_spec. Qed.
Lemma evolves_keeps loose loose' s s' :
  ok loose s → ok loose' s' → evolves s s' → (∀ h, exists_ s h = true → exists_ s' h = true) → keeps s s'.
Proof.
  intros Hwf Hwf' He Hx h Hh. split; [auto|]. intros t. eapply evolves_means; [done..| |]; apply exists_live; auto.
Qed.
Lemma keeps_same s s' : slots s' = slots s → hs s' = hs s → keeps s s'.
Proof.
  intros Hs Hh h Hx. split; [|intros t; symmetry; by apply means_same].
  apply exists_spec. apply exists_spec in Hx. by rewrite Hs.
Qed.
End meaning.
