(* ===== verification/Typed.v ===== *)
(** * The shapes TensorFlow documents, and the rules of backend.c

    A reference for what each operation's result is, as TensorFlow documents
    it; and that [shape_rule] of modules/tensorflow/backend.c, where it
    answers, answers that: the two agree wherever the true size is not 0. *)
From Stdlib Require Import Floats.SpecFloat.
From S2P Require Import Prelude Effect Float Tensor Closure Compile Shape Producer Slots Table Meaning.

(** ** The reference *)

Definition int_data (t : tensor) : list Z := int_of <$> t_data t.

(** Broadcasting: sizes compared from the last, equal or one of them 1. *)
Definition broadcast_dim (x y : Z) : option Z :=
  if decide (x = y) then Some x else if decide (x = 1%Z) then Some y else if decide (y = 1%Z) then Some x else None.
Fixpoint broadcast_rev (a b : list Z) : option (list Z) :=
  match a, b with
  | [], l | l, [] => Some l
  | x :: a, y :: b => z ← broadcast_dim x y; r ← broadcast_rev a b; Some (z :: r)
  end.
Definition broadcast (a b : list Z) : option (list Z) := reverse <$> broadcast_rev (reverse a) (reverse b).

(** An axis of [n]; a negative one counts from the end. *)
Definition axis_of (n x : Z) : option Z :=
  if decide (0 ≤ x < n)%Z then Some x else if decide (-n ≤ x < 0)%Z then Some (x + n)%Z else None.
(** The sizes without those at [axes], or with 1 in their place. *)
Fixpoint without (axes : list Z) (keep : bool) (i : Z) (a : list Z) : list Z :=
  match a with
  | [] => []
  | d :: a => (if decide (i ∈ axes) then (if keep then [1%Z] else []) else [d]) ++ without axes keep (i + 1) a
  end.
(** The sizes asked for; one may be -1, for whatever is left. *)
Definition holes (v : list Z) : list nat := filter (λ i, v !! i = Some (-1)%Z) (seq 0 (length v)).
Definition reshaped (total : Z) (v : list Z) : option (list Z) :=
  let rest := filter (λ x, x ≠ (-1)%Z) v in
  if decide (Exists (λ x, x < 0)%Z rest) then None
  else match holes v with
       | [] => if decide (elements v = total) then Some v else None
       | [w] => if decide (elements rest ≠ 0 ∧ total `mod` elements rest = 0)%Z
                then Some (<[w := total / elements rest]> v)%Z else None
       | _ => None
       end.
Definition cut (d begin size : Z) : option Z :=
  if decide (0 ≤ begin ∧ size = -1 ∧ begin ≤ d)%Z then Some (d - begin)%Z
  else if decide (0 ≤ begin ∧ 0 ≤ size ∧ begin + size ≤ d)%Z then Some size else None.
Fixpoint sliced (a begin size : list Z) : option (list Z) :=
  match a, begin, size with
  | [], [], [] => Some []
  | d :: a, b :: begin, z :: size => x ← cut d b z; r ← sliced a begin size; Some (x :: r)
  | _, _, _ => None
  end.

(** The sizes of an operation's result; [None] where it is refused. *)
Definition doc_dims (p : OpSpec) (ts : list tensor) : option (list Z) :=
  if decide (op p ∈ same_shape) then match ts with [x] => Some (t_dims x) | _ => None end
  else if decide (op p ∈ broadcasting) then match ts with [x; y] => broadcast (t_dims x) (t_dims y) | _ => None end
  else if decide (op p = $"MatMul") then
    match t_dims <$> ts with
    | [[m; k]; [k'; n]] => if decide (k = k') then Some [m; n] else None
    | _ => None
    end
  else if decide (op p = $"Transpose") then
    match ts with
    | [x; perm] => let v := int_data perm in
        if decide (length v = length (t_dims x)) then mapM (λ i, t_dims x !! Z.to_nat i) v else None
    | _ => None
    end
  else if decide (op p ∈ reducing) then
    match ts with
    | [x; ax] => axes ← mapM (axis_of (Z.of_nat (length (t_dims x)))) (int_data ax);
                 Some (without axes (keep_dims p) 0 (t_dims x))
    | _ => None
    end
  else if decide (op p = $"ArgMax") then
    match ts with
    | [x; dim] => match int_data dim with
                  | [d] => i ← axis_of (Z.of_nat (length (t_dims x))) d; Some (without [i] false 0 (t_dims x))
                  | _ => None
                  end
    | _ => None
    end
  else if decide (op p = $"Reshape") then
    match ts with [x; sh] => reshaped (elements (t_dims x)) (int_data sh) | _ => None end
  else if decide (op p = $"Slice") then
    match ts with [x; b; z] => sliced (t_dims x) (int_data b) (int_data z) | _ => None end
  else None.

(** The type of its elements: its first input's, or what its attribute says. *)
Definition attr (a : bytes) (p : OpSpec) : Z := default 0%Z ((λ q, q.2.2) <$> list_find (λ q, q.1 = a) (types p)).
Definition doc_dtype (p : OpSpec) (in0 : Z) : Z :=
  if decide (op p = $"Reshape" ∨ op p = $"GatherV2" ∨ op p = $"Slice") then in0
  else if decide (op p = $"ArgMax") then attr $"output_type" p
  else if decide (op p = $"Cast") then attr $"DstT" p
  else attr $"T" p.

Definition covered_ops : list bytes :=
  same_shape ++ broadcasting ++ [$"MatMul"; $"Transpose"] ++ reducing ++ [$"ArgMax"; $"Reshape"; $"Slice"].
(** The operations documented here: matrices are multiplied as they are. *)
Definition covered (p : OpSpec) : Prop := op p ∈ covered_ops ∧ (op p = $"MatMul" → Forall (λ b, b.2 = 0%Z) (bools p)).
#[export] Instance covered_decision p : Decision (covered p).
Proof. unfold covered. apply _. Defined.

(** Numbers drawn, of the sizes asked. *)
Definition random_spec (normal : bool) : OpSpec :=
  spec_type $"Tseed" TF_INT32 (spec_type $"T" TF_INT32 (spec_type $"dtype" TF_FLOAT
    (spec_init (if normal then $"StatelessRandomNormal" else $"StatelessRandomUniform")))).

(** What TensorFlow documents of its results. *)
Record documented `{TensorFlow} : Prop := {
  doc_op : ∀ p ts t, tf_exec p ts = inl t → covered p →
    doc_dims p ts = Some (t_dims t) ∧ t_dtype t = doc_dtype p (default 0%Z (t_dtype <$> head ts)) ∧ proper_dims (t_dims t);
  doc_random : ∀ normal sh seeds t, tf_exec (random_spec normal) [sh; seeds] = inl t →
    t_dims t = int_data sh ∧ proper_dims (t_dims t);
}.

(** ** Broadcasting *)

Lemma broadcast_rev_at a b r :
  broadcast_rev a b = Some r →
  length r = length a `max` length b ∧
  ∀ k, k < length r → r !! k = broadcast_dim (default 1%Z (a !! k)) (default 1%Z (b !! k)).
Proof.
  assert (∀ x, broadcast_dim 1 x = Some x ∧ broadcast_dim x 1 = Some x) as H1.
  { intros x. unfold broadcast_dim. split; repeat case_decide; congruence. }
  revert b r. induction a as [|x a IH]; intros b r; cbn [broadcast_rev].
  { intros [= <-]. split; [done|]. intros k Hk. cbn. destruct (lookup_lt_is_Some_2 b k Hk) as [y Hy].
    rewrite lookup_nil, Hy. cbn. by rewrite (proj1 (H1 y)). }
  destruct b as [|y b].
  { intros [= <-]. split; [cbn; lia|]. intros k Hk. destruct (lookup_lt_is_Some_2 (x :: a) k Hk) as [z Hz].
    rewrite lookup_nil, Hz. cbn. by rewrite (proj2 (H1 z)). }
  intros (z & Hz & (r' & Hr & [= <-])%bind_Some)%bind_Some. destruct (IH b r' Hr) as [Hl Hk]. cbn. split; [lia|].
  intros [|k] Hlt; [done|]. cbn. apply Hk. cbn in Hlt. lia.
Qed.

(** From the last size, the [k]-th of each. *)
Lemma bdim_rev l n k : length l ≤ n → k < n → bdim l n (n - S k) = default 1%Z (reverse l !! k).
Proof.
  intros Hl Hk. unfold bdim. destruct (decide (k < length l)) as [Hlt|Hge].
  - rewrite decide_False by lia. rewrite reverse_lookup by done. replace (n - S k - (n - length l)) with (length l - S k) by lia.
    destruct (lookup_lt_is_Some_2 l (length l - S k)) as [y Hy]; [lia|]. by rewrite Hy.
  - rewrite decide_True by lia. rewrite (proj2 (lookup_ge_None _ k)); [done|]. rewrite length_reverse. lia.
Qed.

Lemma agrees_at sh d : agrees sh d ↔ length sh = length d ∧ ∀ k x y, sh !! k = Some x → d !! k = Some y → y = 0%Z ∨ x = y.
Proof. apply Forall2_same_length_lookup. Qed.
Lemma agrees_length sh d : agrees sh d → length sh = length d.
Proof. apply Forall2_length. Qed.
Lemma agrees_two x y m n : agrees [x; y] [m; n] ↔ (m = 0%Z ∨ x = m) ∧ (n = 0%Z ∨ y = n).
Proof.
  split; [intros Ha; inversion Ha as [|? ? ? ? ? Ha']; by inversion Ha'|]. intros [? ?].
  constructor; [done|]. by constructor.
Qed.
Lemma agrees_reverse sh d : agrees sh d → agrees (reverse sh) (reverse d).
Proof. apply Forall2_reverse. Qed.

Lemma broadcast_dim_agrees x y x' y' z z' :
  (0 ≤ x)%Z → (0 ≤ y)%Z → (x = 0 ∨ x' = x)%Z → (y = 0 ∨ y' = y)%Z →
  bcast_dim x' y' = Some z' → broadcast_dim x y = Some z → (z = 0 ∨ z' = z)%Z.
Proof.
  unfold bcast_dim, broadcast_dim. intros Hx Hy Hx' Hy'. repeat case_decide; intros [= <-] [= <-]; lia.
Qed.
Lemma agrees_default sh d k :
  agrees sh d → Forall (λ x, 0 ≤ x)%Z d →
  (0 ≤ default 1 (d !! k) ∧ (default 1 (d !! k) = 0 ∨ default 1 (sh !! k) = default 1 (d !! k)))%Z.
Proof.
  intros Ha Hp. destruct (d !! k) as [y|] eqn:Ey; cbn.
  - rewrite Forall_lookup in Hp. split; [by eapply Hp|]. destruct (Forall2_lookup_r _ _ _ _ _ Ha Ey) as (x & -> & Hxy). done.
  - apply lookup_ge_None in Ey. rewrite <- (agrees_length _ _ Ha) in Ey. apply lookup_ge_None in Ey as ->. cbn. lia.
Qed.
Lemma bcast_agrees a b da db sh d :
  agrees a da → agrees b db → Forall (λ x, 0 ≤ x)%Z da → Forall (λ x, 0 ≤ x)%Z db →
  bcast a b = Some sh → broadcast da db = Some d → agrees sh d.
Proof.
  intros Ha Hb Hpa Hpb Hsh Hd. unfold broadcast in Hd. apply fmap_Some in Hd as (r & Hr & ->).
  destruct (broadcast_rev_at _ _ _ Hr) as [Hlr Hrk]. rewrite !length_reverse in Hlr.
  unfold bcast in Hsh. set (n := length a `max` length b) in *. apply mapM_Some in Hsh.
  pose proof (Forall2_length _ _ _ Hsh) as Hls. rewrite length_seq in Hls.
  assert (length r = n) as Hn by (unfold n; by rewrite (agrees_length _ _ Ha), (agrees_length _ _ Hb)).
  rewrite <- (reverse_involutive sh). apply agrees_reverse, agrees_at. rewrite length_reverse. split; [lia|].
  intros k x y Hx Hy. pose proof (lookup_lt_Some _ _ _ Hy) as Hlt. rewrite Hn in Hlt.
  rewrite reverse_lookup in Hx by lia. rewrite <- Hls in Hx.
  destruct (Forall2_lookup_r _ _ _ _ _ Hsh Hx) as (i & Hi & Hxi). apply lookup_seq in Hi as [-> _]. cbn in Hxi.
  rewrite !bdim_rev in Hxi by (unfold n in *; lia). rewrite Hrk in Hy by lia.
  pose proof (agrees_default _ _ k (agrees_reverse _ _ Ha) (proj2 (Forall_reverse _ _) Hpa)) as [? ?].
  pose proof (agrees_default _ _ k (agrees_reverse _ _ Hb) (proj2 (Forall_reverse _ _) Hpb)) as [? ?].
  by eapply (broadcast_dim_agrees (default 1 (reverse da !! k)) (default 1 (reverse db !! k)))%Z.
Qed.

(** ** Reductions *)

Lemma without_imap axes keep k a :
  without axes keep (Z.of_nat k) a =
  concat (imap (λ i d, if decide (Z.of_nat (k + i) ∈ axes) then (if keep then [1%Z] else []) else [d]) a).
Proof.
  revert k. induction a as [|d a IH]; intros k; [done|]. cbn [without imap concat fmap]. rewrite Nat.add_0_r. f_equal.
  replace (Z.of_nat k + 1)%Z with (Z.of_nat (S k)) by lia. rewrite IH. f_equal. apply imap_ext. intros i x _. cbn.
  by rewrite Nat.add_succ_r.
Qed.
Lemma without_agrees axes keep i sh d :
  agrees sh d → agrees (without axes keep i sh) (without axes keep i d).
Proof.
  intros Ha. revert i. induction Ha as [|x y sh d Hxy _ IH]; intros i; [constructor|]. cbn [without].
  apply Forall2_app; [|apply IH]. repeat case_match; [apply agrees_refl..|by constructor].
Qed.
Lemma axis_of_spec n x i : axis_of n x = Some i → ∀ j, (0 ≤ j < n)%Z → (x = j ∨ x + n = j)%Z ↔ i = j.
Proof. unfold axis_of. repeat case_decide; intros [= <-] j Hj; lia. Qed.
Lemma axis_of_range n x i : axis_of n x = Some i → (0 ≤ i < n)%Z.
Proof. unfold axis_of. repeat case_decide; intros [= <-]; lia. Qed.

Lemma reduced_axes n v axes j :
  mapM (axis_of n) v = Some axes → (0 ≤ j < n)%Z → reduced v n j = bool_decide (j ∈ axes).
Proof.
  rewrite mapM_Some. intros Hv Hj. apply eq_bool_prop_intro. rewrite bool_decide_spec. unfold reduced.
  rewrite Is_true_true, existsb_exists. setoid_rewrite bool_decide_eq_true. split.
  - intros (x & [k Hk]%list_elem_of_In%list_elem_of_lookup & Hx). destruct (Forall2_lookup_l _ _ _ _ _ Hv Hk) as (i & Hi & Ha).
    apply (axis_of_spec _ _ _ Ha j Hj) in Hx as ->. by eapply list_elem_of_lookup_2.
  - intros [k Hk]%list_elem_of_lookup. destruct (Forall2_lookup_r _ _ _ _ _ Hv Hk) as (x & Hx & Ha). exists x.
    split; [apply list_elem_of_In; by eapply list_elem_of_lookup_2|]. by apply (axis_of_spec _ _ _ Ha j Hj).
Qed.
Lemma reduce_dims_without v axes keep a :
  mapM (axis_of (Z.of_nat (length a))) v = Some axes → reduce_dims v keep a = without axes keep 0 a.
Proof.
  intros Hv. unfold reduce_dims. rewrite (without_imap axes keep 0 a : without axes keep 0%Z a = _). f_equal. apply imap_ext. intros i d Hi.
  apply lookup_lt_Some in Hi. cbn. rewrite (reduced_axes _ _ _ _ Hv) by lia. by case_bool_decide; [rewrite decide_True|rewrite decide_False].
Qed.
Lemma drop_dim_without x i a :
  axis_of (Z.of_nat (length a)) x = Some i → drop_dim (from_end x (length a)) a = without [i] false 0 a.
Proof.
  intros Hx. assert (from_end x (length a) = i) as ->.
  { unfold axis_of, from_end in *. repeat case_decide; simplify_eq; lia. }
  unfold drop_dim. rewrite (without_imap [i] false 0 a : without [i] false 0%Z a = _). f_equal. apply imap_ext. intros j d _. cbn.
  apply decide_ext. rewrite list_elem_of_singleton. done.
Qed.

(** ** Sizes in 64 bits *)

Lemma foldl_mul k l : foldl Z.mul k l = (k * elements l)%Z.
Proof.
  unfold elements. revert k. induction l as [|d l IH]; intros k; cbn [foldl]; [lia|].
  rewrite IH, (IH (1 * d)%Z). lia.
Qed.
Lemma elements_cons d l : elements (d :: l) = (d * elements l)%Z.
Proof. unfold elements. cbn [foldl]. rewrite foldl_mul. unfold elements. lia. Qed.
Lemma elements_nonneg l : Forall (λ d, 0 ≤ d)%Z l → (0 ≤ elements l)%Z.
Proof. induction 1 as [|d l Hd _ IH]; [done|]. rewrite elements_cons. nia. Qed.
Lemma elements_zero l : elements l = 0%Z → ∃ k, l !! k = Some 0%Z.
Proof.
  induction l as [|d l IH]; [done|]. rewrite elements_cons. intros [->|Hl]%Z.mul_eq_0; [by exists 0|].
  destruct (IH Hl) as [k Hk]. by exists (S k).
Qed.
Lemma elements_pos l : Forall (λ d, 0 ≤ d)%Z l → elements l ≠ 0%Z → Forall (λ d, 1 ≤ d)%Z l.
Proof.
  induction 1 as [|d l Hd _ IH]; [constructor|]. rewrite elements_cons. intros Hne.
  constructor; [|apply IH]; destruct (decide (d = 0)%Z) as [->|]; nia.
Qed.
(** A product that fits has parts that fit. *)
Lemma product64_exact l k :
  Forall (λ d, 1 ≤ d)%Z l → (1 ≤ k)%Z → (k * elements l < 2 ^ 63)%Z →
  foldl (λ n d, sint 64 (n * d)) k l = (k * elements l)%Z.
Proof.
  intros Hl. revert k. induction Hl as [|d l Hd Hl IH]; intros k Hk Hlt; cbn [foldl]; [unfold elements; cbn; lia|].
  rewrite elements_cons in *. assert (1 ≤ elements l)%Z as He.
  { clear -Hl. induction Hl as [|d l Hd _ IH]; [done|]. rewrite elements_cons. nia. }
  assert (1 ≤ k * d)%Z by nia. assert (k * d < 2 ^ 63)%Z by nia.
  rewrite sint_id by (done || unfold in_sint; cbn in *; lia). rewrite IH by nia. lia.
Qed.

(** ** Reshape and Slice *)

Lemma agrees_exact sh d : agrees sh d → Forall (λ x, 1 ≤ x)%Z d → sh = d.
Proof.
  intros Ha. induction Ha as [|x y sh d Hxy _ IH]; intros Hp; [done|]. inversion Hp; subst. f_equal; [lia|auto].
Qed.
Lemma reshape_agrees a da v sh d :
  agrees a da → proper_dims da →
  reshape_dims (product64 a) v = inl sh → reshaped (elements da) v = Some d → agrees sh d.
Proof.
  intros Ha [Hp Hb]. unfold reshape_dims, reshaped. fold (holes v). set (rest := filter _ v).
  destruct (decide (Exists _ rest)) as [|Hneg]; [done|]. apply not_Exists_Forall in Hneg; [|intros; apply _].
  destruct (holes v) as [|w [|]]; [|cbn [last]|done].
  - cbn [last]. repeat case_decide; intros [= <-] [= <-]. apply agrees_refl.
  - destruct (decide (_ ∧ _)) as [[Hr Hm]|]; [|intros; done]. repeat case_decide; intros [= <-] [= <-].
    apply Forall2_insert; [apply agrees_refl|].
    destruct (decide (elements da = 0)%Z) as [->|Hd]; [left; by apply Z.div_0_l|right].
    pose proof (elements_pos _ Hp Hd) as Hp1. rewrite (agrees_exact _ _ Ha Hp1).
    assert (Forall (λ x, 0 ≤ x)%Z rest) as Hr0 by (eapply Forall_impl; [exact Hneg|]; cbn; lia).
    pose proof (elements_nonneg _ Hp). pose proof (elements_nonneg _ Hr0).
    assert (elements rest ≤ elements da)%Z as Hle.
    { apply Z.divide_pos_le; [lia|]. by apply Z.mod_divide. }
    unfold product64. rewrite !product64_exact by (done || lia || by apply elements_pos). rewrite !Z.mul_1_l.
    apply Z.quot_div_nonneg; lia.
Qed.

Lemma slice_dims_cons d a b begin z size :
  slice_dims (d :: a) (b :: begin) (z :: size) = (x ← slice_dim d b z; r ← slice_dims a begin size; Some (x :: r)).
Proof. done. Qed.
Lemma slice_agrees a da begin size sh d :
  agrees a da → slice_dims a begin size = Some sh → sliced da begin size = Some d → agrees sh d.
Proof.
  intros Ha. revert begin size sh d. induction Ha as [|x y a da Hxy _ IH]; intros begin size sh d.
  { destruct begin, size; try done. cbn. intros [= <-] [= <-]. constructor. }
  destruct begin as [|b begin], size as [|z size]; try done. rewrite slice_dims_cons. cbn [sliced].
  intros (u & Hu & (r & Hr & [= <-])%bind_Some)%bind_Some (u' & Hu' & (r' & Hr' & [= <-])%bind_Some)%bind_Some.
  constructor; [|by eapply IH]. unfold slice_dim, cut in *. repeat case_decide; simplify_eq; lia.
Qed.

(** ** As many sizes as there is room for *)

Lemma concat_imap_length {A B} (f : nat → A → list B) l :
  (∀ i x, length (f i x) ≤ 1) → length (concat (imap f l)) ≤ length l.
Proof.
  revert f. induction l as [|x l IH]; intros f Hf; [done|]. cbn [imap concat]. rewrite length_app. cbn [length].
  specialize (IH (f ∘ S) (λ i x, Hf (S i) x)). specialize (Hf 0 x). lia.
Qed.
Lemma bcast_length a b sh : bcast a b = Some sh → length sh = length a `max` length b.
Proof. unfold bcast. intros Hsh%mapM_Some%Forall2_length. by rewrite length_seq in Hsh. Qed.
Lemma reduce_dims_length v keep a : length (reduce_dims v keep a) ≤ length a.
Proof. apply concat_imap_length. intros i x. repeat case_match; cbn; lia. Qed.
Lemma drop_dim_length d a : length (drop_dim d a) ≤ length a.
Proof. apply concat_imap_length. intros i x. case_decide; cbn; lia. Qed.
Lemma reshape_dims_length n v sh : reshape_dims n v = inl sh → length sh = length v.
Proof. unfold reshape_dims. repeat case_match; intros [= <-]; by rewrite ?length_insert. Qed.
Lemma slice_dims_length a b z sh : slice_dims a b z = Some sh → length sh ≤ length a.
Proof. unfold slice_dims. intros Hsh%mapM_Some%Forall2_length. rewrite length_zip in Hsh. lia. Qed.

(** ** What a rule answers *)

Section told.
Context `{TensorFlow}.
Implicit Types s : tfst.

(** What the operation [p] makes of what its inputs stand for. *)
Definition result_of (p : OpSpec) (s : tfst) (t : tensor) : Prop :=
  ∃ ts, Forall2 (means s) (ins p) ts ∧ tf_exec (recipe p) ts = inl t.
Lemma result_det p s t t' : result_of p s t → result_of p s t' → t = t'.
Proof.
  intros (ts & Hts & Ht) (us & Hus & Hu). assert (ts = us) as ->; [|congruence].
  clear -Hts Hus. revert us Hus. induction Hts as [|h t l ts Hm _ IH]; intros us Hus; inversion Hus; [done|]. subst.
  f_equal; [by eapply means_det|auto].
Qed.
Lemma keeps_result p s s' t :
  Forall (λ h, exists_ s h = true) (ins p) → keeps s s' → result_of p s t ↔ result_of p s' t.
Proof.
  intros Hx Hk. unfold result_of. assert (∀ ts, Forall2 (means s) (ins p) ts ↔ Forall2 (means s') (ins p) ts) as Hi.
  { intros ts. rewrite !Forall2_same_length_lookup. rewrite Forall_lookup in Hx.
    split; intros [Hl Ha]; (split; [done|]); intros k h u Hh Hu; apply (Hk h (Hx k h Hh)); by eapply Ha. }
  by setoid_rewrite Hi.
Qed.

(** The sizes read of an input, the integers made for one. *)
Definition told s p k (a : list Z) : Prop := ∀ t, means s (input p k) t → agrees a (t_dims t) ∧ proper_dims (t_dims t).
Definition made_of s p k (v : list Z) : Prop := ∀ t, means s (input p k) t → v = int_data t.

Context (Hdoc : documented).

Lemma doc_result p s t :
  covered p → result_of p s t → ∃ ts, Forall2 (means s) (ins p) ts ∧ doc_dims p ts = Some (t_dims t) ∧
    t_dtype t = doc_dtype p (default 0%Z (t_dtype <$> head ts)) ∧ proper_dims (t_dims t).
Proof.
  intros Hc (ts & Hts & Ht). exists ts. split; [done|]. exact (doc_op Hdoc (recipe p) ts t Ht Hc).
Qed.
(** One input, two, three. *)
Lemma input_means s p ts k x : Forall2 (means s) (ins p) ts → ts !! k = Some x → means s (input p k) x.
Proof. intros Hts Hx. destruct (Forall2_lookup_r _ _ _ _ _ Hts Hx) as (h & Hh & Hm). unfold input. by rewrite Hh. Qed.

(** The reference's case for the operation at hand, on as many inputs. *)
Ltac doc_case Hc Hr ts Hts Hd :=
  destruct (doc_result _ _ _ Hc Hr) as (ts & Hts & Hd & _); unfold doc_dims in Hd;
  repeat (first [rewrite decide_True in Hd by done | rewrite decide_False in Hd by done]).

Section rules.
Context p s t (Hc : covered p) (Hr : result_of p s t).

Lemma told_same a : op p ∈ same_shape → told s p 0 a → agrees a (t_dims t).
Proof.
  intros Ho Ha. doc_case Hc Hr ts Hts Hd. destruct ts as [|x [|]]; try done. injection Hd as <-.
  by apply Ha, (input_means _ _ _ 0 _ Hts).
Qed.
Context (H1 : op p ∉ same_shape).
Lemma told_broadcast a b sh :
  op p ∈ broadcasting → told s p 0 a → told s p 1 b → bcast a b = Some sh → agrees sh (t_dims t).
Proof.
  intros Ho Ha Hb Hsh. doc_case Hc Hr ts Hts Hd. destruct ts as [|x [|y [|]]]; try done.
  destruct (Ha x (input_means _ _ _ 0 _ Hts eq_refl)) as [? [? _]]. destruct (Hb y (input_means _ _ _ 1 _ Hts eq_refl)) as [? [? _]].
  by apply (bcast_agrees a b (t_dims x) (t_dims y)).
Qed.
Context (H2 : op p ∉ broadcasting).
Lemma told_matmul a0 a1 b0 b1 :
  op p = $"MatMul" → told s p 0 [a0; a1] → told s p 1 [b0; b1] → agrees [a0; b1] (t_dims t).
Proof.
  intros Ho Ha Hb. doc_case Hc Hr ts Hts Hd. destruct ts as [|x [|y [|u ts]]]; cbn [fmap list_fmap] in Hd;
    [done|by repeat case_match| |by repeat case_match].
  destruct (Ha x (input_means _ _ _ 0 _ Hts eq_refl)) as [Hx _]. destruct (Hb y (input_means _ _ _ 1 _ Hts eq_refl)) as [Hy _].
  destruct (t_dims x) as [|m [|k [|]]]; try done. destruct (t_dims y) as [|k' [|n [|]]]; try done. case_decide; [|done].
  injection Hd as <-. subst. apply agrees_two in Hx as [? _], Hy as [_ ?]. by apply agrees_two.
Qed.
Context (H3 : op p ≠ $"MatMul").
Lemma told_transpose a0 a1 :
  op p = $"Transpose" → told s p 0 [a0; a1] → made_of s p 1 [1; 0]%Z → agrees [a1; a0] (t_dims t).
Proof.
  intros Ho Ha Hb. doc_case Hc Hr ts Hts Hd. destruct ts as [|x [|y [|]]]; try done.
  destruct (Ha x (input_means _ _ _ 0 _ Hts eq_refl)) as [Hx _]. rewrite <- (Hb y (input_means _ _ _ 1 _ Hts eq_refl)) in Hd.
  cbv zeta in Hd. case_decide; [|done]. destruct (t_dims x) as [|m [|k [|]]]; try done. cbn in Hd. injection Hd as <-.
  apply agrees_two in Hx as [? ?]. by apply agrees_two.
Qed.
Context (H4 : op p ≠ $"Transpose").
Lemma told_reduced a v :
  op p ∈ reducing → told s p 0 a → made_of s p 1 v → agrees (reduce_dims v (keep_dims p) a) (t_dims t).
Proof.
  intros Ho Ha Hb. doc_case Hc Hr ts Hts Hd. destruct ts as [|x [|y [|]]]; try done.
  destruct (Ha x (input_means _ _ _ 0 _ Hts eq_refl)) as [Hx _]. rewrite <- (Hb y (input_means _ _ _ 1 _ Hts eq_refl)) in Hd.
  apply bind_Some in Hd as (axes & Haxes & [= <-]). rewrite <- (agrees_length _ _ Hx) in Haxes.
  rewrite (reduce_dims_without _ _ _ _ Haxes). by apply without_agrees.
Qed.
Context (H5 : op p ∉ reducing).
Lemma told_argmax a v :
  op p = $"ArgMax" → told s p 0 a → made_of s p 1 v →
  agrees (drop_dim (from_end (default 0%Z (v !! 0)) (length a)) a) (t_dims t).
Proof.
  intros Ho Ha Hb. doc_case Hc Hr ts Hts Hd. destruct ts as [|x [|y [|]]]; try done.
  destruct (Ha x (input_means _ _ _ 0 _ Hts eq_refl)) as [Hx _]. rewrite <- (Hb y (input_means _ _ _ 1 _ Hts eq_refl)) in Hd.
  destruct v as [|d [|]]; try done. apply bind_Some in Hd as (i & Hi & [= <-]). rewrite <- (agrees_length _ _ Hx) in Hi.
  cbn. rewrite (drop_dim_without _ _ _ Hi). by apply without_agrees.
Qed.
Context (H6 : op p ≠ $"ArgMax").
Lemma told_reshape a v sh :
  op p = $"Reshape" → told s p 0 a → made_of s p 1 v → reshape_dims (product64 a) v = inl sh → agrees sh (t_dims t).
Proof.
  intros Ho Ha Hb Hsh. doc_case Hc Hr ts Hts Hd. destruct ts as [|x [|y [|]]]; try done.
  destruct (Ha x (input_means _ _ _ 0 _ Hts eq_refl)) as [Hx Hp]. rewrite <- (Hb y (input_means _ _ _ 1 _ Hts eq_refl)) in Hd.
  by eapply reshape_agrees.
Qed.
Context (H7 : op p ≠ $"Reshape").
Lemma told_slice a b z sh :
  op p = $"Slice" → told s p 0 a → made_of s p 1 b → made_of s p 2 z → slice_dims a b z = Some sh → agrees sh (t_dims t).
Proof.
  intros Ho Ha Hb Hz Hsh. doc_case Hc Hr ts Hts Hd. destruct ts as [|x [|y [|w [|]]]]; try done.
  destruct (Ha x (input_means _ _ _ 0 _ Hts eq_refl)) as [Hx _]. rewrite <- (Hb y (input_means _ _ _ 1 _ Hts eq_refl)) in Hd.
  rewrite <- (Hz w (input_means _ _ _ 2 _ Hts eq_refl)) in Hd. by eapply slice_agrees.
Qed.
End rules.

(** ** Room *)

Lemma without_length axes keep i a : length (without axes keep i a) ≤ length a.
Proof using.
  revert i. induction a as [|d a IH]; intros i; [done|]. cbn [without]. rewrite length_app. specialize (IH (i + 1)%Z).
  repeat case_match; cbn; lia.
Qed.
Lemma sliced_length a b z d : sliced a b z = Some d → length d = length a.
Proof using.
  revert b z d. induction a as [|x a IH]; intros [|b bs] [|z zs] d; try done; cbn [sliced]; [by intros [= <-]|].
  intros (u & _ & (r & Hr & [= <-])%bind_Some)%bind_Some. cbn. f_equal. by eapply IH.
Qed.
Lemma reshaped_length n v d : reshaped n v = Some d → length d = length v.
Proof using. unfold reshaped. repeat case_match; intros [= <-]; by rewrite ?length_insert. Qed.
Lemma doc_room p ts d :
  doc_dims p ts = Some d → Forall (λ u, length (t_dims u) ≤ TF_MAXDIM) ts →
  (op p = $"Reshape" → ∀ y, ts !! 1 = Some y → length (int_data y) ≤ TF_MAXDIM) → length d ≤ TF_MAXDIM.
Proof using.
  intros Hd Hts Hv. unfold doc_dims in Hd.
  assert (∀ k u, ts !! k = Some u → length (t_dims u) ≤ TF_MAXDIM) as Hk by (intros k u; by apply (Forall_lookup_1 _ _ k u Hts)).
  repeat case_decide.
  - destruct ts as [|x [|]]; try done. injection Hd as <-. by apply (Hk 0).
  - destruct ts as [|x [|y [|]]]; try done. unfold broadcast in Hd. apply fmap_Some in Hd as (r & [Hr _]%broadcast_rev_at & ->).
    rewrite length_reverse, Hr, !length_reverse. pose proof (Hk 0 x eq_refl). pose proof (Hk 1 y eq_refl). lia.
  - repeat case_match; simplify_eq. cbn. unfold TF_MAXDIM. lia.
  - destruct ts as [|x [|y [|]]]; try done. cbv zeta in Hd. case_decide as Hl; [|done]. apply mapM_Some, Forall2_length in Hd.
    rewrite <- Hd, Hl. by apply (Hk 0).
  - destruct ts as [|x [|y [|]]]; try done. apply bind_Some in Hd as (axes & _ & [= <-]).
    etrans; [apply without_length|by apply (Hk 0)].
  - destruct ts as [|x [|y [|]]]; try done. destruct (int_data y) as [|? [|]]; try done. apply bind_Some in Hd as (i & _ & [= <-]).
    etrans; [apply without_length|by apply (Hk 0)].
  - destruct ts as [|x [|y [|]]]; try done. apply reshaped_length in Hd as ->. by apply Hv.
  - destruct ts as [|x [|y [|z [|]]]]; try done. apply sliced_length in Hd as ->. by apply (Hk 0).
  - done.
Qed.
End told.
