(* ===== verification/Visit.v ===== *)
(** * The closure of a node is complete and in order

    [visit] of modules/tensorflow/backend.c is a depth-first walk.  It always
    ends, and what it collects is closed: each node's inputs are among the
    leaves or come before it. *)
From Stdlib Require Import Floats.SpecFloat.
From S2P Require Import Prelude Effect Float Tensor Closure Compile Slots Table.

Section visit.
Context (s : tfst) (grad_mode : bool) (root : Z) (loose : list nat) (Hwf : ok loose s).
Implicit Types v : visiting.

(** How many slots have not been seen. *)
Definition unseen v : nat := length (filter (λ i, i ∉ seen v) table).

(** What is asked for, or read by a node whose inputs are being walked. *)
Definition wants (grey : list Z) (x : Z) : Prop := x = root ∨ ∃ g, g ∈ grey ∧ x ∈ ins (spec (slots s g)).
(** [grey]: the nodes whose inputs are being walked. *)
Record explored (grey : list Z) v : Prop := {
  ex_seen : ∀ x, x ∈ seen v ↔ x ∈ v_leaves v ∨ x ∈ v_nodes v ∨ x ∈ grey;
  ex_grey : ∀ x, x ∈ grey → x ∉ v_leaves v ∧ x ∉ v_nodes v;
  ex_leaf : ∀ x, x ∈ v_leaves v → kind (slots s x) ≠ K_FREE ∧ is_leaf grad_mode (slots s x) = true;
  ex_node : ∀ x, x ∈ v_nodes v → kind (slots s x) = K_NODE ∧ is_leaf grad_mode (slots s x) = false;
  ex_leaves : NoDup (v_leaves v);
  ex_nodes : NoDup (v_nodes v);
  ex_topo : ∀ k n j, v_nodes v !! k = Some n → j ∈ ins (spec (slots s n)) →
    j ∈ v_leaves v ∨ ∃ k', (k' < k)%nat ∧ v_nodes v !! k' = Some j;
  ex_read : ∀ k x, v_nodes v !! k = Some x →
    wants grey x ∨ ∃ k' y, (k < k')%nat ∧ v_nodes v !! k' = Some y ∧ x ∈ ins (spec (slots s y));
}.

(** What was collected stays collected. *)
Definition more v v' : Prop :=
  v_leaves v `prefix_of` v_leaves v' ∧ v_nodes v `prefix_of` v_nodes v' ∧ unseen v' ≤ unseen v.
#[local] Instance more_preorder : PreOrder more.
Proof.
  split; [by intros v; split_and!|]. intros v1 v2 v3 (? & ? & ?) (? & ? & ?). split_and!; [by etrans..|lia].
Qed.

Definition collected (x : Z) v : Prop := x ∈ v_leaves v ∨ x ∈ v_nodes v.
Lemma collected_more x v v' : more v v' → collected x v → collected x v'.
Proof.
  intros ([l Hl] & [n Hn] & _) [Hx|Hx]; [left; rewrite Hl|right; rewrite Hn]; apply elem_of_app; by left.
Qed.

Lemma unseen_fewer v v' : (∀ x, x ∈ seen v → x ∈ seen v') → unseen v' ≤ unseen v.
Proof.
  intros Hs. unfold unseen. induction table as [|x l IH]; [done|]. rewrite !filter_cons.
  destruct (decide (x ∉ seen v')) as [Hx|Hx], (decide (x ∉ seen v)) as [Hy|Hy]; cbn; try lia.
  exfalso. apply dec_stable in Hy. naive_solver.
Qed.
Lemma unseen_mark v h : in_table h → h ∉ seen v →
  unseen (Visiting (v_leaves v) (v_nodes v) ({[h]} ∪ seen v)) < unseen v.
Proof.
  intros Hh Hn. unfold unseen. cbn.
  assert (∀ l, length (filter (λ i, i ∉ {[h]} ∪ seen v) l) ≤ length (filter (λ i, i ∉ seen v) l)) as Hle.
  { induction l as [|x l IH]; [done|]. rewrite !filter_cons.
    destruct (decide (x ∉ {[h]} ∪ seen v)), (decide (x ∉ seen v)); cbn; try lia. set_solver. }
  apply elem_of_table in Hh. revert Hh. induction table as [|x l IH]; intros Hh; [by apply elem_of_nil in Hh|].
  rewrite !filter_cons. apply elem_of_cons in Hh as [<-|Hh].
  - rewrite decide_False by set_solver. rewrite decide_True by done. cbn. specialize (Hle l). lia.
  - specialize (IH Hh). destruct (decide (x ∉ {[h]} ∪ seen v)), (decide (x ∉ seen v)); cbn; try lia. set_solver.
Qed.

Context (rank : Z → nat) (Hrank : ∀ n j, j ∈ edges None (slots s) n → rank j < rank n).

(** One visit: it returns, with [h] collected. *)
Definition visits (fuel : nat) (f : Z → visiting → visited) : Prop := ∀ h v grey,
  explored grey v → (∀ g, g ∈ grey → rank h < rank g) → wants grey h → unseen v < fuel →
  match f h v with
  | V_ok v' => explored grey v' ∧ more v v' ∧ collected h v'
  | V_fail _ => True
  | V_spin => False
  end.

Lemma visit_all_spec fuel f l v grey :
  visits fuel f → explored grey v → (∀ h g, h ∈ l → g ∈ grey → rank h < rank g) → (∀ h, h ∈ l → wants grey h) → unseen v < fuel →
  match visit_all f l v with
  | V_ok v' => explored grey v' ∧ more v v' ∧ (∀ h, h ∈ l → collected h v')
  | V_fail _ => True
  | V_spin => False
  end.
Proof.
  intros Hf. revert v. induction l as [|h l IH]; intros v Hx Hg Hw Hu; cbn [visit_all].
  - split_and!; [done|done|]. by intros h ?%elem_of_nil.
  - specialize (Hf h v grey Hx ltac:(set_solver) ltac:(apply Hw; set_solver) Hu). destruct (f h v) as [v1|?|]; [|done|done].
    destruct Hf as (Hx1 & Hm1 & Hc1). specialize (IH v1 Hx1 ltac:(set_solver) ltac:(intros; apply Hw; set_solver) ltac:(destruct Hm1 as (_ & _ & ?); lia)).
    fold (visit_all f) in *. destruct (visit_all f l v1) as [v2|?|]; [|done|done].
    destruct IH as (Hx2 & Hm2 & Hc2). split_and!; [done|by etrans|].
    intros x [->|Hx']%elem_of_cons; [by eapply collected_more|auto].
Qed.

(** A slot met for the first time. *)
Definition marked v (h : Z) : visiting := Visiting (v_leaves v) (v_nodes v) ({[h]} ∪ seen v).

Lemma in_last {A} (l : list A) (x y : A) : x ∈ l ++ [y] → x ∈ l ∨ x = y.
Proof. rewrite elem_of_app, list_elem_of_singleton. tauto. Qed.
Lemma last_in {A} (l : list A) (y : A) : y ∈ l ++ [y].
Proof. apply elem_of_app. right. by apply list_elem_of_singleton. Qed.
Lemma NoDup_last {A} (l : list A) (y : A) : NoDup l → y ∉ l → NoDup (l ++ [y]).
Proof. intros Hl Hy. apply NoDup_app. split_and!; [done| |apply NoDup_singleton]. by intros x Hx ->%list_elem_of_singleton. Qed.

Lemma push_leaf v grey h :
  explored grey v → h ∉ seen v → kind (slots s h) ≠ K_FREE → is_leaf grad_mode (slots s h) = true →
  explored grey (Visiting (v_leaves v ++ [h]) (v_nodes v) ({[h]} ∪ seen v)).
Proof.
  intros [Hse Hgr Hle Hno Hdl Hdn Hto Hrd] Hs Hk Hl. rewrite Hse in Hs. split; cbn; try done.
  - intros x. rewrite elem_of_union, elem_of_singleton, Hse, elem_of_app, list_elem_of_singleton. tauto.
  - intros x Hxg. destruct (Hgr x Hxg). split; [|done]. intros [?| ->]%in_last; tauto.
  - intros x [?| ->]%in_last; auto.
  - apply NoDup_last; tauto.
  - intros k n j Hk' Hj. destruct (Hto k n j Hk' Hj) as [?|?]; [left; apply elem_of_app; by left|by right].
Qed.
Lemma mark_grey v grey h :
  explored grey v → h ∉ seen v → explored (h :: grey) (marked v h).
Proof.
  intros [Hse Hgr Hle Hno Hdl Hdn Hto Hrd] Hs. rewrite Hse in Hs. split; cbn; try done.
  - intros x. rewrite elem_of_union, elem_of_singleton, Hse, elem_of_cons. tauto.
  - intros x [->|?]%elem_of_cons; [tauto|auto].
  - intros k x Hk. destruct (Hrd k x Hk) as [[?|(g & ? & ?)]|?]; [left; by left|left; right; exists g; set_solver|by right].
Qed.
(** A node whose inputs are collected. *)
Lemma push_node v grey h :
  explored (h :: grey) v → h ∉ grey → wants grey h → kind (slots s h) = K_NODE → is_leaf grad_mode (slots s h) = false →
  (∀ j, j ∈ ins (spec (slots s h)) → collected j v) →
  explored grey (Visiting (v_leaves v) (v_nodes v ++ [h]) (seen v)).
Proof.
  intros [Hse Hgr Hle Hno Hdl Hdn Hto Hrd] Hng Hw Hk Hl Hc. destruct (Hgr h) as [Hh1 Hh2]; [set_solver|]. split; cbn; try done.
  - intros x. rewrite Hse, elem_of_cons, elem_of_app, list_elem_of_singleton. tauto.
  - intros x Hxg. destruct (Hgr x) as [? ?]; [set_solver|]. split; [done|]. by intros [?| ->]%in_last.
  - intros x [?| ->]%in_last; auto.
  - by apply NoDup_last.
  - intros k n j [Hk'|[Hle' Hk']]%lookup_app_Some Hj.
    { destruct (Hto k n j Hk' Hj) as [?|(k' & ? & ?)]; [by left|]. right. exists k'. split; [done|]. by apply lookup_app_l_Some. }
    apply list_lookup_singleton_Some in Hk' as [Hk0 <-]. destruct (Hc j Hj) as [?|Hjn]; [by left|].
    right. apply list_elem_of_lookup in Hjn as [k' Hk']. exists k'.
    pose proof (lookup_lt_Some _ _ _ Hk'). split; [lia|]. by apply lookup_app_l_Some.
  - intros k x [Hk'|[Hle' Hk']]%lookup_app_Some; [|apply list_lookup_singleton_Some in Hk' as [_ <-]; by left].
    pose proof (lookup_lt_Some _ _ _ Hk') as Hlt. destruct (Hrd k x Hk') as [[?|(g & Hgg & Hxg)]|(k' & y & ? & Hy & ?)].
    + left. by left.
    + apply elem_of_cons in Hgg as [->|Hgg]; [|left; right; by exists g]. right. exists (length (v_nodes v)), h.
      split; [done|]. split; [by rewrite list_lookup_middle|done].
    + right. exists k', y. split; [done|]. split; [by apply lookup_app_l_Some|done].
Qed.

Lemma visit_spec fuel : visits fuel (visit fuel s grad_mode).
Proof.
  induction fuel as [|fuel IH]; intros h v grey Hx Hg Hw Hu; [lia|]. cbn [visit].
  destruct (is_live s h) eqn:Hl; [|done]. cbn [negb]. apply (is_live_kind None loose [] []) in Hl as Hk; [|exact Hwf].
  pose proof (c_table _ _ _ _ (wf_counted _ _ _ _ _ Hwf) h Hk) as Hh.
  assert (h ∉ grey) as Hng by (intros Hin; specialize (Hg h Hin); lia).
  case_decide as Hs.
  { split_and!; [done|done|]. apply (ex_seen _ _ Hx) in Hs as [?|[?|Hs]]; [by left|by right|done]. }
  fold (marked v h). pose proof (unseen_mark v h Hh Hs) as Hu1. fold (marked v h) in Hu1.
  destruct (is_leaf grad_mode (slots s h)) eqn:Hleaf.
  { case_decide; [done|]. split_and!; [by apply (push_leaf v)| |left; apply last_in].
    split_and!; cbn; [by eexists|done|]. etrans; [|apply Nat.lt_le_incl, Hu1]. by apply unseen_fewer. }
  assert (kind (slots s h) = K_NODE) as Hkn.
  { unfold is_leaf in Hleaf. apply orb_false_iff in Hleaf as [Hv%bool_decide_eq_false _]. by destruct (kind (slots s h)). }
  pose proof (visit_all_spec fuel (visit fuel s grad_mode) (ins (spec (slots s h))) (marked v h) (h :: grey) IH
    (mark_grey v grey h Hx Hs)) as Hall.
  assert (∀ j g, j ∈ ins (spec (slots s h)) → g ∈ h :: grey → rank j < rank g) as Hlow.
  { intros j g Hj Hgg. assert (rank j < rank h) by (apply Hrank; unfold edges; by rewrite decide_True).
    apply elem_of_cons in Hgg as [->|Hgg]; [done|]. specialize (Hg g Hgg). lia. }
  assert (∀ j, j ∈ ins (spec (slots s h)) → wants (h :: grey) j) as Hwant.
  { intros j Hj. right. exists h. set_solver. }
  specialize (Hall Hlow Hwant ltac:(lia)). destruct (visit_all _ _ (marked v h)) as [v2|why|]; [|done|done].
  destruct Hall as (Hx2 & ([l1 Hl1] & [n1 Hn1] & Hu2) & Hc2). case_decide; [done|].
  split_and!; [by apply push_node| |right; apply last_in]. split_and!; cbn.
  - by exists l1.
  - cbn in Hn1. rewrite Hn1, <- app_assoc. by eexists.
  - change (unseen v2 ≤ unseen v). lia.
Qed.
End visit.

(** The walk as [closure_of] makes it. *)
Lemma visit_closure loose s grad_mode h :
  ok loose s →
  match visit visit_fuel s grad_mode h (Visiting [] [] ∅) with
  | V_ok v => explored s grad_mode h [] v ∧ collected h v
  | V_fail _ => True
  | V_spin => False
  end.
Proof.
  intros Hwf. destruct (c_rank _ _ _ _ (wf_counted _ _ _ _ _ Hwf)) as [rank Hrank].
  pose proof (visit_spec s grad_mode h loose Hwf rank Hrank visit_fuel h (Visiting [] [] ∅) []) as Hv.
  assert (explored s grad_mode h [] (Visiting [] [] ∅)) as Hx.
  { split; cbn; try (by intros ? ?%elem_of_nil); try apply NoDup_nil_2; [|done|done].
    intros x. rewrite elem_of_empty, elem_of_nil. tauto. }
  specialize (Hv Hx). destruct (visit _ _ _ _ _); [|done|].
  - destruct Hv as (? & _ & ?); [by intros ? ?%elem_of_nil|by left| |done].
    unfold unseen, visit_fuel. eapply Nat.le_lt_trans; [apply length_filter|]. pose proof table_length. lia.
  - apply Hv; [by intros ? ?%elem_of_nil|by left|].
    unfold unseen, visit_fuel. eapply Nat.le_lt_trans; [apply length_filter|]. pose proof table_length. lia.
Qed.
