(* ===== verification/Key.v ===== *)
(** * A closure's key names its structure

    The key printed by [closure_of_] in modules/tensorflow/backend.c decides
    which compiled closure is run.  Two closures with the same key, neither too
    long for the buffer, have the same graph, so a cached one is the one that
    would have been compiled. *)
From Stdlib Require Import Floats.SpecFloat.
From S2P Require Import Prelude Effect Float Tensor Closure Compile Shape Producer.

(** ** Codes: texts that can be told apart whatever follows *)

Definition code {A} (P : A → Prop) (f : A → bytes) : Prop := ∀ a b x y,
  P a → P b → f a ++ x = f b ++ y → a = b ∧ x = y.

(** What no text of [f] can begin. *)
Definition stops {A} (f : A → bytes) (x : bytes) : Prop := ∀ a y, f a ++ y ≠ x.

(** A list of texts, up to something that is not one more. *)
Lemma code_imap {A} (P : A → Prop) (f : nat → A → bytes) l m x y :
  (∀ i, code P (f i)) → Forall P l → Forall P m →
  (∀ i a z, P a → f i a ++ z ≠ x) → (∀ i a z, P a → f i a ++ z ≠ y) →
  concat (imap f l) ++ x = concat (imap f m) ++ y → l = m ∧ x = y.
Proof.
  intros Hf Hl Hm Hx Hy. revert f Hf m Hm Hx Hy. induction Hl as [|a l Ha Hl IH]; intros f Hf m Hm Hx Hy.
  - destruct Hm as [|b m Hb Hm]; [done|]. rewrite imap_cons. cbn. rewrite <- app_assoc. intros E.
    exfalso. by eapply (Hx 0 b).
  - destruct Hm as [|b m Hb Hm]; rewrite ?imap_cons; cbn; rewrite <- ?app_assoc; intros E.
    { exfalso. by eapply (Hy 0 a). }
    apply Hf in E as [-> E]; [|done..].
    destruct (IH (f ∘ S) ltac:(intros i; apply Hf) m Hm ltac:(intros i; apply Hx) ltac:(intros i; apply Hy) E) as [-> ->].
    done.
Qed.
Lemma concat_fmap_imap {A} (f : A → bytes) l : concat (f <$> l) = concat (imap (λ _, f) l).
Proof. f_equal. symmetry. apply imap_const. Qed.
Lemma code_list {A} (P : A → Prop) (f : A → bytes) l m x y :
  code P f → Forall P l → Forall P m →
  (∀ a z, P a → f a ++ z ≠ x) → (∀ a z, P a → f a ++ z ≠ y) →
  concat (f <$> l) ++ x = concat (f <$> m) ++ y → l = m ∧ x = y.
Proof. rewrite !concat_fmap_imap. intros Hf Hl Hm Hx Hy. by apply (code_imap P (λ _, f)). Qed.

(** A word up to a character it does not hold. *)
Lemma word_code (c : byte) a b x y :
  c ∉ a → c ∉ b → a ++ c :: x = b ++ c :: y → a = b ∧ x = y.
Proof.
  revert b. induction a as [|a0 a IH]; intros [|b0 b] Ha Hb E; cbn in E.
  - by injection E.
  - injection E as <- _. set_solver.
  - injection E as -> _. set_solver.
  - injection E as -> E. destruct (IH b) as [-> ->]; set_solver.
Qed.

(** ** Numbers *)

Definition digit (c : byte) : Prop := (48 ≤ byte_val c ≤ 57)%Z.
#[local] Instance digit_decision c : Decision (digit c).
Proof. unfold digit. apply _. Defined.

Ltac no_digit := apply (bool_decide_unpack (¬ digit _)); by vm_compute.
Lemma minus_no_digit : ¬ digit "-"%byte.
Proof. no_digit. Qed.

Lemma dec_digits_digits f n : (0 ≤ n)%Z → Forall digit (dec_digits f n).
Proof.
  revert n. induction f as [|f IH]; intros n Hn; [constructor|]. cbn [dec_digits].
  apply Forall_app. split.
  - case_decide; [constructor|]. apply IH, Z.div_pos; lia.
  - constructor; [|constructor]. unfold digit. rewrite byte_val_of.
    pose proof (Z.mod_pos_bound n 10 ltac:(lia)). rewrite Z.mod_small by lia. lia.
Qed.

(** The number a run of digits spells. *)
Definition spell (b : bytes) : Z := foldl (λ a c, a * 10 + (byte_val c - 48))%Z 0%Z b.
Lemma spell_dec_digits f n : (0 ≤ n < 10 ^ Z.of_nat f)%Z → spell (dec_digits f n) = n.
Proof.
  revert n. induction f as [|f IH]; intros n Hn; [cbn in *; lia|]. cbn [dec_digits].
  unfold spell. rewrite foldl_app. cbn [foldl]. fold (spell (if decide (n < 10)%Z then [] else dec_digits f (n / 10))).
  pose proof (Z.mod_pos_bound n 10 ltac:(lia)). rewrite byte_val_of, (Z.mod_small (48 + _)) by lia.
  assert (10 ^ Z.of_nat (S f) = 10 * 10 ^ Z.of_nat f)%Z as Hp by (rewrite Nat2Z.inj_succ, Z.pow_succ_r by lia; lia).
  case_decide as Hs.
  - cbn. rewrite Z.mod_small by lia. lia.
  - rewrite IH; [pose proof (Z.div_mod n 10 ltac:(lia)); lia|]. split; [apply Z.div_pos; lia|].
    apply Z.div_lt_upper_bound; lia.
Qed.
Lemma dec_nat_fuel n : (0 ≤ n)%Z → (0 ≤ n < 10 ^ Z.of_nat (Z.to_nat (Z.log2 n + 1)))%Z.
Proof.
  intros Hn. split; [done|]. pose proof (Z.log2_nonneg n). rewrite Z2Nat.id by lia.
  destruct (decide (n = 0%Z)) as [->|Hz]; [done|].
  pose proof (Z.log2_spec n ltac:(lia)) as [_ Hl]. eapply Z.lt_le_trans; [exact Hl|].
  apply Z.pow_le_mono_l. lia.
Qed.
Lemma spell_dec_nat n : (0 ≤ n)%Z → spell (dec_nat n) = n.
Proof. intros. apply spell_dec_digits. by apply dec_nat_fuel. Qed.
Lemma dec_nat_digits n : (0 ≤ n)%Z → Forall digit (dec_nat n).
Proof. apply dec_digits_digits. Qed.

(** Runs of digits end at the first character that is not one. *)
Lemma digits_code a b c d x y :
  Forall digit a → Forall digit b → ¬ digit c → ¬ digit d →
  a ++ c :: x = b ++ d :: y → a = b ∧ c = d ∧ x = y.
Proof.
  revert b. induction a as [|a0 a IH]; intros [|b0 b] Ha Hb Hc Hd E; cbn in E.
  - by injection E as -> ->.
  - injection E as -> _. by inversion Hb.
  - injection E as -> _. by inversion Ha.
  - injection E as -> E. inversion Ha. inversion Hb. destruct (IH b) as (-> & -> & ->); done.
Qed.

(** A decimal and a character that is no digit. *)
Lemma dec_code a b c x y : ¬ digit c → dec a ++ c :: x = dec b ++ c :: y → a = b ∧ x = y.
Proof.
  intros Hc. unfold dec.
  assert (∀ n z u, (0 ≤ n)%Z → dec_nat n ++ c :: u = $"-" ++ z → False) as Hneg.
  { intros n z u Hn E. pose proof (dec_nat_digits n Hn) as Hd. destruct (dec_nat n) as [|d0 l] eqn:En.
    - cbn in E. injection E as -> _. pose proof (spell_dec_nat n Hn) as Hs. rewrite En in Hs. cbn in Hs. subst n. by vm_compute in En.
    - cbn in E. injection E as -> _. inversion Hd as [|? ? Hd0]. by apply minus_no_digit in Hd0. }
  do 2 case_decide; rewrite <- ?app_assoc; intros E.
  - apply (inj (app _)) in E. apply (digits_code _ _ c c) in E as (E & _ & ->); [|apply dec_nat_digits; lia..|done|done].
    apply (f_equal spell) in E. rewrite !spell_dec_nat in E by lia. split; [lia|done].
  - exfalso. symmetry in E. eapply Hneg in E; [done|lia].
  - exfalso. eapply Hneg in E; [done|lia].
  - apply (digits_code _ _ c c) in E as (E & _ & ->); [|apply dec_nat_digits; lia..|done|done].
    apply (f_equal spell) in E. by rewrite !spell_dec_nat in E by lia.
Qed.
(** How a decimal can begin. *)
Lemma dec_begins n x c r : dec n ++ x = c :: r → digit c ∨ c = byte_of 45.
Proof.
  unfold dec. case_decide as Hn; cbn.
  - intros [= <- _]. by right.
  - destruct (dec_nat n) as [|d l] eqn:E.
    + pose proof (spell_dec_nat n ltac:(lia)) as Hs. rewrite E in Hs. cbn in Hs. subst n. by vm_compute in E.
    + intros [= <- _]. left. pose proof (dec_nat_digits n ltac:(lia)) as Hd. rewrite E in Hd. by inversion Hd.
Qed.

(** ** What a key describes *)

(** A leaf: its type and sizes; its integers if it is a constant. *)
Record leaf_desc := LD { ld_dtype : Z; ld_shape : list Z; ld_const : option (list Z) }.
(** A node: its recipe, what it reads, whether it is a result. *)
Record node_desc := ND { nd_op : OpSpec; nd_in : list gref; nd_want : bool }.
(** A closure; and, of one made for gradients, by what. *)
Record desc := Desc { d_leaves : list leaf_desc; d_nodes : list node_desc; d_grads : option (list (option gref)) }.

Definition print_int (i : Z) : bytes := dec i ++ $",".
Definition leaf_text (j : nat) (d : leaf_desc) : bytes :=
  $"L" ++ dec (Z.of_nat j) ++ $":" ++ dec (ld_dtype d) ++ $"[" ++ concat (print_int <$> ld_shape d) ++ $"]" ++
  match ld_const d with Some l => $"=" ++ concat (print_int <$> l) | None => [] end ++ $" ".
Definition print_ref (r : gref) : bytes :=
  match r with R_leaf j => $"L" ++ dec j ++ $"," | R_node i => $"N" ++ dec i ++ $"," end.
Definition attrs (p : OpSpec) : list (bytes * Z) := types p ++ ints p ++ bools p.
Definition node_text (i : nat) (d : node_desc) : bytes :=
  $"N" ++ dec (Z.of_nat i) ++ $"=" ++ op (nd_op d) ++ $"{" ++ concat (print_attr <$> attrs (nd_op d)) ++
  $"}" ++ dec (list_n (nd_op d)) ++ $"(" ++ concat (print_ref <$> nd_in d) ++ $")" ++
  (if nd_want d then $"o" else []) ++ $" ".
Definition grads_text (g : option (list (option gref))) : bytes :=
  match g with Some l => $"|G:" ++ concat (print_place <$> l) | None => [] end.
Definition desc_text (d : desc) : bytes :=
  concat (imap leaf_text (d_leaves d)) ++ concat (imap node_text (d_nodes d)) ++ grads_text (d_grads d).

(** The names the producers give operations and attributes: which list an
    attribute is in is known from its name. *)
Definition type_names : list bytes :=
  [$"T"; $"Tperm"; $"Tidx"; $"output_type"; $"Tshape"; $"SrcT"; $"DstT"; $"Tparams"; $"Tindices"; $"Taxis"; $"Index"].
Definition int_names : list bytes := [$"N"; $"batch_dims"].
Definition bool_names : list bytes := [$"transpose_a"; $"transpose_b"; $"keep_dims"; $"Truncate"].
Definition named_in (l : list bytes) (a : bytes * Z) : Prop := a.1 ∈ l.
Record wf_spec (p : OpSpec) : Prop := {
  ws_op : byte_of 123 ∉ op p;
  ws_types : Forall (named_in type_names) (types p);
  ws_ints : Forall (named_in int_names) (ints p);
  ws_bools : Forall (named_in bool_names) (bools p);
}.
Definition wf_desc (d : desc) : Prop :=
  Forall (λ n, wf_spec (nd_op n) ∧ ins (nd_op n) = []) (d_nodes d).

Definition all_names := type_names ++ int_names ++ bool_names.

(** One rewriting step of a code: the literal both begin with. *)
Lemma code_lit (l x y : bytes) : l ++ x = l ++ y → x = y.
Proof. apply (inj (app l)). Qed.

Lemma print_int_code : code (λ _, True) print_int.
Proof.
  intros a b x y _ _. unfold print_int. rewrite <- !app_assoc. apply dec_code. no_digit.
Qed.
Lemma print_int_begins i z c r : print_int i ++ z = c :: r → digit c ∨ c = byte_of 45.
Proof. unfold print_int. rewrite <- app_assoc. apply dec_begins. Qed.
Lemma ints_code l m c x y :
  ¬ digit c → c ≠ byte_of 45 → concat (print_int <$> l) ++ c :: x = concat (print_int <$> m) ++ c :: y → l = m ∧ x = y.
Proof.
  intros Hc Hm E. apply (code_list (λ _, True) print_int) in E as [-> E]; [|apply print_int_code|by apply Forall_true..| |].
  - by injection E as ->.
  - intros a z _ Ez. by apply print_int_begins in Ez as [?| ->].
  - intros a z _ Ez. by apply print_int_begins in Ez as [?| ->].
Qed.

Definition plain_name (n : bytes) : Prop := (byte_of 58 ∉ n) ∧ (head n ≠ Some (byte_of 125)) ∧ n ≠ [].
Definition plain_attr (a : bytes * Z) : Prop := plain_name a.1.
#[local] Instance plain_name_decision n : Decision (plain_name n).
Proof. unfold plain_name. apply _. Defined.
Lemma names_plain : Forall plain_name all_names.
Proof. apply (bool_decide_unpack _). by vm_compute. Qed.
Lemma attrs_ok p : wf_spec p → Forall plain_attr (attrs p).
Proof.
  intros [_ Ht Hi Hb]. pose proof (proj1 (Forall_forall _ _) names_plain) as Hn. unfold attrs.
  rewrite !Forall_app. split_and!; (eapply Forall_impl; [eassumption|]); intros [a v] Ha; apply Hn; unfold named_in in Ha; cbn [fst] in *;
    unfold all_names; rewrite !elem_of_app; tauto.
Qed.
Lemma attr_code : code plain_attr print_attr.
Proof.
  intros [a v] [b w] x y (Ha & _) (Hb & _). unfold print_attr. cbn. rewrite <- !app_assoc. cbn. intros E.
  apply word_code in E as [-> E]; [|done..]. rewrite <- !app_assoc in E. apply dec_code in E as [-> ->]; [done|no_digit].
Qed.
Lemma attrs_code p q x y : wf_spec p → wf_spec q →
  concat (print_attr <$> attrs p) ++ byte_of 125 :: x = concat (print_attr <$> attrs q) ++ byte_of 125 :: y →
  attrs p = attrs q ∧ x = y.
Proof.
  intros Hp%attrs_ok Hq%attrs_ok E.
  assert (∀ a z w, plain_attr a → print_attr a ++ z ≠ byte_of 125 :: w) as Hstop.
  { intros [[|c l] v] z w (_ & Hh & Hne); [done|]. cbn in *. intros [= Hc _]. by subst. }
  apply (code_list plain_attr print_attr) in E as [-> E]; [|apply attr_code|done..|by intros; apply Hstop|by intros; apply Hstop].
  by injection E as ->.
Qed.

(** Which list an attribute came from. *)
Lemma named_disjoint : Forall (λ a, a ∉ int_names ++ bool_names) type_names ∧ Forall (λ a, a ∉ type_names ++ bool_names) int_names
  ∧ Forall (λ a, a ∉ type_names ++ int_names) bool_names.
Proof. split_and!; apply (bool_decide_unpack _); by vm_compute. Qed.
Lemma filter_all {A} (P : A → Prop) `{∀ x, Decision (P x)} l : Forall P l → filter P l = l.
Proof. induction 1; [done|]. rewrite filter_cons_True by done. by f_equal. Qed.
Lemma filter_none {A} (P : A → Prop) `{∀ x, Decision (P x)} l : Forall (λ x, ¬ P x) l → filter P l = [].
Proof. induction 1; [done|]. by rewrite filter_cons_False. Qed.
Lemma attrs_split p : wf_spec p →
  filter (λ a, a.1 ∈ type_names) (attrs p) = types p ∧
  filter (λ a, a.1 ∈ int_names) (attrs p) = ints p ∧
  filter (λ a, a.1 ∈ bool_names) (attrs p) = bools p.
Proof.
  intros [_ Ht Hi Hb]. destruct named_disjoint as (D1 & D2 & D3).
  assert (∀ (l l' : list bytes) k, Forall (λ a, a ∉ l') l → Forall (named_in l) k → ∀ (l'' : list bytes), (∀ x, x ∈ l'' → x ∈ l') →
    filter (λ a, a.1 ∈ l'') k = []) as Hno.
  { intros l l' k Hd Hk l'' Hs. apply filter_none. eapply Forall_impl; [exact Hk|]. intros [a v] Ha Hx.
    rewrite Forall_forall in Hd. by apply (Hd a Ha), Hs. }
  unfold attrs. rewrite !filter_app. split_and!.
  - rewrite (filter_all _ (types p)) by done.
    rewrite (Hno _ _ _ D2 Hi), (Hno _ _ _ D3 Hb) by (intros; rewrite elem_of_app; tauto). by rewrite !app_nil_r.
  - rewrite (filter_all _ (ints p)) by done.
    rewrite (Hno _ _ _ D1 Ht), (Hno _ _ _ D3 Hb) by (intros; rewrite elem_of_app; tauto). by rewrite app_nil_r.
  - rewrite (filter_all _ (bools p)) by done.
    by rewrite (Hno _ _ _ D1 Ht), (Hno _ _ _ D2 Hi) by (intros; rewrite elem_of_app; tauto).
Qed.
Lemma attrs_inj p q : wf_spec p → wf_spec q → attrs p = attrs q →
  types p = types q ∧ ints p = ints q ∧ bools p = bools q.
Proof.
  intros Hp Hq E. destruct (attrs_split p Hp) as (<- & <- & <-). destruct (attrs_split q Hq) as (<- & <- & <-).
  by rewrite E.
Qed.

Lemma ref_code : code (λ _, True) print_ref.
Proof.
  intros [j|j] [k|k] x y _ _; cbn; rewrite <- ?app_assoc; intros E; try done.
  all: injection E as E; apply dec_code in E as [-> ->]; [done|no_digit].
Qed.
Lemma place_code : code (λ _, True) print_place.
Proof.
  intros [r|] [r'|] x y _ _; cbn; intros E.
  - assert (print_ref r ++ x = print_ref r' ++ y) as Er by (destruct r, r'; exact E).
    apply ref_code in Er as [-> ->]; done.
  - by destruct r.
  - by destruct r'.
  - by injection E.
Qed.

(** ** The key tells descriptions apart *)

Lemma leaf_code j : code (λ _, True) (leaf_text j).
Proof.
  intros [dt sh c] [dt' sh' c'] x y _ _. unfold leaf_text. cbn [ld_dtype ld_shape ld_const].
  rewrite <- !app_assoc. intros E. apply code_lit in E.
  apply dec_code in E as [_ E]; [|no_digit]. apply dec_code in E as [-> E]; [|no_digit].
  apply ints_code in E as [-> E]; [|no_digit|done].
  destruct c as [l|], c' as [l'|]; cbn in E; rewrite <- ?app_assoc in E.
  - injection E as E. apply ints_code in E as [-> ->]; [done|no_digit|done].
  - done.
  - done.
  - by injection E as ->.
Qed.
Lemma node_code i : code (λ d, wf_spec (nd_op d) ∧ ins (nd_op d) = []) (node_text i).
Proof.
  intros [p rs w] [p' rs' w'] x y [Hp Hip] [Hp' Hip']. unfold node_text. cbn [nd_op nd_in nd_want] in *.
  rewrite <- !app_assoc. intros E. apply code_lit in E.
  apply dec_code in E as [_ E]; [|no_digit].
  apply word_code in E as [Eop E]; [|apply Hp|apply Hp'].
  apply attrs_code in E as [Ea E]; [|done..].
  apply dec_code in E as [El E]; [|no_digit].
  apply (code_list (λ _, True) print_ref) in E as [-> E]; [|apply ref_code|by apply Forall_true..|by intros [] ?|by intros [] ?].
  injection E as E. destruct (attrs_inj p p' Hp Hp' Ea) as (Et & Ei & Eb).
  assert (p = p') as -> by (destruct p, p'; cbn in *; congruence).
  destruct w, w'; cbn in E; try done; by injection E as ->.
Qed.

Theorem desc_text_inj d d' : wf_desc d → wf_desc d' → desc_text d = desc_text d' → d = d'.
Proof.
  destruct d as [ls ns g], d' as [ls' ns' g']. unfold wf_desc, desc_text. cbn [d_leaves d_nodes d_grads]. intros Hn Hn' E.
  assert (∀ ns g i a z, leaf_text i a ++ z ≠ concat (imap node_text ns) ++ grads_text g) as Hstop.
  { intros [|n l] [gl|] i a z; rewrite ?imap_cons; cbn; done. }
  apply (code_imap (λ _, True) leaf_text) in E as [-> E]; [|apply leaf_code|by apply Forall_true..|by intros; apply Hstop|by intros; apply Hstop].
  assert (∀ g i a z, node_text i a ++ z ≠ grads_text g) as Hstop'.
  { intros [gl|] i a z; done. }
  apply (code_imap (λ d, wf_spec (nd_op d) ∧ ins (nd_op d) = []) node_text) in E as [-> E]; [|apply node_code|done|done|by intros; apply Hstop'|by intros; apply Hstop'].
  f_equal. destruct g as [l|], g' as [l'|]; cbn in E; try done. f_equal. injection E as E.
  rewrite <- (app_nil_r (concat _)), <- (app_nil_r (concat (print_place <$> l'))) in E.
  apply (code_list (λ _, True) print_place) in E as [-> _]; [done|apply place_code|by apply Forall_true..| |].
  all: intros [[]|] z _ Ez; by destruct z.
Qed.
