(* ===== verification/Frame.v ===== *)
(** * What every operation keeps

    A relation between the states before and after that handles made and
    deleted, entries added and functions made for them all keep to
    ([Framed]) is kept to by every operation of modules/tensorflow/backend.c
    that records, compiles, runs and frees ([follows]).  Two are of use: the
    entries only grow, and the cache of scalars holds what it says. *)
From Stdlib Require Import Floats.SpecFloat.
From S2P Require Import Prelude Effect Float Tensor Closure Compile Shape Producer Slots Table.

(** ** Relations every operation keeps *)

(** Nothing of the handles, the scalars and the entries changed. *)
Record beside (s s' : tfst) : Prop := {
  be_hs : hs s' = hs s;
  be_next : next_h s' = next_h s;
  be_scalars : scalars s' = scalars s;
  be_entries : entries s' = entries s;
}.
Definition follows (R : tfst → tfst → Prop) {A} (m : T A) : Prop := ∀ s,
  match m s with Ret _ s' | Spin s' => R s s' | Block _ => False end.

(** What a relation has to keep to. *)
Class Framed (R : tfst → tfst → Prop) := {
  fr_preorder :: PreOrder R;
  fr_beside : ∀ s s', beside s s' → R s s';
  fr_new : ∀ t s, R s (set_hs (<[next_h s := t]> (hs s)) (S (next_h s)) s);
  fr_delete : ∀ e s, R s (set_hs (delete e (hs s)) (next_h s) s);
  fr_append : ∀ x s, R s (set_entries (entries s ++ [x]) s);
  fr_function : ∀ e, follows R (entry_function e);
}.

Create HintDb frame discriminated.

Lemma follows_ret `{Framed R} {A} (a : A) : follows R (ret a).
Proof. intros s. cbn. reflexivity. Qed.
Lemma follows_gets `{Framed R} {A} (f : tfst → A) : follows R (gets f).
Proof. intros s. cbn. reflexivity. Qed.
Lemma follows_get `{Framed R} : follows R get.
Proof. intros s. cbn. reflexivity. Qed.
Lemma follows_modify `{Framed R} f : (∀ s, beside s (f s)) → follows R (modify f).
Proof. intros Hf s. cbn. by apply fr_beside. Qed.
Lemma follows_undefined `{Framed R} {A} : follows R (undefined (A := A)).
Proof. intros s. cbn. reflexivity. Qed.
Lemma follows_bind `{Framed R} {A B} (m : T A) (k : A → T B) : follows R m → (∀ a, follows R (k a)) → follows R (bind m k).
Proof.
  intros Hm Hk s. specialize (Hm s). unfold bind. destruct (m s) as [a s'| |]; try done.
  specialize (Hk a s'). destruct (k a s'); try done; by etrans.
Qed.
Lemma follows_bindo `{Framed R} {A B} (m : T (option A)) (k : A → T (option B)) : follows R m → (∀ a, follows R (k a)) → follows R (bindo m k).
Proof. intros. apply follows_bind; [done|]. intros [a|]; [auto|apply follows_ret]. Qed.
Lemma follows_bindb `{Framed R} {A} (m : T (option A)) (k : A → T bool) : follows R m → (∀ a, follows R (k a)) → follows R (bindb m k).
Proof. intros. apply follows_bind; [done|]. intros [a|]; [auto|apply follows_ret]. Qed.
Lemma follows_guardb `{Framed R} (m k : T bool) : follows R m → follows R k → follows R (guardb m k).
Proof. intros. apply follows_bind; [done|]. intros []; [auto|apply follows_ret]. Qed.
Lemma follows_when `{Framed R} b (m : T unit) : follows R m → follows R (when b m).
Proof. intros. by destruct b; [|apply follows_ret]. Qed.
Lemma follows_spin `{Framed R} {A} : follows R (λ s, Spin s : res tfst A).
Proof. intros s. cbn. reflexivity. Qed.
Lemma follows_for_each `{Framed R} {A} (f : A → T unit) l : (∀ a, follows R (f a)) → follows R (for_each f l).
Proof. intros Hf. induction l as [|a l IH]; cbn; [apply follows_ret|by apply follows_bind]. Qed.
Lemma follows_new_handle `{Framed R} t : follows R (new_handle t).
Proof. intros s. apply fr_new. Qed.

#[export] Hint Resolve follows_ret follows_gets follows_get follows_undefined follows_spin follows_new_handle : frame.
(** Straight-line code, by its shape. *)
Ltac frame_step :=
  lazymatch goal with
  | |- ∀ _, _ => intros ?
  | |- follows _ (bind _ _) => apply follows_bind
  | |- follows _ (bindo _ _) => apply follows_bindo
  | |- follows _ (bindb _ _) => apply follows_bindb
  | |- follows _ (guardb _ _) => apply follows_guardb
  | |- follows _ (when _ _) => apply follows_when
  | |- follows _ (for_each _ _) => apply follows_for_each
  | |- follows _ (modify _) => apply follows_modify; intros; by split
  | |- follows _ (if ?b then _ else _) => destruct b
  | |- follows _ (match ?x with _ => _ end) => destruct x
  | |- follows _ (let _ := _ in _) => cbv zeta
  | |- follows _ _ => solve [eauto with frame]
  end.
Ltac frame := repeat frame_step.

(** ** Every operation *)



Lemma follows_slot `{Framed R} h : follows R (slot h).
Proof. apply follows_gets. Qed.
Lemma follows_upd `{Framed R} h f : follows R (upd h f).
Proof. apply follows_modify. intros. by split. Qed.
Lemma follows_fail `{Framed R} m : follows R (fail m).
Proof. apply follows_modify. intros. by split. Qed.
#[export] Hint Resolve follows_slot follows_upd follows_fail : frame.
Lemma follows_bad `{Framed R} : follows R bad.
Proof. unfold bad. frame. Qed.
Lemma follows_unread `{Framed R} : follows R unread.
Proof. unfold unread. frame. Qed.
Lemma follows_held_by `{Framed R} h : follows R (held_by h).
Proof. unfold held_by. frame. Qed.
Lemma follows_delete_handle `{Framed R} h : follows R (delete_handle h).
Proof. intros s. apply fr_delete. Qed.
#[export] Hint Resolve follows_bad follows_unread follows_held_by follows_delete_handle : frame.
Lemma follows_make_handle `{Framed R} t : follows R (make_handle t).
Proof. unfold make_handle. frame. Qed.
#[export] Hint Resolve follows_make_handle : frame.
Lemma follows_copy_sharing `{Framed R} `{TensorFlow} o : follows R (copy_sharing o).
Proof. unfold copy_sharing. frame. Qed.
#[export] Hint Resolve follows_copy_sharing : frame.
Lemma follows_unref_with `{Framed R} rf h : (∀ h, follows R (rf h)) → follows R (unref_with rf h).
Proof. intros Hrf. unfold unref_with, live. frame. Qed.
Lemma follows_really_free_n `{Framed R} n h : follows R (really_free_n n h).
Proof.
  revert h. induction n as [|n IH]; intros h; cbn [really_free_n]; [apply follows_spin|].
  frame. by apply follows_unref_with.
Qed.
Lemma follows_really_free `{Framed R} h : follows R (really_free h).
Proof. apply follows_really_free_n. Qed.
Lemma follows_unref `{Framed R} h : follows R (unref h).
Proof. apply follows_unref_with, follows_really_free. Qed.
#[export] Hint Resolve follows_really_free follows_unref : frame.
Lemma follows_tfb_free `{Framed R} h : follows R (tfb_free h).
Proof. unfold tfb_free, tfb_exists. frame. Qed.
Lemma follows_drop_structure `{Framed R} h : follows R (drop_structure h).
Proof. unfold drop_structure. frame. Qed.
Lemma follows_take_handle `{Framed R} h e : follows R (take_handle h e).
Proof. unfold take_handle. frame. Qed.
Lemma follows_slot_scan `{Framed R} n : follows R (slot_scan n).
Proof. induction n; cbn [slot_scan]; frame. Qed.
Lemma follows_slot_new `{Framed R} : follows R slot_new.
Proof. apply follows_slot_scan. Qed.
Lemma follows_placed `{Framed R} e : follows R (placed e).
Proof. unfold placed. frame. Qed.
#[export] Hint Resolve follows_tfb_free follows_drop_structure follows_take_handle follows_slot_new follows_placed : frame.
Lemma follows_slot_from_tensor `{Framed R} t ck : follows R (slot_from_tensor t ck).
Proof. unfold slot_from_tensor. frame. Qed.
Lemma follows_slot_from_handle `{Framed R} e : follows R (slot_from_handle e).
Proof. unfold slot_from_handle. frame. Qed.
#[export] Hint Resolve follows_slot_from_tensor follows_slot_from_handle : frame.
Lemma follows_tfb_from_doubles `{Framed R} d sh : follows R (tfb_from_doubles d sh).
Proof. unfold tfb_from_doubles. apply follows_slot_from_tensor. Qed.
Lemma follows_ivec `{Framed R} v : follows R (ivec v).
Proof. unfold ivec. apply follows_slot_from_tensor. Qed.
Lemma follows_iscalar `{Framed R} v : follows R (iscalar v).
Proof. unfold iscalar. apply follows_slot_from_tensor. Qed.
#[export] Hint Resolve follows_tfb_from_doubles follows_ivec follows_iscalar : frame.
Lemma follows_with_free `{Framed R} m t : follows R m → follows R (with_free m t).
Proof. intros. unfold with_free. frame. Qed.
#[export] Hint Resolve follows_with_free : frame.

Section tensorflow.
Context `{TensorFlow}.

Lemma follows_closure_of `{Framed R} h g : follows R (closure_of h g).
Proof. unfold closure_of. frame. Qed.
Lemma follows_finish_leaves `{Framed R} ls g : follows R (finish_leaves ls g).
Proof. revert g. induction ls; intros g; cbn [finish_leaves]; frame. Qed.
Lemma follows_finish_nodes `{Framed R} ns g : follows R (finish_nodes ns g).
Proof. revert g. induction ns; intros g; cbn [finish_nodes]; frame. Qed.
#[local] Hint Resolve follows_closure_of follows_finish_leaves follows_finish_nodes : frame.
Lemma follows_entry_compile `{Framed R} c : follows R (entry_compile c).
Proof. unfold entry_compile. frame. intros s. apply fr_append. Qed.
#[local] Hint Resolve follows_entry_compile : frame.
Lemma follows_entry_for `{Framed R} c : follows R (entry_for c).
Proof. unfold entry_for. frame. Qed.
Lemma follows_entry `{Framed R} e : follows R (entry e).
Proof. unfold entry. frame. Qed.
#[local] Hint Resolve follows_entry_for follows_entry : frame.

#[local] Hint Resolve fr_function : frame.
Lemma follows_add_inputs `{Framed R} l : follows R (add_inputs l).
Proof. induction l as [|[h|] l IH]; cbn [add_inputs]; frame. Qed.
Lemma follows_new_handles `{Framed R} l : follows R (new_handles l).
Proof. induction l as [|t l IH]; cbn; frame. Qed.
#[local] Hint Resolve follows_add_inputs follows_new_handles : frame.
Lemma follows_call_function `{Framed R} c x f : follows R (call_function c x f).
Proof. unfold call_function. frame. Qed.
Lemma follows_take_results `{Framed R} c l : follows R (take_results c l).
Proof. unfold take_results, bump_exe. frame. Qed.
Lemma follows_take_grads `{Framed R} rets pg gs : follows R (take_grads rets pg gs).
Proof. revert rets gs. induction pg as [|[p a] pg IH]; intros rets gs; cbn [take_grads]; unfold bump_exe; frame. Qed.
#[local] Hint Resolve follows_call_function follows_take_results follows_take_grads : frame.
Lemma follows_bump_rep `{Framed R} : follows R bump_rep.
Proof. unfold bump_rep. frame. Qed.
Lemma follows_execute `{Framed R} c e ps : follows R (execute c e ps).
Proof. unfold execute. frame. Qed.
#[local] Hint Resolve follows_execute : frame.
Lemma follows_run_closure `{Framed R} h : follows R (run_closure h).
Proof. unfold run_closure, bump_rep. frame. Qed.
#[local] Hint Resolve follows_run_closure : frame.
Lemma follows_tfb_force `{Framed R} h : follows R (tfb_force h).
Proof. unfold tfb_force, tfb_exists. frame. Qed.
Lemma follows_tfb_shape `{Framed R} h : follows R (tfb_shape h).
Proof. unfold tfb_shape, tfb_exists. frame. Qed.
Lemma follows_tfb_is_int `{Framed R} h : follows R (tfb_is_int h).
Proof. apply follows_gets. Qed.
#[local] Hint Resolve follows_tfb_force follows_tfb_shape follows_tfb_is_int : frame.
Lemma follows_tfb_values `{Framed R} h : follows R (tfb_values h).
Proof. unfold tfb_values, tfb_exists. frame. Qed.
Lemma follows_refuse `{Framed R} m : follows R (refuse m).
Proof. unfold refuse. frame. Qed.
#[local] Hint Resolve follows_refuse : frame.
Lemma follows_cat_dims `{Framed R} d a sh hs : follows R (cat_dims d a sh hs).
Proof. revert sh. induction hs; intros sh; cbn [cat_dims]; frame. Qed.
#[local] Hint Resolve follows_cat_dims : frame.
Lemma follows_shape_rule `{Framed R} p : follows R (shape_rule p).
Proof. unfold shape_rule. frame. Qed.
#[local] Hint Resolve follows_shape_rule : frame.
Lemma follows_run_inputs `{Framed R} hs : follows R (run_inputs hs).
Proof. induction hs; cbn [run_inputs]; frame. Qed.
Lemma follows_get_inputs `{Framed R} l : follows R (get_inputs l).
Proof. induction l as [|[h|] l IH]; cbn [get_inputs]; frame. Qed.
#[local] Hint Resolve follows_run_inputs follows_get_inputs : frame.
Lemma follows_execute_op `{Framed R} p : follows R (execute_op p).
Proof. unfold execute_op, op_inputs. frame. Qed.
Lemma follows_record `{Framed R} h p up : follows R (record h p up).
Proof. unfold record, add_ref. frame. Qed.
Lemma follows_undo `{Framed R} h p : follows R (undo h p).
Proof. unfold undo. frame. Qed.
#[local] Hint Resolve follows_execute_op follows_record follows_undo : frame.
Lemma follows_run_eager `{Framed R} p up : follows R (run_eager p up).
Proof. unfold run_eager. frame. Qed.
Lemma follows_run_graph `{Framed R} p up : follows R (run_graph p up).
Proof. unfold run_graph. frame. Qed.
#[local] Hint Resolve follows_run_eager follows_run_graph : frame.
Lemma follows_run_spec `{Framed R} p : follows R (run_spec p).
Proof. unfold run_spec, all_exist, tfb_mode. frame. Qed.
End tensorflow.
#[export] Hint Resolve follows_bump_rep follows_closure_of follows_entry_for follows_entry fr_function follows_call_function
  follows_take_results follows_take_grads follows_execute follows_run_closure follows_tfb_force follows_tfb_shape follows_tfb_values
  follows_shape_rule follows_cat_dims follows_run_inputs follows_execute_op follows_record follows_undo follows_run_eager follows_run_graph follows_run_spec follows_tfb_is_int follows_refuse
  follows_add_inputs follows_new_handles follows_get_inputs follows_entry_compile : frame.
