(* ===== verification/Cached.v ===== *)
(** * Running while the table of compiled closures is sane

    Two things go beyond what modules/tensorflow/backend.c provides for: a key
    too long for its buffer is cut, and then says too little; and a function
    TensorFlow made but would not register is kept, and answers nothing from
    then on.  [ensures m Q s] says all there is to say of the rest: as long as
    neither has happened, [m] returns, in [Q]. *)
From Stdlib Require Import Floats.SpecFloat.
From S2P Require Import Prelude Effect Float Tensor Closure Compile Shape Producer Slots Table Frame.

(** A key that does not fill the buffer; a function that is registered. *)
Definition sane_entry (e : Entry) : Prop :=
  (Z.of_nat (length (e_key e)) < KEY_SIZE - 1)%Z ∧
  (fn e = None ∨ noutputs e = Z.of_nat (length (function_outs e))).
Definition sane (s : tfst) : Prop := Forall sane_entry (entries s).
#[export] Instance sane_entry_decision e : Decision (sane_entry e).
Proof. unfold sane_entry. apply _. Defined.
#[export] Instance sane_decision s : Decision (sane s).
Proof. unfold sane. apply _. Defined.

Definition ensures {A} (m : T A) (Q : A → tfst → Prop) (s : tfst) : Prop :=
  match m s with
  | Ret a s' => sane s' → Q a s'
  | Block _ => False
  | Spin s' => ¬ sane s'
  end.

(** Entries are never removed, and do not become sane again. *)
Definition older (s s' : tfst) : Prop := ∀ i e,
  entries s !! i = Some e → ∃ e', entries s' !! i = Some e' ∧ (sane_entry e' → sane_entry e).
Definition grows {A} (m : T A) : Prop := follows older m.

#[export] Instance older_preorder : PreOrder older.
Proof.
  split; [intros s i e He; by exists e|]. intros s1 s2 s3 Ha Hb i e He.
  destruct (Ha i e He) as (e1 & He1 & Hs1). destruct (Hb i e1 He1) as (e2 & He2 & Hs2). exists e2. auto.
Qed.
Lemma older_sane s s' : older s s' → sane s' → sane s.
Proof.
  unfold sane. rewrite !Forall_lookup. intros Ho Hs i e He. destruct (Ho i e He) as (e' & He' & Hi). eauto.
Qed.
Lemma older_same s s' : entries s' = entries s → older s s'.
Proof. intros He i e. rewrite He. intros. by exists e. Qed.

(** ** The rules *)

Lemma ensures_insane {A} (m : T A) Q s : grows m → ¬ sane s → ensures m Q s.
Proof.
  intros Hg Hu. specialize (Hg s). unfold ensures. destruct (m s); [|done|];
    [intros Hu'; exfalso|intros Hu']; apply Hu; by eapply older_sane.
Qed.
Lemma ensures_ret {A} (a : A) Q s : (sane s → Q a s) → ensures (ret a) Q s.
Proof. done. Qed.
Lemma ensures_bind {A B} (m : T A) (k : A → T B) Q s :
  (∀ a, grows (k a)) → ensures m (λ a s', ensures (k a) Q s') s → ensures (bind m k) Q s.
Proof.
  intros Hk Hm. unfold ensures, bind in *. destruct (m s) as [a s'| |]; [|done|done].
  specialize (Hk a s'). destruct (k a s') as [b s''| |]; [|done|].
  - intros Hu. apply Hm; [|done]. by eapply older_sane.
  - intros Hu. by apply Hm; [eapply older_sane|].
Qed.
Lemma ensures_bindo {A B} (m : T (option A)) (k : A → T (option B)) Q s :
  (∀ a, grows (k a)) →
  ensures m (λ o s', match o with Some a => ensures (k a) Q s' | None => Q None s' end) s →
  ensures (bindo m k) Q s.
Proof.
  intros Hk Hm. apply ensures_bind; [intros [a|]; [apply Hk|intros s0; cbn; reflexivity]|].
  unfold ensures in *. by destruct (m s) as [[a|] s'| |].
Qed.
Lemma ensures_bindb {A} (m : T (option A)) (k : A → T bool) Q s :
  (∀ a, grows (k a)) →
  ensures m (λ o s', match o with Some a => ensures (k a) Q s' | None => Q false s' end) s →
  ensures (bindb m k) Q s.
Proof.
  intros Hk Hm. apply ensures_bind; [intros [a|]; [apply Hk|intros s0; cbn; reflexivity]|].
  unfold ensures in *. by destruct (m s) as [[a|] s'| |].
Qed.
Lemma ensures_guardb (m k : T bool) Q s :
  grows k →
  ensures m (λ b s', if b then ensures k Q s' else Q false s') s → ensures (guardb m k) Q s.
Proof.
  intros Hk Hm. apply ensures_bind; [intros []; [exact Hk|intros s0; cbn; reflexivity]|].
  unfold ensures in *. by destruct (m s) as [[] s'| |].
Qed.
Lemma ensures_wp {A} (m : T A) Q s : wp m Q never s → ensures m Q s.
Proof. unfold wp, ensures. by destruct (m s). Qed.
Lemma ensures_wp_sane {A} (m : T A) Q s : wp m (λ a s', sane s' → Q a s') never s → ensures m Q s.
Proof. unfold wp, ensures. by destruct (m s). Qed.
(** What always returns can be run first. *)
Lemma ensures_bind_wp {A B} (m : T A) (k : A → T B) Q s :
  wp m (λ a s', ensures (k a) Q s') never s → ensures (bind m k) Q s.
Proof. unfold wp, ensures, bind. by destruct (m s). Qed.
Lemma ensures_bindo_wp {A B} (m : T (option A)) (k : A → T (option B)) Q s :
  wp m (λ o s', match o with Some a => ensures (k a) Q s' | None => Q None s' end) never s → ensures (bindo m k) Q s.
Proof. intros Hm. apply ensures_bind_wp. eapply wp_mono; [exact Hm| |done]. intros [a|] s'; [done|]. by intros Hq _. Qed.
Lemma ensures_mono {A} (m : T A) Q Q' s :
  ensures m Q s → (∀ a s', sane s' → Q a s' → Q' a s') → ensures m Q' s.
Proof. unfold ensures. destruct (m s); auto. Qed.
Lemma ensures_when b (m : T unit) Q s :
  (b = true → ensures m Q s) → (b = false → sane s → Q tt s) → ensures (when b m) Q s.
Proof. destruct b; cbn; [auto|]. intros _ Hq Hu. by apply Hq. Qed.
(** Knowing that it has been sane so far. *)
Lemma ensures_sane {A} (m : T A) Q s : grows m → (sane s → ensures m Q s) → ensures m Q s.
Proof.
  intros Hg Hm. destruct (decide (sane s)) as [Hu|Hu]; [auto|by apply ensures_insane].
Qed.

(** ** Entries only grow *)

Lemma older_app s s' l : entries s' = entries s ++ l → older s s'.
Proof. intros He i e Hi. exists e. rewrite He. split; [by apply lookup_app_l_Some|done]. Qed.
Lemma alter_alter {A} (f g : A → A) (n : nat) (l : list A) : alter f n (alter g n l) = alter (f ∘ g) n l.
Proof. revert n. induction l as [|x l IH]; intros [|n]; cbn; [done..|]. f_equal. apply IH. Qed.
(** An entry changed, no saner for it. *)
Lemma older_alter s s' n f :
  entries s' = alter f n (entries s) →
  (∀ e, entries s !! n = Some e → sane_entry (f e) → sane_entry e) → older s s'.
Proof.
  intros He Hf i e Hi. rewrite He. destruct (decide (i = n)) as [->|Hne].
  - exists (f e). split; [by rewrite list_lookup_alter_eq, Hi|auto].
  - exists e. by rewrite list_lookup_alter_ne.
Qed.
Lemma bad_entries s : match bad s with Ret _ s' | Spin s' => entries s' = entries s | Block _ => False end.
Proof. unfold bad, bind, gets. by destruct (tfq s) as [|[m|] q]. Qed.
Lemma older_function e : follows older (entry_function e).
Proof.
  intros s. unfold entry_function, entry, upd_entry, modify, gets, bind, undefined, ret. destruct (entries s !! e) as [x|] eqn:Ex; [|by apply older_same].
  case_decide as Hf; [by apply older_same|]. 
  cbn [fncount set_entries set_counts].
  set (s1 := set_counts _ _ _).
  assert (entries s1 = alter (set_grad_at (place_grads (Z.of_nat (length (out_node x))) (grads x))) e (entries s)) as E1 by done.
  clearbody s1. pose proof (bad_entries s1) as Hb1. destruct (bad s1) as [b1 s2|s2|s2]; [|done|].
  2:{ eapply older_alter; [rewrite Hb1; exact E1|]. intros y Hy. done. }
  destruct b1; [eapply older_alter; [rewrite Hb1; exact E1|]; done|].
  cbv beta iota. set (s3 := set_entries _ s2).
  pose proof (bad_entries s3) as Hb3. destruct (bad s3) as [b3 s4|s4|s4]; [|done|].
  - assert (entries s4 = alter (set_fn (Some (Func (fncount s) (e_graph x) (in_leaf x) (function_outs x)))) e
      (alter (set_grad_at (place_grads (Z.of_nat (length (out_node x))) (grads x))) e (entries s))) as E4.
    { rewrite Hb3. cbn. by rewrite Hb1, E1. }
    destruct b3.
    + rewrite alter_alter in E4. eapply older_alter; [exact E4|]. intros y Hy [Hs _]. split; [exact Hs|].
      left. congruence.
    + assert (older s (set_entries (alter (set_noutputs (Z.of_nat (length (function_outs x)))) e (entries s4)) s4)) as Ho.
      { eapply older_alter; [cbn; rewrite E4, !alter_alter; done|]. intros y Hy [Hs _]. split; [exact Hs|]. left. congruence. }
      exact Ho.
  - eapply older_alter; [rewrite Hb3; cbn; rewrite Hb1, E1, alter_alter; done|].
    intros y Hy [Hs _]. split; [exact Hs|]. left. congruence.
Qed.

#[export] Instance older_framed : Framed older.
Proof.
  split; [apply _|..|exact older_function].
  - intros s s' Hb. by apply older_same, Hb.
  - intros t s. by apply older_same.
  - intros e s. by apply older_same.
  - intros x s. by eapply older_app.
Qed.
#[export] Hint Resolve older_framed : frame.
Ltac grows := unfold grows; frame.

Lemma grows_scalar_keep f e : grows (scalar_keep f e).
Proof.
  intros s. unfold scalar_keep, bind, gets. destruct (_ !! _) as [[? ?]|]; by apply older_same.
Qed.
Lemma grows_fscalar `{TensorFlow} v : follows older (fscalar v).
Proof. unfold fscalar. grows. apply grows_scalar_keep. Qed.
#[export] Hint Resolve grows_fscalar : frame.
