(* ===== verification/Described.v ===== *)
(** * What the table of compiled closures holds

    A closure is described by its structure ([desc]); its key is the
    description's text and its graph the description's graph.  An entry found
    by a closure's key was therefore compiled from a closure of the same
    structure. *)
From Stdlib Require Import Floats.SpecFloat.
From S2P Require Import Prelude Effect Float Tensor Closure Compile Shape Producer Slots Table Meaning Visit Key Frame Cached.

Section described.
Context `{TensorFlow}.

(** ** The description of a closure *)

Definition leaf_desc_of (l : TfSlot) : leaf_desc :=
  LD (dtype l) (shape l) (if ckey l then (λ t, int_of <$> t_data t) <$> val l else None).
Definition node_desc_of (s : tfst) (c : Closure) (h : Z) (w : bool) : node_desc :=
  ND (recipe (spec (slots s h))) (graph_ref c <$> ins (spec (slots s h))) w.
Definition desc_of (s : tfst) (c : Closure) (g : option (list (option gref))) : desc :=
  Desc ((λ h, leaf_desc_of (slots s h)) <$> leaves c) (zip_with (node_desc_of s c) (nodes c) (want c)) g.

(** The graph a description is of, and the function's arguments and results. *)
Definition leaf_of (d : leaf_desc) : gleaf :=
  match ld_const d with
  | Some l => G_const (Tensor (ld_dtype d) (ld_shape d) (Int <$> l))
  | None => G_placeholder (ld_dtype d) (ld_shape d)
  end.
Definition node_of_desc (d : node_desc) : gnode := GNode (nd_op d) (nd_in d).
Definition graph_of (d : desc) : graph := Graph (leaf_of <$> d_leaves d) (node_of_desc <$> d_nodes d).
Definition fed_of (d : desc) : list Z :=
  concat (imap (λ j l, match ld_const l with None => [Z.of_nat j] | Some _ => [] end) (d_leaves d)).
Definition out_of (d : desc) : list Z := out_nodes (nd_want <$> d_nodes d).

(** ** The key *)

Definition key_room : nat := Z.to_nat (KEY_SIZE - 1).
Lemma key_room_Z : Z.of_nat key_room = (KEY_SIZE - 1)%Z.
Proof. unfold key_room. apply Z2Nat.id. by apply Z.leb_le. Qed.
Lemma kput_def k text : kput k text = if decide (length k < key_room) then take key_room (k ++ text) else k.
Proof. unfold kput. fold key_room. rewrite <- key_room_Z. apply decide_ext. lia. Qed.
#[local] Opaque key_room kput.
Lemma kput_take k text :
  length k ≤ key_room → kput k text = take key_room (k ++ text).
Proof.
  intros Hk. rewrite kput_def. case_decide as Hd; [done|].
  assert (length k = key_room) as Hl by lia. by rewrite <- Hl, take_app_length.
Qed.
Lemma kput_fold k pieces :
  length k ≤ key_room → foldl kput k pieces = take key_room (k ++ concat pieces).
Proof.
  revert k. induction pieces as [|p pieces IH]; intros k Hk; cbn [foldl concat].
  - rewrite app_nil_r, take_ge; [reflexivity|exact Hk].
  - rewrite kput_take by done. rewrite IH by (rewrite length_take; lia).
    destruct (decide (length (k ++ p) ≤ key_room)) as [Hl|Hl].
    + rewrite (take_ge (k ++ p)) by done. by rewrite <- app_assoc.
    + rewrite app_assoc, (take_app_le (k ++ p)) by lia. rewrite (take_app_le (take _ _)) by (rewrite length_take; lia).
      rewrite take_take, Nat.min_id. reflexivity.
Qed.
(** A key that does not fill the buffer is the whole text. *)
Lemma kput_whole pieces :
  (Z.of_nat (length (foldl kput [] pieces)) < KEY_SIZE - 1)%Z → foldl kput [] pieces = concat pieces.
Proof.
  rewrite kput_fold by (cbn; lia). cbn [app]. rewrite length_take. intros Hl. apply take_ge. pose proof key_room_Z. lia.
Qed.

Lemma concat_pieces {A} (a : list A) L b X c :
  concat (a :: L ++ [b] ++ X ++ [c]) = a ++ concat L ++ b ++ concat X ++ c.
Proof. rewrite concat_cons, !concat_app. cbn. by rewrite !app_nil_r. Qed.

(** A constant's description says all of it. *)
Definition plain (l : TfSlot) : Prop :=
  ckey l = true → ∀ t, val l = Some t → constant t ∧ shape l = t_dims t ∧ dtype l = t_dtype t.

Lemma key_leaf_text s j h :
  plain (slots s h) → concat (key_leaf s j h) = leaf_text j (leaf_desc_of (slots s h)).
Proof.
  intros Hc. unfold key_leaf, leaf_text, leaf_desc_of. cbn [ld_dtype ld_shape ld_const].
  rewrite concat_pieces, <- !app_assoc. do 7 f_equal.
  destruct (ckey (slots s h)) eqn:Ec; [|done]. destruct (val (slots s h)) as [t|] eqn:Ev; [|done].
  destruct (Hc Ec t Ev) as ((Hd & Hl & _ & Hi) & _ & Hdt). cbn [fmap option_fmap option_map].
  rewrite concat_cons, take_ge by done. do 2 f_equal. rewrite Hdt, Hd. clear -Hi.
  induction Hi as [|x l [i ->] _ IH]; [done|]. cbn. by f_equal.
Qed.

Lemma index_of_nonneg h l i : index_of h l = Some i → (0 ≤ i)%Z.
Proof.
  revert i. induction l as [|x l IH]; intros i; cbn; [done|]. case_decide; [by intros [= <-]|].
  destruct (index_of h l) as [j|]; cbn; [|done]. intros [= <-]. specialize (IH j eq_refl). lia.
Qed.
Lemma print_input_ref c h : print_input (leaves c) (nodes c) h = print_ref (graph_ref c h).
Proof.
  unfold print_input, graph_ref, leaf_index, node_index. destruct (index_of h (leaves c)) as [j|] eqn:Ej.
  - cbn. by rewrite decide_True by (by eapply index_of_nonneg).
  - cbn. by rewrite decide_False by lia.
Qed.
Lemma key_node_text s c i h w :
  concat (key_node s (leaves c) (nodes c) i h w) = node_text i (node_desc_of s c h w).
Proof.
  unfold key_node, node_text, node_desc_of, attrs. cbn [nd_op nd_in nd_want recipe op types ints bools list_n].
  rewrite !concat_cons, !concat_app, !fmap_app, !concat_app. cbn [concat]. rewrite !app_nil_r, <- !app_assoc.
  assert (print_input (leaves c) (nodes c) <$> ins (spec (slots s h)) = print_ref <$> (graph_ref c <$> ins (spec (slots s h)))) as ->.
  { rewrite <- list_fmap_compose. apply list_fmap_ext. intros _ x _. apply print_input_ref. }
  done.
Qed.

Lemma concat_concat {A} (l : list (list (list A))) : concat (concat l) = concat (concat (A:=A) <$> l).
Proof. induction l as [|x l IH]; [done|]. cbn. by rewrite concat_app, IH. Qed.
Lemma zip_with_pairs {A B C} (f : A → B → C) l k : zip_with f l k = uncurry f <$> zip l k.
Proof. revert k. induction l as [|x l IH]; intros [|y k]; cbn; [done..|]. by rewrite IH. Qed.

Lemma pieces_text s c :
  (∀ h, h ∈ leaves c → plain (slots s h)) →
  concat (key_pieces s (leaves c) (nodes c) (want c)) = desc_text (desc_of s c None).
Proof.
  intros Hp. unfold key_pieces, desc_text, desc_of. cbn [d_leaves d_nodes d_grads grads_text].
  rewrite concat_app, !concat_concat, app_nil_r. f_equal.
  - rewrite fmap_imap, imap_fmap. f_equal. apply imap_ext. intros j h Hj. cbn.
    apply key_leaf_text, Hp. by eapply list_elem_of_lookup_2.
  - rewrite fmap_imap, (zip_with_pairs (node_desc_of s c)), imap_fmap. f_equal. apply imap_ext. intros i [h w] _. cbn. apply key_node_text.
Qed.

(** A closure as [closure_of] makes it. *)
Definition keyed (s : tfst) (c : Closure) : Prop :=
  key c = foldl kput [] (key_pieces s (leaves c) (nodes c) (want c)) ∧ ∀ h, h ∈ leaves c → plain (slots s h).
Definition short (k : bytes) : Prop := (Z.of_nat (length k) < KEY_SIZE - 1)%Z.

Lemma key_text s c : keyed s c → short (key c) → key c = desc_text (desc_of s c None).
Proof. intros [Hk Hp] Hs. rewrite <- pieces_text by done. rewrite Hk in *. by apply kput_whole. Qed.
Lemma grad_key_text s c ps :
  keyed s c → short (key (grad_key c ps)) →
  key (grad_key c ps) = desc_text (desc_of s c (Some (place c <$> ps))).
Proof.
  intros [Hk Hp] Hs. unfold grad_key in *. cbn [key] in *. rewrite Hk, <- foldl_app in *.
  rewrite (kput_whole _ Hs), concat_app, pieces_text, concat_cons by done.
  unfold desc_text, desc_of. cbn [d_leaves d_nodes d_grads]. cbn [grads_text]. rewrite app_nil_r, <- !app_assoc.
  by rewrite list_fmap_compose.
Qed.

(** ** The graph *)

Lemma leaf_of_graph l : plain l → leaf_of (leaf_desc_of l) = graph_leaf l.
Proof.
  intros Hp. unfold leaf_of, leaf_desc_of, graph_leaf. cbn. destruct (ckey l) eqn:Ec; [|done].
  destruct (val l) as [t|] eqn:Ev; [|done]. cbn. destruct (Hp Ec t Ev) as ((_ & _ & _ & Hi) & -> & ->).
  destruct t as [dt dims data]. cbn in *. do 2 f_equal. rewrite <- list_fmap_compose. clear -Hi. induction Hi as [|x k [i ->] _ IH]; [done|]. cbn. by rewrite IH.
Qed.
Lemma fed_of_graph s c g : fed_of (desc_of s c g) = fed s (leaves c).
Proof.
  unfold fed_of, desc_of, fed. cbn [d_leaves]. rewrite imap_fmap. f_equal. apply imap_ext. intros j h _. cbn.
  unfold leaf_desc_of, is_fed. cbn. destruct (ckey _); [|done]. by destruct (val _).
Qed.
Lemma out_of_graph s c g : length (want c) = length (nodes c) → out_of (desc_of s c g) = out_nodes (want c).
Proof.
  unfold out_of, desc_of. cbn [d_nodes]. intros Hl. f_equal. apply fmap_zip_with_r; [done|lia].
Qed.
Lemma graph_of_graph s c g :
  (∀ h, h ∈ leaves c → plain (slots s h)) → length (want c) = length (nodes c) →
  graph_of (desc_of s c g) =
  Graph ((λ h, graph_leaf (slots s h)) <$> leaves c) ((λ h, graph_node c (spec (slots s h))) <$> nodes c).
Proof.
  intros Hp Hl. unfold graph_of, desc_of. cbn [d_leaves d_nodes]. f_equal.
  - rewrite <- list_fmap_compose. apply list_fmap_ext. intros j h Hj. cbn. apply leaf_of_graph, Hp. by eapply list_elem_of_lookup_2.
  - revert Hl. generalize (want c). induction (nodes c) as [|h l IH]; intros [|w ws]; cbn; try done.
    intros [= Hl]. by rewrite IH.
Qed.
Lemma wf_desc_of s c g : (∀ h, h ∈ nodes c → wf_spec (spec (slots s h))) → wf_desc (desc_of s c g).
Proof.
  intros Hs. unfold wf_desc, desc_of. cbn [d_nodes]. generalize (want c). induction (nodes c) as [|h l IH]; intros [|w ws]; cbn; try constructor.
  - cbn. split; [|done]. assert (h ∈ h :: l) as Hh by set_solver. destruct (Hs h Hh). by split.
  - apply IH. intros. apply Hs. set_solver.
Qed.

(** ** The entries *)

(** The gradients an entry has: none, when none were asked for; else for each
    place of a parameter the gradient of the last node by it, or nothing. *)
Definition place_grad (y : gref) (at_ : option gref) (g : option gout) : Prop :=
  match g with
  | Some (O_grad y' xs k) => y' = y ∧ ∃ x, at_ = Some x ∧ xs !! k = Some x
  | Some (O_ref _) => False
  | None => True
  end.
Definition last_node (n : nat) : gref := R_node (Z.of_nat n - 1).
Definition grads_ok (d : desc) (gs : list (option gout)) : Prop :=
  match d_grads d with
  | None => gs = []
  | Some at_ => Forall2 (place_grad (last_node (length (d_nodes d)))) at_ gs
  end.

(** An entry made from a closure of the structure [d]. *)
Record entry_ok (d : desc) (x : Entry) : Prop := {
  eo_wf : wf_desc d;
  eo_key : e_key x = desc_text d;
  eo_graph : e_graph x = graph_of d;
  eo_in : in_leaf x = fed_of d;
  eo_out : out_node x = out_of d;
  eo_grads : grads_ok d (grads x);
  eo_fn : ∀ f, fn x = Some f → f_graph f = e_graph x ∧ f_in f = in_leaf x ∧ f_out f = function_outs x ∧
            grad_at x = place_grads (Z.of_nat (length (out_node x))) (grads x);
}.
Definition entries_ok (s : tfst) : Prop := Forall (λ x, sane_entry x → ∃ d, entry_ok d x) (entries s).

(** Nothing but the entries, the counts, the texts and the calls to come
    changed. *)
Record quiet (s s' : tfst) : Prop := {
  qt_slots : slots s' = slots s;
  qt_hs : hs s' = hs s;
  qt_next : next_h s' = next_h s;
  qt_scalars : scalars s' = scalars s;
  qt_cursor : slot_cursor s' = slot_cursor s;
  qt_mode : graph_mode s' = graph_mode s;
}.
#[export] Instance quiet_preorder : PreOrder quiet.
Proof. split; [by split|]. intros s1 s2 s3 [] []. split; congruence. Qed.
Lemma inert_quiet s s' : inert s s' → quiet s s'.
Proof. by intros []. Qed.
Lemma quiet_ok loose s s' : quiet s s' → ok loose s → ok loose s'.
Proof.
  intros [] Hwf. eapply wf_same; [exact Hwf|done..|]. rewrite qt_cursor0. exact (wf_cursor _ _ _ _ _ Hwf).
Qed.
Lemma entries_ok_same s s' : entries s' = entries s → entries_ok s → entries_ok s'.
Proof. unfold entries_ok. by intros ->. Qed.

Lemma entry_find_Some k es e :
  entry_find k es = Some e → ∃ x, es !! e = Some x ∧ e_key x = k.
Proof.
  unfold entry_find. destruct (list_find _ es) as [[i x]|] eqn:Ef; cbn; [|done]. intros [= <-].
  apply list_find_Some in Ef as (? & [_ ?] & _). by exists x.
Qed.

Lemma wp_finish_leaves ls g s :
  wp (finish_leaves ls g) (λ r s', quiet s s' ∧ entries s' = entries s ∧
    ∀ g', r = Some g' → g' = Graph (g_leaves g ++ ls) (g_nodes g)) never s.
Proof.
  revert g s. induction ls as [|l ls IH]; intros g s; cbn [finish_leaves].
  - tf_step. split; [done|]. split; [done|]. intros g' [= <-]. rewrite app_nil_r. by destruct g.
  - do 3 tf_step. eapply wp_mono; [apply wp_bad| |done]. cbv beta. intros b s1 Hi.
    pose proof (in_entries _ _ Hi) as He. apply inert_quiet in Hi. destruct b.
    + tf_step. split; [|done]. etrans; [|exact Hi]. by split.
    + eapply wp_mono; [apply IH| |done]. cbv beta. intros r s2 (Hq & He2 & Hr). split_and!.
      * etrans; [|exact Hq]. etrans; [|exact Hi]. by split.
      * by rewrite He2, He.
      * intros g' ->. rewrite (Hr g' eq_refl). cbn. by rewrite <- app_assoc.
Qed.
Lemma wp_finish_nodes ns g s :
  wp (finish_nodes ns g) (λ r s', quiet s s' ∧ entries s' = entries s ∧
    ∀ g', r = Some g' → g' = Graph (g_leaves g) (g_nodes g ++ ns)) never s.
Proof.
  revert g s. induction ns as [|n ns IH]; intros g s; cbn [finish_nodes].
  - tf_step. split; [done|]. split; [done|]. intros g' [= <-]. rewrite app_nil_r. by destruct g.
  - do 2 tf_step. destruct (tf_check g n) as [why|].
    { tf_step. eapply wp_mono; [apply wp_tf_fail| |done]. cbv beta. intros _ s1 Hi. tf_step.
      split; [|split; [exact (in_entries _ _ Hi)|done]]. etrans; [|by apply inert_quiet]. by split. }
    tf_step. eapply wp_mono; [apply wp_bad| |done]. cbv beta. intros b s1 Hi.
    pose proof (in_entries _ _ Hi) as He. apply inert_quiet in Hi. destruct b.
    + tf_step. split; [|done]. etrans; [|exact Hi]. by split.
    + eapply wp_mono; [apply IH| |done]. cbv beta. intros r s2 (Hq & He2 & Hr). split_and!.
      * etrans; [|exact Hq]. etrans; [|exact Hi]. by split.
      * by rewrite He2, He.
      * intros g' ->. rewrite (Hr g' eq_refl). cbn. by rewrite <- app_assoc.
Qed.

(** A closure's description ... *)
Record depicted (s : tfst) (c : Closure) (d : desc) : Prop := {
  ds_wf : wf_desc d;
  ds_graph : graph_of d = Graph ((λ h, graph_leaf (slots s h)) <$> leaves c)
                               ((λ h, graph_node c (spec (slots s h))) <$> nodes c);
  ds_in : fed_of d = fed s (leaves c);
  ds_out : out_of d = out_nodes (want c);
}.
(** ... and its key that tells as much. *)
Record described (s : tfst) (c : Closure) (d : desc) : Prop := {
  ds_text : short (key c) → key c = desc_text d;
  ds_depicted :> depicted s c d;
}.
Lemma keyed_described s c :
  keyed s c → length (want c) = length (nodes c) → (∀ h, h ∈ nodes c → wf_spec (spec (slots s h))) →
  described s c (desc_of s c None).
Proof.
  intros Hk Hl Hs. split; [by apply key_text|]. split; [by apply wf_desc_of|apply graph_of_graph; [apply Hk|done]|
    apply fed_of_graph|by apply out_of_graph].
Qed.
Lemma keyed_described_grad s c ps :
  keyed s c → length (want c) = length (nodes c) → (∀ h, h ∈ nodes c → wf_spec (spec (slots s h))) →
  described s (grad_key c ps) (desc_of s c (Some (place c <$> ps))).
Proof.
  intros Hk Hl Hs. split; [by apply grad_key_text|]. split; [by apply wf_desc_of|exact (graph_of_graph s c _ (proj2 Hk) Hl)|
    exact (fed_of_graph s c _)|exact (out_of_graph s c _ Hl)].
Qed.

Lemma described_same s s' c d : slots s' = slots s → described s c d → described s' c d.
Proof. intros Hs [? []]. split; [done|]. split; unfold fed; by rewrite ?Hs. Qed.

(** What an entry has when it is made. *)
Definition compiled (c : Closure) (d : desc) : Entry :=
  MkEntry (key c) (fnv (key c)) (graph_of d) (fed_of d) (out_of d) [] [] 0 None.
Lemma compiled_ok s c d : described s c d → short (key c) → d_grads d = None → entry_ok d (compiled c d).
Proof. intros [? []] Hs Hg. split; cbn; try done; [auto|]. unfold grads_ok. by rewrite Hg. Qed.
(** ... and once it has its gradients. *)
Lemma compiled_grads_ok s c d gs :
  described s c d → short (key c) → grads_ok d gs → entry_ok d (set_grads gs (compiled c d)).
Proof. intros [? []] Hs Hg. split; cbn; try done. auto. Qed.

Lemma wp_entry_compile c d s :
  described s c d →
  wp (entry_compile c) (λ r s', quiet s s' ∧
    match r with
    | Some e => e = length (entries s) ∧ entries s' = entries s ++ [compiled c d]
    | None => entries s' = entries s
    end) never s.
Proof.
  intros Hd. unfold entry_compile. do 2 tf_step. case_decide.
  { tf_step. eapply wp_mono; [apply wp_tf_fail| |done]. cbv beta. intros _ s1 Hi. tf_step.
    split; [by apply inert_quiet|exact (in_entries _ _ Hi)]. }
  do 3 tf_step. eapply wp_mono; [apply wp_finish_leaves| |done]. cbv beta. intros [g|] s1 (Hq1 & He1 & Hr1); [|done].
  tf_step. eapply wp_mono; [apply wp_finish_nodes| |done]. cbv beta. intros [g'|] s2 (Hq2 & He2 & Hr2); cycle 1.
  { split; [by etrans|congruence]. }
  do 3 tf_step. split; [etrans; [exact Hq1|]; etrans; [exact Hq2|by split]|]. split; [done|]. cbn.
  rewrite He2, He1. do 2 f_equal. unfold compiled. f_equal.
  - rewrite (Hr2 g' eq_refl), (Hr1 g eq_refl), (ds_graph _ _ _ Hd). done.
  - rewrite (ds_in _ _ _ Hd). unfold fed. f_equal. apply imap_ext. intros j h _. cbn.
    by rewrite (qt_slots _ _ Hq2), (qt_slots _ _ Hq1).
  - symmetry. apply (ds_out _ _ _ Hd).
Qed.

Lemma entries_ok_app s s' x :
  entries s' = entries s ++ [x] → (sane_entry x → ∃ d, entry_ok d x) → entries_ok s → entries_ok s'.
Proof. unfold entries_ok. intros -> Hx Hs. apply Forall_app. auto. Qed.
Lemma entries_ok_lookup s e x :
  entries_ok s → sane s → entries s !! e = Some x → sane_entry x ∧ ∃ d, entry_ok d x.
Proof.
  unfold entries_ok, sane. rewrite !Forall_lookup. intros Ho Hs He. specialize (Hs e x He). eauto.
Qed.

(** The entry of a closure's key is of a closure of its structure. *)
Lemma entry_of_key s c d e x :
  entries_ok s → sane s → described s c d → entries s !! e = Some x → e_key x = key c → entry_ok d x.
Proof.
  intros Ho Hs Hd Hx Hk. destruct (entries_ok_lookup _ _ _ Ho Hs Hx) as [[Hsh _] (d' & Hd')].
  assert (d' = d) as ->; [|done]. apply desc_text_inj; [apply Hd'|apply Hd|].
  rewrite <- (eo_key _ _ Hd'), Hk. apply (ds_text _ _ _ Hd). by rewrite <- Hk.
Qed.
Lemma ensures_entry_for c d s :
  entries_ok s → described s c d → d_grads d = None →
  ensures (entry_for c) (λ r s', quiet s s' ∧ entries_ok s' ∧
    ∀ e b, r = Some (e, b) → ∃ x, entries s' !! e = Some x ∧ entry_ok d x) s.
Proof.
  intros Ho Hd Hdg. unfold entry_for. apply ensures_bind; [intros; grows|]. apply ensures_wp. tf_step.
  destruct (entry_find (key c) (entries s)) as [e|] eqn:Ef.
  - apply ensures_ret. intros Hs. split; [done|]. split; [done|]. intros ? ? [= <- <-].
    apply entry_find_Some in Ef as (x & Hx & Hk). exists x. split; [done|].
    by eapply entry_of_key.
  - apply ensures_bindo; [intros; grows|]. apply ensures_wp.
    eapply wp_mono; [by apply wp_entry_compile| |done]. cbv beta. intros [e|] s1 [Hq Hr].
    + destruct Hr as [-> Hr]. apply ensures_ret. intros Hs. split; [done|].
      assert (sane_entry (compiled c d)) as [Hsh _].
      { unfold sane in Hs. rewrite Hr in Hs. apply Forall_app in Hs as [_ Hs]. by inversion Hs. }
      split; [eapply entries_ok_app; [exact Hr| |done]; intros _; exists d; by eapply compiled_ok|].
      intros ? ? [= <- <-]. exists (compiled c d). rewrite Hr. split; [by rewrite list_lookup_middle|by eapply compiled_ok].
    + split; [done|]. split; [by eapply entries_ok_same|done].
Qed.
End described.
