(* ===== verification/Evaluate.v ===== *)
(** * What a compiled graph computes

    The graph of a closure, its placeholders given the leaves' tensors, gives
    each of its nodes the tensor its slot stands for. *)
From Stdlib Require Import Floats.SpecFloat.
From S2P Require Import Prelude Effect Float Tensor Closure Compile Slots Table Meaning Visit Key Frame Cached Described.

(** ** Evaluating a function's graph *)

Section graphs.
Context (exec : OpSpec → list tensor → tensor + bytes).

(** A leaf is its constant, or the argument it stands for. *)
Definition leaf_val (f : func) (ts : list tensor) (j : Z) : option tensor :=
  match g_leaves (f_graph f) !! Z.to_nat j with
  | Some (G_const t) => Some t
  | Some (G_placeholder _ _) => k ← index_of j (f_in f); ts !! Z.to_nat k
  | None => None
  end.
(** The tensors a function's graph has in its leaves. *)
Definition leaf_vals (f : func) (ts : list tensor) : option (list tensor) :=
  mapM (λ j, leaf_val f ts (Z.of_nat j)) (seq 0 (length (g_leaves (f_graph f)))).
Definition ref_val (lv : Z → option tensor) (nv : list (option tensor)) (r : gref) : option tensor :=
  match r with R_leaf j => lv j | R_node i => mjoin (nv !! Z.to_nat i) end.
Definition node_val (lv : Z → option tensor) (nv : list (option tensor)) (n : gnode) : option tensor :=
  ts ← mapM (ref_val lv nv) (g_in n);
  match exec (g_op n) ts with inl t => Some t | inr _ => None end.
(** Each node after the ones it reads. *)
Definition node_vals (lv : Z → option tensor) : list gnode → list (option tensor) :=
  foldl (λ nv n, nv ++ [node_val lv nv n]) [].
Definition func_val (f : func) (ts : list tensor) (r : gref) : option tensor :=
  ref_val (leaf_val f ts) (node_vals (leaf_val f ts) (g_nodes (f_graph f))) r.

(** What TensorFlow promises of a call to a function: a result for each of its
    outputs, and those that are outputs of the graph as the graph computes
    them. *)
Definition runs_graphs (call : func → list tensor → list tensor + bytes) : Prop :=
  ∀ f ts outs, call f ts = inl outs →
    length outs = length (f_out f) ∧
    ∀ k r t, f_out f !! k = Some (O_ref r) → outs !! k = Some t → func_val f ts r = Some t.

Lemma node_vals_snoc lv ns n : node_vals lv (ns ++ [n]) = node_vals lv ns ++ [node_val lv (node_vals lv ns) n].
Proof. unfold node_vals. by rewrite foldl_app. Qed.
Lemma node_vals_length lv ns : length (node_vals lv ns) = length ns.
Proof. induction ns as [|n ns IH] using rev_ind; [done|]. rewrite node_vals_snoc, !length_app, IH. done. Qed.
Lemma node_vals_lookup lv ns i n :
  ns !! i = Some n → node_vals lv ns !! i = Some (node_val lv (take i (node_vals lv ns)) n).
Proof.
  induction ns as [|m ns IH] using rev_ind; [done|]. rewrite node_vals_snoc.
  intros [Hi|[Hi Hn]]%lookup_app_Some.
  - specialize (IH Hi). pose proof (lookup_lt_Some _ _ _ Hi). rewrite lookup_app_l by (rewrite node_vals_length; lia).
    rewrite take_app_le by (rewrite node_vals_length; lia). done.
  - apply list_lookup_singleton_Some in Hn as [Hn <-]. assert (i = length (node_vals lv ns)) as -> by (rewrite node_vals_length; lia).
    rewrite take_app_length. by rewrite list_lookup_middle.
Qed.
End graphs.

Lemma index_of_Some h l i : index_of h l = Some i → (0 ≤ i)%Z ∧ l !! Z.to_nat i = Some h.
Proof.
  revert i. induction l as [|x l IH]; intros i; cbn; [done|]. case_decide as Hx.
  - intros [= <-]. by subst.
  - destruct (index_of h l) as [j|]; cbn; [|done]. intros [= <-]. destruct (IH j eq_refl) as [? Hl]. split; [lia|].
    by rewrite Z2Nat.inj_succ.
Qed.
Lemma index_of_le h l k : l !! k = Some h → ∃ i, index_of h l = Some i ∧ (Z.to_nat i ≤ k)%nat.
Proof.
  revert k. induction l as [|x l IH]; intros k Hk; [done|]. cbn. case_decide as Hx; [exists 0%Z; split; [done|cbn; lia]|].
  destruct k as [|k]; [cbn in Hk; congruence|]. destruct (IH k Hk) as (i & Hi & Hle). rewrite Hi. exists (Z.succ i). cbn.
  apply index_of_Some in Hi as [? _]. split; [done|]. rewrite Z2Nat.inj_succ by done. lia.
Qed.

(** ** A closure's function *)

Section evaluate.
Context `{TensorFlow}.

(** A closure collected from [h] in the state [s]. *)
Record closed (s : tfst) (grad_mode : bool) (h : Z) (c : Closure) : Prop := {
  cl_explored : ∃ sn, explored s grad_mode h [] (Visiting (leaves c) (nodes c) sn);
  cl_collected : h ∈ leaves c ∨ h ∈ nodes c;
  cl_keyed : keyed s c;
  cl_want : want c = wanted s h <$> nodes c;
}.

Lemma leaf_index_at s gm root c j h : closed s gm root c → leaves c !! j = Some h → leaf_index c h = Z.of_nat j.
Proof.
  intros Hc Hj. destruct (cl_explored _ _ _ _ Hc) as [sn Hx]. destruct (index_of_le _ _ _ Hj) as (j' & Hj' & _).
  unfold leaf_index. rewrite Hj'. cbn. apply index_of_Some in Hj' as [? Hj'].
  pose proof (NoDup_lookup _ _ _ _ (ex_leaves _ _ _ _ _ Hx) Hj' Hj). lia.
Qed.

(** Only the slots matter. *)
Lemma closed_same s s' grad_mode h c : slots s' = slots s → closed s grad_mode h c → closed s' grad_mode h c.
Proof.
  intros Hs [[sn [Hse Hgr Hle Hno Hdl Hdn Hto Hrd]] Hcol [Hkey Hp] Hw]. split; [|done| |].
  - exists sn. split; unfold wants; rewrite ?Hs; done.
  - split; [|by rewrite Hs]. rewrite Hkey. unfold key_pieces, key_leaf, key_node. by rewrite Hs.
  - rewrite Hw. unfold wanted. by rewrite Hs.
Qed.
Lemma described_closed s grad_mode h c :
  closed s grad_mode h c → (∀ x, kind (slots s x) = K_NODE → wf_spec (spec (slots s x))) →
  described s c (desc_of s c None).
Proof.
  intros [[sn Hx] _ Hk Hw] Hsp. apply keyed_described; [done|by rewrite Hw, length_fmap|].
  intros x Hin. apply Hsp. by apply (ex_node _ _ _ _ _ Hx x).
Qed.

Lemma sound_means s h t : sound s → kind (slots s h) ≠ K_FREE → value_of s h = Some t → means s h t.
Proof.
  intros Hs Hk Hv. destruct (kind (slots s h)) eqn:Ek; [done|by apply means_value|]. apply (sd_node _ _ (Hs h ltac:(congruence))); done.
Qed.
Lemma sound_plain s h : sound s → kind (slots s h) ≠ K_FREE → plain (slots s h).
Proof.
  intros Hs Hk _ t Hval. destruct (sd_const _ _ (Hs h Hk) t Hval) as (Hkv & Hv & Hc).
  destruct (sd_exact _ _ (Hs h Hk) t Hv) as [_ Hsh]. pose proof (sd_fits _ _ (Hs h Hk) t (sound_means _ _ _ Hs Hk Hv)) as [_ _ Hd _].
  done.
Qed.

Lemma wp_closure_of loose h grad_mode s :
  ok loose s → sound s →
  wp (closure_of h grad_mode) (λ r s', inert s s' ∧ ∀ c, r = Some c → closed s grad_mode h c) never s.
Proof.
  intros Hwf Hs. unfold closure_of. do 2 tf_step. pose proof (visit_closure loose s grad_mode h Hwf) as Hv.
  destruct (visit _ _ _ _ _) as [v|why|]; [| |done].
  - tf_step. split; [done|]. intros c [= <-]. destruct Hv as [Hx Hc]. split; cbn; [|done| |done].
    + exists (seen v). by destruct v.
    + split; [done|]. cbn. intros j Hj. apply sound_plain; [done|]. by apply (ex_leaf _ _ _ _ _ Hx).
  - tf_step. eapply wp_mono; [apply wp_tf_fail| |done]. cbv beta. intros _ s1 Hi. by tf_step.
Qed.

Context (s : tfst) (grad_mode : bool) (root : Z) (c : Closure) (f : func) (ts : list tensor).
Context (Hs : sound s) (Hc : closed s grad_mode root c).
Context (Hgraph : f_graph f = Graph ((λ h, graph_leaf (slots s h)) <$> leaves c)
                                    ((λ h, graph_node c (spec (slots s h))) <$> nodes c)).
Context (Hin : Forall2 (λ j t, ∃ h, leaves c !! Z.to_nat j = Some h ∧ value_of s h = Some t) (f_in f) ts).

Lemma leaf_means h t :
  h ∈ leaves c → leaf_val f ts (leaf_index c h) = Some t → means s h t.
Proof.
  intros Hh. destruct (cl_explored _ _ _ _ Hc) as [sn Hx].
  pose proof (proj1 (ex_leaf _ _ _ _ _ Hx h Hh)) as Hk.
  apply list_elem_of_lookup in Hh as [k Hkh]. destruct (index_of_le _ _ _ Hkh) as (j & Hj & _).
  unfold leaf_index. rewrite Hj. cbn. apply index_of_Some in Hj as [_ Hj].
  unfold leaf_val. rewrite Hgraph. cbn [g_leaves]. rewrite list_lookup_fmap, Hj. cbn.
  unfold graph_leaf. destruct (if ckey (slots s h) then val (slots s h) else None) as [t'|] eqn:Ev.
  - intros [= ->]. destruct (ckey (slots s h)) eqn:Ec; [|done].
    destruct (sd_const _ _ (Hs h Hk) t Ev) as (Hkv & Hv & _). by apply means_value.
  - destruct (index_of j (f_in f)) as [i|] eqn:Ei; cbn; [|done]. intros Ht.
    apply index_of_Some in Ei as [_ Ei]. destruct (Forall2_lookup_lr _ _ _ _ _ _ Hin Ei Ht) as (h' & Hh' & Hv).
    assert (h' = h) as -> by congruence. by apply sound_means.
Qed.

(** Every node computes what its slot stands for. *)
Lemma node_means i h t :
  nodes c !! i = Some h → func_val tf_exec f ts (R_node (Z.of_nat i)) = Some t → means s h t.
Proof.
  unfold func_val. cbn [ref_val]. rewrite Nat2Z.id. revert h t. induction (lt_wf i) as [i _ IH]. intros h t Hi.
  destruct (cl_explored _ _ _ _ Hc) as [sn Hx].
  destruct (ex_node _ _ _ _ _ Hx h) as [Hk Hleaf]; [by eapply list_elem_of_lookup_2|].
  set (ns := g_nodes (f_graph f)) in *.
  assert (ns !! i = Some (graph_node c (spec (slots s h)))) as Hn.
  { unfold ns. rewrite Hgraph. cbn. by rewrite list_lookup_fmap, Hi. }
  rewrite (node_vals_lookup _ _ _ _ _ Hn). cbn. unfold node_val. cbn [graph_node g_op g_in].
  intros (us & Hus & Ht)%bind_Some. apply means_node; [done|]. exists us. split; [|by destruct (tf_exec _ us); simplify_eq].
  apply mapM_Some in Hus. apply Forall2_fmap_l in Hus. apply Forall2_same_length_lookup in Hus as [Hlen Hus].
  apply Forall2_same_length_lookup. split; [done|]. intros k x u Hkx Hku. specialize (Hus k x u Hkx Hku) as Hxu. unfold compose in Hxu.
  apply list_elem_of_lookup_2 in Hkx as Hxin. clear Hus Hkx Hku. pose proof (ex_topo _ _ _ _ _ Hx i h x Hi Hxin) as Htopo. cbn [v_leaves v_nodes] in Htopo.
  unfold graph_ref in Hxu. destruct (decide (x ∈ leaves c)) as [Hl|Hl].
  - pose proof Hl as [k1 Hkx]%list_elem_of_lookup. destruct (index_of_le _ _ _ Hkx) as (j & Hj & _).
    unfold leaf_index in Hxu. rewrite Hj in Hxu. cbn in Hxu. rewrite decide_True in Hxu by (by apply index_of_Some in Hj as [? _]).
    apply leaf_means; [done|]. unfold leaf_index. by rewrite Hj.
  - destruct Htopo as [?|(k' & Hlt & Hk')]; [done|]. rewrite decide_False in Hxu.
    2:{ unfold leaf_index. destruct (index_of x (leaves c)) as [j|] eqn:Ej; cbn; [|lia].
        apply index_of_Some in Ej as [_ ?]. destruct Hl. by eapply list_elem_of_lookup_2. }
    destruct (index_of_le _ _ _ Hk') as (j & Hj & Hle). unfold node_index in Hxu. rewrite Hj in Hxu. cbn in Hxu.
    rewrite lookup_take_lt in Hxu by lia. apply (IH (Z.to_nat j)); [lia| |done]. by apply index_of_Some in Hj as [_ ?].
Qed.

(** ... and computes all of it. *)
Context (Hfed : f_in f = fed s (leaves c)).

Lemma fed_at j h : leaves c !! j = Some h → is_fed (slots s h) = true → Z.of_nat j ∈ fed s (leaves c).
Proof using.
  intros Hj Hf. unfold fed. apply list_elem_of_In, in_concat. exists [Z.of_nat j]. split; [|by left].
  apply list_elem_of_In, list_elem_of_lookup. exists j. by rewrite list_lookup_imap, Hj; cbn; rewrite Hf.
Qed.
Lemma leaf_computes h t :
  h ∈ leaves c → means s h t → leaf_val f ts (leaf_index c h) = Some t.
Proof.
  intros Hh Hm. destruct (cl_explored _ _ _ _ Hc) as [sn Hx].
  pose proof (proj1 (ex_leaf _ _ _ _ _ Hx h Hh)) as Hk.
  apply list_elem_of_lookup in Hh as [k Hkh]. destruct (index_of_le _ _ _ Hkh) as (j & Hj & _).
  unfold leaf_index. rewrite Hj. cbn. apply index_of_Some in Hj as [Hj0 Hj].
  unfold leaf_val. rewrite Hgraph. cbn [g_leaves]. rewrite list_lookup_fmap, Hj. cbn.
  unfold graph_leaf. destruct (if ckey (slots s h) then val (slots s h) else None) as [u|] eqn:Ev.
  - destruct (ckey (slots s h)); [|done]. destruct (sd_const _ _ (Hs h Hk) u Ev) as (_ & Hv & _).
    f_equal. eapply means_det; [|exact Hm]. by apply sound_means.
  - pose proof (fed_at _ _ Hj ltac:(unfold is_fed; by rewrite Ev)) as Hin'. rewrite Z2Nat.id in Hin' by done.
    rewrite <- Hfed in Hin'. apply list_elem_of_lookup in Hin' as [k' Hk']. destruct (index_of_le _ _ _ Hk') as (i & Hi & _).
    rewrite Hi. cbn. apply index_of_Some in Hi as [_ Hi]. destruct (Forall2_lookup_l _ _ _ _ _ Hin Hi) as (u & Hu & h' & Hh' & Hv).
    assert (h' = h) as -> by congruence. rewrite Hu. f_equal. eapply means_det; [|exact Hm]. by apply sound_means.
Qed.
Lemma node_computes i h t :
  nodes c !! i = Some h → means s h t → func_val tf_exec f ts (R_node (Z.of_nat i)) = Some t.
Proof.
  unfold func_val. cbn [ref_val]. rewrite Nat2Z.id. revert h t. induction (lt_wf i) as [i _ IH]. intros h t Hi Hm.
  destruct (cl_explored _ _ _ _ Hc) as [sn Hx].
  destruct (ex_node _ _ _ _ _ Hx h) as [Hk Hleaf]; [by eapply list_elem_of_lookup_2|].
  set (ns := g_nodes (f_graph f)) in *.
  assert (ns !! i = Some (graph_node c (spec (slots s h)))) as Hn.
  { unfold ns. rewrite Hgraph. cbn. by rewrite list_lookup_fmap, Hi. }
  rewrite (node_vals_lookup _ _ _ _ _ Hn). cbn. unfold node_val. cbn [graph_node g_op g_in].
  apply means_node in Hm as (us & Hus & Ht); [|done]. apply bind_Some. exists us. split; [|by rewrite Ht].
  apply mapM_Some, Forall2_fmap_l. apply Forall2_same_length_lookup in Hus as [Hlen Hus].
  apply Forall2_same_length_lookup. split; [done|]. intros k x u Hkx Hku. specialize (Hus k x u Hkx Hku) as Hxu. unfold compose.
  apply list_elem_of_lookup_2 in Hkx as Hxin. clear Hus Hkx Hku. pose proof (ex_topo _ _ _ _ _ Hx i h x Hi Hxin) as Htopo.
  cbn [v_leaves v_nodes] in Htopo. unfold graph_ref. destruct (decide (x ∈ leaves c)) as [Hl|Hl].
  - pose proof (leaf_computes x u Hl Hxu) as Hlv. pose proof Hl as [k1 Hkx]%list_elem_of_lookup.
    destruct (index_of_le _ _ _ Hkx) as (j & Hj & _). unfold leaf_index in *. rewrite Hj in *. cbn in *.
    by rewrite decide_True by (by apply index_of_Some in Hj as [? _]).
  - destruct Htopo as [?|(k' & Hlt & Hk')]; [done|]. rewrite decide_False.
    2:{ unfold leaf_index. destruct (index_of x (leaves c)) as [j|] eqn:Ej; cbn; [|lia].
        apply index_of_Some in Ej as [_ ?]. destruct Hl. by eapply list_elem_of_lookup_2. }
    destruct (index_of_le _ _ _ Hk') as (j & Hj & Hle). unfold node_index. rewrite Hj. cbn.
    rewrite lookup_take_lt by lia. apply (IH (Z.to_nat j)) with (h := x); [lia| |done]. by apply index_of_Some in Hj as [_ ?].
Qed.
End evaluate.

(** What TensorFlow promises of the shapes it infers: given arguments of the
    placeholders' sizes, the sizes it knows are those of the result. *)
Definition infers `{TensorFlow} : Prop := ∀ f ts r t dims,
  (∀ j dt sh u, g_leaves (f_graph f) !! j = Some (G_placeholder dt sh) → leaf_val f ts (Z.of_nat j) = Some u → t_dims u = sh) →
  func_val tf_exec f ts r = Some t → tf_infer (f_graph f) r = Some dims →
  Forall2 (λ d e, (d < 0)%Z ∨ d = e) dims (t_dims t).
