(* ===== verification/Running.v ===== *)
(** * Running a closure

    A read of a recorded tensor compiles and calls the closure under it
    ([run_closure], [execute] in modules/tensorflow/backend.c), gives the
    wanted nodes their values and drops the structure nothing needs any more.
    What the program's tensors stand for is kept throughout. *)
From Stdlib Require Import Floats.SpecFloat Sorting.Sorted.
From S2P Require Import Prelude Effect Float Tensor Closure Compile Shape Producer Slots Table Meaning Visit Key Frame Cached Described Evaluate.

Section running.
Context `{TensorFlow}.
Implicit Types s : tfst.

(** Recorded recipes are made of the names the producers use. *)
Definition specs (s : tfst) : Prop := ∀ h, kind (slots s h) = K_NODE → wf_spec (spec (slots s h)).

(** ** What settling leaves *)

(** Nothing new: slots evolve or vanish, those the program names stay. *)
Record settles (s s' : tfst) : Prop := {
  se_evolves : evolves s s';
  se_live : ∀ i, kind (slots s' i) ≠ K_FREE → kind (slots s i) ≠ K_FREE;
  se_exists : ∀ i, exists_ s i = true → exists_ s' i = true;
  se_names : ∀ i, exists_ s' i = true → exists_ s i = true;
  se_entries : entries s' = entries s;
}.
Lemma settles_sound loose loose' s s' : ok loose s → ok loose' s' → settles s s' → sound s → sound s'.
Proof.
  intros Hwf Hwf' [He Hl _ _ _] Hs. eapply (evolves_sound loose loose'); [done..|]. intros i Hk Hf. by apply Hl in Hk.
Qed.
Lemma settles_specs s s' : settles s s' → specs s → specs s'.
Proof.
  intros [He Hl _ _ _] Hs i Hk. destruct (ev_becomes _ _ _ (He i ltac:(congruence) (Hl i ltac:(congruence)))) as [(Hki & Hsp & _)|(_ & ? & _)]; [|congruence].
  rewrite Hsp. apply Hs. congruence.
Qed.
Lemma settles_keeps loose loose' s s' : ok loose s → ok loose' s' → settles s s' → keeps s s'.
Proof. intros Hwf Hwf' [He _ Hx _ _]. by eapply evolves_keeps. Qed.
Lemma settles_means loose loose' s s' h t :
  ok loose s → ok loose' s' → settles s s' → kind (slots s' h) ≠ K_FREE → means s h t → means s' h t.
Proof. intros Hwf Hwf' [He Hl _ _ _] Hk Hm. by apply (evolves_means loose loose' s s' h t); auto. Qed.

(** A step that only touches [h]. *)
Lemma steps_settles s s' h :
  steps (only h) s s' → (kind (slots s' h) ≠ K_FREE → kind (slots s h) ≠ K_FREE ∧ evolved s s' h) →
  (exists_ s h = true ↔ exists_ s' h = true) → settles s s'.
Proof.
  intros Hst Hh Hx. assert (∀ i, i = h ∨ i ≠ h) as Hdec by (intros i; destruct (decide (i = h)); auto). split.
  - eapply steps_evolves; [exact Hst| |exact Hdec]. intros i -> Hk _. by apply Hh.
  - intros i Hk. destruct (Hdec i) as [->|Hi]; [by apply Hh|by apply (st_slot _ _ _ Hst i)].
  - intros i Hi. destruct (Hdec i) as [->|Hne]; [by apply Hx|by apply (st_named _ _ _ Hst)].
  - intros i Hi. destruct (Hdec i) as [->|Hne]; [by apply Hx|by eapply steps_names].
  - apply Hst.
Qed.

Definition unused (s : tfst) (h : Z) : Prop := ∀ n, h ∉ edges None (slots s) n.
Lemma settles_unused s s' h : settles s s' → unused s h → unused s' h.
Proof.
  intros [He Hl _ _ _] Hu n Hn. unfold edges in Hn. case_decide as Hd; [|by apply elem_of_nil in Hn]. destruct Hd as [_ Hk].
  assert (kind (slots s' n) ≠ K_FREE) as Hk' by congruence.
  destruct (ev_becomes _ _ _ (He n Hk' (Hl n Hk'))) as [(Hki & Hsp & _)|(_ & ? & _)]; [|congruence].
  apply (Hu n). unfold edges. rewrite decide_True by (split; [done|congruence]). by rewrite <- Hsp.
Qed.

(** Named slots that have values keep having them. *)
Definition has_kept (s s' : tfst) : Prop := ∀ h, exists_ s h = true → value_of s h ≠ None → value_of s' h ≠ None.

(** A run: what the program names keeps its meaning and its value; but for the
    slots [R], what nothing reads is left as it was. *)
Record ran (R : Z → Prop) (s s' : tfst) : Prop := {
  rn_keeps : keeps s s';
  rn_values : has_kept s s';
  rn_still : ∀ h, ¬ R h → exists_ s h = true → unused s h → stays s s' h ∧ unused s' h;
  rn_names : ∀ h, exists_ s' h = true → exists_ s h = true;
  rn_mode : graph_mode s' = graph_mode s;
}.
Lemma ran_refl R s : ran R s s.
Proof. split; [reflexivity|by intros ?|auto using stays_refl|done|done]. Qed.
Lemma ran_trans R s s' s'' : ran R s s' → ran R s' s'' → ran R s s''.
Proof.
  intros [Hk Hv Hs Hn Hm] [Hk' Hv' Hs' Hn' Hm']. split; [by etrans| | |auto|congruence].
  - intros h Hx Hh. apply Hv'; [by apply Hk|]. by apply Hv.
  - intros h Hr Hx Hu. destruct (Hs h Hr Hx Hu) as [Hst Hu']. destruct (Hs' h Hr) as [Hst' Hu'']; [by apply Hk|done|].
    split; [by eapply stays_trans|done].
Qed.
Lemma ran_weaken (R R' : Z → Prop) s s' : (∀ i, R i → R' i) → ran R s s' → ran R' s s'.
Proof. intros Hr [Hk Hv Hs Hn Hm]. split; auto. Qed.
Lemma ran_any R s s' : ran none s s' → ran R s s'.
Proof. by apply ran_weaken. Qed.
Lemma ran_l R s s' s'' : ran none s s' → ran R s' s'' → ran R s s''.
Proof. intros Ha. by apply ran_trans, ran_any. Qed.
(** A step away from what the program has values of, but for [h]. *)
Lemma settles_ran loose loose' s s' h R :
  ok loose s → ok loose' s' → steps (only h) s s' → settles s s' → R h →
  (exists_ s' h = true → value_of s h ≠ None → value_of s' h ≠ None) → ran R s s'.
Proof.
  intros Hwf Hwf' Hst Hse Hr Hv. split; [exact (settles_keeps _ _ _ _ Hwf Hwf' Hse)| | |apply Hse|apply Hst].
  - intros i Hx%(se_exists _ _ Hse) Hi. destruct (decide (i = h)) as [->|Hne]; [auto|].
    destruct (st_slot _ _ _ Hst i Hne) as [_ [_ ->]]; [by apply exists_live|done].
  - intros i Hri Hx Hu. assert (i ≠ h) as Hne by (intros ->; done). apply (se_exists _ _ Hse) in Hx.
    split; [|by eapply settles_unused]. by apply (st_slot _ _ _ Hst i Hne), exists_live.
Qed.

(** ** A result taken *)

(** The body of [take_results]' loop. *)
Definition take_result (h : Z) (r : nat) : T unit :=
  take_handle h r ;;
  bump_exe ;;
  s <- slot h ;;
  when (negb (under_param s) || is_param s) (drop_structure h).

Lemma wp_take_result loose h r t s :
  ok (r :: loose) s → sound s → kind (slots s h) = K_NODE → hs s !! r = Some t → means s h t →
  wp (take_result h r) (λ _ s', ok loose s' ∧ steps (only h) s s' ∧ settles s s' ∧ hs s' ⊆ hs s ∧
    (kind (slots s' h) ≠ K_FREE → value_of s' h = Some t)) never s.
Proof.
  intros Hwf Hs Hk Hr Hm. unfold take_result. tf_step.
  eapply wp_mono; [by apply wp_take_handle| |done]. cbv beta. intros _ s1 (Hwf1 & Hst1 & E1 & Hr1 & Hsub1).
  unfold bump_exe. do 4 tf_step. set (s2 := set_stats _ _ _ s1).
  assert (ok loose s2) as Hwf2 by (eapply wf_same; [exact Hwf1|done..|exact (wf_cursor _ _ _ _ _ Hwf1)]).
  assert (steps (only h) s s2) as Hst2 by (eapply steps_none_r; [exact Hst1|by apply steps_same]).
  assert (slots s2 h = set_shape_from_tensor t (set_eh (Some r) (slots s h))) as E2 by exact E1.
  assert (value_of s2 h = Some t) as Hv2 by (unfold value_of; rewrite E2; exact Hr1).
  pose proof (outlined_taken s s2 h (Some r) t Hm E2) as Ho2.
  assert (exists_ s h = true ↔ exists_ s2 h = true) as Hx2.
  { rewrite !exists_spec. rewrite E2. done. }
  apply wp_when; intros Hdrop.
  - eapply wp_mono; [apply (wp_drop_structure loose); [done|by rewrite E2|by rewrite E2]| |done].
    cbv beta. intros _ s3 (Hwf3 & Hst3 & Hset & Hx3 & Hsub3).
    assert (steps (only h) s s3) as Hst by (eapply steps_weaken; [|by eapply steps_trans]; cbn; tauto).
    split_and!; [done|done| |by etrans|].
    + apply steps_settles with (h := h); [done| |by rewrite Hx2]. intros Hk3. split; [congruence|]. destruct (Hset Hk3) as [Hk' Hv' _ _ Hc' Hval' Hsh' Hd' Hsk'].
      split; [by rewrite Hc', E2|by rewrite Hval', E2| | |].
      * apply (outlined_then s s2); [done|done|done|done|congruence].
      * intros _. rewrite Hsh', E2. apply take_bound.
      * right. split_and!; [done|done|]. exists t. split; [congruence|done].
    + intros Hk3. destruct (Hset Hk3) as [_ Hv' _ _ _ _]. congruence.
  - split_and!; [done|done| |done|done]. apply steps_settles with (h := h); [done| |done].
    intros _. split; [congruence|]. split; rewrite ?E2; [done|done|done|intros _; apply take_bound|]. left. split_and!; [done..|]. right.
    split; [done|]. intros t'. rewrite Hv2. by intros [= <-].
Qed.

(** ** All results taken *)

(** The closure's nodes from the [m]-th on are still what they were; each of
    them but the root is read by a later one. *)
Record unsettled (sp : Z → OpSpec) (ns : list Z) (root : Z) (m : nat) (s : tfst) : Prop := {
  us_node : ∀ k x, m ≤ k → ns !! k = Some x → kind (slots s x) = K_NODE ∧ spec (slots s x) = sp x;
  us_root : exists_ s root = true;
}.
Definition read_later (sp : Z → OpSpec) (ns : list Z) (root : Z) : Prop := ∀ k x,
  ns !! k = Some x → x = root ∨ ∃ k' y, (k < k')%nat ∧ ns !! k' = Some y ∧ x ∈ ins (sp y).

Lemma unsettled_next sp ns root loose m i h s s' :
  read_later sp ns root → NoDup ns → unsettled sp ns root m s → m ≤ i → ns !! i = Some h →
  ok loose s' → steps (only h) s s' → exists_ s' root = true →
  unsettled sp ns root (S i) s'.
Proof.
  intros Hrd Hnd [Hn _] Hm Hi Hwf Hst Hx. split; [|done].
  assert (∀ d k x, length ns - k ≤ d → S i ≤ k → ns !! k = Some x →
            kind (slots s' x) = K_NODE ∧ spec (slots s' x) = sp x) as Hgo; [|by intros; eapply Hgo].
  induction d as [|d IH]; intros k x Hd Hk Hx'; pose proof (lookup_lt_Some _ _ _ Hx') as Hlt; [lia|].
  assert (x ≠ h) as Hne.
  { intros ->. pose proof (NoDup_lookup _ _ _ _ Hnd Hi Hx'). lia. }
  assert (kind (slots s' x) ≠ K_FREE) as Hl.
  { destruct (Hrd k x Hx') as [->|(k' & y & Hlt' & Hy & Hin)]; [by apply exists_live|].
    destruct (IH k' y ltac:(lia) ltac:(lia) Hy) as [Hky Hsy].
    apply (node_input_live loose s' y); [done|done|by rewrite Hsy]. }
  destruct (st_slot _ _ _ Hst x Hne Hl) as [_ [[r Hr] _]]. rewrite Hr. apply (Hn k); [lia|done].
Qed.

Lemma hs_kept loose e t s s' : ok loose s' → e ∈ loose → hs s' ⊆ hs s → hs s !! e = Some t → hs s' !! e = Some t.
Proof.
  intros Hwf Hin Hsub He. destruct (owned_loose_live _ _ e (wf_owned _ _ _ _ _ Hwf) Hin) as [t' Ht'].
  rewrite Ht'. pose proof (lookup_weaken _ _ _ _ Ht' Hsub). congruence.
Qed.
Lemma ok_perm loose loose' s : loose ≡ₚ loose' → ok loose s → ok loose' s.
Proof. intros Hp []. split; [done|by eapply owned_perm|done]. Qed.

(** The result [p] is the [p.1]-th node's: its handle holds what that stands
    for. *)
Definition result_at (ns : list Z) (s : tfst) (p : Z * nat) : Prop :=
  ∃ h t, ns !! Z.to_nat p.1 = Some h ∧ hs s !! p.2 = Some t ∧ means s h t.

Lemma wp_take_results c sp root loose l m s :
  read_later sp (nodes c) root → NoDup (nodes c) →
  ok (l.*2 ++ loose) s → sound s → specs s → unsettled sp (nodes c) root m s →
  Forall (λ p : Z * nat, (Z.of_nat m ≤ p.1)%Z) l → StronglySorted Z.lt l.*1 → Forall (result_at (nodes c) s) l →
  wp (take_results c l) (λ _ s', ok loose s' ∧ sound s' ∧ specs s' ∧ ran (λ i, i ∈ nodes c) s s' ∧ entries s' = entries s ∧
    hs s' ⊆ hs s ∧ (∀ h, h ∉ nodes c → exists_ s h = true → stays s s' h) ∧
    ∀ p h, p ∈ l → nodes c !! Z.to_nat p.1 = Some h → exists_ s h = true → value_of s' h ≠ None) never s.
Proof.
  intros Hrd Hnd. revert m s. induction l as [|[i r] l IH]; intros m s Hwf Hs Hsp Hus Hm Hso Hres.
  { unfold take_results. cbn [for_each]. tf_step. split_and!; [done..|apply ran_refl|done|done|intros; apply stays_refl|by intros ? ? ?%elem_of_nil]. }
  cbn [fmap list_fmap fst snd] in Hwf, Hso. inversion Hm as [|? ? Hmi Hml]. inversion Hres as [|? ? Hr Hrl]. subst. cbn in Hmi.
  apply StronglySorted_inv in Hso as [Hso Hlt].
  destruct Hr as (h & t & Hih & Ht & Hmean). cbn [fst snd] in Hih, Ht.
  unfold take_results. cbn [for_each]. tf_step. rewrite Hih. cbn [default].
  destruct (us_node _ _ _ _ _ Hus (Z.to_nat i) h ltac:(lia) Hih) as [Hk _].
  eapply wp_mono; [apply (wp_take_result (l.*2 ++ loose) h r t); [exact Hwf|done..]| |done].
  cbv beta. intros _ s1 (Hwf1 & Hst1 & Hset1 & Hsub1 & Hv1).
  pose proof (settles_sound _ _ _ _ Hwf Hwf1 Hset1 Hs) as Hs1. pose proof (settles_specs _ _ Hset1 Hsp) as Hsp1.
  assert (unsettled sp (nodes c) root (S (Z.to_nat i)) s1) as Hus1.
  { eapply unsettled_next; [done|done|done| |exact Hih|done|done|]; [lia|]. apply (se_exists _ _ Hset1), Hus. }
  assert (Forall (λ p : Z * nat, (Z.of_nat (S (Z.to_nat i)) ≤ p.1)%Z) l) as Hml1.
  { rewrite Forall_fmap in Hlt. eapply Forall_impl; [exact Hlt|]. cbn. intros p. lia. }
  assert (Forall (result_at (nodes c) s1) l) as Hrl1.
  { rewrite Forall_forall in Hrl, Hml1 |- *. intros p Hp. destruct (Hrl p Hp) as (h' & t' & Hh' & Ht' & Hm').
    exists h', t'. split; [done|]. specialize (Hml1 p Hp). split.
    - eapply hs_kept; [exact Hwf1| |done|exact Ht']. apply elem_of_app. left. apply list_elem_of_fmap. by exists p.
    - eapply (settles_means _ _ s); [exact Hwf|exact Hwf1|done| |done].
      by rewrite (proj1 (us_node _ _ _ _ _ Hus1 (Z.to_nat p.1) h' ltac:(lia) Hh')). }
  eapply wp_mono; [apply (IH (S (Z.to_nat i))); done| |done].
  cbv beta. intros _ s2 (Hwf2 & Hs2 & Hsp2 & Hrn2 & He2 & Hsub2 & Hst2 & Hall).
  assert (exists_ s h = true → value_of s2 h ≠ None) as Hvh.
  { intros Hx%(se_exists _ _ Hset1). apply (rn_values _ _ _ Hrn2); [done|]. rewrite Hv1; [done|by apply exists_live]. }
  split_and!; [done..| |rewrite He2; apply Hset1|by etrans| |].
  { eapply ran_trans; [|exact Hrn2]. eapply settles_ran; [exact Hwf|exact Hwf1|exact Hst1|done| |].
    - by eapply list_elem_of_lookup_2.
    - intros Hx _. rewrite Hv1; [done|by apply exists_live]. }
  { intros i' Hi' Hx'. apply (se_exists _ _ Hset1) in Hx' as Hx1.
    eapply stays_trans; [apply (st_slot _ _ _ Hst1); [|by apply exists_live]|by apply Hst2].
    intros ->. apply Hi'. by eapply list_elem_of_lookup_2. }
  intros p h' [->|Hp]%elem_of_cons Hh' Hx'.
  - cbn in Hh'. assert (h' = h) as -> by congruence. auto.
  - eapply Hall; [exact Hp|done|]. by apply (se_exists _ _ Hset1).
Qed.

(** ** The call *)

Definition holds_at (s : tfst) (o : option nat) (t : tensor) : Prop := ∃ e, o = Some e ∧ hs s !! e = Some t.

Lemma wp_add_inputs l s :
  Forall (λ o, ∃ t, holds_at s o t) l →
  wp (add_inputs l) (λ r s', inert s s' ∧ ∀ ts, r = Some ts → Forall2 (holds_at s) l ts) never s.
Proof.
  intros Hl. revert s Hl. induction l as [|o l IH]; intros s Hl; cbn [add_inputs].
  { tf_step. split; [done|]. by intros ts [= <-]. }
  inversion Hl as [|? ? (t & e & -> & He) Hl']. subst. tf_step. eapply wp_mono; [apply wp_bad| |done].
  cbv beta. intros b s1 Hi. destruct b; [by tf_step|]. tf_step.
  eapply wp_mono; [apply (wp_held_by e t); by rewrite (in_hs _ _ Hi)| |done]. cbv beta. intros ? ? [-> ->].
  tf_step. eapply wp_mono; [apply IH| |done].
  { eapply Forall_impl; [exact Hl'|]. intros o (u & e' & -> & ?). exists u, e'. by rewrite (in_hs _ _ Hi). }
  cbv beta. intros [ts|] s2 [Hi2 Hr]; cycle 1. { split; [by etrans|done]. }
  tf_step. split; [by etrans|]. intros us [= <-]. constructor; [by exists e|].
  eapply Forall2_impl; [by apply Hr|]. intros o u (e' & -> & ?). exists e'. by rewrite <- (in_hs _ _ Hi).
Qed.

(** New handles under way, and nothing else. *)
Record arrived (rs : list nat) (ts : list tensor) (s s' : tfst) : Prop := {
  ar_held : Forall2 (λ r t, hs s' !! r = Some t) rs ts;
  ar_old : hs s ⊆ hs s';
  ar_slots : slots s' = slots s;
  ar_entries : entries s' = entries s;
  ar_steps : ∀ N, steps N s s';
}.
Lemma wp_new_handles ts loose s :
  ok loose s → wp (new_handles ts) (λ rs s', ok (rs ++ loose) s' ∧ arrived rs ts s s') never s.
Proof.
  revert loose s. induction ts as [|t ts IH]; intros loose s Hwf; cbn [new_handles].
  { tf_step. split; [done|]. split; auto using steps_refl. }
  tf_step. eapply wp_mono; [by apply wp_new_handle| |done]. cbv beta. intros e s1 [Hwf1 Hmd]. fold new_handles.
  tf_step. eapply wp_mono; [by apply IH| |done]. cbv beta. intros rs s2 [Hwf2 [Hh Ho Hsl He Hst]]. tf_step.
  split; [eapply ok_perm; [|exact Hwf2]; apply Permutation_sym, Permutation_middle|].
  destruct Hmd as [Hm1 Hm2 Hm3 Hm4 Hm5 Hm6]. split; [..|intros N; eapply steps_none_r; [eapply made_steps; [exact Hwf|by split]|done]]; try congruence.
  - constructor; [|done]. eapply lookup_weaken; [|exact Ho]. rewrite Hm1. apply lookup_insert_eq.
  - etrans; [|exact Ho]. rewrite Hm1. by apply insert_subseteq.
Qed.

(** The arguments: what each fed leaf holds. *)
Definition args_of (s : tfst) (c : Closure) (ins : list Z) (ts : list tensor) : Prop :=
  Forall2 (λ j t, ∃ h, leaves c !! Z.to_nat j = Some h ∧ value_of s h = Some t) ins ts.

Lemma wp_call_function c x f loose s :
  ok loose s → Forall (λ j, ∃ h t, leaves c !! Z.to_nat j = Some h ∧ value_of s h = Some t) (in_leaf x) →
  wp (call_function c x f) (λ r s', match r with
    | Some rs => ok (rs ++ loose) s' ∧ ∃ ts outs, args_of s c (in_leaf x) ts ∧ tf_call f ts = inl outs ∧ arrived rs outs s s'
    | None => inert s s'
    end) never s.
Proof.
  intros Hwf Hin. unfold call_function. tf_step. eapply wp_mono; [apply wp_bad| |done].
  cbv beta. intros b s1 Hi1. destruct b; [by tf_step|]. do 3 tf_step.
  eapply wp_mono; [apply wp_add_inputs| |done].
  { rewrite Forall_fmap. eapply Forall_impl; [exact Hin|]. cbn. intros j (h & t & Hj & Hv). rewrite Hj. cbn.
    exists t. unfold holds_at. rewrite (in_slots _ _ Hi1), (in_hs _ _ Hi1). unfold value_of in Hv.
    by apply bind_Some in Hv. }
  cbv beta. intros [ts|] s2 [Hi2 Hr]; cycle 1. { by etrans. }
  assert (args_of s c (in_leaf x) ts) as Hargs.
  { specialize (Hr ts eq_refl). rewrite Forall2_fmap_l in Hr. unfold args_of.
    apply Forall2_same_length_lookup in Hr as [Hlen Hr]. apply Forall2_same_length_lookup. split; [done|].
    intros k j t Hj Ht. destruct (Hr k j t Hj Ht) as (e & He & Ht'). rewrite Forall_lookup in Hin.
    destruct (Hin k j Hj) as (h & t' & Hh & _). exists h. split; [done|]. unfold value_of. rewrite Hh in He. cbn in He.
    rewrite (in_slots _ _ Hi1) in He. rewrite He. cbn. by rewrite <- (in_hs _ _ Hi1). }
  tf_step. eapply wp_mono; [apply wp_bad| |done]. cbv beta. intros b s3 Hi3.
  assert (inert s s3) as Hi by (etrans; [exact Hi1|]; by etrans). destruct b; [by tf_step|].
  destruct (tf_call f ts) as [outs|why] eqn:Ec.
  - tf_step. eapply wp_mono; [apply (wp_new_handles outs loose)| |done].
    { by eapply inert_wf. }
    cbv beta. intros rs s4 [Hwf4 [Hh Ho Hsl He Hst]]. tf_step. split; [done|]. exists ts, outs. split; [done|]. split; [done|].
    split; [done|by rewrite <- (in_hs _ _ Hi)|by rewrite Hsl, (in_slots _ _ Hi)|by rewrite He, (in_entries _ _ Hi)|].
    intros N. eapply steps_none_l; [by apply inert_steps|apply Hst].
  - tf_step. eapply wp_mono; [apply wp_tf_fail| |done]. cbv beta. intros _ s4 Hi4. tf_step. by etrans.
Qed.
End running.
