(* ===== verification/Reading.v ===== *)
(** * Reading a tensor

    [tfb_force] and [tfb_values] of modules/tensorflow/backend.c: whatever way
    a tensor was made, recorded or computed, a read answers what it stands
    for. *)
From Stdlib Require Import Floats.SpecFloat Sorting.Sorted.
From S2P Require Import Prelude Effect Float Tensor Closure Compile Shape Producer Slots Table Meaning Visit Key Frame Cached Described Evaluate Running.

(** The nodes that are results: in order, and the last one is the last. *)
Lemma out_nodes_snoc ws w : out_nodes (ws ++ [w]) = out_nodes ws ++ (if w then [Z.of_nat (length ws)] else []).
Proof. unfold out_nodes. rewrite imap_app, concat_app. cbn. rewrite app_nil_r. by rewrite Nat.add_0_r. Qed.
Lemma out_nodes_in ws i : i ∈ out_nodes ws → (0 ≤ i < Z.of_nat (length ws))%Z.
Proof.
  induction ws as [|w ws IH] using rev_ind; [by intros ?%elem_of_nil|]. rewrite out_nodes_snoc, length_app. cbn.
  intros [Hi|Hi]%elem_of_app; [specialize (IH Hi); lia|]. destruct w; [|by apply elem_of_nil in Hi].
  apply list_elem_of_singleton in Hi. lia.
Qed.
Lemma out_nodes_want ws i : ws !! i = Some true → Z.of_nat i ∈ out_nodes ws.
Proof.
  intros Hi. unfold out_nodes. apply list_elem_of_In, in_concat. exists [Z.of_nat i]. split; [|by left].
  apply list_elem_of_In, list_elem_of_lookup. exists i. by rewrite list_lookup_imap, Hi.
Qed.
Lemma out_nodes_sorted ws : StronglySorted Z.lt (out_nodes ws).
Proof.
  induction ws as [|w ws IH] using rev_ind; [constructor|]. rewrite out_nodes_snoc. destruct w; [|by rewrite app_nil_r].
  assert (Forall (λ i, i < Z.of_nat (length ws))%Z (out_nodes ws)) as Hlt.
  { apply Forall_forall. intros i Hi%out_nodes_in. lia. }
  revert IH Hlt. generalize (out_nodes ws). induction l as [|i l IH]; intros Hs Hl; cbn; [repeat constructor|].
  apply StronglySorted_inv in Hs as [Hs Hi]. inversion Hl. subst. constructor; [auto|]. apply Forall_app. auto.
Qed.

Section reading.
Context `{TensorFlow}.
Implicit Types s : tfst.

(** The invariant of the back end. *)
Record good (loose : list nat) (s : tfst) : Prop := {
  gd_ok : ok loose s;
  gd_sound : sound s;
  gd_specs : specs s;
  gd_entries : entries_ok s;
}.

(** ** A function for an entry *)

Lemma entries_ok_alter s s' g e x d :
  entries s' = alter g e (entries s) → entries s !! e = Some x → entry_ok d (g x) → entries_ok s →
  entries_ok s' ∧ entries s' !! e = Some (g x).
Proof.
  unfold entries_ok. intros -> Hx Hg Ho. split; [|by rewrite list_lookup_alter_eq, Hx].
  rewrite Forall_lookup in Ho |- *. intros i y. destruct (decide (i = e)) as [->|Hi].
  - rewrite list_lookup_alter_eq, Hx. intros [= <-] _. by exists d.
  - rewrite list_lookup_alter_ne by done. apply Ho.
Qed.
Definition grads_placed (x : Entry) : list Z := place_grads (Z.of_nat (length (out_node x))) (grads x).
Lemma entry_ok_grad_at d x : entry_ok d x → entry_ok d (set_grad_at (grads_placed x) x).
Proof. intros []. split; try done. intros f Hf. split_and!; [by apply eo_fn..|done]. Qed.
Lemma entry_ok_noutputs d x n : entry_ok d x → entry_ok d (set_noutputs n x).
Proof. intros []. split; done. Qed.
Lemma entry_ok_fn d x n :
  entry_ok d x → grad_at x = grads_placed x → entry_ok d (set_fn (Some (Func n (e_graph x) (in_leaf x) (function_outs x))) x).
Proof. intros [] Hg. split; try done. by intros f [= <-]. Qed.

Lemma wp_entry_function e x d s :
  entries s !! e = Some x → entry_ok d x → entries_ok s →
  wp (entry_function e) (λ b s', quiet s s' ∧ entries_ok s' ∧
    ∃ x', entries s' !! e = Some x' ∧ entry_ok d x' ∧ (b = true → fn x' ≠ None)) never s.
Proof.
  intros Hx Hd Ho. unfold entry_function, entry. do 3 tf_step. rewrite Hx. tf_step. cbv beta.
  case_decide as Hf. { tf_step. split; [done|]. split; [done|]. by exists x. }
  unfold upd_entry. do 6 tf_step. cbn [fncount set_entries set_counts].
  fold (grads_placed x). set (x1 := set_grad_at (grads_placed x) x).
  set (s1 := set_counts _ _ _).
  destruct (entries_ok_alter s s1 (set_grad_at (grads_placed x)) e x d)
    as [Ho1 Hx1]; [done|done|by apply entry_ok_grad_at|done|]. fold x1 in Hx1.
  assert (quiet s s1) as Hq1 by done. clearbody s1. pose proof (entry_ok_grad_at d x Hd) as Hd1. fold x1 in Hd1.
  tf_step. eapply wp_mono; [apply wp_bad| |done]. cbv beta. intros b s2 Hi2. pose proof (in_entries _ _ Hi2) as He2.
  apply inert_quiet in Hi2 as Hq2. destruct b.
  { tf_step. split; [by etrans|]. split; [by eapply entries_ok_same|]. exists x1. by rewrite He2. }
  do 2 tf_step.
  assert (∀ s3, s3 = set_entries (alter (set_fn (Some (Func (fncount s) (e_graph x) (in_leaf x) (function_outs x)))) e (entries s2)) s2 →
    entries_ok s3 ∧ entries s3 !! e = Some (set_fn (Some (Func (fncount s) (e_graph x1) (in_leaf x1) (function_outs x1))) x1)) as Hs3.
  { intros s3 ->. eapply (entries_ok_alter s2); [done|by rewrite He2|by apply entry_ok_fn|by eapply entries_ok_same]. }
  set (s3 := set_entries _ s2). destruct (Hs3 s3 eq_refl) as [Ho3 Hx3]. set (x3 := set_fn _ x1) in Hx3.
  assert (entry_ok d x3) as Hd3 by by apply entry_ok_fn. assert (quiet s2 s3) as Hq3 by done. clearbody s3.
  tf_step. eapply wp_mono; [apply wp_bad| |done]. cbv beta. intros b s4 Hi4. pose proof (in_entries _ _ Hi4) as He4.
  apply inert_quiet in Hi4 as Hq4. assert (quiet s s4) as Hq by (etrans; [exact Hq1|]; etrans; [exact Hq2|]; by etrans).
  destruct b.
  { tf_step. split; [done|]. split; [by eapply entries_ok_same|]. exists x3. by rewrite He4. }
  do 3 tf_step. set (s5 := set_entries _ s4).
  destruct (entries_ok_alter s4 s5 (set_noutputs (Z.of_nat (length (function_outs x)))) e x3 d) as [Ho5 Hx5];
    [done|by rewrite He4|by apply entry_ok_noutputs|by eapply entries_ok_same|].
  split; [etrans; [exact Hq|done]|]. split; [done|]. eexists. split; [exact Hx5|]. split; [by apply entry_ok_noutputs|done].
Qed.

(** ** The invariant along quiet steps *)

Lemma steps_none_settles s s' : steps none s s' → settles s s'.
Proof.
  intros Hst. split.
  - eapply steps_evolves; [exact Hst|done|tauto].
  - intros i Hi. apply (st_slot _ _ _ Hst i ltac:(tauto) Hi).
  - intros i Hi. apply (st_named _ _ _ Hst i ltac:(tauto) Hi).
  - intros i. apply (steps_names none); [done|tauto].
  - apply Hst.
Qed.
Lemma settles_good loose loose' s s' : good loose s → ok loose' s' → settles s s' → good loose' s'.
Proof.
  intros [Hwf Hs Hsp He] Hwf' Hse. split; [done| | |].
  - exact (settles_sound _ _ _ _ Hwf Hwf' Hse Hs).
  - by eapply settles_specs.
  - eapply entries_ok_same; [apply Hse|done].
Qed.
Lemma steps_none_good loose loose' s s' :
  good loose s → ok loose' s' → steps none s s' → good loose' s' ∧ ran none s s'.
Proof.
  intros Hg Hwf' Hst. pose proof (steps_none_settles _ _ Hst) as Hse. split; [by eapply settles_good|].
  assert (∀ h, exists_ s h = true → stays s s' h) as Hstay.
  { intros h Hx%(se_exists _ _ Hse). by apply (st_slot _ _ _ Hst h ltac:(tauto)), exists_live. }
  split; [exact (settles_keeps _ _ _ _ (gd_ok _ _ Hg) Hwf' Hse)| | |apply Hse|apply Hst].
  - intros h Hx. destruct (Hstay h Hx) as [_ ->]. done.
  - intros h _ Hx Hu. split; [auto|by eapply settles_unused].
Qed.
Lemma inert_good loose s s' : good loose s → inert s s' → good loose s' ∧ ran none s s'.
Proof.
  intros Hg Hi. eapply steps_none_good; [exact Hg| |by apply inert_steps]. eapply inert_wf; [exact Hi|apply Hg].
Qed.
Lemma quiet_good loose s s' : good loose s → quiet s s' → entries_ok s' → good loose s' ∧ ran none s s'.
Proof.
  intros [Hwf Hs Hsp _] Hq He. split; [split; [by eapply quiet_ok| | |done]|].
  - eapply sound_same; [apply Hq|apply Hq|done].
  - intros i. rewrite (qt_slots _ _ Hq). apply Hsp.
  - assert (∀ h, value_of s' h = value_of s h) as Hv by (intros h; unfold value_of; by rewrite (qt_slots _ _ Hq), (qt_hs _ _ Hq)).
    split; [apply keeps_same; apply Hq| | |intros h; by rewrite !exists_spec, (qt_slots _ _ Hq)|apply Hq].
    + intros h _. by rewrite Hv.
    + intros h _ _ Hu. split; [split; [|done]|unfold unused; by rewrite (qt_slots _ _ Hq)].
      exists (refs (slots s h)). by rewrite set_refs_id, (qt_slots _ _ Hq).
Qed.

(** ** Running the closure of a tensor *)

(** The root comes last, and is a result unless it has its value. *)
Lemma closed_root s gm root c loose :
  ok loose s → closed s gm root c → nodes c ≠ [] →
  NoDup (nodes c) ∧ read_later (λ x, spec (slots s x)) (nodes c) root ∧ last (nodes c) = Some root.
Proof.
  intros Hwf [[sn Hx] Hcol _ Hw] Hn.
  assert (read_later (λ x, spec (slots s x)) (nodes c) root) as Hrd.
  { intros k x Hk. destruct (ex_read _ _ _ _ _ Hx k x Hk) as [[?|(g & Hg & _)]|?]; [by left|by apply elem_of_nil in Hg|by right]. }
  split_and!; [exact (ex_nodes _ _ _ _ _ Hx)|done|].
  destruct (last (nodes c)) as [x|] eqn:El; [|by apply last_None in El]. f_equal.
  rewrite last_lookup in El. destruct (Hrd _ _ El) as [|(k' & y & Hlt & Hy & _)]; [done|].
  apply lookup_lt_Some in Hy. lia.
Qed.
Lemma node_wanted s gm root c k h :
  closed s gm root c → nodes c !! k = Some h → wanted s root h = true → Z.of_nat k ∈ out_nodes (want c).
Proof. intros [_ _ _ Hw] Hk Hh. apply out_nodes_want. by rewrite Hw, list_lookup_fmap, Hk; cbn; rewrite Hh. Qed.
(** A node under way to a value that the program names is wanted. *)
Lemma named_wanted s root h : exists_ s h = true → eh (slots s h) = None → wanted s root h = true.
Proof.
  intros (_ & _ & Hr)%exists_spec He. unfold wanted. by rewrite He, Hr.
Qed.

Lemma leaf_value loose s grad_mode h :
  ok loose s → kind (slots s h) ≠ K_FREE → is_leaf grad_mode (slots s h) = true → ∃ t, value_of s h = Some t.
Proof.
  intros Hwf Hk Hl. pose proof (wf_counted _ _ _ _ _ Hwf) as C.
  assert (eh (slots s h) ≠ None) as He.
  { unfold is_leaf in Hl. apply orb_true_iff in Hl as [Hv%bool_decide_eq_true|Hl]; [by apply (c_value _ _ _ _ C)|].
    by apply andb_prop in Hl as [?%bool_decide_eq_true _]. }
  destruct (eh (slots s h)) as [e|] eqn:Ee; [|done]. unfold value_of. rewrite Ee. cbn.
  apply (owned_slot_live _ _ h e (wf_owned _ _ _ _ _ Hwf)); [by apply (c_table _ _ _ _ C)|done].
Qed.
Lemma fed_leaf s ls j : j ∈ fed s ls → ∃ h, ls !! Z.to_nat j = Some h.
Proof.
  unfold fed. intros (l & Hl & Hj)%list_elem_of_In%in_concat. apply list_elem_of_In in Hl, Hj.
  apply list_elem_of_lookup in Hl as [k Hk].
  apply list_lookup_imap_Some in Hk as (h & Hh & ->). destruct (is_fed _); [|by apply elem_of_nil in Hj].
  apply list_elem_of_singleton in Hj as ->. exists h. by rewrite Nat2Z.id.
Qed.
Lemma closed_args s gm root c loose :
  ok loose s → closed s gm root c →
  Forall (λ j, ∃ h t, leaves c !! Z.to_nat j = Some h ∧ value_of s h = Some t) (fed s (leaves c)).
Proof.
  intros Hwf [[sn Hx] _ _ _]. apply Forall_forall. intros j [h Hh]%fed_leaf.
  destruct (ex_leaf _ _ _ _ _ Hx h) as [Hk Hl]; [by eapply list_elem_of_lookup_2|].
  destruct (leaf_value _ _ _ _ Hwf Hk Hl) as [t Ht]. by exists h, t.
Qed.

(** TensorFlow runs a function as its graph says. *)
Context (Hruns : runs_graphs tf_exec tf_call).

(** The call's results are what the wanted nodes stand for. *)
Lemma call_results s s' gm root c f ts outs rs ws gs :
  sound s → closed s gm root c → want c = ws →
  f_graph f = Graph ((λ h, graph_leaf (slots s h)) <$> leaves c) ((λ h, graph_node c (spec (slots s h))) <$> nodes c) →
  args_of s c (f_in f) ts → f_out f = ((λ i, O_ref (R_node i)) <$> out_nodes ws) ++ gs →
  tf_call f ts = inl outs → Forall2 (λ r t, hs s' !! r = Some t) rs outs → slots s' = slots s →
  (∀ h t, kind (slots s h) ≠ K_FREE → means s h t → means s' h t) →
  length rs = length (out_nodes ws) + length gs ∧ Forall (result_at (nodes c) s') (zip (out_nodes ws) rs).
Proof.
  intros Hs Hc Hw Hg Hargs Hout Hcall Hrs Hsl Hm. destruct (Hruns _ _ _ Hcall) as [Hlen Hval].
  apply Forall2_same_length_lookup in Hrs as [Hlr Hrs]. rewrite Hout, length_app, length_fmap in Hlen.
  split; [congruence|].
  apply Forall_lookup. intros k [i r] [Hi Hr]%lookup_zip_Some.
  destruct (cl_explored _ _ _ _ Hc) as [sn Hx].
  pose proof (out_nodes_in ws i ltac:(by eapply list_elem_of_lookup_2)) as Hib.
  destruct (lookup_lt_is_Some_2 (nodes c) (Z.to_nat i)) as [h Hh].
  { rewrite <- (length_fmap (wanted s root)), <- (cl_want _ _ _ _ Hc), Hw. lia. }
  destruct (lookup_lt_is_Some_2 outs k) as [t Ht]. { rewrite <- Hlr. by eapply lookup_lt_Some. }
  exists h, t. cbn. split; [done|]. split; [by apply (Hrs k)|].
  apply Hm. { destruct (ex_node _ _ _ _ _ Hx h) as [-> _]; [by eapply list_elem_of_lookup_2|done]. }
  eapply (node_means s gm root c f ts); [done|done|done|done|exact Hh|].
  rewrite Z2Nat.id by lia. apply (Hval k); [|done]. rewrite Hout. apply lookup_app_l_Some. by rewrite list_lookup_fmap, Hi.
Qed.

(** The root is read by nothing in its closure, nor is anything unused. *)
Lemma unused_outside s gm root c loose h :
  ok loose s → closed s gm root c → unused s h → h ≠ root → h ∉ nodes c.
Proof.
  intros Hwf [[sn Hx] _ _ _] Hu Hne Hin. apply list_elem_of_lookup in Hin as [k Hk].
  destruct (ex_read _ _ _ _ _ Hx k h Hk) as [[?|(g & Hg & _)]|(k' & y & _ & Hy & Hyin)]; [done|by apply elem_of_nil in Hg|].
  apply (Hu y). unfold edges. destruct (ex_node _ _ _ _ _ Hx y) as [Hky _]; [by eapply list_elem_of_lookup_2|].
  by rewrite decide_True.
Qed.

Lemma unvalued_wanted loose s gm root c h :
  ok loose s → closed s gm root c → h ∈ nodes c → exists_ s h = true → value_of s h = None →
  ∃ k, nodes c !! k = Some h ∧ Z.of_nat k ∈ out_nodes (want c).
Proof.
  intros Hwf Hc Hh Hx Hv. apply list_elem_of_lookup in Hh as [k Hk]. exists k. split; [done|].
  apply (node_wanted s gm root c k h Hc Hk), named_wanted; [done|].
  destruct (eh (slots s h)) as [e|] eqn:Ee; [|done]. unfold value_of in Hv. rewrite Ee in Hv. cbn in Hv.
  destruct (owned_slot_live _ _ h e (wf_owned _ _ _ _ _ Hwf)) as [t Ht]; [|done|congruence].
  apply (c_table _ _ _ _ (wf_counted _ _ _ _ _ Hwf)). by apply exists_live.
Qed.

(** The function made for a closure, called on what the closure stands for:
    handles on its results, those of the wanted nodes first. *)
Definition called (s : tfst) (c : Closure) (f : func) (rs : list nat) (s' : tfst) : Prop := ∃ ts outs,
  args_of s c (f_in f) ts ∧ tf_call f ts = inl outs ∧ Forall2 (λ r t, hs s' !! r = Some t) rs outs.
Lemma wp_call_closure loose s s1 gm root c d x f :
  good loose s → closed s gm root c → depicted s c d → entry_ok d x → fn x = Some f →
  good loose s1 → quiet s s1 →
  wp (call_function c x f) (λ r s', match r with
    | Some rs => good (rs ++ loose) s' ∧ ran none s1 s' ∧ slots s' = slots s ∧ entries s' = entries s1 ∧
                 (∀ h, exists_ s h = true → stays s s' h) ∧
                 length rs = length (out_nodes (want c)) + length (omap id (grads x)) ∧
                 Forall (result_at (nodes c) s') (zip (out_nodes (want c)) rs) ∧ called s c f rs s'
    | None => inert s1 s'
    end) never s1.
Proof.
  intros Hg Hc Hd Hok Ef Hg1 Hq. destruct (eo_fn _ _ Hok f Ef) as (Hfg & Hfi & Hfo & _).
  assert (∀ h, value_of s1 h = value_of s h) as Hv1 by (intros h; unfold value_of; by rewrite (qt_slots _ _ Hq), (qt_hs _ _ Hq)).
  assert (in_leaf x = fed s (leaves c)) as Hinl by (by rewrite (eo_in _ _ Hok), (ds_in _ _ _ Hd)).
  eapply wp_mono; [apply (wp_call_function c x f loose); [apply Hg1|]| |done].
  { rewrite Hinl. eapply Forall_impl; [by eapply closed_args, Hc; apply Hg|]. cbn. intros j (h & t & ? & ?).
    exists h, t. by rewrite Hv1. }
  cbv beta. intros [rs|] s2; [|done]. intros (Hwf2 & ts & outs & Hargs & Hcall & Harr).
  destruct (steps_none_good _ _ _ _ Hg1 Hwf2) as [Hg2 Hk2]; [apply Harr|].
  assert (slots s2 = slots s) as Hsl by (by rewrite (ar_slots _ _ _ _ Harr), (qt_slots _ _ Hq)). do 3 (split; [done|]).
  split; [apply Harr|]. split.
  { intros h Hh. split; [exists (refs (slots s h)); by rewrite set_refs_id, Hsl|]. rewrite <- Hv1.
    apply (ar_steps _ _ _ _ Harr none); [tauto|]. rewrite Hsl. by apply exists_live. }
  assert (args_of s c (f_in f) ts) as Hargs'.
  { rewrite Hfi. eapply Forall2_impl; [exact Hargs|]. cbn. intros j t (h & ? & ?). exists h. by rewrite <- Hv1. }
  enough (length rs = length (out_nodes (want c)) + length (omap id (grads x)) ∧
    Forall (result_at (nodes c) s2) (zip (out_nodes (want c)) rs)) as [Hl Hr].
  { split; [done|]. split; [done|]. exists ts, outs. split; [done|]. split; [done|apply Harr]. }
  apply (call_results s s2 gm root c f ts outs rs (want c) (omap id (grads x))); try done.
  - apply Hg.
  - by rewrite Hfg, (eo_graph _ _ Hok), (ds_graph _ _ _ Hd).
  - by rewrite Hfo, <- (ds_out _ _ _ Hd), <- (eo_out _ _ Hok).
  - apply Harr.
  - intros h t Hkh Hm. assert (means s1 h t) as Hm1 by (apply (means_same s s1); [exact (qt_slots _ _ Hq)|exact (qt_hs _ _ Hq)|done]).
    eapply (settles_means _ _ s1); [apply Hg1|exact Hwf2|apply steps_none_settles, Harr| |done].
    by rewrite Hsl.
Qed.

(** What the call gave is taken by the nodes it is of; nothing else is
    touched, but to be let go. *)
Record taken (s : tfst) (root : Z) (c : Closure) (s' : tfst) : Prop := {
  tk_ran : ran (λ i, i ∈ nodes c) s s';
  tk_other : ∀ h, h ∉ nodes c → exists_ s h = true → stays s s' h;
  tk_value : ∀ h, h ∈ nodes c → exists_ s h = true → value_of s' h ≠ None;
}.
Lemma wp_take_closure loose0 loose s s2 gm root c rs :
  good loose0 s → closed s gm root c → nodes c ≠ [] → good (rs ++ loose) s2 → slots s2 = slots s → exists_ s root = true →
  length (out_nodes (want c)) = length rs → Forall (result_at (nodes c) s2) (zip (out_nodes (want c)) rs) →
  wp (take_results c (zip (out_nodes (want c)) rs)) (λ _ s3, good loose s3 ∧ entries s3 = entries s2 ∧ hs s3 ⊆ hs s2 ∧
    taken s2 root c s3) never s2.
Proof.
  intros Hg Hc Hn Hg2 Hsl Hx Hlen Hres. destruct (closed_root _ _ _ _ _ (gd_ok _ _ Hg) Hc Hn) as (Hnd & Hrd & Hlast).
  assert ((zip (out_nodes (want c)) rs).*2 = rs) as Hsnd by (apply snd_zip; lia).
  assert ((zip (out_nodes (want c)) rs).*1 = out_nodes (want c)) as Hfst by (apply fst_zip; lia).
  assert (∀ h, exists_ s2 h = exists_ s h) as Hxs by (intros h; unfold exists_, is_live; by rewrite Hsl).
  eapply wp_mono; [apply (wp_take_results c (λ x, spec (slots s x)) root loose _ 0)| |done]; rewrite ?Hsnd, ?Hfst; try done.
  { apply Hg2. } { apply Hg2. } { apply Hg2. }
  { split; [|by rewrite Hxs]. intros k y _ Hy. rewrite Hsl. split; [|done]. destruct (cl_explored _ _ _ _ Hc) as [sn Hxp].
    apply (ex_node _ _ _ _ _ Hxp y). by eapply list_elem_of_lookup_2. }
  { apply Forall_fmap with (f := fst) (P := λ i, (0 ≤ i)%Z). rewrite Hfst. apply Forall_forall. intros i Hi%out_nodes_in. lia. }
  { apply out_nodes_sorted. }
  cbv beta. intros _ s3 (Hwf3 & Hs3 & Hsp3 & Hk3 & He3 & Hsub3 & Hst3 & Hall3).
  split; [split; [done..|by eapply entries_ok_same, Hg2]|]. do 2 (split; [done|]). split; [done|done|].
  intros h Hh Hxh. destruct (value_of s2 h) as [t|] eqn:Ev; [apply (rn_values _ _ _ Hk3); [done|by rewrite Ev]|].
  destruct (unvalued_wanted _ s2 gm root c h (gd_ok _ _ Hg2)) as (k & Hk & Hw); [by eapply closed_same|done..|].
  rewrite <- Hfst in Hw. apply list_elem_of_fmap in Hw as (p & Hp1 & Hp). apply (Hall3 p); [done| |done]. by rewrite <- Hp1, Nat2Z.id.
Qed.

(** The results that are gradients, handed on. *)
Record handed (s : tfst) (c : Closure) (x : Entry) (rs : list nat) (s' : tfst) : Prop := {
  hd_length : length rs = length (omap id (grads x));
  hd_held : ∀ k r, rs !! k = Some r → ∃ f ts outs t, fn x = Some f ∧ args_of s c (f_in f) ts ∧ tf_call f ts = inl outs ∧
    outs !! (length (out_node x) + k) = Some t ∧ hs s' !! r = Some t;
}.
(** The call, if there is anything to call for, and its results taken. *)
Definition call_and_take (c : Closure) (x : Entry) : T (option (list (option nat))) :=
  if decide (0 < noutputs x)%Z then
    match fn x with
    | None => undefined
    | Some f =>
        rs <-? call_function c x f ;;
        take_results c (zip (out_node x) rs) ;;
        ret (Some (replicate (length (out_node x)) None ++ (Some <$> drop (length (out_node x)) rs)))
    end
  else ret (Some []).
Lemma taken_after s s1 s2 root c s3 :
  ran none s s1 → ran none s1 s2 → (∀ h, exists_ s h = true → stays s s2 h) → taken s2 root c s3 → taken s root c s3.
Proof.
  intros Hk1 Hk2 Hst [Hk3 Ho Hv]. pose proof (ran_l _ _ _ _ Hk1 Hk2) as Hk.
  split; [by eapply ran_l| |].
  - intros h Hh Hx. eapply stays_trans; [by apply Hst|]. apply Ho; [done|]. by apply (rn_keeps _ _ _ Hk).
  - intros h Hh Hx. apply Hv; [done|]. by apply (rn_keeps _ _ _ Hk).
Qed.
Lemma wp_call_and_take loose s s1 gm root c d x f :
  good loose s → closed s gm root c → nodes c ≠ [] → exists_ s root = true → depicted s c d → entry_ok d x → fn x = Some f →
  noutputs x = Z.of_nat (length (function_outs x)) → good loose s1 → quiet s s1 → ran none s s1 →
  wp (call_and_take c x) (λ r s3, match r with
    | Some rets => ∃ rs, rets = replicate (length (out_node x)) None ++ (Some <$> rs) ∧ good (rs ++ loose) s3 ∧
                         entries s3 = entries s1 ∧ taken s root c s3 ∧ handed s c x rs s3
    | None => good loose s3 ∧ ran none s s3
    end) never s1.
Proof.
  intros Hg Hc Hn Hx Hd Hok Ef Hno Hg1 Hq Hk1. assert (out_node x = out_nodes (want c)) as Hon by by rewrite (eo_out _ _ Hok), (ds_out _ _ _ Hd).
  unfold call_and_take. unfold function_outs in Hno. rewrite length_app, length_fmap, Hon in Hno. rewrite Ef, Hon. case_decide as Hpos; cycle 1.
  { tf_step. assert (out_nodes (want c) = []) as Hw by (apply nil_length_inv; lia).
    assert (omap id (grads x) = []) as Hgr by (apply nil_length_inv; lia).
    exists []. rewrite Hw. split; [done|]. split; [done|]. split; [done|]. split; [|split; [by rewrite Hgr|done]].
    split; [by apply ran_any| |].
    - intros h _ _. split; [exists (refs (slots s h)); by rewrite set_refs_id, (qt_slots _ _ Hq)|].
      unfold value_of. by rewrite (qt_slots _ _ Hq), (qt_hs _ _ Hq).
    - intros h Hh Hxh. apply (rn_values _ _ _ Hk1); [done|]. intros Hv.
      destruct (unvalued_wanted _ s gm root c h (gd_ok _ _ Hg) Hc Hh Hxh Hv) as (k & _ & Hkw). rewrite Hw in Hkw. by apply elem_of_nil in Hkw. }
  tf_step. eapply wp_mono; [by eapply (wp_call_closure loose s s1)| |done]. cbv beta. intros [rs|] s2; cycle 1.
  { intros Hi. destruct (inert_good _ _ _ Hg1 Hi). split; [done|by eapply ran_l]. }
  intros (Hg2 & Hk2 & Hsl2 & He2 & Hst2 & Hlen & Hres & ts & outs & Hargs & Hcall & Hheld). set (n := length (out_nodes (want c))) in *.
  rewrite <- zip_with_take_r in Hres |- *. fold n in Hres |- *.
  assert (ok (take n rs ++ drop n rs ++ loose) s2) as Hok2 by (rewrite app_assoc, take_drop; apply Hg2).
  tf_step. eapply wp_mono; [eapply (wp_take_closure loose (drop n rs ++ loose) s s2 gm root c (take n rs)); try done| |done].
  { by rewrite app_assoc, take_drop. }
  { rewrite length_take. lia. }
  cbv beta. intros _ s3 (Hg3 & He3 & Hsub3 & Htk3). tf_step. exists (drop n rs). split; [done|]. split; [done|].
  split; [congruence|]. split; [by eapply taken_after|]. split; [rewrite length_drop; lia|].
  intros k r Hr. assert (r ∈ drop n rs) as Hin by by eapply list_elem_of_lookup_2. rewrite lookup_drop in Hr.
  destruct (Forall2_lookup_l _ _ _ _ _ Hheld Hr) as (t & Ht & Hrt). exists f, ts, outs, t. split_and!; try done.
  { by rewrite Hon. }
  eapply hs_kept; [apply Hg3|apply elem_of_app; by left|done|done].
Qed.

(** One call of a closure's function, up to the gradients. *)
Lemma ensures_execute_with loose s gm root c d e x ps Q :
  good loose s → closed s gm root c → nodes c ≠ [] → exists_ s root = true →
  depicted s c d → entries s !! e = Some x → entry_ok d x →
  (∀ s', good loose s' → ran none s s' → Q None s') →
  (∀ x' rs s', good (rs ++ loose) s' → taken s root c s' → entries s' !! e = Some x' → entry_ok d x' → handed s c x' rs s' →
    ensures (take_grads (replicate (length (out_node x')) None ++ (Some <$> rs)) (zip ps (grads_placed x')) []) Q s') →
  ensures (execute c e ps) Q s.
Proof.
  intros Hg Hc Hn Hx Hd He Hok Hnone Hgo. unfold execute. apply ensures_bind; [intros; grows|]. apply ensures_wp.
  eapply wp_mono; [apply (wp_entry_function e x d); [done|done|apply Hg]| |done].
  cbv beta. intros b s1 (Hq & He1 & x1 & Hx1 & Hd1 & Hb). destruct (quiet_good _ _ _ Hg Hq He1) as [Hg1 Hk1].
  destruct b; cbn [negb]; cycle 1. { apply ensures_ret. intros _. by apply Hnone. }
  specialize (Hb eq_refl). apply ensures_sane; [grows|]. intros Hsane.
  destruct (entries_ok_lookup _ _ _ He1 Hsane Hx1) as [[_ Hno] _]. destruct Hno as [?|Hno]; [done|].
  destruct (fn x1) as [f|] eqn:Ef; [|done]. destruct (eo_fn _ _ Hd1 f Ef) as (_ & _ & _ & Hpl).
  apply ensures_bind; [intros; grows|]. apply ensures_wp. unfold entry. do 2 tf_step. rewrite Hx1. tf_step. cbv beta.
  rewrite Hpl. change (place_grads _ (grads x1)) with (grads_placed x1). fold (call_and_take c x1).
  apply ensures_bindo; [intros; grows|]. apply ensures_wp. eapply wp_mono; [eapply (wp_call_and_take loose s s1 gm root c d x1 f); try done| |done].
  cbv beta. intros [rets|] s3; [|intros []; by apply Hnone]. intros (rs & -> & Hg3 & He3 & Htk & Hh). apply Hgo; try done. congruence.
Qed.

(** ... which are none, when none were asked for. *)
Lemma ensures_execute loose s gm root c d e x :
  good loose s → closed s gm root c → nodes c ≠ [] → exists_ s root = true →
  depicted s c d → d_grads d = None → entries s !! e = Some x → entry_ok d x →
  ensures (execute c e []) (λ r s', good loose s' ∧ ran (λ i, r ≠ None ∧ i = root) s s' ∧
    (r ≠ None → value_of s' root ≠ None)) s.
Proof.
  intros Hg Hc Hn Hx Hd Hdg He Hok. eapply ensures_execute_with; try done.
  { intros s' Hg' Hk'. split; [done|]. split; [by apply ran_any|done]. }
  intros x' rs s' Hg' [Hk Ho Hv] He' Hok' [Hl _]. apply ensures_ret. intros _.
  pose proof (eo_grads _ _ Hok') as Hgr. unfold grads_ok in Hgr. rewrite Hdg in Hgr. rewrite Hgr in Hl. apply nil_length_inv in Hl as ->.
  split; [done|]. destruct (closed_root _ _ _ _ _ (gd_ok _ _ Hg) Hc Hn) as (_ & _ & Hlast). split.
  - destruct Hk as [Hkk Hkv Hks Hkn Hkm]. split; [done..| |done|done]. intros h Hr Hxh Hu. destruct (decide (h = root)) as [->|Hne]; [by destruct Hr|].
    apply Hks; [|done..]. by eapply unused_outside; [apply Hg|..].
  - intros _. apply Hv; [by eapply last_Some_elem_of|done].
Qed.

Lemma ensures_run_closure loose h s :
  good loose s → exists_ s h = true →
  ensures (run_closure h) (λ b s', good loose s' ∧ ran (λ i, b = true ∧ i = h) s s' ∧ (b = true → value_of s' h ≠ None)) s.
Proof.
  intros Hg Hx. unfold run_closure. apply ensures_bindb; [intros; grows|]. apply ensures_wp.
  eapply wp_mono; [apply (wp_closure_of loose); apply Hg| |done].
  cbv beta. intros [c|] s1 [Hi Hc]; destruct (inert_good _ _ _ Hg Hi) as [Hg1 Hk1]; [|split; [done|]; by split; [apply ran_any|]].
  specialize (Hc c eq_refl). case_decide as Hn.
  - apply ensures_ret. intros _. split; [done|]. split; [by apply ran_any|]. intros _.
    apply nil_length_inv in Hn. destruct (cl_collected _ _ _ _ Hc) as [Hl|Hl]; [|rewrite Hn in Hl; by apply elem_of_nil in Hl].
    destruct (cl_explored _ _ _ _ Hc) as [sn Hxp]. destruct (ex_leaf _ _ _ _ _ Hxp h Hl) as [Hk Hlf].
    destruct (leaf_value _ _ _ _ (gd_ok _ _ Hg) Hk Hlf) as [t Ht]. unfold value_of in *.
    by rewrite (in_slots _ _ Hi), (in_hs _ _ Hi), Ht.
  - assert (nodes c ≠ []) as Hne by (by destruct (nodes c)).
    assert (closed s1 false h c) as Hc1 by (eapply closed_same; [apply Hi|done]).
    assert (exists_ s1 h = true) as Hx1 by by apply (rn_keeps _ _ _ Hk1).
    pose proof (described_closed _ _ _ _ Hc1 (gd_specs _ _ Hg1)) as Hd.
    apply ensures_bindb; [intros [? ?]; grows|].
    eapply ensures_mono; [apply (ensures_entry_for c _ _ (gd_entries _ _ Hg1) Hd eq_refl)|].
    cbv beta. intros [[e b]|] s2 _ (Hq & He2 & Hr); destruct (quiet_good _ _ _ Hg1 Hq He2) as [Hg2 Hk2]; cycle 1.
    { split; [done|]. split; [apply ran_any; by eapply ran_l|done]. }
    destruct (Hr e b eq_refl) as (x & Hex & Hok). cbn [fst snd].
    apply ensures_bind; [intros; grows|]. eapply ensures_mono.
    { eapply (ensures_execute loose s2 false h c); [done| |done|by apply (rn_keeps _ _ _ Hk2)| | |exact Hex|exact Hok].
      - eapply closed_same; [apply Hq|done].
      - eapply described_same; [apply Hq|done].
      - done. }
    cbv beta. intros r s3 _ (Hg3 & Hk3 & Hv3). apply ensures_bind; [intros; grows|]. apply ensures_wp.
    apply wp_when; intros Hwhen.
    + unfold bump_rep. tf_step. apply ensures_ret. intros _. destruct (quiet_good loose s3 (set_stats (stat_rec s3) (stat_exe s3) (stat_rep s3 + 1) s3) Hg3) as [Hg4 Hk4].
      { by split. } { eapply entries_ok_same; [done|apply Hg3]. }
      split; [done|]. pose proof (ran_l _ _ _ _ (ran_l _ _ _ _ Hk1 Hk2) (ran_trans _ _ _ _ Hk3 (ran_any _ _ _ Hk4))) as Hk.
      split; [|by intros ?%bool_decide_eq_true; auto]. eapply ran_weaken; [|exact Hk]. intros i. by rewrite bool_decide_eq_true.
    + apply ensures_ret. intros _. split; [done|]. pose proof (ran_l _ _ _ _ (ran_l _ _ _ _ Hk1 Hk2) Hk3) as Hk.
      split; [|by intros ?%bool_decide_eq_true; auto]. eapply ran_weaken; [|exact Hk]. intros i. by rewrite bool_decide_eq_true.
Qed.


Lemma ensures_tfb_force loose h s :
  good loose s →
  ensures (tfb_force h) (λ b s', good loose s' ∧ ran (λ i, b = true ∧ i = h) s s' ∧
    (b = true → exists_ s h = true ∧ value_of s' h ≠ None)) s.
Proof.
  intros Hg. unfold tfb_force. apply ensures_bind; [intros; grows|]. apply ensures_wp. tf_step.
  destruct (exists_ s h) eqn:Hx; cbn [negb]; [|by apply ensures_ret; split; [done|split; [apply ran_refl|done]]].
  apply ensures_bind; [intros; grows|]. apply ensures_wp. tf_step. case_decide as He.
  - eapply ensures_mono; [by apply ensures_run_closure|]. cbv beta. naive_solver.
  - apply ensures_ret. intros _. split; [done|]. split; [apply ran_refl|]. intros _. split; [done|].
    destruct (eh (slots s h)) as [e|] eqn:Ee; [|done]. unfold value_of. rewrite Ee. cbn.
    destruct (owned_slot_live _ _ h e (wf_owned _ _ _ _ _ (gd_ok _ _ Hg))) as [t ->]; [|done..].
    apply (c_table _ _ _ _ (wf_counted _ _ _ _ _ (gd_ok _ _ Hg))). by apply exists_live.
Qed.

(** A read answers what the tensor stands for. *)
Lemma ensures_tfb_values h s :
  good [] s →
  ensures (tfb_values h) (λ r s', good [] s' ∧ ran (λ i, i = h) s s' ∧
    ∀ v, r = Some v → exists_ s h = true ∧ ∃ t, means s h t ∧ v = (as_double <$> t_data t, t_dims t)) s.
Proof.
  intros Hg. unfold tfb_values. apply ensures_bind; [intros; grows|]. apply ensures_wp. tf_step.
  destruct (exists_ s h) eqn:Hx; cbn [negb]; cycle 1.
  { apply ensures_wp. tf_step. eapply wp_mono; [apply wp_tf_fail| |done]. cbv beta. intros _ s1 Hi. tf_step.
    destruct (inert_good _ _ _ Hg Hi). split; [done|]. by split; [apply ran_any|]. }
  apply ensures_bind; [intros; grows|]. eapply ensures_mono; [by apply ensures_tfb_force|].
  cbv beta. intros b s1 _ (Hg1 & Hk1 & Hv1). assert (ran (λ i, i = h) s s1) as Hkh by (eapply ran_weaken; [|exact Hk1]; by intros i []).
  destruct b; cbn [negb]; [|by apply ensures_ret].
  destruct (Hv1 eq_refl) as [_ Hv]. apply ensures_wp. do 2 tf_step.
  destruct (rn_keeps _ _ _ Hk1 h Hx) as [Hx1 Hm1]. pose proof (exists_live _ _ Hx1) as Hl1.
  destruct (value_of s1 h) as [t|] eqn:Ev; [|done]. pose proof (sound_means _ _ _ (gd_sound _ _ Hg1) Hl1 Ev) as Hmt.
  unfold value_of in Ev. destruct (eh (slots s1 h)) as [e|] eqn:Ee; [|done]. cbn in Ev.
  tf_step. eapply wp_mono; [apply wp_bad| |done]. cbv beta. intros b s2 Hi.
  destruct (inert_good _ _ _ Hg1 Hi) as [Hg2 Hk2]. assert (ran (λ i, i = h) s s2) as Hk by (eapply ran_trans; [exact Hkh|by apply ran_any]). destruct b; [by tf_step|].
  tf_step. eapply wp_mono; [apply (wp_held_by e t); by rewrite (in_hs _ _ Hi)| |done]. cbv beta. intros ? ? [-> ->].
  apply wp_if; intros _.
  - tf_step. split; [done|]. split; [done|]. intros v [= <-]. split; [done|]. exists t. split; [by apply Hm1|done].
  - tf_step. eapply wp_mono; [apply wp_tf_fail| |done]. cbv beta. intros _ s3 Hi3. tf_step.
    destruct (inert_good _ _ _ Hg2 Hi3). split; [done|]. split; [eapply ran_trans; [exact Hk|by apply ran_any]|done].
Qed.
End reading.
