(* ===== verification/Recorded.v ===== *)
(** * Recording an operation, or executing it

    [run_spec] of modules/tensorflow/backend.c records an operation or, when
    graph mode is off, executes it at once.  Either way the new tensor stands
    for the same: the operation on what its inputs stand for. *)
From Stdlib Require Import Floats.SpecFloat.
From S2P Require Import Prelude Effect Float Tensor Closure Compile Shape Producer Slots Table Record Meaning Typed Visit Key Frame Cached Described Evaluate Running Reading.

Section recorded.
Context `{TensorFlow}.
Implicit Types s : tfst.
Context (Hruns : runs_graphs tf_exec tf_call).

(** No shape TensorFlow infers has more sizes than there is room for. *)
Definition flat : Prop := ∀ g r dims, tf_infer g r = Some dims → length dims ≤ TF_MAXDIM.
Context (Hflat : flat) (Hinfer : infers) (Hdoc : documented).

(** ** Shapes *)

(** A live slot changed in what the table, the handles and meanings do not
    look at. *)
Record same_but_shape (x y : TfSlot) : Prop := {
  sb_kind : kind y = kind x;
  sb_eh : eh y = eh x;
  sb_val : val y = val x;
  sb_spec : spec y = spec x;
  sb_refs : refs y = refs x;
  sb_released : released y = released x;
  sb_ckey : ckey y = ckey x;
}.
Lemma set_shape_same dims x : same_but_shape x (set_shape_known true (set_shape dims x)).
Proof. by split. Qed.

Lemma put_live loose s h f :
  ok loose s → kind (slots s h) ≠ K_FREE → same_but_shape (slots s h) (f (slots s h)) →
  ok loose (upd_slots h f s) ∧ steps (only h) s (upd_slots h f s).
Proof using.
  intros Hwf Hk [Hki He Hv Hsp Hr Hrel Hck]. set (s' := upd_slots h f s).
  pose proof (upd_slots_put h f s) as Hp. fold s' in Hp. split; [|eapply steps_put; [exact Hp|done..]].
  eapply wf_put_live; [exact Hwf|exact Hp|done|done|done|done|done| |done..|].
  - rewrite Hki, He. apply (c_value _ _ _ _ (wf_counted _ _ _ _ _ Hwf)).
  - intros e. by rewrite He.
Qed.
Lemma upd_good loose s s' h f R :
  good loose s → s' = upd_slots h f s → kind (slots s h) ≠ K_FREE → same_but_shape (slots s h) (f (slots s h)) →
  outlined s s' h → (length (shape (slots s h)) ≤ TF_MAXDIM → length (shape (f (slots s h))) ≤ TF_MAXDIM) → R h →
  good loose s' ∧ ran R s s'.
Proof using.
  intros Hg -> Hk Hsb Hout Hroom HR. destruct (put_live _ _ _ _ (gd_ok _ _ Hg) Hk Hsb) as [Hwf' Hst].
  pose proof (is_put_at _ _ _ _ (upd_slots_put h f s)) as E. destruct Hsb as [Hki He Hv Hsp Hr Hrel Hck].
  assert (value_of (upd_slots h f s) h = value_of s h) as Ev by (unfold value_of; by rewrite E, He).
  assert (settles s (upd_slots h f s)) as Hse.
  { apply steps_settles with (h := h); [done| |].
    - intros _. split; [done|]. split; [by rewrite E|by rewrite E|done|by rewrite E|]. left. rewrite E, Hki, Hsp. auto.
    - rewrite !exists_spec, E, Hki, Hrel. done. }
  split; [by eapply settles_good|]. eapply settles_ran; [apply Hg|exact Hwf'|exact Hst|done|exact HR|]. intros _. by rewrite Ev.
Qed.

(** Sizes given to a node that has no value. *)
Lemma outlined_shaped s s' h sh :
  value_of s h = None → slots s' h = set_shape_known true (set_shape sh (slots s h)) → hs s' = hs s →
  (∀ t, means s h t → agrees sh (t_dims t)) → outlined s s' h.
Proof using.
  intros Hv Hs Hh Ha t Hm [Hr Hp Hd _]. rewrite Hs. split; [by split; [..|auto]|].
  intros _. unfold value_of in *. rewrite Hs, Hh. cbn. by rewrite Hv.
Qed.
Lemma not_known_no_value loose s h :
  good loose s → kind (slots s h) ≠ K_FREE → shape_known (slots s h) = false → value_of s h = None.
Proof using.
  intros Hg Hk Hsk. destruct (value_of s h) as [t|] eqn:Ev; [|done]. destruct (sd_exact _ _ (gd_sound _ _ Hg h Hk) t Ev). congruence.
Qed.

(** The sizes TensorFlow infers are those of the tensor. *)
Lemma infer_exact loose s h c g dims t :
  good loose s → closed s false h c → h ∉ leaves c →
  g = Graph ((λ h, graph_leaf (slots s h)) <$> leaves c) ((λ h, graph_node c (spec (slots s h))) <$> nodes c) →
  tf_infer g (R_node (node_index c h)) = Some dims → existsb (λ d, bool_decide (d < 0)%Z) dims = false →
  means s h t → dims = t_dims t.
Proof using Hinfer.
  intros Hg Hc Hnl Hgr Hi Hneg Hm. destruct (cl_collected _ _ _ _ Hc) as [|Hn]; [done|].
  apply list_elem_of_lookup in Hn as [k Hk]. destruct (index_of_le _ _ _ Hk) as (i & Hix & _).
  pose proof (index_of_Some _ _ _ Hix) as [Hi0 Hin]. unfold node_index in Hi. rewrite Hix in Hi. cbn in Hi.
  pose proof (closed_args s false h c loose (gd_ok _ _ Hg) Hc) as Hargs.
  assert (∃ ts, Forall2 (λ j t, ∃ h, leaves c !! Z.to_nat j = Some h ∧ value_of s h = Some t) (fed s (leaves c)) ts) as [ts Hts].
  { apply Forall_choose. eapply Forall_impl; [exact Hargs|]. naive_solver. }
  set (f := Func 0 g (fed s (leaves c)) []).
  assert (func_val tf_exec f ts (R_node i) = Some t) as Hf.
  { rewrite <- (Z2Nat.id i Hi0). by apply (node_computes s false h c f ts (gd_sound _ _ Hg) Hc Hgr Hts eq_refl (Z.to_nat i) h). }
  assert (Forall2 (λ d e, (d < 0)%Z ∨ d = e) dims (t_dims t)) as Ha.
  { apply (Hinfer f ts (R_node i) t dims); [|done|done]. intros j dt sh u Hj Hu. cbn in Hj. rewrite Hgr in Hj. cbn in Hj.
    rewrite list_lookup_fmap in Hj. destruct (leaves c !! j) as [x|] eqn:Ex; [|done]. cbn in Hj. 
    destruct (cl_explored _ _ _ _ Hc) as [sn Hxp]. destruct (ex_leaf _ _ _ _ _ Hxp x) as [Hkx Hlx]; [by eapply list_elem_of_lookup_2|].
    destruct (leaf_value _ _ _ _ (gd_ok _ _ Hg) Hkx Hlx) as [w Hw].
    pose proof (leaf_index_at _ _ _ _ _ _ Hc Ex) as Hlj.
    assert (w = u) as ->.
    { eapply means_det; [by apply sound_means; [apply Hg|..]|].
      apply (leaf_means s false h c f ts (gd_sound _ _ Hg) Hc Hgr Hts x u); [by eapply list_elem_of_lookup_2|by rewrite Hlj]. }
    unfold graph_leaf in Hj. destruct (if ckey _ then _ else _); [done|]. injection Hj as <- <-.
    symmetry. by apply (sd_exact _ _ (gd_sound _ _ Hg x Hkx)). }
  clear -Ha Hneg. induction Ha as [|d e l k Hde _ IH]; [done|]. cbn in Hneg. apply orb_false_iff in Hneg as [Hd Hl].
  apply bool_decide_eq_false in Hd. f_equal; [lia|auto].
Qed.

(** A shape answered is right, where no size is 0. *)
Definition told_shape (loose : list nat) (h : Z) s (r : option (list Z)) (s' : tfst) : Prop :=
  good loose s' ∧ ran (λ i, r ≠ None ∧ i = h) s s' ∧
  ∀ sh, r = Some sh → exists_ s h = true ∧ length sh ≤ TF_MAXDIM ∧ ∀ t, means s h t → agrees sh (t_dims t).
Lemma told_nothing loose h s s' : good loose s' → ran none s s' → told_shape loose h s None s'.
Proof using. intros Hg Hr. split; [done|]. split; [by apply ran_any|done]. Qed.

(** By running it, whatever was done before. *)
Lemma ensures_shape_by_running loose h s s' :
  good loose s' → ran none s s' → exists_ s h = true →
  ensures (ok <- run_closure h ;; if (ok : bool) then x <- slot h ;; ret (Some (shape x)) else ret None) (told_shape loose h s) s'.
Proof using Hruns.
  intros Hg' Hk' Hx. apply ensures_bind; [intros; grows|].
  eapply ensures_mono; [apply ensures_run_closure; [exact Hruns|exact Hg'|by apply (rn_keeps _ _ _ Hk')]|].
  cbv beta. intros b s'' _ (Hg'' & Hk'' & Hv). pose proof (ran_l _ _ _ _ Hk' Hk'') as Hk. apply ensures_wp.
  destruct b; cycle 1.
  { tf_step. split; [done|]. split; [|done]. eapply ran_weaken; [|exact Hk]. by intros i []. }
  do 3 tf_step. split; [done|]. split; [eapply ran_weaken; [|exact Hk]; by intros i []|].
  destruct (rn_keeps _ _ _ Hk h Hx) as [Hx'' Hm'']. intros sh [= <-]. split; [done|].
  split; [by apply (gd_sound _ _ Hg''), exists_live|]. intros t Hm%Hm''.
  destruct (value_of s'' h) as [u|] eqn:Eu; [|by destruct (Hv eq_refl)]. pose proof (exists_live _ _ Hx'') as Hl.
  destruct (sd_exact _ _ (gd_sound _ _ Hg'' h Hl) u Eu) as [_ ->].
  rewrite (means_det _ _ _ _ Hm (sound_means _ _ _ (gd_sound _ _ Hg'') Hl Eu)). apply agrees_refl.
Qed.
(** By inference: the sizes are put with the slot. *)
Lemma wp_shape_inferred loose h dims s s4 :
  good loose s4 → ran none s s4 → slots s4 = slots s → exists_ s h = true → shape_known (slots s h) = false →
  (∀ t, means s h t → dims = t_dims t) → length dims ≤ TF_MAXDIM →
  wp (upd h (λ x, set_shape_known true (set_shape dims x)) ;; ret (Some dims)) (told_shape loose h s) never s4.
Proof using.
  intros Hg4 Hk4 Hsl4 Hx Hsk Hd Hdl. do 3 tf_step. destruct (rn_keeps _ _ _ Hk4 h Hx) as [Hx4 Hm4]. pose proof (exists_live _ _ Hx4) as Hl.
  assert (∀ t, means s4 h t → agrees dims (t_dims t)) as Ha by (intros t ->%Hm4%Hd; apply agrees_refl).
  destruct (upd_good loose s4 _ h (λ x, set_shape_known true (set_shape dims x)) (λ i, Some dims ≠ None ∧ i = h) Hg4 eq_refl)
    as [Hg5 Hk5]; [done|apply set_shape_same| |done|done|].
  { eapply outlined_shaped; [eapply not_known_no_value; [exact Hg4|done|by rewrite Hsl4]| |done|exact Ha].
    exact (is_put_at _ _ _ _ (upd_slots_put h _ s4)). }
  split; [done|]. split; [by eapply ran_l|]. intros sh [= <-]. split; [done|]. split; [done|]. intros t Hm. by apply Ha, Hm4.
Qed.

Lemma ensures_tfb_shape loose h s : good loose s → ensures (tfb_shape h) (told_shape loose h s) s.
Proof using Hruns Hflat Hinfer.
  intros Hg. unfold tfb_shape. apply ensures_bind; [intros; grows|]. apply ensures_wp. tf_step.
  destruct (exists_ s h) eqn:Hx; cbn [negb]; [|by apply ensures_ret; intros _; apply told_nothing, ran_refl].
  apply ensures_bind; [intros; grows|]. apply ensures_wp. tf_step. pose proof (exists_live _ _ Hx) as Hl.
  destruct (shape_known (slots s h)) eqn:Hsk.
  { apply ensures_ret. intros _. split; [done|]. split; [apply ran_refl|]. intros sh [= <-]. split; [done|].
    split; [by apply (gd_sound _ _ Hg)|]. intros t Hm. by apply (ft_shape _ _ (sd_fits _ _ (gd_sound _ _ Hg h Hl) t Hm)). }
  apply ensures_bindo; [intros; grows|]. apply ensures_wp. eapply wp_mono; [apply (wp_closure_of loose); apply Hg| |done].
  cbv beta. intros [c|] s1 [Hi Hc]; destruct (inert_good _ _ _ Hg Hi) as [Hg1 Hk1]; [|by apply told_nothing].
  specialize (Hc c eq_refl). assert (closed s1 false h c) as Hc1 by (eapply closed_same; [apply Hi|done]).
  pose proof (described_closed _ _ _ _ Hc1 (gd_specs _ _ Hg1)) as Hd.
  apply ensures_bindo; [intros [? ?]; grows|].
  eapply ensures_mono; [apply (ensures_entry_for c _ _ (gd_entries _ _ Hg1) Hd eq_refl)|].
  cbv beta. intros [[e b]|] s2 _ (Hq & He2 & Hr); destruct (quiet_good _ _ _ Hg1 Hq He2) as [Hg2 Hk2]; cycle 1.
  { apply told_nothing; [done|]. by eapply ran_l. }
  destruct (Hr e b eq_refl) as (x & Hex & Hok). cbn [fst]. apply ensures_bind; [intros; grows|]. apply ensures_wp.
  unfold entry. do 2 tf_step. rewrite Hex. tf_step. cbv beta zeta.
  assert (e_graph x = Graph ((λ h, graph_leaf (slots s h)) <$> leaves c) ((λ h, graph_node c (spec (slots s h))) <$> nodes c)) as Hgx.
  { by rewrite (eo_graph _ _ Hok), (ds_graph _ _ _ Hd), (in_slots _ _ Hi). }
  pose proof (ran_l _ _ _ _ Hk1 Hk2) as Hk12. apply ensures_bind; [intros; grows|]. apply ensures_wp. eapply wp_mono; [apply wp_bad| |done].
  cbv beta. intros b1 s3 Hi3. destruct (inert_good _ _ _ Hg2 Hi3) as [Hg3 Hk3]. pose proof (ran_l _ _ _ _ Hk12 Hk3) as Hk13.
  destruct (if b1 then None else _) as [dims|] eqn:Ed; [|by apply ensures_shape_by_running]. destruct b1; [done|].
  pose proof (Hflat _ _ _ Ed) as Hdims. rewrite decide_False by lia.
  apply ensures_bind; [intros; grows|]. apply ensures_wp. eapply wp_mono; [apply wp_bad| |done].
  cbv beta. intros b2 s4 Hi4. destruct (inert_good _ _ _ Hg3 Hi4) as [Hg4 Hk4]. pose proof (ran_l _ _ _ _ Hk13 Hk4) as Hk14.
  destruct b2; [apply ensures_ret; intros _; by apply told_nothing|].
  destruct (existsb _ dims) eqn:Hneg; [by apply ensures_shape_by_running|].
  apply ensures_wp, wp_shape_inferred; [done|done| |done|done| |done].
  { by rewrite (in_slots _ _ Hi4), (in_slots _ _ Hi3), (qt_slots _ _ Hq), (in_slots _ _ Hi). }
  intros t. apply (infer_exact loose s h c (e_graph x) dims t Hg Hc); [|exact Hgx|exact Ed|exact Hneg].
  intros Hlf. destruct (cl_explored _ _ _ _ Hc) as [sn Hxp]. destruct (ex_leaf _ _ _ _ _ Hxp h Hlf) as [_ Hlx].
  destruct (leaf_value _ _ _ _ (gd_ok _ _ Hg) Hl Hlx) as [u Hu]. by rewrite (not_known_no_value _ _ _ Hg Hl Hsk) in Hu.
Qed.

(** The slots a rule may run: the inputs, or none. *)
Definition read_by (p : OpSpec) (i : Z) : Prop := i ∈ ins p ∨ i = 0%Z.
Lemma input_read p i : read_by p (input p i).
Proof. unfold read_by, input. destruct (ins p !! i) as [h|] eqn:E; [left; by eapply list_elem_of_lookup_2|by right]. Qed.

(** What [shape_rule] takes on trust: a transposition exchanges the two axes,
    and the sizes asked of Reshape have room. *)
Record trusted (p : OpSpec) s : Prop := {
  tr_exchange : op p = $"Transpose" → made_of s p 1 [1; 0]%Z;
  tr_room : op p = $"Reshape" → is_Some (ins p !! 1) ∧ ∀ t, means s (input p 1) t → length (int_data t) ≤ TF_MAXDIM;
}.

Lemma not_covered p : covered p → ¬ (op p = $"ConcatV2" ∨ op p = $"GatherV2").
Proof. intros [Hc _] [Ho|Ho]; rewrite Ho in Hc; revert Hc; by apply (bool_decide_unpack _). Qed.

Section rule.
Context (loose : list nat) (p : OpSpec) (s0 : tfst).
Context (Hg0 : good loose s0) (Hx0 : Forall (λ h, exists_ s0 h = true) (ins p)).

(** An input that stands for something is one of the operation's. *)
Lemma input_exists i t : means s0 (input p i) t → exists_ s0 (input p i) = true.
Proof using Hg0 Hx0.
  intros Hm. destruct (input_read p i) as [Hi|Hz]; [rewrite Forall_forall in Hx0; by apply Hx0|].
  apply means_live, (c_table _ _ _ _ (wf_counted _ _ _ _ _ (gd_ok _ _ Hg0))) in Hm. rewrite Hz in Hm. unfold in_table in Hm. lia.
Qed.
Lemma ensures_read_shape i s :
  good loose s → ran (read_by p) s0 s →
  ensures (tfb_shape (input p i)) (λ r s', good loose s' ∧ ran (read_by p) s0 s' ∧ ∀ a, r = Some a → length a ≤ TF_MAXDIM ∧ told s0 p i a) s.
Proof using Hruns Hflat Hinfer Hg0 Hx0.
  intros Hg Hr. eapply ensures_mono; [by apply (ensures_tfb_shape loose)|]. cbv beta. intros r s' _ (Hg' & Hr' & Hs). split; [done|].
  split; [eapply ran_trans; [exact Hr|]; eapply ran_weaken; [|exact Hr']; intros j [_ ->]; apply input_read|].
  intros a Ha. split; [by apply (Hs a Ha)|]. intros t Hm. pose proof (input_exists _ _ Hm) as Hx. split.
  - apply (Hs a Ha). by apply (rn_keeps _ _ _ Hr).
  - eapply ft_proper, sd_fits; [|exact Hm]. apply (gd_sound _ _ Hg0), exists_live, Hx.
Qed.
Lemma made_means i v s :
  good loose s → ran (read_by p) s0 s → made_ints s (input p i) = Some v → exists_ s0 (input p i) = true →
  ∃ t, means s0 (input p i) t ∧ v = int_data t.
Proof using.
  intros Hg Hr (t & Ht & [= <-])%bind_Some Hx0'. destruct (rn_keeps _ _ _ Hr _ Hx0') as [Hl%exists_live Hm]. exists t. split; [|done].
  destruct (sd_const _ _ (gd_sound _ _ Hg _ Hl) t Ht) as (Hk & Hv & _). apply Hm. by apply means_value.
Qed.
Lemma made_read i v s : good loose s → ran (read_by p) s0 s → made_ints s (input p i) = Some v → made_of s0 p i v.
Proof using Hg0 Hx0.
  intros Hg Hr Hv u Hu. destruct (made_means i v s Hg Hr Hv (input_exists _ _ Hu)) as (t & Ht & ->).
  f_equal. by eapply means_det.
Qed.
Lemma made_room i v s n :
  good loose s → ran (read_by p) s0 s → made_ints s (input p i) = Some v →
  is_Some (ins p !! i) ∧ (∀ t, means s0 (input p i) t → length (int_data t) ≤ n) → ¬ n < length v.
Proof using Hx0.
  intros Hg Hr Hv [[h Hh] Hn]. destruct (made_means i v s Hg Hr Hv) as (t & Ht & ->); [|apply Hn in Ht; lia].
  unfold input. rewrite Hh. rewrite Forall_lookup in Hx0. by eapply Hx0.
Qed.

(** What a rule answers is right. *)
Definition told_rule (r : option (list Z)) (s' : tfst) : Prop :=
  good loose s' ∧ ran (read_by p) s0 s' ∧
  ∀ sh, r = Some sh → length sh ≤ TF_MAXDIM ∧ ∀ t, result_of p s0 t → agrees sh (t_dims t).
Lemma ensures_refuse m s : good loose s → ran (read_by p) s0 s → ensures (refuse m) told_rule s.
Proof using.
  intros Hg Hr. apply ensures_wp. unfold refuse. tf_step. change (modify (set_errbuf (snprintf_s 512 m))) with (fail m).
  eapply wp_mono; [apply wp_tf_fail| |done]. cbv beta. intros _ s' Hi. tf_step. destruct (inert_good _ _ _ Hg Hi) as [Hg' Hr'].
  split; [done|]. split; [|done]. eapply ran_trans; [exact Hr|by apply ran_any].
Qed.
Lemma ensures_answer r s :
  good loose s → ran (read_by p) s0 s →
  (∀ sh, r = Some sh → length sh ≤ TF_MAXDIM ∧ ∀ t, result_of p s0 t → agrees sh (t_dims t)) →
  ensures (ret r) told_rule s.
Proof using. intros Hg Hr Hs. by apply ensures_ret. Qed.

(** A rule's answer: a shape read, integers made, a refusal or an answer. *)
Ltac rule_step :=
  lazymatch goal with
  | |- ensures (ret None) _ _ => by apply ensures_answer
  | |- ensures (ret (Some _)) _ _ => apply ensures_answer; [done|done|intros ? [= <-]; split; [|intros ? ?]]
  | |- ensures (refuse _) _ _ => by apply ensures_refuse
  | |- ensures (bind get _) _ _ => apply ensures_bind; [intros; grows|apply ensures_wp; tf_step]
  | |- ensures (bindo (tfb_shape (input ?p _)) _) _ _ =>
      apply ensures_bindo; [intros; grows|];
      eapply ensures_mono; [eapply ensures_read_shape; eassumption|];
      let H := fresh in cbv beta; intros [] ? _ (? & ? & H); [destruct (H _ eq_refl) as [? ?]; clear H|done]
  | |- ensures (match made_ints ?s ?h with _ => _ end) _ _ =>
      let E := fresh in destruct (made_ints s h) eqn:E; [pose proof (made_read _ _ _ ltac:(eassumption) ltac:(eassumption) E)|]
  | |- ensures (match bcast ?a ?b with _ => _ end) _ _ => destruct (bcast a b) eqn:?
  | |- ensures (match reshape_dims ?a ?b with _ => _ end) _ _ => destruct (reshape_dims a b) eqn:?
  | |- ensures (match slice_dims ?a ?b ?c with _ => _ end) _ _ => destruct (slice_dims a b c) eqn:?
  | |- ensures (if decide ?P then _ else _) _ _ => destruct (decide P)
  | |- ensures (match ?x with _ => _ end) _ _ => destruct x
  end.

(** As many sizes as there is room for. *)
Ltac rule_room :=
  first [assumption
    | match goal with H : bcast _ _ = Some _ |- _ => rewrite (bcast_length _ _ _ H) end; lia
    | cbn; unfold TF_MAXDIM; lia
    | etrans; [apply reduce_dims_length|assumption]
    | etrans; [apply drop_dim_length|assumption]
    | match goal with H : reshape_dims _ _ = inl _ |- _ => rewrite (reshape_dims_length _ _ _ H) end; lia
    | etrans; [eapply slice_dims_length; eassumption|assumption]].
Lemma ensures_shape_rule : covered p → trusted p s0 → ensures (shape_rule p) told_rule s0.
Proof using Hruns Hflat Hinfer Hdoc Hg0 Hx0.
  intros Hc Ht. unfold shape_rule. pose proof (ran_refl (read_by p) s0) as Hr.
  apply ensures_bindo; [intros; grows|].
  assert (ensures (if decide (ins p = []) then ret (Some []) else tfb_shape (input p 0))
    (λ r s', good loose s' ∧ ran (read_by p) s0 s' ∧ ∀ a, r = Some a → length a ≤ TF_MAXDIM ∧ told s0 p 0 a) s0) as H0.
  { case_decide as Hi; [|by apply ensures_read_shape]. apply ensures_ret. intros _. split; [done|]. split; [done|].
    intros a [= <-]. split; [cbn; lia|]. intros t Hm. apply input_exists, exists_live in Hm. unfold input in Hm. rewrite Hi in Hm. cbn in Hm.
    apply (c_table _ _ _ _ (wf_counted _ _ _ _ _ (gd_ok _ _ Hg0))) in Hm. unfold in_table in Hm. lia. }
  eapply ensures_mono; [exact H0|]. cbv beta. intros [a|] s1 _ (Hg1 & Hr1 & Ha); [destruct (Ha a eq_refl) as [Hla Hta]; clear Ha|done]. cbv zeta.
  repeat rule_step.
  all: match goal with |- length _ ≤ _ => rule_room | _ => idtac end.
  - by apply (told_same Hdoc p s0).
  - by eapply (told_broadcast Hdoc p s0).
  - subst. by eapply (told_matmul Hdoc p s0).
  - apply (told_transpose Hdoc p s0); [done..|by apply tr_exchange].
  - by apply (told_reduced Hdoc p s0).
  - by apply (told_argmax Hdoc p s0).
  - by edestruct (made_room 1) as []; [| | |by apply tr_room|].
  - by eapply (told_reshape Hdoc p s0).
  - by destruct (not_covered p Hc); left.
  - by destruct (not_covered p Hc); right.
  - by destruct (not_covered p Hc); right.
  - by destruct (not_covered p Hc); right.
  - by eapply (told_slice Hdoc p s0).
Qed.
End rule.

(** ** Executing at once *)

Lemma value_handle loose s h : ok loose s → kind (slots s h) ≠ K_FREE → eh (slots s h) ≠ None → value_of s h ≠ None.
Proof using.
  intros Hwf Hk He. destruct (eh (slots s h)) as [e|] eqn:Ee; [|done]. unfold value_of. rewrite Ee. cbn.
  destruct (owned_slot_live _ _ h e (wf_owned _ _ _ _ _ Hwf)) as [t ->]; [|done..].
  by apply (c_table _ _ _ _ (wf_counted _ _ _ _ _ Hwf)).
Qed.

Lemma ensures_run_inputs loose hs s :
  good loose s → Forall (λ h, exists_ s h = true) hs →
  ensures (run_inputs hs) (λ b s', good loose s' ∧ ran (λ i, i ∈ hs) s s' ∧
    (b = true → Forall (λ h, value_of s' h ≠ None) hs)) s.
Proof using Hruns.
  clear Hflat Hinfer Hdoc. intros Hg Hx. revert s Hg Hx. induction hs as [|h hs IH]; intros s Hg Hx; cbn [run_inputs].
  { apply ensures_ret. intros _. split; [done|]. split; [apply ran_refl|]. by constructor. }
  inversion Hx as [|? ? Hxh Hxs]. subst. apply ensures_bind; [intros; grows|]. apply ensures_wp. tf_step.
  apply ensures_guardb; [grows|].
  assert (ensures (if decide (eh (slots s h) = None) then run_closure h else ret true)
    (λ b s', good loose s' ∧ ran (λ i, i ∈ h :: hs) s s' ∧ (b = true → value_of s' h ≠ None)) s) as Hh.
  { case_decide as He.
    - eapply ensures_mono; [by apply (ensures_run_closure Hruns loose)|]. cbv beta. intros b s' _ (? & Hr & ?). split; [done|].
      split; [|done]. eapply ran_weaken; [|exact Hr]. intros i [_ ->]. set_solver.
    - apply ensures_ret. intros _. split; [done|]. split; [apply ran_refl|]. intros _.
      eapply value_handle; [apply Hg|by apply exists_live|done]. }
  eapply ensures_mono; [exact Hh|]. cbv beta. intros [] s1 _ (Hg1 & Hr1 & Hv1); [|split; [done|]; by split].
  eapply ensures_mono; [apply IH; [done|]|].
  { eapply Forall_impl; [exact Hxs|]. intros i Hi. by apply (rn_keeps _ _ _ Hr1). }
  cbv beta. intros b s2 _ (Hg2 & Hr2 & Hv2). split; [done|]. split.
  { eapply ran_trans; [exact Hr1|]. eapply ran_weaken; [|exact Hr2]. set_solver. }
  intros ->. constructor; [|by apply Hv2]. apply (rn_values _ _ _ Hr2); [by apply (rn_keeps _ _ _ Hr1)|by apply Hv1].
Qed.

(** The inputs of an operation executed at once. *)
Lemma wp_get_inputs l s :
  Forall (λ o, ∃ t, holds_at s o t) l →
  wp (get_inputs l) (λ r s', inert s s' ∧ ∀ ts, r = Some ts → Forall2 (holds_at s) l ts) never s.
Proof using.
  intros Hl. induction Hl as [|o l (t & e & -> & He) _ IH]; cbn [get_inputs].
  { tf_step. split; [done|]. by intros ts [= <-]. }
  tf_step. eapply wp_mono; [by apply (wp_held_by e t)| |done]. cbv beta. intros ? ? [-> ->].
  tf_step. eapply wp_mono; [exact IH| |done]. cbv beta. intros [ts|] s' [Hi Hr]; [|done]. tf_step. split; [done|].
  intros us [= <-]. constructor; [by exists e|by apply Hr].
Qed.
Lemma holds_inert s s' o t : inert s s' → holds_at s' o t ↔ holds_at s o t.
Proof using. intros Hi. unfold holds_at. by rewrite (in_hs _ _ Hi). Qed.
Lemma wp_op_inputs n l s :
  Forall (λ o, ∃ t, holds_at s o t) l →
  wp (op_inputs n l) (λ r s', inert s s' ∧ ∀ ts, r = Some ts → Forall2 (holds_at s) l ts) never s.
Proof using.
  intros Hl. unfold op_inputs. case_decide; [by apply wp_add_inputs|]. tf_step. eapply wp_mono; [apply wp_bad| |done].
  cbv beta. intros b s1 Hi1. destruct b; [by tf_step|].
  assert (Forall (λ o, ∃ t, holds_at s1 o t) l) as Hl1.
  { eapply Forall_impl; [exact Hl|]. intros o [t Ht]. exists t. by apply (holds_inert s). }
  rewrite <- (take_drop n l) in Hl1. apply Forall_app in Hl1 as [Ht1 Hd1].
  tf_step. eapply wp_mono; [by apply wp_get_inputs| |done]. cbv beta. intros [ts|] s2 [Hi2 Hr2]; [|split; [by etrans|done]].
  tf_step. eapply wp_mono; [apply wp_add_inputs| |done].
  { eapply Forall_impl; [exact Hd1|]. intros o [t Ht]. exists t. by apply (holds_inert s1). }
  cbv beta. intros [us|] s3 [Hi3 Hr3]; cycle 1. { split; [|done]. etrans; [exact Hi1|]. by etrans. }
  tf_step. split; [etrans; [exact Hi1|]; by etrans|]. intros vs [= <-]. rewrite <- (take_drop n l).
  apply Forall2_app; eapply Forall2_impl; [by apply Hr2| |by apply Hr3|].
  - intros o t. apply (proj1 (holds_inert s s1 o t Hi1)).
  - intros o t Ho%(proj1 (holds_inert s1 s2 o t Hi2)). by apply (proj1 (holds_inert s s1 o t Hi1)).
Qed.

(** The operation executed: a new tensor, what it makes of its inputs. *)
Lemma wp_execute_op loose p s :
  good loose s → Forall (λ h, kind (slots s h) ≠ K_FREE ∧ value_of s h ≠ None) (ins p) →
  wp (execute_op p) (λ r s', ok loose s' ∧ match r with
    | None => steps none s s'
    | Some h => ∃ ts t, Forall2 (means s) (ins p) ts ∧ tf_exec (recipe p) ts = inl t ∧ fresh_value h t false s s'
    end) never s.
Proof using.
  intros Hg Hv. pose proof (gd_ok _ _ Hg) as Hwf. unfold execute_op. tf_step. eapply wp_mono; [apply wp_bad| |done].
  cbv beta. intros b s1 Hi1. pose proof (inert_wf _ _ _ _ _ _ Hi1 Hwf) as Hwf1.
  destruct b; [tf_step; split; [done|by apply inert_steps]|]. do 3 tf_step.
  assert (∀ h, value_of s1 h = value_of s h) as Hv1 by (intros h; unfold value_of; by rewrite (in_slots _ _ Hi1), (in_hs _ _ Hi1)).
  eapply wp_mono; [apply wp_op_inputs| |done].
  { rewrite Forall_fmap. eapply Forall_impl; [exact Hv|]. cbn. intros h [_ Hh]. rewrite <- Hv1 in Hh. unfold value_of in Hh.
    destruct (eh (slots s1 h)) as [e|]; [|done]. cbn in Hh. destruct (hs s1 !! e) as [t|] eqn:Et; [|done].
    exists t. by exists e. }
  cbv beta. intros [ts|] s2 [Hi2 Hr]; cycle 1.
  { split; [by eapply inert_wf|]. apply inert_steps. by etrans. }
  assert (Forall2 (means s) (ins p) ts) as Hts.
  { specialize (Hr ts eq_refl). rewrite Forall2_fmap_l in Hr. apply Forall2_same_length_lookup in Hr as [Hl Hr].
    apply Forall2_same_length_lookup. split; [done|]. intros k h t Hh Ht. destruct (Hr k h t Hh Ht) as (e & He & Het).
    rewrite Forall_lookup in Hv. destruct (Hv k h Hh) as [Hk _]. apply sound_means; [apply Hg|done|].
    rewrite <- Hv1. unfold value_of. by rewrite He. }
  assert (inert s s2) as Hi02 by by etrans.
  tf_step. eapply wp_mono; [apply wp_bad| |done]. cbv beta. intros b s3 Hi3. assert (inert s s3) as Hi by by etrans.
  pose proof (inert_wf _ _ _ _ _ _ Hi Hwf) as Hwf3. destruct b; [tf_step; split; [done|by apply inert_steps]|].
  destruct (tf_exec (recipe p) ts) as [t|why] eqn:Ex; cycle 1.
  { tf_step. eapply wp_mono; [apply wp_tf_fail| |done]. cbv beta. intros _ s4 Hi4. tf_step.
    assert (inert s s4) as Hi04 by by etrans. split; [by eapply inert_wf|by apply inert_steps]. }
  tf_step. eapply wp_mono; [by apply wp_new_handle| |done]. cbv beta. intros e s4 [Hwf4 Hmd].
  eapply wp_mono; [apply (wp_slot_from_handle None [] loose e t); [done|by eapply made_live]| |done].
  assert (steps none s s4) as Hst4 by (eapply steps_none_l; [by apply inert_steps|by eapply made_steps]).
  cbv beta. intros [h|] s5 [Hwf5 Hf]; (split; [done|]).
  - exists ts, t. split; [done|]. split; [done|]. destruct Hf as [Hin Hfr Hsl Hst]. split; [done| |done|by eapply steps_none_l].
    by rewrite <- (in_slots _ _ Hi), <- (md_slots _ _ _ _ Hmd).
  - by eapply steps_none_l.
Qed.
End recorded.
