(* ===== verification/Specified.v ===== *)
(** * What an operation makes

    [run_spec] of modules/tensorflow/backend.c in both modes: a recorded node
    stands for what executing it would have given. *)
From Stdlib Require Import Floats.SpecFloat.
From S2P Require Import Prelude Effect Float Tensor Closure Compile Shape Producer Slots Table Record Meaning Typed Visit Key Frame Cached Described Evaluate Running Reading Recorded.

Section specified.
Context `{TensorFlow}.
Implicit Types s : tfst.

(** What the program names keeps its meaning and its value; it names at most
    [N] besides. *)
Record carries (N : Z → Prop) (s s' : tfst) : Prop := {
  ca_keeps : keeps s s';
  ca_values : has_kept s s';
  ca_names : ∀ h, exists_ s' h = true → exists_ s h = true ∨ N h;
}.
Lemma carries_refl N s : carries N s s.
Proof. split; [reflexivity|by intros ?|by left]. Qed.
Lemma carries_trans N s s' s'' : carries N s s' → carries N s' s'' → carries N s s''.
Proof.
  intros [Ha Hb Hn] [Hc Hd Hm]. split; [by etrans| |].
  - intros h Hx Hv. apply Hd; [by apply Ha|]. by apply Hb.
  - intros h [Hx|?]%Hm; [by apply Hn|by right].
Qed.
Lemma carries_weaken (N N' : Z → Prop) s s' : (∀ h, N h → N' h) → carries N s s' → carries N' s s'.
Proof. intros Hw [Hk Hv Hn]. split; [done..|]. intros h [?|?]%Hn; auto. Qed.
Lemma carries_any N s s' : carries none s s' → carries N s s'.
Proof. by apply carries_weaken. Qed.
Lemma carries_l N s s' s'' : carries none s s' → carries N s' s'' → carries N s s''.
Proof. intros Ha. by apply carries_trans, carries_any. Qed.
Lemma carries_r N s s' s'' : carries N s s' → carries none s' s'' → carries N s s''.
Proof. intros Ha Hb. eapply carries_trans; [done|by apply carries_any]. Qed.
Lemma carries_some h s s' : carries (only h) s s' → carries (λ i, Some h = Some i) s s'.
Proof. apply carries_weaken. by intros i ->. Qed.
Lemma ran_carries R N s s' : ran R s s' → carries N s s'.
Proof. intros []. split; auto. Qed.

(** A step that takes a free slot [h] and otherwise leaves things alone. *)
Record takes (h : Z) (s s' : tfst) : Prop := {
  tk_free : kind (slots s h) = K_FREE;
  tk_steps : steps (only h) s s';
}.
Lemma takes_carries loose loose' s s' h : ok loose s → ok loose' s' → takes h s s' → carries (only h) s s'.
Proof.
  intros Hwf Hwf' [Hf Hst].
  assert (∀ i, exists_ s i = true → i ≠ h) as Hne by (intros i Hi ->; by apply exists_live in Hi).
  assert (∀ i, exists_ s i = true → exists_ s' i = true) as Hx by (intros i Hi; apply (st_named _ _ _ Hst); auto).
  split.
  - eapply (evolves_keeps loose loose'); [done..| |done]. eapply steps_evolves; [exact Hst|by intros i -> _ ?|].
    intros i. destruct (decide (i = h)); auto.
  - intros i Hi. destruct (st_slot _ _ _ Hst i (Hne i Hi)) as [_ [_ ->]]; [by apply exists_live, Hx|done].
  - intros i Hi. destruct (decide (i = h)) as [->|Hnh]; [by right|]. left. by eapply steps_names.
Qed.
Lemma takes_good loose loose' s s' h :
  good loose s → ok loose' s' → takes h s s' →
  (kind (slots s' h) = K_NODE → wf_spec (spec (slots s' h))) → sound_at s' h → good loose' s'.
Proof.
  intros [Hwf Hs Hsp He] Hwf' [Hf Hst] Hsph Hsh.
  assert (∀ i, i ≠ h → kind (slots s' i) ≠ K_FREE → kind (slots s i) ≠ K_FREE ∧ stays s s' i) as Hst'.
  { intros i. apply (st_slot _ _ _ Hst). }
  split; [done| | |].
  - eapply (evolves_sound loose loose' s s'); [done..| |].
    + eapply steps_evolves; [exact Hst|by intros i -> _ ?|]. intros i. destruct (decide (i = h)); auto.
    + intros i Hk Hki. destruct (decide (i = h)) as [->|Hne]; [done|]. by destruct (Hst' i Hne Hk).
  - intros i Hk. destruct (decide (i = h)) as [->|Hne]; [auto|]. destruct (Hst' i Hne) as [_ [[r Hr] _]]; [congruence|].
    rewrite Hr in *. by apply Hsp.
  - eapply entries_ok_same; [apply Hst|done].
Qed.
(** ... nothing reads it yet. *)
Lemma takes_unused loose s s' h :
  ok loose s → takes h s s' → edges None (slots s') h = [] → unused s' h.
Proof.
  intros Hwf [Hf Hst] He n Hn. destruct (decide (n = h)) as [->|Hne]; [rewrite He in Hn; by apply elem_of_nil in Hn|].
  unfold edges in Hn. case_decide as Hd; [|by apply elem_of_nil in Hn]. destruct Hd as [_ Hk].
  destruct (st_slot _ _ _ Hst n Hne) as [_ [[r Hr] _]]; [congruence|]. rewrite Hr in Hk, Hn. cbn in Hk, Hn.
  by eapply node_input_live in Hn.
Qed.

(** A slot given a value. *)
Lemma fresh_takes h t ck s s' : fresh_value h t ck s s' → takes h s s'.
Proof. by intros []. Qed.
Lemma fresh_exists h t ck s s' : fresh_value h t ck s s' → exists_ s' h = true.
Proof. intros [Hin _ (e & Hsl & _) _]. apply exists_spec. by rewrite Hsl. Qed.
Lemma fresh_means h t ck s s' t' : fresh_value h t ck s s' → means s' h t' ↔ t' = t.
Proof.
  intros [_ _ (e & Hsl & He) _]. rewrite means_value by (by rewrite Hsl). unfold value_of. rewrite Hsl. cbn. rewrite He.
  split; [by intros [= ->]|by intros ->].
Qed.
(** A tensor a slot has room for. *)
Definition housed (t : tensor) : Prop := length (t_dims t) ≤ TF_MAXDIM ∧ proper_dims (t_dims t).
#[export] Instance housed_decision t : Decision (housed t).
Proof. unfold housed. apply _. Defined.
Lemma value_slot_fits x t :
  housed t → dtype x = t_dtype t → shape x = take TF_MAXDIM (t_dims t) → fits x t.
Proof. intros [Hl Hp] Hd Hs. split; [done..|]. intros _. rewrite Hs, take_ge by done. apply agrees_refl. Qed.
Lemma fresh_good loose loose' h t ck s s' :
  good loose s → ok loose' s' → fresh_value h t ck s s' → (ck = true → constant t) → housed t → good loose' s'.
Proof.
  intros Hg Hwf' Hf Hc Ht. pose proof Hf as [_ _ (e & Hsl & He) _].
  assert (value_of s' h = Some t) as Hv by (unfold value_of; by rewrite Hsl).
  eapply takes_good; [exact Hg|done|by eapply fresh_takes|by rewrite Hsl|]. split.
  - by rewrite Hsl.
  - rewrite Hsl. cbn. destruct ck; [|done]. intros u [= <-]. split; [done|]. split; [done|]. by apply Hc.
  - intros u ->%(fresh_means _ _ _ _ _ _ Hf). rewrite Hsl. by apply value_slot_fits.
  - intros u Hu. assert (u = t) as -> by congruence. rewrite Hsl. split; [done|]. cbn. apply take_ge, Ht.
  - rewrite Hsl. apply take_bound.
Qed.

(** ** A recorded node *)

Record takes_node (p : OpSpec) (h : Z) (s s' : tfst) : Prop := {
  tn_takes : takes h s s';
  tn_kind : kind (slots s' h) = K_NODE;
  tn_spec : spec (slots s' h) = p;
  tn_val : val (slots s' h) = None;
  tn_value : ∀ t, value_of s' h = Some t → result_of p s t;
}.
Lemma takes_node_good loose loose' p h s s' :
  good loose s → ok loose' s' → takes_node p h s s' → wf_spec p → Forall (λ h, exists_ s h = true) (ins p) →
  (∀ t, result_of p s t → fits (slots s' h) t) → (∀ t, value_of s' h = Some t → exact (slots s' h) t) →
  length (shape (slots s' h)) ≤ TF_MAXDIM →
  good loose' s' ∧ carries (only h) s s' ∧ ∀ t, means s' h t ↔ result_of p s t.
Proof.
  intros Hg Hwf' [Ht Hk Hsp Hc Hv] Hwp Hx Hfit Hex Hrm. pose proof (takes_carries _ _ _ _ _ (gd_ok _ _ Hg) Hwf' Ht) as Hca.
  assert (∀ t, means s' h t ↔ result_of p s t) as Hm.
  { intros t. rewrite means_node, Hsp by done. symmetry. apply keeps_result; [done|apply Hca]. }
  split; [|done]. eapply takes_good; [exact Hg|done|done|by rewrite Hsp|]. split.
  - intros t _ Hvt. apply Hm. by apply Hv.
  - by rewrite Hc.
  - intros t Hmt%Hm. by apply Hfit.
  - done.
  - done.
Qed.

(** What is answered: a new tensor that stands for what [P] says; or nothing. *)
Definition answers (P : tensor → Prop) (s : tfst) (r : option Z) (s' : tfst) : Prop :=
  good [] s' ∧ carries (λ i, r = Some i) s s' ∧ graph_mode s' = graph_mode s ∧
  ∀ h, r = Some h → exists_ s h = false ∧ exists_ s' h = true ∧ ∀ t, means s' h t ↔ P t.
(** ... the result of [p] on what its inputs stood for. *)
Definition outcome (p : OpSpec) (s : tfst) : option Z → tfst → Prop := answers (result_of p s) s.

Lemma not_exists s h : kind (slots s h) = K_FREE → exists_ s h = false.
Proof. intros Hk. apply not_true_is_false. intros Hx. by apply exists_live in Hx. Qed.
Lemma carries_not_exists N s s' h : carries N s s' → exists_ s' h = false → exists_ s h = false.
Proof. intros [Hk _ _] Hx. apply not_true_is_false. intros Hy. apply Hk in Hy as [? _]. congruence. Qed.
Lemma outcome_none P s s' : good [] s' → carries none s s' → graph_mode s' = graph_mode s → answers P s None s'.
Proof. intros Hg Hc Hm. split; [done|]. split; [by apply carries_any|done]. Qed.

Context (Hruns : runs_graphs tf_exec tf_call) (Hflat : flat) (Hinfer : infers) (Hdoc : documented).

(** The recipes the rules are written for. *)
Record checked (p : OpSpec) : Prop := {
  ck_wf : wf_spec p;
  ck_covered : covered p;
  ck_dtype : ∀ d, recorded_dtype p d = doc_dtype p d;
}.
Lemma doc_result_inputs p ts d : doc_dims p ts = Some d → ts ≠ [].
Proof using. intros Hd ->. revert Hd. unfold doc_dims. repeat case_decide; done. Qed.

(** A result has room, and its type is the one recorded. *)
Lemma result_housed p s t :
  good [] s → checked p → trusted p s → Forall (λ h, exists_ s h = true) (ins p) → result_of p s t →
  housed t ∧ recorded_dtype p (dtype (slots s (input p 0))) = t_dtype t.
Proof using Hdoc.
  intros Hg [_ Hc Hdt] Htr Hx Hr. destruct (doc_result Hdoc p s t Hc Hr) as (ts & Hts & Hd & Ht & Hp).
  assert (∀ k u, ts !! k = Some u → fits (slots s (input p k)) u) as Hfit.
  { intros k u Hu. destruct (Forall2_lookup_r _ _ _ _ _ Hts Hu) as (h & Hh & Hm). unfold input. rewrite Hh.
    rewrite Forall_lookup in Hx. by apply (sd_fits _ _ (gd_sound _ _ Hg h (exists_live _ _ (Hx k h Hh)))). }
  split; [split; [|done]|].
  - eapply doc_room; [exact Hd| |].
    + apply Forall_lookup. intros k u Hu. by apply (ft_room _ _ (Hfit k u Hu)).
    + intros Ho y Hy. apply (proj2 (tr_room _ _ Htr Ho)). by eapply input_means.
  - rewrite Hdt, Ht. destruct ts as [|u ts]; [by destruct (doc_result_inputs _ _ _ Hd)|]. cbn.
    by rewrite (ft_dtype _ _ (Hfit 0 u eq_refl)).
Qed.

Lemma set_stats_good loose s r x p :
  good loose s → good loose (set_stats r x p s) ∧ ran none s (set_stats r x p s).
Proof. intros Hg. apply quiet_good; [done|by split|]. eapply entries_ok_same; [done|apply Hg]. Qed.

(** A value under a parameter is a node too, for the gradients. *)
Lemma wp_record_value p s s1 h t :
  good [] s → ok [] s1 → fresh_value h t false s s1 → wf_spec p → housed t → result_of p s t → Forall (λ h, exists_ s h = true) (ins p) →
  wp (record h p true) (λ _ s2, good [] s2 ∧ carries (only h) s s2 ∧ graph_mode s2 = graph_mode s1 ∧ exists_ s2 h = true ∧
    ∀ u, means s2 h u ↔ result_of p s u) never s1.
Proof.
  intros Hg Hwf1 Hf Hwp Hht Hrt Hx. pose proof (fresh_takes _ _ _ _ _ Hf) as Htk.
  pose proof (takes_carries _ _ _ _ _ (gd_ok _ _ Hg) Hwf1 Htk) as Hc. pose proof Hf as [Hin _ (e & Hsl & _) _].
  assert (value_of s1 h = Some t) as Hvt.
  { apply means_value; [by rewrite Hsl|]. by apply (fresh_means _ _ _ _ _ _ Hf). }
  eapply wp_mono; [apply (wp_record [] h p true)| |done]; try (by rewrite Hsl); try done.
  { eapply takes_unused; [apply Hg|done|]. unfold edges. rewrite Hsl. by rewrite decide_False by (by intros [_ ?]). }
  { intros i Hi. rewrite Forall_forall in Hx. pose proof (Hx i Hi) as Hi1. split; [by apply exists_live, (ca_keeps _ _ _ Hc)|].
    intros ->. apply exists_live in Hi1. by destruct Htk. }
  cbv beta. intros _ s2 (Hwf2 & Hst2 & E2 & Hh2 & _).
  assert (∀ u, value_of s2 h = Some u → u = t) as Hvu.
  { unfold value_of in *. rewrite E2, Hh2. cbn [eh node_of set_under_param set_spec set_kind]. rewrite Hvt. by intros u [= <-]. }
  assert (takes_node p h s s2) as Htn.
  { split; rewrite ?E2, ?Hsl; try done; [|by intros u ->%Hvu]. split; [apply Htk|].
    eapply steps_weaken; [|eapply steps_trans; [apply Htk|exact Hst2]]. cbn. tauto. }
  destruct (takes_node_good _ _ _ _ _ _ Hg Hwf2 Htn Hwp Hx) as (Hg2 & Hc2 & Hm2).
  { intros u Hu. assert (u = t) as -> by by eapply result_det. rewrite E2, Hsl. by apply value_slot_fits. }
  { intros u ->%Hvu. rewrite E2, Hsl. split; [done|]. cbn. apply take_ge, Hht. }
  { rewrite E2, Hsl. apply take_bound. }
  split_and!; [done|done|exact (st_mode _ _ _ Hst2)| |done]. apply exists_spec. by rewrite E2, Hsl.
Qed.
(** Executed at once. *)
Lemma ensures_run_eager p up s :
  good [] s → checked p → trusted p s → Forall (λ h, exists_ s h = true) (ins p) →
  ensures (run_eager p up) (outcome p s) s.
Proof.
  intros Hg Hck Htr Hx. pose proof (ck_wf _ Hck) as Hwp. unfold run_eager. apply ensures_bind; [intros; grows|].
  eapply ensures_mono; [by apply (ensures_run_inputs Hruns [])|]. cbv beta. intros b s1 _ (Hg1 & Hr1 & Hv1).
  pose proof (ran_carries _ none _ _ Hr1) as Hc1. destruct b; cbn [negb]; cycle 1.
  { apply ensures_ret. intros _. by apply outcome_none; [| |apply Hr1]. }
  assert (Forall (λ h, exists_ s1 h = true) (ins p)) as Hx1.
  { eapply Forall_impl; [exact Hx|]. intros h Hh. by apply (ca_keeps _ _ _ Hc1). }
  apply ensures_wp. tf_step. eapply wp_mono; [apply (wp_execute_op []); [done|]| |done].
  { apply Forall_and. split; [|by apply Hv1]. eapply Forall_impl; [exact Hx1|]. intros h. apply exists_live. }
  cbv beta. intros [h|] s2 [Hwf2 Hr2]; cycle 1.
  { destruct (steps_none_good _ _ _ _ Hg1 Hwf2 Hr2) as [Hg2 Hrn2]. apply outcome_none; [done| |].
    - eapply carries_l; [exact Hc1|by eapply ran_carries].
    - by rewrite (rn_mode _ _ _ Hrn2), (rn_mode _ _ _ Hr1). }
  destruct Hr2 as (ts & t & Hts & Ht & Hf).
  assert (∀ u, result_of p s1 u ↔ result_of p s u) as Hres by (intros u; symmetry; apply keeps_result; [done|apply (ca_keeps _ _ _ Hc1)]).
  assert (result_of p s1 t) as Hrt by by exists ts.
  assert (housed t) as Hht by by apply (result_housed p s t), Hres.
  pose proof (fresh_takes _ _ _ _ _ Hf) as Htk.
  assert (exists_ s h = false) as Hnew by (eapply carries_not_exists; [exact Hc1|apply not_exists, Htk]).
  assert (graph_mode s2 = graph_mode s) as Hm2 by (by rewrite (st_mode _ _ _ (tk_steps _ _ _ Htk)), (rn_mode _ _ _ Hr1)).
  tf_step. destruct up.
  - tf_step. eapply wp_mono; [by apply (wp_record_value p s1 s2 h t)| |done]. cbv beta. intros _ s3 (Hg3 & Hc3 & Hmo3 & Hx3 & Hm3). do 2 tf_step.
    destruct (set_stats_good _ _ (stat_rec s3 + 1) (stat_exe s3) (stat_rep s3) Hg3) as [Hg4 Hr4]. split; [done|].
    split; [apply carries_some; eapply carries_l; [exact Hc1|]; eapply carries_r; [exact Hc3|by eapply ran_carries]|].
    split; [change (graph_mode s3 = graph_mode s); by rewrite Hmo3|]. intros ? [= <-]. split; [done|].
    destruct (rn_keeps _ _ _ Hr4 h Hx3) as [Hx4 Hm4]. split; [done|]. intros u.
    transitivity (means s3 h u); [symmetry; apply Hm4|]. by rewrite Hm3.
  - do 2 tf_step. pose proof (fresh_good _ _ _ _ _ _ _ Hg1 Hwf2 Hf ltac:(done) Hht) as Hg2.
    pose proof (takes_carries _ _ _ _ _ (gd_ok _ _ Hg1) Hwf2 Htk) as Hc2.
    split; [done|]. split; [by apply carries_some; eapply carries_l|]. split; [done|]. intros ? [= <-]. split; [done|].
    split; [by eapply fresh_exists|]. intros u. rewrite (fresh_means _ _ _ _ _ _ Hf), <- Hres.
    split; [by intros ->|intros Hu; by eapply result_det].
Qed.

(** ** Recorded *)

(** A slot given up. *)
Lemma gives_up loose loose' s0 s s' h :
  good loose s → ok loose' s' → steps (only h) s s' → kind (slots s' h) = K_FREE →
  exists_ s0 h = false → carries (only h) s0 s → good loose' s' ∧ carries none s0 s'.
Proof using.
  intros Hg Hwf' Hst Hf Hx0 [Hk0 Hv0 Hn0].
  assert (evolves s s') as He.
  { eapply steps_evolves; [exact Hst|by intros i -> ?|]. intros i. destruct (decide (i = h)); auto. }
  assert (∀ i, kind (slots s' i) ≠ K_FREE → i ≠ h ∧ kind (slots s i) ≠ K_FREE ∧ stays s s' i) as Hl.
  { intros i Hi. assert (i ≠ h) as Hne by (intros ->; done). split; [done|]. by apply (st_slot _ _ _ Hst i). }
  assert (∀ i, exists_ s0 i = true → exists_ s i = true ∧ exists_ s' i = true) as Hx.
  { intros i Hi. assert (i ≠ h) as Hne by (intros ->; congruence). apply Hk0 in Hi as [Hi _]. split; [done|].
    by apply (st_named _ _ _ Hst). }
  split; [split; [done| | |]|split].
  - eapply (evolves_sound loose loose' s); [apply Hg|done|apply Hg|done|]. intros i Hi Hf'. by apply Hl in Hi as (_ & ? & _).
  - intros i Hk. destruct (Hl i) as (_ & _ & [r Hr] & _); [congruence|]. rewrite Hr in *. by apply (gd_specs _ _ Hg).
  - eapply entries_ok_same; [apply Hst|apply Hg].
  - intros i Hi. destruct (Hx i Hi) as [Hi1 Hi2]. split; [done|]. intros t. rewrite (proj2 (Hk0 i Hi) t).
    eapply (evolves_means loose loose'); [apply Hg|done|done|by apply exists_live..].
  - intros i Hi Hv. destruct (Hx i Hi) as [Hi1 Hi2]. destruct (Hl i) as (_ & _ & _ & ->); [by apply exists_live|]. by apply Hv0.
  - intros i Hi. left. assert (i ≠ h) as Hne by (intros ->; by apply exists_live in Hi).
    destruct (Hn0 i) as [?|?]; [by eapply steps_names|done|done].
Qed.

(** A recorded node that is not read, before it is given out. *)
Record recorded (p : OpSpec) (h : Z) (s : tfst) : Prop := {
  rc_exists : exists_ s h = true;
  rc_unused : unused s h;
  rc_kind : kind (slots s h) = K_NODE;
  rc_spec : spec (slots s h) = p;
  rc_eh : eh (slots s h) = None;
}.
Lemma recorded_ran p h R s s' : recorded p h s → ¬ R h → ran R s s' → recorded p h s'.
Proof using.
  intros [Hx Hu Hk Hsp He] HR Hr. destruct (rn_still _ _ _ Hr h HR Hx Hu) as [[[r Hrs] _] Hu'].
  split; rewrite ?Hrs; try done. by apply (rn_keeps _ _ _ Hr).
Qed.
Lemma wp_undo_outcome p q h s0 s :
  good [] s → recorded q h s → exists_ s0 h = false → carries (only h) s0 s → graph_mode s = graph_mode s0 →
  wp (undo h q) (outcome p s0) never s.
Proof using.
  intros Hg [Hx Hu Hk Hsp He] Hx0 Hca Hm. apply exists_spec in Hx as (_ & _ & Hrel).
  eapply wp_mono; [apply (wp_undo [] h q); [apply Hg|done..]| |done]. cbv beta. intros r s' (-> & Hwf' & Hst & Hf).
  destruct (gives_up _ _ s0 _ _ _ Hg Hwf' Hst Hf Hx0 Hca) as [Hg' Hca'].
  apply outcome_none; [done|done|]. by rewrite (st_mode _ _ _ Hst).
Qed.

(** The new node with its type, before its shape is known. *)
Definition typed_node (p : OpSpec) (h : Z) s : tfst :=
  upd_slots h (set_dtype (recorded_dtype p (dtype (slots s (input p 0))))) s.
Lemma wp_record_node p up h s s1 :
  good [] s → ok [] s1 → new_slot h s s1 → checked p → trusted p s → Forall (λ h, exists_ s h = true) (ins p) →
  wp (record h p up) (λ _ s', let s' := typed_node p h s' in
    good [] s' ∧ carries (only h) s s' ∧ graph_mode s' = graph_mode s ∧ recorded p h s' ∧
    ∀ t, means s' h t ↔ result_of p s t) never s1.
Proof using Hdoc.
  intros Hg Hwf1 [Hin Hfree Hput Hhs Hnext Hsc Hen Hmo] Hck Htr Hx.
  pose proof (is_put_at _ _ _ _ Hput) as E1. assert (∀ i, exists_ s i = true → i ≠ h) as Hne by (intros i Hi ->; by apply exists_live in Hi).
  assert (takes h s s1) as Ht1. { split; [done|]. eapply steps_put; [exact Hput| |done|done]. intros. by rewrite Hhs. }
  eapply wp_mono; [apply (wp_record [] h p up); try (by rewrite E1); try done| |done].
  { eapply takes_unused; [apply Hg|done|]. unfold edges. rewrite E1. by rewrite decide_False by (by intros [_ ?]). }
  { intros i Hi. rewrite Forall_forall in Hx. specialize (Hx i Hi). split; [|by apply Hne].
    rewrite (is_put_other _ _ _ _ i Hput) by (by apply Hne). by apply exists_live. }
  cbv beta. intros _ s2 (Hwf2 & Hst2 & E2 & Hh2 & Ho2). cbv zeta. unfold typed_node. set (dt := recorded_dtype p _).
  destruct (put_live [] s2 h (set_dtype dt) Hwf2) as [Hwf3 Hst3]; [by rewrite E2|by split|].
  pose proof (is_put_at _ _ _ _ (upd_slots_put h (set_dtype dt) s2)) as E3. rewrite E2, E1 in E3.
  assert (∀ i, i ≠ h → ∃ r, slots (upd_slots h (set_dtype dt) s2) i = set_refs r (slots s i)) as Ho3.
  { intros i Hi. destruct (Ho2 i) as [r Hr]. exists r.
    by rewrite (is_put_other _ _ _ _ i (upd_slots_put h (set_dtype dt) s2) Hi), (Hr Hi), (is_put_other _ _ _ _ i Hput Hi). }
  assert (hs (upd_slots h (set_dtype dt) s2) = hs s) as Hh3 by (cbn; by rewrite Hh2).
  set (s3 := upd_slots h (set_dtype dt) s2) in *.
  assert (takes h s s3) as Ht3.
  { split; [done|]. eapply steps_weaken; [|eapply steps_trans; [apply Ht1|eapply steps_trans; [exact Hst2|exact Hst3]]]. cbn. tauto. }
  assert (value_of s3 h = None) as Hv3 by (unfold value_of; by rewrite E3).
  assert (takes_node p h s s3) as Htn by (split; rewrite ?E3, ?Hv3; done).
  destruct (takes_node_good _ _ _ _ _ _ Hg Hwf3 Htn (ck_wf _ Hck) Hx) as (Hg3 & Hc3 & Hm3); [| | |].
  { intros t Hr. destruct (result_housed p s t Hg Hck Htr Hx Hr) as [[Hl Hp] Hdt]. rewrite E3. split; [done..| |done]. cbn.
    rewrite <- Hdt. unfold dt. f_equal. destruct (doc_result Hdoc p s t (ck_covered _ Hck) Hr) as (ts & Hts & Hd & _).
    destruct ts as [|u ts]; [by destruct (doc_result_inputs _ _ _ Hd)|]. destruct (Forall2_lookup_r _ _ _ 0 u Hts eq_refl) as (i & Hi & _).
    unfold input. rewrite Hi. cbn. rewrite Forall_lookup in Hx. pose proof (Hne i (Hx 0 i Hi)) as Hni.
    destruct (Ho2 i) as [r Hr2]. by rewrite (Hr2 Hni), (is_put_other _ _ _ _ i Hput Hni). }
  { intros t. by rewrite Hv3. }
  { rewrite E3. cbn. lia. }
  split; [done|]. split; [done|]. split; [apply Ht3|]. split; [|done].
  split; rewrite ?E3; try done.
  - apply exists_spec. by rewrite E3.
  - intros n Hn. destruct (decide (n = h)) as [->|Hnh].
    + unfold edges in Hn. rewrite E3 in Hn. cbn in Hn. rewrite decide_True in Hn by done.
      rewrite Forall_forall in Hx. by apply (Hne h); [apply Hx|].
    + destruct (Ho3 n Hnh) as [r Hr]. unfold edges in Hn. rewrite Hr in Hn. case_decide as Hd; [|by apply elem_of_nil in Hn].
      cbn in Hd, Hn. destruct Hd as [_ Hkn]. by apply (node_input_live [] s n h (gd_ok _ _ Hg) Hkn) in Hn.
Qed.

(** What is recorded, once its shape is known. *)
Lemma recorded_outcome p h s0 s :
  good [] s → carries (only h) s0 s → graph_mode s = graph_mode s0 → exists_ s0 h = false → exists_ s h = true →
  (∀ t, means s h t ↔ result_of p s0 t) → outcome p s0 (Some h) s.
Proof. intros Hg Hc Hm Hx0 Hx Hr. split; [done|]. split; [by apply carries_some|]. split; [done|]. by intros ? [= <-]. Qed.

(** From the recorded node on. *)
Definition node_made (p : OpSpec) (h : Z) (s s' : tfst) : Prop :=
  carries (only h) s s' ∧ graph_mode s' = graph_mode s ∧ recorded p h s' ∧ ∀ t, means s' h t ↔ result_of p s t.
Lemma node_made_ran p h s s4 s5 R :
  node_made p h s s4 → ran R s4 s5 → carries (only h) s s5 ∧ graph_mode s5 = graph_mode s ∧ exists_ s5 h = true ∧
    (¬ R h → recorded p h s5) ∧ ∀ t, means s5 h t ↔ result_of p s t.
Proof using.
  intros (Hc & Hm & Hrc & Hmn) Hr. pose proof (ran_carries _ none _ _ Hr) as Hc5. split; [by eapply carries_r|].
  split; [by rewrite (rn_mode _ _ _ Hr)|]. destruct (ca_keeps _ _ _ Hc5 h (rc_exists _ _ _ Hrc)) as [Hx5 Hm5]. split; [done|].
  split; [intros; by eapply recorded_ran|]. intros t. by rewrite <- Hm5.
Qed.

Lemma keeps_trusted p s s' :
  good [] s' → Forall (λ h, exists_ s h = true) (ins p) → keeps s s' → trusted p s → trusted p s'.
Proof using.
  intros Hg' Hx Hk [He Hr]. assert (∀ i t, means s' (input p i) t → means s (input p i) t) as Hm.
  { intros i t Hm. unfold input in *. destruct (ins p !! i) as [h|] eqn:Ei; cbn in *.
    - rewrite Forall_lookup in Hx. by apply (Hk h (Hx i h Ei)).
    - apply means_live, (c_table _ _ _ _ (wf_counted _ _ _ _ _ (gd_ok _ _ Hg'))) in Hm. unfold in_table in Hm. lia. }
  split; [intros Ho t Ht; by apply He, Hm|]. intros Ho. destruct (Hr Ho) as [? Hl]. split; [done|]. intros t Ht. by apply Hl, Hm.
Qed.

(** Its shape is found, by rule or by asking TensorFlow; or it is undone. *)
Lemma ensures_node_shape p h s s4 :
  checked p → trusted p s → Forall (λ h, exists_ s h = true) (ins p) → exists_ s h = false →
  good [] s4 → node_made p h s s4 →
  ensures (sh <- shape_rule p ;;
    match sh with
    | Some sh => upd h (λ x, set_shape_known true (set_shape sh x)) ;; ret (Some h)
    | None =>
        e <- gets errbuf ;;
        if decide (head e = Some (byte_of 33)) then modify (set_errbuf (tail e)) ;; undo h p
        else sh <- tfb_shape h ;; match sh with None => undo h p | Some _ => ret (Some h) end
    end) (outcome p s) s4.
Proof.
  intros Hck Htr Hx Hx0 Hg4 Hn4. pose proof Hn4 as (Hc4 & _ & Hrc4 & _).
  assert (¬ read_by p h) as Hnr.
  { intros [Hi|Hz]; [rewrite Forall_forall in Hx; apply Hx in Hi; congruence|].
    pose proof (rc_exists _ _ _ Hrc4) as (Hin & _)%exists_spec. unfold in_table in Hin. lia. }
  assert (Forall (λ h, exists_ s4 h = true) (ins p)) as Hx4.
  { eapply Forall_impl; [exact Hx|]. intros i Hi. by apply (ca_keeps _ _ _ Hc4). }
  apply ensures_bind; [intros; grows|].
  eapply ensures_mono; [apply (ensures_shape_rule Hruns Hflat Hinfer Hdoc [] p s4 Hg4 Hx4 (ck_covered _ Hck))|].
  { apply (keeps_trusted p s s4); [done|done|apply Hc4|done]. }
  cbv beta. intros r s5 _ (Hg5 & Hr5 & Ha5). destruct (node_made_ran _ _ _ _ _ _ Hn4 Hr5) as (Hc5 & Hm5 & Hx5 & Hrc5 & Hmn5). specialize (Hrc5 Hnr).
  destruct r as [sh|]; [apply ensures_wp|apply ensures_bind; [intros; grows|apply ensures_wp]].
  - do 3 tf_step. destruct (upd_good [] s5 _ h (λ x, set_shape_known true (set_shape sh x)) (λ i, i = h) Hg5 eq_refl) as (Hg6 & Hr6);
      [by rewrite (rc_kind _ _ _ Hrc5)|apply set_shape_same| |intros _; by apply (Ha5 sh eq_refl)|done|].
    { eapply outlined_shaped; [unfold value_of; by rewrite (rc_eh _ _ _ Hrc5)|exact (is_put_at _ _ _ _ (upd_slots_put h _ s5))|done|].
      intros t Ht%Hmn5. apply (Ha5 sh eq_refl), (keeps_result p s s4); [done|apply Hc4|done]. }
    destruct (node_made_ran _ _ _ _ _ (λ i, i = h ∨ read_by p i) Hn4 (ran_trans _ _ _ _ (ran_weaken _ _ _ _ (λ i Hi, or_intror Hi) Hr5) (ran_weaken _ _ _ _ (λ i Hi, or_introl Hi) Hr6)))
      as (Hc6 & Hm6 & Hx6 & _ & Hmn6). by apply recorded_outcome.
  - tf_step. case_decide.
    + apply ensures_wp. do 2 tf_step.
      set (s6 := set_errbuf (tail (errbuf s5)) s5).
      destruct (quiet_good [] s5 s6 Hg5) as [Hg6 Hr6]; [by split|eapply entries_ok_same; [done|apply Hg5]|].
      apply wp_undo_outcome; [done| |done|eapply carries_r; [exact Hc5|by eapply ran_carries]|done].
      eapply recorded_ran; [exact Hrc5| |exact Hr6]; cbn; tauto.
    + apply ensures_bind; [intros; grows|]. eapply ensures_mono; [by apply (ensures_tfb_shape Hruns Hflat Hinfer [])|].
      cbv beta. intros r s6 _ (Hg6 & Hr6 & _).
      pose proof (ran_carries _ none _ _ Hr6) as Hc6. apply ensures_wp. destruct r as [sh|].
      * tf_step. apply recorded_outcome; [done|by eapply carries_r|by rewrite (rn_mode _ _ _ Hr6)|done|by apply (ca_keeps _ _ _ Hc6)|].
        intros t. rewrite <- Hmn5. symmetry. by apply (ca_keeps _ _ _ Hc6).
      * apply wp_undo_outcome; [done| |done|by eapply carries_r|by rewrite (rn_mode _ _ _ Hr6)].
        eapply recorded_ran; [exact Hrc5| |exact Hr6]. by intros [? _].
Qed.
Lemma ensures_run_graph p up s :
  good [] s → checked p → trusted p s → Forall (λ h, exists_ s h = true) (ins p) →
  ensures (run_graph p up) (outcome p s) s.
Proof.
  intros Hg Hck Htr Hx. unfold run_graph. apply ensures_bindo; [intros; grows|]. apply ensures_wp.
  eapply wp_mono; [apply (wp_slot_new None [] []), Hg| |done]. cbv beta. intros [h|] s1 [Hwf1 Hnew]; cycle 1.
  { destruct Hnew as (Hsl & Hhs & _ & _ & Hen & Hmo). assert (steps none s s1) as Hst by (apply steps_same; [by intros; rewrite Hsl|done..]).
    destruct (steps_none_good _ _ _ _ Hg Hwf1 Hst) as [Hg1 Hr1]. apply outcome_none; [done|by eapply ran_carries|apply Hst]. }
  assert (exists_ s h = false) as Hx0 by apply not_exists, Hnew.
  apply ensures_bind; [intros; grows|]. apply ensures_wp. eapply wp_mono; [by eapply wp_record_node| |done].
  cbv beta zeta. intros _ s2 (Hg3 & Hn3).
  apply ensures_bind; [intros; grows|]. apply ensures_wp. tf_step.
  apply ensures_bind; [intros; grows|]. apply ensures_wp. tf_step. fold (typed_node p h s2).
  set (s3 := typed_node p h s2) in *.
  apply ensures_bind; [intros; grows|]. apply ensures_wp. tf_step. unfold stat_rec_add.
  destruct (set_stats_good _ _ (stat_rec s3 + 1) (stat_exe s3) (stat_rep s3) Hg3) as [Hg4 Hr4].
  apply ensures_node_shape; [done..|]. destruct (node_made_ran _ _ _ _ _ _ Hn3 Hr4) as (? & ? & ? & Hrc & ?).
  split; [done|]. split; [done|]. split; [by apply Hrc; intros []|done].
Qed.

(** Recorded or executed, the answer stands for the same. *)
Lemma ensures_run_spec p s :
  good [] s → checked p → (Forall (λ h, exists_ s h = true) (ins p) → trusted p s) →
  ensures (run_spec p) (λ r s', outcome p s r s' ∧ (∀ h, r = Some h → Forall (λ h, exists_ s h = true) (ins p))) s.
Proof.
  intros Hg Hck Htr. unfold run_spec, all_exist. apply ensures_bind; [intros; grows|]. apply ensures_wp. tf_step.
  destruct (forallb (exists_ s) (ins p)) eqn:Hx; cbn [negb]; cycle 1.
  { apply ensures_wp. tf_step. eapply wp_mono; [apply wp_tf_fail| |done]. cbv beta. intros _ s1 Hi. tf_step.
    destruct (inert_good _ _ _ Hg Hi) as [Hg1 Hr1]. split; [|done].
    apply outcome_none; [exact Hg1|exact (ran_carries _ none _ _ Hr1)|exact (rn_mode _ _ _ Hr1)]. }
  assert (Forall (λ h, exists_ s h = true) (ins p)) as Hxs.
  { apply Forall_forall. intros h Hh. rewrite forallb_forall in Hx. by apply Hx, list_elem_of_In. }
  apply ensures_bind; [intros; grows|]. apply ensures_wp. tf_step.
  apply ensures_bind; [intros; grows|]. apply ensures_wp. unfold tfb_mode. tf_step.
  assert (∀ m : T (option Z), ensures m (outcome p s) s →
    ensures m (λ r s', outcome p s r s' ∧ (∀ h, r = Some h → Forall (λ h, exists_ s h = true) (ins p))) s) as Hm.
  { intros m Hm. eapply ensures_mono; [exact Hm|]. done. }
  case_decide; apply Hm; [apply ensures_run_eager|apply ensures_run_graph]; auto.
Qed.
End specified.
