(* ===== verification/Service.v ===== *)
(** * The back end's calls, one by one

    Values made and freed, temporaries, and the producers built from
    [run_spec] (modules/tensorflow/backend.c). *)
From Stdlib Require Import Floats.SpecFloat.
From S2P Require Import Prelude Effect Float Tensor Closure Compile Shape Producer Slots Table Record Meaning Typed Visit Key Frame Cached Described Evaluate Running Reading Recorded Specified.

Section service.
Context `{TensorFlow}.
Implicit Types s : tfst.

Lemma answers_impl (P P' : tensor → Prop) s r s' : (∀ t, P t ↔ P' t) → answers P s r s' → answers P' s r s'.
Proof.
  intros HP (Hg & Hc & Hm & Hr). split; [done|]. split; [done|]. split; [done|]. intros h Hh.
  destruct (Hr h Hh) as (? & ? & Ht). split; [done|]. split; [done|]. intros t. by rewrite Ht.
Qed.
Lemma inert_none P s s' : good [] s → inert s s' → answers P s None s'.
Proof.
  intros Hg Hi. destruct (inert_good _ _ _ Hg Hi) as [Hg' Hr].
  apply outcome_none; [done|exact (ran_carries _ none _ _ Hr)|apply Hr].
Qed.
Lemma steps_none_none P s s' : good [] s → ok [] s' → steps none s s' → answers P s None s'.
Proof.
  intros Hg Hwf Hi. destruct (steps_none_good _ _ _ _ Hg Hwf Hi) as [Hg' Hr].
  apply outcome_none; [done|exact (ran_carries _ none _ _ Hr)|apply Hr].
Qed.

(** ** Values *)

Lemma fresh_answers h t ck s s' :
  good [] s → ok [] s' → fresh_value h t ck s s' → (ck = true → constant t) → housed t → answers (λ u, u = t) s (Some h) s'.
Proof.
  intros Hg Hwf Hf Hc Ht0. pose proof (fresh_takes _ _ _ _ _ Hf) as Ht.
  split; [by eapply fresh_good|]. split; [apply carries_some; by eapply takes_carries; [apply Hg|..]|].
  split; [apply Ht|]. intros ? [= <-]. split; [by apply not_exists, Ht|]. split; [by eapply fresh_exists|].
  intros u. by eapply fresh_means.
Qed.
Lemma wp_make t ck s :
  good [] s → (ck = true → constant t) → housed t → wp (slot_from_tensor t ck) (answers (λ u, u = t) s) never s.
Proof.
  intros Hg Hc Ht. eapply wp_mono; [apply (wp_slot_from_tensor None [] []), Hg| |done]. cbv beta. intros [h|] s' [Hwf Hr].
  - by eapply fresh_answers.
  - by apply steps_none_none.
Qed.
Lemma wp_tfb_from_doubles data sh s :
  good [] s → housed (tensor_f32 data sh) → wp (tfb_from_doubles data sh) (answers (λ u, u = tensor_f32 data sh) s) never s.
Proof. intros. by apply wp_make. Qed.

(** ** The cache of scalars *)

Definition scalar (f : float32) : tensor := Tensor TF_FLOAT [] [Flt f].
Lemma scalar_housed f : housed (scalar f).
Proof. by apply (bool_decide_unpack _). Qed.
(** A cached handle holds the value it is kept under. *)
Definition cached (s : tfst) : Prop := ∀ f e,
  (f, e) ∈ scalars s → (e < next_h s)%nat ∧ ∀ t, hs s !! e = Some t → t = scalar f.
Definition tidy (s s' : tfst) : Prop := cached s → cached s'.

Record idle (s s' : tfst) : Prop := {
  id_hs : hs s' = hs s;
  id_next : next_h s' = next_h s;
  id_scalars : scalars s' = scalars s;
}.
Lemma idle_tidy s s' : idle s s' → tidy s s'.
Proof. intros [Hh Hn Hc] Hca f e. rewrite Hc, Hn, Hh. apply Hca. Qed.
Lemma bad_idle s : match bad s with Ret _ s' => idle s s' | _ => False end.
Proof. unfold bad, bind, gets, modify, fail, ret. by destruct (tfq s) as [|[m|] q]. Qed.
Lemma idle_trans s s' s'' : idle s s' → idle s' s'' → idle s s''.
Proof. intros [] []. split; congruence. Qed.
(** A function is made without touching the handles. *)
Lemma function_idle e : follows idle (entry_function e).
Proof.
  intros s. unfold entry_function, entry, upd_entry, modify, gets, bind, undefined, ret.
  destruct (entries s !! e) as [x|]; [|done]. case_decide; [done|].
  set (s1 := set_counts _ _ _). assert (idle s s1) as Hi1 by done. clearbody s1.
  pose proof (bad_idle s1) as Hi2. destruct (bad s1) as [b1 s2|s2|s2]; [|done|done].
  pose proof (idle_trans _ _ _ Hi1 Hi2) as Hi12. destruct b1; [done|].
  set (s3 := set_entries _ s2). assert (idle s s3) as Hi13 by (by destruct Hi12). clearbody s3.
  pose proof (bad_idle s3) as Hi4. destruct (bad s3) as [b3 s4|s4|s4]; [|done|done].
  pose proof (idle_trans _ _ _ Hi13 Hi4) as Hi14. destruct b3; [done|by destruct Hi14].
Qed.

#[export] Instance tidy_framed : Framed tidy.
Proof.
  split.
  - split; [by intros s ?|]. intros s1 s2 s3 Ha Hb Hc. by apply Hb, Ha.
  - intros s s' []. by apply idle_tidy.
  - intros t s Hc f e He. destruct (Hc f e He) as [Hlt Ht]. cbn. split; [lia|]. intros u.
    rewrite lookup_insert_ne by lia. apply Ht.
  - intros e s Hc f e' He. destruct (Hc f e' He) as [Hlt Ht]. cbn. split; [done|]. intros u.
    intros [_ Hu]%lookup_delete_Some. by apply Ht.
  - intros x s. by apply idle_tidy.
  - intros e s. pose proof (function_idle e s) as Hi. destruct (entry_function e s); [by apply idle_tidy|done|by apply idle_tidy].
Qed.
#[local] Hint Resolve tidy_framed : frame.

(** ** Combining what is known of a run *)

Lemma wp_follows {A} (m : T A) Q R s : wp m Q never s → follows R m → wp m (λ a s', Q a s' ∧ R s s') never s.
Proof. intros Hm Hf. specialize (Hf s). unfold wp in *. by destruct (m s). Qed.
Lemma ensures_follows {A} (m : T A) Q R s : ensures m Q s → follows R m → ensures m (λ a s', Q a s' ∧ R s s') s.
Proof. intros Hm Hf. specialize (Hf s). unfold ensures in *. destruct (m s); [|done..]. auto. Qed.

(** Equal as the cache compares them. *)
Definition same_scalar (v : float64) (f : float32) : Prop := f = narrow v ∨ SFeqb f (narrow v) = true.

Lemma scalar_keep_cached f e s :
  cached s → (e < next_h s)%nat → hs s !! e = Some (scalar f) → wp (scalar_keep f e) (λ _ s', cached s') never s.
Proof.
  intros Hc He Ht. unfold scalar_keep. do 4 tf_step.
  assert (∀ s', scalars s' ⊆ (f, e) :: scalars s → next_h s' = next_h s → hs s' ⊆ hs s → cached s') as Hgo.
  { intros s' Hsub Hn Hh g e' Hin. rewrite Hn. apply Hsub, elem_of_cons in Hin as [[= -> ->]|Hin].
    - split; [done|]. intros t Hlk. pose proof (lookup_weaken _ _ _ _ Hlk Hh). congruence.
    - destruct (Hc g e' Hin) as [Hlt Hu]. split; [done|]. intros t Hlk. apply Hu. by eapply lookup_weaken. }
  cbv zeta. destruct (scalars s !! _) as [[g old]|] eqn:El.
  - unfold delete_handle. do 3 tf_step. apply Hgo; [|done|apply delete_subseteq]. cbn.
    intros p Hp. apply elem_of_cons. apply list_elem_of_lookup in Hp as [k Hk].
    apply list_lookup_insert_Some in Hk as [(_ & <- & _)|[_ Hk]]; [by left|]. right. by eapply list_elem_of_lookup_2.
  - tf_step. apply Hgo; [|done|done]. cbn. intros p. rewrite elem_of_app, list_elem_of_singleton, elem_of_cons. tauto.
Qed.
Lemma fscalar_cached v s : good [] s → cached s → wp (fscalar v) (λ _ s', cached s') never s.
Proof.
  intros Hg Hc. unfold fscalar. do 2 tf_step. destruct (scalar_find _ _) as [e|] eqn:Ef.
  - assert (∀ (m : T (option Z)), wp m (λ _ _, True) never s → follows tidy m → wp m (λ _ s', cached s') never s) as Hm.
    { intros m Hm Hf. eapply wp_mono; [by apply (wp_follows _ _ _ _ Hm Hf)| |done]. cbv beta. intros a s' [_ Ht]. by apply Ht. }
    apply Hm; [|frame].
    apply scalar_find_in in Ef as (f & Hfe & _). tf_step.
    assert (is_Some (hs s !! e)) as [t Ht].
    { apply (owned_cache_live _ _ _ (wf_owned _ _ _ _ _ (gd_ok _ _ Hg))). apply list_elem_of_fmap. by exists (f, e). }
    eapply wp_mono; [apply (wp_copy_sharing None [] []); [apply Hg|by intros ? [= <-]]| |done].
    cbv beta. intros [e'|] s1 Hr; [|done]. destruct Hr as (t' & _ & Hwf1 & Hmd).
    eapply wp_mono; [apply (wp_slot_from_handle None [] [] e' t'); [done|by eapply made_live]|done|done].
  - tf_step. eapply wp_mono.
    { apply (wp_follows _ _ tidy _ (wp_slot_from_tensor None [] [] (Tensor TF_FLOAT [] [Flt (narrow v)]) false s (gd_ok _ _ Hg))). frame. }
    2: done. cbv beta. intros [h|] s1 [[Hwf1 Hr] Hc1]; [|by apply Hc1]. specialize (Hc1 Hc).
    do 3 tf_step. pose proof (fv_slot _ _ _ _ _ Hr) as (e & He & Ht).
    eapply wp_mono.
    { apply (wp_follows _ _ tidy _ (wp_copy_sharing None [] [] [] (eh (slots s1 h)) s1 Hwf1 ltac:(rewrite He; by intros e' [= <-]))). frame. }
    2: done. cbv beta. intros [e'|] s2 [Hr2 Hc2]; specialize (Hc2 Hc1); [|by tf_step].
    destruct Hr2 as (t' & Ht' & Hwf2 & Hmd). rewrite He in Ht'. cbn in Ht'. rewrite Ht in Ht'. injection Ht' as <-.
    tf_step. eapply wp_mono; [apply scalar_keep_cached; [done| |]|by intros; tf_step|done].
    + destruct (decide (e' < next_h s2)%nat) as [|Hn]; [done|].
      pose proof (o_next _ _ (wf_owned _ _ _ _ _ Hwf2) e' ltac:(lia)). pose proof (made_live _ _ _ _ Hmd). congruence.
    + exact (made_live _ _ _ _ Hmd).
Qed.
Lemma wp_scalar v s :
  good [] s → cached s →
  wp (fscalar v) (λ r s', cached s' ∧ ∃ f, same_scalar v f ∧ answers (λ u, u = scalar f) s r s') never s.
Proof.
  intros Hg Hc. eapply wp_mono; [apply wp_and; [by apply fscalar_cached|apply (wp_fscalar None [] v s), Hg]| |by intros ? []].
  cbv beta. intros r s' (Hc' & Hwf & Hr). split; [done|]. destruct r as [h|].
  - destruct Hr as (t & Hf & Ht). assert (∃ f, t = scalar f ∧ same_scalar v f) as (f & -> & Hs).
    { destruct Ht as [->|(f & e & Hin & Heq & Hlk)]; [exists (narrow v); split; [done|by left]|].
      exists f. split; [by apply (Hc f e Hin)|by right]. }
    exists f. split; [done|]. eapply fresh_answers; [done..|]. apply scalar_housed.
  - exists (narrow v). split; [by left|]. by apply steps_none_none.
Qed.

(** ** Freeing, and temporaries *)

(** Everything but [h] is as it was. *)
Definition spares (h : Z) (s s' : tfst) : Prop := ∀ i, i ≠ h →
  exists_ s' i = exists_ s i ∧
  (exists_ s i = true → (∀ t, means s i t ↔ means s' i t) ∧ (value_of s i ≠ None → value_of s' i ≠ None)).

Lemma worn_evolved s s' h : worn s s' h → evolved s s' h.
Proof.
  intros [Hk Hs _ _ Hc Hv Hsh Hd Hkn Hvv]. split; [done|done| |by rewrite Hsh|].
  - apply outlined_same; [done..|]. intros t Ht. left. destruct Hvv as [Hvv|[_ Hvv]]; congruence.
  - left. split; [done|]. split; [done|]. destruct Hvv as [?|[? Hvv]]; [by left|right; split; [done|]]. by rewrite Hvv.
Qed.
Lemma wp_free_tensor loose h s :
  good loose s →
  wp (tfb_free h) (λ b s', good loose s' ∧ b = exists_ s h ∧ exists_ s' h = false ∧
    graph_mode s' = graph_mode s ∧ spares h s s') never s.
Proof.
  intros Hg. eapply wp_mono; [apply wp_tfb_free, Hg| |done]. cbv beta. intros b s' (Hwf & -> & Hx' & Hst & Hw).
  assert (evolves s s') as He.
  { eapply steps_evolves; [exact Hst| |intros i; destruct (decide (i = h)); auto]. intros i -> Hk _.
    destruct (Hw Hk) as [_ Hwn]. by apply worn_evolved. }
  assert (∀ i, kind (slots s' i) ≠ K_FREE → kind (slots s i) ≠ K_FREE) as Hl.
  { intros i Hk. destruct (decide (i = h)) as [->|Hne]; [by apply Hw|]. by apply (st_slot _ _ _ Hst i). }
  split; [|split; [done|split; [done|split; [apply Hst|]]]].
  - split; [done| | |].
    + eapply (evolves_sound loose loose s); [apply Hg|done|apply Hg|done|]. intros i Hk Hf. by apply Hl in Hk.
    + intros i Hk. destruct (ev_becomes _ _ _ (He i ltac:(congruence) ltac:(apply Hl; congruence))) as [(Hki & Hsp & _)|(_ & ? & _)]; [|congruence].
      rewrite Hsp. apply (gd_specs _ _ Hg). congruence.
    + eapply entries_ok_same; [apply Hst|apply Hg].
  - intros i Hi. assert (exists_ s' i = exists_ s i) as Hxi.
    { apply eq_bool_prop_intro. split; intros Hx%Is_true_true; apply Is_true_true; [by eapply steps_names|].
      by apply (st_named _ _ _ Hst). }
    split; [done|]. intros Hx. assert (exists_ s' i = true) as Hx2 by congruence. split.
    + intros t. eapply (evolves_means loose loose); [apply Hg|done|done|by apply exists_live..].
    + destruct (st_slot _ _ _ Hst i Hi) as [_ [_ ->]]; [by apply exists_live|done].
Qed.

(** A temporary made, used and freed. *)
Lemma answers_spared Q P s0 s s1 s2 tmp r :
  answers Q s0 (Some tmp) s → answers P s r s1 →
  good [] s2 → graph_mode s2 = graph_mode s1 → exists_ s2 tmp = false → spares tmp s1 s2 →
  answers P s0 r s2.
Proof.
  intros (Hg & [Hk Hv Hn] & Hm & Hr) (Hg1 & [Hk1 Hv1 Hn1] & Hm1 & Hr1) Hg2 Hm2 Hx2 Hsp.
  destruct (Hr tmp eq_refl) as (Hx0 & Hx & _).
  assert (∀ i, exists_ s0 i = true → i ≠ tmp ∧ exists_ s i = true ∧ exists_ s1 i = true) as Hi0.
  { intros i Hi. split; [by intros ->; congruence|]. apply Hk in Hi as [Hi _]. split; [done|]. by apply Hk1. }
  assert (∀ i, i ≠ tmp → exists_ s1 i = true → exists_ s2 i = true) as Hi2.
  { intros i Hne Hi. by rewrite (proj1 (Hsp i Hne)). }
  split; [done|]. split; [split|split; [congruence|]].
  - intros i Hi. destruct (Hi0 i Hi) as (Hne & His & Hi1). split; [auto|]. intros t.
    rewrite (proj2 (Hk i Hi) t), (proj2 (Hk1 i His) t). by apply (Hsp i Hne).
  - intros i Hi Hvi. destruct (Hi0 i Hi) as (Hne & His & Hi1). apply (Hsp i Hne); [done|]. auto.
  - intros i Hi. assert (i ≠ tmp) as Hne by (intros ->; congruence). rewrite (proj1 (Hsp i Hne)) in Hi.
    destruct (Hn1 i Hi) as [His|?]; [|by right]. destruct (Hn i His) as [?|[= ->]]; [by left|done].
  - intros h Hh. destruct (Hr1 h Hh) as (Hxh & Hxh1 & Hmh). assert (h ≠ tmp) as Hne by (intros ->; congruence).
    split; [|split; [auto|]].
    + apply not_true_is_false. intros Hi. destruct (Hi0 h Hi) as (_ & ? & _). congruence.
    + intros t. rewrite <- Hmh. symmetry. by apply (Hsp h Hne).
Qed.
Lemma exists_pos s h : exists_ s h = true → (0 < h)%Z.
Proof. intros (Hh & _)%exists_spec. unfold in_table in Hh. lia. Qed.
Lemma ensures_with_free Q P (E : option Z → Prop) m s0 s tmp :
  answers Q s0 (Some tmp) s → ensures m (λ r s', answers P s r s' ∧ E r) s →
  ensures (with_free m tmp) (λ r s', answers P s0 r s' ∧ E r) s.
Proof.
  intros Ha Hm. pose proof Ha as (_ & _ & _ & Hr). destruct (Hr tmp eq_refl) as (_ & Hx & _).
  unfold with_free. apply ensures_bind; [intros; grows|]. eapply ensures_mono; [exact Hm|].
  cbv beta. intros r s1 _ [H1 HE]. apply ensures_wp. tf_step. rewrite bool_decide_true by (by eapply exists_pos). cbn [when].
  tf_step. eapply wp_mono; [apply (wp_free_tensor []), H1| |done]. cbv beta. intros b s2 (Hg2 & _ & Hx2 & Hm2 & Hsp). do 2 tf_step.
  split; [|done]. by eapply answers_spared.
Qed.
End service.
#[export] Hint Resolve tidy_framed : frame.
