(* ===== verification/Gained.v ===== *)
(** * The slots a gradient is answered in

    [take_grads] of modules/tensorflow/backend.c: a new slot for each
    gradient, the function's result or zeros; what the program had is kept,
    and what cannot be handed on is let go. *)
From Stdlib Require Import Floats.SpecFloat.
From S2P Require Import Prelude Effect Float Tensor Closure Compile Shape Producer Slots Table Record Meaning Typed Visit Key Frame Cached Described Evaluate Running Reading Recorded Specified Service.

Section gained.
Context `{TensorFlow}.
Implicit Types s : tfst.

(** ** New tensors *)

(** The handles [l] are new, one for each of [ts]; what was there is kept. *)
Record gained (loose : list nat) (l : list Z) (ts : list tensor) (s s' : tfst) : Prop := {
  ga_good : good loose s';
  ga_carries : carries (λ i, i ∈ l) s s';
  ga_mode : graph_mode s' = graph_mode s;
  ga_entries : entries s' = entries s;
  ga_distinct : NoDup l;
  ga_new : Forall2 (λ h t, exists_ s h = false ∧ exists_ s' h = true ∧ ∀ u, means s' h u ↔ u = t) l ts;
  ga_stays : ∀ h, exists_ s h = true → stays s s' h;
}.
Lemma gained_nil loose s s' : good loose s' → carries none s s' → graph_mode s' = graph_mode s → entries s' = entries s →
  (∀ h, exists_ s h = true → stays s s' h) → gained loose [] [] s s'.
Proof. intros. split; try done; [by apply carries_any|constructor]. Qed.
Lemma gained_steps loose loose' s s' : good loose s → ok loose' s' → steps none s s' → gained loose' [] [] s s'.
Proof.
  intros Hg Hwf Hst. destruct (steps_none_good _ _ _ _ Hg Hwf Hst) as [Hg' Hr].
  apply gained_nil; [done|by eapply ran_carries|apply Hst|apply Hst|].
  intros h Hx. apply (st_slot _ _ _ Hst h); [tauto|]. by apply exists_live, Hr.
Qed.
Lemma gained_fresh loose loose' h t ck s s' :
  good loose s → ok loose' s' → fresh_value h t ck s s' → (ck = true → constant t) → housed t → gained loose' [h] [t] s s'.
Proof.
  intros Hg Hwf Hf Hc Ht. pose proof (fresh_takes _ _ _ _ _ Hf) as Htk. pose proof (fv_steps _ _ _ _ _ Hf) as Hst.
  assert (∀ i, exists_ s i = true → i ≠ h) as Hne.
  { intros i Hi ->. apply exists_live in Hi. by rewrite (tk_free _ _ _ Htk) in Hi. }
  split; [by eapply fresh_good| |apply Hst|apply Hst|apply NoDup_singleton| |].
  - eapply carries_weaken; [|by eapply takes_carries; [apply Hg|..]]. intros i ->. by apply list_elem_of_singleton.
  - constructor; [|constructor]. split; [apply not_exists, Htk|]. split; [by eapply fresh_exists|]. intros u. by eapply fresh_means.
  - intros i Hi. apply (st_slot _ _ _ Hst i); [by apply Hne|]. apply exists_live, (st_named _ _ _ Hst); [by apply Hne|done].
Qed.
Lemma gained_app loose loose' l l' ts ts' s s1 s2 :
  gained loose l ts s s1 → gained loose' l' ts' s1 s2 → gained loose' (l ++ l') (ts ++ ts') s s2.
Proof.
  intros [Hg1 Hc1 Hm1 He1 Hd1 Hn1 Hs1] [Hg2 Hc2 Hm2 He2 Hd2 Hn2 Hs2].
  assert (∀ h, h ∈ l → exists_ s h = false ∧ exists_ s1 h = true) as Hl.
  { intros h [k Hk]%list_elem_of_lookup. by destruct (Forall2_lookup_l _ _ _ _ _ Hn1 Hk) as (? & _ & ? & ? & _). }
  assert (∀ h, h ∈ l' → exists_ s1 h = false) as Hl'.
  { intros h [k Hk]%list_elem_of_lookup. by destruct (Forall2_lookup_l _ _ _ _ _ Hn2 Hk) as (? & _ & ? & _). }
  split; [done| |congruence|congruence| | |].
  - eapply carries_trans; (eapply carries_weaken; [|eassumption]); intros h ?; apply elem_of_app; auto.
  - apply NoDup_app. split; [done|]. split; [|done]. intros h Hh Hh'. apply Hl in Hh as [_ Hh]. apply Hl' in Hh'. congruence.
  - apply Forall2_app.
    + eapply Forall2_impl; [exact Hn1|]. cbn. intros h t (? & Hx & Hmn). destruct (ca_keeps _ _ _ Hc2 h Hx) as [Hx2 Hm]. split; [done|].
      split; [done|]. intros u. by rewrite <- Hm.
    + eapply Forall2_impl; [exact Hn2|]. cbn. intros h t (Hx & ? & ?). split; [by eapply carries_not_exists|done].
  - intros h Hh. eapply stays_trans; [by apply Hs1|]. apply Hs2. by apply Hc1.
Qed.

(** ** The gradients taken *)

Definition zeros (sh : list Z) : tensor := tensor_f32 (replicate (Z.to_nat (Z.max (elements sh) 1)) (S754_zero false)) sh.
(** The tensors answered: the function's results in turn, zeros for what has
    none. *)
Fixpoint grads_made (s : tfst) (ps : list Z) (gs : list (option gout)) (ts : list tensor) : list tensor :=
  match ps, gs, ts with
  | _ :: ps, Some _ :: gs, t :: ts => t :: grads_made s ps gs ts
  | p :: ps, None :: gs, ts => zeros (shape (slots s p)) :: grads_made s ps gs ts
  | _, _, _ => []
  end.
Lemma grads_made_same s s' ps gs ts :
  (∀ p, p ∈ ps → shape (slots s' p) = shape (slots s p)) → grads_made s' ps gs ts = grads_made s ps gs ts.
Proof.
  revert gs ts. induction ps as [|p ps IH]; intros [|[g|] gs] ts Hp; try done; cbn.
  - destruct ts; [done|]. rewrite IH; [done|]. intros. apply Hp. by right.
  - rewrite Hp by left. rewrite IH; [done|]. intros. apply Hp. by right.
Qed.
Lemma stays_shape s s' h : stays s s' h → shape (slots s' h) = shape (slots s h).
Proof. intros [[r ->] _]. done. Qed.

Definition rest (n : nat) (rs : list nat) : list (option nat) := replicate n None ++ (Some <$> rs).
Lemma rest_omap n rs : omap id (rest n rs) = rs.
Proof.
  unfold rest. rewrite omap_app. induction n as [|n IH]; [|done]. cbn. induction rs as [|r rs IH]; [done|]. cbn. by f_equal.
Qed.
Lemma rest_at n r rs : rest n (r :: rs) !! n = Some (Some r).
Proof. unfold rest. rewrite lookup_app_r by (by rewrite length_replicate). by rewrite length_replicate, Nat.sub_diag. Qed.
Lemma rest_taken n r rs : <[n := None]> (rest n (r :: rs)) = rest (S n) rs.
Proof.
  unfold rest. rewrite insert_app_r_alt by (by rewrite length_replicate). rewrite length_replicate, Nat.sub_diag.
  change (replicate n None ++ [None] ++ (Some <$> rs) = replicate (S n) None ++ (Some <$> rs)).
  by rewrite app_assoc, <- replicate_S_end.
Qed.

Lemma wp_delete_all rs loose s :
  ok (rs ++ loose) s → wp (for_each delete_handle rs) (λ _ s', ok loose s' ∧ steps none s s') never s.
Proof.
  revert s. induction rs as [|r rs IH]; intros s Hwf; cbn [for_each]; tf_step; [split; [done|apply steps_refl]|].
  eapply wp_mono; [by apply (wp_delete_handle None [] [] (rs ++ loose) r)| |done]. cbv beta. intros _ s1 (Hwf1 & Hst & _).
  eapply wp_mono; [by apply IH| |done]. cbv beta. intros _ s2 [Hwf2 Hst2]. split; [done|]. by eapply steps_none_l.
Qed.

(** A handle never comes to hold another tensor. *)
Record steady (s s' : tfst) : Prop := {
  sy_next : next_h s ≤ next_h s';
  sy_held : ∀ e t, e < next_h s → hs s' !! e = Some t → hs s !! e = Some t;
}.
#[local] Instance steady_framed : Framed steady.
Proof.
  split.
  - split; [by split|]. intros s1 s2 s3 [Hn1 Hh1] [Hn2 Hh2]. split; [lia|]. intros e t He Ht. apply Hh1; [done|]. apply Hh2; [lia|done].
  - intros s s' [Hh Hn _ _]. split; rewrite ?Hn, ?Hh; [lia|done].
  - intros t s. split; cbn; [lia|]. intros e u He. by rewrite lookup_insert_ne by lia.
  - intros e s. split; cbn; [lia|]. by intros e' t _ [_ ?]%lookup_delete_Some.
  - intros x s. by split.
  - intros e s. pose proof (function_idle e s) as Hi. destruct (entry_function e s) as [b s'| |s'];
      [destruct Hi as [Hh Hn _]; split; rewrite ?Hn, ?Hh; [lia|done]|done|destruct Hi as [Hh Hn _]; split; rewrite ?Hn, ?Hh; [lia|done]].
Qed.
#[local] Hint Resolve steady_framed : frame.
Lemma steady_loose loose loose' s s' rs ts :
  ok loose s → ok loose' s' → steady s s' → rs ⊆ loose' →
  Forall2 (λ r t, hs s !! r = Some t ∧ housed t) rs ts → Forall2 (λ r t, hs s' !! r = Some t ∧ housed t) rs ts.
Proof.
  intros Hwf Hwf' [_ Hst] Hin Hrs. apply Forall2_same_length_lookup in Hrs as [Hl Hrs]. apply Forall2_same_length_lookup. split; [done|].
  intros k r t Hk Ht. destruct (Hrs k r t Hk Ht) as [Hr Hh]. split; [|done].
  destruct (owned_loose_live _ _ r (wf_owned _ _ _ _ _ Hwf')) as [t' Ht']; [apply Hin; by eapply list_elem_of_lookup_2|].
  rewrite Ht'. rewrite <- Hr. symmetry. apply Hst; [|done]. destruct (decide (r < next_h s)) as [|Hn]; [done|].
  pose proof (o_next _ _ (wf_owned _ _ _ _ _ Hwf) r ltac:(lia)). congruence.
Qed.

(** Nothing answered: whatever was made is left behind. *)
Definition forsaken (loose : list nat) (s s' : tfst) : Prop :=
  good loose s' ∧ (∃ strays : list Z, carries (λ i, i ∈ strays) s s') ∧ graph_mode s' = graph_mode s.
Lemma gained_forsaken loose l ts s s' : gained loose l ts s s' → forsaken loose s s'.
Proof. intros [Hg Hc Hm _ _ _ _]. split; [done|]. split; [by exists l|done]. Qed.
Lemma forsaken_after loose loose' l ts s s1 s2 : gained loose l ts s s1 → forsaken loose' s1 s2 → forsaken loose' s s2.
Proof.
  intros [Hg Hc Hm _ _ _ _] (Hg2 & [l' Hc'] & Hm'). split; [done|]. split; [|congruence]. exists (l ++ l').
  eapply carries_trans; (eapply carries_weaken; [|eassumption]); intros h ?; apply elem_of_app; auto.
Qed.

(** A parameter whose zeros have room. *)
Definition plottable (s : tfst) (p : Z) : Prop := exists_ s p = true ∧ proper_dims (shape (slots s p)).
Lemma plottable_gained loose l ts s s' p : gained loose l ts s s' → plottable s p → plottable s' p.
Proof.
  intros Hga [Hx Hp]. split; [by apply (ca_keeps _ _ _ (ga_carries _ _ _ _ _ Hga))|].
  by rewrite (stays_shape _ _ _ (ga_stays _ _ _ _ _ Hga p Hx)).
Qed.

Definition held_housed (s : tfst) : list nat → list tensor → Prop := Forall2 (λ r t, hs s !! r = Some t ∧ housed t).

(** One more slot, the handles [rs] still under way. *)
Definition slot_more (loose : list nat) (rs : list nat) (ts : list tensor) (t : tensor) s (r : option Z) (s' : tfst) : Prop :=
  match r with
  | Some h => gained (rs ++ loose) [h] [t] s s' ∧ held_housed s' rs ts
  | None => ok (rs ++ loose) s' ∧ steps none s s'
  end.
Lemma wp_slot_more_zeros loose rs ts sh s :
  good (rs ++ loose) s → held_housed s rs ts → length sh ≤ TF_MAXDIM → proper_dims sh →
  wp (tfb_from_doubles (replicate (Z.to_nat (Z.max (elements sh) 1)) (S754_zero false)) sh) (slot_more loose rs ts (zeros sh) s) never s.
Proof.
  intros Hg Hrs Hl Hp. eapply wp_mono.
  { apply (wp_follows _ _ steady _ (wp_slot_from_tensor None [] (rs ++ loose) (zeros sh) false s (gd_ok _ _ Hg))). frame. }
  2: done. cbv beta. intros [h|] s1 [[Hwf Hr] Hst]; [|done].
  split; [by eapply gained_fresh; [..|by split]|]. eapply steady_loose; [apply Hg|exact Hwf|done| |done]. set_solver.
Qed.
Lemma wp_slot_more_result loose r rs t ts s :
  good (r :: rs ++ loose) s → hs s !! r = Some t → housed t → held_housed s rs ts →
  wp (slot_from_handle r) (slot_more loose rs ts t s) never s.
Proof.
  intros Hg Hr Ht Hrs. eapply wp_mono.
  { apply (wp_follows _ _ steady _ (wp_slot_from_handle None [] (rs ++ loose) r t s (gd_ok _ _ Hg) Hr)). frame. }
  2: done. cbv beta. intros [h|] s1 [[Hwf Hf] Hst]; [|done].
  split; [by eapply gained_fresh|]. eapply steady_loose; [apply Hg|exact Hwf|done| |done]. set_solver.
Qed.
Lemma slot_more_stats loose rs ts t s r s' a b c :
  slot_more loose rs ts t s r s' → slot_more loose rs ts t s r (set_stats a b c s').
Proof.
  destruct r as [h|].
  - intros [Hga Hrs]. split; [|done]. rewrite <- (app_nil_r [h]), <- (app_nil_r [t]). eapply gained_app; [exact Hga|].
    eapply gained_steps; [apply Hga|eapply wf_same; [apply Hga|done..|]|by apply steps_same].
    exact (wf_cursor _ _ _ _ _ (gd_ok _ _ (ga_good _ _ _ _ _ Hga))).
  - intros [Hwf Hst]. split; [|eapply steps_none_l; [exact Hst|by apply steps_same]].
    eapply wf_same; [exact Hwf|done..|]. exact (wf_cursor _ _ _ _ _ Hwf).
Qed.

(** ... or those under way let go. *)
Lemma wp_let_go loose rs s s1 :
  good (rs ++ loose) s ∨ (∃ r, good (r :: rs ++ loose) s) → ok (rs ++ loose) s1 → steps none s s1 →
  wp (for_each delete_handle rs ;; ret (None : option (list Z))) (λ r s', r = None ∧ forsaken loose s s') never s1.
Proof.
  intros Hg Hwf Hst. tf_step. eapply wp_mono; [by apply wp_delete_all| |done]. cbv beta. intros _ s2 [Hwf2 Hst2]. tf_step.
  split; [done|]. eapply gained_forsaken. destruct Hg as [Hg|[r Hg]]; (eapply gained_steps; [exact Hg|done|by eapply steps_none_l]).
Qed.

(** What is answered from here on. *)
Definition grads_taken (loose : list nat) (acc : list Z) (ts : list tensor) s (r : option (list Z)) (s' : tfst) : Prop :=
  match r with
  | Some l => ∃ l', l = acc ++ l' ∧ gained loose l' ts s s'
  | None => forsaken loose s s'
  end.
Lemma grads_taken_more loose loose' acc h t ps gs ts s s1 r s' :
  Forall (plottable s) ps → gained loose' [h] [t] s s1 → grads_taken loose (acc ++ [h]) (grads_made s1 ps gs ts) s1 r s' →
  grads_taken loose acc (t :: grads_made s ps gs ts) s r s'.
Proof.
  intros Hps Hga. destruct r as [l|]; [|by apply forsaken_after with (1 := Hga)]. intros (l' & -> & Hga').
  exists (h :: l'). split; [by rewrite <- app_assoc|]. rewrite (grads_made_same s s1) in Hga'; [exact (gained_app _ _ _ _ _ _ _ _ _ Hga Hga')|].
  intros p Hp. rewrite Forall_forall in Hps. apply stays_shape, (ga_stays _ _ _ _ _ Hga), Hps, Hp.
Qed.

Lemma wp_take_grads loose n rs ps gs ts acc s :
  good (rs ++ loose) s → length ps = length gs → length ts = length (omap id gs) →
  held_housed s rs ts → Forall (plottable s) ps →
  wp (take_grads (rest n rs) (zip ps (place_grads (Z.of_nat n) gs)) acc) (grads_taken loose acc (grads_made s ps gs ts) s) never s.
Proof.
  revert n rs gs ts acc s. induction ps as [|p ps IH]; intros n rs [|g gs] ts acc s Hg Hlp Hlt Hrs Hps; try done.
  { apply nil_length_inv in Hlt as ->. apply Forall2_nil_inv_r in Hrs as ->. cbn [zip zip_with place_grads take_grads]. tf_step.
    exists []. rewrite app_nil_r. split; [done|]. apply gained_nil; [done|apply carries_refl|done|done|intros; apply stays_refl]. }
  injection Hlp as Hlp. apply Forall_cons in Hps as [Hp Hps].
  assert (∀ n rs ts loose' h t s1, length ts = length (omap id gs) → loose' = rs ++ loose → gained loose' [h] [t] s s1 → held_housed s1 rs ts →
    wp (take_grads (rest n rs) (zip ps (place_grads (Z.of_nat n) gs)) (acc ++ [h])) (grads_taken loose acc (t :: grads_made s ps gs ts) s) never s1) as Hmore.
  { intros n1 rs1 ts1 loose' h t s1 Hl -> Hga Hrs1. eapply wp_mono; [by apply (IH n1 rs1 gs ts1); try done; [apply Hga|]; eapply Forall_impl; [exact Hps|]; intros; by eapply plottable_gained| |done].
    cbv beta. intros r s'. by eapply grads_taken_more. }
  destruct g as [g|].
  - destruct ts as [|t ts]; [done|]. injection Hlt as Hlt. inversion Hrs as [|r ? rs' ? [Hr Ht] Hrs']. subst rs. subst.
    cbn [place_grads zip zip_with take_grads grads_made]. rewrite decide_False by lia. rewrite Nat2Z.id, rest_at, rest_taken, rest_omap.
    tf_step. eapply wp_mono; [by apply (wp_slot_more_result loose r rs' t ts)| |done]. cbv beta. intros h s1 Hs1.
    unfold bump_exe. do 2 tf_step. apply (slot_more_stats _ _ _ _ _ _ _ (stat_rec s1) (stat_exe s1 + 1) (stat_rep s1)) in Hs1.
    revert Hs1. generalize (set_stats (stat_rec s1) (stat_exe s1 + 1) (stat_rep s1) s1). clear s1. intros s1. destruct h as [h|]; intros [Hs1 Hrs1].
    + replace (Z.of_nat n + 1)%Z with (Z.of_nat (S n)) by lia. by eapply Hmore.
    + eapply wp_mono; [eapply wp_let_go; [right; by exists r|done|done]| |done]. by intros ? s' [-> ?].
  - cbn [place_grads zip zip_with take_grads grads_made]. rewrite decide_True by lia. do 2 tf_step. cbv zeta.
    tf_step. eapply wp_mono; [apply (wp_slot_more_zeros loose rs ts (shape (slots s p)))| |done].
    { done. } { done. } { apply (gd_sound _ _ Hg). by apply exists_live, Hp. } { apply Hp. }
    cbv beta. intros h s1 Hs1. destruct h as [h|]; destruct Hs1 as [Hs1 Hrs1]; [by eapply Hmore|]. rewrite rest_omap.
    eapply wp_mono; [eapply wp_let_go; [left; exact Hg|done|done]| |done]. by intros ? s' [-> ?].
Qed.
End gained.
