(* ===== verification/Gradient.v ===== *)
(** * Gradients

    [tfb_grad] of modules/tensorflow/backend.c: one call of the function
    compiled for the closure of a loss answers a new tensor for each
    parameter, the derivative of the loss by it; or zeros, where the closure
    has none. *)
From Stdlib Require Import Floats.SpecFloat.
From S2P Require Import Prelude Effect Float Tensor Closure Compile Shape Producer Slots Table Record Meaning Typed Visit Key Frame Cached Described Evaluate Running Reading Recorded Specified Service Gained.

Section gradient.
Context `{TensorFlow}.
Implicit Types s : tfst.

(** ** The entry of a loss *)

(** The gradients told of are of the places asked for. *)
Definition grads_at (y : gref) (xs : list gref) (gs : list (option gout)) : Prop := ∀ k x g,
  xs !! k = Some x → gs !! k = Some g → place_grad y (Some x) g.
Lemma wp_grads_singly g y xs s : wp (grads_singly g y xs) (λ gs s', inert s s' ∧ grads_at y xs gs) never s.
Proof.
  revert s. induction xs as [|x xs IH]; intros s; cbn [grads_singly]; tf_step; [done|].
  eapply wp_mono; [apply wp_unread| |done]. cbv beta. intros ok s1 Hi. tf_step. eapply wp_mono; [apply IH| |done].
  cbv beta. intros gs s2 [Hi2 Hgs]. tf_step. split; [by etrans|]. intros [|k] x' g'; [|apply Hgs]. cbn. intros [= <-] [= <-].
  destruct ok; [|done]. destruct (tf_gradients g y [x]) as [[|[] l]|]; try done. split; [done|]. by exists x.
Qed.
Lemma wp_grads_of g y xs s : wp (grads_of g y xs) (λ gs s', inert s s' ∧ grads_at y xs gs) never s.
Proof.
  unfold grads_of. tf_step. eapply wp_mono; [apply wp_unread| |done]. cbv beta. intros ok s1 Hi.
  destruct (if ok then _ else _) as [there|].
  - tf_step. split; [done|]. intros k x g' Hx. rewrite list_lookup_imap. destruct (there !! k) as [[]|]; intros [= <-]; [|done].
    split; [done|]. by exists x.
  - eapply wp_mono; [apply wp_grads_singly| |done]. cbv beta. intros gs s2 [Hi2 Hgs]. split; [by etrans|done].
Qed.
Lemma no_places y at_ : Forall2 (place_grad y) at_ ((λ _, None) <$> at_).
Proof. induction at_ as [|a l IH]; constructor; [by destruct a|done]. Qed.
Lemma give_places_at y at_ gs : grads_at y (omap id at_) gs → Forall2 (place_grad y) at_ (give_places at_ gs).
Proof.
  revert gs. induction at_ as [|[x|] l IH]; intros gs Hgs; [constructor| |].
  - destruct gs as [|g gs]; [apply (no_places y (Some x :: l))|]. cbn. constructor; [by apply (Hgs 0)|]. apply IH. intros k. apply (Hgs (S k)).
  - cbn. destruct gs; (constructor; [done|by apply IH]).
Qed.

Lemma compiled_entry loss ps c d s1 s :
  described s c d → d_grads d = Some (place c <$> ps) → R_node (node_index c loss) = last_node (length (d_nodes d)) →
  entries s1 = entries s ++ [compiled c d] → entries_ok s →
  wp (x <- entry (length (entries s)) ;;
      gs <- (match omap id (place c <$> ps) with
             | [] => ret []
             | xs => grads_of (e_graph x) (R_node (node_index c loss)) xs
             end) ;;
      upd_entry (length (entries s)) (set_grads (give_places (place c <$> ps) gs)) ;;
      ret (Some (length (entries s), false)))
    (λ r s', sane s' → quiet s1 s' ∧ entries_ok s' ∧
      ∀ e b, r = Some (e, b) → ∃ x, entries s' !! e = Some x ∧ entry_ok d x) never s1.
Proof.
  intros Hd Hdg Hy He1 Ho. unfold entry. do 3 tf_step. rewrite He1, list_lookup_middle by done. tf_step. cbv beta.
  tf_step. eapply wp_mono with (Q := λ gs s2, inert s1 s2 ∧ grads_at (R_node (node_index c loss)) (omap id (place c <$> ps)) gs); [| |done].
  { destruct (omap id (place c <$> ps)) as [|x xs] eqn:Ex; [by tf_step|]. apply wp_grads_of. }
  cbv beta. intros gs s2 [Hi Hgs]. unfold upd_entry. do 3 tf_step. intros Hsane.
  set (x := set_grads (give_places (place c <$> ps) gs) (compiled c d)).
  assert (entries (set_entries (alter (set_grads (give_places (place c <$> ps) gs)) (length (entries s)) (entries s2)) s2) = entries s ++ [x]) as He.
  { cbn. rewrite (in_entries _ _ Hi), He1, alter_app_r_alt, Nat.sub_diag by done. done. }
  revert Hsane He. set (s3 := set_entries _ s2). intros Hsane He.
  assert (quiet s1 s3) as Hq by (apply inert_quiet in Hi; by destruct Hi).
  assert (entry_ok d x) as Hok.
  { eapply compiled_grads_ok; [exact Hd| |].
    - unfold sane in Hsane. rewrite He in Hsane. apply Forall_app in Hsane as [_ Hsane]. inversion Hsane as [|? ? [Hsh _]]. exact Hsh.
    - unfold grads_ok. rewrite Hdg, <- Hy. by apply give_places_at. }
  split; [done|]. split; [eapply entries_ok_app; [exact He|by exists d|done]|].
  intros e b [= <- <-]. exists x. split; [|done]. by rewrite He, list_lookup_middle.
Qed.
Lemma ensures_grad_entry c loss ps d s :
  entries_ok s → described s c d → d_grads d = Some (place c <$> ps) → (0 ≤ node_index c loss)%Z →
  R_node (node_index c loss) = last_node (length (d_nodes d)) →
  ensures (grad_entry c loss ps) (λ r s', quiet s s' ∧ entries_ok s' ∧
    ∀ e b, r = Some (e, b) → ∃ x, entries s' !! e = Some x ∧ entry_ok d x) s.
Proof.
  intros Ho Hd Hdg H0 Hy. apply ensures_wp_sane. unfold grad_entry. do 2 tf_step.
  destruct (entry_find (key c) (entries s)) as [e|] eqn:Ef.
  - tf_step. intros Hs. split; [done|]. split; [done|]. intros ? ? [= <- <-].
    apply entry_find_Some in Ef as (x & Hx & Hk). exists x. split; [done|]. by eapply entry_of_key.
  - tf_step. eapply wp_mono; [by apply (wp_entry_compile c d)| |done]. cbv beta. intros [e|] s1 [Hq Hr].
    + destruct Hr as [-> Hr]. rewrite decide_False by lia. eapply wp_mono; [by eapply compiled_entry| |done].
      cbv beta. intros r s' Hs' Hsane. destruct (Hs' Hsane) as (Hq' & ? & ?). split; [by etrans|done].
    + intros _. split; [done|]. split; [by eapply entries_ok_same|done].
Qed.
(** ** What TensorFlow promises of the gradients *)

(** [D g vs y x] is the derivative of [y] by [x] in the graph [g] on the leaves
    [vs].  A function answers it where it has a gradient, with the sizes of
    [x], whichever others it was asked for with. *)
Definition differentiates (D : graph → list tensor → gref → gref → option tensor) : Prop :=
  ∀ f ts outs vs k y xs i x t,
    tf_call f ts = inl outs → leaf_vals f ts = Some vs →
    f_out f !! k = Some (O_grad y xs i) → xs !! i = Some x → outs !! k = Some t →
    D (f_graph f) vs y x = Some t ∧ ∃ v, func_val tf_exec f ts x = Some v ∧ t_dims t = t_dims v.

Definition graph_in (s : tfst) (c : Closure) : graph :=
  Graph ((λ h, graph_leaf (slots s h)) <$> leaves c) ((λ h, graph_node c (spec (slots s h))) <$> nodes c).

(** ** What a closure's function computes *)

Lemma root_index s gm root c loose :
  ok loose s → closed s gm root c → nodes c ≠ [] → node_index c root = (Z.of_nat (length (nodes c)) - 1)%Z.
Proof.
  intros Hwf Hc Hn. destruct (closed_root _ _ _ _ _ Hwf Hc Hn) as (Hnd & _ & Hl). rewrite last_lookup in Hl.
  destruct (index_of_le _ _ _ Hl) as (j & Hj & _). unfold node_index. rewrite Hj. cbn. apply index_of_Some in Hj as [? Hj].
  pose proof (NoDup_lookup _ _ _ _ Hnd Hj Hl). pose proof (lookup_lt_Some _ _ _ Hl). lia.
Qed.
Lemma leaves_hold s gm root c :
  good [] s → closed s gm root c → ∃ vs, Forall2 (means s) (leaves c) vs.
Proof.
  intros Hg Hc. apply Forall_choose. apply Forall_forall. intros h Hh. destruct (cl_explored _ _ _ _ Hc) as [sn Hx].
  destruct (ex_leaf _ _ _ _ _ Hx h Hh) as [Hk Hl]. destruct (leaf_value _ _ _ _ (gd_ok _ _ Hg) Hk Hl) as [t Ht].
  exists t. by apply sound_means; [apply Hg|..].
Qed.

Section function.
Context (s : tfst) (gm : bool) (root : Z) (c : Closure) (f : func) (ts : list tensor).
Context (Hg : good [] s) (Hc : closed s gm root c) (Hgraph : f_graph f = graph_in s c).
Context (Hfed : f_in f = fed s (leaves c)) (Hargs : args_of s c (f_in f) ts).

Lemma leaf_vals_of vs : Forall2 (means s) (leaves c) vs → leaf_vals f ts = Some vs.
Proof.
  intros Hvs. apply mapM_Some. rewrite Hgraph. unfold graph_in. cbn [g_leaves]. rewrite length_fmap.
  apply Forall2_same_length_lookup in Hvs as [Hl Hvs]. apply Forall2_same_length_lookup. split; [by rewrite length_seq|].
  intros k j v [-> Hk]%lookup_seq Hv. cbn. destruct (lookup_lt_is_Some_2 (leaves c) k Hk) as [h Hh].
  rewrite <- (leaf_index_at _ _ _ _ _ _ Hc Hh). eapply (leaf_computes s gm root c f ts); try done; [apply Hg|by eapply list_elem_of_lookup_2|eauto].
Qed.
Lemma place_means p x v : place c p = Some x → func_val tf_exec f ts x = Some v → kind (slots s p) ≠ K_FREE ∧ means s p v.
Proof using Hg Hc Hgraph Hargs.
  destruct (cl_explored _ _ _ _ Hc) as [sn Hx]. unfold place, leaf_index, node_index.
  destruct (index_of p (leaves c)) as [j|] eqn:Ej; cbn [default]; [|case_decide; [lia|];
    destruct (index_of p (nodes c)) as [i|] eqn:Ei; cbn [default]; [|by case_decide]].
  - apply index_of_Some in Ej as Hj. rewrite decide_True by apply Hj. intros [= <-] Hv.
    assert (p ∈ leaves c) as Hp by (by eapply list_elem_of_lookup_2, Hj). split; [by apply (ex_leaf _ _ _ _ _ Hx)|].
    eapply (leaf_means s gm root c f ts); try done; [apply Hg|]. unfold leaf_index. by rewrite Ej.
  - apply index_of_Some in Ei as [Hi0 Hi]. rewrite decide_True by done. intros [= <-] Hv.
    assert (p ∈ nodes c) as Hp by by eapply list_elem_of_lookup_2. pose proof (proj1 (ex_node _ _ _ _ _ Hx p Hp)). split; [congruence|].
    eapply (node_means s gm root c f ts); try done; [apply Hg|]. by rewrite Z2Nat.id.
Qed.
End function.

(** ** The gradients of a call *)

Context (Hruns : runs_graphs tf_exec tf_call).
Context (D : graph → list tensor → gref → gref → option tensor) (HD : differentiates D).

(** The result [t] is the derivative told of by [o]. *)
Definition derived (s : tfst) (c : Closure) (vs : list tensor) (y : gref) (o : gout) (t : tensor) : Prop :=
  ∃ xs k x, o = O_grad y xs k ∧ xs !! k = Some x ∧ D (graph_in s c) vs y x = Some t.

Lemma Forall2_split {A B C} (P : A → C → Prop) (Q : B → C → Prop) l k :
  Forall2 (λ a b, ∃ c, P a c ∧ Q b c) l k → ∃ m, Forall2 P l m ∧ Forall2 Q k m.
Proof using. induction 1 as [|a b l k (c & ? & ?) _ (m & ? & ?)]; [by exists []|]. exists (c :: m). by repeat constructor. Qed.

Lemma handed_tensors s gm root c d x ps rs s' vs :
  good [] s → closed s gm root c → depicted s c d → d_grads d = Some (place c <$> ps) → entry_ok d x → handed s c x rs s' →
  Forall2 (means s) (leaves c) vs →
  ∃ ts, held_housed s' rs ts ∧ Forall2 (derived s c vs (last_node (length (d_nodes d)))) (omap id (grads x)) ts.
Proof.
  intros Hg Hc Hd Hdg Hok [Hl Hh] Hvs. apply Forall2_split. apply Forall2_same_length_lookup. split; [done|]. intros k r o Hr Ho.
  destruct (Hh k r Hr) as (f & ts & outs & t & Ef & Hargs & Hcall & Ht & Hrt). exists t.
  destruct (eo_fn _ _ Hok f Ef) as (Hfg & Hfi & Hfo & _).
  assert (f_graph f = graph_in s c) as Hgr by by rewrite Hfg, (eo_graph _ _ Hok), (ds_graph _ _ _ Hd).
  assert (f_in f = fed s (leaves c)) as Hin by by rewrite Hfi, (eo_in _ _ Hok), (ds_in _ _ _ Hd).
  assert (f_out f !! (length (out_node x) + k) = Some o) as Hoo.
  { rewrite Hfo. unfold function_outs. rewrite lookup_app_r by (rewrite length_fmap; lia). by rewrite length_fmap, Nat.add_sub'. }
  assert (∃ i, grads x !! i = Some (Some o)) as [i Hi].
  { apply list_elem_of_lookup_2, list_elem_of_omap in Ho as (g & Hgx & Hgo). cbn in Hgo. subst g. by apply list_elem_of_lookup in Hgx. }
  pose proof (eo_grads _ _ Hok) as Hgs. unfold grads_ok in Hgs. rewrite Hdg in Hgs.
  destruct (Forall2_lookup_r _ _ _ _ _ Hgs Hi) as (a & Ha & Hpl). destruct o as [|y xs j]; [done|]. destruct Hpl as (-> & x' & -> & Hx').
  rewrite list_lookup_fmap in Ha. destruct (ps !! i) as [p|]; [|done]. injection Ha as Ha.
  destruct (HD _ _ _ _ _ _ _ _ _ _ Hcall (leaf_vals_of _ _ _ _ _ _ Hg Hc Hgr Hin Hargs _ Hvs) Hoo Hx' Ht) as [HDt (v & Hv & Hdv)].
  destruct (place_means _ _ _ _ _ _ Hg Hc Hgr Hargs _ _ _ Ha Hv) as [Hk Hm].
  split; [split; [done|]|]. { destruct (sd_fits _ _ (gd_sound _ _ Hg p Hk) v Hm) as [Hr1 Hr2 _ _]. unfold housed. by rewrite Hdv. }
  exists xs, j, x'. by rewrite <- Hgr.
Qed.

Lemma grads_made_spec P s ps gs ts :
  Forall2 P (omap id gs) ts → length gs = length ps →
  length (grads_made s ps gs ts) = length ps ∧
  ∀ i p t g, ps !! i = Some p → grads_made s ps gs ts !! i = Some t → gs !! i = Some g →
    match g with Some o => P o t | None => t = zeros (shape (slots s p)) end.
Proof using.
  revert gs ts. induction ps as [|p ps IH]; intros [|[o|] gs] ts Hts [=]; [done|..]; cbn in Hts; cbn [grads_made].
  - inversion Hts as [|? t ? ts' Ht Hts']. subst. destruct (IH gs ts') as [Hl Hi]; [done..|]. split; [cbn; by rewrite Hl|].
    intros [|i] p' t' g'; cbn; [|by apply Hi]. by intros [= <-] [= <-] [= <-].
  - destruct (IH gs ts) as [Hl Hi]; [done..|]. split; [cbn; by rewrite Hl|].
    intros [|i] p' t' g'; cbn; [|by apply Hi]. by intros [= <-] [= <-] [= <-].
Qed.

(** No derivative: zeros of the parameter's sizes. *)
Definition zeros_like (s : tfst) (p : Z) (t : tensor) : Prop :=
  ∃ sh, t = zeros sh ∧ ∀ u, means s p u → agrees sh (t_dims u).
(** A parameter that has its value, or whose sizes are known. *)
Definition shaped (s : tfst) (p : Z) : Prop :=
  value_of s p = None → shape_known (slots s p) = true ∧ proper_dims (shape (slots s p)).

(** What the new tensors are: where the compiled closure has a gradient, the
    derivative of the loss on the tensors its leaves stand for. *)
Definition differentiated (s : tfst) (loss : Z) (ps : list Z) (s' : tfst) (ts : list tensor) : Prop :=
  length ts = length ps ∧ ∃ c vs e x,
    closed s true loss c ∧ Forall2 (means s) (leaves c) vs ∧ entries s' !! e = Some x ∧ e_graph x = graph_in s c ∧
    length (grads x) = length ps ∧
    ∀ i p t g, ps !! i = Some p → ts !! i = Some t → grads x !! i = Some g →
      match g with
      | Some _ => ∃ r, place c p = Some r ∧ D (e_graph x) vs (R_node (node_index c loss)) r = Some t
      | None => zeros_like s p t
      end.

(** New tensors [ts], and nothing else to be seen. *)
Record supplied (l : list Z) (ts : list tensor) (s s' : tfst) : Prop := {
  su_good : good [] s';
  su_carries : carries (λ i, i ∈ l) s s';
  su_mode : graph_mode s' = graph_mode s;
  su_distinct : NoDup l;
  su_new : Forall2 (λ h t, exists_ s h = false ∧ exists_ s' h = true ∧ ∀ u, means s' h u ↔ u = t) l ts;
}.
Lemma ran_supplied R loose l ts s s1 s' :
  ran R s s1 → gained [] l ts s1 s' → good loose s1 → supplied l ts s s'.
Proof using.
  intros Hr [Hg Hc Hm _ Hd Hn _] _. pose proof (ran_carries _ none _ _ Hr) as Hc0. split; [done|by eapply carries_l| |done|].
  - by rewrite Hm, (rn_mode _ _ _ Hr).
  - eapply Forall2_impl; [exact Hn|]. cbn. intros h t (Hx & ?). split; [by eapply carries_not_exists|done].
Qed.
Lemma ran_forsaken R s s1 s' : ran R s s1 → forsaken [] s1 s' → forsaken [] s s'.
Proof using.
  intros Hr (Hg & [l Hc] & Hm). split; [done|]. split; [exists l; eapply carries_l; [by eapply ran_carries|done]|].
  by rewrite Hm, (rn_mode _ _ _ Hr).
Qed.

(** What [tfb_grad] answers. *)
Definition answered (s : tfst) (loss : Z) (ps : list Z) (made : tfst → list tensor → Prop) (r : option (list Z)) (s' : tfst) : Prop :=
  match r with
  | Some l => ∃ ts, supplied l ts s s' ∧ made s' ts
  | None => forsaken [] s s'
  end.

Lemma taken_shaped loose s root c s1 p :
  good [] s → good loose s1 → taken s root c s1 → exists_ s p = true → shaped s p →
  plottable s1 p ∧ zeros_like s p (zeros (shape (slots s1 p))).
Proof using.
  intros Hg Hg1 [Hk Ho Hv] Hx Hsh. destruct (rn_keeps _ _ _ Hk p Hx) as [Hx1 Hm1]. pose proof (exists_live _ _ Hx1) as Hl1.
  destruct (value_of s1 p) as [u|] eqn:Eu.
  - pose proof (sound_means _ _ _ (gd_sound _ _ Hg1) Hl1 Eu) as Hmu. destruct (sd_exact _ _ (gd_sound _ _ Hg1 p Hl1) u Eu) as [_ Hs].
    split.
    + split; [done|]. rewrite Hs. by apply (ft_proper _ _ (sd_fits _ _ (gd_sound _ _ Hg1 p Hl1) u Hmu)).
    + eexists. split; [done|]. intros v Hmv%Hm1. rewrite Hs, (means_det _ _ _ _ Hmv Hmu). apply agrees_refl.
  - assert (p ∉ nodes c) as Hn by (intros Hn; by apply (Hv p)). destruct (Ho p Hn Hx) as [[r Hr] Hvs].
    destruct Hsh as [Hkn Hpd]; [congruence|]. rewrite Hr. cbn [shape set_refs]. split; [split; [done|by rewrite Hr]|].
    eexists. split; [done|]. intros v Hmv. by apply (ft_shape _ _ (sd_fits _ _ (gd_sound _ _ Hg p (exists_live _ _ Hx)) v Hmv)).
Qed.

Lemma grads_ok_length d x ps c : entry_ok d x → d_grads d = Some (place c <$> ps) → length (grads x) = length ps.
Proof using. intros Hok Hdg. pose proof (eo_grads _ _ Hok) as Hgs. unfold grads_ok in Hgs. rewrite Hdg in Hgs. apply Forall2_length in Hgs. by rewrite length_fmap in Hgs. Qed.

Lemma ensures_grad_call loss ps c d e x s :
  good [] s → closed s true loss c → nodes c ≠ [] → exists_ s loss = true →
  depicted s c d → d_grads d = Some (place c <$> ps) → length (d_nodes d) = length (nodes c) →
  entries s !! e = Some x → entry_ok d x → Forall (λ p, exists_ s p = true ∧ shaped s p) ps →
  ensures (execute c e ps) (answered s loss ps (differentiated s loss ps)) s.
Proof.
  intros Hg Hc Hn Hx Hd Hdg Hdl He Hok Hps. eapply ensures_execute_with; try done.
  { intros s' Hg' Hk'. eapply (ran_forsaken none); [exact Hk'|]. eapply gained_forsaken, gained_nil; [done|apply carries_refl|done|done|].
    intros; apply stays_refl. }
  intros x' rs s1 Hg1 Htk He1 Hok1 Hh. apply ensures_wp. destruct (leaves_hold _ _ _ _ Hg Hc) as [vs Hvs].
  destruct (handed_tensors _ _ _ _ _ _ _ _ _ _ Hg Hc Hd Hdg Hok1 Hh Hvs) as (ts & Hheld & Hder).
  pose proof (grads_ok_length _ _ _ _ Hok1 Hdg) as Hlen.
  assert (∀ p, p ∈ ps → plottable s1 p ∧ zeros_like s p (zeros (shape (slots s1 p)))) as Hz.
  { intros p Hp. rewrite Forall_forall in Hps. destruct (Hps p Hp). by eapply taken_shaped. }
  eapply wp_mono; [eapply (wp_take_grads [] (length (out_node x')) rs ps (grads x') ts); [done|done|by apply Forall2_length in Hder|done|]| |done].
  { apply Forall_forall. intros p Hp. by apply Hz. }
  cbv beta. intros [l|] s2; cbn; cycle 1. { by apply (ran_forsaken (λ i, i ∈ nodes c)), Htk. }
  intros (l' & -> & Hga). destruct (grads_made_spec _ s1 ps _ _ Hder Hlen) as [Hl Hat].
  eexists. split; [eapply ran_supplied; [apply Htk|exact Hga|exact Hg1]|]. split; [done|].
  exists c, vs, e, x'. split; [done|]. split; [done|]. split; [by rewrite (ga_entries _ _ _ _ _ Hga)|].
  assert (e_graph x' = graph_in s c) as Hgx by by rewrite (eo_graph _ _ Hok1), (ds_graph _ _ _ Hd).
  do 2 (split; [done|]). intros i p t g Hp Ht Hgi. specialize (Hat i p t g Hp Ht Hgi). destruct g as [o|].
  - destruct Hat as (xs & k & r & -> & Hr & Hv). pose proof (eo_grads _ _ Hok1) as Hgs. unfold grads_ok in Hgs. rewrite Hdg in Hgs.
    destruct (Forall2_lookup_r _ _ _ _ _ Hgs Hgi) as (a & Ha & _ & r' & -> & Hr'). rewrite list_lookup_fmap, Hp in Ha. injection Ha as Ha.
    exists r. split; [congruence|]. rewrite Hgx, (root_index _ _ _ _ _ (gd_ok _ _ Hg) Hc Hn), <- Hdl. exact Hv.
  - subst t. apply Hz. by eapply list_elem_of_lookup_2.
Qed.

Lemma answered_after R s0 s loss ps made r s' : ran R s0 s → answered s loss ps made r s' → answered s0 loss ps made r s'.
Proof using.
  intros Hr. destruct r as [l|]; cbn; [|by apply (ran_forsaken R)]. intros (ts & [Hg Hc Hm Hd Hn] & Hmade). exists ts. split; [|done].
  split; [done|eapply carries_l; [by eapply ran_carries|done]|by rewrite Hm, (rn_mode _ _ _ Hr)|done|].
  eapply Forall2_impl; [exact Hn|]. cbn. intros h t (Hx & ?). split; [|done]. by eapply carries_not_exists; [eapply (ran_carries _ none)|].
Qed.
Lemma answered_quiet s loss ps made r s1 s' :
  answered s loss ps made r s1 → quiet s1 s' → entries s' = entries s1 → (∀ ts, made s1 ts → made s' ts) →
  answered s loss ps made r s'.
Proof using.
  intros Ha Hq He Hmade. assert (good [] s1) as Hg1 by (destruct r; [by destruct Ha as (? & [] & _)|apply Ha]).
  destruct (quiet_good _ _ _ Hg1 Hq) as [Hg' Hk]; [by eapply entries_ok_same, Hg1|]. pose proof (ran_carries _ none _ _ Hk) as Hca.
  destruct r as [l|]; cbn in *.
  - destruct Ha as (ts & [Hg Hc Hm Hd Hn] & Hm1). exists ts. split; [|auto].
    split; [done|by eapply carries_r|by rewrite (qt_mode _ _ Hq)|done|].
    eapply Forall2_impl; [exact Hn|]. cbn. intros h t (? & Hx & Hmn). destruct (rn_keeps _ _ _ Hk h Hx) as [Hx' Hm']. split; [done|].
    split; [done|]. intros u. by rewrite <- Hm'.
  - destruct Ha as (Hg & [strays Hc] & Hm). split; [done|]. split; [|by rewrite (qt_mode _ _ Hq)]. exists strays. by eapply carries_r.
Qed.

(** ** A loss with no parameter under it *)

Definition all_zeros (s : tfst) (ps : list Z) (_ : tfst) (ts : list tensor) : Prop := Forall2 (zeros_like s) ps ts.
Lemma shaped_known s p : good [] s → exists_ s p = true → shaped s p → shape_known (slots s p) = true ∧ proper_dims (shape (slots s p)).
Proof using.
  intros Hg Hx Hs. pose proof (exists_live _ _ Hx) as Hl. destruct (value_of s p) as [u|] eqn:Eu; [|by apply Hs].
  destruct (sd_exact _ _ (gd_sound _ _ Hg p Hl) u Eu) as [Hk ->]. split; [done|].
  by apply (ft_proper _ _ (sd_fits _ _ (gd_sound _ _ Hg p Hl) u (sound_means _ _ _ (gd_sound _ _ Hg) Hl Eu))).
Qed.
Lemma wp_zeros_for ps acc s :
  good [] s → Forall (λ p, plottable s p ∧ shape_known (slots s p) = true) ps →
  wp (zeros_for ps acc) (grads_taken [] acc ((λ p, zeros (shape (slots s p))) <$> ps) s) never s.
Proof using.
  revert acc s. induction ps as [|p ps IH]; intros acc s Hg Hps; cbn [zeros_for].
  { tf_step. exists []. rewrite app_nil_r. split; [done|]. apply gained_nil; [done|apply carries_refl|done|done|intros; apply stays_refl]. }
  apply Forall_cons in Hps as [[[Hx Hpd] Hkn] Hps]. unfold tfb_shape, tfb_exists. do 3 tf_step. rewrite Hx. cbn [negb].
  do 2 tf_step. rewrite Hkn. tf_step. unfold tfb_fill. tf_step.
  eapply wp_mono; [apply (wp_slot_more_zeros [] [] [] (shape (slots s p))); [done|constructor| |done]| |done].
  { by apply (gd_sound _ _ Hg), exists_live. }
  cbv beta. intros [h|] s1; cbn [slot_more app]; cycle 1.
  { intros [Hwf Hst]. by eapply gained_forsaken, gained_steps. }
  intros [Hga _]. assert (∀ q, q ∈ ps → shape (slots s1 q) = shape (slots s q) ∧ plottable s1 q ∧ shape_known (slots s1 q) = true) as Hq.
  { intros q Hq. rewrite Forall_forall in Hps. destruct (Hps q Hq) as [Hpl Hk]. pose proof (ga_stays _ _ _ _ _ Hga q (proj1 Hpl)) as Hst.
    split; [by apply stays_shape|]. split; [by eapply plottable_gained|]. by destruct Hst as [[r ->] _]. }
  eapply wp_mono; [apply (IH (acc ++ [h]) s1); [apply Hga|apply Forall_forall; intros q Hin; by apply Hq]| |done].
  cbv beta. intros [l|] s2; cbn; [|by apply forsaken_after with (1 := Hga)]. intros (l' & -> & Hga2).
  exists (h :: l'). split; [by rewrite <- app_assoc|].
  replace ((λ p, zeros (shape (slots s p))) <$> ps) with ((λ p, zeros (shape (slots s1 p))) <$> ps);
    [exact (gained_app _ _ _ _ _ _ _ _ _ Hga Hga2)|].
  apply list_fmap_ext. intros i q Hi. f_equal. apply Hq. by eapply list_elem_of_lookup_2.
Qed.

(** ** The whole *)

Lemma differentiated_same s s1 loss ps s' ts :
  slots s1 = slots s → hs s1 = hs s → differentiated s1 loss ps s' ts → differentiated s loss ps s' ts.
Proof using.
  intros Hs Hh (Hl & c & vs & e & x & Hc & Hvs & He & Hx & Hlx & Hat). split; [done|]. exists c, vs, e, x.
  split; [by eapply closed_same|]. split; [eapply Forall2_impl; [exact Hvs|]; intros h t; by apply means_same|].
  split; [done|]. split; [rewrite Hx; unfold graph_in; by rewrite Hs|]. split; [done|].
  intros i p t g Hp Ht Hg. specialize (Hat i p t g Hp Ht Hg). destruct g; [done|]. destruct Hat as (sh & -> & Hsh).
  exists sh. split; [done|]. intros u Hu. apply Hsh. by apply (means_same s s1).
Qed.
(** The call, counted as a repeat if the entry was there. *)
Lemma ensures_grad_run loss ps c d e b x s :
  good [] s → closed s true loss c → nodes c ≠ [] → exists_ s loss = true →
  depicted s c d → d_grads d = Some (place c <$> ps) → length (d_nodes d) = length (nodes c) →
  entries s !! e = Some x → entry_ok d x → Forall (λ p, exists_ s p = true ∧ shaped s p) ps →
  ensures (r <- execute (grad_key c ps) e ps ;; when (bool_decide (r ≠ None) && (b : bool)) bump_rep ;; ret r)
    (answered s loss ps (differentiated s loss ps)) s.
Proof.
  intros Hg Hc Hn Hx Hd Hdg Hdl He Hok Hps. apply ensures_bind; [intros; grows|].
  change (execute (grad_key c ps) e ps) with (execute c e ps). eapply ensures_mono; [by eapply ensures_grad_call|].
  cbv beta. intros r s1 _ Ha. apply ensures_wp. tf_step. apply wp_when; intros _; [|by tf_step].
  unfold bump_rep. do 2 tf_step. by eapply answered_quiet.
Qed.
Lemma ensures_grad_closure loss ps s :
  good [] s → Forall (λ p, exists_ s p = true ∧ shaped s p) ps → exists_ s loss = true →
  kind (slots s loss) = K_NODE → (is_param (slots s loss) = true → eh (slots s loss) = None) →
  ensures (c <-? closure_of loss true ;;
           eh <-? grad_entry (grad_key c ps) loss ps ;;
           r <- execute (grad_key c ps) (fst eh) ps ;;
           when (bool_decide (r ≠ None) && snd eh) bump_rep ;;
           ret r) (answered s loss ps (differentiated s loss ps)) s.
Proof.
  intros Hg Hps Hx Hk Hb. assert (∀ s', good [] s' → ran none s s' → answered s loss ps (differentiated s loss ps) None s') as Hnone.
  { intros s' Hg' Hr. apply (ran_forsaken none s s' s' Hr). eapply gained_forsaken, gained_nil; [done|apply carries_refl|done|done|intros; apply stays_refl]. }
  apply ensures_bindo_wp. eapply wp_mono; [apply (wp_closure_of []); apply Hg| |done].
  cbv beta. intros [c|] s1 [Hi Hc]; destruct (inert_good _ _ _ Hg Hi) as [Hg1 Hk1]; [|by apply Hnone]. specialize (Hc c eq_refl).
  assert (nodes c ≠ []) as Hn.
  { destruct (cl_collected _ _ _ _ Hc) as [Hl|Hl]; [|by intros E; rewrite E in Hl; apply elem_of_nil in Hl]. exfalso.
    destruct (cl_explored _ _ _ _ Hc) as [sn Hxp]. destruct (ex_leaf _ _ _ _ _ Hxp loss Hl) as [_ Hlf]. unfold is_leaf in Hlf.
    rewrite Hk in Hlf. cbn in Hlf. apply andb_prop in Hlf as [He%bool_decide_eq_true Hp]. auto. }
  assert (closed s1 true loss c) as Hc1 by (eapply closed_same; [apply Hi|done]).
  assert (described s1 (grad_key c ps) (desc_of s1 c (Some (place c <$> ps)))) as Hd.
  { destruct Hc1 as [[sn Hxp] _ Hky Hw]. apply keyed_described_grad; [done|by rewrite Hw, length_fmap|].
    intros h Hh. by apply (gd_specs _ _ Hg1), (ex_node _ _ _ _ _ Hxp h). }
  assert (length (d_nodes (desc_of s1 c (Some (place c <$> ps)))) = length (nodes c)) as Hdl.
  { cbn. rewrite length_zip_with, (cl_want _ _ _ _ Hc1), length_fmap. lia. }
  pose proof (root_index _ _ _ _ _ (gd_ok _ _ Hg1) Hc1 Hn) as Hri. assert (0 < length (nodes c)) as Hpos by (destruct (nodes c); [done|cbn; lia]).
  apply ensures_bindo; [intros []; grows|]. eapply ensures_mono.
  { apply (ensures_grad_entry (grad_key c ps) loss ps _ s1 (gd_entries _ _ Hg1) Hd); [done| |].
    - change (node_index (grad_key c ps) loss) with (node_index c loss). lia.
    - unfold last_node. by rewrite Hdl, <- Hri. }
  cbv beta. intros [[e b]|] s2 _ (Hq & He2 & Hr); destruct (quiet_good _ _ _ Hg1 Hq He2) as [Hg2 Hk2]; cycle 1.
  { apply Hnone; [done|by eapply ran_trans]. }
  destruct (Hr e b eq_refl) as (x & Hex & Hok). cbn [fst snd]. pose proof (ran_trans _ _ _ _ Hk1 Hk2) as Hk12.
  assert (slots s2 = slots s) as Hsl by by rewrite (qt_slots _ _ Hq), (in_slots _ _ Hi).
  assert (hs s2 = hs s) as Hhs by by rewrite (qt_hs _ _ Hq), (in_hs _ _ Hi).
  eapply ensures_mono; [eapply (ensures_grad_run loss ps c _ e b x s2); try done|].
  - eapply closed_same; [apply Hq|done].
  - by apply (rn_keeps _ _ _ Hk12).
  - destruct (ds_depicted _ _ _ (described_same _ _ _ _ (qt_slots _ _ Hq) Hd)). by split.
  - done.
  - eapply Forall_impl; [exact Hps|]. intros p [Hp Hsh]. split; [by apply (rn_keeps _ _ _ Hk12)|].
    unfold shaped, value_of in *. by rewrite Hsl, Hhs.
  - cbv beta. intros r s3 _ Ha. apply (answered_after none s s2) in Ha; [|done]. destruct r as [l|]; [|done].
    destruct Ha as (ts & Hsu & Hdf). exists ts. split; [done|]. by eapply differentiated_same.
Qed.

(** What is answered of a loss: by derivatives if a parameter is under it, else
    zeros. *)
Definition grads_answered (s : tfst) (loss : Z) (ps : list Z) : option (list Z) → tfst → Prop :=
  answered s loss ps (if decide (kind (slots s loss) = K_NODE ∧ under_param (slots s loss) = true)
                      then differentiated s loss ps else all_zeros s ps).
Lemma ensures_tfb_grad loss ps s :
  good [] s → Forall (shaped s) ps → (kind (slots s loss) = K_NODE → is_param (slots s loss) = true → eh (slots s loss) = None) →
  ensures (tfb_grad loss ps) (grads_answered s loss ps) s.
Proof.
  intros Hg Hps Hb. assert (∀ why, wp (fail why ;; ret None) (grads_answered s loss ps) never s) as Hfail.
  { intros why. tf_step. eapply wp_mono; [apply wp_tf_fail| |done]. cbv beta. intros _ s1 Hi. tf_step.
    destruct (inert_good _ _ _ Hg Hi) as [Hg1 Hk1]. apply (ran_forsaken none s s1 s1 Hk1). eapply gained_forsaken, gained_nil;
      [done|apply carries_refl|done|done|intros; apply stays_refl]. }
  unfold tfb_grad. apply ensures_bind_wp. unfold tfb_exists. tf_step. destruct (exists_ s loss) eqn:Hx; cbn [negb]; [|by apply ensures_wp].
  case_decide as Hlen; [by apply ensures_wp|]. apply ensures_bind_wp. tf_step.
  destruct (forallb _ ps) eqn:Hall; cbn [negb]; [|by apply ensures_wp].
  assert (Forall (λ p, exists_ s p = true ∧ shaped s p) ps) as Hps'.
  { apply Forall_forall. intros p Hp. rewrite Forall_forall in Hps. split; [|by apply Hps].
    apply list_elem_of_In in Hp. rewrite forallb_forall in Hall. by apply Hall, andb_prop in Hp as [? _]. }
  apply ensures_bind_wp. tf_step. unfold grads_answered. case_decide as Hk.
  - rewrite decide_False by (intros [? Hu]; destruct Hk; congruence || (rewrite Hu in *; naive_solver)).
    apply ensures_wp. eapply wp_mono; [apply (wp_zeros_for ps []); [done|]| |done].
    { eapply Forall_impl; [exact Hps'|]. intros p [Hp Hsh]. by destruct (shaped_known s p Hg Hp Hsh). }
    cbv beta. intros [l|] s1; [|done]. intros (l' & -> & Hga). eexists. split.
    { eapply ran_supplied; [apply (ran_refl none)|exact Hga|exact Hg]. }
    unfold all_zeros. apply Forall2_fmap_r, Forall_Forall2_diag. eapply Forall_impl; [exact Hps'|]. intros p [Hp Hsh].
    eexists. split; [done|]. intros u Hu. pose proof (exists_live _ _ Hp) as Hl.
    apply (ft_shape _ _ (sd_fits _ _ (gd_sound _ _ Hg p Hl) u Hu)). by destruct (shaped_known s p Hg Hp Hsh).
  - assert (kind (slots s loss) = K_NODE ∧ under_param (slots s loss) = true) as [Hkn Hu].
    { split; [apply dec_stable; tauto|]. destruct (under_param (slots s loss)); [done|tauto]. }
    rewrite decide_True by done. apply ensures_grad_closure; auto.
Qed.
End gradient.
