(* ===== verification/Machine.v ===== *)
(** * The back end as its caller sees it

    An abstract machine whose state is a map from handles to tensors: no
    slots, no graphs, no modes, no caches.  modules/tensorflow/backend.c, in
    either mode and whatever TensorFlow refuses along the way, answers as this
    machine may. *)
From Stdlib Require Import Floats.SpecFloat.
From S2P Require Import Prelude Effect Float Tensor Closure Compile Shape Producer Csv Slots Table Record Meaning Typed Visit Key Frame Cached Described Evaluate Running Reading Recorded Specified Service.

(** ** The machine *)

(** The calls, under their names in the back end; the last three are the
    mode switch of the torch module, the device and the seed. *)
Inductive call :=
| C_from_doubles (data : list float64) (sh : list Z)
| C_from_ints (data : list Z)
| C_load_csv (file : option bytes)
| C_fill (sh : list Z) (v : float64)
| C_eye (n : Z)
| C_arange (n : Z)
| C_unary (nm : bytes) (a : Z)
| C_binary (nm : bytes) (a b : Z)
| C_scalar (nm : bytes) (a : Z) (v : float64)
| C_agg (nm : bytes) (a : Z)
| C_argmax (a dim : Z)
| C_reshape (a : Z) (sh : list Z)
| C_slice (a axis from to : Z)
| C_standardise (a ntrain : Z)
| C_random (sh : list Z) (normal : bool)
| C_randperm (n : Z)
| C_parameter (a : Z)
| C_step (w g : Z) (lr : float64)
| C_free (a : Z)
| C_exists (a : Z)
| C_force (a : Z)
| C_values (a : Z)
| C_shape (a : Z)
| C_mode (m : Z)
| C_device (k : Z)
| C_seed (x : Z).
(** The sizes a call is given: as many as there is room for, none negative,
    their product in 64 bits. *)
Definition roomy (sh : list Z) : Prop := length sh ≤ TF_MAXDIM ∧ proper_dims sh.
#[export] Instance roomy_decision sh : Decision (roomy sh).
Proof. unfold roomy. apply _. Defined.
Lemma vector_roomy n : (0 ≤ n < 2 ^ 63)%Z → roomy [n].
Proof.
  intros Hn. split; [cbn; unfold TF_MAXDIM; lia|]. split; [constructor; [lia|constructor]|]. unfold elements. cbn [foldl]. lia.
Qed.
Definition sized (c : call) : Prop :=
  match c with
  | C_from_doubles _ sh | C_fill sh _ | C_random sh _ => roomy sh
  | C_from_ints data => roomy [Z.of_nat (length data)]
  | C_load_csv (Some f) => (Z.of_nat (length f) < 2 ^ 63)%Z
  | C_eye n => roomy [n; n]
  | C_arange n | C_randperm n => roomy [n]
  | C_reshape _ sh => length sh ≤ TF_MAXDIM
  | C_slice _ axis _ _ => (0 ≤ axis)%Z
  | _ => True
  end.
#[export] Instance sized_decision c : Decision (sized c).
Proof. destruct c; cbn; try apply _. destruct file; apply _. Defined.
Inductive answer :=
| A_handle (r : option Z)
| A_bool (b : bool)
| A_values (r : option (list float64 * list Z))
| A_shape (r : option (list Z))
| A_done.

(** The named handles and what each stands for: a tensor, or nothing when its
    operation is one TensorFlow refuses. *)
Abbreviation world := (gmap Z (option tensor)).

Section machine.
Context `{TensorFlow}.

(** An operation on what its inputs stand for. *)
Definition operate (r : OpSpec) (args : list (option tensor)) : option tensor :=
  ts ← mapM id args; match tf_exec r ts with inl t => Some t | inr _ => None end.

(** An operand; a stale handle is mistaken for a temporary that stands for [y]
    when that is what the slot is used for. *)
Definition operand (A : world) (y : option tensor) (a : Z) (x : option tensor) : Prop :=
  A !! a = Some x ∨ A !! a = None ∧ in_table a ∧ x = y.

(** The recipes, which do not depend on the handles. *)
Definition unary_recipe (o : bytes) : OpSpec := recipe (spec_type $"T" TF_FLOAT (spec_in 0 (spec_init o))).
Definition binary_recipe (o : bytes) : OpSpec :=
  let p := binary_spec o 0 0 in
  recipe (if decide (o = $"MatMul") then spec_bool $"transpose_b" 0 (spec_bool $"transpose_a" 0 p) else p).
Definition int_vector (v : list Z) : tensor := tensor_i32 v [Z.of_nat (length v)].
Definition int_scalar (v : Z) : tensor := Tensor TF_INT32 [] [Int (sint 32 v)].

(** Everything reduced to one number, and the deviation of a sample. *)
Definition aggop (nm : bytes) : option bytes :=
  if decide (nm = $"sum") then Some $"Sum" else if decide (nm = $"mean") then Some $"Mean"
  else if decide (nm = $"max") then Some $"Max" else if decide (nm = $"min") then Some $"Min" else None.
Definition reduced_all (o : bytes) (x : option tensor) : option tensor :=
  t ← x; operate (recipe (reduce_spec o 0 0 0)) [x; Some (int_vector (Z.of_nat <$> seq 0 (length (t_dims t))))].
Definition on_scalar (o : bytes) (x : option tensor) (f : float32) : option tensor :=
  operate (binary_recipe o) [x; Some (scalar f)].
Definition deviation (x : option tensor) (count : float32) : option tensor :=
  let d := operate (binary_recipe $"Sub") [x; reduced_all $"Mean" x] in
  let ss := reduced_all $"Sum" (operate (binary_recipe $"Mul") [d; d]) in
  operate (unary_recipe $"Sqrt") [on_scalar $"RealDiv" ss count].
(** A tensor given other sizes, of its own type if that is one of integers. *)
Definition own_dtype (t : tensor) : Z :=
  if decide (t_dtype t = TF_INT32 ∨ t_dtype t = TF_INT64) then t_dtype t else TF_FLOAT.
Definition reshaping (t a sv : Z) : OpSpec :=
  spec_type $"Tshape" TF_INT32 (spec_type $"T" t (spec_in sv (spec_in a (spec_init $"Reshape")))).
Definition reshaped_to (x : option tensor) (sh : list Z) : option tensor :=
  t ← x; operate (recipe (reshaping (own_dtype t) 0 0)) [x; Some (int_vector sh)].

(** A part of a tensor along an axis; the rest of each other axis. *)
Definition slicing (t a b z : Z) : OpSpec :=
  spec_type $"Index" TF_INT32 (spec_type $"T" t (spec_in z (spec_in b (spec_in a (spec_init $"Slice"))))).
Definition slice_begin (nd axis : nat) (from : Z) : list Z := <[axis := from]> (replicate nd 0%Z).
Definition slice_size (nd axis : nat) (from to : Z) : list Z := <[axis := sint 64 (to - from)]> (replicate nd (-1)%Z).
Definition slice_of (x : option tensor) (axis : nat) (from to : Z) : option tensor :=
  t ← x; let nd := length (t_dims t) in
  operate (recipe (slicing (own_dtype t) 0 0 0)) [x; Some (int_vector (slice_begin nd axis from)); Some (int_vector (slice_size nd axis from to))].
(** Each column less its mean, by its deviation over the first rows, which is
    taken for at least [least]. *)
Definition reduced_rows (o : bytes) (x : option tensor) : option tensor :=
  operate (recipe (reduce_spec o 0 0 1)) [x; Some (int_vector [0%Z])].
Definition standardised (x : option tensor) (ntrain : Z) (count least : float32) : option tensor :=
  let hd := slice_of x 0 0 ntrain in
  let mu := reduced_rows $"Mean" hd in
  let d := operate (binary_recipe $"Sub") [hd; mu] in
  let var := on_scalar $"RealDiv" (reduced_rows $"Sum" (operate (binary_recipe $"Mul") [d; d])) count in
  let sd := operate (binary_recipe $"Maximum") [operate (unary_recipe $"Sqrt") [var]; Some (scalar least)] in
  operate (binary_recipe $"RealDiv") [operate (binary_recipe $"Sub") [x; mu]; sd].

(** What a call makes. *)
Definition makes (A : world) (c : call) (m : option tensor) : Prop :=
  match c with
  | C_from_doubles data sh => m = Some (tensor_f32 data sh)
  | C_from_ints data => m = Some (int_vector data)
  | C_load_csv file => ∃ f buf rows cols, file = Some f ∧ csv f = inl (buf, rows, cols) ∧ m = Some (tensor_f32 buf [rows; cols])
  | C_fill sh v => m = Some (tensor_f32 (replicate (Z.to_nat (Z.max (elements sh) 1)) v) sh)
  | C_eye n => m = Some (tensor_f32 ((λ k, if decide (k `mod` (n + 1) = 0)%Z then one else S754_zero false)
                           <$> (Z.of_nat <$> seq 0 (Z.to_nat (n * n)))) [n; n])
  | C_arange n => m = Some (tensor_f32 (double_of <$> (Z.of_nat <$> seq 0 (Z.to_nat n))) [n])
  | C_unary nm a =>
      if decide (nm = $"transpose") then
        ∃ x, operand A (Some (int_vector [1; 0]%Z)) a x ∧
             m = operate (recipe (transpose_spec 0 0)) [x; Some (int_vector [1; 0]%Z)]
      else ∃ o x, unop nm = Some o ∧ A !! a = Some x ∧ m = operate (unary_recipe o) [x]
  | C_binary nm a b =>
      ∃ o x y, binop nm = Some o ∧ A !! a = Some x ∧ A !! b = Some y ∧ m = operate (binary_recipe o) [x; y]
  | C_scalar nm a v =>
      ∃ o f x, binop nm = Some o ∧ same_scalar v f ∧ operand A (Some (scalar f)) a x ∧ m = on_scalar o x f
  | C_agg nm a =>
      ∃ x, A !! a = Some x ∧
        if decide (nm = $"std") then
          ∃ sh f, (∀ t, x = Some t → agrees sh (t_dims t)) ∧ same_scalar (sample_count (product64 sh)) f ∧ m = deviation x f
        else ∃ o, aggop nm = Some o ∧ m = reduced_all o x
  | C_argmax a dim =>
      ∃ x, operand A (Some (int_scalar dim)) a x ∧
           m = operate (recipe (argmax_spec 0 0)) [x; Some (int_scalar dim)]
  | C_reshape a sh => ∃ x, operand A (Some (int_vector sh)) a x ∧ m = reshaped_to x sh
  | C_slice a axis from to => ∃ x, A !! a = Some x ∧ m = slice_of x (Z.to_nat axis) from to
  | C_standardise a ntrain =>
      ∃ x f g, A !! a = Some x ∧ same_scalar (sample_count ntrain) f ∧ same_scalar tiny g ∧ m = standardised x ntrain f g
  | C_random sh normal =>
      ∃ b k t, tf_exec (random_spec normal) [int_vector sh; tensor_i32 [b; k] [2%Z]] = inl t ∧ m = Some t
  | C_randperm n =>
      ∃ v, v ≡ₚ seqZ 0 n ∧ m = Some (Tensor TF_FLOAT [n] ((λ i, Flt (narrow (double_of i))) <$> v))
  | C_step w g lr =>
      ∃ f x y, same_scalar lr f ∧ operand A (Some (scalar f)) g x ∧ operand A (on_scalar $"Mul" x f) w y ∧
        m = operate (binary_recipe $"Sub") [y; on_scalar $"Mul" x f]
  | C_parameter a => ∃ t, A !! a = Some (Some t) ∧ m = Some t
  | _ => False
  end.
Definition creates (c : call) : bool :=
  match c with
  | C_free _ | C_exists _ | C_force _ | C_values _ | C_shape _ | C_mode _ | C_device _ | C_seed _ => false
  | _ => true
  end.

(** The calls that leave temporaries behind when they are refused, and what may
    be in their place: handles nobody was told. *)
Definition leaky (c : call) : bool :=
  match c with C_slice _ _ _ _ | C_standardise _ _ => true | _ => false end.
Definition strewn (A A' : world) : Prop := A ⊆ A' ∧ ∀ h, is_Some (A' !! h) → is_Some (A !! h) ∨ in_table h.
Lemma strewn_refl A : strewn A A.
Proof using. split; [done|auto]. Qed.

(** A shape told of a tensor: right wherever its size is not 0. *)
Definition shape_told (A : world) (a : Z) (r : option (list Z)) : Prop := ∀ sh, r = Some sh →
  ∃ x, A !! a = Some x ∧ ∀ t, x = Some t → agrees sh (t_dims t).

(** What may be answered, and what the world is then. *)
Inductive may (A : world) : call → answer → world → Prop :=
| may_refuse c A' : creates c = true → A' = A ∨ leaky c = true ∧ strewn A A' → may A c (A_handle None) A'
| may_make c h m : in_table h → A !! h = None → makes A c m → may A c (A_handle (Some h)) (<[h := m]> A)
| may_free a : may A (C_free a) (A_bool (bool_decide (is_Some (A !! a)))) (delete a A)
| may_exist a : may A (C_exists a) (A_bool (bool_decide (is_Some (A !! a)))) A
| may_force a b : (b = true → ∃ t, A !! a = Some (Some t)) → may A (C_force a) (A_bool b) A
| may_not_read a : may A (C_values a) (A_values None) A
| may_read a t : A !! a = Some (Some t) →
    may A (C_values a) (A_values (Some (as_double <$> t_data t, t_dims t))) A
| may_shape a r : shape_told A a r → may A (C_shape a) (A_shape r) A
| may_mode m : may A (C_mode m) A_done A
| may_device k b : may A (C_device k) (A_bool b) A
| may_seed x : may A (C_seed x) A_done A.
Inductive may_all (A : world) : list call → list answer → world → Prop :=
| may_nil : may_all A [] [] A
| may_cons c cs a l A1 A2 : may A c a A1 → may_all A1 cs l A2 → may_all A (c :: cs) (a :: l) A2.

(** ** The back end *)

Definition set_mode (v : Z) (s : tfst) : tfst :=
  TfSt (slots s) (slot_cursor s) (hs s) (next_h s) (entries s) (scalars s) (scalar_next s) (seed_base s) (seed_next s)
       (gpu_name s) (dev_gpu s) v (errbuf s) (opcount s) (fncount s) (stat_rec s) (stat_exe s) (stat_rep s) (tfq s).

Definition do_call (c : call) : T answer :=
  match c with
  | C_from_doubles data sh => r <- tfb_from_doubles data sh ;; ret (A_handle r)
  | C_from_ints data => r <- tfb_from_ints data ;; ret (A_handle r)
  | C_load_csv file => r <- tfb_load_csv file ;; ret (A_handle r)
  | C_fill sh v => r <- tfb_fill sh v ;; ret (A_handle r)
  | C_eye n => r <- tfb_eye n ;; ret (A_handle r)
  | C_arange n => r <- tfb_arange n ;; ret (A_handle r)
  | C_unary nm a => r <- tfb_unary nm a ;; ret (A_handle r)
  | C_binary nm a b => r <- tfb_binary nm a b ;; ret (A_handle r)
  | C_scalar nm a v => r <- tfb_scalar nm a v ;; ret (A_handle r)
  | C_agg nm a => r <- tfb_agg nm a ;; ret (A_handle r)
  | C_argmax a dim => r <- tfb_argmax a dim ;; ret (A_handle r)
  | C_reshape a sh => r <- tfb_reshape a sh ;; ret (A_handle r)
  | C_slice a axis from to => r <- tfb_slice a axis from to ;; ret (A_handle r)
  | C_standardise a ntrain => r <- tfb_standardise a ntrain ;; ret (A_handle r)
  | C_random sh normal => r <- tfb_random sh normal ;; ret (A_handle r)
  | C_randperm n => r <- tfb_randperm n ;; ret (A_handle r)
  | C_parameter a => r <- tfb_parameter a ;; ret (A_handle r)
  | C_step w g lr => r <- tfb_step w g lr ;; ret (A_handle r)
  | C_free a => b <- tfb_free a ;; ret (A_bool b)
  | C_exists a => b <- tfb_exists a ;; ret (A_bool b)
  | C_force a => b <- tfb_force a ;; ret (A_bool b)
  | C_values a => r <- tfb_values a ;; ret (A_values r)
  | C_shape a => r <- tfb_shape a ;; ret (A_shape r)
  | C_mode m => modify (set_mode m) ;; ret A_done
  | C_device k => b <- tfb_device_set k ;; ret (A_bool b)
  | C_seed x => tfb_seed x ;; ret A_done
  end.
Fixpoint do_calls (cs : list call) : T (list answer) :=
  match cs with
  | [] => ret []
  | c :: cs => a <- do_call c ;; l <- do_calls cs ;; ret (a :: l)
  end.

(** ** What a state represents *)

Record represents (A : world) (s : tfst) : Prop := {
  re_good : good [] s;
  re_cached : cached s;
  re_names : ∀ h, exists_ s h = true ↔ is_Some (A !! h);
  re_means : ∀ h m, A !! h = Some m → ∀ t, means s h t ↔ m = Some t;
}.

Lemma re_exists A s h : represents A s → exists_ s h = bool_decide (is_Some (A !! h)).
Proof.
  intros Hr. apply eq_bool_prop_intro. rewrite bool_decide_spec, <- (re_names _ _ Hr). by rewrite Is_true_true.
Qed.
Lemma re_fresh A s h : represents A s → exists_ s h = false → A !! h = None.
Proof.
  intros Hr Hx. destruct (A !! h) as [m|] eqn:E; [|done].
  assert (exists_ s h = true) by (apply (re_names _ _ Hr); by eexists). congruence.
Qed.

(** Nothing the caller sees happened. *)
Lemma carries_represents A s s' :
  represents A s → good [] s' → cached s' → carries none s s' → represents A s'.
Proof.
  intros [Hg Hc Hn Hm] Hg' Hc' [Hk _ Hx]. split; [done|done| |].
  - intros h. rewrite <- Hn. split; [intros Hh; by destruct (Hx h Hh)|intros Hh; by apply Hk].
  - intros h m Hh t. rewrite <- (Hm h m Hh). symmetry. apply Hk. apply Hn. by eexists.
Qed.
Lemma ran_represents A R s s' : represents A s → good [] s' → cached s' → ran R s s' → represents A s'.
Proof. intros Hr Hg Hc Hn. eapply carries_represents; [done..|]. by eapply ran_carries. Qed.

(** One tensor more. *)
Lemma answers_represents A s x h s' :
  represents A s → answers (λ u, x = Some u) s (Some h) s' → cached s' →
  in_table h ∧ A !! h = None ∧ represents (<[h := x]> A) s'.
Proof.
  intros Hr (Hg & [Hk Hv Hx] & _ & Ha) Hc. destruct (Ha h eq_refl) as (Hx0 & Hx1 & Hm).
  pose proof (re_fresh _ _ _ Hr Hx0) as HA. split; [by apply exists_spec in Hx1 as [? _]|]. split; [done|].
  split; [done|done| |].
  - intros i. destruct (decide (i = h)) as [->|Hne].
    + rewrite lookup_insert_eq. split; [by eexists|done].
    + rewrite lookup_insert_ne by done. rewrite <- (re_names _ _ Hr).
      split; [intros Hi; destruct (Hx i Hi) as [?|[= ->]]; done|intros Hi; by apply Hk].
  - intros i m. destruct (decide (i = h)) as [->|Hne].
    + rewrite lookup_insert_eq. intros [= <-] t. by rewrite Hm.
    + rewrite lookup_insert_ne by done. intros Hi t. rewrite <- (re_means _ _ Hr i m Hi). symmetry. apply Hk.
      apply (re_names _ _ Hr). by eexists.
Qed.
Lemma refused_represents A P s s' : represents A s → answers P s None s' → cached s' → represents A s'.
Proof.
  intros Hr (Hg & Hca & _) Hc. eapply carries_represents; [done..|]. eapply carries_weaken; [|exact Hca]. done.
Qed.

(** The result of a recipe, by the map. *)
Definition stands (A : world) (h : Z) : option tensor := mjoin (A !! h).
Lemma result_operate A s p t :
  represents A s → Forall (λ h, exists_ s h = true) (ins p) →
  result_of p s t ↔ operate (recipe p) (stands A <$> ins p) = Some t.
Proof.
  intros Hr Hx. assert (∀ ts, Forall2 (means s) (ins p) ts ↔ mapM id (stands A <$> ins p) = Some ts) as Hi.
  { intros ts. rewrite mapM_Some, Forall2_fmap_l. induction Hx as [|h l Hh _ IH] in ts |- *.
    - split; intros Hf; inversion Hf; constructor.
    - apply (re_names _ _ Hr) in Hh as [m Hm]. pose proof (re_means _ _ Hr h m Hm) as Hmm.
      assert (∀ u, (id ∘ stands A) h = Some u ↔ means s h u) as Hst.
      { intros u. unfold stands. cbn. rewrite Hm. cbn. by rewrite Hmm. }
      split; intros Hf; inversion Hf; subst; (constructor; [by apply Hst|by apply IH]). }
  unfold result_of, operate. setoid_rewrite Hi. split.
  - intros (ts & -> & Ht). cbn. by rewrite Ht.
  - intros (ts & Hts & Ht)%bind_Some. exists ts. split; [done|]. by destruct (tf_exec _ ts); simplify_eq.
Qed.
End machine.
