(* ===== verification/Makes.v ===== *)
(** * What the producers make

    Each producer of modules/tensorflow/backend.c, from a state that
    represents the abstract machine's: it makes what the machine's call makes,
    or refuses. *)
From Stdlib Require Import Floats.SpecFloat.
From S2P Require Import Prelude Effect Float Tensor Closure Compile Shape Producer Slots Table Record Meaning Typed Visit Key Frame Cached Described Evaluate Running Reading Recorded Specified Service Machine.

(** The recipes are ones the rules are written for. *)
#[export] Instance named_in_decision l a : Decision (named_in l a).
Proof. unfold named_in. apply _. Defined.
Ltac known_recipe := split; [split; apply (bool_decide_unpack _); by vm_compute|apply (bool_decide_unpack _); by vm_compute|done].
Tactic Notation "one_of" hyp(H) tactic3(tac) := repeat (apply elem_of_cons in H as [->|H]; [tac|]); by apply elem_of_nil in H.

Section makes.
Context `{TensorFlow}.

(** ** The producers *)

Context (Hruns : runs_graphs tf_exec tf_call) (Hflat : flat) (Hinfer : infers) (Hdoc : documented).

(** A recipe run: what it makes of the operands named, or a refusal. *)
Definition run_of (A : world) (p : OpSpec) (s : tfst) (r : option Z) (s' : tfst) : Prop :=
  answers (λ u, operate (recipe p) (stands A <$> ins p) = Some u) s r s' ∧
  ∀ h, r = Some h → Forall (λ h, is_Some (A !! h)) (ins p).
Lemma ensures_run A s p :
  represents A s → checked p → (Forall (λ h, exists_ s h = true) (ins p) → trusted p s) → ensures (run_spec p) (run_of A p s) s.
Proof.
  intros Hr Hck Htr. eapply ensures_mono; [apply (ensures_run_spec Hruns Hflat Hinfer Hdoc p s); [apply Hr|done|done]|].
  cbv beta. intros r s' _ [Ho Hx]. unfold run_of. split; cycle 1.
  { intros h Hh. eapply Forall_impl; [by apply (Hx h)|]. intros i Hi. by apply (re_names _ _ Hr). }
  destruct r as [h|].
  - eapply answers_impl; [|exact Ho]. intros t. apply result_operate; [done|]. by apply (Hx h).
  - destruct Ho as (? & ? & ? & _). done.
Qed.
Lemma ensures_run_temp A s s1 tmp t p :
  represents A s → answers (λ u, u = t) s (Some tmp) s1 → cached s1 → checked p →
  ((∀ u, means s1 tmp u ↔ u = t) → trusted p s1) →
  ensures (with_free (run_spec p) tmp) (run_of (<[tmp := Some t]> A) p s) s1 ∧ in_table tmp ∧ A !! tmp = None.
Proof.
  intros Hr Ha Hc Hck Htr. assert (answers (λ u, Some t = Some u) s (Some tmp) s1) as Ha'.
  { eapply answers_impl; [|exact Ha]. intros u. split; [by intros ->|by intros [= ->]]. }
  destruct (answers_represents _ _ _ _ _ Hr Ha' Hc) as (Hi & Hn & Hr1). split; [|done].
  eapply ensures_with_free; [exact Ha|]. apply ensures_run; [done..|]. intros _. apply Htr. by apply Ha.
Qed.
Lemma operand_temp A tmp x a :
  in_table tmp → A !! tmp = None → is_Some (<[tmp := x]> A !! a) → operand A x a (stands (<[tmp := x]> A) a).
Proof.
  intros Hi Hn [m Hm]. unfold stands, operand. destruct (decide (a = tmp)) as [->|Hne].
  - right. by rewrite lookup_insert_eq.
  - rewrite lookup_insert_ne in Hm |- * by done. left. by rewrite Hm.
Qed.
Lemma stands_at A a x : A !! a = Some x → stands A a = x.
Proof. unfold stands. by intros ->. Qed.
Lemma stands_temp A tmp x : stands (<[tmp := x]> A) tmp = x.
Proof. unfold stands. by rewrite lookup_insert_eq. Qed.

(** A creating call answers a tensor of the kind [K], or nothing. *)
Definition produced (K : option tensor → Prop) (s : tfst) (r : option Z) (s' : tfst) : Prop :=
  ∃ x, answers (λ u, x = Some u) s r s' ∧ ∀ h, r = Some h → K x.
Definition made_by (K : option tensor → Prop) (s : tfst) (r : option Z) (s' : tfst) : Prop :=
  produced K s r s' ∧ cached s'.
Lemma ensures_made K m s :
  cached s → ensures m (produced K s) s → follows tidy m → ensures m (made_by K s) s.
Proof.
  intros Hc Hm Hf. eapply ensures_mono; [apply (ensures_follows _ _ tidy _ Hm Hf)|].
  cbv beta. intros r s' _ [Hp Ht]. split; [done|]. by apply Ht.
Qed.
Lemma produced_none K P s s' : answers P s None s' → produced K s None s'.
Proof. intros (? & ? & ? & _). by exists None. Qed.
Lemma run_produced K A p s r s' :
  run_of A p s r s' →
  (Forall (λ h, is_Some (A !! h)) (ins p) → K (operate (recipe p) (stands A <$> ins p))) →
  produced K s r s'.
Proof. intros [Ha Hx] Hm. eexists. split; [exact Ha|]. intros h Hh. apply Hm. by eapply Hx. Qed.

Lemma wp_refuse m K s : good [] s → wp (fail m ;; ret None) (produced K s) never s.
Proof.
  intros Hr. tf_step. eapply wp_mono; [apply wp_tf_fail| |done]. cbv beta. intros _ s' Hi. tf_step.
  eapply (produced_none _ (λ _, True)). by apply inert_none.
Qed.
Lemma wp_produced t ck (K : option tensor → Prop) s :
  good [] s → (ck = true → constant t) → housed t → K (Some t) →
  wp (slot_from_tensor t ck) (produced K s) never s.
Proof.
  intros Hr Hc Ht Hm. eapply wp_mono; [by apply wp_make| |done]. intros r s' Ha. exists (Some t). split; [|done].
  eapply answers_impl; [|exact Ha]. intros u. split; [by intros ->|by intros [= ->]].
Qed.

Lemma unop_in nm o : unop nm = Some o →
  o ∈ [$"Neg"; $"Abs"; $"Exp"; $"Log"; $"Sqrt"; $"Relu"; $"Sigmoid"; $"Tanh"].
Proof. unfold unop. repeat case_decide; intros [= <-]; by rewrite !elem_of_cons; auto 10. Qed.
Lemma binop_in nm o : binop nm = Some o → o ∈ [$"AddV2"; $"Sub"; $"Mul"; $"RealDiv"; $"Pow"; $"MatMul"].
Proof. unfold binop. repeat case_decide; intros [= <-]; by rewrite !elem_of_cons; auto 10. Qed.

Lemma unary_checked nm o a : unop nm = Some o → checked (spec_type $"T" TF_FLOAT (spec_in a (spec_init o))).
Proof. intros Ho%unop_in. one_of Ho known_recipe. Qed.
Lemma transpose_checked a pv : checked (transpose_spec a pv).
Proof. known_recipe. Qed.
Definition binary (o : bytes) (a b : Z) : OpSpec :=
  if decide (o = $"MatMul") then spec_bool $"transpose_b" 0 (spec_bool $"transpose_a" 0 (binary_spec o a b)) else binary_spec o a b.
Lemma binary_checked nm o a b : binop nm = Some o → checked (binary o a b).
Proof. intros Ho%binop_in. unfold binary. one_of Ho known_recipe. Qed.
Lemma untrusting p s : op p ∉ [$"Transpose"; $"Reshape"] → trusted p s.
Proof. rewrite !elem_of_cons. intros Ho. split; intros ?; destruct Ho; auto. Qed.
Lemma binary_trusted nm o a b s : binop nm = Some o → trusted (binary o a b) s.
Proof. intros Ho%binop_in. apply untrusting. unfold binary. one_of Ho (by apply (bool_decide_unpack _)). Qed.
Lemma unary_trusted nm o a s : unop nm = Some o → trusted (spec_type $"T" TF_FLOAT (spec_in a (spec_init o))) s.
Proof. intros Ho%unop_in. apply untrusting. one_of Ho (by apply (bool_decide_unpack _)). Qed.
Lemma argmax_checked a d : checked (argmax_spec a d).
Proof. known_recipe. Qed.

Lemma ensures_binary A s nm a b :
  represents A s → ensures (tfb_binary nm a b) (produced (makes A (C_binary nm a b)) s) s.
Proof.
  intros Hr. unfold tfb_binary. destruct (binop nm) as [o|] eqn:Eo; [|by apply ensures_wp, wp_refuse, Hr].
  cbv zeta. fold (binary o a b).
  eapply ensures_mono; [apply (ensures_run A); [done|by eapply binary_checked|intros _; by eapply binary_trusted]|].
  cbv beta. intros r s' _ Hrun. eapply run_produced; [exact Hrun|].
  assert (ins (binary o a b) = [a; b]) as -> by (unfold binary; by case_decide).
  assert (recipe (binary o a b) = binary_recipe o) as -> by (unfold binary, binary_recipe; by case_decide).
  intros Hf. inversion Hf as [|? ? [x Hx] Hf']. inversion Hf' as [|? ? [y Hy] _]. subst.
  cbn [makes]. exists o, x, y. split_and!; try done. cbn. unfold stands. by rewrite Hx, Hy.
Qed.
(** A temporary integer tensor. *)
Lemma wp_temp A s t ck :
  represents A s → (ck = true → constant t) → housed t →
  wp (slot_from_tensor t ck) (λ r s', cached s' ∧ ∃ t', t' = t ∧ answers (λ u, u = t') s r s') never s.
Proof.
  intros Hr Hc Ht. eapply wp_mono; [apply (wp_follows _ _ tidy _ (wp_make t ck s (re_good _ _ Hr) Hc Ht)); frame| |done].
  cbv beta. intros r s' [Ha Ht']. split; [apply Ht', Hr|by exists t].
Qed.
Lemma int_vector_constant v : (length v ≤ 32)%nat → constant (int_vector v).
Proof.
  intros Hl. split; [done|]. split.
  - cbn. rewrite length_fmap, length_take. lia.
  - split; [cbn; unfold TF_MAXDIM; lia|]. cbn. apply Forall_fmap, Forall_true. intros i. by eexists.
Qed.
Lemma int_vector_housed v : (length v ≤ 32)%nat → housed (int_vector v).
Proof.
  intros Hl. change (roomy [Z.of_nat (length v)]). apply vector_roomy. lia.
Qed.
Lemma int_scalar_constant v : constant (int_scalar v).
Proof. split; [done|]. split; [cbn; lia|]. split; [cbn; unfold TF_MAXDIM; lia|]. repeat constructor. by eexists. Qed.
Lemma int_scalar_housed v : housed (int_scalar v).
Proof. by apply (bool_decide_unpack _). Qed.

(** A recipe on one operand and a temporary. *)
Lemma ensures_temp_run A (R : option tensor → Prop) s mk (K : tensor → Prop) (p : Z → OpSpec) r a :
  represents A s →
  wp mk (λ r s', cached s' ∧ ∃ t, K t ∧ answers (λ u, u = t) s r s') never s →
  (∀ tmp, checked (p tmp) ∧ ins (p tmp) = [a; tmp] ∧ recipe (p tmp) = r) →
  (∀ tmp s t, K t → (∀ u, means s tmp u ↔ u = t) → trusted (p tmp) s) →
  (∀ t x, K t → operand A (Some t) a x → R (operate r [x; Some t])) →
  ensures (tmp <-? mk ;; with_free (run_spec (p tmp)) tmp) (made_by R s) s.
Proof.
  intros Hr Hmk Hp Htr Hm. apply ensures_bindo; [intros; apply follows_with_free; grows|]. apply ensures_wp.
  eapply wp_mono; [exact Hmk| |done]. cbv beta. intros [tmp|] s1; [intros (Hc & t & Ht & Ha)|intros (Hc & t & _ & Ha); split; [by eapply produced_none|done]].
  destruct (Hp tmp) as (Hck & Hins & Hrec).
  destruct (ensures_run_temp A s s1 tmp _ _ Hr Ha Hc Hck) as (Hrun & Hi & Hn); [by apply Htr|].
  eapply ensures_mono; [apply (ensures_follows _ _ tidy _ Hrun); apply follows_with_free; frame|].
  cbv beta. intros r' s' _ [Hro Ht']. split; [|by apply Ht']. eapply run_produced; [exact Hro|].
  rewrite Hins, Hrec. intros Hf. inversion Hf as [|? ? Hx _]. subst. cbn [fmap list_fmap]. rewrite stands_temp.
  by apply Hm; [|apply operand_temp].
Qed.

Lemma ensures_unary A s nm a :
  represents A s → ensures (tfb_unary nm a) (made_by (makes A (C_unary nm a)) s) s.
Proof.
  intros Hr. unfold tfb_unary. case_decide as Ht.
  - apply (ensures_temp_run A _ s (ivec [1; 0]%Z) (λ t, t = int_vector [1; 0]%Z) (transpose_spec a) (recipe (transpose_spec 0 0)) a); [done| | | |].
    + unfold ivec. apply (wp_temp A); [done|intros _; apply int_vector_constant; cbn; lia|apply int_vector_housed; cbn; lia].
    + intros tmp. split; [apply transpose_checked|done].
    + intros tmp s' t -> Hm. split; [|done]. intros _ u Hu%Hm. by subst.
    + intros t x -> Hx. cbn [makes]. rewrite decide_True by done. by exists x.
  - destruct (unop nm) as [o|] eqn:Eo; [|apply ensures_made; [apply Hr|by apply ensures_wp, wp_refuse, Hr|frame]].
    apply ensures_made; [apply Hr| |frame].
    eapply ensures_mono; [apply (ensures_run A); [done|by eapply unary_checked|intros _; by eapply unary_trusted]|].
    cbv beta. intros r s' _ Hrun. eapply run_produced; [exact Hrun|].
    intros Hf. inversion Hf as [|? ? [x Hx] _]. subst. cbn [makes]. rewrite decide_False by done. exists o, x.
    split_and!; try done. change (operate (unary_recipe o) [stands A a] = operate (unary_recipe o) [x]).
    by rewrite (stands_at A a x).
Qed.
Lemma ensures_argmax A s a dim :
  represents A s → ensures (tfb_argmax a dim) (made_by (makes A (C_argmax a dim)) s) s.
Proof.
  intros Hr. unfold tfb_argmax.
  apply (ensures_temp_run A _ s (iscalar dim) (λ t, t = int_scalar dim) (argmax_spec a) (recipe (argmax_spec 0 0)) a); [done| | | |].
  - unfold iscalar. apply (wp_temp A); [done|intros _; apply int_scalar_constant|apply int_scalar_housed].
  - intros tmp. split; [apply argmax_checked|done].
  - intros tmp s' t _ _. apply untrusting. by apply (bool_decide_unpack _).
  - intros t x -> Hx. by exists x.
Qed.
Lemma ensures_scalar A s nm a v :
  represents A s → ensures (tfb_scalar nm a v) (made_by (makes A (C_scalar nm a v)) s) s.
Proof.
  intros Hr. unfold tfb_scalar. destruct (binop nm) as [o|] eqn:Eo; [|apply ensures_made; [apply Hr|by apply ensures_wp, wp_refuse, Hr|frame]].
  case_decide as Ho; [apply ensures_made; [apply Hr|by apply ensures_wp, wp_refuse, Hr|frame]|].
  assert (∀ tmp, binary_spec o a tmp = binary o a tmp) as Hb by (intros tmp; unfold binary; by rewrite decide_False).
  apply (ensures_temp_run A _ s (fscalar v) (λ t, ∃ f, t = scalar f ∧ same_scalar v f) (binary_spec o a) (binary_recipe o) a); [done| | | |].
  - eapply wp_mono; [apply wp_scalar; apply Hr| |done]. cbv beta. intros r s' (Hc & f & Hf & Ha). split; [done|].
    exists (scalar f). split; [by exists f|done].
  - intros tmp. split; [rewrite Hb; by eapply binary_checked|]. split; [done|]. unfold binary_recipe. by rewrite decide_False.
  - intros tmp s' t _ _. rewrite Hb. by eapply binary_trusted.
  - intros t x (f & -> & Hf) Hx. by exists o, f, x.
Qed.

Lemma answers_after P R s0 s r s' : ran R s0 s → answers P s r s' → answers P s0 r s'.
Proof.
  intros Hr (Hg & Hc & Hm & Ha). pose proof (ran_carries _ none _ _ Hr) as Hc0.
  split; [done|]. split; [by eapply carries_l|]. split; [by rewrite Hm, (rn_mode _ _ _ Hr)|].
  intros h Hh. destruct (Ha h Hh) as (Hx & ? & ?). split; [by eapply carries_not_exists|done].
Qed.
Lemma answers_then P R s r s' s'' : answers P s r s' → good [] s'' → ran R s' s'' → answers P s r s''.
Proof.
  intros (Hg & Hc & Hm & Ha) Hg' Hr. pose proof (ran_carries _ none _ _ Hr) as Hc0.
  split; [done|]. split; [by eapply carries_r|]. split; [by rewrite (rn_mode _ _ _ Hr)|].
  intros h Hh. destruct (Ha h Hh) as (Hx & Hx' & Ht). destruct (ca_keeps _ _ _ Hc0 h Hx') as [Hx2 Hm2].
  split; [done|]. split; [done|]. intros t. by rewrite <- Hm2.
Qed.

Lemma means_housed s h t : good [] s → exists_ s h = true → means s h t → housed t.
Proof. intros Hg Hx Hm. by destruct (sd_fits _ _ (gd_sound _ _ Hg h (exists_live _ _ Hx)) t Hm). Qed.
(** A tensor made a parameter. *)
Lemma param_good loose h s :
  good loose s → exists_ s h = true →
  good loose (upd_slots h (set_is_param true) s) ∧ ran (only h) s (upd_slots h (set_is_param true) s).
Proof.
  intros Hg Hx. eapply upd_good; [done|done|by apply exists_live|by split| |done|done].
  pose proof (is_put_at _ _ _ _ (upd_slots_put h (set_is_param true) s)) as E.
  apply outlined_same; rewrite ?E; [done..|]. unfold value_of. rewrite E. auto.
Qed.
Lemma ensures_parameter A s a :
  represents A s → ensures (tfb_parameter a) (produced (makes A (C_parameter a)) s) s.
Proof.
  intros Hr. unfold tfb_parameter. apply ensures_bind; [intros; grows|]. apply ensures_wp. tf_step.
  destruct (exists_ s a) eqn:Hx; cbn [negb]; [|by apply ensures_wp, wp_refuse, Hr].
  apply ensures_bind; [intros; grows|]. eapply ensures_mono; [apply (ensures_tfb_force Hruns []), Hr|].
  cbv beta. intros b s1 _ (Hg1 & Hr1 & Hv1). destruct b; cbn [negb]; cycle 1.
  { apply ensures_ret. intros _. eapply (produced_none _ (λ _, True)).
    apply outcome_none; [done|by eapply ran_carries|apply Hr1]. }
  destruct (Hv1 eq_refl) as [_ Hv]. apply ensures_wp. do 2 tf_step.
  destruct (value_of s1 a) as [t|] eqn:Ev; [|done]. destruct (rn_keeps _ _ _ Hr1 a Hx) as [Hx1 Hm1].
  assert (means s a t) as Hmt by (apply Hm1, sound_means; [apply Hg1|by apply exists_live|done]).
  assert (A !! a = Some (Some t)) as HA.
  { destruct (proj1 (re_names _ _ Hr a) Hx) as [m Hm]. rewrite Hm. f_equal. by apply (re_means _ _ Hr a m Hm). }
  tf_step. eapply wp_mono; [apply (wp_copy_sharing None [] []); [apply Hg1|]| |done].
  { intros e He. unfold value_of in Ev. rewrite He in Ev. by eexists. }
  cbv beta. intros [e|] s2; cycle 1.
  { intros Hi. eapply (produced_none _ (λ _, True)). eapply answers_after; [exact Hr1|]. by apply inert_none. }
  intros (t' & Ht' & Hwf2 & Hmd). assert (t' = t) as -> by (unfold value_of in Ev; congruence).
  tf_step. eapply wp_mono; [apply (wp_slot_from_handle None [] [] e t); [done|by eapply made_live]| |done].
  assert (steps none s1 s2) as Hst2 by (eapply made_steps; [apply Hg1|exact Hmd]).
  cbv beta. intros [h|] s3 [Hwf3 Hf]; cycle 1.
  { eapply (produced_none _ (λ _, True)). eapply answers_after; [exact Hr1|]. apply steps_none_none; [done|done|].
    by eapply steps_none_l. }
  do 2 tf_step. assert (answers (λ u, u = t) s1 (Some h) s3) as Ha3.
  { apply (fresh_answers h t false); [done|done| |done|by eapply means_housed; [apply Hr|..]]. destruct Hf as [Hin Hfr Hsl Hst].
    split; [done| |done|by eapply steps_none_l]. by rewrite <- (md_slots _ _ _ _ Hmd). }
  destruct (param_good [] h s3 (proj1 Ha3)) as [Hg4 Hr4]; [by eapply fresh_exists|].
  exists (Some t). split; [|by intros _ _; exists t]. eapply answers_after; [exact Hr1|].
  eapply answers_then; [|exact Hg4|exact Hr4]. eapply answers_impl; [|exact Ha3].
  intros u. split; [by intros ->|by intros [= ->]].
Qed.
End makes.
