(* ===== verification/Compound.v ===== *)
(** * The producers made of others

    Aggregates, reshaping and the step of a parameter in
    modules/tensorflow/backend.c: temporaries are made, used and freed, and
    the result is the composition of what each step makes. *)
From Stdlib Require Import Floats.SpecFloat.
From S2P Require Import Prelude Effect Float Tensor Closure Compile Shape Producer Slots Table Record Meaning Typed Visit Key Frame Cached Described Evaluate Running Reading Recorded Specified Service Machine Makes.

Lemma bindo_assoc {S A B C} (m : M S (option A)) (f : A → M S (option B)) (g : B → M S (option C)) s :
  bindo (bindo m f) g s = bindo m (λ a, bindo (f a) g) s.
Proof. unfold bindo, bind, ret. destruct (m s) as [[a|] s1| |]; done. Qed.
Lemma follows_then_free `{Framed R} m t : follows R m → follows R (then_free m t).
Proof. intros. unfold then_free. frame. Qed.
#[export] Hint Resolve follows_then_free : frame.
Lemma follows_reduce_all `{TensorFlow} `{Framed R} o a keep : follows R (reduce_all o a keep).
Proof. unfold reduce_all. frame. Qed.
Lemma follows_tfb_binary `{TensorFlow} `{Framed R} nm a b : follows R (tfb_binary nm a b).
Proof. unfold tfb_binary. frame. Qed.
Lemma follows_tfb_unary `{TensorFlow} `{Framed R} nm a : follows R (tfb_unary nm a).
Proof. unfold tfb_unary. frame. Qed.
Lemma grows_tfb_scalar `{TensorFlow} nm a v : follows older (tfb_scalar nm a v).
Proof. unfold tfb_scalar. grows. Qed.
#[export] Hint Resolve follows_reduce_all follows_tfb_binary follows_tfb_unary grows_tfb_scalar : frame.

Section compound.
Context `{TensorFlow}.
Context (Hruns : runs_graphs tf_exec tf_call) (Hflat : flat) (Hinfer : infers) (Hdoc : documented).
Implicit Types (A : world) (K : option tensor → Prop).

Lemma ensures_ext {B} (m m' : T B) Q s : m s = m' s → ensures m Q s → ensures m' Q s.
Proof. unfold ensures. by intros ->. Qed.

(** A tensor made, used for another and freed. *)
Lemma ensures_then_free A K (K' : option tensor → option tensor → Prop) m f s :
  represents A s → ensures m (made_by K s) s → (∀ tmp, grows (f tmp)) →
  (∀ tmp x s1, K x → in_table tmp → A !! tmp = None → represents (<[tmp := x]> A) s1 →
    ensures (f tmp) (made_by (K' x) s1) s1) →
  ensures (tmp <-? m ;; then_free (f tmp) tmp) (made_by (λ y, ∃ x, K x ∧ K' x y) s) s.
Proof.
  intros Hr Hm Hgr Hf. apply ensures_bindo; [intros; unfold grows; apply follows_then_free, Hgr|].
  eapply ensures_mono; [exact Hm|]. cbv beta. intros [tmp|] s1 _ [(x & Ha & HK) Hc]; [|split; [by eapply produced_none|done]].
  specialize (HK tmp eq_refl). destruct (answers_represents _ _ _ _ _ Hr Ha Hc) as (Hi & Hn & Hr1).
  unfold then_free. apply ensures_bind; [intros; grows|]. eapply ensures_mono; [by apply (Hf tmp x)|].
  cbv beta. intros r s2 _ [(y & Hy & HK2) Hc2]. apply ensures_wp. tf_step.
  eapply wp_mono; [apply (wp_follows _ _ tidy _ (wp_free_tensor [] tmp s2 (proj1 Hy))); frame| |done].
  cbv beta. intros b s3 [(Hg3 & _ & Hx3 & Hm3 & Hsp) Ht]. tf_step. split; [|by apply Ht].
  exists y. split; [by eapply answers_spared|]. intros h Hh. exists x. split; [done|by eapply HK2].
Qed.

Lemma made_by_impl K K' s r s' : (∀ m, K m → K' m) → made_by K s r s' → made_by K' s r s'.
Proof. intros HK [(x & Ha & Hx) Hc]. split; [|done]. exists x. split; [done|]. intros h Hh. by eapply HK, Hx. Qed.
Lemma ensures_impl K K' m s : (∀ x, K x → K' x) → ensures m (made_by K s) s → ensures m (made_by K' s) s.
Proof. intros HK Hm. eapply ensures_mono; [exact Hm|]. intros r s' _. by apply made_by_impl. Qed.
Lemma made_by_after K R s0 s r s' : ran R s0 s → made_by K s r s' → made_by K s0 r s'.
Proof. intros Hr [(x & Ha & Hx) Hc]. split; [|done]. exists x. split; [by eapply answers_after|done]. Qed.
Lemma refused_none K P s s' : answers P s None s' → cached s' → made_by K s None s'.
Proof. intros Ha Hc. split; [by eapply produced_none|done]. Qed.

(** ** A shape asked for first *)

Lemma ensures_shape A a s :
  represents A s →
  ensures (tfb_shape a) (λ r s', represents A s' ∧ (∃ R, ran R s s') ∧
    ∀ sh, r = Some sh → length sh ≤ TF_MAXDIM ∧ ∃ x, A !! a = Some x ∧ ∀ t, x = Some t → agrees sh (t_dims t)) s.
Proof.
  intros Hr. eapply ensures_mono.
  { apply (ensures_follows _ _ tidy _ (ensures_tfb_shape Hruns Hflat Hinfer [] a s (re_good _ _ Hr))). frame. }
  cbv beta. intros r s' _ [(Hg & Hrn & Hs) Ht].
  split; [eapply ran_represents; [done|done|by apply Ht, Hr|done]|]. split; [by eexists|].
  intros sh Hsh. destruct (Hs sh Hsh) as (Hx & Hl & Hm). split; [done|]. destruct (proj1 (re_names _ _ Hr a) Hx) as [x HA].
  exists x. split; [done|]. intros t ->. apply Hm. by apply (re_means _ _ Hr a _ HA).
Qed.
Lemma ensures_shape_then A a s K (f : list Z → T (option Z)) :
  represents A s → (∀ sh, grows (f sh)) →
  (∀ sh x s1, represents A s1 → length sh ≤ TF_MAXDIM → A !! a = Some x → (∀ t, x = Some t → agrees sh (t_dims t)) →
    ensures (f sh) (made_by K s1) s1) →
  ensures (sh <-? tfb_shape a ;; f sh) (made_by K s) s.
Proof.
  intros Hr Hgr Hf. apply ensures_bindo; [intros; apply Hgr|]. eapply ensures_mono; [by apply (ensures_shape A)|].
  cbv beta. intros [sh|] s1 _ (Hr1 & [R Hrn] & Hs).
  - destruct (Hs sh eq_refl) as (Hl & x & HA & Hx). eapply ensures_mono; [by apply (Hf sh x)|].
    intros r s' _. by eapply made_by_after.
  - apply (refused_none _ (λ _, True)); [|apply Hr1]. apply outcome_none; [apply Hr1|by eapply ran_carries|apply Hrn].
Qed.

(** ** Aggregates *)

Lemma reduce_checked o a ax keep : o ∈ reducing → checked (reduce_spec o a ax keep).
Proof. intros Ho. unfold reducing in Ho. one_of Ho known_recipe. Qed.
Lemma reduce_trusted o a ax keep s : o ∈ reducing → trusted (reduce_spec o a ax keep) s.
Proof. intros Ho. apply untrusting. unfold reducing in Ho. one_of Ho (by apply (bool_decide_unpack _)). Qed.

Definition reduction A a o m : Prop := ∃ x, A !! a = Some x ∧ m = reduced_all o x.
Lemma ensures_reduce_all A s o a :
  represents A s → o ∈ reducing → ensures (reduce_all o a 0) (made_by (reduction A a o) s) s.
Proof.
  intros Hr Ho. unfold reduce_all. apply (ensures_shape_then A); [done|intros; grows|]. intros sh x s1 Hr1 Hl HA Hx.
  apply (ensures_temp_run Hruns Hflat Hinfer Hdoc A _ s1 (ivec (Z.of_nat <$> seq 0 (length sh)))
    (λ t, t = int_vector (Z.of_nat <$> seq 0 (length sh))) (λ ax, reduce_spec o a ax 0) (recipe (reduce_spec o 0 0 0)) a); [done| | | |].
  - unfold ivec. assert (length (Z.of_nat <$> seq 0 (length sh)) ≤ 32) by (rewrite length_fmap, length_seq; unfold TF_MAXDIM in Hl; lia).
    apply (wp_temp A); [done|intros _; by apply int_vector_constant|by apply int_vector_housed].
  - intros tmp. split; [by apply reduce_checked|done].
  - intros tmp s' t _ _. by apply reduce_trusted.
  - intros t y -> [Hy|[Hy _]]; [|congruence]. exists x. split; [done|]. assert (y = x) as -> by congruence.
    destruct x as [u|]; [|done]. unfold reduced_all. cbn. by rewrite (agrees_length _ _ (Hx u eq_refl)).
Qed.

(** One operation on a tensor and the temporary before it. *)
Lemma ensures_binary_of A s nm o a b x y :
  represents A s → binop nm = Some o → A !! a = Some x → A !! b = Some y →
  ensures (tfb_binary nm a b) (made_by (λ m, m = operate (binary_recipe o) [x; y]) s) s.
Proof.
  intros Hr Ho Ha Hb. apply ensures_made; [apply Hr| |unfold tfb_binary; frame].
  eapply ensures_mono; [by apply (ensures_binary Hruns Hflat Hinfer Hdoc A)|]. cbv beta.
  intros r s' _ (m & Hm & HK). exists m. split; [done|]. intros h Hh. destruct (HK h Hh) as (? & ? & ? & ? & ? & ? & ->).
  congruence.
Qed.

Lemma ensures_unary_of A s nm o a x :
  represents A s → unop nm = Some o → A !! a = Some x →
  ensures (tfb_unary nm a) (made_by (λ m, m = operate (unary_recipe o) [x]) s) s.
Proof.
  intros Hr Ho Ha. eapply ensures_impl; [|by apply (ensures_unary Hruns Hflat Hinfer Hdoc A)]. cbn [makes]. intros m.
  case_decide as Ht; [by rewrite Ht in Ho|]. intros (? & ? & ? & ? & ->). congruence.
Qed.
Lemma ensures_scalar_of A s nm o a v x :
  represents A s → binop nm = Some o → A !! a = Some x →
  ensures (tfb_scalar nm a v) (made_by (λ m, ∃ f, same_scalar v f ∧ m = on_scalar o x f) s) s.
Proof.
  intros Hr Ho Ha. eapply ensures_impl; [|by apply (ensures_scalar Hruns Hflat Hinfer Hdoc A)].
  intros m (o' & f & y & Ho' & Hf & [Hy|[Hy _]] & ->); [|congruence]. exists f. split; [done|]. congruence.
Qed.
Lemma lookup_beside A tmp y a x : A !! tmp = None → A !! a = Some x → (<[tmp := y]> A : world) !! a = Some x.
Proof. intros Ht Ha. rewrite lookup_insert_ne; [done|]. intros ->. congruence. Qed.

Lemma ensures_std A s a :
  represents A s → ensures (tfb_std a) (made_by (makes A (C_agg $"std" a)) s) s.
Proof.
  intros Hr. unfold tfb_std. apply (ensures_shape_then A); [done|intros; grows|].
  intros sh x s1 Hr1 _ HA Hx. cbv zeta.
  set (c := sample_count (product64 sh)).
  assert ($"Mean" ∈ reducing ∧ $"Sum" ∈ reducing) as [HMean HSum] by by apply (bool_decide_unpack _).
  cut (ensures
    (v <-? (ss <-? (sq <-? (d <-? (mu <-? reduce_all $"Mean" a 0 ;; then_free (tfb_binary $"sub" a mu) mu) ;;
       then_free (tfb_binary $"mul" d d) d) ;; then_free (reduce_all $"Sum" sq 0) sq) ;;
       then_free (tfb_scalar $"div" ss c) ss) ;; then_free (tfb_unary $"sqrt" v) v)
    (made_by (makes A (C_agg $"std" a)) s1) s1).
  { apply ensures_ext. by rewrite !bindo_assoc. }
  eapply ensures_impl; [|eapply (ensures_then_free A _ (λ x y, y = operate (unary_recipe $"Sqrt") [x])); [done|eapply (ensures_then_free A _ (λ x y, ∃ f, same_scalar c f ∧ y = on_scalar $"RealDiv" x f));
    [done|eapply (ensures_then_free A _ (λ x y, y = reduced_all $"Sum" x));
    [done|eapply (ensures_then_free A _ (λ x y, y = operate (binary_recipe $"Mul") [x; x])); 
    [done|eapply (ensures_then_free A _ (λ m y, y = operate (binary_recipe $"Sub") [x; m])); [done|by apply ensures_reduce_all|..]|..]|..]|..]|..]].
  all: try (intros; solve [grows]).
  - intros m (v & (ss & (sq & (d & (mu & (x' & Hx' & ->) & ->) & ->) & ->) & (f & Hf & ->)) & ->).
    exists x. split; [done|]. rewrite decide_True by done. exists sh, f. assert (x' = x) as -> by congruence. done.
  - intros tmp y s2 _ _ Ht Hr2. apply (ensures_binary_of _ s2 _ $"Sub" _ _ x y Hr2); [done|by apply lookup_beside|by apply lookup_insert_eq].
  - intros tmp y s2 _ _ Ht Hr2. apply (ensures_binary_of _ s2 _ $"Mul" _ _ y y Hr2); [done|by apply lookup_insert_eq..].
  - intros tmp y s2 _ _ Ht Hr2. eapply ensures_impl; [|by apply (ensures_reduce_all _ _ _ _ Hr2)].
    intros m (z & Hz & ->). rewrite lookup_insert_eq in Hz. by injection Hz as ->.
  - intros tmp y s2 _ _ Ht Hr2. apply (ensures_scalar_of _ s2 _ $"RealDiv" _ _ y Hr2); [done|by apply lookup_insert_eq].
  - intros tmp y s2 _ _ Ht Hr2. apply (ensures_unary_of _ s2 _ $"Sqrt" _ y Hr2); [done|by apply lookup_insert_eq].
Qed.
Lemma ensures_agg A s nm a :
  represents A s → ensures (tfb_agg nm a) (made_by (makes A (C_agg nm a)) s) s.
Proof.
  intros Hr. assert (∀ o, aggop nm = Some o → o ∈ reducing → nm ≠ $"std" →
    ensures (reduce_all o a 0) (made_by (makes A (C_agg nm a)) s) s) as Hred.
  { intros o Ho Hin Hs. eapply ensures_impl; [|by apply (ensures_reduce_all A)]. intros m (x & Hx & ->). exists x. split; [done|].
    rewrite decide_False by done. by exists o. }
  unfold tfb_agg. unfold aggop in Hred.
  do 4 (case_decide; [subst nm; apply Hred; [done|by apply (bool_decide_unpack _)|done]|]).
  case_decide as Hnm; [subst nm; by apply ensures_std|]. apply ensures_made; [apply Hr|by apply ensures_wp, wp_refuse, Hr|frame].
Qed.

(** ** Reshape *)

Lemma reshaping_checked t a sv : checked (reshaping t a sv).
Proof. known_recipe. Qed.
Lemma reshaping_trusted t a sv sh s :
  length sh ≤ TF_MAXDIM → (∀ u, means s sv u ↔ u = int_vector sh) → trusted (reshaping t a sv) s.
Proof.
  intros Hl Hm. split; [done|]. intros _. split; [by eexists|]. intros u ->%Hm. unfold int_data, int_vector, tensor_i32. cbn [t_data].
  rewrite !length_fmap, length_take. lia.
Qed.
Lemma own_type_at A s a :
  represents A s → ∃ t, own_type a s = Ret t s ∧ ∀ u, A !! a = Some (Some u) → t = own_dtype u.
Proof.
  intros Hr. unfold own_type, tfb_is_int, slot, gets, bind, ret. eexists. split; [done|]. intros u Hu.
  assert (exists_ s a = true) as Hx by (apply (re_names _ _ Hr); by eexists). rewrite Hx. cbn [andb].
  assert (means s a u) as Hm by by apply (re_means _ _ Hr a _ Hu).
  rewrite (ft_dtype _ _ (sd_fits _ _ (gd_sound _ _ (re_good _ _ Hr) a (exists_live _ _ Hx)) u Hm)).
  unfold own_dtype. case_bool_decide; by case_decide.
Qed.
Lemma ensures_reshape A s a sh :
  represents A s → length sh ≤ TF_MAXDIM → ensures (tfb_reshape a sh) (made_by (makes A (C_reshape a sh)) s) s.
Proof.
  intros Hr Hl. unfold tfb_reshape. assert (length sh ≤ 32) as Hl32 by (unfold TF_MAXDIM in Hl; lia).
  apply ensures_bindo; [intros; unfold own_type, tfb_is_int; grows|]. apply ensures_wp. change (ivec sh) with (slot_from_tensor (int_vector sh) true). eapply wp_mono.
  { apply (wp_temp A); [done|intros _; by apply int_vector_constant|by apply int_vector_housed]. }
  2: done. cbv beta. intros [tmp|] s1 (Hc & t' & -> & Ha); [|by apply (refused_none _ (λ u, u = int_vector sh))].
  assert (represents (<[tmp := Some (int_vector sh)]> A) s1) as Hr1.
  { eapply (answers_represents A s); [done| |done]. eapply answers_impl; [|exact Ha]. intros u.
    split; [by intros ->|by intros [= ->]]. }
  destruct (own_type_at _ _ a Hr1) as (t & Ht & Hown).
  destruct (ensures_run_temp Hruns Hflat Hinfer Hdoc A s s1 tmp _ _ Hr Ha Hc (reshaping_checked t a tmp)) as (Hrun & Hi & Hn);
    [by apply reshaping_trusted|].
  apply (ensures_ext (with_free (run_spec (reshaping t a tmp)) tmp)); [unfold bind at 1; by rewrite Ht|].
  eapply ensures_mono; [apply (ensures_follows _ _ tidy _ Hrun); frame|]. cbv beta. intros r s' _ [Hro Ht'].
  split; [|by apply Ht']. eapply run_produced; [exact Hro|]. intros Hf. inversion Hf as [|? ? Hx _]. subst.
  pose proof (operand_temp A tmp (Some (int_vector sh)) a Hi Hn Hx) as Hop. exists (stands (<[tmp:=Some (int_vector sh)]> A) a). split; [done|].
  change (ins (reshaping t a tmp)) with [a; tmp]. cbn [fmap list_fmap]. rewrite stands_temp. destruct Hx as [x Hx]. rewrite (stands_at _ _ _ Hx).
  destruct x as [u|]; [by rewrite (Hown u Hx)|done].
Qed.
End compound.
