(* ===== verification/Step.v ===== *)
(** * The step of a parameter, chance, and a file

    [tfb_step], [tfb_random], [tfb_randperm] and [tfb_load_csv] of
    modules/tensorflow/backend.c. *)
From Stdlib Require Import Floats.SpecFloat.
From S2P Require Import Prelude Effect Float Tensor Closure Compile Shape Producer Csv Slots Table Record Meaning Typed Visit Key Frame Cached Described Evaluate Running Reading Recorded Specified Service Machine Makes Compound.

(** ** The shuffle *)

Lemma swap_permutes {A} i j (v : list A) : swap i j v ≡ₚ v.
Proof. unfold swap. destruct (v !! i) eqn:Ei, (v !! j) eqn:Ej; [|done..]. by apply Permutation_insert_swap. Qed.
Lemma shuffle_permutes {A} i x (v : list A) : shuffle i x v ≡ₚ v.
Proof. revert x v. induction i as [|i IH]; intros x v; cbn [shuffle]; [done|]. by rewrite IH, swap_permutes. Qed.

Section step.
Context `{TensorFlow}.

(** ** A step's result is a parameter, and remembers nothing *)

Lemma drop_structure_good loose h s :
  good loose s → exists_ s h = true → eh (slots s h) ≠ None →
  wp (drop_structure h) (λ _ s', good loose s' ∧ ran (only h) s s') never s.
Proof.
  intros Hg Hx He. destruct (kind (slots s h)) eqn:Hk; [by apply exists_live in Hx| |].
  all: pose proof (exists_live _ _ Hx) as Hl.
  { unfold drop_structure. do 2 tf_step. rewrite Hk, decide_False by done. tf_step. split; [done|apply ran_refl]. }
  pose proof (value_handle loose s h (gd_ok _ _ Hg) Hl He) as Hv. destruct (value_of s h) as [t|] eqn:Ev; [|done].
  pose proof (sd_node _ _ (gd_sound _ _ Hg h Hl) t Hk Ev) as Hm.
  eapply wp_mono; [apply (wp_drop_structure loose); [apply Hg|done..]| |done]. cbv beta. intros _ s' (Hwf & Hst & Hset & Hxx & _).
  assert (settles s s') as Hse.
  { apply steps_settles with (h := h); [done| |done]. intros Hk'. split; [done|].
    destruct (Hset Hk') as [Hkv Hvv _ _ Hc Hval Hsh Hd Hkn]. split; [done|done| |by rewrite Hsh|].
    - apply outlined_same; [done..|]. intros u. rewrite Hvv. by left.
    - right. split; [done|]. split; [done|]. exists t. split; [congruence|done]. }
  split; [by eapply settles_good|]. eapply settles_ran; [apply Hg|done|exact Hst|done|done|].
  intros Hvn. assert (kind (slots s' h) ≠ K_FREE) as Hk' by by apply exists_live, Hxx. rewrite (sv_value _ _ _ (Hset Hk')). by rewrite Ev.
Qed.
Lemma wp_become_param loose h s :
  good loose s → exists_ s h = true →
  wp (upd h (set_is_param true) ;; s <- slot h ;; when (bool_decide (eh s ≠ None)) (drop_structure h) ;; ret (Some h))
    (λ r s', r = Some h ∧ good loose s' ∧ ran (only h) s s') never s.
Proof.
  intros Hg Hx. do 2 tf_step. destruct (param_good loose h s Hg Hx) as [Hg1 Hr1]. set (s1 := upd_slots h (set_is_param true) s) in *.
  destruct (rn_keeps _ _ _ Hr1 h Hx) as [Hx1 _]. do 2 tf_step.
  assert (∀ s', good loose s' → ran (only h) s1 s' → wp (ret (Some h)) (λ r s', r = Some h ∧ good loose s' ∧ ran (only h) s s') never s') as Hend.
  { intros s' Hg' Hr'. tf_step. split; [done|]. split; [done|]. by eapply ran_trans. }
  tf_step. apply wp_when.
  - intros He%bool_decide_eq_true. eapply wp_mono; [by apply (drop_structure_good loose)| |done]. cbv beta. intros _ s' [? ?]. by apply Hend.
  - intros _. apply Hend; [done|apply ran_refl].
Qed.

Context (Hruns : runs_graphs tf_exec tf_call) (Hflat : flat) (Hinfer : infers) (Hdoc : documented).

Lemma ensures_step A s w g lr :
  represents A s → ensures (tfb_step w g lr) (made_by (makes A (C_step w g lr)) s) s.
Proof.
  intros Hr. unfold tfb_step.
  set (rest := λ next, upd next (set_is_param true) ;; s <- slot next ;; when (bool_decide (eh s ≠ None)) (drop_structure next) ;; ret (Some next)).
  cut (ensures (next <-? (scaled <-? tfb_scalar $"mul" g lr ;; then_free (tfb_binary $"sub" w scaled) scaled) ;; rest next)
    (made_by (makes A (C_step w g lr)) s) s).
  { apply ensures_ext. by rewrite bindo_assoc. }
  apply ensures_bindo; [intros; unfold rest; grows|].
  eapply ensures_mono.
  { eapply (ensures_then_free A (makes A (C_scalar $"mul" g lr)) (λ x y, ∃ z, operand A x w z ∧ y = operate (binary_recipe $"Sub") [z; x]));
      [done|by apply ensures_scalar|intros; grows|].
    intros tmp x s1 _ Hi Hn Hr1. eapply ensures_impl; [|apply ensures_made; [apply Hr1|by apply (ensures_binary Hruns Hflat Hinfer Hdoc (<[tmp := x]> A))|frame]].
    intros m (o & z & y & Ho & Hz & Hy & ->). exists z. rewrite lookup_insert_eq in Hy. injection Hy as <-.
    split; [|by injection Ho as <-]. rewrite <- (stands_at _ _ _ Hz). apply operand_temp; [done..|]. by eexists. }
  cbv beta. intros [next|] s1 _ [(y & Ha & HK) Hc]; [|by eapply refused_none].
  pose proof Ha as (Hg1 & _ & _ & Hn). destruct (Hn next eq_refl) as (_ & Hx & _).
  apply ensures_wp. unfold rest.
  eapply wp_mono; [apply (wp_follows _ _ tidy _ (wp_become_param [] next s1 Hg1 Hx)); frame| |done].
  cbv beta. intros r s2 [(-> & Hg2 & Hr2) Ht]. split; [|by apply Ht]. exists y.
  split; [by eapply answers_then|]. intros _ _. destruct (HK next eq_refl) as (x & (o & f & z & Ho & Hf & Hz & ->) & v & Hv & ->).
  injection Ho as <-. by exists f, z, v.
Qed.

(** ** Chance *)

Lemma replaced_steps loose e e' t s s' :
  ok (e :: loose) s → hs s !! e = Some t → replaced e e' t s s' → steps none s s'.
Proof using.
  intros Hwf He Hrp. destruct (replaced_wf _ _ _ _ _ _ _ _ Hwf He Hrp) as (_ & _ & Hk). destruct Hrp as [_ Hsl _ _ Hen Hmo].
  split; [|by intros i _; rewrite !exists_spec, Hsl|done|done]. intros i _ Hki. rewrite Hsl in Hki. split; [done|].
  split; [exists (refs (slots s i)); by rewrite set_refs_id, Hsl|]. unfold value_of. rewrite Hsl.
  destruct (eh (slots s i)) as [d|] eqn:Ed; [|done]. cbn.
  pose proof (c_table _ _ _ _ (wf_counted _ _ _ _ _ Hwf) i Hki) as Hi. apply Hk.
  - intros ->. pose proof (holding_pos _ _ _ Hi Ed). pose proof (o_once _ _ (wf_owned _ _ _ _ _ Hwf) e) as Ho.
    rewrite occ_cons, decide_True in Ho by done. case_decide; lia.
  - by apply (owned_slot_live _ _ i d (wf_owned _ _ _ _ _ Hwf)).
Qed.
(** A value TensorFlow made, put on the device and in a slot. *)
Lemma wp_new_slot t s :
  good [] s → housed t →
  wp (e <- new_handle t ;; e <- placed e ;; slot_from_handle e) (λ r s', answers (λ u, u = t) s r s') never s.
Proof using.
  intros Hg Ht. tf_step. eapply wp_mono; [apply (wp_new_handle None [] [] []), Hg| |done].
  cbv beta. intros e s1 [Hwf1 Hmd]. pose proof (made_live _ _ _ _ Hmd) as He.
  tf_step. eapply wp_mono; [by apply (wp_placed e t)| |done]. cbv beta. intros e' s2 Hrp.
  destruct (replaced_wf _ _ _ _ _ _ _ _ Hwf1 He Hrp) as (Hwf2 & He' & _).
  assert (steps none s s2) as Hst by (eapply steps_none_l; [eapply made_steps; [apply Hg|exact Hmd]|by eapply replaced_steps]).
  eapply wp_mono; [by apply (wp_slot_from_handle None [] [] e' t)| |done]. cbv beta. intros [h|] s3 [Hwf3 Hf].
  - apply (fresh_answers h t false); [done|done| |done|done]. destruct Hf as [Hin Hfr Hsl Hst'].
    split; [done| |done|by eapply steps_none_l]. by rewrite <- (md_slots _ _ _ _ Hmd), <- (rp_slots _ _ _ _ _ Hrp).
  - apply steps_none_none; [done|done|by eapply steps_none_l].
Qed.

(** Nothing came of it. *)
Lemma nothing_made K s s' : good [] s → ok [] s' → steps none s s' → produced K s None s'.
Proof using. intros Hg Hwf Hst. apply (produced_none _ (λ _, True)). by apply steps_none_none. Qed.

(** Two handles of the call's own, given back. *)
Lemma wp_give_back {B} a b (m : T B) Q s :
  ok [b; a] s → (∀ s', ok [] s' → steps none s s' → wp m Q never s') → wp (delete_handle a ;; delete_handle b ;; m) Q never s.
Proof using.
  intros Hwf Hm. tf_step. eapply wp_mono; [apply (wp_delete_handle None [] [] [b] a); eapply ok_perm; [|exact Hwf]; apply Permutation_swap| |done].
  cbv beta. intros _ s1 (Hwf1 & Hst1 & _). tf_step. eapply wp_mono; [by apply (wp_delete_handle None [] [] [] b)| |done].
  cbv beta. intros _ s2 (Hwf2 & Hst2 & _). apply Hm; [done|by eapply steps_none_l].
Qed.
Lemma wp_random A s sh normal :
  good [] s → roomy sh → wp (tfb_random sh normal) (produced (makes A (C_random sh normal)) s) never s.
Proof using Hdoc.
  intros Hg [Hl _]. pose proof (gd_ok _ _ Hg) as Hwf. unfold tfb_random. fold (int_vector sh).
  tf_step. eapply wp_mono; [apply (wp_make_handle None [] []), Hwf| |done]. cbv beta. intros [shp|] s1; cycle 1.
  { intros Hi. apply nothing_made; [done|by eapply inert_wf|by apply inert_steps]. }
  intros [Hwf1 Hm1]. do 6 tf_step. cbv zeta. set (s2 := set_seed _ _ s1).
  assert (ok [shp] s2) as Hwf2 by (eapply wf_same; [exact Hwf1|done..|exact (wf_cursor _ _ _ _ _ Hwf1)]).
  assert (steps none s s2) as Hst2 by (eapply steps_none_l; [eapply made_steps; [exact Hwf|exact Hm1]|by apply steps_same]).
  assert (hs s2 !! shp = Some (int_vector sh)) as Hsh by exact (made_live _ _ _ _ Hm1).
  set (seeds := tensor_i32 [seed_base s1; (seed_next s1 + 1)%Z] [2%Z]).
  tf_step. eapply wp_mono; [apply (wp_make_handle None [] []), Hwf2| |done]. cbv beta. intros [sd|] s3; cycle 1.
  { intros Hi. tf_step. pose proof (inert_wf _ _ _ _ _ _ Hi Hwf2) as Hwf3.
    eapply wp_mono; [by apply (wp_delete_handle None [] [] [] shp)| |done]. cbv beta. intros _ s4 (Hwf4 & Hst4 & _). tf_step.
    apply nothing_made; [done..|]. eapply steps_none_l; [exact Hst2|]. eapply steps_none_l; [by apply inert_steps|done]. }
  intros [Hwf3 Hm3]. pose proof (made_live _ _ _ _ Hm3) as Hsd.
  assert (steps none s s3) as Hst3 by (eapply steps_none_l; [exact Hst2|eapply made_steps; [exact Hwf2|exact Hm3]]).
  assert (hs s3 !! shp = Some (int_vector sh)) as Hsh3.
  { rewrite (md_hs _ _ _ _ Hm3), lookup_insert_ne; [done|]. intros ->. pose proof (md_new _ _ _ _ Hm3). congruence. }
  tf_step. eapply wp_mono; [apply wp_bad| |done]. cbv beta. intros b s4 Hi4.
  pose proof (inert_wf _ _ _ _ _ _ Hi4 Hwf3) as Hwf4. assert (steps none s s4) as Hst4 by (eapply steps_none_l; [exact Hst3|by apply inert_steps]).
  destruct b.
  { apply wp_give_back; [done|]. intros s5 Hwf5 Hst5. tf_step. apply nothing_made; [done..|by eapply steps_none_l]. }
  tf_step. eapply wp_mono; [apply (wp_held_by shp (int_vector sh)); by rewrite (in_hs _ _ Hi4)| |done]. cbv beta. intros ? ? [-> ->].
  tf_step. eapply wp_mono; [apply (wp_held_by sd seeds); by rewrite (in_hs _ _ Hi4)| |done]. cbv beta. intros ? ? [-> ->].
  tf_step. eapply wp_mono; [apply wp_bad| |done]. cbv beta. intros b s5 Hi5. cbv zeta. fold (random_spec normal).
  apply wp_give_back; [by eapply inert_wf|]. intros s6 Hwf6 Hst56.
  assert (steps none s s6) as Hst6 by (eapply steps_none_l; [exact Hst4|]; eapply steps_none_l; [by apply inert_steps|done]).
  destruct b; [tf_step; by apply nothing_made|]. destruct (tf_exec (random_spec normal) [int_vector sh; seeds]) as [t|why] eqn:Ex.
  - destruct (doc_random Hdoc _ _ _ _ Ex) as [Hd Hp]. destruct (steps_none_good _ _ _ _ Hg Hwf6 Hst6) as [Hg6 Hr6].
    eapply wp_mono; [apply (wp_new_slot t); [done|split; [|done]]| |done].
    { rewrite Hd. unfold int_data, int_vector, tensor_i32. cbn [t_data]. rewrite !length_fmap, length_take. lia. }
    cbv beta. intros r s7 Ha. exists (Some t). split; [|intros _ _; by exists (seed_base s1), (seed_next s1 + 1)%Z, t].
    eapply answers_after; [exact Hr6|]. eapply answers_impl; [|exact Ha]. intros u. split; [by intros ->|by intros [= ->]].
  - tf_step. eapply wp_mono; [apply wp_tf_fail| |done]. cbv beta. intros _ s7 Hi7. tf_step.
    apply nothing_made; [done|by eapply inert_wf|]. eapply steps_none_l; [exact Hst6|by apply inert_steps].
Qed.
Lemma wp_randperm n s :
  good [] s → (0 ≤ n < 2 ^ 63)%Z →
  wp (tfb_randperm n) (λ r s', ∃ v, v ≡ₚ seqZ 0 n ∧
    answers (λ u, u = Tensor TF_FLOAT [n] ((λ i, Flt (narrow (double_of i))) <$> v)) s r s') never s.
Proof using.
  intros Hg Hn.
  unfold tfb_randperm. do 6 tf_step. cbv zeta.
  set (s1 := set_seed (seed_base s) (seed_next s + 1) s). set (x := uint 64 _).
  assert (good [] s1 ∧ ran none s s1) as [Hg1 Hr1] by (by apply inert_good).
  assert (Z.of_nat <$> seq 0 (Z.to_nat n) = seqZ 0 n) as ->.
  { unfold seqZ. apply list_fmap_ext. intros. lia. }
  set (v := shuffle _ x (double_of <$> seqZ 0 n)).
  assert (v ≡ₚ double_of <$> seqZ 0 n) as Hv by apply shuffle_permutes.
  apply Permutation_map_inv in Hv as (w & Hw & Hp).
  eapply wp_mono; [apply wp_tfb_from_doubles; [done|]| |done].
  { by apply vector_roomy. }
  cbv beta. intros r s' Ha. exists w. split; [by symmetry|].
  eapply answers_impl; [|by eapply answers_after]. intros u. rewrite Hw. unfold tensor_f32.
  rewrite take_ge, <- list_fmap_compose; [done|].
  cbn. rewrite length_fmap, <- Hp, length_seqZ. lia.
Qed.

Lemma follows_tfb_random `{Framed R} sh normal : follows R (tfb_random sh normal).
Proof using. unfold tfb_random. frame. Qed.
Lemma follows_tfb_randperm `{Framed R} n : follows R (tfb_randperm n).
Proof using. unfold tfb_randperm. frame. Qed.
Lemma ensures_random A s sh normal :
  represents A s → roomy sh → ensures (tfb_random sh normal) (made_by (makes A (C_random sh normal)) s) s.
Proof.
  intros Hr Hsh. apply ensures_made; [apply Hr| |apply follows_tfb_random; frame]. apply ensures_wp, wp_random; [apply Hr|done].
Qed.
Lemma ensures_randperm A s n :
  represents A s → roomy [n] → ensures (tfb_randperm n) (made_by (makes A (C_randperm n)) s) s.
Proof.
  intros Hr [_ [Hn Hb]]. rewrite Forall_singleton in Hn. unfold elements in Hb. cbn [foldl] in Hb.
  apply ensures_made; [apply Hr| |apply follows_tfb_randperm; frame]. apply ensures_wp.
  eapply wp_mono; [apply wp_randperm; [apply Hr|lia]| |done]. cbv beta. intros r s' (v & Hv & Ha).
  eexists. split; [eapply answers_impl; [|exact Ha]|intros _ _; by exists v].
  intros u. split; [by intros ->|by intros [= ->]].
Qed.

(** ** A file *)

Lemma matrix_roomy k buf rows cols :
  matrix k buf rows cols → (Z.of_nat k < 2 ^ 63)%Z → roomy [rows; cols].
Proof using.
  intros (Hr & Hc & Hb & Hk) Hlt. split; [cbn; unfold TF_MAXDIM; lia|]. split; [by repeat constructor|].
  unfold elements. cbn [foldl]. lia.
Qed.
Lemma ensures_load_csv A s file :
  represents A s → sized (C_load_csv file) → ensures (tfb_load_csv file) (made_by (makes A (C_load_csv file)) s) s.
Proof using.
  intros Hr Hsz. unfold tfb_load_csv. apply ensures_made; [apply Hr| |frame].
  destruct file as [f|]; [|by apply ensures_wp, wp_refuse, Hr]. destruct (csv f) as [[[buf rows] cols]|why] eqn:Ef;
    [|by apply ensures_wp, wp_refuse, Hr].
  apply ensures_wp, wp_produced; [apply Hr|done| |by exists f, buf, rows, cols].
  destruct (csv_matrix _ _ _ _ Ef) as [Hm _]. by eapply (matrix_roomy (length f)).
Qed.
End step.
