(* ===== verification/Slices.v ===== *)
(** * Slices, and standardising

    [tfb_slice] and [tfb_standardise] of modules/tensorflow/backend.c, which
    free their temporaries when they answer, and may leave some when they do
    not. *)
From Stdlib Require Import Floats.SpecFloat.
From S2P Require Import Prelude Effect Float Tensor Closure Compile Shape Producer Csv Slots Table Record Meaning Typed Visit Key Frame Cached Described Evaluate Running Reading Recorded Specified Service Machine Makes Compound Step.

Lemma follows_reduce_axis `{TensorFlow} `{Framed R} o a ax keep : follows R (reduce_axis o a ax keep).
Proof. unfold reduce_axis. frame. Qed.
#[export] Hint Resolve follows_reduce_axis : frame.

Section slices.
Context `{TensorFlow}.

(** The deviation of the rows, from each one's differences. *)
Definition row_deviation (d : option tensor) (count least : float32) : option tensor :=
  operate (binary_recipe $"Maximum") [operate (unary_recipe $"Sqrt")
    [on_scalar $"RealDiv" (reduced_rows $"Sum" (operate (binary_recipe $"Mul") [d; d])) count]; Some (scalar least)].

Context (Hruns : runs_graphs tf_exec tf_call) (Hflat : flat) (Hinfer : infers) (Hdoc : documented).
Implicit Types (A B W : world) (K : option tensor → Prop).

(** ** What a call with temporaries leaves *)

(** One tensor more than [A]; or, refused, anything besides. *)
Definition yields A K (r : option Z) (s : tfst) : Prop :=
  match r with
  | Some h => ∃ x, K x ∧ in_table h ∧ A !! h = None ∧ represents (<[h := x]> A) s
  | None => ∃ A', strewn A A' ∧ represents A' s
  end.
Lemma strewn_trans A B C : strewn A B → strewn B C → strewn A C.
Proof using. intros [H1 H2] [H3 H4]. split; [by etrans|]. intros h [?|?]%H4; auto. Qed.
Lemma strewn_insert A h x : in_table h → A !! h = None → strewn A (<[h := x]> A).
Proof using.
  intros Hi Hn. split; [by apply insert_subseteq|]. intros i. destruct (decide (i = h)) as [->|Hne]; [auto|].
  rewrite lookup_insert_ne by done. auto.
Qed.
Lemma strewn_delete A B t : strewn A B → strewn (delete t A) (delete t B).
Proof using.
  intros [Hs Hi]. split; [by apply delete_mono|]. intros h [x [Hne Hx]%lookup_delete_Some].
  destruct (Hi h) as [[y Hy]|]; [by eexists| |by right]. left. exists y. by apply lookup_delete_Some.
Qed.

Lemma yields_impl A K K' r s : (∀ x, K x → K' x) → yields A K r s → yields A K' r s.
Proof using. intros HK. destruct r as [h|]; [|done]. intros (x & ? & ?). exists x. auto. Qed.
Lemma ensures_yields_impl A K K' m s : (∀ x, K x → K' x) → ensures m (yields A K) s → ensures m (yields A K') s.
Proof using. intros HK Hm. eapply ensures_mono; [exact Hm|]. intros r s' _. by apply yields_impl. Qed.
Lemma made_yields A K s m : represents A s → ensures m (made_by K s) s → ensures m (yields A K) s.
Proof using.
  intros Hr Hm. eapply ensures_mono; [exact Hm|]. intros r s' _ [(x & Ha & Hx) Hc]. destruct r as [h|].
  - destruct (answers_represents _ _ _ _ _ Hr Ha Hc) as (? & ? & ?). exists x. split; [by eapply Hx|done].
  - exists A. split; [apply strewn_refl|by eapply refused_represents].
Qed.
Lemma temp_yields A K s mk :
  represents A s → wp mk (λ r s', cached s' ∧ ∃ t, K (Some t) ∧ answers (λ u, u = t) s r s') never s →
  ensures mk (yields A K) s.
Proof using.
  intros Hr Hm. apply made_yields; [done|]. apply ensures_wp. eapply wp_mono; [exact Hm| |done].
  intros r s' (Hc & t & HK & Ha). split; [|done]. exists (Some t). split; [|done].
  eapply answers_impl; [|exact Ha]. intros u. split; [by intros ->|by intros [= ->]].
Qed.
Lemma wp_refused A K why s : represents A s → wp (fail why ;; ret None) (yields A K) never s.
Proof using.
  intros Hr. eapply wp_mono; [apply (wp_follows _ _ tidy _ (wp_refuse why K s (re_good _ _ Hr))); frame| |done].
  cbv beta. intros r s' [Hp Ht]. destruct r as [h|]; cycle 1.
  - destruct Hp as (x & Ha & _). exists A. split; [apply strewn_refl|]. eapply refused_represents; [done|exact Ha|by apply Ht, Hr].
  - destruct Hp as (x & Ha & Hx). destruct (answers_represents _ _ _ _ _ Hr Ha) as (? & ? & ?); [by apply Ht, Hr|].
    exists x. split; [by eapply Hx|done].
Qed.

(** ** Freeing *)

Lemma wp_free_represents A t s :
  represents A s → wp (tfb_free t) (λ b s', b = exists_ s t ∧ represents (delete t A) s') never s.
Proof using.
  intros Hr. eapply wp_mono; [apply (wp_follows _ _ tidy _ (wp_free_tensor [] t s (re_good _ _ Hr))); frame| |done].
  cbv beta. intros b s' [(Hg & -> & Hx & Hm & Hsp) Ht]. split; [done|]. split; [done|by apply Ht, Hr| |].
  - intros i. destruct (decide (i = t)) as [->|Hne].
    + rewrite lookup_delete_eq, Hx. split; [done|by intros [? ?]].
    + rewrite lookup_delete_ne by done. rewrite (proj1 (Hsp i Hne)). apply (re_names _ _ Hr).
  - intros i m. destruct (decide (i = t)) as [->|Hne]; [by rewrite lookup_delete_eq|].
    rewrite lookup_delete_ne by done. intros Hi u. rewrite <- (re_means _ _ Hr i m Hi). symmetry.
    apply (Hsp i Hne). apply (re_names _ _ Hr). by eexists.
Qed.
Lemma wp_yields_free A K t r s :
  yields A K r s → is_Some (A !! t) → wp (tfb_free t) (λ _ s', yields (delete t A) K r s') never s.
Proof using.
  intros Hy [y Ht]. destruct r as [h|].
  - destruct Hy as (x & HK & Hi & Hn & Hr). eapply wp_mono; [by apply wp_free_represents| |done]. cbv beta. intros b s' [_ Hr'].
    assert (h ≠ t) as Hne by (intros ->; congruence). exists x. split; [done|]. split; [done|].
    split; [by apply lookup_delete_None; right|]. by rewrite delete_insert_ne in Hr' by done.
  - destruct Hy as (A' & Hst & Hr). eapply wp_mono; [by apply wp_free_represents| |done]. cbv beta. intros b s' [_ Hr'].
    exists (delete t A'). split; [by apply strewn_delete|done].
Qed.
Lemma ensures_yields_free W K t y m s :
  W !! t = None → ensures m (yields (<[t := y]> W) K) s → ensures (then_free m t) (yields W K) s.
Proof using.
  intros Hn Hm. unfold then_free. apply ensures_bind; [intros; grows|]. eapply ensures_mono; [exact Hm|].
  cbv beta. intros r s1 _ Hy. apply ensures_wp. tf_step. eapply wp_mono; [apply (wp_yields_free _ K t r s1 Hy)| |done].
  { rewrite lookup_insert_eq. by eexists. }
  cbv beta. intros b s2 Hy2. tf_step. by rewrite delete_insert_id in Hy2.
Qed.

(** One call after another. *)
Lemma ensures_yields_then A B K K' m (f : Z → T (option Z)) s :
  (∀ a, grows (f a)) → strewn B A → ensures m (yields A K) s →
  (∀ h x s1, K x → in_table h → A !! h = None → represents (<[h := x]> A) s1 → ensures (f h) (yields B K') s1) →
  ensures (h <-? m ;; f h) (yields B K') s.
Proof using.
  intros Hgr HB Hm Hf. apply ensures_bindo; [done|]. eapply ensures_mono; [exact Hm|].
  cbv beta. intros [h|] s1 _; cbn.
  - intros (x & HK & Hi & Hn & Hr). by eapply Hf.
  - intros (A' & Hst & Hr). exists A'. split; [by eapply strewn_trans|done].
Qed.
(** ** A slice *)

Lemma slicing_checked t a b z : checked (slicing t a b z).
Proof using.
  split.
  - split; apply (bool_decide_unpack _); vm_compute; exact I.
  - apply (bool_decide_unpack _). vm_compute. exact I.
  - intros d. unfold recorded_dtype, doc_dtype. by rewrite !decide_True by (right; right; done).
Qed.
(** An integer vector, or nothing; and nothing else. *)
Definition vector_yields A v (r : option Z) s : Prop :=
  match r with
  | Some h => in_table h ∧ A !! h = None ∧ represents (<[h := Some (int_vector v)]> A) s
  | None => represents A s
  end.
Lemma wp_ivec A v s : represents A s → (length v ≤ TF_MAXDIM)%nat → wp (ivec v) (vector_yields A v) never s.
Proof using.
  intros Hr Hl. assert (length v ≤ 32)%nat as Hl32 by (unfold TF_MAXDIM in Hl; lia).
  change (ivec v) with (slot_from_tensor (int_vector v) true). eapply wp_mono.
  { apply (wp_temp A); [done|intros _; by apply int_vector_constant|by apply int_vector_housed]. }
  2: done. cbv beta. intros r s' (Hc & t' & -> & Ha). assert (answers (λ u, Some (int_vector v) = Some u) s r s') as Ha'.
  { eapply answers_impl; [|exact Ha]. intros u. split; [by intros ->|by intros [= ->]]. }
  destruct r as [h|]; [by eapply answers_represents|by eapply refused_represents].
Qed.

Lemma vector_strewn A v r s : vector_yields A v r s → ∃ B, strewn A B ∧ represents B s.
Proof using. destruct r as [h|]; cbn; [|exists A; split; [apply strewn_refl|done]]. intros (? & ? & ?). eexists. split; [by apply strewn_insert|done]. Qed.

(** The operation on the two vectors, which are then freed. *)
Lemma ensures_cut A s a x hb hz b z K :
  A !! hb = None → (<[hb := Some b]> A : world) !! hz = None → A !! a = Some x →
  represents (<[hz := Some z]> (<[hb := Some b]> A)) s →
  (∀ t, (∀ u, x = Some u → t = own_dtype u) → K (operate (recipe (slicing t 0 0 0)) [x; Some b; Some z])) →
  ensures (t <- own_type a ;; r <- run_spec (slicing t a hb hz) ;; tfb_free hb ;; tfb_free hz ;; ret r) (yields A K) s.
Proof.
  intros Hb Hz Ha Hr HK. set (W := <[hz := Some z]> _) in *.
  assert (hb ≠ hz) as Hne by (intros ->; by rewrite lookup_insert_eq in Hz).
  assert (W !! a = Some x) as HW by (by apply lookup_beside; [|apply lookup_beside]).
  destruct (own_type_at _ _ a Hr) as (t & Ht & Hown).
  apply (ensures_ext (r <- run_spec (slicing t a hb hz) ;; tfb_free hb ;; tfb_free hz ;; ret r)); [unfold bind at 4; by rewrite Ht|].
  apply ensures_bind; [intros; grows|]. eapply ensures_mono.
  { apply (made_yields W K); [done|]. apply ensures_made; [apply Hr| |frame]. eapply ensures_mono.
    - apply (ensures_run Hruns Hflat Hinfer Hdoc W); [done|apply slicing_checked|]. intros _. apply untrusting.
      by apply (bool_decide_unpack _).
    - cbv beta. intros r s' _ Hrun. eapply run_produced; [exact Hrun|]. intros _.
      change (ins (slicing t a hb hz)) with [a; hb; hz]. cbn [fmap list_fmap].
      rewrite (stands_at _ _ _ HW). unfold W at 2. rewrite stands_temp.
      assert (W !! hb = Some (Some b)) as Hbb by (unfold W; by rewrite lookup_insert_ne, lookup_insert_eq).
      rewrite (stands_at _ _ _ Hbb). apply HK. intros u ->. by apply Hown. }
  cbv beta. intros r s1 _ Hy. apply ensures_wp. tf_step.
  eapply wp_mono; [apply (wp_yields_free W K hb r s1 Hy)| |done].
  { unfold W. rewrite lookup_insert_ne, lookup_insert_eq by done. by eexists. }
  cbv beta. intros _ s2 Hy2. tf_step. eapply wp_mono; [apply (wp_yields_free _ K hz r s2 Hy2)| |done].
  { unfold W. rewrite lookup_delete_ne, lookup_insert_eq by done. by eexists. }
  cbv beta. intros _ s3 Hy3. tf_step. unfold W in Hy3.
  rewrite delete_insert_ne, (delete_insert_id _ hb), delete_insert_id in Hy3; [done|..|done|done].
  by rewrite lookup_insert_ne in Hz.
Qed.

Lemma ensures_slice A s a axis from to :
  represents A s → (0 ≤ axis)%Z →
  ensures (tfb_slice a axis from to) (yields A (makes A (C_slice a axis from to))) s.
Proof.
  intros Hr Hax. unfold tfb_slice. apply ensures_bindo; [intros; unfold own_type, tfb_is_int; grows|].
  eapply ensures_mono; [by apply (ensures_shape Hruns Hflat Hinfer A)|]. cbv beta.
  intros [sh|] s1 _ (Hr1 & _ & Hsh); [|exists A; split; [apply strewn_refl|done]]. destruct (Hsh sh eq_refl) as (Hl & x & HA & Hx). cbv zeta.
  case_decide; [by apply ensures_wp, wp_refused|]. rewrite decide_False by lia.
  set (v := <[_ := from]> _). set (w := <[_ := sint 64 _]> _).
  assert (length v = length sh ∧ length w = length sh) as [Hlv Hlw] by (unfold v, w; by rewrite !length_insert, !length_replicate).
  apply ensures_bind_wp. eapply wp_mono; [apply (wp_ivec A v s1 Hr1); lia| |done]. cbv beta. intros b s2 Hb.
  apply ensures_bind_wp.
  destruct b as [hb|].
  - destruct Hb as (Hib & Hnb & Hr2). eapply wp_mono; [apply (wp_ivec _ w s2 Hr2); lia| |done]. cbv beta. intros z s3 Hz.
    destruct z as [hz|].
    + destruct Hz as (Hiz & Hnz & Hr3). eapply ensures_cut; [done|done|exact HA|exact Hr3|].
      intros t Ht. exists x. split; [done|]. unfold slice_of. destruct x as [u|]; [|done]. cbn. unfold slice_begin, slice_size.
      by rewrite (Ht u eq_refl), <- (agrees_length _ _ (Hx u eq_refl)).
    + apply ensures_ret. intros _. exists (<[hb := Some (int_vector v)]> A). split; [by apply strewn_insert|done].
  - eapply wp_mono; [apply (wp_ivec A w s2 Hb); lia| |done]. cbv beta. intros z s3 Hz.
    destruct (vector_strewn _ _ _ _ Hz). apply ensures_ret. intros _. by eexists.
Qed.

(** ** Standardising *)

(** One step: a tensor made of a temporary, which is freed. *)
Lemma ensures_yields_step W B K K' t y m (f : Z → T (option Z)) s :
  (∀ a, grows (f a)) → strewn B W → W !! t = None → ensures m (yields (<[t := y]> W) K) s →
  (∀ h x s1, K x → in_table h → W !! h = None → represents (<[h := x]> W) s1 → ensures (f h) (yields B K') s1) →
  ensures (h <-? then_free m t ;; f h) (yields B K') s.
Proof.
  intros Hgr HB Ht Hm Hf. apply (ensures_yields_then W B K); [done|done|by eapply ensures_yields_free|exact Hf].
Qed.
Lemma ensures_reduce_rows A s o a x :
  represents A s → o ∈ reducing → A !! a = Some x →
  ensures (reduce_axis o a 0 1) (yields A (λ m, m = reduced_rows o x)) s.
Proof.
  intros Hr Ho Ha. apply made_yields; [done|]. unfold reduce_axis.
  apply (ensures_temp_run Hruns Hflat Hinfer Hdoc A _ s (ivec [0%Z]) (λ t, t = int_vector [0%Z]) (λ ax, reduce_spec o a ax 1)
    (recipe (reduce_spec o 0 0 1)) a); [done| | | |].
  - apply (wp_temp A); [done|intros _; apply int_vector_constant; cbn; lia|apply int_vector_housed; cbn; lia].
  - intros tmp. split; [by apply reduce_checked|done].
  - intros tmp s' t _ _. by apply reduce_trusted.
  - intros t y -> [Hy|[Hy _]]; [|congruence]. by assert (y = x) as -> by congruence.
Qed.
Lemma maximum_checked a b : checked (binary_spec $"Maximum" a b).
Proof using. known_recipe. Qed.
Lemma ensures_maximum A s a b x y :
  represents A s → A !! a = Some x → A !! b = Some y →
  ensures (run_spec (binary_spec $"Maximum" a b)) (yields A (λ m, m = operate (binary_recipe $"Maximum") [x; y])) s.
Proof.
  intros Hr Ha Hb. apply made_yields; [done|]. apply ensures_made; [apply Hr| |frame]. eapply ensures_mono.
  - apply (ensures_run Hruns Hflat Hinfer Hdoc A); [done|apply maximum_checked|]. intros _. apply untrusting.
    by apply (bool_decide_unpack _).
  - cbv beta. intros r s' _ Hrun. eapply run_produced; [exact Hrun|]. intros _.
    change (ins (binary_spec _ a b)) with [a; b]. cbn [fmap list_fmap]. by rewrite (stands_at _ _ _ Ha), (stands_at _ _ _ Hb).
Qed.
Lemma ensures_floor A s v : represents A s → ensures (fscalar v) (yields A (λ m, ∃ g, same_scalar v g ∧ m = Some (scalar g))) s.
Proof.
  intros Hr. apply temp_yields; [done|]. eapply wp_mono; [apply wp_scalar; apply Hr| |done].
  cbv beta. intros r s' (Hc & f & Hf & Ha). split; [done|]. exists (scalar f). split; [by exists f|done].
Qed.

(** The deviation, from the differences; the rest of the call after it. *)
Lemma ensures_row_deviation W B d xd n K (f : Z → T (option Z)) s :
  (∀ sd, grows (f sd)) → strewn B W → W !! d = None → represents (<[d := xd]> W) s →
  (∀ sd c g s1, same_scalar (sample_count n) c → same_scalar tiny g → in_table sd → W !! sd = None →
    represents (<[sd := row_deviation xd c g]> W) s1 → ensures (f sd) (yields B K) s1) →
  ensures (sq <-? then_free (tfb_binary $"mul" d d) d ;;
    ss <-? then_free (reduce_axis $"Sum" sq 0 1) sq ;;
    var <-? then_free (tfb_scalar $"div" ss (sample_count n)) ss ;;
    sd0 <-? then_free (tfb_unary $"sqrt" var) var ;;
    floor <-? fscalar tiny ;;
    sd <-? then_free (then_free (run_spec (binary_spec $"Maximum" sd0 floor)) sd0) floor ;; f sd) (yields B K) s.
Proof.
  intros Hgr HB Hd Hr Hf. pose proof (lookup_insert_eq W) as Hat.
  eapply (ensures_yields_step W); [intros; grows; apply Hgr|done|exact Hd| |].
  { apply made_yields; [done|]. eapply (ensures_binary_of Hruns Hflat Hinfer Hdoc _ _ _ $"Mul"); [exact Hr|done|apply Hat..]. }
  intros sq ? s1 -> _ Hsq Hr1. eapply (ensures_yields_step W); [intros; grows; apply Hgr|done|exact Hsq| |].
  { eapply ensures_reduce_rows; [exact Hr1|by apply (bool_decide_unpack _)|apply Hat]. }
  intros ss ? s2 -> _ Hss Hr2. eapply (ensures_yields_step W); [intros; grows; apply Hgr|done|exact Hss| |].
  { apply made_yields; [done|]. eapply (ensures_scalar_of Hruns Hflat Hinfer Hdoc _ _ _ $"RealDiv"); [exact Hr2|done|apply Hat]. }
  intros var ? s3 (c & Hc & ->) _ Hvar Hr3. eapply (ensures_yields_step W); [intros; grows; apply Hgr|done|exact Hvar| |].
  { apply made_yields; [done|]. eapply (ensures_unary_of Hruns Hflat Hinfer Hdoc _ _ _ $"Sqrt"); [exact Hr3|done|apply Hat]. }
  intros sd0 y s4 Hy Hi0 Hsd0 Hr4. eapply (ensures_yields_then (<[sd0 := y]> W)); [intros; grows; apply Hgr|by eapply strewn_trans; [|apply strewn_insert]|by apply ensures_floor|].
  intros fl ? s5 (g & Hg & ->) _ Hfl Hr5.
  assert (fl ≠ sd0) as Hne by (intros ->; by rewrite Hat in Hfl). rewrite lookup_insert_ne in Hfl by done.
  rewrite insert_insert_ne in Hr5 by done.
  eapply (ensures_yields_step W); [intros; grows; apply Hgr|done|exact Hfl| |].
  { eapply (ensures_yields_free _ _ sd0 y); [by apply lookup_insert_None|].
    eapply ensures_maximum; [exact Hr5|apply lookup_insert_eq|]. by apply lookup_beside; [apply lookup_insert_None|apply Hat]. }
  intros sd ? s6 -> Hisd Hsd Hr6. rewrite Hy in Hr6. by eapply Hf.
Qed.

Lemma ensures_standardise A s a ntrain :
  represents A s → ensures (tfb_standardise a ntrain) (yields A (makes A (C_standardise a ntrain))) s.
Proof.
  intros Hr. unfold tfb_standardise.
  apply (ensures_yields_then A A (makes A (C_slice a 0 0 ntrain))); [intros; grows|apply strewn_refl|by apply ensures_slice|].
  intros hd xh s1 (x & Ha & ->) Hih Hnh Hr1. set (xh := slice_of x _ 0 ntrain) in *.
  apply (ensures_yields_then (<[hd := xh]> A) A (λ m, m = reduced_rows $"Mean" xh)); [intros; grows|by apply strewn_insert| |].
  { apply ensures_reduce_rows; [done|by apply (bool_decide_unpack _)|apply lookup_insert_eq]. }
  intros mu xm s2 -> Him Hnm Hr2. set (xm := reduced_rows _ xh) in *.
  assert (mu ≠ hd) as Hne by (intros ->; by rewrite lookup_insert_eq in Hnm). rewrite lookup_insert_ne in Hnm by done.
  rewrite insert_insert_ne in Hr2 by done. set (W := <[mu := xm]> A) in *.
  assert (strewn A W) as HW by by apply strewn_insert. assert (W !! hd = None) as Hhd by by apply lookup_insert_None.
  apply (ensures_yields_step W A (λ m, m = operate (binary_recipe $"Sub") [xh; xm]) _ hd xh); [intros; grows|done|done| |].
  { apply made_yields; [done|]. eapply (ensures_binary_of Hruns Hflat Hinfer Hdoc _ _ _ $"Sub"); [exact Hr2|done|apply lookup_insert_eq|].
    apply lookup_beside; [done|apply lookup_insert_eq]. }
  intros d ? s3 -> _ Hd Hr3. eapply (ensures_row_deviation W); [intros; grows|done|exact Hd|exact Hr3|].
  intros sd c g s4 Hc Hg Hisd Hsd Hr4. set (y := row_deviation _ c g) in *.
  unfold W in Hsd, Hr4. assert (sd ≠ mu) as Hne2 by (intros ->; by rewrite lookup_insert_eq in Hsd).
  rewrite lookup_insert_ne in Hsd by done. rewrite insert_insert_ne in Hr4 by done.
  assert (A !! sd = None) as HsdA by done.
  eapply (ensures_yields_step (<[sd := y]> A) A); [intros; grows|by apply strewn_insert|by apply lookup_insert_None| |].
  { apply made_yields; [exact Hr4|]. eapply (ensures_binary_of Hruns Hflat Hinfer Hdoc _ _ _ $"Sub"); [exact Hr4|done| |apply lookup_insert_eq].
    by apply lookup_beside, lookup_beside; [apply lookup_insert_None|..]. }
  intros cc ? s5 -> _ Hcc Hr5. eapply (ensures_yields_free A); [exact Hsd|].
  eapply (ensures_yields_free (<[sd := y]> A)); [exact Hcc|].
  eapply ensures_yields_impl; cycle 1.
  { apply made_yields; [exact Hr5|]. eapply (ensures_binary_of Hruns Hflat Hinfer Hdoc _ _ _ $"RealDiv"); [exact Hr5|done|apply lookup_insert_eq|].
    apply lookup_beside; [exact Hcc|apply lookup_insert_eq]. }
  intros m ->. by exists x, c, g.
Qed.
End slices.
