(* ===== verification/Simulate.v ===== *)
(** * The back end refines the abstract machine

    Every call of modules/tensorflow/backend.c that the machine has answers as
    the machine may, one by one and in any sequence. *)
From Stdlib Require Import Floats.SpecFloat.
From S2P Require Import Prelude Effect Float Tensor Closure Compile Shape Producer Csv Slots Table Record Meaning Typed Visit Key Frame Cached Described Evaluate Running Reading Recorded Specified Service Machine Makes Compound Step Slices.

Section simulate.
Context `{TensorFlow}.
Context (Hruns : runs_graphs tf_exec tf_call) (Hflat : flat) (Hinfer : infers) (Hdoc : documented).

(** ** Each call answers as it may *)

Definition simulates (A : world) (c : call) (a : answer) (s' : tfst) : Prop :=
  ∃ A', may A c a A' ∧ represents A' s'.

Lemma sim_create A c s m :
  represents A s → creates c = true → ensures m (made_by (makes A c) s) s →
  ensures (r <- m ;; ret (A_handle r)) (simulates A c) s.
Proof.
  intros Hr Hc Hm. apply ensures_bind; [intros; grows|]. eapply ensures_mono; [exact Hm|].
  cbv beta. intros r s' _ [(x & Ha & Hx) Ht]. apply ensures_ret. intros _.
  destruct r as [h|].
  - destruct (answers_represents _ _ _ _ _ Hr Ha Ht) as (Hi & Hn & Hr'). exists (<[h := x]> A). split; [|done].
    apply may_make; [done|done|by eapply Hx].
  - exists A. split; [apply may_refuse; [done|by left]|]. by eapply refused_represents.
Qed.
(** One with temporaries it may leave. *)
Lemma sim_yields A c s m :
  creates c = true → leaky c = true → ensures m (yields A (makes A c)) s →
  ensures (r <- m ;; ret (A_handle r)) (simulates A c) s.
Proof.
  intros Hc Hl Hm. apply ensures_bind; [intros; grows|]. eapply ensures_mono; [exact Hm|].
  cbv beta. intros r s' _ Hy. apply ensures_ret. intros _. destruct r as [h|].
  - destruct Hy as (x & Hx & Hi & Hn & Hr). exists (<[h := x]> A). split; [by apply may_make|done].
  - destruct Hy as (A' & Hst & Hr). exists A'. split; [apply may_refuse; auto|done].
Qed.

Lemma sim_ran {B} A c s (m : T B) (f : B → answer) R (Q : B → tfst → Prop) :
  represents A s → ensures m (λ b s', good [] s' ∧ ran (R b) s s' ∧ Q b s') s → follows tidy m →
  (∀ b s', Q b s' → may A c (f b) A) → ensures (b <- m ;; ret (f b)) (simulates A c) s.
Proof.
  intros Hr Hm Hf HQ. apply ensures_bind; [intros; grows|]. eapply ensures_mono; [apply (ensures_follows _ _ tidy _ Hm Hf)|].
  cbv beta. intros b s' _ [(Hg & Hrn & Hq) Ht]. apply ensures_ret. intros _. exists A. split; [by eapply HQ|].
  eapply ran_represents; [done|done|by apply Ht, Hr|done].
Qed.
Lemma sim_free A s a : represents A s → ensures (do_call (C_free a)) (simulates A (C_free a)) s.
Proof.
  intros Hr. cbn [do_call]. apply ensures_wp. tf_step. eapply wp_mono; [by apply wp_free_represents| |done].
  cbv beta. intros b s' [-> Hr']. tf_step. exists (delete a A). split; [|done]. rewrite (re_exists _ _ _ Hr). apply may_free.
Qed.
Lemma sim_quiet A c a s s' :
  represents A s → slots s' = slots s → hs s' = hs s → next_h s' = next_h s → scalars s' = scalars s →
  slot_cursor s' = slot_cursor s → entries s' = entries s → may A c a A → simulates A c a s'.
Proof.
  intros Hr Hs Hh Hn Hc Hcu He Hm. exists A. split; [done|].
  assert (good [] s') as Hg.
  { destruct (re_good _ _ Hr) as [Hwf Hso Hsp Hen]. split.
    - eapply wf_same; [exact Hwf|done..|]. rewrite Hcu. exact (wf_cursor _ _ _ _ _ Hwf).
    - by eapply sound_same.
    - intros i. rewrite Hs. apply Hsp.
    - by eapply entries_ok_same. }
  split; [done| | |].
  - apply (idle_tidy s); [by split|apply Hr].
  - intros i. rewrite <- (re_names _ _ Hr), !exists_spec. by rewrite Hs.
  - intros i m Hi t. rewrite means_same by done. by apply (re_means _ _ Hr).
Qed.

Lemma sim_force A s a : represents A s → ensures (do_call (C_force a)) (simulates A (C_force a)) s.
Proof.
  intros Hr. cbn [do_call]. eapply (sim_ran _ _ _ _ _ (λ b i, b = true ∧ i = a) (λ b _, b = true → ∃ t, A !! a = Some (Some t))); [done| |frame|].
  - eapply ensures_mono; [apply (ensures_tfb_force Hruns []), Hr|]. cbv beta. intros b s' _ (Hg & Hrn & Hv).
    split; [done|]. split; [done|]. intros Hb. destruct (Hv Hb) as [Hx Hvs].
    destruct (rn_keeps _ _ _ Hrn a Hx) as [Hx' Hm]. destruct (value_of s' a) as [t|] eqn:Et; [|done]. exists t.
    destruct (proj1 (re_names _ _ Hr a) Hx) as [m Hma]. rewrite Hma. f_equal. apply (re_means _ _ Hr a m Hma).
    apply Hm, sound_means; [apply Hg|by apply exists_live|done].
  - intros b _. apply may_force.
Qed.
Lemma sim_values A s a : represents A s → ensures (do_call (C_values a)) (simulates A (C_values a)) s.
Proof.
  intros Hr. cbn [do_call]. eapply (sim_ran _ _ _ _ _ (λ _ i, i = a) (λ r _, ∀ v, r = Some v →
    ∃ t, A !! a = Some (Some t) ∧ v = (as_double <$> t_data t, t_dims t))); [done| |frame|].
  - eapply ensures_mono; [apply (ensures_tfb_values Hruns), Hr|]. cbv beta. intros r s' _ (Hg & Hrn & Hv).
    split; [done|]. split; [done|]. intros v Hv'. destruct (Hv v Hv') as (Hx & t & Hm & ->). exists t. split; [|done].
    destruct (proj1 (re_names _ _ Hr a) Hx) as [m Hma]. rewrite Hma. f_equal. by apply (re_means _ _ Hr a m Hma).
  - intros [v|] s' Hv; [|apply may_not_read]. destruct (Hv v eq_refl) as (t & Ht & ->). by apply may_read.
Qed.
Lemma sim_shape A s a : represents A s → ensures (do_call (C_shape a)) (simulates A (C_shape a)) s.
Proof.
  intros Hr. cbn [do_call]. eapply (sim_ran _ _ _ _ _ (λ r i, r ≠ None ∧ i = a) (λ r _, shape_told A a r)); [done| |frame|].
  - eapply ensures_mono; [apply (ensures_tfb_shape Hruns Hflat Hinfer []), Hr|]. cbv beta. intros r s' _ (Hg & Hrn & Hs).
    split; [done|]. split; [done|]. intros sh Hsh. destruct (Hs sh Hsh) as (Hx & _ & Ht).
    destruct (proj1 (re_names _ _ Hr a) Hx) as [m Hm]. exists m. split; [done|]. intros t ->. apply Ht. by apply (re_means _ _ Hr a _ Hm).
  - intros r _. apply may_shape.
Qed.

(** Every call, from any state. *)
Lemma simulation A c s : represents A s → sized c → ensures (do_call c) (simulates A c) s.
Proof.
  intros Hr Hsz. destruct c as [data sh|data|file|sh v|n|n|nm a|nm a b|nm a v|nm a|a dim|a sh|a axis from to|a ntrain|sh normal|n|a|w g lr|a|a|a|a|a|m|k|x].
  13: { apply sim_yields; [done|done|]. by apply ensures_slice. }
  13: { apply sim_yields; [done|done|]. by apply ensures_standardise. }
  1-16: apply sim_create; [done|done|].
  3: { by apply ensures_load_csv. }
  1-5: unfold tfb_fill, tfb_eye, tfb_arange, tfb_from_doubles, tfb_from_ints;
    apply ensures_made; [apply Hr|by apply ensures_wp, wp_produced; [apply Hr|..]|apply follows_slot_from_tensor].
  - by apply ensures_unary.
  - apply ensures_made; [apply Hr|by apply ensures_binary|unfold tfb_binary; frame].
  - by apply ensures_scalar.
  - by apply ensures_agg.
  - by apply ensures_argmax.
  - by apply ensures_reshape.
  - by apply ensures_random.
  - by apply ensures_randperm.
  - apply ensures_made; [apply Hr|by apply ensures_parameter|unfold tfb_parameter, tfb_exists; frame].
  - by apply ensures_step.
  - by apply sim_free.
  - cbn [do_call]. apply ensures_wp. tf_step. unfold tfb_exists. do 2 tf_step. rewrite (re_exists _ _ _ Hr).
    eapply sim_quiet; [exact Hr|done..|]. apply may_exist.
  - by apply sim_force.
  - by apply sim_values.
  - by apply sim_shape.
  - cbn [do_call]. apply ensures_wp. do 3 tf_step. eapply sim_quiet; [exact Hr|done..|]. apply may_mode.
  - cbn [do_call]. apply ensures_wp. unfold tfb_device_set.
    repeat (first [tf_step | case_decide]); (eapply sim_quiet; [exact Hr|done..|]; apply may_device).
  - cbn [do_call]. apply ensures_wp. unfold tfb_seed. do 3 tf_step. eapply sim_quiet; [exact Hr|done..|]. apply may_seed.
Qed.

(** ** Every run *)

Lemma grows_do_call c : grows (do_call c).
Proof.
  unfold grows. destruct c; cbn [do_call]; unfold tfb_from_ints, tfb_load_csv, tfb_fill, tfb_eye, tfb_arange, tfb_agg, tfb_std, tfb_argmax,
    tfb_reshape, tfb_standardise, tfb_slice, own_type, tfb_is_int, tfb_random, tfb_randperm, tfb_parameter, tfb_step, tfb_exists, tfb_device_set, tfb_seed; grows.
Qed.
Lemma grows_do_calls cs : grows (do_calls cs).
Proof.
  induction cs as [|c cs IH]; cbn [do_calls]; [by grows|]. apply follows_bind; [apply grows_do_call|]. intros a.
  apply follows_bind; [exact IH|]. grows.
Qed.
Lemma simulation_all A cs s :
  represents A s → Forall sized cs → ensures (do_calls cs) (λ l s', ∃ A', may_all A cs l A' ∧ represents A' s') s.
Proof.
  revert A s. induction cs as [|c cs IH]; intros A s Hr Hsz; cbn [do_calls].
  { apply ensures_ret. intros _. exists A. split; [constructor|done]. }
  apply Forall_cons in Hsz as [Hc Hsz]. apply ensures_bind; [intros; grows; apply grows_do_calls|]. eapply ensures_mono; [by apply (simulation A)|].
  cbv beta. intros a s1 _ (A1 & Hm & Hr1). apply ensures_bind; [intros; grows|].
  eapply ensures_mono; [by apply (IH A1)|]. cbv beta. intros l s2 _ (A2 & Hm2 & Hr2). apply ensures_ret. intros _.
  exists A2. split; [by econstructor|done].
Qed.
End simulate.
