(* ===== verification/Agreement.v ===== *)
(** * One program, two runs

    Programs whose operands are the results of their earlier calls; that the
    abstract machine gives two runs of one program the same tensors, whichever
    handles each run answered and whichever calls each refused. *)
From Stdlib Require Import Floats.SpecFloat.
From S2P Require Import Prelude Effect Float Rounding Tensor Closure Compile Shape Producer Csv Slots Table Record Meaning Typed Visit Key Frame Cached Described Evaluate Running Reading Recorded Specified Service Machine Makes Compound Step Slices Simulate.

(** ** Programs *)

(** A call of a program: its operands are positions, the call that made each. *)
Definition rename (f : Z → Z) (c : call) : call :=
  match c with
  | C_unary nm a => C_unary nm (f a)
  | C_binary nm a b => C_binary nm (f a) (f b)
  | C_scalar nm a v => C_scalar nm (f a) v
  | C_agg nm a => C_agg nm (f a)
  | C_argmax a dim => C_argmax (f a) dim
  | C_reshape a sh => C_reshape (f a) sh
  | C_slice a axis from to => C_slice (f a) axis from to
  | C_standardise a ntrain => C_standardise (f a) ntrain
  | C_step w g lr => C_step (f w) (f g) lr
  | C_parameter a => C_parameter (f a)
  | C_free a => C_free (f a)
  | C_exists a => C_exists (f a)
  | C_force a => C_force (f a)
  | C_values a => C_values (f a)
  | C_shape a => C_shape (f a)
  | _ => c
  end.
Definition operands (c : call) : list Z :=
  match c with
  | C_unary _ a | C_scalar _ a _ | C_agg _ a | C_argmax a _ | C_reshape a _ | C_slice a _ _ _ | C_standardise a _
  | C_parameter a | C_free a | C_exists a | C_force a | C_values a | C_shape a => [a]
  | C_binary _ a b | C_step a b _ => [a; b]
  | _ => []
  end.
(** The handle answered at a position; 0, which names no slot, if refused. *)
Definition handle_at (l : list answer) (k : Z) : Z :=
  match l !! Z.to_nat k with Some (A_handle (Some h)) => h | _ => 0%Z end.

Section program.
Context `{TensorFlow}.
Fixpoint do_program (p : list call) (l : list answer) : T (list answer) :=
  match p with
  | [] => ret l
  | c :: p => a <- do_call (rename (handle_at l) c) ;; do_program p (l ++ [a])
  end.
End program.

(** The positions whose tensors a program still has. *)
Definition remaining (L : list Z) (n : nat) (c : call) : list Z :=
  match c with
  | C_free a => filter (λ k, k ≠ a) L
  | _ => if creates c then Z.of_nat n :: L else L
  end.
(** What determines its result.  Not a scalar that is 0 as a float: the cache of
    scalars takes 0 and -0 for one.  Not the deviation: it divides by a count
    read off the shape, and recording may have the shape of an empty tensor
    wrong.  Not chance. *)
Definition definite (c : call) : bool :=
  match c with
  | C_scalar _ _ v | C_step _ _ v => match narrow v with S754_zero _ => false | _ => true end
  | C_agg nm _ => bool_decide (nm ≠ $"std")
  | C_standardise _ ntrain => bool_decide (ntrain < 2 ^ 63)%Z
  | C_random _ _ | C_randperm _ => false
  | _ => true
  end.
(** Uses what it has made and not freed. *)
Fixpoint scoped (L : list Z) (n : nat) (p : list call) : bool :=
  match p with
  | [] => true
  | c :: p => forallb (λ k, bool_decide (k ∈ L)) (operands c) && scoped (remaining L n c) (S n) p
  end.

(** ** The same scalar *)

Lemma SFeqb_eq f g : SFeqb f g = true → f = g ∨ ∃ b, g = S754_zero b.
Proof.
  unfold SFeqb, SFcompare. destruct f as [b1|b1| |b1 m1 e1], g as [b2|b2| |b2 m2 e2]; try done; try (by destruct b1);
    try (by destruct b2); try (by right; eexists).
  - by destruct b1, b2; auto.
  - destruct b1, b2; try done; destruct (Z.compare e1 e2) eqn:Ee; try done; apply Z.compare_eq in Ee as ->;
      rewrite Pos.compare_cont_spec; destruct (Pos.compare m1 m2) eqn:Em; try done; apply Pos.compare_eq in Em as ->; auto.
Qed.
Lemma same_scalar_unique v f g :
  match narrow v with S754_zero _ => false | _ => true end = true → same_scalar v f → same_scalar v g → f = g.
Proof.
  intros Hd. assert (∀ x, same_scalar v x → x = narrow v) as Hx; [|intros ?%Hx ?%Hx; congruence].
  intros x [Hx|[Hx|[b Hb]]%SFeqb_eq]; [done|done|]. by rewrite Hb in Hd.
Qed.

Lemma count_definite n : (n < 2 ^ 63)%Z → match narrow (sample_count n) with S754_zero _ => false | _ => true end = true.
Proof.
  intros Hn. unfold sample_count. set (k := if decide _ then _ else _).
  assert (1 ≤ k < 2 ^ 63)%Z as Hk by (subst k; case_decide; lia).
  destruct (narrow (double_of k)) as [b| | |] eqn:E; try done. by apply (count_kept k b) in Hk.
Qed.

(** ** One run *)

Section agreement.
Context `{TensorFlow}.
Implicit Types (L : list Z) (l : list answer) (A : world).

(** What a call does to the world. *)
Inductive changed A (c : call) (a : answer) : world → Prop :=
| ch_refused A' : creates c = true → a = A_handle None → strewn A A' → changed A c a A'
| ch_made h m : creates c = true → a = A_handle (Some h) → in_table h → A !! h = None → makes A c m →
    changed A c a (<[h := m]> A)
| ch_freed i : c = C_free i → changed A c a (delete i A)
| ch_kept : creates c = false → (∀ i, c ≠ C_free i) → changed A c a A.
Lemma strewn_zero A A' : strewn A A' → A !! 0%Z = None → A' !! 0%Z = None.
Proof.
  intros [_ Hn] Hz. destruct (A' !! 0%Z) eqn:E; [|done].
  destruct (Hn 0%Z) as [[? ?]|Hi]; [by eexists|congruence|unfold in_table in Hi; lia].
Qed.
Lemma strewn_at A A' h x : strewn A A' → A !! h = Some x → A' !! h = Some x.
Proof. intros [Hs _] Hx. by eapply lookup_weaken. Qed.
Lemma may_changed A c a A' : may A c a A' → changed A c a A'.
Proof.
  intros Hm. destruct Hm; try (by apply ch_kept).
  - apply ch_refused; [by destruct c|done|]. match goal with Ho : _ ∨ _ |- _ => destruct Ho as [->|[_ ?]] end; [apply strewn_refl|done].
  - eapply ch_made; [by destruct c|done..].
  - by apply ch_freed.
Qed.

(** Every remaining position has a handle of its own, or was refused. *)
Record settled L (n : nat) l A : Prop := {
  se_length : length l = n;
  se_bound : ∀ k, k ∈ L → (0 ≤ k < Z.of_nat n)%Z;
  se_zero : A !! 0%Z = None;
  se_live : ∀ k, k ∈ L → handle_at l k = 0%Z ∨ is_Some (A !! handle_at l k);
  se_own : ∀ k k', k ∈ L → k' ∈ L → handle_at l k = handle_at l k' → k = k' ∨ handle_at l k = 0%Z;
}.
Lemma handle_at_old l a k : (0 ≤ k < Z.of_nat (length l))%Z → handle_at (l ++ [a]) k = handle_at l k.
Proof. intros Hk. unfold handle_at. by rewrite lookup_app_l by lia. Qed.
Lemma handle_at_new l a : handle_at (l ++ [a]) (Z.of_nat (length l)) = match a with A_handle (Some h) => h | _ => 0%Z end.
Proof. unfold handle_at. by rewrite Nat2Z.id, list_lookup_middle. Qed.
Lemma creates_rename f c : creates (rename f c) = creates c.
Proof. by destruct c. Qed.
Lemma sized_rename f c : sized (rename f c) = sized c.
Proof. by destruct c. Qed.
Lemma rename_free f c i : rename f c = C_free i → ∃ k, c = C_free k ∧ i = f k.
Proof. destruct c; intros [= <-]. by eexists. Qed.
Lemma remaining_creates L n c : creates c = true → remaining L n c = Z.of_nat n :: L.
Proof. by destruct c. Qed.
Lemma remaining_kept L n c : creates c = false → (∀ k, c ≠ C_free k) → remaining L n c = L.
Proof. intros Hc Hf. destruct c as [| | | | | | | | | | | | | | | | | |k| | | | | | |]; try done. by destruct (Hf k). Qed.

(** A new handle is no remaining position's. *)
Lemma settled_fresh L n l A h k : settled L n l A → in_table h → A !! h = None → k ∈ L → handle_at l k ≠ h.
Proof. intros Hs Hh HA Hk <-. destruct (se_live _ _ _ _ Hs k Hk) as [Hz|[? ?]]; [unfold in_table in Hh; lia|congruence]. Qed.

Lemma settled_step L n l A c a A' :
  settled L n l A → Forall (.∈ L) (operands c) → changed A (rename (handle_at l) c) a A' →
  settled (remaining L n c) (S n) (l ++ [a]) A'.
Proof.
  intros Hs Ho Hch. pose proof Hs as [Hl Hb Hz Hlv Hown].
  assert (∀ k, k ∈ L → handle_at (l ++ [a]) k = handle_at l k) as Hold.
  { intros k Hk. apply handle_at_old. rewrite Hl. by apply Hb. }
  assert (length (l ++ [a]) = S n) as Hl' by (rewrite length_app; cbn; lia).
  assert (handle_at (l ++ [a]) (Z.of_nat n) = match a with A_handle (Some h) => h | _ => 0%Z end) as Hnew.
  { rewrite <- Hl. apply handle_at_new. }
  assert (settled L (S n) (l ++ [a]) A) as Hs'.
  { split; [done|intros k Hk%Hb; lia|done|intros k Hk; rewrite Hold by done; auto|].
    intros k k' Hk Hk'. rewrite !Hold by done. auto. }
  destruct Hch as [A' Hc -> Hst|h m Hc -> Hh HA Hm|i Hc|Hc Hf]; rewrite ?creates_rename in *.
  - rewrite remaining_creates by done. destruct Hs' as [_ Hb' _ Hlv' Hown']. split; [done| | | |].
    + intros k [->|Hk]%elem_of_cons; [lia|auto].
    + by apply (strewn_zero A).
    + intros k [->|Hk]%elem_of_cons; [by left|]. destruct (Hlv' k Hk) as [|[x Hx]]; [by left|right; exists x; by eapply strewn_at].
    + intros k k' [->|Hk]%elem_of_cons [->|Hk']%elem_of_cons He; [by left|by right| |auto].
      right. by rewrite He.
  - rewrite remaining_creates by done. destruct Hs' as [_ Hb' _ Hlv' Hown'].
    assert (∀ k, k ∈ L → handle_at (l ++ [A_handle (Some h)]) k ≠ h) as Hne.
    { intros k Hk. rewrite Hold by done. by eapply settled_fresh. }
    split; [done| | | |].
    + intros k [->|Hk]%elem_of_cons; [lia|auto].
    + rewrite lookup_insert_ne; [done|]. unfold in_table in Hh. lia.
    + intros k [->|Hk]%elem_of_cons; [rewrite Hnew, lookup_insert_eq; right; by eexists|].
      rewrite lookup_insert_ne by (intros He; by apply (Hne k)). auto.
    + intros k k' [->|Hk]%elem_of_cons [->|Hk']%elem_of_cons; rewrite ?Hnew; intros He; [by left| | |auto].
      * by destruct (Hne k').
      * by destruct (Hne k).
  - apply rename_free in Hc as (j & -> & ->). cbn [remaining operands] in *. rewrite Forall_singleton in Ho.
    assert (∀ k, k ∈ filter (λ k, k ≠ j) L → k ∈ L ∧ k ≠ j) as Hin by (intros k [? ?]%list_elem_of_filter; done).
    destruct Hs' as [_ Hb' _ Hlv' Hown']. split; [done|by intros k [? _]%Hin; auto| | |].
    + by apply lookup_delete_None; right.
    + intros k [Hk Hne]%Hin. rewrite Hold by done. destruct (Hlv k Hk) as [|Hx]; [by left|].
      destruct (decide (handle_at l k = handle_at l j)) as [He|He].
      * destruct (Hown k j Hk Ho He); [done|by left].
      * right. by rewrite lookup_delete_ne.
    + intros k k' [Hk _]%Hin [Hk' _]%Hin. auto.
  - rewrite remaining_kept; [done|done|]. intros k ->. by eapply Hf.
Qed.

(** ** Two runs *)

Definition agree L l1 l2 A1 A2 : Prop := ∀ k x1 x2,
  k ∈ L → A1 !! handle_at l1 k = Some x1 → A2 !! handle_at l2 k = Some x2 → x1 = x2.

Lemma makes_agree L n1 n2 l1 l2 A1 A2 c m1 m2 :
  settled L n1 l1 A1 → settled L n2 l2 A2 → agree L l1 l2 A1 A2 →
  Forall (.∈ L) (operands c) → definite c = true →
  makes A1 (rename (handle_at l1) c) m1 → makes A2 (rename (handle_at l2) c) m2 → m1 = m2.
Proof.
  intros Hs1 Hs2 Hag Ho Hd.
  assert (∀ n l A k y x, settled L n l A → k ∈ L → operand A y (handle_at l k) x → A !! handle_at l k = Some x) as Hop.
  { intros n l A k t x Hs Hk [Hx|(HA & Hi & _)]; [done|].
    destruct (se_live _ _ _ _ Hs k Hk) as [Hz|[y Hy]]; [unfold in_table in Hi; lia|congruence]. }
  assert (∀ k y1 y2 x1 x2, k ∈ L → operand A1 y1 (handle_at l1 k) x1 → operand A2 y2 (handle_at l2 k) x2 → x1 = x2) as Hsame.
  { intros k y1 y2 x1 x2 Hk Hx1 Hx2. eapply Hag; [exact Hk|by eapply Hop..]. }
  destruct c as [data sh|data|file|sh v|k|k|nm k|nm k k'|nm k v|nm k|k dim|k sh|k ax fr to|k nt|sh b|k|k|k k' v|k|k|k|k|k|m|d|x];
    cbn in *; try done; try congruence; try (rewrite Forall_singleton in Ho).
  - intros (f1 & b1 & r1 & c1 & Hf1 & Hc1 & ->) (f2 & b2 & r2 & c2 & Hf2 & Hc2 & ->). congruence.
  - case_decide.
    + intros (x1 & Hx1 & ->) (x2 & Hx2 & ->). do 2 f_equal. by eapply Hsame.
    + intros (o1 & x1 & Ho1 & Hx1 & ->) (o2 & x2 & Ho2 & Hx2 & ->).
      assert (o1 = o2) as -> by congruence. by rewrite (Hag _ _ _ Ho Hx1 Hx2).
  - apply Forall_cons in Ho as [Hk Ho]. rewrite Forall_singleton in Ho.
    intros (o1 & x1 & y1 & Ho1 & Hx1 & Hy1 & ->) (o2 & x2 & y2 & Ho2 & Hx2 & Hy2 & ->).
    assert (o1 = o2) as -> by congruence. by rewrite (Hag _ _ _ Hk Hx1 Hx2), (Hag _ _ _ Ho Hy1 Hy2).
  - intros (o1 & f1 & x1 & Ho1 & Hf1 & Hx1 & ->) (o2 & f2 & x2 & Ho2 & Hf2 & Hx2 & ->).
    assert (o1 = o2) as -> by congruence. by rewrite (same_scalar_unique _ _ _ Hd Hf1 Hf2), (Hsame _ _ _ _ _ Ho Hx1 Hx2).
  - apply bool_decide_eq_true in Hd. intros (x1 & Hx1 & Hm1) (x2 & Hx2 & Hm2).
    rewrite decide_False in Hm1, Hm2 by done. destruct Hm1 as (o1 & Ho1 & ->), Hm2 as (o2 & Ho2 & ->). rewrite (Hag _ _ _ Ho Hx1 Hx2). congruence.
  - intros (x1 & Hx1 & ->) (x2 & Hx2 & ->). do 2 f_equal. by eapply Hsame.
  - intros (x1 & Hx1 & ->) (x2 & Hx2 & ->). f_equal. by eapply Hsame.
  - intros (x1 & Hx1 & ->) (x2 & Hx2 & ->). by rewrite (Hag _ _ _ Ho Hx1 Hx2).
  - intros (x1 & f1 & g1 & Hx1 & Hf1 & Hg1 & ->) (x2 & f2 & g2 & Hx2 & Hf2 & Hg2 & ->).
    assert (g1 = g2) as -> by (apply (same_scalar_unique tiny); [by vm_compute|done..]).
    apply bool_decide_eq_true, count_definite in Hd. by rewrite (same_scalar_unique _ _ _ Hd Hf1 Hf2), (Hag _ _ _ Ho Hx1 Hx2).
  - intros (t1 & Ht1 & ->) (t2 & Ht2 & ->). by eapply Hag.
  - apply Forall_cons in Ho as [Hk Ho]. rewrite Forall_singleton in Ho.
    intros (f1 & x1 & y1 & Hf1 & Hx1 & Hy1 & ->) (f2 & x2 & y2 & Hf2 & Hx2 & Hy2 & ->).
    by rewrite (same_scalar_unique _ _ _ Hd Hf1 Hf2), (Hsame _ _ _ _ _ Ho Hx1 Hx2), (Hsame _ _ _ _ _ Hk Hy1 Hy2).
Qed.

Lemma agree_step L n l1 l2 A1 A2 c a1 a2 A1' A2' :
  settled L n l1 A1 → settled L n l2 A2 → agree L l1 l2 A1 A2 →
  Forall (.∈ L) (operands c) → definite c = true →
  changed A1 (rename (handle_at l1) c) a1 A1' → changed A2 (rename (handle_at l2) c) a2 A2' →
  agree (remaining L n c) (l1 ++ [a1]) (l2 ++ [a2]) A1' A2'.
Proof.
  intros Hs1 Hs2 Hag Ho Hd Hc1 Hc2.
  assert (∀ l A a A' k x, settled L n l A → changed A (rename (handle_at l) c) a A' → k ∈ L →
            A' !! handle_at (l ++ [a]) k = Some x → A !! handle_at l k = Some x) as Hold.
  { intros l A a A' k x Hs Hch Hk. rewrite handle_at_old by (rewrite (se_length _ _ _ _ Hs); by apply (se_bound _ _ _ _ Hs)).
    destruct Hch as [A' _ _ Hst| |i Hi|]; try done.
    - intros Hx. destruct (se_live _ _ _ _ Hs k Hk) as [Hz|[y Hy]].
      + rewrite Hz, (strewn_zero _ _ Hst) in Hx; [done|apply Hs].
      + rewrite (strewn_at _ _ _ _ Hst Hy) in Hx. by injection Hx as <-.
    - rewrite lookup_insert_ne; [done|]. intros He. symmetry in He. by eapply (settled_fresh L n).
    - by intros [_ ?]%lookup_delete_Some. }
  assert (∀ l A a A' x, settled L n l A → creates c = true → changed A (rename (handle_at l) c) a A' →
            A' !! handle_at (l ++ [a]) (Z.of_nat n) = Some x → makes A (rename (handle_at l) c) x) as Hnew.
  { intros l A a A' x Hs Hcr Hch. rewrite <- (se_length _ _ _ _ Hs), handle_at_new.
    destruct Hch as [A' _ -> Hst|h m _ -> _ _ Hm|i Hi|Hk _].
    - by rewrite (strewn_zero _ _ Hst (se_zero _ _ _ _ Hs)).
    - rewrite lookup_insert_eq. by intros [= ->].
    - apply rename_free in Hi as (? & -> & _). done.
    - rewrite creates_rename in Hk. congruence. }
  intros k x1 x2 Hk Hx1 Hx2. assert (k ∈ L ∨ creates c = true ∧ k = Z.of_nat n) as [HkL|[Hcr ->]].
  { destruct (creates c) eqn:Hcr.
    - rewrite remaining_creates in Hk by done. apply elem_of_cons in Hk as [->|]; auto.
    - left. destruct c as [| | | | | | | | | | | | | | | | | |j| | | | | | |]; try done. cbn in Hk. by apply list_elem_of_filter in Hk as [_ ?]. }
  - by eapply Hag; [done|eapply (Hold l1)|eapply (Hold l2)].
  - eapply (makes_agree L n n l1 l2 A1 A2 c); eauto.
Qed.

Lemma read_agree L l1 l2 A1 A2 c v1 v2 A1' A2' :
  agree L l1 l2 A1 A2 → Forall (.∈ L) (operands c) →
  may A1 (rename (handle_at l1) c) (A_values (Some v1)) A1' → may A2 (rename (handle_at l2) c) (A_values (Some v2)) A2' → v1 = v2.
Proof.
  intros Hag Ho Hm1 Hm2. destruct c; cbn in *; inversion Hm1; inversion Hm2; subst; try done.
  rewrite Forall_singleton in Ho. assert (Some t = Some t0) as [= ->] by by eapply Hag. done.
Qed.

(** ** A program's runs *)

Context (Hruns : runs_graphs tf_exec tf_call) (Hflat : flat) (Hinfer : infers) (Hdoc : documented).

(** Whatever the machine may do with a program. *)
Inductive may_run : list call → list answer → world → list answer → Prop :=
| may_end l A : may_run [] l A l
| may_go c p a l A A' l' : may A (rename (handle_at l) c) a A' → may_run p (l ++ [a]) A' l' → may_run (c :: p) l A l'.

Lemma grows_do_program p l : grows (do_program p l).
Proof.
  revert l. induction p as [|c p IH]; intros l; cbn [do_program]; [by grows|].
  apply follows_bind; [apply grows_do_call|]. intros a. apply IH.
Qed.
Lemma program_runs p l A s : represents A s → Forall sized p → ensures (do_program p l) (λ l' _, may_run p l A l') s.
Proof.
  revert l A s. induction p as [|c p IH]; intros l A s Hr Hsz; cbn [do_program].
  { apply ensures_ret. intros _. constructor. }
  apply Forall_cons in Hsz as [Hc Hsz].
  apply ensures_bind; [intros; apply grows_do_program|].
  eapply ensures_mono; [apply (simulation Hruns Hflat Hinfer Hdoc A); [done|by rewrite sized_rename]|].
  cbv beta. intros a s1 _ (A1 & Hm & Hr1). eapply ensures_mono; [by apply (IH (l ++ [a]) A1)|].
  cbv beta. intros l' s' _ Hl. by econstructor.
Qed.
Lemma may_run_prefix p l A l' : may_run p l A l' → l `prefix_of` l'.
Proof. induction 1 as [|c p a l A A' l' _ _ IH]; [done|]. etrans; [|exact IH]. by eexists. Qed.

Definition same_values l1 l2 : Prop := ∀ k v1 v2,
  l1 !! k = Some (A_values (Some v1)) → l2 !! k = Some (A_values (Some v2)) → v1 = v2.
Lemma runs_agree p L n l1 l2 A1 A2 r1 r2 :
  scoped L n p = true → forallb definite p = true → settled L n l1 A1 → settled L n l2 A2 → agree L l1 l2 A1 A2 → same_values l1 l2 →
  may_run p l1 A1 r1 → may_run p l2 A2 r2 → same_values r1 r2.
Proof.
  revert L n l1 l2 A1 A2. induction p as [|c p IH]; intros L n l1 l2 A1 A2 Hsc Hdf Hs1 Hs2 Hag Hv Hr1 Hr2.
  { by inversion Hr1; inversion Hr2; subst. }
  inversion Hr1 as [|? ? a1 ? ? A1' ? Hm1 Hr1']. inversion Hr2 as [|? ? a2 ? ? A2' ? Hm2 Hr2']. subst.
  cbn [scoped] in Hsc. apply andb_true_iff in Hsc as [Ho Hsc]. apply andb_true_iff in Hdf as [Hd Hdf].
  assert (Forall (.∈ L) (operands c)) as Ho'.
  { rewrite Forall_forall. intros k Hk. rewrite forallb_forall in Ho. apply list_elem_of_In, Ho, bool_decide_eq_true in Hk. done. }
  pose proof (may_changed _ _ _ _ Hm1) as Hc1. pose proof (may_changed _ _ _ _ Hm2) as Hc2.
  eapply (IH _ _ _ _ _ _ Hsc Hdf); [exact (settled_step _ _ _ _ _ _ _ Hs1 Ho' Hc1)|exact (settled_step _ _ _ _ _ _ _ Hs2 Ho' Hc2)| | |done|done].
  { by eapply (agree_step L n l1 l2 A1 A2). }
  intros k v1 v2 Hk1 Hk2. pose proof (se_length _ _ _ _ Hs1). pose proof (se_length _ _ _ _ Hs2).
  destruct (decide (k < n)) as [Hlt|Hge].
  - rewrite lookup_app_l in Hk1, Hk2 by lia. by eapply Hv.
  - assert (k = n) as -> by (apply lookup_lt_Some in Hk1; rewrite length_app in Hk1; cbn in Hk1; lia).
    rewrite list_lookup_middle in Hk1, Hk2 by done. simplify_eq. by eapply read_agree.
Qed.
Lemma settled_initial : settled [] 0 [] ∅.
Proof. split; [done|by intros ? ?%elem_of_nil|done|by intros ? ?%elem_of_nil|by intros ? ? ?%elem_of_nil]. Qed.
End agreement.
