(* ===== verification/Eager.v ===== *)
(** * Running at once

    In eager mode nothing but TensorFlow and a full table can refuse an
    operation: when neither does, the caller gets the result, or the reason
    TensorFlow gives for there being none. *)
From Stdlib Require Import Floats.SpecFloat.
From S2P Require Import Prelude Effect Float Tensor Closure Compile Shape Producer Slots Table Record Meaning Typed Visit Key Frame Cached Described Evaluate Running Reading Recorded Specified Service.

(** ** A free slot is found *)

(** The cursor's next place. *)
Definition after (i : Z) : Z := if decide (i + 1 < TF_SLOTS)%Z then (i + 1)%Z else 1%Z.
Lemma after_iter i (k : nat) :
  in_table i → (i + Z.of_nat k < TF_SLOTS)%Z → Nat.iter k after i = (i + Z.of_nat k)%Z.
Proof.
  intros Hi. induction k as [|k IH]; intros Hk; [symmetry; apply Z.add_0_r|].
  rewrite Nat.iter_succ, IH by lia. unfold after. rewrite decide_True by lia. lia.
Qed.
(** Every place is reached within one round. *)
Lemma cursor_reaches i j :
  in_table i → in_table j → ∃ k, k < Z.to_nat (TF_SLOTS - 1) ∧ Nat.iter k after i = j.
Proof.
  intros Hi Hj. pose proof Hi as [Hi0 Hi1]. pose proof Hj as [Hj0 Hj1]. destruct (decide (i ≤ j)%Z) as [Hle|Hgt].
  - exists (Z.to_nat (j - i)). split; [lia|]. rewrite after_iter by (done || lia). lia.
  - exists (Z.to_nat (j - 1) + S (Z.to_nat (TF_SLOTS - 1 - i))). split; [lia|].
    rewrite Nat.iter_add, Nat.iter_succ, (after_iter i) by (done || lia).
    assert (after (i + Z.of_nat (Z.to_nat (TF_SLOTS - 1 - i))) = 1%Z) as ->.
    { unfold after. rewrite decide_False; [done|lia]. }
    rewrite (after_iter 1); [lia|done|lia].
Qed.

Section eager.
Context `{TensorFlow}.
Implicit Types s : tfst.

Lemma slot_scan_finds k n s :
  k < n → kind (slots s (Nat.iter k after (slot_cursor s))) = K_FREE →
  wp (slot_scan n) (λ r _, r ≠ None) never s.
Proof.
  revert n s. induction k as [|k IH]; intros [|n] s Hn Hk; try lia; cbn [slot_scan]; do 6 tf_step; cbv zeta; cbn [slots set_slot_cursor].
  - rewrite (decide_True (P := kind _ = K_FREE)) by exact Hk. by do 3 tf_step.
  - destruct (decide (kind _ = K_FREE)); [by do 3 tf_step|]. apply IH; [lia|]. rewrite Nat.iter_succ_r in Hk. exact Hk.
Qed.
Definition room s : Prop := ∃ h, in_table h ∧ kind (slots s h) = K_FREE.
Lemma slot_new_finds loose s : ok loose s → room s → wp slot_new (λ r _, r ≠ None) never s.
Proof.
  intros Hwf (h & Hh & Hk). destruct (cursor_reaches (slot_cursor s) h) as (k & Hlt & Hit);
    [exact (wf_cursor _ _ _ _ _ Hwf)|done|].
  apply (slot_scan_finds k); [done|]. by rewrite Hit.
Qed.

(** ** Operations *)

Lemma bad_lucky s : tfq s = [] → bad s = Ret false s.
Proof. intros Hq. unfold bad, bind, gets. by rewrite Hq. Qed.
Lemma held_by_at e t s : hs s !! e = Some t → held_by e s = Ret t s.
Proof. intros He. unfold held_by, bind, gets. by rewrite He. Qed.
Lemma get_inputs_lucky l ts s : Forall2 (holds_at s) l ts → get_inputs l s = Ret (Some ts) s.
Proof.
  induction 1 as [|o t l ts (e & -> & He) _ IH]; [done|]. cbn [get_inputs].
  unfold bindo, bind. rewrite (held_by_at _ _ _ He). by rewrite IH.
Qed.
Lemma add_inputs_lucky l ts s : tfq s = [] → Forall2 (holds_at s) l ts → add_inputs l s = Ret (Some ts) s.
Proof.
  intros Hq. induction 1 as [|o t l ts (e & -> & He) _ IH]; [done|]. cbn [add_inputs].
  unfold bindo, bind. rewrite (bad_lucky _ Hq). rewrite (held_by_at _ _ _ He). by rewrite IH.
Qed.
Lemma op_inputs_lucky n l ts s : tfq s = [] → Forall2 (holds_at s) l ts → op_inputs n l s = Ret (Some ts) s.
Proof.
  intros Hq Hl. unfold op_inputs. case_decide; [by apply add_inputs_lucky|]. unfold bindo, bind at 1.
  rewrite (bad_lucky _ Hq). unfold bind.
  rewrite (get_inputs_lucky _ (take n ts)) by by apply Forall2_take.
  rewrite (add_inputs_lucky _ (drop n ts)) by (done || by apply Forall2_drop).
  unfold ret. by rewrite take_drop.
Qed.
Lemma run_inputs_valued l s : Forall (λ h, eh (slots s h) ≠ None) l → run_inputs l s = Ret true s.
Proof.
  induction 1 as [|h l Hh _ IH]; [done|]. cbn [run_inputs]. unfold guardb, bind, slot, gets.
  by rewrite decide_False.
Qed.

(** The operands' values. *)
Definition valued s p (ts : list tensor) : Prop := Forall2 (λ h t, exists_ s h = true ∧ value_of s h = Some t) (ins p) ts.
Lemma valued_holds s p ts : valued s p ts → Forall2 (holds_at s) ((λ h, eh (slots s h)) <$> ins p) ts.
Proof.
  intros Hv. rewrite Forall2_fmap_l. eapply Forall2_impl; [exact Hv|]. cbn. intros h t [_ Ht]. unfold value_of in Ht.
  destruct (eh (slots s h)) as [e|]; [|done]. by exists e.
Qed.

(** What [run_spec] comes to, when TensorFlow fails at nothing. *)
Lemma run_spec_eager p ts s :
  graph_mode s = 0%Z → tfq s = [] → valued s p ts →
  run_spec p s = match tf_exec (recipe p) ts with
    | inr why => Ret None (set_errbuf (snprintf_s 512 why) s)
    | inl t => bindo (e <- new_handle t ;; slot_from_handle e) (λ h,
        (if existsb (λ h, param_below (slots s h)) (ins p) then record h p true ;; modify (stat_rec_add 1) else ret tt) ;;
        ret (Some h)) s
    end.
Proof.
  intros Hm Hq Hv. pose proof (valued_holds _ _ _ Hv) as Hh.
  assert (forallb (exists_ s) (ins p) = true) as Hx.
  { apply forallb_forall. intros h Hin%list_elem_of_In. apply list_elem_of_lookup in Hin as [i Hi].
    destruct (Forall2_lookup_l _ _ _ _ _ Hv Hi) as (t & _ & Ht & _). done. }
  assert (Forall (λ h, eh (slots s h) ≠ None) (ins p)) as Heh.
  { rewrite Forall_lookup. intros i h Hi. destruct (Forall2_lookup_l _ _ _ _ _ Hv Hi) as (t & _ & _ & Ht).
    unfold value_of in Ht. by destruct (eh (slots s h)). }
  unfold run_spec, all_exist, tfb_mode, get, gets, bind at 1. rewrite Hx. cbn [negb]. unfold bind at 1 2.
  rewrite Hm, decide_True by done. unfold run_eager, bind at 1. rewrite (run_inputs_valued _ _ Heh). cbn [negb].
  unfold execute_op, bindo, bind at 1 2. rewrite (bad_lucky _ Hq). unfold get, bind at 1 2.
  rewrite (op_inputs_lucky _ _ ts) by done. unfold bind at 1. rewrite (bad_lucky _ Hq).
  by destruct (tf_exec (recipe p) ts).
Qed.

Lemma slot_from_handle_finds loose e t s :
  ok (e :: loose) s → hs s !! e = Some t → room s → wp (slot_from_handle e) (λ r _, r ≠ None) never s.
Proof.
  intros Hwf He Hr. pose proof (slot_new_finds _ s Hwf Hr) as Hf.
  pose proof (wp_slot_from_handle None [] loose e t s Hwf He) as Hs.
  unfold wp, slot_from_handle, bind in *. destruct (slot_new s) as [[h|] s1| |]; [|done..].
  destruct (upd h (set_kind K_VALUE) s1) as [? s2| |]; [|done..]. by destruct (take_handle h e s2).
Qed.
Lemma then_some {A} (m : T unit) (a : A) s :
  match (m ;; ret (Some a)) s with Ret r _ => r ≠ None | _ => True end.
Proof. unfold bind, ret. by destruct (m s). Qed.
Lemma run_spec_finds p ts t s :
  good [] s → graph_mode s = 0%Z → tfq s = [] → room s → valued s p ts → tf_exec (recipe p) ts = inl t →
  match run_spec p s with Ret r _ => r ≠ None | _ => True end.
Proof.
  intros Hg Hm Hq Hr Hv Ht. rewrite (run_spec_eager p ts s) by done. rewrite Ht.
  pose proof (wp_new_handle None [] [] [] t s (gd_ok _ _ Hg)) as Hn. unfold bindo, bind at 1 2.
  unfold wp in Hn.
  destruct (new_handle t s) as [e s1| |]; [|done..]. destruct Hn as [Hwf Hmd].
  assert (wp (slot_from_handle e) (λ r _, r ≠ None) never s1) as Hf.
  { eapply slot_from_handle_finds; [exact Hwf|rewrite (md_hs _ _ _ _ Hmd); apply lookup_insert_eq|].
    destruct Hr as (h & Hh & Hk). exists h. by rewrite (md_slots _ _ _ _ Hmd). }
  unfold wp in Hf. destruct (slot_from_handle e s1) as [[h|] s2| |]; [|done..].
  apply then_some.
Qed.

Context (Hruns : runs_graphs tf_exec tf_call) (Hflat : flat) (Hinfer : infers) (Hdoc : documented).

(** What an operation run at once answers: a new tensor that is its result, or
    the reason there is none. *)
Definition eager_outcome (p : OpSpec) (ts : list tensor) s (r : option Z) (s' : tfst) : Prop :=
  match tf_exec (recipe p) ts with
  | inl t => ∃ h, r = Some h ∧ exists_ s h = false ∧ exists_ s' h = true ∧ means s' h t
  | inr why => r = None ∧ s' = set_errbuf (snprintf_s 512 why) s
  end.
(** C37. In eager mode, with a slot free and TensorFlow failing at nothing it
    does not refuse outright, an operation on tensors that have values answers
    a new tensor standing for its result; or, where TensorFlow has no result,
    its reason is kept and nothing else changed. *)
Theorem eager_operation_answers p ts s :
  good [] s → graph_mode s = 0%Z → tfq s = [] → room s → valued s p ts → checked p → trusted p s →
  ensures (run_spec p) (eager_outcome p ts s) s.
Proof.
  intros Hg Hm Hq Hr Hv Hck Htr. unfold eager_outcome. destruct (tf_exec (recipe p) ts) as [t|why] eqn:Ht.
  - pose proof (run_spec_finds p ts t s Hg Hm Hq Hr Hv Ht) as Hf.
    pose proof (ensures_run_spec Hruns Hflat Hinfer Hdoc p s Hg Hck (λ _, Htr)) as Hs. unfold ensures in *.
    destruct (run_spec p s) as [[h|] s'| |]; [|done..]. intros Hsa. exists h.
    destruct (Hs Hsa) as [(_ & _ & _ & Ha) _]. destruct (Ha h eq_refl) as (? & ? & Hme).
    split_and!; [done..|]. apply Hme. exists ts. split; [|done].
    eapply Forall2_impl; [exact Hv|]. cbn. intros i u [Hx Hu]. by apply sound_means; [apply Hg|apply exists_live|].
  - unfold ensures. rewrite (run_spec_eager p ts s) by done. by rewrite Ht.
Qed.
End eager.
