(* ===== verification/ToyFlow.v ===== *)
(** * A toy TensorFlow

    A few operations on lists of numbers, functions run as their graphs say:
    one concrete reading of the class [TensorFlow], for the witnesses to
    evaluate on. *)
From Stdlib Require Import Floats.SpecFloat.
From S2P Require Import Prelude Effect Float Tensor Closure Compile Shape Producer Slots Table Record Meaning Typed Visit Key Frame Cached Described Evaluate Running Reading Recorded Specified Service Gained Gradient.

Definition num_op (f : float32 → float32 → float32) (x y : num) : num :=
  match x, y with Flt a, Flt b => Flt (f a b) | _, _ => x end.
(** Elements of equal shapes in turn, or each with the one of a scalar. *)
Definition elementwise (f : float32 → float32 → float32) (t u : tensor) : tensor + bytes :=
  if decide (t_dims t = t_dims u) then inl (Tensor (t_dtype t) (t_dims t) (zip_with (num_op f) (t_data t) (t_data u)))
  else match t_dims u, t_data u with
       | [], [y] => inl (Tensor (t_dtype t) (t_dims t) ((λ x, num_op f x y) <$> t_data t))
       | _, _ => inr $"Incompatible shapes"
       end.
(** The sum of all the elements. *)
Definition total (t ax : tensor) (keep : bool) : tensor + bytes :=
  if decide (int_data ax = Z.of_nat <$> seq 0 (length (t_dims t)) ∧ keep = false)
  then inl (Tensor (t_dtype t) [] [foldl (num_op (SFadd 24 128)) (Flt (S754_zero false)) (t_data t)])
  else inr $"No kernel".
(** A part of a vector. *)
Definition part (t b z : tensor) : tensor + bytes :=
  match t_dims t, int_data b, int_data z with
  | [d], [i], [n] =>
      match cut d i n with
      | Some k => inl (Tensor (t_dtype t) [k] (take (Z.to_nat k) (drop (Z.to_nat i) (t_data t))))
      | None => inr $"Expected size in range"
      end
  | _, _, _ => inr $"No kernel"
  end.
Definition toy_apply (p : OpSpec) (ts : list tensor) : tensor + bytes :=
  match ts with
  | [t] => if decide (op p = $"Neg") then inl (Tensor (t_dtype t) (t_dims t) ((λ x, num_op (λ a _, SFopp a) x x) <$> t_data t))
           else inr $"No kernel"
  | [t; u] => if decide (op p = $"AddV2") then elementwise (SFadd 24 128) t u
              else if decide (op p = $"Mul") then elementwise (SFmul 24 128) t u
              else if decide (op p = $"Sub") then elementwise (SFsub 24 128) t u
              else if decide (op p = $"Sum") then total t u (keep_dims p)
              else inr $"No kernel"
  | [t; b; z] => if decide (op p = $"Slice") then part t b z else inr $"No kernel"
  | _ => inr $"No kernel"
  end.
(** The elements are of the type the operation is told. *)
Definition toy_exec (p : OpSpec) (ts : list tensor) : tensor + bytes :=
  match toy_apply p ts with
  | inl t => if decide (t_dtype t = attr $"T" p ∧ proper_dims (t_dims t)) then inl t else inr $"Incompatible types"
  | inr why => inr why
  end.
#[export] Instance gref_eq_decision : EqDecision gref.
Proof. solve_decision. Defined.
(** Derivatives of elementwise operations, forward: each tensor with what it
    changes by as every element of [x] does by one. *)
Definition uniform (f : float32) (t : tensor) : tensor := Tensor (t_dtype t) (t_dims t) ((λ _, Flt f) <$> t_data t).
Abbreviation dual := (option (tensor * tensor)).
Definition dual_op (p : OpSpec) (ds : list (tensor * tensor)) : dual :=
  let el f t u := match elementwise f t u with inl v => Some v | inr _ => None end in
  let add := el (SFadd 24 128) in let sub := el (SFsub 24 128) in let mul := el (SFmul 24 128) in
  match toy_exec p ds.*1, ds with
  | inl r, [(_, dt)] => dr ← sub (uniform (S754_zero false) dt) dt; Some (r, dr)
  | inl r, [(t, dt); (u, du)] =>
      dr ← (if decide (op p = $"AddV2") then add dt du
            else if decide (op p = $"Sub") then sub dt du
            else if decide (op p = $"Mul") then (a ← mul dt u; b ← mul t du; add a b) else None);
      Some (r, dr)
  | _, _ => None
  end.
Definition moving (x r : gref) (t : tensor) : tensor :=
  uniform (if bool_decide (x = r) then narrow (double_of 1) else S754_zero false) t.
Definition dual_ref (vs : list tensor) (x : gref) (ds : list dual) (r : gref) : dual :=
  match r with
  | R_leaf j => t ← vs !! Z.to_nat j; Some (t, moving x r t)
  | R_node i => '(t, d) ← mjoin (ds !! Z.to_nat i); Some (t, if decide (x = r) then moving x r t else d)
  end.
Definition toy_derivative (g : graph) (vs : list tensor) (y x : gref) : option tensor :=
  snd <$> dual_ref vs x (foldl (λ ds n, ds ++ [ps ← mapM (dual_ref vs x ds) (g_in n); dual_op (g_op n) ps]) [] (g_nodes g)) y.
Definition toy_out (f : func) (ts : list tensor) (o : gout) : option tensor :=
  match o with
  | O_ref r => func_val toy_exec f ts r
  | O_grad y xs k =>
      x ← xs !! k; v ← func_val toy_exec f ts x; vs ← leaf_vals f ts; t ← toy_derivative (f_graph f) vs y x;
      if decide (t_dims t = t_dims v) then Some t else None
  end.
Definition toy_call (f : func) (ts : list tensor) : list tensor + bytes :=
  match mapM (toy_out f ts) (f_out f) with Some outs => inl outs | None => inr $"Cannot run" end.

(** The sizes of a placeholder, if not too many. *)
Definition toy_infer (g : graph) (r : gref) : option (list Z) :=
  match r with
  | R_leaf j => match g_leaves g !! Z.to_nat j with
                | Some (G_placeholder _ sh) => if decide (0 ≤ j ∧ Z.of_nat (length sh) ≤ Z.of_nat TF_MAXDIM)%Z then Some sh else None
                | _ => None
                end
  | R_node _ => None
  end.

#[export] Instance toy_flow : TensorFlow := {|
  tf_exec := toy_exec;
  tf_check _ _ := None;
  tf_infer := toy_infer;
  tf_gradients _ _ xs := Some ((λ _, true) <$> xs);
  tf_call := toy_call;
  tf_null := $"null handle";
  fmt_g _ := $"g";
|}.

Lemma toy_runs : runs_graphs tf_exec tf_call.
Proof.
  intros f ts outs. cbn. unfold toy_call. destruct (mapM (toy_out f ts) (f_out f)) as [l|] eqn:E; [|done].
  intros [= ->]. apply mapM_Some in E. split; [symmetry; by apply Forall2_length in E|].
  intros k r t Hk Ht. by apply (Forall2_lookup_lr _ _ _ _ _ _ E Hk) in Ht.
Qed.

Lemma toy_differentiates : differentiates toy_derivative.
Proof.
  intros f ts outs vs k y xs i x t. cbn. unfold toy_call. destruct (mapM (toy_out f ts) (f_out f)) as [l|] eqn:E; [|done].
  intros [= ->] Hvs Ho Hx Ht. apply mapM_Some in E. pose proof (Forall2_lookup_lr _ _ _ _ _ _ E Ho Ht) as Hv. cbn in Hv.
  rewrite Hx, Hvs in Hv. cbn in Hv. destruct (func_val toy_exec f ts x) as [v|]; [|done]. cbn in Hv.
  destruct (toy_derivative (f_graph f) vs y x) as [u|]; [|done]. cbn in Hv. case_decide; [|done]. injection Hv as <-. split; [done|].
  by exists v.
Qed.

Lemma toy_flat : flat.
Proof. intros g [j|i] dims; [|done]. cbn. repeat case_match; intros [= <-]. lia. Qed.
Lemma toy_infers : infers.
Proof.
  intros f ts [j|i] t dims Hp; [|done]. cbn. intros Hv Hi. destruct (g_leaves (f_graph f) !! Z.to_nat j) as [[|dt sh]|] eqn:Ej; try done.
  case_decide as Hj; [|done]. injection Hi as <-. rewrite <- (Z2Nat.id j) in Hv by lia.
  rewrite (Hp _ _ _ _ Ej Hv). apply Forall_Forall2_diag, Forall_true. auto.
Qed.

Lemma broadcast_rev_same a : broadcast_rev a a = Some a.
Proof.
  induction a as [|x a IH]; [done|]. cbn [broadcast_rev]. unfold broadcast_dim. rewrite decide_True by done. cbn. by rewrite IH.
Qed.
Lemma broadcast_same a : broadcast a a = Some a.
Proof. unfold broadcast. rewrite broadcast_rev_same. cbn. by rewrite reverse_involutive. Qed.
Lemma broadcast_scalar a : broadcast a [] = Some a.
Proof.
  unfold broadcast. rewrite reverse_nil. assert (∀ l, broadcast_rev l [] = Some l) as -> by by intros [].
  cbn. by rewrite reverse_involutive.
Qed.
Lemma elementwise_dims f t u v :
  elementwise f t u = inl v → broadcast (t_dims t) (t_dims u) = Some (t_dims v).
Proof.
  unfold elementwise. case_decide as Hd; [intros [= <-]; rewrite <- Hd; apply broadcast_same|].
  destruct (t_dims u); [|done]. destruct (t_data u) as [|y [|]]; try done. intros [= <-]. apply broadcast_scalar.
Qed.
Lemma without_all axes i a :
  (∀ k, k < length a → (i + Z.of_nat k)%Z ∈ axes) → without axes false i a = [].
Proof.
  revert i. induction a as [|d a IH]; intros i Hi; [done|]. cbn [without]. rewrite decide_True.
  - cbn. apply IH. intros k Hk. replace (i + 1 + Z.of_nat k)%Z with (i + Z.of_nat (S k))%Z by lia. apply Hi. cbn. lia.
  - specialize (Hi 0). rewrite Z.add_0_r in Hi. apply Hi. cbn. lia.
Qed.
Lemma total_dims t ax keep v :
  total t ax keep = inl v →
  (axes ← mapM (axis_of (Z.of_nat (length (t_dims t)))) (int_data ax); Some (without axes keep 0 (t_dims t))) = Some (t_dims v).
Proof.
  unfold total. case_decide as Hd; [|done]. destruct Hd as [-> ->]. intros [= <-]. set (n := length (t_dims t)).
  assert (mapM (axis_of (Z.of_nat n)) (Z.of_nat <$> seq 0 n) = Some (Z.of_nat <$> seq 0 n)) as ->.
  { apply mapM_Some, Forall_Forall2_diag, Forall_fmap, Forall_seq. intros k Hk. cbn. unfold axis_of. by rewrite decide_True by lia. }
  cbn. f_equal. apply without_all. intros k Hk. apply list_elem_of_fmap. exists k. split; [lia|]. apply elem_of_seq. lia.
Qed.
Lemma part_documented t b z v :
  part t b z = inl v → sliced (t_dims t) (int_data b) (int_data z) = Some (t_dims v) ∧ t_dtype v = t_dtype t.
Proof.
  unfold part. destruct (t_dims t) as [|d [|]]; try done. destruct (int_data b) as [|i [|]]; try done.
  destruct (int_data z) as [|n [|]]; try done. cbn [sliced]. destruct (cut d i n); [|done]. by intros [= <-].
Qed.
Lemma toy_documented : documented.
Proof.
  split; [|by intros []]. intros p ts t. cbn. unfold toy_exec. destruct (toy_apply p ts) as [v|] eqn:Ea; [|done]. case_decide as Ht; [|done].
  intros [= <-] _. destruct Ht as [Hdt Hpd]. unfold toy_apply in Ea.
  destruct ts as [|x [|y [|z [|]]]]; try done; repeat case_decide; try done;
    match goal with H : op p = _ |- _ => unfold doc_dims, doc_dtype; rewrite !H; clear H end.
  { simplify_eq. by split_and!. }
  1-3: split_and!; [|done..]; by eapply elementwise_dims.
  - split_and!; [exact (total_dims _ _ _ _ Ea)|done..].
  - destruct (part_documented _ _ _ _ Ea) as [Hs Hty]. split_and!; [exact Hs|exact Hty|done].
Qed.
