(* ===== verification/Reached.v ===== *)
(** * Every run of the back end

    What holds of whatever calls a program makes, from the state the module is
    loaded in: the theorems about modules/tensorflow/backend.c. *)
From Stdlib Require Import Floats.SpecFloat.
From S2P Require Import Prelude Effect Float Tensor Closure Compile Shape Producer Slots Table Record Meaning Typed Visit Key Frame Cached Described Evaluate Running Reading Recorded Specified Service Gained Gradient Machine Makes Compound Step Simulate Agreement Eager ToyFlow.

(** As the module is loaded: the static arrays zero, the cursor at 1; any
    device, mode, seed and luck with TensorFlow. *)
Record initial (s : tfst) : Prop := {
  it_slots : slots s = λ _, zero_slot;
  it_cursor : slot_cursor s = 1%Z;
  it_hs : hs s = ∅;
  it_entries : entries s = [];
  it_scalars : scalars s = [];
}.
Definition loaded (mode : Z) (q : list (option bytes)) : tfst :=
  TfSt (λ _, zero_slot) 1 ∅ 0 [] [] 0 1234 0 [] false mode [] 0 0 0 0 0 q.
Lemma loaded_initial mode q : initial (loaded mode q).
Proof. by split. Qed.

Lemma initial_represents `{TensorFlow} s : initial s → represents ∅ s.
Proof.
  intros [Hs Hcu Hh He Hc]. assert (∀ i, kind (slots s i) = K_FREE) as Hk by (intros i; by rewrite Hs).
  assert (∀ n, edges None (slots s) n = []) as Hed.
  { intros n. unfold edges. rewrite Hk. by rewrite decide_False by (by intros [_ ?]). }
  split; [split|..].
  - split; [split; try (intros i ?; congruence)| |].
    + intros n i. rewrite Hed. by intros ?%elem_of_nil.
    + by intros i ?%elem_of_nil.
    + exists (λ _, 0). intros n i. rewrite Hed. by intros ?%elem_of_nil.
    + intros i _. by rewrite Hs.
    + split; [|intros e _; by rewrite Hh].
      intros e. assert (slots_holding (slots s) e = 0) as ->.
      { unfold slots_holding. induction table as [|x l IH]; [done|]. cbn [sum_list_with]. rewrite IH, Hs. done. }
      rewrite Hh, Hc, lookup_empty, (decide_False (P := is_Some None)) by (by intros [? ?]). done.
    + rewrite Hcu. by apply (bool_decide_unpack _).
  - intros i. by rewrite Hk.
  - intros i. by rewrite Hk.
  - unfold entries_ok. by rewrite He.
  - intros f e. rewrite Hc. by intros ?%elem_of_nil.
  - intros i. rewrite lookup_empty. split; [|by intros [? ?]]. intros Hx%exists_live. by rewrite Hk in Hx.
  - intros i m. by rewrite lookup_empty.
Qed.

(** ** What is left *)

(** A slot no node reads and no caller names is free. *)
Lemma nothing_left s :
  counted None [] [] (slots s) → (∀ h, exists_ s h = false) → ∀ h, kind (slots s h) = K_FREE.
Proof.
  intros Hc Hx. destruct (c_rank _ _ _ _ Hc) as [rank Hrank].
  set (top := max_list (rank <$> table)).
  assert (∀ n h, (top - rank h ≤ n)%nat → kind (slots s h) = K_FREE) as Hgo; [|intros h; by apply (Hgo (top - rank h)%nat)].
  induction n as [n IH] using lt_wf_ind. intros h Hn. destruct (decide (kind (slots s h) = K_FREE)) as [|Hk]; [done|exfalso].
  pose proof (c_table _ _ _ _ Hc h Hk) as Hi.
  assert (released (slots s h) = true) as Hrel.
  { destruct (released (slots s h)) eqn:E; [done|]. assert (exists_ s h = true) by (by apply exists_spec).
    by rewrite Hx in *. }
  assert (uses None (slots s) h = 0%nat ∨ (0 < uses None (slots s) h)%nat) as [Hu|Hu] by lia.
  - assert (h ∈ @nil Z) as ?%elem_of_nil; [|done]. eapply (c_gone _ _ _ _ Hc); [done|done|].
    rewrite (c_refs _ _ _ _ Hc h Hk), Hu. done.
  - destruct (uses_used _ _ _ Hu) as (m & Hm & He). pose proof (Hrank m h He) as Hlt.
    assert (rank m ≤ top)%nat as Hle.
    { apply max_list_elem_of_le, list_elem_of_fmap. exists m. by rewrite elem_of_table. }
    assert (kind (slots s m) = K_FREE) as Hkm; [eapply (IH (top - rank m)%nat); lia|].
    unfold edges in He. rewrite decide_False in He by (rewrite Hkm; by intros [_ ?]). by apply elem_of_nil in He.
Qed.
Lemma owned_by_cache s e :
  owned [] s → counted None [] [] (slots s) → (∀ h, kind (slots s h) = K_FREE) → is_Some (hs s !! e) ↔ e ∈ (scalars s).*2.
Proof.
  intros Ho Hc Hk. pose proof (o_once _ _ Ho e) as He. rewrite occ_nil in He.
  assert (slots_holding (slots s) e = 0%nat) as Hz.
  { unfold slots_holding. induction table as [|x l IH]; [done|]. cbn. by rewrite IH, (c_free _ _ _ _ Hc x) by apply Hk. }
  rewrite occ_pos. case_decide as Hd; split; intros; try done; lia.
Qed.

(** ** Every run *)

Section reached.
Context `{TensorFlow} (Hruns : runs_graphs tf_exec tf_call) (Hflat : flat) (Hinfer : infers) (Hdoc : documented).

(** C2. The back end refines the abstract machine: from the state it is loaded
    in, whatever calls are made with whatever handles, in either mode or
    switching between them, given sizes there is room for, and whatever
    allocations, checks, registrations and runs TensorFlow fails, it returns,
    what it answers is what the machine may answer, and the handles it knows
    are the machine's; unless a closure's key filled its buffer or TensorFlow
    would not register a function.  (A slice or standardising that is refused
    may leave handles nobody was told of, as the machine's may.) *)
Theorem tensor_calls_refine cs s (Hs : initial s) (Hc : Forall sized cs) :
  ensures (do_calls cs) (λ l s', ∃ A, may_all ∅ cs l A ∧ ∀ h, exists_ s' h = true ↔ is_Some (A !! h)) s.
Proof.
  eapply ensures_mono; [by apply (simulation_all Hruns Hflat Hinfer Hdoc ∅); [apply initial_represents|]|].
  cbv beta. intros l s' _ (A & Hm & Hr). exists A. split; [done|]. apply Hr.
Qed.

(** C3. Recording computes what running at once computes: of two runs of a
    program, in whatever modes, each tensor that both read has the same
    elements and the same dimensions.  A program uses the tensors it has made
    and not freed ([scoped]), gives sizes there is room for ([sized]), and has
    no call whose result the modes need not share ([definite]): not
    tfb_random or tfb_randperm, which answer chance; not the aggregate std,
    which divides by a count read off a shape that recording may have wrong
    for an empty tensor; and not a scalar or a step size that is 0 as a float,
    since the cache of scalars takes 0 and -0 for one and the first made is
    the one used.  (A count of rows is an int64.) *)
Theorem modes_agree p s1 s2 (H1 : initial s1) (H2 : initial s2) (Hp : scoped [] 0 p = true)
  (Hd : forallb definite p = true) (Hc : Forall sized p) :
  ensures (do_program p []) (λ l1 _, ensures (do_program p []) (λ l2 _, same_values l1 l2) s2) s1.
Proof.
  eapply ensures_mono; [by apply (program_runs Hruns Hflat Hinfer Hdoc p [] ∅); [apply initial_represents|]|].
  cbv beta. intros l1 _ _ Hl1.
  eapply ensures_mono; [by apply (program_runs Hruns Hflat Hinfer Hdoc p [] ∅); [apply initial_represents|]|].
  cbv beta. intros l2 _ _ Hl2.
  apply (runs_agree p [] 0 [] [] ∅ ∅); [done|done|apply settled_initial..| | |done|done].
  - by intros k ? ? ?%elem_of_nil.
  - intros k ? ? Hk. by rewrite lookup_nil in Hk.
Qed.

(** C35. After any calls the slot table is well formed: a free slot holds no
    TensorFlow handle and a value holds one; a live slot's count is how often
    the recorded nodes read it, and is not zero once the caller has freed it;
    whatever a node reads is live; no node reads itself through others; and
    every live TensorFlow handle belongs to exactly one slot or one cached
    scalar. *)
Theorem slots_counted cs s (Hs : initial s) (Hc : Forall sized cs) :
  ensures (do_calls cs) (λ _ s', counted None [] [] (slots s') ∧ owned [] s') s.
Proof.
  eapply ensures_mono; [by apply (simulation_all Hruns Hflat Hinfer Hdoc ∅); [apply initial_represents|]|].
  cbv beta. intros l s' _ (A & _ & Hr). destruct (gd_ok _ _ (re_good _ _ Hr)) as [Hcn Ho]. by split.
Qed.

(** C36. Once no handle names a tensor, whatever was recorded, run or refused
    before, every slot is free and every TensorFlow handle still live is a
    cached scalar's: only what can be named is kept. *)
Theorem freed_leaves_nothing cs s (Hs : initial s) (Hc : Forall sized cs) :
  ensures (do_calls cs) (λ _ s', (∀ h, exists_ s' h = false) →
    (∀ h, kind (slots s' h) = K_FREE) ∧ ∀ e, is_Some (hs s' !! e) ↔ e ∈ (scalars s').*2) s.
Proof.
  eapply ensures_mono; [by apply (simulation_all Hruns Hflat Hinfer Hdoc ∅); [apply initial_represents|]|].
  cbv beta. intros l s' _ (A & _ & Hr) Hx. destruct (gd_ok _ _ (re_good _ _ Hr)) as [Hcn Ho]. split.
  - by eapply nothing_left.
  - intros e. apply owned_by_cache; [done|done|by apply nothing_left].
Qed.

(** C5. After any calls each named tensor's slot tells the truth of it: its
    type is the tensor's; a shape it knows is the tensor's wherever the size is
    not 0; and once it has its value it knows its shape exactly. *)
Theorem slots_typed cs s (Hs : initial s) (Hc : Forall sized cs) :
  ensures (do_calls cs) (λ _ s', ∀ h t, exists_ s' h = true → means s' h t →
    dtype (slots s' h) = t_dtype t ∧
    (shape_known (slots s' h) = true → agrees (shape (slots s' h)) (t_dims t)) ∧
    (value_of s' h = Some t → shape_known (slots s' h) = true ∧ shape (slots s' h) = t_dims t)) s.
Proof.
  eapply ensures_mono; [by apply (simulation_all Hruns Hflat Hinfer Hdoc ∅); [apply initial_represents|]|].
  cbv beta. intros l s' _ (A & _ & Hr) h t Hx Hm. destruct (gd_sound _ _ (re_good _ _ Hr) h (exists_live _ _ Hx)) as [_ _ Hf He _].
  destruct (Hf t Hm) as [_ _ Hd Hsh]. split; [done|]. split; [done|]. apply He.
Qed.

(** [tfb_randperm] answers one vector holding each of 0 to n - 1 once, as
    floats, in some order. *)
Theorem randperm_permutes n s (Hg : good [] s) (Hn : (0 ≤ n < 2 ^ 63)%Z) :
  wp (tfb_randperm n) (λ r s', ∃ v, v ≡ₚ seqZ 0 n ∧
    answers (λ u, u = Tensor TF_FLOAT [n] ((λ i, Flt (narrow (double_of i))) <$> v)) s r s') never s.
Proof.
  by apply wp_randperm.
Qed.
(** C4. After any calls, [tfb_grad] answers for each parameter a new tensor of
    its own, and changes nothing of what the program had.  If a parameter is
    under the loss, one function holds the gradients, compiled from the graph
    of the loss as it is now, whatever was compiled and cached before: where it
    has a gradient the tensor is the derivative of the loss by the parameter on
    what the leaves stand for now, elsewhere zeros of the parameter's sizes.
    If none is under it they are all zeros.  (The parameters have their values
    or known sizes; a loss that a step made has not been computed yet.) *)
Theorem gradients_answered (D : graph → list tensor → gref → gref → option tensor) (HD : differentiates D)
    cs loss ps s (Hs : initial s) (Hc : Forall sized cs) :
  ensures (do_calls cs) (λ _ s',
    Forall (shaped s') ps → (kind (slots s' loss) = K_NODE → is_param (slots s' loss) = true → eh (slots s' loss) = None) →
    ensures (tfb_grad loss ps) (grads_answered D s' loss ps) s') s.
Proof.
  eapply ensures_mono; [by apply (simulation_all Hruns Hflat Hinfer Hdoc ∅); [apply initial_represents|]|].
  cbv beta. intros l s' _ (A & _ & Hr) Hps Hb. apply ensures_tfb_grad; [exact Hruns|exact HD|apply Hr|done|done].
Qed.
End reached.

(** ** On a toy TensorFlow *)

(** A product and a sum, told, read and added up, one freed in between. *)
Definition sum_calls : list call :=
  [C_from_doubles (double_of <$> [1; 2]%Z) [2%Z]; C_scalar $"mul" 1 (double_of 3); C_binary $"add" 3 1; C_free 3;
   C_shape 4; C_values 4; C_values 3; C_agg $"sum" 4; C_free 4; C_values 6; C_free 6; C_free 1; C_exists 1].
Definition four_eight : list float64 := double_of <$> [4; 8]%Z.
Definition sum_answers : list answer :=
  [A_handle (Some 1%Z); A_handle (Some 3%Z); A_handle (Some 4%Z); A_bool true; A_shape (Some [2%Z]);
   A_values (Some (four_eight, [2%Z])); A_values None; A_handle (Some 6%Z); A_bool true; A_values (Some ([double_of 12], []));
   A_bool true; A_bool true; A_bool false].
(** The same as a program: its operands are the calls that made them. *)
Definition sum_program : list call :=
  [C_from_doubles (double_of <$> [1; 2]%Z) [2%Z]; C_scalar $"mul" 0 (double_of 3); C_binary $"add" 1 0; C_free 1;
   C_values 2; C_free 2; C_free 0].

Lemma sum_calls_sized : Forall sized sum_calls.
Proof. by apply (bool_decide_unpack _). Qed.
Lemma sum_program_sized : Forall sized sum_program.
Proof. by apply (bool_decide_unpack _). Qed.

(** The answers of a run that ended sane. *)
Definition answers_of {A} (r : res tfst A) : option A :=
  match r with Ret l s' => if decide (sane s') then Some l else None | _ => None end.
Lemma answers_of_sane {A} (a : A) (r : res tfst A) :
  answers_of r = Some a → match r with Ret l s => l = a ∧ sane s | _ => False end.
Proof. destruct r; cbn; [|done..]. case_decide; [|done]. by intros [= ->]. Qed.

Lemma tensor_calls_refine_witness :
  answers_of (do_calls sum_calls (loaded 1 [])) = Some sum_answers ∧
  ∃ A, may_all ∅ sum_calls sum_answers A.
Proof.
  split; [by vm_compute|].
  pose proof (tensor_calls_refine toy_runs toy_flat toy_infers toy_documented sum_calls (loaded 1 []) (loaded_initial 1 []) sum_calls_sized) as Hr.
  assert (match do_calls sum_calls (loaded 1 []) with Ret l s => l = sum_answers ∧ sane s | _ => False end) as Hrun.
  { apply (answers_of_sane sum_answers). by vm_compute. }
  unfold ensures in Hr. destruct (do_calls sum_calls (loaded 1 [])) as [l s| |]; [|done..].
  destruct Hrun as [-> Hs]. destruct (Hr Hs) as (A & HA & _). by exists A.
Defined.
Lemma modes_agree_witness :
  scoped [] 0 sum_program = true ∧
  ensures (do_program sum_program [])
    (λ l1 _, ensures (do_program sum_program []) (λ l2 _, same_values l1 l2) (loaded 1 [])) (loaded 0 []).
Proof.
  split; [done|]. exact (modes_agree toy_runs toy_flat toy_infers toy_documented sum_program _ _ (loaded_initial 0 []) (loaded_initial 1 []) eq_refl eq_refl sum_program_sized).
Defined.
(** What both runs read. *)
Example both_modes_read :
  answers_of (do_program sum_program [] (loaded 1 [])) = answers_of (do_program sum_program [] (loaded 0 [])) ∧
  (answers_of (do_program sum_program [] (loaded 1 [])) ≫= (.!! 4%nat)) = Some (A_values (Some (four_eight, [2%Z]))).
Proof. split; by vm_compute. Qed.
(** A part of a product, read in both modes. *)
Definition slice_program : list call :=
  [C_from_doubles (double_of <$> [1; 2; 4; 8]%Z) [4%Z]; C_scalar $"mul" 0 (double_of 4); C_slice 1 0 0 2; C_slice 1 1 0 2; C_values 2].
Example slices_read :
  scoped [] 0 slice_program = true ∧
  (answers_of (do_program slice_program [] (loaded 1 [])) ≫= (.!! 4%nat)) = Some (A_values (Some (four_eight, [2%Z]))) ∧
  (answers_of (do_program slice_program [] (loaded 0 [])) ≫= (.!! 4%nat)) = Some (A_values (Some (four_eight, [2%Z]))).
Proof. split_and!; by vm_compute. Qed.
Lemma slots_counted_witness :
  ensures (do_calls sum_calls) (λ _ s', counted None [] [] (slots s') ∧ owned [] s') (loaded 1 []).
Proof. exact (slots_counted toy_runs toy_flat toy_infers toy_documented sum_calls _ (loaded_initial 1 []) sum_calls_sized). Defined.
Lemma slots_typed_witness :
  ensures (do_calls sum_calls) (λ _ s', ∀ h t, exists_ s' h = true → means s' h t →
    dtype (slots s' h) = t_dtype t ∧
    (shape_known (slots s' h) = true → agrees (shape (slots s' h)) (t_dims t)) ∧
    (value_of s' h = Some t → shape_known (slots s' h) = true ∧ shape (slots s' h) = t_dims t)) (loaded 1 []).
Proof. exact (slots_typed toy_runs toy_flat toy_infers toy_documented sum_calls _ (loaded_initial 1 []) sum_calls_sized). Defined.
Lemma freed_leaves_nothing_witness :
  ensures (do_calls sum_calls) (λ _ s', (∀ h, exists_ s' h = false) →
    (∀ h, kind (slots s' h) = K_FREE) ∧ ∀ e, is_Some (hs s' !! e) ↔ e ∈ (scalars s').*2) (loaded 1 []).
Proof. exact (freed_leaves_nothing toy_runs toy_flat toy_infers toy_documented sum_calls _ (loaded_initial 1 []) sum_calls_sized). Defined.
Lemma initial_good mode q : good [] (loaded mode q).
Proof. exact (re_good _ _ (initial_represents _ (loaded_initial mode q))). Qed.
Lemma randperm_permutes_witness :
  wp (tfb_randperm 5) (λ r s', ∃ v, v ≡ₚ seqZ 0 5 ∧
    answers (λ u, u = Tensor TF_FLOAT [5%Z] ((λ i, Flt (narrow (double_of i))) <$> v)) (loaded 0 []) r s') never (loaded 0 []).
Proof. apply (randperm_permutes 5); [exact (initial_good 0 [])|lia]. Defined.

(** A tensor made in eager mode, doubled by adding it to itself. *)
Definition with_one_two : tfst :=
  match do_calls [C_from_doubles (double_of <$> [1; 2]%Z) [2%Z]] (loaded 0 []) with Ret _ s => s | _ => loaded 0 [] end.
Lemma with_one_two_good : good [] with_one_two.
Proof.
  pose proof (simulation_all toy_runs toy_flat toy_infers toy_documented ∅ [C_from_doubles (double_of <$> [1; 2]%Z) [2%Z]] (loaded 0 [])
    (initial_represents _ (loaded_initial 0 [])) ltac:(by apply (bool_decide_unpack _))) as Hr.
  assert (∃ l s, do_calls [C_from_doubles (double_of <$> [1; 2]%Z) [2%Z]] (loaded 0 []) = Ret l s ∧ sane s) as (l & s & Hs & Hsa).
  { do 2 eexists. split; [reflexivity|]. apply (bool_decide_unpack _). by vm_compute. }
  unfold with_one_two. unfold ensures in Hr. rewrite Hs in *. destruct (Hr Hsa) as (A & _ & HA). apply HA.
Qed.
Definition one_two : tensor := tensor_f32 (double_of <$> [1; 2]%Z) [2%Z].
Definition two_four : tensor := tensor_f32 (double_of <$> [2; 4]%Z) [2%Z].
Lemma eager_operation_answers_witness :
  tf_exec (recipe (binary_spec $"AddV2" 1 1)) [one_two; one_two] = inl two_four ∧
  ensures (run_spec (binary_spec $"AddV2" 1 1)) (eager_outcome (binary_spec $"AddV2" 1 1) [one_two; one_two] with_one_two)
    with_one_two.
Proof.
  split; [by vm_compute|]. apply (eager_operation_answers toy_runs toy_flat toy_infers toy_documented); [exact with_one_two_good|done|done| | | |].
  - exists 5%Z. by split; [apply (bool_decide_unpack _)|].
  - unfold valued. repeat constructor; by vm_compute.
  - exact (binary_checked $"add" $"AddV2" 1 1 eq_refl).
  - exact (binary_trusted $"add" $"AddV2" 1 1 _ eq_refl).
Defined.

(** The square of a parameter, by it and by another one. *)
Definition square_calls : list call :=
  [C_from_doubles (double_of <$> [1; 2]%Z) [2%Z]; C_parameter 1; C_parameter 1; C_binary $"mul" 2 2].
Definition squared : tfst := match do_calls square_calls (loaded 1 []) with Ret _ s => s | _ => loaded 1 [] end.
Lemma squared_run : ∃ l, do_calls square_calls (loaded 1 []) = Ret l squared ∧ sane squared.
Proof.
  assert (answers_of (do_calls square_calls (loaded 1 [])) ≠ None) as Hr by by vm_compute.
  unfold squared. destruct (do_calls square_calls (loaded 1 [])) as [l s| |]; [|done..]. exists l. split; [done|].
  unfold answers_of in Hr. by case_decide.
Qed.
Lemma gradients_answered_witness :
  ensures (tfb_grad 4 [2; 3]%Z) (grads_answered toy_derivative squared 4 [2; 3]%Z) squared.
Proof.
  pose proof (gradients_answered toy_runs toy_flat toy_infers toy_documented toy_derivative toy_differentiates square_calls 4 [2; 3]%Z
    (loaded 1 []) (loaded_initial 1 []) ltac:(by apply (bool_decide_unpack _))) as Hr.
  destruct squared_run as (l & Hl & Hs). unfold ensures in Hr at 1. rewrite Hl in Hr. apply Hr; [exact Hs| |by vm_compute].
  repeat constructor; intros Hv; exfalso; revert Hv; by vm_compute.
Defined.
(** 2 and 4, and zeros; asked for twice, from the cache. *)
Definition square_gradients : T (list (option (list float64 * list Z))) :=
  g <- tfb_grad 4 [2; 3]%Z ;; g' <- tfb_grad 4 [3; 2]%Z ;; g'' <- tfb_grad 4 [2; 3]%Z ;;
  (fix go (hs : list Z) := match hs with [] => ret [] | h :: hs => v <- tfb_values h ;; vs <- go hs ;; ret (v :: vs) end)
    (default [] g ++ default [] g' ++ default [] g'').
Example square_derived :
  answers_of (square_gradients squared) =
    Some [Some (double_of <$> [2; 4]%Z, [2%Z]); Some (double_of <$> [0; 0]%Z, [2%Z]);
          Some (double_of <$> [0; 0]%Z, [2%Z]); Some (double_of <$> [2; 4]%Z, [2%Z]);
          Some (double_of <$> [2; 4]%Z, [2%Z]); Some (double_of <$> [0; 0]%Z, [2%Z])].
Proof. by vm_compute. Qed.
