(* ===== verification/Start.v ===== *)
(** * modules/tensorflow/backend.c: from torch.so to a back end

    [tfb_attach] and [tfb_init]: the torch module is found beside this one, a
    TensorFlow context is made, the first device of each kind is noted, and
    the torch module told.  What is left of it is what every theorem of
    Reached.v starts from. *)
From Stdlib Require Import Floats.SpecFloat.
From S2P Require Import Prelude Effect Float Tensor Slots Table Machine Reached.

(** A shared object: what dlsym finds in it -- the switch between the modes, by
    what it says, and the call that takes a back end. *)
Record library := Library { coco_tensor_graph_mode : option Z; coco_tensor_backend_set : option (bytes → Z) }.
(** dladdr and dlopen: this module's own file; the objects loaded already; and
    loading one, or what dlerror says. *)
Class Loader := { own_file : option bytes; resident : bytes → option library; load : bytes → library + bytes }.
(** TFE_ContextListDevices: type and name of each, as far as it tells. *)
Class Devices := { device_list : option (list (option bytes * option bytes)) }.

(** The statics of the start, beside those the calls use, and the TensorFlow
    objects the start makes. *)
Record boot := Boot {
  core : tfst;
  ctx : bool;
  cpu_name : bytes;
  backend : option bytes;      (** told to the torch module *)
  statuses : nat;
  options : nat;
  lists : nat;
}.
Definition set_core v b := Boot v (ctx b) (cpu_name b) (backend b) (statuses b) (options b) (lists b).
Definition set_ctx v b := Boot (core b) v (cpu_name b) (backend b) (statuses b) (options b) (lists b).
Definition set_cpu_name v b := Boot (core b) (ctx b) v (backend b) (statuses b) (options b) (lists b).
Definition set_backend v b := Boot (core b) (ctx b) (cpu_name b) v (statuses b) (options b) (lists b).
Definition set_statuses v b := Boot (core b) (ctx b) (cpu_name b) (backend b) v (options b) (lists b).
Definition set_options v b := Boot (core b) (ctx b) (cpu_name b) (backend b) (statuses b) v (lists b).
Definition set_lists v b := Boot (core b) (ctx b) (cpu_name b) (backend b) (statuses b) (options b) v.
Definition set_gpu_name v s := TfSt (slots s) (slot_cursor s) (hs s) (next_h s) (entries s) (scalars s) (scalar_next s) (seed_base s) (seed_next s) v (dev_gpu s) (graph_mode s) (errbuf s) (opcount s) (fncount s) (stat_rec s) (stat_exe s) (stat_rep s) (tfq s).

Abbreviation B := (@M boot).
Abbreviation nowhere := (λ _ : boot, False).
Abbreviation cores f := (modify (λ b, set_core (f (core b)) b)).
(** A call of Tensor.v on the statics it uses. *)
Definition lift {A} (m : T A) : B A := λ b,
  match m (core b) with
  | Ret a s => Ret a (set_core s b)
  | Block s => Block (set_core s b)
  | Spin s => Spin (set_core s b)
  end.

Definition NAME : nat := 256.
Section start.
Context {Ld : Loader} {Dv : Devices}.

(** A device of a kind that has no name yet gives it. *)
Definition note_device (ty nm : option bytes) : B unit :=
  match ty, nm with
  | Some ty, Some nm =>
      g <- gets (λ b, gpu_name (core b)) ;;
      when (bool_decide (c_str ty = $"GPU" ∧ g = [])) (cores (set_gpu_name (snprintf_s NAME nm))) ;;
      c <- gets cpu_name ;;
      when (bool_decide (c_str ty = $"CPU" ∧ c = [])) (modify (set_cpu_name (snprintf_s NAME nm)))
  | _, _ => ret tt
  end.
Fixpoint note_devices (ds : list (option bytes * option bytes)) : B unit :=
  match ds with
  | [] => ret tt
  | (ty, nm) :: ds =>
      b <- lift bad ;;
      if (b : bool) then ret tt
      else
        b <- lift bad ;;
        if (b : bool) then ret tt else note_device ty nm ;; note_devices ds
  end.

(** The list of devices, and its names. *)
Definition note_list : B unit :=
  modify (λ b, set_lists (lists b + (if decide (is_Some device_list) then 1 else 0)) b) ;;
  b <- lift bad ;;
  match b, device_list with
  | false, Some ds => note_devices ds ;; modify (λ b, set_lists (lists b - 1) b)
  | _, _ => ret tt
  end.

Definition tfb_init (torch_so : option library) : B bool :=
  c <- gets ctx ;;
  if (c : bool) then ret true
  else
    modify (λ b, set_statuses (S (statuses b)) b) ;;
    modify (λ b, set_options (S (options b)) b) ;;
    lift unread ;;
    modify (set_ctx true) ;;
    modify (λ b, set_options (options b - 1) b) ;;
    b <- lift bad ;;
    if (b : bool) then modify (set_ctx false) ;; ret false
    else
      cores (set_gpu_name []) ;;
      modify (set_cpu_name []) ;;
      note_list ;;
      cores (λ s, set_dev_gpu (bool_decide (gpu_name s ≠ [])) s) ;;
      match torch_so with
      | Some l => cores (set_mode (default 0%Z (coco_tensor_graph_mode l)))
      | None => ret tt
      end ;;
      cores (set_slots (λ _, zero_slot)) ;;
      ret true.

Definition PATH_SIZE : nat := Z.to_nat 4096.
(** strrchr *)
Fixpoint strrchr (l : bytes) (c : Z) : option nat :=
  match l with
  | [] => None
  | x :: l => match strrchr l c with
              | Some i => Some (S i)
              | None => if decide (byte_val x = c) then Some 0 else None
              end
  end.
(** torch.so beside the file. *)
Definition torch_path (file : bytes) : bytes :=
  let path := snprintf_s PATH_SIZE file in
  match strrchr path 47 with
  | Some i => take (i + 1) path ++ snprintf_s (PATH_SIZE - (i + 1)) $"torch.so"
  | None => snprintf_s PATH_SIZE $"torch.so"
  end.
Definition no_torch (path why : bytes) : bytes :=
  take 511 ($"no torch.so beside this module (" ++ path ++ $"): " ++ c_str why).

(** dlopen: the one that is loaded, or loaded now. *)
Definition open_torch (path : bytes) : library + bytes :=
  match resident path with Some l => inl l | None => load path end.
Definition tfb_attach : B Z :=
  match own_file with
  | None => lift (fail $"dladdr: cannot find this module's own path") ;; ret 0%Z
  | Some file =>
      let path := torch_path file in
      match open_torch path with
      | inr why => cores (set_errbuf (no_torch path why)) ;; ret 0%Z
      | inl l =>
          match coco_tensor_backend_set l with
          | None => lift (fail $"torch.so has no coco_tensor_backend_set: rebuild library(torch)") ;; ret 0%Z
          | Some set =>
              ok <- tfb_init (Some l) ;;
              if (ok : bool) then modify (set_backend (Some $"tensorflow")) ;; ret (set $"tensorflow") else ret 0%Z
          end
      end
  end.

(** ** What is noted *)

(** The name a device gives its kind, if it is of that kind and has one. *)
Definition named (kind : bytes) (d : option bytes * option bytes) : option bytes :=
  ty ← d.1; nm ← d.2; if decide (c_str ty = kind ∧ snprintf_s NAME nm ≠ []) then Some (snprintf_s NAME nm) else None.
Definition first_named (kind : bytes) (ds : list (option bytes * option bytes)) : bytes := default [] (head (omap (named kind) ds)).
(** A name given, or the first there is. *)
Definition or_first (kind name : bytes) (ds : list (option bytes * option bytes)) : bytes :=
  if decide (name = []) then first_named kind ds else name.

Lemma or_first_cons kind name d ds :
  or_first kind name (d :: ds) = or_first kind (or_first kind name [d]) ds.
Proof.
  unfold or_first, first_named. destruct (decide (name = [])) as [->|Hn]; [|by rewrite decide_False].
  cbn [omap list_omap]. destruct (named kind d) as [n|] eqn:E; cbn; [|by rewrite decide_True].
  rewrite decide_False; [done|]. unfold named in E. destruct d as [[ty|] [nm|]]; cbn in E; try done. case_decide; [|done].
  injection E as <-. tauto.
Qed.

Lemma wp_lift {A} (m : T A) Q W b :
  wp m (λ a s, Q a (set_core s b)) (λ s, W (set_core s b)) (core b) → wp (lift m) Q W b.
Proof. unfold wp, lift. by destruct (m (core b)). Qed.

(** Beside the names, nothing of the start's own changes. *)
Record noting (b b' : boot) : Prop := {
  no_core : inert (core b) (core b');
  no_dev : dev_gpu (core b') = dev_gpu (core b);
  no_lucky : tfq (core b') `suffix_of` tfq (core b);
  no_ctx : ctx b' = ctx b;
  no_backend : backend b' = backend b;
  no_options : options b' = options b;
  no_lists : lists b' = lists b;
}.
#[export] Instance noting_preorder : PreOrder noting.
Proof. split; [by split|]. intros b1 b2 b3 [] []. split; try congruence; by etrans. Qed.
Lemma noting_lucky b b' : noting b b' → tfq (core b) = [] → tfq (core b') = [].
Proof. intros Hn Hq. pose proof (no_lucky _ _ Hn) as Hs. rewrite Hq in Hs. by apply suffix_nil_inv in Hs. Qed.
Lemma wp_lift_bad b :
  wp (lift bad) (λ r b', noting b b' ∧ gpu_name (core b') = gpu_name (core b) ∧ cpu_name b' = cpu_name b ∧ (tfq (core b) = [] → r = false) ∧
    (r = true → ∃ m, Some m ∈ tfq (core b) ∧ errbuf (core b') = snprintf_s 512 m)) nowhere b.
Proof.
  apply wp_lift. unfold bad, wp, bind, gets, modify, fail, ret.
  destruct (tfq (core b)) as [|[m|] q] eqn:E; (split; [split; cbn; try done; rewrite ?E; by (done || apply suffix_cons_r)|]); split_and!; try done.
  intros _. exists m. split; [by left|done].
Qed.
Lemma wp_lift_unread b :
  wp (lift unread) (λ _ b', noting b b') nowhere b.
Proof.
  apply wp_lift. unfold unread, wp, bind, gets, modify, ret.
  destruct (tfq (core b)) as [|a q] eqn:E; split; cbn; try done; rewrite ?E; by (done || apply suffix_cons_r).
Qed.

Lemma or_first_one kind name ty nm :
  or_first kind name [(Some ty, Some nm)] = if decide (c_str ty = kind ∧ name = []) then snprintf_s NAME nm else name.
Proof.
  unfold or_first, first_named, named. cbn. destruct (decide (name = [])) as [->|Hn]; [|by rewrite decide_False by tauto].
  destruct (decide (c_str ty = kind)); [|by rewrite !decide_False by tauto]. rewrite (decide_True (P := _ ∧ [] = [])) by done.
  case_decide as Hs; [done|]. symmetry. destruct (decide (snprintf_s NAME nm = [])); [done|]. by destruct Hs.
Qed.
Lemma wp_note_device ty nm b :
  wp (note_device ty nm) (λ _ b', noting b b' ∧ gpu_name (core b') = or_first $"GPU" (gpu_name (core b)) [(ty, nm)] ∧
    cpu_name b' = or_first $"CPU" (cpu_name b) [(ty, nm)]) nowhere b.
Proof.
  unfold note_device. destruct ty as [ty|]; [destruct nm as [nm|]|].
  - rewrite !or_first_one. unfold wp, bind, gets, when, modify, ret.
    destruct (decide (c_str ty = $"GPU" ∧ gpu_name (core b) = [])) as [Hg|Hg]; [rewrite bool_decide_true by done|rewrite bool_decide_false by done]; cbn -[lit snprintf_s];
    (destruct (decide (c_str ty = $"CPU" ∧ cpu_name b = [])) as [Hc|Hc]; [rewrite bool_decide_true by done|rewrite bool_decide_false by done]); cbn -[lit snprintf_s]; (split; [by split|done]).
  - wp_step. split; [done|]. unfold or_first, first_named, named. cbn. by repeat case_decide.
  - wp_step. split; [done|]. unfold or_first, first_named, named. cbn. by repeat case_decide.
Qed.
(** The names noted are those of the devices TensorFlow tells of before it
    fails, if it does. *)
Lemma wp_note_devices ds b :
  wp (note_devices ds) (λ _ b', noting b b' ∧ ∃ told, told `prefix_of` ds ∧ (tfq (core b) = [] → told = ds) ∧
    gpu_name (core b') = or_first $"GPU" (gpu_name (core b)) told ∧ cpu_name b' = or_first $"CPU" (cpu_name b) told) nowhere b.
Proof.
  assert (∀ kind name, or_first kind name [] = name) as Hnil by (intros; unfold or_first; by case_decide).
  revert b. induction ds as [|[ty nm] ds IH]; intros b; cbn [note_devices].
  { wp_step. split; [done|]. exists []. by rewrite !Hnil. }
  assert (∀ b', noting b b' → gpu_name (core b') = gpu_name (core b) → cpu_name b' = cpu_name b → (tfq (core b) = [] → true = false) →
    noting b b' ∧ ∃ told, told `prefix_of` (ty, nm) :: ds ∧ (tfq (core b) = [] → told = (ty, nm) :: ds) ∧
    gpu_name (core b') = or_first $"GPU" (gpu_name (core b)) told ∧ cpu_name b' = or_first $"CPU" (cpu_name b) told) as Hstop.
  { intros b' Hn Hg Hc Hl. split; [done|]. exists []. rewrite !Hnil. split_and!; [apply prefix_nil| |done|done]. intros Ht. by specialize (Hl Ht). }
  wp_step. eapply wp_mono; [apply wp_lift_bad|cbv beta|done]. intros x b1 (H1 & Hg1 & Hc1 & Hl1 & _). destruct x; [wp_step; auto|].
  wp_step. eapply wp_mono; [apply wp_lift_bad|cbv beta|done]. intros x b2 (H2 & Hg2 & Hc2 & Hl2 & _).
  assert (noting b b2) as H02 by by etrans. destruct x.
  { wp_step. apply Hstop; [done|congruence|congruence|]. intros Ht. by apply Hl2, (noting_lucky _ _ H1). }
  wp_step. eapply wp_mono; [apply wp_note_device|cbv beta|done]. intros _ b3 (H3 & Hg3 & Hc3).
  eapply wp_mono; [apply IH|cbv beta|done]. intros _ b4 (H4 & told & Hp & Hall & Hg4 & Hc4).
  assert (noting b b3) as H03 by by etrans. split; [by etrans|]. exists ((ty, nm) :: told). split_and!.
  - by apply prefix_cons.
  - intros Ht. f_equal. by apply Hall, (noting_lucky _ _ H03).
  - by rewrite or_first_cons, Hg4, Hg3, Hg2, Hg1.
  - by rewrite or_first_cons, Hc4, Hc3, Hc2, Hc1.
Qed.

(** ** What is started *)

(** The names are those of the first devices of their kinds, of all TensorFlow
    tells, which is all there are unless it fails; work goes to a GPU if there
    is one. *)
Definition noted (q : list (option bytes)) (b : boot) : Prop :=
  ∃ told, told `prefix_of` default [] device_list ∧ (q = [] → told = default [] device_list) ∧
    gpu_name (core b) = first_named $"GPU" told ∧ cpu_name b = first_named $"CPU" told ∧
    dev_gpu (core b) = bool_decide (gpu_name (core b) ≠ []).

Lemma inert_initial s s' : inert s s' → initial s → initial s'.
Proof. intros [] []. split; congruence. Qed.

Lemma wp_note_list b :
  wp note_list (λ _ b', inert (core b) (core b') ∧ ctx b' = ctx b ∧ backend b' = backend b ∧ options b' = options b ∧
        ∃ told, told `prefix_of` default [] device_list ∧ (tfq (core b) = [] → told = default [] device_list) ∧
        gpu_name (core b') = or_first $"GPU" (gpu_name (core b)) told ∧ cpu_name b' = or_first $"CPU" (cpu_name b) told) nowhere b.
Proof.
  assert (∀ kind name, or_first kind name [] = name) as Hnil by (intros; unfold or_first; by case_decide).
  unfold note_list. do 3 wp_step. eapply wp_mono; [apply wp_lift_bad|cbv beta|done]. intros x b1 (H1 & Hg1 & Hc1 & Hl1 & _).
  destruct H1 as [? ? Hq1 ? ? ? ?]. cbn [core ctx cpu_name backend options set_lists] in *. destruct x.
  { wp_step. split_and!; [done..|]. exists []. rewrite !Hnil. split_and!; [apply prefix_nil| |done|done]. intros Ht. by specialize (Hl1 Ht). }
  destruct device_list as [ds|]; cbn [default from_option id]; cycle 1.
  { wp_step. split_and!; [done..|]. exists []. by rewrite !Hnil. }
  wp_step. eapply wp_mono; [apply wp_note_devices|cbv beta|done]. intros _ b2 ([] & told & Hp & Hall & Hg & Hc). wp_step.
  cbn [core ctx cpu_name backend options set_lists]. split_and!; [by etrans|cbn in *; congruence..|]. exists told.
  split_and!; [done| |by rewrite Hg, Hg1|by rewrite Hc, Hc1]. intros Ht. apply Hall. rewrite Ht in Hq1. by apply suffix_nil_inv in Hq1.
Qed.
Lemma wp_tfb_init l b :
  ctx b = false → initial (core b) →
  wp (tfb_init l) (λ r b', initial (core b') ∧ ctx b' = r ∧ backend b' = backend b ∧ options b' = options b ∧
    if r then noted (tfq (core b)) b' ∧ graph_mode (core b') = default (graph_mode (core b)) (default 0%Z ∘ coco_tensor_graph_mode <$> l)
    else ∃ m, Some m ∈ tfq (core b) ∧ errbuf (core b') = snprintf_s 512 m) nowhere b.
Proof.
  intros Hb Hi. unfold tfb_init. do 2 wp_step. rewrite Hb. do 5 wp_step.
  eapply wp_mono; [apply wp_lift_unread|cbv beta|done]. intros _ b1 []. cbn [core ctx cpu_name backend options set_statuses set_options] in *.
  do 5 wp_step. eapply wp_mono; [apply wp_lift_bad|cbv beta|done]. intros x b2 ([] & _ & _ & _ & Hx).
  cbn [core ctx cpu_name backend options set_statuses set_options set_ctx] in *. destruct x.
  - do 2 wp_step. specialize (Hx eq_refl) as (m & Hm & He).
    cbn [core ctx cpu_name backend options set_ctx]. split_and!; [by eapply inert_initial, inert_initial|done|cbn; congruence|cbn; lia|].
    exists m. split; [|done]. destruct no_lucky0 as [k ->]. apply elem_of_app. by right.
  - do 5 wp_step. eapply wp_mono; [apply wp_note_list|cbv beta|done]. intros _ b3 (Hi3 & Hc3 & Hb3 & Ho3 & told & Hp & Hall & Hg & Hc).
    cbn [core ctx cpu_name backend options set_core set_cpu_name] in *. do 3 wp_step.
    assert (initial (core b3)) as [_ Hcu Hhs Hen Hsc].
    { eapply inert_initial, (inert_initial (core b2)); [exact Hi3| |]; [by split|by eapply inert_initial, inert_initial]. }
    assert (graph_mode (core b3) = graph_mode (core b)) as Hgm.
    { rewrite (in_mode _ _ Hi3). cbn. by rewrite (in_mode _ _ no_core1), (in_mode _ _ no_core0). }
    assert (noted (tfq (core b)) (set_core (set_dev_gpu (bool_decide (gpu_name (core b3) ≠ [])) (core b3)) b3)) as Hn.
    { exists told. split_and!; [done| |exact Hg|exact Hc|done]. intros Hq. apply Hall. cbn.
      destruct no_lucky1 as [k1 E1], no_lucky0 as [k0 E0]. rewrite Hq, E1 in E0. by destruct k0, k1, (tfq (core b2)). }
    destruct l as [t|]; cbn; repeat wp_step; (split_and!; [by split|congruence|congruence|lia|exact Hn|done]).
Qed.

(** The torch module beside this one, or why there is none. *)
Definition found_torch : library + bytes :=
  match own_file with
  | None => inr $"dladdr: cannot find this module's own path"
  | Some file => match open_torch (torch_path file) with inl l => inl l | inr why => inr (no_torch (torch_path file) why) end
  end.

(** C38. A back end started from the module as it is loaded: either the torch
    module beside it was told the name tensorflow, and then a context was made,
    the first GPU and the first CPU TensorFlow tells of are noted, work goes to
    the GPU if there is one, the mode is the torch module's, and the answer is
    its answer; or it was told nothing, the answer is 0 and the error says
    which step failed.  Either way the slots, handles, compiled closures and
    scalars are as they are before the first call, and the options are given
    back. *)
Theorem attach_starts b (Hb : ctx b = false) (Hi : initial (core b)) (Hn : backend b = None) :
  wp tfb_attach (λ r b', initial (core b') ∧ options b' = options b ∧
    match found_torch with
    | inr why => r = 0%Z ∧ backend b' = None ∧ errbuf (core b') = why
    | inl (Library mode None) =>
        r = 0%Z ∧ backend b' = None ∧ errbuf (core b') = $"torch.so has no coco_tensor_backend_set: rebuild library(torch)"
    | inl (Library mode (Some set)) =>
        if ctx b' then
          r = set $"tensorflow" ∧ backend b' = Some $"tensorflow" ∧ noted (tfq (core b)) b' ∧ graph_mode (core b') = default 0%Z mode
        else r = 0%Z ∧ backend b' = None ∧ ∃ m, Some m ∈ tfq (core b) ∧ errbuf (core b') = snprintf_s 512 m
    end) nowhere b.
Proof.
  unfold tfb_attach, found_torch. assert (∀ e, initial (set_errbuf e (core b))) as He by (intros e; eapply inert_initial, Hi; by split).
  destruct own_file as [file|]; [|wp_step; apply wp_lift; unfold fail; do 2 wp_step; split_and!; done || apply He]. cbv zeta.
  destruct (open_torch (torch_path file)) as [[mode [set|]]|why]; cbn [coco_tensor_backend_set].
  - wp_step. eapply wp_mono; [by apply wp_tfb_init|cbv beta|done]. intros [] b1 (Hi1 & Hc1 & Hb1 & Ho1 & Hr).
    + do 2 wp_step. cbn. rewrite Hc1. by destruct Hr.
    + wp_step. rewrite Hc1. split_and!; try done. congruence.
  - wp_step. apply wp_lift. unfold fail. do 2 wp_step. split_and!; done || apply He.
  - do 2 wp_step. wp_step. split_and!; done || apply He.
Qed.
End start.

(** torch.so in the directory the module is in. *)
Lemma strrchr_last d x n : (∀ y, y ∈ n → byte_val y ≠ byte_val x) → strrchr (d ++ x :: n) (byte_val x) = Some (length d).
Proof.
  intros Hn. induction d as [|y d IH]; cbn; [|by rewrite IH].
  assert (strrchr n (byte_val x) = None) as ->; [|by rewrite decide_True].
  induction n as [|y n IH]; [done|]. cbn. rewrite IH by (intros z Hz; apply Hn; by right).
  rewrite decide_False; [done|]. apply Hn. by left.
Qed.
Lemma torch_beside d n :
  no_nul (d ++ $"/" ++ n) → (∀ y, y ∈ n → byte_val y ≠ 47%Z) → length (d ++ $"/" ++ n) < PATH_SIZE → length d + 10 ≤ PATH_SIZE →
  torch_path (d ++ $"/" ++ n) = d ++ $"/torch.so".
Proof.
  intros Hz Hn Hl Hd. unfold torch_path, snprintf_s. rewrite c_str_id by done. rewrite (take_ge (d ++ _)) by lia. cbv zeta.
  change ($"/" ++ n) with ("/"%byte :: n). change 47%Z with (byte_val "/"%byte) in *. rewrite strrchr_last by done.
  rewrite (c_str_id $"torch.so") by (apply (bool_decide_unpack _); by vm_compute). rewrite (take_ge $"torch.so") by (change (length $"torch.so") with 8; lia).
  rewrite take_app_ge by lia. replace (length d + 1 - length d) with 1 by lia. cbn. by rewrite take_0, <- app_assoc.
Qed.

(** ** A start *)

#[local] Instance toy_loader : Loader := {|
  own_file := Some $"/opt/coco/tf.so";
  resident := λ p, if decide (p = $"/opt/coco/torch.so") then Some (Library (Some 1%Z) (Some (λ n, Z.of_nat (length n)))) else None;
  load := λ _, inr $"no such file" |}.
#[local] Instance toy_devices : Devices := {|
  device_list := Some [(Some $"CPU", Some $"/cpu:0"); (Some $"GPU", None); (Some $"GPU", Some $"/gpu:0"); (Some $"GPU", Some $"/gpu:1")] |}.
Lemma toy_torch : found_torch = inl (Library (Some 1%Z) (Some (λ n, Z.of_nat (length n)))).
Proof. by vm_compute. Qed.
Definition unstarted : boot := Boot (loaded 0 []) false [] None 0 0 0.
Lemma attach_starts_witness :
  wp tfb_attach (λ r b, r = 10%Z ∧ backend b = Some $"tensorflow" ∧ initial (core b) ∧ noted [] b ∧
    gpu_name (core b) = $"/gpu:0" ∧ cpu_name b = $"/cpu:0" ∧ graph_mode (core b) = 1%Z) nowhere unstarted.
Proof.
  assert (wp tfb_attach (λ _ b, ctx b = true ∧ gpu_name (core b) = $"/gpu:0" ∧ cpu_name b = $"/cpu:0") nowhere unstarted) as Hv by by vm_compute.
  eapply wp_mono; [exact (wp_and _ _ _ _ _ _ Hv (attach_starts unstarted eq_refl (loaded_initial 0 []) eq_refl))| |by intros ? []].
  cbv beta. rewrite toy_torch. intros r b ((Hc & Hg & Hp) & Hi & _ & Hs). rewrite Hc in Hs. destruct Hs as (-> & Hb & Hn & ->).
  split_and!; [reflexivity|exact Hb|exact Hi|exact Hn|exact Hg|exact Hp|reflexivity].
Defined.
