(* ===== verification/Deviations.v ===== *)
(** * Where backend.c does not do what it means to

    The findings about modules/tensorflow/backend.c that one run shows, each
    evaluated on the toy TensorFlow. *)
From Stdlib Require Import Floats.SpecFloat.
From S2P Require Import Prelude Effect Float Tensor Closure Compile Shape Producer Csv Slots Table Record Meaning Typed Visit Key Frame Cached Described Evaluate Running Reading Recorded Specified Service Machine Makes Compound Step Simulate Agreement Eager ToyFlow Reached.

(** What a run answers, and the state it leaves. *)
Definition returned {A} (r : res tfst A) : option A := match r with Ret a _ => Some a | _ => None end.
Definition left_in {A} (r : res tfst A) : option tfst := match r with Ret _ s => Some s | _ => None end.

Definition ones : call := C_from_doubles [double_of 1] [1%Z].
(** TensorFlow failing at the [n]-th thing asked of it. *)
Definition failing_at (n : nat) : list (option bytes) := replicate n None ++ [Some $"out of memory"].


(** Broadcast, no elements against one are none; the rule says one. *)
Lemma bcast_of_empty : bcast [0%Z] [1%Z] = Some [1%Z] ∧ broadcast [0%Z] [1%Z] = Some [0%Z].
Proof. by split; vm_compute. Qed.

(** ... and then a tensor that has elements is told a wrong size: joined to
    three, the empty sum is taken for one. *)
Lemma concat_of_empty :
  returned ((e <-? tfb_from_doubles [] [0%Z] ;; o <-? tfb_from_doubles [double_of 1] [1%Z] ;; x <-? tfb_binary $"add" e o ;;
             y <-? tfb_arange 3 ;; c <-? tfb_cat [x; y] 0 ;; tfb_shape c) (loaded 1 [])) = Some (Some [4%Z]).
Proof. by vm_compute. Qed.

(** A size of -2 is no size; the rule takes two of them for a shape of four. *)
Lemma reshape_to_negative : reshape_dims 4 [-2; -2]%Z = inl [-2; -2]%Z ∧ reshaped 4 [-2; -2]%Z = None.
Proof. by split; vm_compute. Qed.

(** An axis a vector does not have is written to. *)
Lemma concat_axis_unchecked :
  match (x <-? tfb_from_doubles [double_of 1] [1%Z] ;; tfb_cat [x; x] 9) (loaded 1 []) with Spin _ => True | _ => False end.
Proof. by vm_compute. Qed.

(** A function TensorFlow would not take is kept as if it had. *)
Lemma refused_function_kept :
  (λ s, existsb (λ e, bool_decide (fn e ≠ None ∧ noutputs e = 0%Z ∧ function_outs e ≠ [])) (entries s)) <$>
    left_in (do_calls [ones; C_unary $"neg" 1; C_values 2] (loaded 1 (failing_at 4))) = Some true.
Proof. by vm_compute. Qed.

(** There is no tensor 3: the call's own 2.0 is, and is doubled. *)
Lemma temporary_for_operand :
  returned (do_calls [C_exists 3; C_scalar $"mul" 3 (double_of 2); C_values 4] (set_slot_cursor 3 (loaded 1 []))) =
    Some [A_bool false; A_handle (Some 4%Z); A_values (Some ([double_of 4], []))].
Proof. by vm_compute. Qed.

(** One times -0 is -0; after a product with 0 it is 0. *)
Definition last_of_zeros (zs : list float64) : option answer :=
  l ← returned (do_calls (ones :: (C_scalar $"mul" 1 <$> zs) ++ [C_values (1 + 2 * Z.of_nat (length zs))]) (loaded 0 [])); last l.
Lemma zeros_share_a_scalar :
  last_of_zeros [S754_zero true] = Some (A_values (Some ([S754_zero true], [1%Z]))) ∧
  last_of_zeros [S754_zero false; S754_zero true] = Some (A_values (Some ([S754_zero false], [1%Z]))).
Proof. by split; vm_compute. Qed.

(** The derivative of a parameter by itself is answered as 0. *)
Lemma own_gradient_zero :
  returned ((x <-? tfb_from_doubles [double_of 1] [1%Z] ;; w <-? tfb_parameter x ;; g <-? tfb_grad w [w] ;;
             tfb_values (default 0%Z (g !! 0))) (loaded 1 [])) = Some (Some ([S754_zero false], [1%Z])).
Proof. by vm_compute. Qed.

(** A slice that could not make its second temporary keeps its first. *)
Lemma slice_leaks :
  (λ s, filter (λ i, exists_ s i = true) (seqZ 1 8)) <$>
    left_in ((x <-? tfb_from_doubles [double_of 1] [1%Z] ;; tfb_slice x 0 0 1) (loaded 1 (failing_at 2))) = Some [1%Z; 2%Z].
Proof. by vm_compute. Qed.

(** Two places of a permutation that are one float. *)
Lemma places_rounded : narrow (double_of (2 ^ 24)) = narrow (double_of (2 ^ 24 + 1)).
Proof. by vm_compute. Qed.

(** A line of 8192 digits is read as two. *)
Lemma long_line_splits : csv (replicate LINE_SIZE (byte_of 48)) = inl ([S754_zero false; S754_zero false], 2%Z, 1%Z).
Proof. by vm_compute. Qed.

(** A gradient TensorFlow fails to give is answered as zeros, now and for every
    later loss of that structure; the one it does give is 2. *)
Definition with_luck {A} (q : list (option bytes)) (s : tfst) (m : T A) : res tfst A :=
  match modify (λ s, TfSt (slots s) (slot_cursor s) (hs s) (next_h s) (entries s) (scalars s) (scalar_next s) (seed_base s) (seed_next s)
                       (gpu_name s) (dev_gpu s) (graph_mode s) (errbuf s) (opcount s) (fncount s) (stat_rec s) (stat_exe s) (stat_rep s) q) s with
  | Ret _ s => m s
  | Block s => Block s
  | Spin s => Spin s
  end.
Definition gradient_twice (q : list (option bytes)) : option (option (list float64 * list Z) * option (list float64 * list Z)) :=
  match do_calls [ones; C_parameter 1; C_binary $"mul" 2 2] (loaded 1 []) with
  | Ret _ s => returned (with_luck q s (g <- tfb_grad 3 [2%Z] ;; l <- tfb_binary $"mul" 2 2 ;; g' <- tfb_grad (default 0%Z l) [2%Z] ;;
                          v <- tfb_values (default 0%Z (default [] g !! 0)) ;; v' <- tfb_values (default 0%Z (default [] g' !! 0)) ;;
                          ret (v, v')))
  | _ => None
  end.
Lemma failed_gradient_zero :
  gradient_twice [] = Some (Some ([double_of 2], [1%Z]), Some ([double_of 2], [1%Z])) ∧
  gradient_twice ([None; None] ++ replicate 2 (Some $"No gradient defined for op")) =
    Some (Some ([S754_zero false], [1%Z]), Some ([S754_zero false], [1%Z])).
Proof. split; by vm_compute. Qed.

(** Of two gradients only the first can be had: it is answered to nobody. *)
Lemma gradients_leak :
  match do_calls [ones; C_parameter 1; C_parameter 1] (loaded 1 []) with
  | Ret _ s => Some (returned (with_luck (failing_at 1) s (tfb_grad 1 [2; 3]%Z)),
                     (λ s, filter (λ i, exists_ s i = true) (seqZ 1 8)) <$> left_in (with_luck (failing_at 1) s (tfb_grad 1 [2; 3]%Z)))
  | _ => None
  end = Some (Some None, Some [1; 2; 3; 4]%Z).
Proof. by vm_compute. Qed.
